(* ===== verification/_CoqProject ===== *)
-Q . S2P
Prelude.v
GoLib.v
GoValue.v
KubeTypes.v
AccessControl.v
Partitions.v
ListProcessor.v
PartitionStore.v
ProxyStore.v
ProxyWatch.v
ParallelLister.v
QueryParser.v
SqlQuery.v
SqlPlaceholders.v
SqlAccess.v
SqlProcessor.v
SqlResults.v
WatchBackfill.v
WatchEvents.v
WatchPartitions.v
SyntheticWatcher.v
Counts.v
SummaryCache.v
ClusterCache.v
DateFields.v
VirtualFields.v
IndexFields.v
ExternalInfo.v
SqlStore.v
Encryption.v
Schemas.v
OpenApi.v
Definitions.v
VisitorSpec.v
CrdSpec.v
DefinitionsExact.v
Debounce.v
Formatter.v
ClientFactory.v
WatchRefresh.v
ApiTrace.v
Discovery.v
DiscoverySpec.v
SchemaRefresh.v
PodImpersonation.v
DbClient.v
DbConnection.v
SqlFunctions.v
TableConvert.v
SqlProxyStore.v
SchemaTracker.v
InformerFactory.v
SchemaWatch.v
RequestAuth.v
ApiHandler.v
ExtServer.v
Aggregation.v
SqlIndexer.v
Templates.v
HelmFormatter.v
