(* ===== verification/Prelude.v ===== *)
(** * Steve: a Kubernetes API proxy, modelled and verified

    Steve serves the resources of a Kubernetes cluster over HTTP. A request becomes list
    or watch options; the RBAC rules of the user become an access set; the access set
    becomes partitions (namespaces and object names the user may see); a store lists or
    watches the partitions, either through the Kubernetes API or from an SQL cache that
    informers keep up to date; a list is filtered, sorted and cut into pages.

    ** Files and the code they model

    - [Prelude], [GoLib], [GoValue]: results of Go functions ([outcome]: a value, an error
      or a panic), the parts of Go's standard library the program uses, the values of
      unstructured objects. Shared lemmas, tactics and the hint database [steve].
    - [AccessControl]: pkg/accesscontrol. Access sets, the indexes of role bindings, the
      grants of a user with their hash, and the cached access store.
    - [Partitions]: pkg/stores/proxy/rbac_store.go and [List]/[ByNames] of
      pkg/stores/proxy/proxy_store.go. Partitions from access sets and listing through them.
    - [ParallelLister]: pkg/stores/partition/parallel.go. The goroutines that list the
      partitions, as a step relation over their shared variables.
    - [ListProcessor]: pkg/stores/partition/listprocessor/processor.go and
      pkg/stores/queryhelper. Filters, sorting and pages of a list.
    - [PartitionStore]: [List] of pkg/stores/partition/store.go with the cache of lists.
    - [QueryParser]: pkg/stores/sqlpartition/queryparser. The lexer and parser of the
      filter language and the text of its selectors.
    - [SqlProcessor]: pkg/stores/sqlpartition/listprocessor/processor.go. List options from
      the parameters of a request.
    - [SqlQuery], [SqlPlaceholders], [SqlResults]: the queries of
      pkg/sqlcache/informer/listoption_indexer.go (types of pkg/sqlcache/sqltypes and
      pkg/sqlcache/partition): their text and parameters, their pages.
    - [SqlAccess]: pkg/stores/sqlpartition/partitioner.go and what the conditions built
      from its partitions select.
    - [IndexFields], [SqlStore]: the tables beside the objects of a resource: getField and
      the hooks of listoption_indexer.go and indexer.go, the operations of
      pkg/sqlcache/store/store.go, the transactions of pkg/sqlcache/db/client.go.
    - [WatchEvents], [WatchBackfill], [WatchPartitions]: the log of events, the replay at
      the start of a watch and the proxy channel of listoption_indexer.go; the goroutines
      of [WatchByPartitions] of pkg/stores/sqlproxy/proxy_store.go.
    - [SyntheticWatcher]: pkg/sqlcache/informer/synthetic_watcher.go.
    - [Counts]: pkg/resources/counts.
    - [KubeTypes]: the notions of Kubernetes that several files share: kinds, API errors,
      warnings, edits of nested fields of an object (interfaces with their laws).
    - [ProxyStore]: create, update, delete and byID of
      pkg/stores/proxy/proxy_store.go over an API server that is a parameter, with the
      error, unformatter and conversion layers around it (error_wrapper.go,
      unformatter.go, [ToAPI] and [moveToUnderscore] of pkg/stores/partition/store.go),
      the same operations of pkg/stores/sqlproxy and pkg/stores/sqlpartition/store.go.
    - [ClientFactory]: pkg/client/factory.go. The clients of Kubernetes and whom they act as.
    - [ProxyWatch]: the goroutines of [Watch] of pkg/stores/partition/store.go over the watches
      of pkg/stores/proxy. [WatchRefresh]: pkg/stores/proxy/watch_refresh.go, which ends a
      watch when the access of its user changes.
    - [SummaryCache]: pkg/summarycache, the relationships between objects that handlers of
      a cluster cache maintain, with the bus of subscriptions. [ClusterCache]:
      pkg/clustercache, the informers of all schemas and the handlers of their events.
    - [DateFields], [VirtualFields]: pkg/resources/virtual and the dates of
      pkg/resources/common: the transformation of objects
      before they enter a cache, and the columns that hold dates.
    - [Formatter]: pkg/resources/common/formatter.go. Links, permissions and fields of the
      objects of an answer.
    - [Schemas]: pkg/schema/factory.go, pkg/schema/collection.go and
      pkg/accesscontrol/access_control.go. The schemas of a user, their caches, and the
      authorisation of requests with them. [SchemaTracker]: pkg/sqlcache/schematracker.
    - [Encryption]: pkg/sqlcache/encryption. Key rotation, encryption and decryption.
    - [InformerFactory]: pkg/sqlcache/informer/factory. Calls that start, use and stop the
      informer of a type, as threads over its locks.
    - [ApiTrace]: programs that call an API as interaction trees, the traces of their calls and
      answers, and an interpreter. [PodImpersonation]: pkg/podimpersonation, the objects made
      for a pod that acts as a user, as such a program.
    - [SqlProxyStore]: pkg/stores/sqlproxy/proxy_store.go without the operations of [ProxyStore]:
      the set-up, the columns and caches of a schema, lists and watches, as programs over the
      factory of caches. [TableConvert]: pkg/stores/sqlproxy/tablelistconvert, the client whose
      lists and watches give objects instead of tables.
    - [DbClient], [DbConnection], [SqlFunctions]: pkg/sqlcache/db. Objects in the tables, encoded
      and encrypted; the file of the database; the functions registered with SQLite.
    - [OpenApi], [Definitions]: pkg/schema/definitions. The definitions of a resource from OpenAPI
      models and CRDs; [VisitorSpec], [CrdSpec] and [DefinitionsExact]: what they are without a
      traversal. [Debounce]: pkg/debounce, which refreshes them.
    - [Discovery], [DiscoverySpec]: pkg/schema/converter and the refresh of
      pkg/controllers/schema/schemas.go. The schemas of an API server. [SchemaRefresh]: the
      goroutines that refresh them when the server changes. [SchemaWatch]: the watch of the schemas
      of a user, pkg/resources/schemas/template.go.
    - [RequestAuth]: pkg/auth and pkg/proxy/proxy.go, who a request acts as when it is passed on to
      Kubernetes. [ApiHandler]: the handlers of pkg/server/handler/apiserver.go. [ExtServer]: pkg/ext, the extension
      API server. [Aggregation]: pkg/aggregation, its registration with a remote server.
    - [SqlIndexer]: look-ups by index in the tables of [SqlStore]. [ExternalInfo]: the columns that
      pkg/sqlcache/store/store.go copies between the tables of resources, after each upsert of [SqlStore].
    - [Templates]: the templates of pkg/schema/collection.go and pkg/schema/factory.go. [HelmFormatter]:
      pkg/resources/formatters/formatter.go.
    ** Correspondence

    Definitions have the names of the functions and types they translate; helpers that
    stand for a part of a function say so. Strings are Rocq strings of bytes, [int] is Z
    and wraps at 64 bits where a value of a request enters arithmetic (pages, offsets),
    maps are [gmap]s, a Go map is iterated in the order of a parameter ([MapRange]) that is
    only known to be a permutation, [sort.Slice] is a parameter that is only known to sort
    ([SliceSort]). An index out of range, a nil dereference and a failed type assertion are
    [Panic]. Mutable state is passed explicitly; goroutines are step relations, so that a
    theorem about every execution covers every interleaving. Code outside the repository
    (Kubernetes clients and informer caches, SHA-256, url.Values, SQLite, wrangler) is a
    parameter, its documented behaviour a class of laws with an instance that satisfies
    them; SQLite appears as the interface of its tables, for which [SqlAccess], [SqlResults]
    and [SqlStore] state what LIKE, IN, ON CONFLICT and ON DELETE CASCADE do.

    ** Theorems

    - Access: [AccessFor_allows_rbac] (an access set grants what the RBAC rules of the user
      allow), [Merge_grants_union], the cache as a refinement ([cached_store_refines_fresh])
      up to collisions of the hashed text ([hash_collision_shares_access]);
      [list_partitions_visible], [sql_list_visible] and [watch_visible]: what is listed and
      watched is what the user may see.
    - Lists: filters ([matchesOne_path_matches]), stable sorting, pages that concatenate to
      the list; every execution of the parallel lister sends a prefix of the partitions'
      items ([feeder_items]), ends ([feeder_terminates]), and following the continue tokens
      gives all items ([listing_complete]).
    - Language: the parser terminates without reading past its input and yields valid
      requirements; a printed selector parses back.
    - Queries: as many placeholders as parameters and no value in the text of a query
      ([constructQuery_placeholders], [constructQuery_text_fixed]); pages of a query.
    - Cache: the store refines a map ([store_refines_map]) and saves the columns of its objects that are neither
      taken for immutable nor copied from other resources; its tables refer to stored
      objects, columns hold the value at their path ([getField_path]).
    - Watches: order and delivery of events ([backfill_fifo], [backfill_delivers],
      [watch_complete]); counts that follow the events ([counts_track]).
    - Schemas: the methods a user is offered are those RBAC allows ([user_schema_methods]),
      requests are authorised only by RBAC ([CanDo_rbac]), the cached collection refines
      one without a cache ([cached_schemas_refine_fresh]) while requests do not overlap.
    - Encryption: what was encrypted can be decrypted after any rotation
      ([encrypted_data_readable]), no key is worn out ([key_uses_bounded]).
    - Informers: tables are dropped only while nobody uses them
      ([drop_excludes_requests]); a stop during a request deadlocks ([stop_deadlocks]).
    - Requests: what was read can be written back and gives the stored object, but for three fields of its
      conditions ([read_modify_write]), a create
      sends the object to the API server in the namespace it names ([create_sends]).
    - Caches of the cluster: the relationships of the summary cache are those of the
      objects ([relationships_exact]), a change reaches every subscriber
      ([change_notifies]), one of which may delay the rest ([slow_subscriber_blocks]);
      the cluster cache watches the schemas it can list ([OnSchemas_watches]).
    - Watches of the proxy store: what they send, and what a race on the namespace lets them
      send ([proxy_watch_sends]); they end when access changes, with an access
      store that caches ([watch_ends_with_access]).
    - Clients act as the user of their request ([clients_act_as_user]).
    - Answers: the links and permissions of an object are those RBAC gives the user
      ([formatter_shows_access]).
    - Virtual fields: an object that enters a cache keeps its identity and is restored when
      it leaves, but for the same three fields ([cached_object_roundtrip]); dates shown are computed from the time that
      was stored ([date_columns_fresh]).
    - Pods that act as a user: what their role allows ([role_allows_impersonation]), and that everything
      made after the role is owned by it and the role is deleted when the pod cannot be made
      ([CreatePod_owned]).
    - The SQL proxy store gives back every cache it takes, that of a watch too early
      ([requests_give_back_caches]), lists
      only the tokens of the user ([tokens_of_user]), and opens the cache of namespaces once
      ([Reset_namespace_cache]); its columns have guidance of their type
      ([guidance_of_columns]); a converted watch sends what its source sends
      ([converted_watch]).
    - The database: a stored object is read back whatever is stored in between
      ([stored_objects_readable]), its file is private ([NewConnection_private]), addresses
      sort as numbers ([inet_aton_sorts]).
    - Discovery: a refresh serves the kinds that are neither superseded nor hidden
      ([refresh_serves_discovered]); no change of the server is lost unless a refresh fails ([no_change_lost]);
      a client that watches the schemas has only those it may see ([schema_watch_tracks]).
    - Who a request acts as: in Kubernetes as the user the middleware found or with its own token
      ([proxied_as_user]); on the extension API server RBAC decides, but for subresources ([Authorize_rbac]).
    - Look-ups by index answer as an indexer over a map ([indexer_refines_map]); copied columns follow
      those they are copied from ([field_dependency_copies]).
    - Templates: which formatters run and which store is used ([applyTemplates_spec]), what runs after a reset
      ([startStopTemplate_spec]).
    - Definitions: the visitor finds exactly the kinds that can be reached, and ends
      ([openapi_definitions_exact]); a CRD overrides its OpenAPI model ([resource_definition]); the
      preferred version of a kind is chosen ([listGVKModels_preferred]).
    Theorems whose names say so ([..._ignores_...], [..._race], [..._stale_rows] and the
    like) show where the code departs from what it means to do.

    ** Bounds and fuel

    The lexer, parser and the search for subfields run on fuel that is a function of the
    length of their input ([length + 1] or more), which is enough since each round
    consumes a character or an item: [ParseToRequirements_total] and the lemmas on
    [find_subfields] show that no input runs out. The visitor of OpenAPI models and the
    conversion of CRDs run on fuel as well: [openapi_definitions_exact] and [resource_definition]
    give an amount that is enough, for a CRD the size of its schema. Everything else is structural.

    ** Assumptions

    [notifyEvent] is one step, although it takes its lock twice. Counters of objects and
    row ids are unbounded. Statements of the SQL store do not fail, apart from unique keys.
    Errors of a lister and cancelled contexts, after which results are discarded, are left
    out of [ParallelLister]. In [Discovery] the columns of the schemas are asked for one after the
    other, and no server has a resource of the kind of the base schema.

    ** Not modelled

    - [DropAll] and the statements that create tables: sequences of SQL statements whose effect is SQLite's.
    - The set-up and routing of pkg/server, the tunnel of pkg/aggregation, the set-up of the generic API server of
      pkg/ext and its authenticators, pkg/ui, pkg/debug, pkg/metrics, main.go: TLS, command lines and calls into
      libraries, with no state of their own to reason about.
    - pkg/resources other than counts, virtual, common, schemas and formatters; generated code (protocol buffers,
      mocks).
*)
From Stdlib Require Export Ascii.
From stdpp Require Export base option list gmap sets strings sorting pretty numbers.

#[global] Arguments String.append : simpl nomatch.

Declare Scope steve_scope.
Delimit Scope steve_scope with steve.
Create HintDb steve.
Create Rewrite HintDb steve.

(** ** Results of Go functions

    A Go function either returns a value, returns an error, or panics (a slice
    index out of range, a nil dereference). *)
Inductive outcome (E A : Type) : Type :=
  | Ok (a : A)
  | Err (e : E)
  | Panic.
Arguments Ok {E A} a.
Arguments Err {E A} e.
Arguments Panic {E A}.

#[export] Instance outcome_ret {E} : MRet (outcome E) := λ A a, Ok a.
#[export] Instance outcome_bind {E} : MBind (outcome E) := λ A B k m,
  match m with Ok a => k a | Err e => Err e | Panic => Panic end.
#[export] Instance outcome_fmap {E} : FMap (outcome E) := λ A B f m,
  match m with Ok a => Ok (f a) | Err e => Err e | Panic => Panic end.

#[export] Instance outcome_eq_dec {E A} `{EqDecision E, EqDecision A} :
  EqDecision (outcome E A).
Proof. solve_decision. Defined.

Definition is_ok {E A} (m : outcome E A) : bool :=
  match m with Ok _ => true | _ => false end.

Lemma outcome_bind_ok {E A B} (m : outcome E A) (k : A → outcome E B) b :
  m ≫= k = Ok b ↔ ∃ a, m = Ok a ∧ k a = Ok b.
Proof.
  destruct m; simpl; split; try (intros (? & ? & ?); simplify_eq; done); eauto; done.
Qed.

(** Runs [f] over a list from left to right and stops at the first error. *)
Fixpoint map_outcome {E A B} (f : A → outcome E B) (l : list A) : outcome E (list B) :=
  match l with
  | [] => Ok []
  | x :: l => y ← f x; ys ← map_outcome f l; mret (y :: ys)
  end.

Lemma map_outcome_ok {E A B} (f : A → outcome E B) l ys :
  map_outcome f l = Ok ys ↔ Forall2 (λ x y, f x = Ok y) l ys.
Proof.
  revert ys. induction l as [|x l IH]; intros ys; cbn.
  - split; [intros [= <-]; constructor|by inversion_clear 1].
  - split.
    + intros (y & Hy & (ys' & Hys & [= <-])%outcome_bind_ok)%outcome_bind_ok.
      constructor; [done|by apply IH].
    + inversion_clear 1 as [|? y ? ys' Hy Hys]. apply IH in Hys.
      by rewrite Hy; cbn; rewrite Hys.
Qed.

Lemma map_outcome_fmap {E A B} (f : A → outcome E B) (g : A → B) l :
  (∀ x, x ∈ l → f x = Ok (g x)) → map_outcome f l = Ok (g <$> l).
Proof.
  induction l as [|x l IH]; intros Hf; cbn; [done|].
  rewrite Hf by by left. cbn. rewrite IH; [done|]. intros. apply Hf. by right.
Qed.

(** Threads a state through a list and stops at the first error. *)
Fixpoint foldl_outcome {E A B} (f : A → B → outcome E A) (a : A) (l : list B) : outcome E A :=
  match l with
  | [] => Ok a
  | x :: l => a' ← f a x; foldl_outcome f a' l
  end.

(** An invariant of the state holds at the end. *)
Lemma foldl_outcome_inv {E A B} (I : A → Prop) (f : A → B → outcome E A) a l b :
  I a → (∀ a x a', x ∈ l → I a → f a x = Ok a' → I a') →
  foldl_outcome f a l = Ok b → I b.
Proof.
  revert a. induction l as [|x l IH]; intros a Ha Hf Hl; [by injection Hl as <-|].
  apply outcome_bind_ok in Hl as (a' & Hx & Hl). eapply IH, Hl.
  - by eapply (Hf a x); [left| |].
  - intros a0 x0 ??. apply (Hf a0 x0). by right.
Qed.

(** Two runs on related states and lists stay related. *)
Lemma foldl_outcome_rel {E A A' B B'} (R : A → A' → Prop) (S : B → B' → Prop)
    (f : A → B → outcome E A) (f' : A' → B' → outcome E A') a a' l l' b b' :
  R a a' → Forall2 S l l' →
  (∀ a a' x x' b b', R a a' → S x x' → f a x = Ok b → f' a' x' = Ok b' → R b b') →
  foldl_outcome f a l = Ok b → foldl_outcome f' a' l' = Ok b' → R b b'.
Proof.
  intros Ha Hl Hf. revert a a' Ha. induction Hl as [|x x' l l' Hx Hl IH]; intros a a' Ha.
  - by intros [= <-] [= <-].
  - intros (c & Hc & ?)%outcome_bind_ok (c' & Hc' & ?)%outcome_bind_ok. eauto.
Qed.

Lemma Ok_inj {E A} (x y : A) : @Ok E A x = Ok y → x = y.
Proof. by intros [= ->]. Qed.

(** Splits a sequence of calls that returned, without computing the results. *)
Ltac invert_outcome :=
  repeat match goal with
    | H : mbind _ _ = Ok _ |- _ => apply outcome_bind_ok in H as (? & ? & H)
    | H : Ok _ = Ok _ |- _ => apply Ok_inj in H; subst
    | H : Err _ = Ok _ |- _ => discriminate H
    | H : (_, _) = (_, _) |- _ => apply pair_equal_spec in H as [? ?]; subst
    end.

(** ** Functions that do not panic *)
Lemma bind_no_panic {E A B} (m : outcome E A) (k : A → outcome E B) :
  m ≠ Panic → (∀ a, m = Ok a → k a ≠ Panic) → m ≫= k ≠ Panic.
Proof. destruct m; cbn; intros Hm Hk; [by apply Hk|done|done]. Qed.

Lemma map_outcome_no_panic {E A B} (f : A → outcome E B) l :
  (∀ x, x ∈ l → f x ≠ Panic) → map_outcome f l ≠ Panic.
Proof.
  induction l as [|x l IH]; intros Hf; cbn [map_outcome]; [done|].
  apply bind_no_panic; [by apply Hf; left|]. intros y _.
  apply bind_no_panic; [|done]. apply IH. intros. apply Hf. by right.
Qed.

Lemma foldl_outcome_no_panic {E A B} (f : A → B → outcome E A) a l :
  (∀ a x, x ∈ l → f a x ≠ Panic) → foldl_outcome f a l ≠ Panic.
Proof.
  revert a. induction l as [|x l IH]; intros a Hf; cbn [foldl_outcome]; [done|].
  apply bind_no_panic; [by apply Hf; left|]. intros a' _. apply IH. intros. apply Hf. by right.
Qed.

(** ** Machine integers: Go's [int] and [int64] on a 64-bit platform *)
Section int64.
Open Scope Z_scope.

Definition min_int64 : Z := - 2 ^ 63.
Definition max_int64 : Z := 2 ^ 63 - 1.
Definition in_int64 (z : Z) : Prop := min_int64 ≤ z ≤ max_int64.

Definition wrap64 (z : Z) : Z := (z + 2 ^ 63) mod 2 ^ 64 - 2 ^ 63.

Lemma wrap64_range z : in_int64 (wrap64 z).
Proof.
  unfold in_int64, wrap64, min_int64, max_int64.
  pose proof (Z.mod_pos_bound (z + 2 ^ 63) (2 ^ 64)). lia.
Qed.

Lemma wrap64_small z : in_int64 z → wrap64 z = z.
Proof.
  unfold in_int64, wrap64, min_int64, max_int64. intros.
  rewrite Z.mod_small; lia.
Qed.
End int64.
#[export] Hint Resolve wrap64_range : steve.
#[export] Hint Rewrite wrap64_small using (unfold in_int64, min_int64, max_int64; lia) : steve.

(** ** Iteration over a Go map

    The order of [for k, v := range m] is not specified and may differ between two
    loops over the same map. A definition that ranges over a map takes an instance
    of [MapRange], and a theorem about it holds for every instance. *)
Class MapRange := {
  range_map : ∀ {K} {eqK : EqDecision K} {cntK : Countable K} {V}, gmap K V → list (K * V);
  range_map_perm : ∀ {K} {eqK : EqDecision K} {cntK : Countable K} {V} (m : gmap K V),
    range_map m ≡ₚ map_to_list m
}.

(** The order of [map_to_list], used to evaluate definitions on concrete inputs. *)
Definition canonical_range : MapRange := {|
  range_map := λ K eqK cntK V m, map_to_list m;
  range_map_perm := λ K eqK cntK V m, reflexivity _
|}.

Section map_range.
Context `{MapRange} {K} `{Countable K} {V : Type}.
Implicit Types m : gmap K V.

Lemma elem_of_range_map m k v : (k, v) ∈ range_map m ↔ m !! k = Some v.
Proof. rewrite range_map_perm. apply elem_of_map_to_list. Qed.

Lemma NoDup_fst_range_map m : NoDup (range_map m).*1.
Proof. rewrite range_map_perm. apply NoDup_fst_map_to_list. Qed.

Lemma NoDup_range_map m : NoDup (range_map m).
Proof. rewrite range_map_perm. apply NoDup_map_to_list. Qed.

(** [for k := range m]. *)
Definition range_keys m : list K := (range_map m).*1.

Lemma elem_of_range_keys m k : k ∈ range_keys m ↔ is_Some (m !! k).
Proof.
  unfold range_keys. rewrite list_elem_of_fmap. split.
  - intros ([k' v] & -> & Hkv). apply elem_of_range_map in Hkv. by eexists.
  - intros [v Hv]. exists (k, v). by rewrite elem_of_range_map.
Qed.

Lemma NoDup_range_keys m : NoDup (range_keys m).
Proof. apply NoDup_fst_range_map. Qed.

Lemma range_map_empty : range_map (∅ : gmap K V) = [].
Proof. apply Permutation_nil_r. rewrite range_map_perm. by rewrite map_to_list_empty. Qed.
End map_range.
#[export] Hint Resolve NoDup_range_keys NoDup_fst_range_map NoDup_range_map : steve.
#[export] Hint Rewrite @elem_of_range_map @elem_of_range_keys : steve.

(** ** Boolean helpers *)
Lemma existsb_true {A} (f : A → bool) l : existsb f l = true ↔ ∃ x, x ∈ l ∧ f x = true.
Proof. rewrite existsb_exists. by setoid_rewrite <- list_elem_of_In. Qed.

Lemma forallb_true {A} (f : A → bool) l : forallb f l = true ↔ ∀ x, x ∈ l → f x = true.
Proof. rewrite forallb_forall. by setoid_rewrite <- list_elem_of_In. Qed.

Lemma existsb_perm {A} (f : A → bool) l1 l2 :
  l1 ≡ₚ l2 → existsb f l1 = existsb f l2.
Proof.
  intros Hp. apply eq_true_iff_eq. rewrite !existsb_true. by setoid_rewrite Hp.
Qed.

#[export] Hint Rewrite @existsb_true @forallb_true orb_true_iff andb_true_iff
  bool_decide_eq_true negb_true_iff : steve.

(** Splits every conjunction and existential of the context. *)
Ltac split_hyps :=
  repeat match goal with
    | H : _ ∧ _ |- _ => destruct H
    | H : ∃ _, _ |- _ => destruct H
    | H : (_ && _)%bool = true |- _ => apply andb_prop in H
    end.

(** Case analysis on the [if]s and [match]es of the goal, then closing. *)
Ltac by_cases := repeat (case_match || case_decide || case_bool_decide); simplify_eq/=; try done.

(** ** Folds that only add

    If each step of a fold makes [Q] hold exactly when it held before or the element
    satisfies [P], the fold does so for some element of the list. *)
Lemma foldl_ext {A B} (f g : A → B → A) a l : (∀ a x, f a x = g a x) → foldl f a l = foldl g a l.
Proof. intros Hf. revert a. induction l as [|x l IH]; intros a; cbn; [done|]. by rewrite Hf, IH. Qed.

Lemma foldl_or {A B} (Q : A → Prop) (P : B → Prop) (f : A → B → A) l a :
  (∀ a x, x ∈ l → Q (f a x) ↔ Q a ∨ P x) →
  Q (foldl f a l) ↔ Q a ∨ ∃ x, x ∈ l ∧ P x.
Proof.
  revert a. induction l as [|x l IH]; intros a Hf; cbn.
  - split; [by left|]. intros [?|(? & Hx & _)]; [done|]. by apply not_elem_of_nil in Hx.
  - rewrite IH by (intros; apply Hf; by right). rewrite Hf by by left.
    setoid_rewrite elem_of_cons. naive_solver.
Qed.

Lemma elem_of_flat_bind {A B} (f : A → list B) l y :
  y ∈ l ≫= f ↔ ∃ x, y ∈ f x ∧ x ∈ l.
Proof. apply list_elem_of_bind. Qed.

Lemma is_Some_None_iff {A} : is_Some (@None A) ↔ False.
Proof. split; [by intros [? ?]|done]. Qed.
Lemma is_Some_Some_iff {A} (x : A) : is_Some (Some x) ↔ True.
Proof. split; [done|by eexists]. Qed.
#[export] Hint Rewrite @is_Some_None_iff @is_Some_Some_iff : steve.

Lemma exists_elem_of_cons {A} (P : A → Prop) x (l : list A) :
  (∃ y, y ∈ x :: l ∧ P y) ↔ P x ∨ ∃ y, y ∈ l ∧ P y.
Proof. setoid_rewrite elem_of_cons. naive_solver. Qed.
Lemma exists_elem_of_nil {A} (P : A → Prop) : (∃ y, y ∈ @nil A ∧ P y) ↔ False.
Proof. setoid_rewrite elem_of_nil. naive_solver. Qed.
Lemma exists_elem_of_app {A} (P : A → Prop) (l1 l2 : list A) :
  (∃ y, y ∈ l1 ++ l2 ∧ P y) ↔ (∃ y, y ∈ l1 ∧ P y) ∨ ∃ y, y ∈ l2 ∧ P y.
Proof. setoid_rewrite elem_of_app. naive_solver. Qed.
Lemma exists_elem_of_fmap {A B} (f : A → B) (P : B → Prop) (l : list A) :
  (∃ y, y ∈ f <$> l ∧ P y) ↔ ∃ x, x ∈ l ∧ P (f x).
Proof. setoid_rewrite list_elem_of_fmap. naive_solver. Qed.
#[export] Hint Rewrite @exists_elem_of_cons @exists_elem_of_nil @exists_elem_of_app
  @exists_elem_of_fmap : steve.

(** ** Filters *)
Lemma elem_of_list_filter {A} (f : A → bool) l x : x ∈ List.filter f l ↔ x ∈ l ∧ f x = true.
Proof. rewrite !list_elem_of_In. apply filter_In. Qed.

Lemma list_filter_filter {A} (f g : A → bool) l :
  List.filter g (List.filter f l) = List.filter (λ x, f x && g x) l.
Proof.
  induction l as [|x l IH]; cbn; [done|].
  destruct (f x); cbn; [|done]. destruct (g x); by rewrite IH.
Qed.

Lemma list_filter_nil {A} (f : A → bool) l :
  (∀ x, x ∈ l → f x = false) → List.filter f l = [].
Proof.
  intros Hf. induction l as [|x l IH]; cbn; [done|].
  rewrite Hf by by left. apply IH. intros. apply Hf. by right.
Qed.

Lemma list_filter_all {A} (f : A → bool) l :
  (∀ x, x ∈ l → f x = true) → List.filter f l = l.
Proof.
  intros Hf. induction l as [|x l IH]; cbn; [done|].
  rewrite Hf by by left. f_equal. apply IH. intros. apply Hf. by right.
Qed.

Lemma NoDup_list_filter {A} (f : A → bool) l : NoDup l → NoDup (List.filter f l).
Proof. rewrite !NoDup_ListNoDup. apply List.NoDup_filter. Qed.

Lemma concat_fmap {A B} (f : A → list B) l : List.concat (f <$> l) = l ≫= f.
Proof. induction l as [|x l IH]; cbn; [done|]. f_equal. exact IH. Qed.
#[export] Hint Rewrite @elem_of_list_filter : steve.
#[export] Hint Resolve NoDup_list_filter : steve.
