(* ===== verification/GoLib.v ===== *)
(** * The parts of Go's standard library the program uses

    [strings.Split], [strings.Join], [strings.Contains], [strings.ReplaceAll],
    [strconv.Atoi], [strconv.ParseInt], [sort.Strings], [slices.SortStableFunc] and
    [sort.Slice]. A Go string is a sequence of bytes: a Rocq [string]. *)
From S2P Require Import Prelude.

(** ** Characters that cannot be written inside a string literal *)
Definition dquote : ascii := "034"%char.
Definition dq : string := String dquote "".
Definition nl : string := String "010"%char "".

(** ** [package strings] *)
Section strings.
Implicit Types (c : ascii) (s : string).

(** [strings.Split(s, sep)] for a separator of one byte. *)
Fixpoint split_on c s : list string :=
  match s with
  | "" => [""]
  | String a r =>
      if Ascii.eqb a c then "" :: split_on c r
      else match split_on c r with
           | h :: t => String a h :: t
           | [] => [String a ""]
           end
  end.

(** [strings.Join]. *)
Definition join (sep : string) (l : list string) : string := String.concat sep l.

Fixpoint has_char c s : bool :=
  match s with "" => false | String a r => Ascii.eqb a c || has_char c r end.

(** [strings.Contains(s, sub)]. *)
Fixpoint contains (sub s : string) : bool :=
  String.prefix sub s || match s with "" => false | String _ r => contains sub r end.

(** [strings.Index(s, string(c))], [None] for -1. *)
Fixpoint index_char c s : option nat :=
  match s with
  | "" => None
  | String a r => if Ascii.eqb a c then Some 0 else S <$> index_char c r
  end.

Fixpoint str_drop (n : nat) s : string :=
  match n, s with
  | 0, _ => s
  | S n, "" => ""
  | S n, String _ r => str_drop n r
  end.

Fixpoint str_take (n : nat) s : string :=
  match n, s with
  | 0, _ => ""
  | S n, "" => ""
  | S n, String a r => String a (str_take n r)
  end.

(** [strings.ReplaceAll(s, string(c), rep)]. *)
Fixpoint replace_char c (rep s : string) : string :=
  match s with
  | "" => ""
  | String a r => (if Ascii.eqb a c then rep else String a "") +:+ replace_char c rep r
  end.

(** [strings.Repeat]. *)
Fixpoint repeat_str s (n : nat) : string :=
  match n with 0 => "" | S n => s +:+ repeat_str s n end.

(** [strings.HasSuffix(s, string(c))]. *)
Fixpoint ends_with c s : bool :=
  match s with
  | "" => false
  | String a "" => Ascii.eqb a c
  | String _ r => ends_with c r
  end.

(** [strings.TrimPrefix(s, string(c))] and [strings.TrimSuffix(s, string(c))]. *)
Definition trim_prefix_char c s : string :=
  match s with String a r => if Ascii.eqb a c then r else s | "" => "" end.
Definition trim_suffix_char c s : string :=
  if ends_with c s then str_take (String.length s - 1) s else s.

(** All bytes of [s] satisfy [f]. *)
Fixpoint all_chars (f : ascii → bool) s : bool :=
  match s with "" => true | String a r => f a && all_chars f r end.
End strings.

(** ** [package strconv] *)
Definition digit_val (c : ascii) : option Z :=
  let n := Z.of_N (N_of_ascii c) in
  if decide (48 ≤ n ≤ 57)%Z then Some (n - 48)%Z else None.

Fixpoint parse_digits (acc : Z) (s : string) : option Z :=
  match s with
  | "" => Some acc
  | String c r => d ← digit_val c; parse_digits (10 * acc + d)%Z r
  end.

Definition is_digit (c : ascii) : bool := bool_decide (is_Some (digit_val c)).

(** [strconv.ParseInt(s, 10, 64)] and [strconv.Atoi]: [None] when they return an error. *)
Definition parse_int (s : string) : option Z :=
  let signed sign r :=
    match r with
    | "" => None
    | _ => z ← parse_digits 0 r;
           let z := (sign * z)%Z in
           if decide (min_int64 ≤ z ≤ max_int64)%Z then Some z else None
    end in
  match s with
  | String "+" r => signed 1%Z r
  | String "-" r => signed (-1)%Z r
  | _ => signed 1%Z s
  end.

(** [strconv.Itoa] and the verb %d. *)
Definition itoa (z : Z) : string := pretty z.

(** ** Sorting *)
Section sorting.
Context {A : Type}.
Implicit Types (le : A → A → bool) (l : list A).

Fixpoint insert_by le (x : A) l : list A :=
  match l with
  | [] => [x]
  | y :: l' => if le x y then x :: y :: l' else y :: insert_by le x l'
  end.

(** [slices.SortStableFunc] for the comparison whose "not greater" test is [le]. *)
Fixpoint stable_sort le l : list A :=
  match l with
  | [] => []
  | x :: l => insert_by le x (stable_sort le l)
  end.
End sorting.

(** [sort.Strings]: the byte-wise order is total and antisymmetric, so every sorting
    algorithm gives this result. *)
Definition sort_strings (l : list string) : list string := stable_sort String.leb l.

(** [sort.Slice] sorts in an order that is not stable: for equal elements the result
    depends on the algorithm. A definition that calls it takes an instance. *)
Class SliceSort := {
  sort_slice : ∀ {A}, (A → A → bool) → list A → list A;
  sort_slice_perm : ∀ {A} (less : A → A → bool) l, sort_slice less l ≡ₚ l;
  (* for a strict weak order [less], no element is less than one before it *)
  sort_slice_sorted : ∀ {A} (less : A → A → bool) (l : list A),
    (∀ x y, less x y = true → less y x = false) →
    (∀ x y z, less x y = false → less y z = false → less x z = false) →
    StronglySorted (λ x y, less y x = false) (sort_slice less l)
}.

(** * Lemmas *)

(** ** Strings *)
Section string_lemmas.
Implicit Types (c a : ascii) (s r : string).

Lemma str_app_nil_r s : s +:+ "" = s.
Proof. induction s; cbn; congruence. Qed.

Lemma str_app_assoc s r t : (s +:+ r) +:+ t = s +:+ r +:+ t.
Proof. induction s; cbn; congruence. Qed.

Lemma str_length_app s r : String.length (s +:+ r) = String.length s + String.length r.
Proof. induction s; cbn; congruence. Qed.

Lemma str_app_inj_r s1 s2 r : s1 +:+ r = s2 +:+ r → s1 = s2.
Proof.
  intros Heq. assert (Hlen : String.length s1 = String.length s2).
  { apply (f_equal String.length) in Heq. rewrite !str_length_app in Heq. lia. }
  revert s2 Heq Hlen. induction s1 as [|a s1 IH]; intros [|b s2] Heq Hlen; try done.
  cbn in Heq. simplify_eq. f_equal. by apply IH.
Qed.

Lemma ascii_eqb_true a c : Ascii.eqb a c = true ↔ a = c.
Proof. apply Ascii.eqb_eq. Qed.
Lemma ascii_eqb_false a c : Ascii.eqb a c = false ↔ a ≠ c.
Proof. apply Ascii.eqb_neq. Qed.
Lemma ascii_eqb_refl a : Ascii.eqb a a = true.
Proof. apply Ascii.eqb_refl. Qed.

Lemma has_char_app c s r : has_char c (s +:+ r) = has_char c s || has_char c r.
Proof. induction s; cbn; [done|]. by rewrite IHs, orb_assoc. Qed.

Lemma all_chars_app f s r : all_chars f (s +:+ r) = all_chars f s && all_chars f r.
Proof. induction s; cbn; [done|]. by rewrite IHs, andb_assoc. Qed.

Lemma split_on_nonnil c s : split_on c s ≠ [].
Proof. destruct s; cbn; by_cases. Qed.

Lemma split_on_no_char c s : has_char c s = false → split_on c s = [s].
Proof.
  induction s as [|a s IH]; cbn; [done|]. intros [-> Hs]%orb_false_iff.
  by rewrite (IH Hs).
Qed.

(** [strings.Join] undoes [strings.Split]. *)
Lemma join_split_on c s : join (String c "") (split_on c s) = s.
Proof.
  unfold join. induction s as [|a s IH]; cbn; [done|].
  destruct (Ascii.eqb a c) eqn:E.
  - apply ascii_eqb_true in E as ->. pose proof (split_on_nonnil c s).
    destruct (split_on c s) as [|h t] eqn:Hs; [done|]. cbn in *. by rewrite IH.
  - destruct (split_on c s) as [|h t] eqn:Hs; [by destruct (split_on_nonnil c s)|].
    destruct t; cbn in *; congruence.
Qed.

Lemma split_on_app c s r :
  has_char c s = false → split_on c (s +:+ String c r) = s :: split_on c r.
Proof.
  induction s as [|a s IH]; cbn.
  - by rewrite ascii_eqb_refl.
  - intros [-> Hs]%orb_false_iff. by rewrite (IH Hs).
Qed.

(** [strings.Split] undoes [strings.Join] of parts without the separator. *)
Lemma split_on_join c l :
  l ≠ [] → Forall (λ s, has_char c s = false) l →
  split_on c (join (String c "") l) = l.
Proof.
  unfold join. induction l as [|s [|s' l] IH]; intros Hne Hl; [done| |].
  - inversion_clear Hl. cbn. by apply split_on_no_char.
  - inversion_clear Hl as [|?? Hs Hl'].
    change (String.concat (String c "") (s :: s' :: l))
      with (s +:+ String c (String.concat (String c "") (s' :: l))).
    rewrite split_on_app by done. f_equal. by apply IH.
Qed.

Lemma prefix_cons a b s r :
  String.prefix (String a s) (String b r) =
  if Ascii.ascii_dec a b then String.prefix s r else false.
Proof. reflexivity. Qed.

Lemma prefix_spec s r : String.prefix s r = true ↔ ∃ t, r = s +:+ t.
Proof.
  revert r. induction s as [|a s IH]; intros r.
  - destruct r; (split; [by eexists|done]).
  - destruct r as [|b r]; [split; [done|by intros [? ?]]|].
    rewrite prefix_cons. destruct (Ascii.ascii_dec a b) as [->|Hne].
    + rewrite IH. split; intros [t Ht]; exists t; [by subst|by simplify_eq/=].
    + split; [done|]. intros [t Ht]. by simplify_eq/=.
Qed.

Lemma contains_spec sub s : contains sub s = true ↔ ∃ p q, s = p +:+ sub +:+ q.
Proof.
  induction s as [|a s IH]; cbn [contains]; rewrite orb_true_iff, prefix_spec.
  - split.
    + intros [[t Ht]|?]; [|done]. by exists "", t.
    + intros (p & q & Hs). left. destruct p; [|done]. by exists q.
  - rewrite IH. split.
    + intros [[t Ht]|(p & q & ->)]; [by exists "", t|by exists (String a p), q].
    + intros ([|b p] & q & Hs); cbn in Hs; [left; by exists q|].
      simplify_eq. right. by exists p, q.
Qed.

Lemma str_take_drop n s : str_take n s +:+ str_drop n s = s.
Proof. revert s. induction n; intros [|a s]; cbn; congruence. Qed.

Lemma str_drop_length n s : String.length (str_drop n s) = String.length s - n.
Proof. revert s. induction n; intros [|a s]; cbn; try done; lia. Qed.

Lemma str_drop_add n m s : str_drop n (str_drop m s) = str_drop (m + n) s.
Proof.
  revert s. induction m as [|m IH]; intros [|a s]; cbn; try done.
  by destruct n.
Qed.

Lemma str_drop_app s r : str_drop (String.length s) (s +:+ r) = r.
Proof. by induction s. Qed.

Lemma str_get_drop n s : String.get n s =
  match str_drop n s with "" => None | String a _ => Some a end.
Proof. revert s. induction n; intros [|a s]; cbn; try done. Qed.

Lemma all_chars_impl (f g : ascii → bool) s :
  (∀ a, f a = true → g a = true) → all_chars f s = true → all_chars g s = true.
Proof. intros Hfg. induction s; cbn; [done|]. rewrite !andb_true_iff. intros [??]. auto. Qed.

Lemma has_char_all_chars c f s :
  all_chars f s = true → f c = false → has_char c s = false.
Proof.
  intros Hs Hc. induction s as [|a s IH]; cbn in *; [done|].
  apply andb_true_iff in Hs as [Ha Hs]. apply orb_false_iff; split; [|by apply IH].
  apply ascii_eqb_false. by intros ->; congruence.
Qed.
End string_lemmas.
#[export] Hint Rewrite str_app_nil_r str_app_assoc str_length_app has_char_app all_chars_app
  ascii_eqb_true ascii_eqb_refl contains_spec prefix_spec : steve.

(** ** The order of strings *)
Lemma string_leb_trans s1 s2 s3 :
  String.leb s1 s2 = true → String.leb s2 s3 = true → String.leb s1 s3 = true.
Proof.
  intros H1 H2. apply Is_true_true. assert (String.le s1 s3) as Hle; [|done].
  trans s2; by apply Is_true_true_2.
Qed.

Lemma string_leb_total s1 s2 : String.leb s1 s2 = true ∨ String.leb s2 s1 = true.
Proof. apply String.leb_total. Qed.

Lemma string_leb_antisym s1 s2 :
  String.leb s1 s2 = true → String.leb s2 s1 = true → s1 = s2.
Proof. apply String.leb_antisym. Qed.

Lemma string_leb_refl s : String.leb s s = true.
Proof. by destruct (string_leb_total s s). Qed.

Lemma string_ltb_leb s1 s2 : String.ltb s1 s2 = negb (String.leb s2 s1).
Proof.
  unfold String.ltb, String.leb. rewrite (String.compare_antisym s2 s1).
  by destruct (String.compare s1 s2).
Qed.
#[export] Hint Resolve string_leb_trans string_leb_total string_leb_refl : steve.

(** ** Sorting *)
Lemma StronglySorted_weaken {A} (R1 R2 : A → A → Prop) l :
  (∀ x y, R1 x y → R2 x y) → StronglySorted R1 l → StronglySorted R2 l.
Proof.
  intros HR. induction 1 as [|x l Hl IH Hx]; [constructor|].
  constructor; [done|]. revert Hx. apply Forall_impl; auto.
Qed.

Section sort_lemmas.
Context {A : Type} (le : A → A → bool).
Implicit Types l : list A.

Lemma insert_by_perm x l : insert_by le x l ≡ₚ x :: l.
Proof.
  induction l as [|y l IH]; cbn; [done|]. destruct (le x y); [done|].
  rewrite IH. apply perm_swap.
Qed.

Lemma stable_sort_perm l : stable_sort le l ≡ₚ l.
Proof. induction l as [|x l IH]; cbn; [done|]. by rewrite insert_by_perm, IH. Qed.

Lemma stable_sort_length l : length (stable_sort le l) = length l.
Proof. by rewrite stable_sort_perm. Qed.

Lemma elem_of_stable_sort x l : x ∈ stable_sort le l ↔ x ∈ l.
Proof. by rewrite stable_sort_perm. Qed.

Context (le_trans : ∀ x y z, le x y = true → le y z = true → le x z = true).
Context (le_total : ∀ x y, le x y = true ∨ le y x = true).

Lemma insert_by_sorted x l :
  StronglySorted (λ a b, le a b = true) l →
  StronglySorted (λ a b, le a b = true) (insert_by le x l).
Proof.
  induction 1 as [|y l Hl IH Hy]; cbn; [repeat constructor|].
  destruct (le x y) eqn:E.
  - constructor; [by constructor|]. constructor; [done|].
    revert Hy. apply Forall_impl; eauto.
  - constructor; [done|]. rewrite insert_by_perm. constructor; [|done].
    destruct (le_total x y); congruence.
Qed.

Lemma stable_sort_sorted l : StronglySorted (λ a b, le a b = true) (stable_sort le l).
Proof. induction l; cbn; [constructor|by apply insert_by_sorted]. Qed.

(** Equivalent elements keep their order. *)
Definition equivb (x y : A) : bool := le x y && le y x.

Lemma insert_by_stable x y l :
  StronglySorted (λ a b, le a b = true) l →
  List.filter (equivb y) (insert_by le x l) = List.filter (equivb y) (x :: l).
Proof.
  induction 1 as [|z l Hl IH Hz]; cbn [insert_by]; [done|].
  destruct (le x z) eqn:E; [done|].
  cbn [List.filter]. rewrite IH. cbn [List.filter].
  destruct (equivb y x) eqn:Ex, (equivb y z) eqn:Ez; try done.
  unfold equivb in *. apply andb_true_iff in Ex as [??], Ez as [??].
  by rewrite (le_trans x y z) in E.
Qed.

Lemma stable_sort_stable y l :
  List.filter (equivb y) (stable_sort le l) = List.filter (equivb y) l.
Proof.
  induction l as [|x l IH]; cbn [stable_sort]; [done|].
  rewrite insert_by_stable by apply stable_sort_sorted.
  cbn. by rewrite IH.
Qed.

Lemma stable_sort_id l :
  StronglySorted (λ a b, le a b = true) l → stable_sort le l = l.
Proof.
  induction 1 as [|x l Hl IH Hx]; cbn; [done|]. rewrite IH.
  destruct l as [|y l]; cbn; [done|]. inversion_clear Hx as [|?? Hxy].
  by rewrite Hxy.
Qed.
End sort_lemmas.

(** A sort depends on the comparison of the elements of its list only. *)
Lemma insert_by_ext {A} (le le' : A → A → bool) x l :
  (∀ y, y ∈ l → le x y = le' x y) → insert_by le x l = insert_by le' x l.
Proof.
  intros Hle. induction l as [|y l IH]; cbn; [done|].
  rewrite Hle by by left. rewrite IH; [done|]. intros. apply Hle. by right.
Qed.

Lemma stable_sort_ext {A} (le le' : A → A → bool) l :
  (∀ x y, x ∈ l → y ∈ l → le x y = le' x y) → stable_sort le l = stable_sort le' l.
Proof.
  intros Hle. induction l as [|x l IH]; cbn; [done|].
  rewrite IH by (intros; apply Hle; by right). apply insert_by_ext.
  intros y Hy%elem_of_stable_sort. apply Hle; [by left|by right].
Qed.

(** Sorting pairs of an element and its key is sorting the elements by their keys. *)
Lemma stable_sort_fmap {A B} (f : A → B) (le : B → B → bool) l :
  stable_sort le (f <$> l) = f <$> stable_sort (λ x y, le (f x) (f y)) l.
Proof.
  induction l as [|x l IH]; cbn; [done|]. rewrite IH. clear IH.
  generalize (stable_sort (λ x y, le (f x) (f y)) l) as k. intros k.
  induction k as [|y k IH]; cbn; [done|]. destruct (le (f x) (f y)); cbn; [done|].
  by rewrite IH.
Qed.

(** Comparisons as [strings.Compare] returns them. *)
Lemma string_compare_eq s1 s2 : String.compare s1 s2 = Eq ↔ s1 = s2.
Proof.
  revert s2. induction s1 as [|a s1 IH]; intros [|b s2]; cbn; try done.
  destruct (Ascii.compare a b) eqn:E.
  - apply Ascii.compare_eq_iff in E as ->. rewrite IH. naive_solver.
  - split; [done|]. intros [= -> _]. unfold Ascii.compare in E. by rewrite N.compare_refl in E.
  - split; [done|]. intros [= -> _]. unfold Ascii.compare in E. by rewrite N.compare_refl in E.
Qed.

Lemma string_compare_lt_trans s1 s2 s3 :
  String.compare s1 s2 = Lt → String.compare s2 s3 = Lt → String.compare s1 s3 = Lt.
Proof.
  intros H1 H2.
  assert (String.leb s1 s3 = true) as Hle.
  { apply (string_leb_trans _ s2); unfold String.leb; by rewrite ?H1, ?H2. }
  unfold String.leb in Hle. destruct (String.compare s1 s3) eqn:E; try done.
  apply string_compare_eq in E as ->. rewrite String.compare_antisym, H2 in H1. done.
Qed.

Section sort_strings.
Lemma sort_strings_perm l : sort_strings l ≡ₚ l.
Proof. apply stable_sort_perm. Qed.

Lemma sort_strings_sorted l : StronglySorted (λ a b, String.leb a b = true) (sort_strings l).
Proof. apply stable_sort_sorted; eauto with steve. Qed.

Lemma elem_of_sort_strings s l : s ∈ sort_strings l ↔ s ∈ l.
Proof. by rewrite sort_strings_perm. Qed.

(** Two lists with the same elements and multiplicities have the same sorted list. *)
Lemma sort_strings_unique l1 l2 : l1 ≡ₚ l2 → sort_strings l1 = sort_strings l2.
Proof.
  intros Hp. eapply (StronglySorted_unique_strong (λ a b, String.leb a b = true)).
  - intros x y _ _. apply string_leb_antisym.
  - apply sort_strings_sorted.
  - apply sort_strings_sorted.
  - by rewrite !sort_strings_perm.
Qed.
End sort_strings.

(** A sorting algorithm for [sort.Slice], used to evaluate definitions: any stable
    sort is one of the permitted results. *)
#[program] Definition stable_slice_sort : SliceSort := {|
  sort_slice := λ A less l, stable_sort (λ x y, negb (less y x)) l
|}.
Next Obligation. intros. apply stable_sort_perm. Qed.
Next Obligation.
  intros A less l Hasym Htr.
  assert (Hneg : ∀ x y, negb (less y x) = true ↔ less y x = false)
    by (intros; apply negb_true_iff).
  eapply StronglySorted_weaken, stable_sort_sorted.
  - intros x y. apply Hneg.
  - intros x y z. rewrite !Hneg. eauto.
  - intros x y. rewrite !Hneg. destruct (less y x) eqn:E; eauto.
Qed.

(** ** Indexes and numbers *)
Lemma index_char_app c s r : has_char c s = false →
  index_char c (s +:+ String c r) = Some (String.length s).
Proof.
  induction s as [|a s IH]; cbn; [by rewrite ascii_eqb_refl|].
  intros [-> Hs]%orb_false_iff. by rewrite IH.
Qed.

Lemma index_char_None c s : has_char c s = false → index_char c s = None.
Proof.
  induction s as [|a s IH]; cbn; [done|]. intros [-> Hs]%orb_false_iff. by rewrite IH.
Qed.

Lemma str_take_app s r : str_take (String.length s) (s +:+ r) = s.
Proof. induction s; cbn; [by destruct r|congruence]. Qed.

Lemma pretty_N_char_digit n : (n < 10)%N → is_digit (pretty_N_char n) = true.
Proof.
  intros Hn. unfold pretty_N_char. repeat (case_match; try reflexivity); lia.
Qed.

Lemma pretty_N_digits n : all_chars is_digit (pretty_N_go n "") = true.
Proof.
  assert (Hall : ∀ s, all_chars is_digit s = true → all_chars is_digit (pretty_N_go n s) = true); [|by apply Hall].
  induction (N.lt_wf_0 n) as [n _ IH]. intros s Hs.
  destruct (decide (n = 0)%N) as [->|Hn]; [by rewrite pretty_N_go_0|].
  rewrite pretty_N_go_step by lia. apply IH; [apply N.div_lt; lia|].
  cbn [all_chars]. rewrite Hs, pretty_N_char_digit by (apply N.mod_lt; lia). done.
Qed.

Lemma digit_val_pretty n : (n < 10)%N → digit_val (pretty_N_char n) = Some (Z.of_N n).
Proof.
  intros Hn.
  assert (n = 0 ∨ n = 1 ∨ n = 2 ∨ n = 3 ∨ n = 4 ∨ n = 5 ∨ n = 6 ∨ n = 7 ∨ n = 8 ∨ n = 9)%N
    as Hcases by lia.
  repeat destruct Hcases as [->|Hcases]; [reflexivity..|]. by rewrite Hcases.
Qed.

Lemma parse_digits_pretty n s : parse_digits 0 (pretty_N_go n s) = parse_digits (Z.of_N n) s.
Proof.
  revert s. induction (N.lt_wf_0 n) as [n _ IH]. intros s.
  destruct (decide (n = 0)%N) as [->|Hn]; [by rewrite pretty_N_go_0|].
  rewrite pretty_N_go_step by lia. rewrite IH by (apply N.div_lt; lia). cbn [parse_digits].
  rewrite digit_val_pretty by (apply N.mod_lt; lia). cbn [mbind option_bind]. f_equal.
  rewrite N2Z.inj_div, N2Z.inj_mod. pose proof (Z.div_mod (Z.of_N n) 10). lia.
Qed.

(** The text of a natural number: digits, at least one, that are read back. *)
Lemma itoa_digits z : (0 ≤ z)%Z → all_chars is_digit (itoa z) = true.
Proof.
  intros Hz. destruct z as [|p|p]; [done| |lia]. unfold itoa, pretty, pretty_Z, pretty, pretty_positive.
  unfold pretty, pretty_N. case_decide; [done|]. apply pretty_N_digits.
Qed.

Lemma parse_digits_itoa z : (0 ≤ z)%Z → parse_digits 0 (itoa z) = Some z.
Proof.
  intros Hz. destruct z as [|p|p]; [done| |lia]. unfold itoa, pretty, pretty_Z, pretty, pretty_positive.
  unfold pretty, pretty_N. case_decide; [done|]. rewrite parse_digits_pretty. done.
Qed.

Lemma itoa_nonempty z : itoa z ≠ "".
Proof.
  intros Hz. destruct (decide (0 ≤ z)%Z) as [Hle|Hlt].
  - pose proof (parse_digits_itoa z Hle) as Hp. rewrite Hz in Hp. cbn in Hp.
    injection Hp as <-. done.
  - destruct z; [lia|lia|done].
Qed.

Lemma digit_not_sign c : is_digit c = true → c ≠ "+"%char ∧ c ≠ "-"%char.
Proof. intros Hc. split; intros ->; discriminate. Qed.

Lemma parse_int_itoa z : (0 ≤ z ≤ max_int64)%Z → parse_int (itoa z) = Some z.
Proof.
  intros Hz. pose proof (itoa_digits z ltac:(lia)) as Hd. pose proof (parse_digits_itoa z ltac:(lia)) as Hp.
  pose proof (itoa_nonempty z) as Hne. destruct (itoa z) as [|c r] eqn:Hi; [done|].
  cbn in Hd. apply andb_true_iff in Hd as [[Hc1 Hc2]%digit_not_sign _].
  assert (parse_int (String c r) = (z ← parse_digits 0 (String c r);
    let z := (1 * z)%Z in if decide (min_int64 ≤ z ≤ max_int64)%Z then Some z else None)) as ->.
  { unfold parse_int. repeat (case_match; simplify_eq; try done). }
  rewrite Hp. cbn [mbind option_bind]. rewrite decide_True; [f_equal; lia|].
  unfold min_int64, max_int64 in *. lia.
Qed.

(** ** Instances to evaluate definitions on concrete inputs; imported by the examples. *)
Module Concrete.
#[export] Existing Instances canonical_range stable_slice_sort.
End Concrete.
