(* ===== verification/GoValue.v ===== *)
(** * Values of unstructured objects

    A Kubernetes object is a JSON document decoded into Go's [interface{}]: the cases of
    the type switches of the source. *)
From S2P Require Import Prelude GoLib.

Inductive goval :=
  | GNil
  | GBool (b : bool)
  | GInt (n : Z)         (* int *)
  | GInt64 (n : Z)       (* int64: what decoding a JSON integer gives *)
  | GFloat64 (s : string) (* its text *)
  | GString (s : string)
  | GSlice (l : list goval)
  | GMap (o : gmap string goval).

Abbreviation object := (gmap string goval).

(** Induction over nested slices; a map is a leaf. *)
Lemma goval_slice_ind (P : goval → Prop) :
  (∀ v, (∀ l, v ≠ GSlice l) → P v) →
  (∀ l, Forall P l → P (GSlice l)) →
  ∀ v, P v.
Proof.
  intros Hleaf Hslice. fix IH 1. intros [| | | | | |l|]; try (by apply Hleaf).
  apply Hslice. induction l as [|v l IHl]; constructor; [apply IH|apply IHl].
Qed.

(** The functions of github.com/rancher/wrangler/v3/pkg/data the list code calls, and the
    accessors of unstructured.Unstructured. *)
Class ObjectData := {
  GetValue : object → list string → option goval;
  GetValueFromAny : object → list string → option goval;
  ToString : goval → string;
  Obj_GetNamespace : object → string;
  Obj_GetName : object → string
}.

(** Their documented behaviour: a path is looked up key by key through nested maps, and a
    string is its own text. *)
Class ObjectDataLaws `{ObjectData} := {
  GetValue_nil : ∀ o, GetValue o [] = None;
  GetValue_one : ∀ o k, GetValue o [k] = o !! k;
  GetValue_map : ∀ o o' k ks, o !! k = Some (GMap o') → ks ≠ [] →
    GetValue o (k :: ks) = GetValue o' ks;
  GetValue_other : ∀ o k ks, (∀ o', o !! k ≠ Some (GMap o')) → ks ≠ [] →
    GetValue o (k :: ks) = None;
  ToString_string : ∀ s, ToString (GString s) = s
}.

(** A concrete implementation, to evaluate definitions. *)
Fixpoint get_value (o : object) (ks : list string) : option goval :=
  match ks with
  | [] => None
  | [k] => o !! k
  | k :: ks => match o !! k with Some (GMap o') => get_value o' ks | _ => None end
  end.

Definition string_at (o : object) (ks : list string) : string :=
  match get_value o ks with Some (GString s) => s | _ => "" end.

Definition simple_data : ObjectData := {|
  GetValue := get_value;
  GetValueFromAny := get_value;
  ToString := λ v, match v with
    | GString s => s | GBool b => if b then "true" else "false"
    | GInt n | GInt64 n => itoa n | GFloat64 s => s | _ => "" end;
  Obj_GetNamespace := λ o, string_at o ["metadata"; "namespace"];
  Obj_GetName := λ o, string_at o ["metadata"; "name"]
|}.

Lemma simple_data_laws : @ObjectDataLaws simple_data.
Proof.
  split; cbn; try done.
  - intros o o' k [|k' ks] Hk Hne; [done|]. by rewrite Hk.
  - intros o k [|k' ks] Hk Hne; [done|]. destruct (o !! k) as [[]|]; try done. by destruct (Hk o0).
Qed.

Module ConcreteData.
#[export] Existing Instances simple_data simple_data_laws.
End ConcreteData.
