(* ===== verification/KubeTypes.v ===== *)
(** * Objects, kinds and errors the stores exchange with Kubernetes

    What the stores use of k8s.io/apimachinery and rancher/wrangler: kinds, the errors of
    the API, and the functions that edit an unstructured object, with the behaviour their
    documentation promises. *)
From S2P Require Import Prelude GoLib GoValue.

Record GroupVersionKind := mkGVK { Group : string; Version : string; Kind : string }.
#[export] Instance GroupVersionKind_eq_dec : EqDecision GroupVersionKind.
Proof. solve_decision. Defined.
#[export] Instance GroupVersionKind_countable : Countable GroupVersionKind.
Proof.
  refine (inj_countable' (λ k, (Group k, Version k, Kind k)) (λ t, mkGVK t.1.1 t.1.2 t.2) _).
  by intros [].
Defined.

(** schema.FromAPIVersionAndKind and GroupVersionKind.ToAPIVersionAndKind. *)
Class KindNames := {
  ToAPIVersionAndKind : GroupVersionKind → string * string;
  FromAPIVersionAndKind : string → string → GroupVersionKind
}.

(** The errors: one that carries a Kubernetes status (the interface errors.APIStatus), an
    apierror.APIError, a validation.ErrorCode, and every other error with its text. *)
Inductive api_error :=
  | EStatus (code : Z) (reason message : string)
  | EAPI (status : Z) (code message : string)
  | ECode (status : Z) (code : string)
  | EText (message : string).
#[export] Instance api_error_eq_dec : EqDecision api_error.
Proof. solve_decision. Defined.

(** types.Warning. *)
Record Warning := mkWarning { W_Code : Z; W_Agent : string; W_Text : string }.

(** The functions of wrangler's package data and of rancher/apiserver's package types that
    read and change an object at a path. *)
Class ObjectEdit := {
  types_Name : object → string;
  types_Namespace : object → string;
  Object_String : object → list string → string;
  SetNested : object → goval → list string → object;
  PutValue : object → goval → list string → object;
  RemoveValue : object → list string → object;
  ToMapSlice : goval → list object
}.

(** Their documented behaviour on paths of one and two keys: a value is put into the map
    that holds the last key, which is made when there is none; a missing value is not
    removed; a slice of maps is a slice of maps. *)
Class ObjectEditLaws `{ObjectData, ObjectEdit} := {
  types_Name_at : ∀ o, types_Name o = Object_String o ["metadata"; "name"];
  types_Namespace_at : ∀ o, types_Namespace o = Object_String o ["metadata"; "namespace"];
  Object_String_get : ∀ o ks s, GetValue o ks = Some (GString s) → Object_String o ks = s;
  Object_String_none : ∀ o ks, GetValue o ks = None → Object_String o ks = "";
  SetNested_map : ∀ o k k' v m, o !! k = Some (GMap m) →
    SetNested o v [k; k'] = <[k := GMap (<[k' := v]> m)]> o;
  SetNested_none : ∀ o k k' v, o !! k = None →
    SetNested o v [k; k'] = <[k := GMap {[k' := v]}]> o;
  PutValue_one : ∀ o k v, PutValue o v [k] = <[k := v]> o;
  PutValue_map : ∀ o k k' v m, o !! k = Some (GMap m) →
    PutValue o v [k; k'] = <[k := GMap (<[k' := v]> m)]> o;
  PutValue_none : ∀ o k k' v, o !! k = None →
    PutValue o v [k; k'] = <[k := GMap {[k' := v]}]> o;
  RemoveValue_one : ∀ o k, RemoveValue o [k] = delete k o;
  RemoveValue_map : ∀ o k k' m, o !! k = Some (GMap m) →
    RemoveValue o [k; k'] = <[k := GMap (delete k' m)]> o;
  RemoveValue_none : ∀ o k k', o !! k = None → RemoveValue o [k; k'] = o;
  ToMapSlice_maps : ∀ l, ToMapSlice (GSlice (GMap <$> l)) = l
}.

(** The functions of apimachinery's package unstructured that read and set a nested field:
    an error when something on the path is not a map, or the value has another type. *)
Class NestedFields := {
  NestedField : object → list string → outcome string (option goval);   (* NestedFieldNoCopy *)
  NestedMap : object → list string → outcome string (option object);
  NestedSlice : object → list string → outcome string (option (list goval));
  SetNestedField : object → goval → list string → outcome string object
}.
Class NestedFieldsLaws `{NestedFields} := {
  NestedField_map : ∀ o k k' m, o !! k = Some (GMap m) → NestedField o [k; k'] = Ok (m !! k');
  NestedField_none : ∀ o k k', o !! k = None → NestedField o [k; k'] = Ok None;
  NestedMap_found : ∀ o ks m, NestedField o ks = Ok (Some (GMap m)) → NestedMap o ks = Ok (Some m);
  NestedMap_none : ∀ o ks, NestedField o ks = Ok None → NestedMap o ks = Ok None;
  NestedMap_other : ∀ o ks v, NestedField o ks = Ok (Some v) → (∀ m, v ≠ GMap m) →
    ∃ e, NestedMap o ks = Err e;
  NestedSlice_found : ∀ o ks l, NestedField o ks = Ok (Some (GSlice l)) →
    NestedSlice o ks = Ok (Some l);
  NestedSlice_none : ∀ o ks, NestedField o ks = Ok None → NestedSlice o ks = Ok None;
  SetNestedField_map : ∀ o k k' v m, o !! k = Some (GMap m) →
    SetNestedField o v [k; k'] = Ok (<[k := GMap (<[k' := v]> m)]> o)
}.

(** A concrete implementation, to evaluate definitions. *)
Fixpoint nested_field (o : object) (ks : list string) : outcome string (option goval) :=
  match ks with
  | [] => Ok None
  | [k] => Ok (o !! k)
  | k :: ks => match o !! k with
    | Some (GMap m) => nested_field m ks
    | None => Ok None
    | Some _ => Err "accessor error"
    end
  end.
Fixpoint set_nested_field (o : object) (v : goval) (ks : list string) : outcome string object :=
  match ks with
  | [] => Ok o
  | [k] => Ok (<[k := v]> o)
  | k :: ks => match o !! k with
    | Some (GMap m) => m' ← set_nested_field m v ks; Ok (<[k := GMap m']> o)
    | None => m' ← set_nested_field ∅ v ks; Ok (<[k := GMap m']> o)
    | Some _ => Err "value cannot be set"
    end
  end.

Definition simple_nested : NestedFields := {|
  NestedField := nested_field;
  NestedMap := λ o ks, match nested_field o ks with
    | Ok None => Ok None | Ok (Some (GMap m)) => Ok (Some m) | _ => Err "not a map" end;
  NestedSlice := λ o ks, match nested_field o ks with
    | Ok None => Ok None | Ok (Some (GSlice l)) => Ok (Some l) | _ => Err "not a slice" end;
  SetNestedField := set_nested_field
|}.

Lemma simple_nested_laws : @NestedFieldsLaws simple_nested.
Proof.
  split; cbn.
  - intros o k k' m ->. done.
  - intros o k k' ->. done.
  - intros o ks m ->. done.
  - intros o ks ->. done.
  - intros o ks v -> Hv. destruct v as [| | | | | | |m]; try by eexists. by destruct (Hv m).
  - intros o ks l ->. done.
  - intros o ks ->. done.
  - intros o k k' v m ->. done.
Qed.

Fixpoint put_value (o : object) (v : goval) (ks : list string) : object :=
  match ks with
  | [] => o
  | [k] => <[k := v]> o
  | k :: ks => match o !! k with
    | Some (GMap m) => <[k := GMap (put_value m v ks)]> o
    | None => <[k := GMap (put_value ∅ v ks)]> o
    | Some _ => o
    end
  end.

Fixpoint remove_value (o : object) (ks : list string) : object :=
  match ks with
  | [] => o
  | [k] => delete k o
  | k :: ks => match o !! k with
    | Some (GMap m) => <[k := GMap (remove_value m ks)]> o
    | _ => o
    end
  end.

Definition simple_edit : ObjectEdit := {|
  types_Name := λ o, string_at o ["metadata"; "name"];
  types_Namespace := λ o, string_at o ["metadata"; "namespace"];
  Object_String := string_at;
  SetNested := put_value;
  PutValue := put_value;
  RemoveValue := remove_value;
  ToMapSlice := λ v, match v with
    | GSlice l => omap (λ x, match x with GMap m => Some m | _ => None end) l
    | _ => []
    end
|}.

Lemma simple_edit_laws : @ObjectEditLaws simple_data simple_edit.
Proof.
  split; cbn; try done.
  - intros o ks s Hs. unfold string_at. by rewrite Hs.
  - intros o ks Hs. unfold string_at. by rewrite Hs.
  - intros o k k' v m ->. done.
  - intros o k k' v ->. done.
  - intros o k k' v m ->. done.
  - intros o k k' v ->. done.
  - intros o k k' m ->. done.
  - intros o k k' ->. done.
  - intros l. induction l as [|m l IH]; cbn; [done|]. by rewrite IH.
Qed.

(** The names of the core kinds, whose group is empty, and of the others. *)
Definition simple_kinds : KindNames := {|
  ToAPIVersionAndKind := λ k,
    (if decide (Group k = "") then Version k else Group k +:+ "/" +:+ Version k, Kind k);
  FromAPIVersionAndKind := λ v k, match split_on "/" v with
    | [v] => mkGVK "" v k
    | g :: v :: _ => mkGVK g v k
    | [] => mkGVK "" "" k
    end
|}.

Module ConcreteEdit.
#[export] Existing Instances simple_edit simple_edit_laws simple_kinds simple_nested
  simple_nested_laws.
End ConcreteEdit.

(** ** Editing two keys of the same map *)
Section edit_lemmas.
Context `{ObjectEditLaws}.
Implicit Types (o m : object) (k : string) (v : goval).

Lemma RemoveValue_absent o k k' m :
  o !! k = Some (GMap m) → m !! k' = None → RemoveValue o [k; k'] = o.
Proof.
  intros Ho Hm. rewrite (RemoveValue_map _ _ _ _ Ho), delete_id by done. by apply insert_id.
Qed.

Lemma RemoveValue_PutValue o k k' m v :
  o !! k = Some (GMap m) → m !! k' = None → RemoveValue (PutValue o v [k; k']) [k; k'] = o.
Proof.
  intros Ho Hm. rewrite (PutValue_map _ _ _ _ _ Ho).
  rewrite (RemoveValue_map _ _ _ (<[k' := v]> m)) by apply lookup_insert_eq.
  rewrite insert_insert_eq, delete_insert_id by done. by apply insert_id.
Qed.
End edit_lemmas.
