(* ===== verification/AccessControl.v ===== *)
(** * Access sets: what a user may do (pkg/accesscontrol)

    [AccessSet] and its operations (access_set.go), the construction of access sets
    from RBAC roles and bindings (policy_rule_index.go, user_grants.go) and the cached
    lookup of a user's access (access_store.go).

    A nil Go map and an empty one cannot be told apart by this code: both are [∅]. *)
From S2P Require Import Prelude GoLib.

(** ** Data *)
Definition All : string := "*".
Definition clusterRoleKind : string := "ClusterRole".
Definition roleKind : string := "Role".

Record GroupResource := mkGR { Group : string; Resource : string }.
#[export] Instance GroupResource_eq_dec : EqDecision GroupResource.
Proof. solve_decision. Defined.
#[export] Instance GroupResource_countable : Countable GroupResource.
Proof.
  refine (inj_countable' (λ x, (Group x, Resource x)) (λ p, mkGR p.1 p.2) _); by intros [].
Defined.

Record Access := mkAccess { Namespace : string; ResourceName : string }.
#[export] Instance Access_eq_dec : EqDecision Access.
Proof. solve_decision. Defined.
#[export] Instance Access_countable : Countable Access.
Proof.
  refine (inj_countable' (λ x, (Namespace x, ResourceName x)) (λ p, mkAccess p.1 p.2) _);
    by intros [].
Defined.

Record key := mkKey { verb : string; gr : GroupResource }.
#[export] Instance key_eq_dec : EqDecision key.
Proof. solve_decision. Defined.
#[export] Instance key_countable : Countable key.
Proof. refine (inj_countable' (λ x, (verb x, gr x)) (λ p, mkKey p.1 p.2) _); by intros []. Defined.

Record nonResourceKey := mkNRKey { nr_verb : string; nr_url : string }.
#[export] Instance nonResourceKey_eq_dec : EqDecision nonResourceKey.
Proof. solve_decision. Defined.
#[export] Instance nonResourceKey_countable : Countable nonResourceKey.
Proof.
  refine (inj_countable' (λ x, (nr_verb x, nr_url x)) (λ p, mkNRKey p.1 p.2) _); by intros [].
Defined.

Abbreviation resourceAccessSet := (gmap Access bool).

Record AccessSet := mkAccessSet {
  ID : string;
  set : gmap key resourceAccessSet;
  nonResourceSet : gmap nonResourceKey ()
}.
Definition empty_AccessSet : AccessSet := mkAccessSet "" ∅ ∅.

(** The fields of rbac/v1 PolicyRule. *)
Record PolicyRule := mkRule {
  Verbs : list string;
  APIGroups : list string;
  Resources : list string;
  ResourceNames : list string;
  NonResourceURLs : list string
}.

(** ** Kubernetes' RBAC helpers: constants and functions of k8s.io/api/rbac/v1,
    k8s.io/apiserver and k8s.io/kubernetes that the package calls. *)
Class K8sRBAC := {
  rbacGroup : string;
  groupKind : string;
  userKind : string;
  svcAccountKind : string;
  MakeUsername : string → string → string;
  NonResourceURLMatches : PolicyRule → string → bool;
  VerbMatches : PolicyRule → string → bool
}.

(** ** Access and lists of accesses *)
Definition Access_nsOK (a : Access) (namespace : string) : bool :=
  bool_decide (Namespace a = All) || bool_decide (Namespace a = namespace).

Definition Access_nameOK (a : Access) (name : string) : bool :=
  bool_decide (ResourceName a = All) || bool_decide (ResourceName a = name).

Definition Access_Grants (a : Access) (namespace name : string) : bool :=
  Access_nsOK a namespace && Access_nameOK a name.

Abbreviation AccessList := (list Access).
Definition AccessList_Grants (l : AccessList) (namespace name : string) : bool :=
  existsb (λ a, Access_Grants a namespace name) l.

(** ** Access sets *)
Section access_set.
Context `{MapRange}.

(** The keys the three nested loops of [Grants] and [AccessListFor] visit. *)
Definition grant_keys (v : string) (g : GroupResource) : list key :=
  v ← [All; v]; gg ← [All; Group g]; r ← [All; Resource g]; [mkKey v (mkGR gg r)].

Definition AccessSet_Grants (a : AccessSet) (v : string) (g : GroupResource)
    (namespace name : string) : bool :=
  existsb (λ k, existsb (λ acc, Access_Grants acc namespace name)
                        (range_keys (default ∅ (set a !! k))))
          (grant_keys v g).

Definition AccessListFor (a : AccessSet) (v : string) (g : GroupResource) : AccessList :=
  range_keys (foldl (λ dedup k,
    foldl (λ (dedup : resourceAccessSet) acc, <[acc := true]> dedup) dedup
          (range_keys (default ∅ (set a !! k))))
    ∅ (grant_keys v g)).

Definition AccessSet_Add (a : AccessSet) (v : string) (g : GroupResource) (acc : Access)
    : AccessSet :=
  let k := mkKey v g in
  match set a !! k with
  | Some m => mkAccessSet (ID a) (<[k := <[acc := true]> m]> (set a)) (nonResourceSet a)
  | None => mkAccessSet (ID a) (<[k := {[acc := true]}]> (set a)) (nonResourceSet a)
  end.

Definition AddNonResourceURLs (a : AccessSet) (verbs urls : list string) : AccessSet :=
  if bool_decide (length verbs = 0) || bool_decide (length urls = 0) then a
  else mkAccessSet (ID a) (set a)
    (foldl (λ s v, foldl (λ s u, <[mkNRKey v u := ()]> s) s urls) (nonResourceSet a) verbs).

(** [Merge] copies each entry of [right] into [a]; its maps are never shared. *)
Definition Merge_entry (s : gmap key resourceAccessSet) (k : key) (accessMap : resourceAccessSet)
    : gmap key resourceAccessSet :=
  let m := default ∅ (s !! k) in
  <[k := foldl (λ m '(acc, v), <[acc := v]> m) m (range_map accessMap)]> s.

Definition AccessSet_Merge (a right : AccessSet) : AccessSet :=
  mkAccessSet (ID a)
    (foldl (λ s '(k, accessMap), Merge_entry s k accessMap) (set a) (range_map (set right)))
    (foldl (λ s '(k, v), match s !! k with Some _ => s | None => <[k := v]> s end)
           (nonResourceSet a) (range_map (nonResourceSet right))).

Definition Namespaces (a : AccessSet) : list string :=
  let set_ := foldl (λ s '(k, accs),
    if negb (bool_decide (verb k = "get")) && negb (bool_decide (verb k = "list")) then s
    else foldl (λ (s : gmap string bool) acc,
           if bool_decide (Namespace acc = All) then s else <[Namespace acc := true]> s)
         s (range_keys accs))
    ∅ (range_map (set a)) in
  sort_strings (range_keys set_).

Definition GrantsNonResource `{K8sRBAC} (a : AccessSet) (v url : string) : bool :=
  let matches verb url' :=
    let rule := mkRule [verb] [] [] [] [url'] in
    NonResourceURLMatches rule url && VerbMatches rule v in
  match nonResourceSet a !! mkNRKey v url with
  | Some _ => matches v url
  | None => existsb (λ k, matches (nr_verb k) (nr_url k)) (range_keys (nonResourceSet a))
  end.
End access_set.

(** ** Accesses by verb *)
Abbreviation AccessListByVerb := (gmap string AccessList).

Definition access_by_verb (a : AccessListByVerb) (v : string) : AccessList := default [] (a !! v).

Definition AccessListByVerb_Grants (a : AccessListByVerb) (v namespace name : string) : bool :=
  AccessList_Grants (access_by_verb a v) namespace name.

Definition AccessListByVerb_All (a : AccessListByVerb) (v : string) : bool :=
  AccessListByVerb_Grants a v All All.

Definition AnyVerb (a : AccessListByVerb) (vs : list string) : bool :=
  existsb (λ v, bool_decide (0 < length (access_by_verb a v))) vs.

Record ResourcesT := mkResources { R_All : bool; R_Names : gset string }.
#[export] Instance ResourcesT_eq_dec : EqDecision ResourcesT.
Proof. solve_decision. Defined.
Definition zero_Resources : ResourcesT := mkResources false ∅.

Definition resources_at (result : gmap string ResourcesT) (ns : string) : ResourcesT :=
  default zero_Resources (result !! ns).

(** The body of the two loops of [Granted]. *)
Definition Granted_add (result : gmap string ResourcesT) (acc : Access) : gmap string ResourcesT :=
  let r := resources_at result (Namespace acc) in
  let r := if bool_decide (ResourceName acc = All)
           then mkResources true (R_Names r)
           else mkResources (R_All r) ({[ResourceName acc]} ∪ R_Names r) in
  <[Namespace acc := r]> result.

Definition Granted_get (result : gmap string ResourcesT) (acc : Access) : gmap string ResourcesT :=
  let r := resources_at result (Namespace acc) in
  if bool_decide (ResourceName acc = All) then result
  else if bool_decide (0 < String.length (ResourceName acc)) then
    <[Namespace acc := mkResources (R_All r) ({[ResourceName acc]} ∪ R_Names r)]> result
  else result.

Definition Granted (a : AccessListByVerb) (v : string) : gmap string ResourcesT :=
  let result := foldl Granted_add ∅ (access_by_verb a v) in
  if bool_decide (v = "list") then foldl Granted_get result (access_by_verb a "get")
  else result.

(** ** RBAC objects *)
Record Subject := mkSubject {
  S_Kind : string; S_APIGroup : string; S_Name : string; S_Namespace : string
}.
Record RoleRef := mkRoleRef { Ref_Kind : string; Ref_Name : string }.
Record ClusterRoleBinding := mkCRB {
  crb_UID : string; crb_RoleRef : RoleRef; crb_Subjects : list Subject
}.
Record RoleBinding := mkRB {
  rb_UID : string; rb_Namespace : string; rb_RoleRef : RoleRef; rb_Subjects : list Subject
}.
(** A Role or a ClusterRole. *)
Record Role := mkRole { Rules : list PolicyRule; ResourceVersion : string }.

(** The caches of wrangler's generated controllers; [None] is an error. *)
Record RBACCaches := {
  crCache_Get : string → option Role;
  rCache_Get : string → string → option Role;
  crbCache_GetByIndex : string → string → option (list ClusterRoleBinding);
  rbCache_GetByIndex : string → string → option (list RoleBinding)
}.

(** user_grants.go *)
Record roleRef := mkroleRef {
  ref_namespace : string;
  ref_roleName : string;
  ref_resourceVersion : string;
  ref_kind : string;
  ref_rules : list PolicyRule
}.
Record subjectGrants := mkSubjectGrants {
  roleBindings : list roleRef;
  clusterRoleBindings : list roleRef
}.
Record userGrants := mkUserGrants { g_user : subjectGrants; g_groups : list subjectGrants }.

(** The user of a request: [GetName] and [GetGroups]. *)
Record UserInfo := mkUser { GetName : string; GetGroups : list string }.

(** ** From rules to accesses (policy_rule_index.go) *)
Definition rule_access (namespace group resource resourceName : string) : Access :=
  if negb (bool_decide (namespace = All)) && bool_decide (resource = "namespaces")
     && bool_decide (group = "")
     && (bool_decide (resourceName = All) || bool_decide (resourceName = namespace))
  then mkAccess All namespace
  else mkAccess namespace resourceName.

Definition rule_names (rule : PolicyRule) : list string :=
  match ResourceNames rule with [] => [All] | names => names end.

Definition addResourceAccess (accessSet : AccessSet) (namespace : string) (rule : PolicyRule)
    : AccessSet :=
  foldl (λ as_ group, foldl (λ as_ resource, foldl (λ as_ resourceName, foldl (λ as_ v,
      AccessSet_Add as_ v (mkGR group resource) (rule_access namespace group resource resourceName))
    as_ (Verbs rule)) as_ (rule_names rule)) as_ (Resources rule)) accessSet (APIGroups rule).

Definition addAccess (accessSet : AccessSet) (namespace : string) (r : roleRef) : AccessSet :=
  foldl (λ as_ rule,
    if bool_decide (0 < length (Resources rule)) then addResourceAccess as_ namespace rule
    else if bool_decide (ref_kind r = clusterRoleKind)
         then AddNonResourceURLs as_ (Verbs rule) (NonResourceURLs rule)
         else as_)
    accessSet (ref_rules r).

Definition toAccessSet (b : subjectGrants) : AccessSet :=
  let result := foldl (λ as_ r, addAccess as_ (ref_namespace r) r)
                      empty_AccessSet (roleBindings b) in
  foldl (λ as_ r, addAccess as_ All r) result (clusterRoleBindings b).

Section policy_rule_index.
Context `{K8sRBAC}.

Definition subjectIs (kind : string) (s : Subject) : bool :=
  bool_decide (S_APIGroup s = rbacGroup) && bool_decide (S_Kind s = kind).

Definition subjectIsServiceAccount (s : Subject) : bool :=
  bool_decide (S_APIGroup s = "") && bool_decide (S_Kind s = svcAccountKind)
  && negb (bool_decide (S_Namespace s = "")).

Fixpoint indexSubjects (kind : string) (subjects : list Subject) : list string :=
  match subjects with
  | [] => []
  | s :: rest =>
      if subjectIs kind s then S_Name s :: indexSubjects kind rest
      else if bool_decide (kind = userKind) && subjectIsServiceAccount s
           then MakeUsername (S_Namespace s) (S_Name s) :: indexSubjects kind rest
           else indexSubjects kind rest
  end.

Definition clusterRoleBindingBySubjectIndexer (kind : string) (crb : ClusterRoleBinding)
    : list string :=
  if bool_decide (Ref_Kind (crb_RoleRef crb) = "ClusterRole")
  then indexSubjects kind (crb_Subjects crb) else [].

Definition roleBindingBySubjectIndexer (kind : string) (rb : RoleBinding) : list string :=
  indexSubjects kind (rb_Subjects rb).

Record policyRuleIndex := mkPolicyRuleIndex {
  caches : RBACCaches;
  roleIndexKey : string;
  clusterRoleIndexKey : string
}.

(** [newPolicyRuleIndex]: the index keys are "rb" and "crb" before the kind. *)
Definition newPolicyRuleIndex (user : bool) (rbac : RBACCaches) : policyRuleIndex :=
  let key := if user then userKind else groupKind in
  mkPolicyRuleIndex rbac ("rb" +:+ key) ("crb" +:+ key).

Definition getRules (p : policyRuleIndex) (namespace : string) (r : RoleRef)
    : list PolicyRule * string :=
  let result role := match role with
                     | Some role => (Rules role, ResourceVersion role)
                     | None => ([], "")
                     end in
  if bool_decide (Ref_Kind r = "ClusterRole") then result (crCache_Get (caches p) (Ref_Name r))
  else if bool_decide (Ref_Kind r = "Role")
       then result (rCache_Get (caches p) namespace (Ref_Name r))
       else ([], "").

Context `{SliceSort}.

Definition getClusterRoleBindings (p : policyRuleIndex) (subjectName : string)
    : list ClusterRoleBinding :=
  match crbCache_GetByIndex (caches p) (clusterRoleIndexKey p) subjectName with
  | None => []
  | Some result => sort_slice (λ a b, String.ltb (crb_UID a) (crb_UID b)) result
  end.

Definition getRoleBindings (p : policyRuleIndex) (subjectName : string) : list RoleBinding :=
  match rbCache_GetByIndex (caches p) (roleIndexKey p) subjectName with
  | None => []
  | Some result => sort_slice (λ a b, String.ltb (rb_UID a) (rb_UID b)) result
  end.

Definition getRoleRefs (p : policyRuleIndex) (subjectName : string) : subjectGrants :=
  let crbs := getClusterRoleBindings p subjectName in
  let clusterRoleBindings := (λ crb,
    let '(rules, rv) := getRules p All (crb_RoleRef crb) in
    mkroleRef "" (Ref_Name (crb_RoleRef crb)) rv clusterRoleKind rules) <$> crbs in
  let rbs := getRoleBindings p subjectName in
  let roleBindings := (λ rb,
    let '(rules, rv) := getRules p (rb_Namespace rb) (rb_RoleRef rb) in
    mkroleRef (rb_Namespace rb) (Ref_Name (rb_RoleRef rb)) rv roleKind rules) <$> rbs in
  mkSubjectGrants roleBindings clusterRoleBindings.
End policy_rule_index.

(** ** Hashes (user_grants.go): the bytes written to the digest, in order *)
Definition roleRef_writeTo (r : roleRef) (digest : string) : string :=
  let digest := digest +:+ ref_roleName r in
  let digest := if bool_decide (ref_namespace r = "") then digest
                else digest +:+ ref_namespace r in
  digest +:+ ref_resourceVersion r.

Definition subjectGrants_writeTo (b : subjectGrants) (digest : string) : string :=
  let digest := foldl (λ d r, roleRef_writeTo r d) digest (roleBindings b) in
  foldl (λ d r, roleRef_writeTo r d) digest (clusterRoleBindings b).

Section access_store.
Context `{MapRange, K8sRBAC, SliceSort}.
(** [hex.EncodeToString] of the SHA-256 sum of the written bytes. *)
Context (sha256_hex : string → string).

Definition digest_input (u : userGrants) : string :=
  foldl (λ d g, subjectGrants_writeTo g d) (subjectGrants_writeTo (g_user u) "") (g_groups u).

Definition userGrants_hash (u : userGrants) : string := sha256_hex (digest_input u).

Definition newAccessSet (info : userGrants) : AccessSet :=
  foldl (λ result group, AccessSet_Merge result (toAccessSet group))
        (toAccessSet (g_user info)) (g_groups info).

Definition userGrantsFor (usersPolicyRules groupsPolicyRules : policyRuleIndex)
    (user : UserInfo) : userGrants :=
  let groups := sort_strings (GetGroups user) in
  mkUserGrants (getRoleRefs usersPolicyRules (GetName user))
               (getRoleRefs groupsPolicyRules <$> groups).

(** The methods of [accessStoreCache], k8s' LRUExpireCache: entries may disappear
    at any time (size bound, expiry) but are never invented. *)
Record accessStoreCache := {
  cache_state : Type;
  cache_Get : string → cache_state → option AccessSet * cache_state;
  cache_Add : string → AccessSet → cache_state → cache_state;
  cache_Remove : string → cache_state → cache_state
}.

Record AccessStore (C : accessStoreCache) := mkAccessStore {
  usersPolicyRules : policyRuleIndex;
  groupsPolicyRules : policyRuleIndex;
  (* [None]: results are not cached *)
  cache : option (cache_state C)
}.
Arguments mkAccessStore {C}.
Arguments usersPolicyRules {C}.
Arguments groupsPolicyRules {C}.
Arguments cache {C}.

Definition NewAccessStore (C : accessStoreCache) (empty : cache_state C)
    (cacheResults : bool) (rbac : RBACCaches) : AccessStore C :=
  mkAccessStore (newPolicyRuleIndex true rbac) (newPolicyRuleIndex false rbac)
                (if cacheResults then Some empty else None).

(** [AccessFor]. singleflight.Group.Do runs its function when no call with the same
    key is under way, and otherwise shares that call's result. *)
Definition AccessFor {C} (l : AccessStore C) (user : UserInfo) : AccessSet * AccessStore C :=
  let info := userGrantsFor (usersPolicyRules l) (groupsPolicyRules l) user in
  match cache l with
  | None => (newAccessSet info, l)
  | Some c =>
      let cacheKey := userGrants_hash info in
      let store c := mkAccessStore (usersPolicyRules l) (groupsPolicyRules l) (Some c) in
      match cache_Get C cacheKey c with
      | (Some as_, c) => (as_, store c)
      | (None, c) =>
          let result := newAccessSet info in
          let result := mkAccessSet cacheKey (set result) (nonResourceSet result) in
          (result, store (cache_Add C cacheKey result c))
      end
  end.

(** [PurgeUserData] calls a method of the cache: a nil cache panics. *)
Definition PurgeUserData {C} (l : AccessStore C) (id : string)
    : outcome string (AccessStore C) :=
  match cache l with
  | None => Panic
  | Some c => Ok (mkAccessStore (usersPolicyRules l) (groupsPolicyRules l)
                                (Some (cache_Remove C id c)))
  end.
End access_store.

Arguments mkAccessStore {C}.
Arguments usersPolicyRules {C}.
Arguments groupsPolicyRules {C}.
Arguments cache {C}.

(** * Specifications *)

(** [a] holds access [acc] under the key [k]. *)
Definition holds (a : AccessSet) (k : key) (acc : Access) : Prop :=
  is_Some (default ∅ (set a !! k) !! acc).

(** A key of an access set applies to a verb and a resource: each component is "*" or
    equal. *)
Definition key_applies (k : key) (v : string) (g : GroupResource) : Prop :=
  (verb k = All ∨ verb k = v) ∧
  (Group (gr k) = All ∨ Group (gr k) = Group g) ∧
  (Resource (gr k) = All ∨ Resource (gr k) = Resource g).

(** A rule for [resource] of [group] named [name], bound in [namespace] ("*" for a cluster
    role binding), applies to the object [ns]/[n]. A rule for the namespace itself, or for
    all namespaces, bound in a namespace applies to that namespace as an object, wherever
    it is looked for. *)
Definition rule_applies (namespace group resource name ns n : string) : Prop :=
  (namespace ≠ All ∧ resource = "namespaces" ∧ group = "" ∧ (name = All ∨ name = namespace) ∧
   n = namespace) ∨
  (¬ (namespace ≠ All ∧ resource = "namespaces" ∧ group = "" ∧ (name = All ∨ name = namespace)) ∧
   (namespace = All ∨ namespace = ns) ∧ (name = All ∨ name = n)).

(** A rule bound in [namespace] allows the verb on the object [ns]/[n] of [g]. *)
Definition rule_allows (namespace : string) (rule : PolicyRule) (v : string)
    (g : GroupResource) (ns n : string) : Prop :=
  ∃ v' group resource name,
    v' ∈ Verbs rule ∧ group ∈ APIGroups rule ∧ resource ∈ Resources rule ∧
    name ∈ rule_names rule ∧
    key_applies (mkKey v' (mkGR group resource)) v g ∧
    rule_applies namespace group resource name ns n.

(** The grants of a subject allow the request. *)
Definition subject_allows (b : subjectGrants) (v : string) (g : GroupResource)
    (ns n : string) : Prop :=
  (∃ r rule, r ∈ roleBindings b ∧ rule ∈ ref_rules r ∧
     rule_allows (ref_namespace r) rule v g ns n) ∨
  (∃ r rule, r ∈ clusterRoleBindings b ∧ rule ∈ ref_rules r ∧ rule_allows All rule v g ns n).

Definition grants_allow (u : userGrants) (v : string) (g : GroupResource) (ns n : string) : Prop :=
  ∃ b, b ∈ g_user u :: g_groups u ∧ subject_allows b v g ns n.

(** * Lemmas *)
Lemma Access_Grants_true a ns n :
  Access_Grants a ns n = true ↔
  (Namespace a = All ∨ Namespace a = ns) ∧ (ResourceName a = All ∨ ResourceName a = n).
Proof.
  unfold Access_Grants, Access_nsOK, Access_nameOK.
  by rewrite andb_true_iff, !orb_true_iff, !bool_decide_eq_true.
Qed.

Lemma AccessList_Grants_true l ns n :
  AccessList_Grants l ns n = true ↔ ∃ a, a ∈ l ∧ Access_Grants a ns n = true.
Proof. apply existsb_true. Qed.

Section access_set_lemmas.
Context `{MapRange}.
Implicit Types (a : AccessSet) (k : key) (acc : Access).

Lemma elem_of_grant_keys k v g : k ∈ grant_keys v g ↔ key_applies k v g.
Proof.
  unfold grant_keys, key_applies. destruct k as [kv [kg kr]], g as [gg gr_]. cbn.
  rewrite !elem_of_cons, elem_of_nil. split.
  - intros Hk. naive_solver.
  - intros (Hv & Hg & Hr). destruct Hv, Hg, Hr; subst; tauto.
Qed.

Lemma AccessSet_Grants_true a v g ns n :
  AccessSet_Grants a v g ns n = true ↔
  ∃ k acc, key_applies k v g ∧ holds a k acc ∧ Access_Grants acc ns n = true.
Proof.
  unfold AccessSet_Grants, holds. rewrite existsb_true.
  setoid_rewrite existsb_true. setoid_rewrite elem_of_grant_keys.
  setoid_rewrite elem_of_range_keys. naive_solver.
Qed.

Lemma elem_of_AccessListFor a v g acc :
  acc ∈ AccessListFor a v g ↔ ∃ k, key_applies k v g ∧ holds a k acc.
Proof.
  unfold AccessListFor, holds. rewrite elem_of_range_keys.
  rewrite (foldl_or (λ d : resourceAccessSet, is_Some (d !! acc))
    (λ k, is_Some (default ∅ (set a !! k) !! acc))).
  - setoid_rewrite elem_of_grant_keys. rewrite lookup_empty, is_Some_None_iff. naive_solver.
  - intros d k _. rewrite (foldl_or (λ d : resourceAccessSet, is_Some (d !! acc)) (λ x, x = acc)).
    + setoid_rewrite elem_of_range_keys. naive_solver.
    + intros d' x _. rewrite lookup_insert_is_Some'. naive_solver.
Qed.

Lemma NoDup_AccessListFor a v g : NoDup (AccessListFor a v g).
Proof. apply NoDup_range_keys. Qed.

Lemma holds_empty k acc : ¬ holds empty_AccessSet k acc.
Proof. unfold holds. cbn. rewrite lookup_empty. cbn. rewrite lookup_empty. by intros [? ?]. Qed.

Lemma holds_Add a v g acc k acc' :
  holds (AccessSet_Add a v g acc) k acc' ↔ holds a k acc' ∨ (k = mkKey v g ∧ acc' = acc).
Proof.
  unfold holds, AccessSet_Add.
  destruct (decide (k = mkKey v g)) as [->|Hk], (set a !! mkKey v g) as [m|] eqn:Hm; cbn;
    simplify_map_eq; rewrite ?Hm; cbn.
  - rewrite lookup_insert_is_Some'. naive_solver.
  - rewrite lookup_singleton_is_Some, ?lookup_empty, is_Some_None_iff. naive_solver.
  - naive_solver.
  - naive_solver.
Qed.

Lemma holds_AddNonResourceURLs a vs us k acc :
  holds (AddNonResourceURLs a vs us) k acc ↔ holds a k acc.
Proof. unfold AddNonResourceURLs, holds. by case_match. Qed.

Lemma Merge_entry_holds s k0 m k acc :
  is_Some (default ∅ (Merge_entry s k0 m !! k) !! acc) ↔
  is_Some (default ∅ (s !! k) !! acc) ∨ (k = k0 ∧ is_Some (m !! acc)).
Proof.
  unfold Merge_entry. destruct (decide (k = k0)) as [->|Hk]; simplify_map_eq; [|naive_solver].
  rewrite (foldl_or (λ d : resourceAccessSet, is_Some (d !! acc)) (λ x, x.1 = acc)).
  - split; (intros [?|Hx]; [by left|right]).
    + destruct Hx as ([acc' v] & Hin & Heq). simpl in Heq. subst acc'.
      apply elem_of_range_map in Hin. split; [done|by eexists].
    + destruct Hx as [_ [v Hv]]. exists (acc, v). by rewrite elem_of_range_map.
  - intros d [x v] _. rewrite lookup_insert_is_Some'. cbn. naive_solver.
Qed.

Lemma holds_Merge a right k acc :
  holds (AccessSet_Merge a right) k acc ↔ holds a k acc ∨ holds right k acc.
Proof.
  unfold holds, AccessSet_Merge. cbn.
  rewrite (foldl_or (λ s : gmap key resourceAccessSet, is_Some (default ∅ (s !! k) !! acc))
    (λ x, k = x.1 ∧ is_Some (x.2 !! acc))).
  - split; (intros [?|Hx]; [by left|right]).
    + destruct Hx as ([k' m] & Hin & Heq & Hm). simpl in *. subst k'.
      apply elem_of_range_map in Hin. by rewrite Hin.
    + destruct (set right !! k) as [m|] eqn:Hm; cbn in Hx;
        [|by rewrite lookup_empty in Hx; destruct Hx].
      exists (k, m). by rewrite elem_of_range_map.
  - intros s [k' m] _. apply Merge_entry_holds.
Qed.
End access_set_lemmas.
#[export] Hint Rewrite @elem_of_grant_keys @AccessSet_Grants_true @elem_of_AccessListFor
  @holds_Add @holds_Merge @holds_AddNonResourceURLs @AccessList_Grants_true : steve.

Section grants_lemmas.
Context `{MapRange}.
Context (v : string) (g : GroupResource) (ns n : string).
Implicit Types (a : AccessSet).

Lemma Grants_Add a v' g' acc :
  AccessSet_Grants (AccessSet_Add a v' g' acc) v g ns n = true ↔
  AccessSet_Grants a v g ns n = true ∨
  (key_applies (mkKey v' g') v g ∧ Access_Grants acc ns n = true).
Proof. rewrite !AccessSet_Grants_true. setoid_rewrite holds_Add. naive_solver. Qed.

Lemma Grants_AddNonResourceURLs a vs us :
  AccessSet_Grants (AddNonResourceURLs a vs us) v g ns n = AccessSet_Grants a v g ns n.
Proof.
  apply eq_true_iff_eq. rewrite !AccessSet_Grants_true.
  by setoid_rewrite holds_AddNonResourceURLs.
Qed.

Lemma Grants_Merge a right :
  AccessSet_Grants (AccessSet_Merge a right) v g ns n = true ↔
  AccessSet_Grants a v g ns n = true ∨ AccessSet_Grants right v g ns n = true.
Proof. rewrite !AccessSet_Grants_true. setoid_rewrite holds_Merge. naive_solver. Qed.

Lemma Grants_empty : AccessSet_Grants empty_AccessSet v g ns n = true ↔ False.
Proof.
  rewrite AccessSet_Grants_true. split; [|done].
  intros (k & acc & _ & Hh & _). by apply holds_empty in Hh.
Qed.

Lemma Grants_foldl {B} (P : B → Prop) (f : AccessSet → B → AccessSet) l a :
  (∀ a x, x ∈ l → AccessSet_Grants (f a x) v g ns n = true ↔
                  AccessSet_Grants a v g ns n = true ∨ P x) →
  AccessSet_Grants (foldl f a l) v g ns n = true ↔
  AccessSet_Grants a v g ns n = true ∨ ∃ x, x ∈ l ∧ P x.
Proof. apply (foldl_or (λ a, AccessSet_Grants a v g ns n = true)). Qed.

Lemma rule_access_applies namespace group resource name :
  Access_Grants (rule_access namespace group resource name) ns n = true ↔
  rule_applies namespace group resource name ns n.
Proof.
  rewrite Access_Grants_true. unfold rule_access, rule_applies.
  destruct (_ && _) eqn:Hnamespaces; cbn [Namespace ResourceName].
  - rewrite !andb_true_iff, orb_true_iff, negb_true_iff, bool_decide_eq_false, !bool_decide_eq_true
      in Hnamespaces. naive_solver.
  - apply not_true_iff_false in Hnamespaces.
    rewrite !andb_true_iff, orb_true_iff, negb_true_iff, bool_decide_eq_false, !bool_decide_eq_true
      in Hnamespaces. tauto.
Qed.

Lemma Grants_addResourceAccess a namespace rule :
  AccessSet_Grants (addResourceAccess a namespace rule) v g ns n = true ↔
  AccessSet_Grants a v g ns n = true ∨ rule_allows namespace rule v g ns n.
Proof.
  unfold addResourceAccess.
  rewrite (Grants_foldl (λ group, ∃ resource, resource ∈ Resources rule ∧
    ∃ name, name ∈ rule_names rule ∧ ∃ v', v' ∈ Verbs rule ∧
    key_applies (mkKey v' (mkGR group resource)) v g ∧
    rule_applies namespace group resource name ns n)).
  { apply or_iff_compat_l. unfold rule_allows. split.
    - intros (group & ? & resource & ? & name & ? & v' & ? & ? & ?). by exists v', group, resource, name.
    - intros (v' & group & resource & name & ? & ? & ? & ? & ? & ?).
      exists group; split; [done|]. exists resource; split; [done|].
      exists name; split; [done|]. by exists v'. }
  intros a1 group _. apply Grants_foldl. intros a2 resource _.
  apply Grants_foldl. intros a3 name _. apply Grants_foldl. intros a4 v' _.
  rewrite <- rule_access_applies. apply Grants_Add.
Qed.

Lemma rule_allows_resources namespace rule :
  rule_allows namespace rule v g ns n → Resources rule ≠ [].
Proof. intros (?&?&?&?&_&_&Hr&_) Hnil. rewrite Hnil in Hr. by apply elem_of_nil in Hr. Qed.

Lemma Grants_addAccess a namespace r :
  AccessSet_Grants (addAccess a namespace r) v g ns n = true ↔
  AccessSet_Grants a v g ns n = true ∨
  ∃ rule, rule ∈ ref_rules r ∧ rule_allows namespace rule v g ns n.
Proof.
  unfold addAccess. apply Grants_foldl.
  intros a1 rule _. case_bool_decide as Hlen; [apply Grants_addResourceAccess|].
  assert (¬ rule_allows namespace rule v g ns n).
  { intros Hr%rule_allows_resources. apply Hr. destruct (Resources rule); [done|cbn in Hlen; lia]. }
  case_bool_decide; rewrite ?Grants_AddNonResourceURLs; tauto.
Qed.

Lemma Grants_toAccessSet b :
  AccessSet_Grants (toAccessSet b) v g ns n = true ↔ subject_allows b v g ns n.
Proof.
  unfold toAccessSet, subject_allows.
  rewrite (Grants_foldl (λ r, ∃ rule, rule ∈ ref_rules r ∧ rule_allows All rule v g ns n))
    by (intros; apply Grants_addAccess).
  rewrite (Grants_foldl (λ r, ∃ rule, rule ∈ ref_rules r ∧
    rule_allows (ref_namespace r) rule v g ns n)) by (intros; apply Grants_addAccess).
  rewrite Grants_empty. naive_solver.
Qed.

Lemma Grants_newAccessSet info :
  AccessSet_Grants (newAccessSet info) v g ns n = true ↔ grants_allow info v g ns n.
Proof.
  unfold newAccessSet, grants_allow.
  rewrite (Grants_foldl (λ b, subject_allows b v g ns n)).
  - rewrite Grants_toAccessSet. setoid_rewrite elem_of_cons. naive_solver.
  - intros a b _. by rewrite Grants_Merge, Grants_toAccessSet.
Qed.
End grants_lemmas.

Section index_lemmas.
Context `{K8sRBAC}.

(** A subject of a binding denotes the user or group named [s]: it is of that kind, or a
    service account of a namespace, for the name of the service account as a user. *)
Definition subject_names (kind s : string) (sub : Subject) : Prop :=
  (S_APIGroup sub = rbacGroup ∧ S_Kind sub = kind ∧ S_Name sub = s) ∨
  (¬ (S_APIGroup sub = rbacGroup ∧ S_Kind sub = kind) ∧ kind = userKind ∧
   S_APIGroup sub = "" ∧ S_Kind sub = svcAccountKind ∧ S_Namespace sub ≠ "" ∧
   MakeUsername (S_Namespace sub) (S_Name sub) = s).

Lemma subject_names_bool kind s sub : subject_names kind s sub ↔
  (subjectIs kind sub = true ∧ S_Name sub = s) ∨
  (subjectIs kind sub = false ∧ kind = userKind ∧ subjectIsServiceAccount sub = true ∧
   MakeUsername (S_Namespace sub) (S_Name sub) = s).
Proof.
  unfold subject_names, subjectIs, subjectIsServiceAccount.
  rewrite <- (not_true_iff_false (_ && bool_decide (S_Kind sub = kind))).
  rewrite !andb_true_iff, !bool_decide_eq_true, negb_true_iff, bool_decide_eq_false. tauto.
Qed.

Lemma elem_of_indexSubjects kind subjects s :
  s ∈ indexSubjects kind subjects ↔ ∃ sub, sub ∈ subjects ∧ subject_names kind s sub.
Proof.
  induction subjects as [|sub subs IH]; cbn.
  - rewrite exists_elem_of_nil. apply elem_of_nil.
  - rewrite exists_elem_of_cons, <- IH, subject_names_bool.
    destruct (subjectIs kind sub); [rewrite elem_of_cons; naive_solver|].
    case_bool_decide; destruct (subjectIsServiceAccount sub); cbn;
      rewrite ?elem_of_cons; naive_solver.
Qed.
End index_lemmas.

Section granted_lemmas.
Implicit Types (a : AccessListByVerb) (acc : Access).

Lemma resources_at_insert m ns r ns' :
  resources_at (<[ns := r]> m) ns' = if decide (ns = ns') then r else resources_at m ns'.
Proof. unfold resources_at. rewrite lookup_insert. by case_decide. Qed.

Lemma Granted_get_All m acc ns :
  R_All (resources_at (Granted_get m acc) ns) = R_All (resources_at m ns).
Proof.
  unfold Granted_get. repeat case_bool_decide; try done.
  rewrite resources_at_insert. by case_decide; subst.
Qed.

Lemma Granted_All a v ns :
  R_All (resources_at (Granted a v) ns) = true ↔
  ∃ acc, acc ∈ access_by_verb a v ∧ Namespace acc = ns ∧ ResourceName acc = All.
Proof.
  assert (Hadd : R_All (resources_at (foldl Granted_add ∅ (access_by_verb a v)) ns) = true ↔
    ∃ acc, acc ∈ access_by_verb a v ∧ Namespace acc = ns ∧ ResourceName acc = All).
  { rewrite (foldl_or (λ m, R_All (resources_at m ns) = true)
      (λ acc, Namespace acc = ns ∧ ResourceName acc = All)).
    - unfold resources_at at 1. rewrite lookup_empty. cbn. naive_solver.
    - intros m acc _. unfold Granted_add. rewrite resources_at_insert.
      case_decide; try case_bool_decide; cbn; subst; naive_solver. }
  unfold Granted. case_bool_decide; [|done]. rewrite <- Hadd.
  generalize (foldl Granted_add ∅ (access_by_verb a v)) as m.
  induction (access_by_verb a "get") as [|acc l IH]; intros m; cbn; [done|].
  by rewrite IH, Granted_get_All.
Qed.

Lemma Granted_Names a v ns nm :
  nm ∈ R_Names (resources_at (Granted a v) ns) ↔
  (mkAccess ns nm ∈ access_by_verb a v ∧ nm ≠ All) ∨
  (v = "list" ∧ mkAccess ns nm ∈ access_by_verb a "get" ∧ nm ≠ All ∧ nm ≠ "").
Proof.
  assert (Hadd : nm ∈ R_Names (resources_at (foldl Granted_add ∅ (access_by_verb a v)) ns) ↔
    mkAccess ns nm ∈ access_by_verb a v ∧ nm ≠ All).
  { rewrite (foldl_or (λ m, nm ∈ R_Names (resources_at m ns))
      (λ acc, acc = mkAccess ns nm ∧ nm ≠ All)).
    - unfold resources_at at 1. rewrite lookup_empty. cbn. set_solver.
    - intros m [ns' nm'] _. unfold Granted_add. rewrite resources_at_insert. cbn.
      case_decide; try case_bool_decide; cbn; subst; set_solver. }
  unfold Granted. case_bool_decide; [|naive_solver].
  rewrite (foldl_or (λ m, nm ∈ R_Names (resources_at m ns))
    (λ acc, acc = mkAccess ns nm ∧ nm ≠ All ∧ nm ≠ "")).
  - rewrite Hadd. set_solver.
  - intros m [ns' nm'] _. unfold Granted_get. cbn. case_bool_decide; [set_solver|].
    case_bool_decide as Hlen.
    + rewrite resources_at_insert. assert (nm' ≠ "") by (intros ->; cbn in Hlen; lia).
      case_decide; cbn; subst; set_solver.
    + assert (nm' = "") as -> by (destruct nm'; [done|cbn in Hlen; lia]). set_solver.
Qed.

Lemma lookup_Granted_is_Some a v ns :
  is_Some (Granted a v !! ns) ↔
  (∃ acc, acc ∈ access_by_verb a v ∧ Namespace acc = ns) ∨
  (v = "list" ∧ ∃ acc, acc ∈ access_by_verb a "get" ∧ Namespace acc = ns ∧
     ResourceName acc ≠ All ∧ ResourceName acc ≠ "").
Proof.
  assert (Hadd : is_Some (foldl Granted_add ∅ (access_by_verb a v) !! ns) ↔
    ∃ acc, acc ∈ access_by_verb a v ∧ Namespace acc = ns).
  { rewrite (foldl_or (λ m : gmap string ResourcesT, is_Some (m !! ns))
      (λ acc, Namespace acc = ns)).
    - rewrite lookup_empty, is_Some_None_iff. naive_solver.
    - intros m acc _. unfold Granted_add. rewrite lookup_insert_is_Some'. naive_solver. }
  unfold Granted. case_bool_decide; [|naive_solver].
  rewrite (foldl_or (λ m : gmap string ResourcesT, is_Some (m !! ns))
    (λ acc, Namespace acc = ns ∧ ResourceName acc ≠ All ∧ ResourceName acc ≠ "")).
  - rewrite Hadd. naive_solver.
  - intros m acc _. unfold Granted_get. case_bool_decide; [naive_solver|].
    case_bool_decide as Hlen.
    + rewrite lookup_insert_is_Some'. assert (ResourceName acc ≠ "") by (intros Heq; rewrite Heq in Hlen; cbn in Hlen; lia).
      naive_solver.
    + assert (ResourceName acc = "") by (destruct (ResourceName acc); [done|cbn in Hlen; lia]).
      naive_solver.
Qed.
End granted_lemmas.

(** ** Kubernetes' caches

    [RBACCachesOK c crbs rbs]: the indexes of the informer caches [c] hold the cluster
    role bindings [crbs] and role bindings [rbs], as client-go documents [GetByIndex]. *)
Class RBACCachesOK `{K8sRBAC} (c : RBACCaches)
    (crbs : list ClusterRoleBinding) (rbs : list RoleBinding) := {
  crb_index : ∀ kind s, kind = userKind ∨ kind = groupKind →
    ∃ l, crbCache_GetByIndex c ("crb" +:+ kind) s = Some l ∧
         ∀ b, b ∈ l ↔ b ∈ crbs ∧ s ∈ clusterRoleBindingBySubjectIndexer kind b;
  rb_index : ∀ kind s, kind = userKind ∨ kind = groupKind →
    ∃ l, rbCache_GetByIndex c ("rb" +:+ kind) s = Some l ∧
         ∀ b, b ∈ l ↔ b ∈ rbs ∧ s ∈ roleBindingBySubjectIndexer kind b
}.

(** A binding names the user or one of the user's groups. *)
Definition binds_user `{K8sRBAC} (user : UserInfo) (subjects : list Subject) : Prop :=
  (∃ sub, sub ∈ subjects ∧ subject_names userKind (GetName user) sub) ∨
  (∃ grp, grp ∈ GetGroups user ∧ ∃ sub, sub ∈ subjects ∧ subject_names groupKind grp sub).

(** The rules a role reference resolves to; none when the role does not exist. *)
Definition referenced_rules (c : RBACCaches) (namespace : string) (r : RoleRef)
    : list PolicyRule :=
  if bool_decide (Ref_Kind r = "ClusterRole") then from_option Rules [] (crCache_Get c (Ref_Name r))
  else if bool_decide (Ref_Kind r = "Role")
       then from_option Rules [] (rCache_Get c namespace (Ref_Name r)) else [].

(** What Kubernetes' RBAC objects let a user do. *)
Definition rbac_allows `{K8sRBAC} (c : RBACCaches) (crbs : list ClusterRoleBinding)
    (rbs : list RoleBinding) (user : UserInfo) (v : string) (g : GroupResource)
    (ns n : string) : Prop :=
  (∃ crb, crb ∈ crbs ∧ Ref_Kind (crb_RoleRef crb) = "ClusterRole" ∧
     binds_user user (crb_Subjects crb) ∧
     ∃ rule, rule ∈ referenced_rules c All (crb_RoleRef crb) ∧ rule_allows All rule v g ns n) ∨
  (∃ rb, rb ∈ rbs ∧ binds_user user (rb_Subjects rb) ∧
     ∃ rule, rule ∈ referenced_rules c (rb_Namespace rb) (rb_RoleRef rb) ∧
       rule_allows (rb_Namespace rb) rule v g ns n).

Section access_for_lemmas.
Context `{MapRange, K8sRBAC, SliceSort}.
Context (c : RBACCaches) (crbs : list ClusterRoleBinding) (rbs : list RoleBinding).
Context `{!RBACCachesOK c crbs rbs}.
Context (v : string) (g : GroupResource) (ns n : string).

Lemma getRules_referenced p namespace r :
  (getRules p namespace r).1 = referenced_rules (caches p) namespace r.
Proof.
  unfold getRules, referenced_rules. case_bool_decide; [by case_match|].
  case_bool_decide; [by case_match|done].
Qed.

Lemma elem_of_getClusterRoleBindings user s b :
  let kind := if user : bool then userKind else groupKind in
  b ∈ getClusterRoleBindings (newPolicyRuleIndex user c) s ↔
  b ∈ crbs ∧ Ref_Kind (crb_RoleRef b) = "ClusterRole" ∧
  ∃ sub, sub ∈ crb_Subjects b ∧ subject_names kind s sub.
Proof.
  intros kind. unfold getClusterRoleBindings, newPolicyRuleIndex.
  cbn [caches clusterRoleIndexKey]. fold kind.
  destruct (crb_index kind s) as (l & -> & Hl); [subst kind; destruct user; auto|].
  rewrite sort_slice_perm, Hl. unfold clusterRoleBindingBySubjectIndexer.
  case_bool_decide; rewrite ?elem_of_indexSubjects, ?elem_of_nil; naive_solver.
Qed.

Lemma elem_of_getRoleBindings user s b :
  let kind := if user : bool then userKind else groupKind in
  b ∈ getRoleBindings (newPolicyRuleIndex user c) s ↔
  b ∈ rbs ∧ ∃ sub, sub ∈ rb_Subjects b ∧ subject_names kind s sub.
Proof.
  intros kind. unfold getRoleBindings, newPolicyRuleIndex.
  cbn [caches roleIndexKey]. fold kind.
  destruct (rb_index kind s) as (l & -> & Hl); [subst kind; destruct user; auto|].
  rewrite sort_slice_perm, Hl. unfold roleBindingBySubjectIndexer.
  by rewrite elem_of_indexSubjects.
Qed.

(** The grants of one subject, from the bindings that name it. *)
Lemma subject_allows_getRoleRefs user s :
  let kind := if user : bool then userKind else groupKind in
  subject_allows (getRoleRefs (newPolicyRuleIndex user c) s) v g ns n ↔
  (∃ rb, rb ∈ rbs ∧ (∃ sub, sub ∈ rb_Subjects rb ∧ subject_names kind s sub) ∧
     ∃ rule, rule ∈ referenced_rules c (rb_Namespace rb) (rb_RoleRef rb) ∧
       rule_allows (rb_Namespace rb) rule v g ns n) ∨
  (∃ crb, crb ∈ crbs ∧ Ref_Kind (crb_RoleRef crb) = "ClusterRole" ∧
     (∃ sub, sub ∈ crb_Subjects crb ∧ subject_names kind s sub) ∧
     ∃ rule, rule ∈ referenced_rules c All (crb_RoleRef crb) ∧ rule_allows All rule v g ns n).
Proof.
  intros kind. unfold subject_allows, getRoleRefs. cbn [roleBindings clusterRoleBindings].
  f_equiv; split.
  - intros (r & rule & (rb & -> & Hrb)%list_elem_of_fmap & Hrule & Hall).
    apply elem_of_getRoleBindings in Hrb as [??]. exists rb. split_and!; [done..|].
    exists rule. rewrite <- (getRules_referenced (newPolicyRuleIndex user c)).
    by destruct (getRules _ _ _).
  - intros (rb & Hrb & Hsub & rule & Hrule & Hall). eexists _, rule. split.
    { apply list_elem_of_fmap_2, elem_of_getRoleBindings. by split. }
    rewrite <- (getRules_referenced (newPolicyRuleIndex user c)) in Hrule.
    by destruct (getRules _ _ _).
  - intros (r & rule & (crb & -> & Hcrb)%list_elem_of_fmap & Hrule & Hall).
    apply elem_of_getClusterRoleBindings in Hcrb as (?&?&?). exists crb. split_and!; [done..|].
    exists rule. rewrite <- (getRules_referenced (newPolicyRuleIndex user c)).
    by destruct (getRules _ _ _).
  - intros (crb & Hcrb & Hkind & Hsub & rule & Hrule & Hall). eexists _, rule. split.
    { apply list_elem_of_fmap_2, elem_of_getClusterRoleBindings. by split_and!. }
    rewrite <- (getRules_referenced (newPolicyRuleIndex user c)) in Hrule.
    by destruct (getRules _ _ _).
Qed.

Lemma grants_allow_rbac user :
  grants_allow (userGrantsFor (newPolicyRuleIndex true c) (newPolicyRuleIndex false c) user)
    v g ns n ↔ rbac_allows c crbs rbs user v g ns n.
Proof.
  unfold grants_allow, userGrantsFor, rbac_allows, binds_user. cbn [g_user g_groups].
  rewrite exists_elem_of_cons, exists_elem_of_fmap.
  setoid_rewrite elem_of_sort_strings. setoid_rewrite subject_allows_getRoleRefs. cbn.
  split.
  - intros [[(rb&?&?&?)|(crb&?&?&?&?)]|(grp&?&[(rb&?&?&?)|(crb&?&?&?&?)])].
    + right. exists rb. split_and!; auto.
    + left. exists crb. split_and!; auto.
    + right. exists rb. split_and!; [done| |done]. right. by exists grp.
    + left. exists crb. split_and!; [done..| |done]. right. by exists grp.
  - intros [(crb&?&?&[?|(grp&?&?)]&?)|(rb&?&[?|(grp&?&?)]&?)].
    + left; right. exists crb. by split_and!.
    + right. exists grp. split; [done|]. right. exists crb. by split_and!.
    + left; left. exists rb. by split_and!.
    + right. exists grp. split; [done|]. left. exists rb. by split_and!.
Qed.
End access_for_lemmas.

(** ** The cache of access sets *)
Class CacheLaws (C : accessStoreCache) := {
  cache_contents : cache_state C → gmap string AccessSet;
  cache_Get_found : ∀ k c a, (cache_Get C k c).1 = Some a → cache_contents c !! k = Some a;
  cache_Get_contents : ∀ k c, cache_contents (cache_Get C k c).2 ⊆ cache_contents c;
  cache_Add_contents : ∀ k a c, cache_contents (cache_Add C k a c) ⊆ <[k := a]> (cache_contents c);
  cache_Remove_contents : ∀ k c, cache_contents (cache_Remove C k c) ⊆ delete k (cache_contents c)
}.

(** A cache that keeps every entry. *)
Definition gmap_cache : accessStoreCache := {|
  cache_state := gmap string AccessSet;
  cache_Get := λ k c, (c !! k, c);
  cache_Add := λ k a c, <[k := a]> c;
  cache_Remove := λ k c, delete k c
|}.
#[export] Instance gmap_cache_laws : CacheLaws gmap_cache.
Proof. by refine {| cache_contents := λ c : cache_state gmap_cache, c |}. Defined.

(** Calls to an access store: the RBAC caches may have changed before each lookup. *)
Inductive store_op :=
  | OpAccessFor (rbac : RBACCaches) (user : UserInfo)
  | OpPurge (id : string).

Section access_store_lemmas.
Context `{MapRange, K8sRBAC, SliceSort} (sha256_hex : string → string).

Definition store_with {C} (rbac : RBACCaches) (c : option (cache_state C)) : AccessStore C :=
  mkAccessStore (newPolicyRuleIndex true rbac) (newPolicyRuleIndex false rbac) c.

Definition grants_now (rbac : RBACCaches) (user : UserInfo) : userGrants :=
  userGrantsFor (newPolicyRuleIndex true rbac) (newPolicyRuleIndex false rbac) user.

(** The access sets returned by a sequence of calls. *)
Fixpoint run_store {C} (ops : list store_op) (c : cache_state C) : list AccessSet :=
  match ops with
  | [] => []
  | OpAccessFor rbac user :: ops =>
      let '(a, l) := AccessFor sha256_hex (store_with rbac (Some c)) user in
      match cache l with Some c' => a :: run_store ops c' | None => [a] end
  | OpPurge id :: ops => run_store ops (cache_Remove C id c)
  end.

(** The same calls answered without a cache. *)
Fixpoint run_fresh (ops : list store_op) : list AccessSet :=
  match ops with
  | [] => []
  | OpAccessFor rbac user :: ops => newAccessSet (grants_now rbac user) :: run_fresh ops
  | OpPurge _ :: ops => run_fresh ops
  end.

Fixpoint ops_grants (ops : list store_op) : list userGrants :=
  match ops with
  | [] => []
  | OpAccessFor rbac user :: ops => grants_now rbac user :: ops_grants ops
  | OpPurge _ :: ops => ops_grants ops
  end.

(** Two access sets that give the same rights; they may differ in their [ID]. *)
Definition same_access (a b : AccessSet) : Prop :=
  set a = set b ∧ nonResourceSet a = nonResourceSet b.

(** Every cached entry was computed from grants of [U] and stored under their hash. *)
Definition cache_ok {C} `{!CacheLaws C} (U : userGrants → Prop) (c : cache_state C) : Prop :=
  ∀ k a, cache_contents c !! k = Some a →
    ∃ u, U u ∧ k = userGrants_hash sha256_hex u ∧ same_access a (newAccessSet u).

Lemma cache_ok_subset {C} `{!CacheLaws C} U (c c' : cache_state C) :
  cache_contents c' ⊆ cache_contents c → cache_ok U c → cache_ok U c'.
Proof. intros Hsub Hok k a Hk. apply Hok. by eapply lookup_weaken. Qed.

Lemma AccessFor_cached {C} `{!CacheLaws C} (U : userGrants → Prop) rbac user (c : cache_state C) :
  (∀ u1 u2, U u1 → U u2 →
     userGrants_hash sha256_hex u1 = userGrants_hash sha256_hex u2 → u1 = u2) →
  U (grants_now rbac user) → cache_ok U c →
  ∃ a c', AccessFor sha256_hex (store_with rbac (Some c)) user = (a, store_with rbac (Some c')) ∧
          same_access a (newAccessSet (grants_now rbac user)) ∧ cache_ok U c'.
Proof.
  intros Hinj HU Hok. unfold AccessFor. cbn [cache store_with usersPolicyRules groupsPolicyRules].
  fold (grants_now rbac user). set (u := grants_now rbac user) in *.
  pose proof (cache_Get_found (userGrants_hash sha256_hex u) c) as Hfound.
  pose proof (cache_Get_contents (userGrants_hash sha256_hex u) c) as Hsub.
  destruct (cache_Get C _ c) as [[a|] c'] eqn:Hget; cbn in Hfound, Hsub.
  - exists a, c'. split; [done|]. specialize (Hfound a eq_refl).
    destruct (Hok _ _ Hfound) as (u' & HU' & Hhash & Hsame).
    rewrite (Hinj u u') by done. split; [done|]. by eapply cache_ok_subset.
  - eexists _, _. split; [done|]. split; [done|].
    intros k a Hk. eapply lookup_weaken in Hk; [|apply cache_Add_contents].
    apply lookup_insert_Some in Hk as [[<- <-]|[_ Hk]]; [by exists u|].
    by eapply (cache_ok_subset _ c).
Qed.

Lemma run_store_fresh {C} `{!CacheLaws C} (U : userGrants → Prop) ops (c : cache_state C) :
  (∀ u1 u2, U u1 → U u2 →
     userGrants_hash sha256_hex u1 = userGrants_hash sha256_hex u2 → u1 = u2) →
  (∀ u, u ∈ ops_grants ops → U u) → cache_ok U c →
  Forall2 same_access (run_store ops c) (run_fresh ops).
Proof.
  intros Hinj. revert c. induction ops as [|[rbac user|id] ops IH]; intros c HU Hok;
    cbn [run_store run_fresh].
  - constructor.
  - destruct (AccessFor_cached U rbac user c Hinj) as (a & c' & -> & Hsame & Hok'); [|done|].
    { apply HU. by left. }
    cbn [cache store_with]. constructor; [done|]. apply IH; [|done]. intros u Hu. apply HU. by right.
  - apply IH; [done|]. eapply cache_ok_subset; [|done].
    etrans; [apply cache_Remove_contents|apply delete_subseteq].
Qed.
End access_store_lemmas.

(** * Theorems *)

(** C1: A user's access set grants a verb on an object exactly when some cluster role
    binding or role binding that names the user, one of the user's groups or the
    user's service account refers to a role with a rule that allows it. *)
Theorem AccessFor_allows_rbac `{MapRange, K8sRBAC, SliceSort} sha256_hex C empty c crbs rbs
    `{!RBACCachesOK c crbs rbs} user v g ns n :
  AccessSet_Grants (AccessFor sha256_hex (NewAccessStore C empty false c) user).1 v g ns n = true ↔
  rbac_allows c crbs rbs user v g ns n.
Proof.
  unfold AccessFor, NewAccessStore. cbn [cache usersPolicyRules groupsPolicyRules fst].
  rewrite Grants_newAccessSet. by apply grants_allow_rbac.
Qed.

(** Merging two access sets grants exactly what either of them grants. *)
Theorem Merge_grants_union `{MapRange} a right v g ns n :
  AccessSet_Grants (AccessSet_Merge a right) v g ns n =
  AccessSet_Grants a v g ns n || AccessSet_Grants right v g ns n.
Proof. apply eq_true_iff_eq. by rewrite orb_true_iff, Grants_Merge. Qed.

(** The access list handed to a schema for a verb and resource grants the same
    objects as the access set itself, and holds no access twice. *)
Theorem AccessListFor_grants `{MapRange} a v g ns n :
  AccessList_Grants (AccessListFor a v g) ns n = AccessSet_Grants a v g ns n ∧
  NoDup (AccessListFor a v g).
Proof.
  split; [|apply NoDup_AccessListFor]. apply eq_true_iff_eq.
  rewrite AccessList_Grants_true, AccessSet_Grants_true.
  setoid_rewrite elem_of_AccessListFor. naive_solver.
Qed.

(** C38: A store that caches access sets by the hash of the user's grants answers every
    sequence of lookups and purges, with the RBAC objects changing in between, with
    the same rights as a store without a cache, provided the hash tells the grants
    that occur apart. *)
Theorem cached_store_refines_fresh `{MapRange, K8sRBAC, SliceSort} sha256_hex C `{!CacheLaws C}
    ops (c : cache_state C) :
  cache_contents c = ∅ →
  (∀ u1 u2, u1 ∈ ops_grants ops → u2 ∈ ops_grants ops →
     userGrants_hash sha256_hex u1 = userGrants_hash sha256_hex u2 → u1 = u2) →
  Forall2 same_access (run_store sha256_hex ops c) (run_fresh ops).
Proof.
  intros Hempty Hinj. apply (run_store_fresh sha256_hex (λ u, u ∈ ops_grants ops)); [done..|].
  intros k a Hk. by rewrite Hempty in Hk.
Qed.

(** The grouping of an access list by namespace, which the partitioners use: a
    namespace is granted entirely when some access of it names no object, and by name
    exactly for the named accesses of the verb; "list" also counts the objects that
    "get" names, but neither an unnamed nor an empty name of "get". *)
Theorem Granted_spec (a : AccessListByVerb) v ns :
  (is_Some (Granted a v !! ns) ↔
     (∃ acc, acc ∈ access_by_verb a v ∧ Namespace acc = ns) ∨
     (v = "list" ∧ ∃ acc, acc ∈ access_by_verb a "get" ∧ Namespace acc = ns ∧
        ResourceName acc ≠ All ∧ ResourceName acc ≠ "")) ∧
  (R_All (resources_at (Granted a v) ns) = true ↔
     ∃ acc, acc ∈ access_by_verb a v ∧ Namespace acc = ns ∧ ResourceName acc = All) ∧
  (∀ nm, nm ∈ R_Names (resources_at (Granted a v) ns) ↔
     (mkAccess ns nm ∈ access_by_verb a v ∧ nm ≠ All) ∨
     (v = "list" ∧ mkAccess ns nm ∈ access_by_verb a "get" ∧ nm ≠ All ∧ nm ≠ "")).
Proof. auto using lookup_Granted_is_Some, Granted_All, Granted_Names. Qed.

(** [Namespaces] lists, in increasing order and without repetition, the namespaces
    of the accesses held under the verbs "get" and "list"; keys with the verb "*" do not
    count. *)
Theorem Namespaces_spec `{MapRange} a :
  StronglySorted (λ s t, String.leb s t = true) (Namespaces a) ∧ NoDup (Namespaces a) ∧
  ∀ ns, ns ∈ Namespaces a ↔
    ns ≠ All ∧ ∃ k acc, (verb k = "get" ∨ verb k = "list") ∧ holds a k acc ∧ Namespace acc = ns.
Proof.
  unfold Namespaces. split; [apply sort_strings_sorted|].
  split; [rewrite sort_strings_perm; apply NoDup_range_keys|].
  intros ns. rewrite elem_of_sort_strings, elem_of_range_keys.
  rewrite (foldl_or (λ s : gmap string bool, is_Some (s !! ns)) (λ kv : key * resourceAccessSet,
    (verb kv.1 = "get" ∨ verb kv.1 = "list") ∧
    ∃ acc, acc ∈ range_keys kv.2 ∧ ns ≠ All ∧ Namespace acc = ns)).
  - rewrite lookup_empty, is_Some_None_iff. unfold holds. split.
    + intros [[]|([k m] & Hin & Hv & acc & Hacc & Hne & Hns)]. split; [done|]. exists k, acc.
      apply elem_of_range_map in Hin. rewrite Hin. by apply elem_of_range_keys in Hacc.
    + intros (Hne & k & acc & Hv & Hacc & Hns). right.
      destruct (set a !! k) as [m|] eqn:Hm; cbn in Hacc;
        [|by rewrite lookup_empty in Hacc; destruct Hacc].
      exists (k, m). rewrite elem_of_range_map. split_and!; [done..|].
      exists acc. by rewrite elem_of_range_keys.
  - intros s [k m] _. cbn. rewrite <- negb_orb. destruct (bool_decide (verb k = "get") || _) eqn:E; cbn.
    + rewrite orb_true_iff, !bool_decide_eq_true in E.
      rewrite (foldl_or (λ s : gmap string bool, is_Some (s !! ns))
        (λ acc, ns ≠ All ∧ Namespace acc = ns)); [naive_solver|].
      intros s' acc _. case_bool_decide; [naive_solver|].
      rewrite lookup_insert_is_Some'. naive_solver.
    + rewrite orb_false_iff, !bool_decide_eq_false in E. naive_solver.
Qed.

(** The documented behaviour of Kubernetes' rule matchers on rules with one verb and
    one URL: "*" matches everything and a value matches itself. *)
Class K8sMatchLaws `{K8sRBAC} := {
  url_matches_refl : ∀ v u, NonResourceURLMatches (mkRule [v] [] [] [] [u]) u = true;
  verb_matches_refl : ∀ v u, VerbMatches (mkRule [v] [] [] [] [u]) v = true
}.

(** A non-resource URL is granted exactly when one of the granted verb and URL
    pairs matches the request as a policy rule: the exact-match lookup is only an
    optimisation. *)
Theorem GrantsNonResource_spec `{MapRange, K8sRBAC, !K8sMatchLaws} a v url :
  GrantsNonResource a v url = true ↔
  ∃ k, is_Some (nonResourceSet a !! k) ∧
    NonResourceURLMatches (mkRule [nr_verb k] [] [] [] [nr_url k]) url = true ∧
    VerbMatches (mkRule [nr_verb k] [] [] [] [nr_url k]) v = true.
Proof.
  unfold GrantsNonResource. destruct (nonResourceSet a !! mkNRKey v url) eqn:Hk.
  - rewrite url_matches_refl, verb_matches_refl. split; [|done]. intros _.
    exists (mkNRKey v url). cbn. by rewrite Hk, url_matches_refl, verb_matches_refl.
  - rewrite existsb_true. setoid_rewrite elem_of_range_keys. by setoid_rewrite andb_true_iff.
Qed.

(** ** Concrete instances *)
Import Concrete.
Module Example.
Definition k8s : K8sRBAC := {|
  rbacGroup := "rbac.authorization.k8s.io";
  groupKind := "Group"; userKind := "User"; svcAccountKind := "ServiceAccount";
  MakeUsername := λ ns n, "system:serviceaccount:" +:+ ns +:+ ":" +:+ n;
  NonResourceURLMatches := λ r u, existsb (λ p,
    bool_decide (p = "*") || bool_decide (p = u) ||
    (ends_with "*" p && String.prefix (trim_suffix_char "*" p) u)) (NonResourceURLs r);
  VerbMatches := λ r v, existsb (λ p, bool_decide (p = "*") || bool_decide (p = v)) (Verbs r)
|}.
#[export] Existing Instances k8s.

#[export] Instance k8s_match : K8sMatchLaws.
Proof.
  split; intros v u; cbn; [rewrite (bool_decide_eq_true_2 (u = u)) by done
    |rewrite (bool_decide_eq_true_2 (v = v)) by done]; by rewrite !orb_true_r.
Qed.

(** Informer caches that index the given bindings. *)
Definition caches_of (crs : gmap string Role) (rs : gmap (string * string) Role)
    (crbs : list ClusterRoleBinding) (rbs : list RoleBinding) : RBACCaches := {|
  crCache_Get := λ n, crs !! n;
  rCache_Get := λ ns n, rs !! (ns, n);
  crbCache_GetByIndex := λ idx s, Some (List.filter (λ b, bool_decide
    (s ∈ clusterRoleBindingBySubjectIndexer (str_drop 3 idx) b)) crbs);
  rbCache_GetByIndex := λ idx s, Some (List.filter (λ b, bool_decide
    (s ∈ roleBindingBySubjectIndexer (str_drop 2 idx) b)) rbs)
|}.

#[export] Instance caches_of_ok crs rs crbs rbs :
  RBACCachesOK (caches_of crs rs crbs rbs) crbs rbs.
Proof.
  split; intros kind s _; cbn; eexists; (split; [done|]); intros b;
    rewrite list_elem_of_In, filter_In, <- list_elem_of_In, bool_decide_eq_true; done.
Qed.

Definition pods : GroupResource := mkGR "" "pods".
Definition read_pods (rv : string) : Role :=
  mkRole [mkRule ["get"; "list"] [""] ["pods"] [] []] rv.
Definition user_subject (n : string) : Subject :=
  mkSubject "User" "rbac.authorization.k8s.io" n "".
Definition alice : UserInfo := mkUser "alice" [].
Definition bob : UserInfo := mkUser "bob" ["devs"].

(** Role "reader" of namespace "team" at version "11", bound to alice, and role
    "reader" of namespace "team1" at version "1", bound to bob. *)
Definition rbs : list RoleBinding := [
  mkRB "u1" "team" (mkRoleRef "Role" "reader") [user_subject "alice"];
  mkRB "u2" "team1" (mkRoleRef "Role" "reader") [user_subject "bob"]].
Definition caches : RBACCaches :=
  caches_of ∅ {[ ("team", "reader") := read_pods "11"; ("team1", "reader") := read_pods "1" ]}
            [] rbs.

(** Two lookups of alice with a purge in between. *)
Definition alice_twice : list store_op :=
  [OpAccessFor caches alice; OpPurge "x"; OpAccessFor caches alice].

Lemma same_digest (sha : string → string) :
  userGrants_hash sha (grants_now caches alice) = userGrants_hash sha (grants_now caches bob).
Proof. vm_compute. reflexivity. Qed.
End Example.
Import Concrete Example.

Section gmap_cache_lemmas.
Context `{MapRange, K8sRBAC, SliceSort} (sha256_hex : string → string).
Implicit Types c : gmap string AccessSet.

Lemma AccessFor_gmap_hit rbac user c a :
  c !! userGrants_hash sha256_hex (grants_now rbac user) = Some a →
  AccessFor sha256_hex (store_with rbac (Some (c : cache_state gmap_cache))) user =
  (a, store_with rbac (Some (c : cache_state gmap_cache))).
Proof.
  intros Hc. unfold AccessFor. cbn [cache store_with usersPolicyRules groupsPolicyRules].
  fold (grants_now rbac user).
  by replace (cache_Get gmap_cache _ c) with (Some a, c : cache_state gmap_cache)
    by (symmetry; by apply (f_equal (λ o, (o, c)))).
Qed.

Lemma AccessFor_gmap_miss rbac user c :
  let k := userGrants_hash sha256_hex (grants_now rbac user) in
  let a := newAccessSet (grants_now rbac user) in
  let a := mkAccessSet k (set a) (nonResourceSet a) in
  c !! k = None →
  AccessFor sha256_hex (store_with rbac (Some (c : cache_state gmap_cache))) user =
  (a, store_with rbac (Some (<[k := a]> c : cache_state gmap_cache))).
Proof.
  intros k a a' Hc. unfold AccessFor.
  cbn [cache store_with usersPolicyRules groupsPolicyRules].
  fold (grants_now rbac user).
  by replace (cache_Get gmap_cache _ c) with (@None AccessSet, c : cache_state gmap_cache)
    by (symmetry; by apply (f_equal (λ o, (o, c)))).
Qed.
End gmap_cache_lemmas.

(** The hash of a user's grants does not identify them: whatever the digest
    function, the role "reader" of namespace "team" at resource version "11" and the role
    "reader" of namespace "team1" at version "1" give the same cache key, so bob is
    answered with alice's access set and may get pods of a namespace where no binding
    gives him any right. *)
Theorem hash_collision_shares_access (sha256_hex : string → string) :
  ∃ a, run_store sha256_hex
         [OpAccessFor Example.caches Example.alice; OpAccessFor Example.caches Example.bob]
         (∅ : cache_state gmap_cache) = [a; a] ∧
       AccessSet_Grants a "get" Example.pods "team" "web" = true ∧
       ¬ rbac_allows Example.caches [] Example.rbs Example.bob "get" Example.pods "team" "web".
Proof.
  cbn [run_store]. rewrite (AccessFor_gmap_miss sha256_hex caches alice ∅) by apply lookup_empty.
  cbn [cache store_with]. erewrite (AccessFor_gmap_hit sha256_hex caches bob)
    by (rewrite <- same_digest; apply lookup_insert_eq).
  eexists. split_and!; [done| |].
  - vm_compute. reflexivity.
  - rewrite <- (grants_allow_rbac caches [] rbs), <- Grants_newAccessSet. vm_compute. done.
Qed.

Lemma AccessFor_allows_rbac_witness :
  rbac_allows Example.caches [] Example.rbs Example.alice "get" Example.pods "team" "web".
Proof.
  apply (AccessFor_allows_rbac (λ s, s) gmap_cache ∅ Example.caches [] Example.rbs).
  vm_compute. reflexivity.
Defined.

Lemma GrantsNonResource_spec_witness :
  ∃ k : nonResourceKey,
    is_Some ((nonResourceSet (AddNonResourceURLs empty_AccessSet ["get"] ["/api/*"])) !! k) ∧
    NonResourceURLMatches (mkRule [nr_verb k] [] [] [] [nr_url k]) "/api/v1" = true ∧
    VerbMatches (mkRule [nr_verb k] [] [] [] [nr_url k]) "get" = true.
Proof.
  apply (GrantsNonResource_spec (AddNonResourceURLs empty_AccessSet ["get"] ["/api/*"])).
  vm_compute. reflexivity.
Defined.

Lemma cached_store_refines_fresh_witness :
  Forall2 same_access
    (run_store (λ s, s) Example.alice_twice (∅ : cache_state gmap_cache))
    (run_fresh Example.alice_twice).
Proof.
  apply (cached_store_refines_fresh (λ s, s) gmap_cache); [reflexivity|].
  intros u1 u2 Hu1 Hu2 _. unfold Example.alice_twice in *. cbn [ops_grants] in *.
  apply elem_of_cons in Hu1 as [->|Hu1%list_elem_of_singleton]; [|subst u1];
    (apply elem_of_cons in Hu2 as [->|Hu2%list_elem_of_singleton]; [|subst u2]); reflexivity.
Defined.
