(* ===== verification/Partitions.v ===== *)
(** * RBAC partitions: pkg/stores/proxy/rbac_store.go, pkg/stores/sqlpartition/partitioner.go

    A list or watch request is split into partitions: namespaces and object names the
    user may see. The two partitioners differ in the type of the set of names only.
    The store of a partition lists the objects it selects through the client of the
    proxy store (pkg/stores/proxy/proxy_store.go, [List] and [ByNames]). *)
From S2P Require Import Prelude GoLib AccessControl.

Record Partition := mkPartition {
  P_Namespace : string;
  P_All : bool;
  P_Passthrough : bool;
  P_Names : gset string
}.
#[export] Instance Partition_eq_dec : EqDecision Partition.
Proof. solve_decision. Defined.

(** What the partitioners read of a request and of a schema. *)
Record APIRequest := mkAPIRequest { apiOp_Namespace : string }.
Record APISchema := mkAPISchema {
  Schema_Access : AccessListByVerb;   (* attributes.Access *)
  Schema_Namespaced : bool            (* attributes.Namespaced *)
}.

Definition passthroughPartitions : list Partition := [mkPartition "" false true ∅].

(** [Partition.Name]. *)
Definition Partition_Name (p : Partition) : string := P_Namespace p.

(** [rbacPartitioner.Lookup]. *)
Definition Lookup (v : string) : outcome string Partition :=
  if bool_decide (v ∈ ["create"; "get"; "update"; "delete"]) then
    Ok (mkPartition "" false true ∅)
  else Err ("partition list: invalid verb " +:+ v).

Section partitioner.
Context `{MapRange, SliceSort} (RSplit : string → string → string * string).

Definition generatePartitionsByID (apiOp : APIRequest) (schema : APISchema) (v id : string)
    : list Partition :=
  let accessListByVerb := Schema_Access schema in
  let resources := Granted accessListByVerb v in
  let '(idNamespace, name) := RSplit id "/" in
  let apiNamespace := apiOp_Namespace apiOp in
  let effectiveNamespace :=
    if bool_decide (idNamespace = "") && bool_decide (apiNamespace ≠ "")
    then apiNamespace else idNamespace in
  let single := [mkPartition effectiveNamespace false false {[name]}] in
  if AccessListByVerb_All accessListByVerb v then single
  else if bool_decide (effectiveNamespace ≠ "") &&
          R_All (resources_at resources effectiveNamespace) then single
  else
    let resourceNamespace := if bool_decide (effectiveNamespace = "") then All
                             else effectiveNamespace in
    match resources !! resourceNamespace with
    | Some nameset => if bool_decide (name ∈ R_Names nameset) then single else []
    | None => []
    end.

Definition generateAggregatePartitions (apiOp : APIRequest) (schema : APISchema) (v : string)
    : list Partition * bool :=
  let accessListByVerb := Schema_Access schema in
  let resources := Granted accessListByVerb v in
  if AccessListByVerb_All accessListByVerb v then ([], true)
  else if bool_decide (apiOp_Namespace apiOp ≠ "") then
    if R_All (resources_at resources (apiOp_Namespace apiOp)) then ([], true)
    else ([mkPartition (apiOp_Namespace apiOp) false false
             (R_Names (resources_at resources (apiOp_Namespace apiOp)))], false)
  else if Schema_Namespaced schema then
    ((λ '(k, r), mkPartition k (R_All r) false (R_Names r)) <$> range_map resources, false)
  else
    ((λ '(_, r), mkPartition "" (R_All r) false (R_Names r)) <$> range_map resources, false).

Definition partition_less (p q : Partition) : bool :=
  String.ltb (P_Namespace p) (P_Namespace q).

(** [rbacPartitioner.All]. *)
Definition Partitions_All (apiOp : APIRequest) (schema : APISchema) (v id : string)
    : outcome string (list Partition) :=
  if bool_decide (v = "list") || bool_decide (v = "watch") then
    if bool_decide (id ≠ "") then Ok (generatePartitionsByID apiOp schema v id)
    else
      let '(partitions, passthrough) := generateAggregatePartitions apiOp schema v in
      if passthrough then Ok passthroughPartitions
      else Ok (sort_slice partition_less partitions)
  else Err ("parition all: invalid verb " +:+ v).
End partitioner.

(** ** The store of a partition *)
Section partition_store.
(* the objects of a list, with the accessors of their metadata *)
Context {Obj : Type} (GetNamespace GetName : Obj → string).
(* a list request to Kubernetes, as the user or as the administrator, in a namespace *)
Context (k8s_list : bool → string → outcome string (list Obj)).

(** [Store.List]: the client of the user. *)
Definition Store_List (namespace : string) : outcome string (list Obj) :=
  k8s_list false namespace.

(** [Store.ByNames]: the client of the administrator, filtered by name. *)
Definition ByNames (namespace : string) (names : gset string) : outcome string (list Obj) :=
  if bool_decide (namespace = "*") then Ok []
  else
    objs ← k8s_list true namespace;
    mret (List.filter (λ obj, bool_decide (GetName obj ∈ names)) objs).

(** [byNameOrNamespaceStore.List]. *)
Definition byNameOrNamespaceStore_List (p : Partition) (apiOp : APIRequest)
    : outcome string (list Obj) :=
  if P_Passthrough p then Store_List (apiOp_Namespace apiOp)
  else if P_All p then Store_List (P_Namespace p)
  else ByNames (P_Namespace p) (P_Names p).

(** The lists of the partitions, one after the other. *)
Definition list_partitions (ps : list Partition) (apiOp : APIRequest)
    : outcome string (list Obj) :=
  lists ← map_outcome (λ p, byNameOrNamespaceStore_List p apiOp) ps; Ok (List.concat lists).
End partition_store.

(** * Specification *)

(** The key under which the accesses to an object of namespace [ns] are grouped. *)
Definition resource_namespace (schema : APISchema) (ns : string) : string :=
  if Schema_Namespaced schema then ns else All.

(** The objects a user sees in a list or watch: those of an access that names the
    object's namespace, or every object for an unrestricted access. A "get" access to a
    named object counts for lists. An access that names an object in all namespaces does
    not: the source documents it as an invalid situation. *)
Definition visible (schema : APISchema) (v ns n : string) : Prop :=
  AccessListByVerb_All (Schema_Access schema) v = true ∨
  (∃ acc, acc ∈ access_by_verb (Schema_Access schema) v ∧
     Namespace acc = resource_namespace schema ns ∧
     (ResourceName acc = All ∨ ResourceName acc = n)) ∨
  (v = "list" ∧ mkAccess (resource_namespace schema ns) n ∈
     access_by_verb (Schema_Access schema) "get").

(** The accesses the schema factory gives: those to cluster-scoped resources are not in
    a namespace, those to namespaced resources are not in the empty one. A request does
    not name a namespace for cluster-scoped resources. *)
Definition request_wf (apiOp : APIRequest) (schema : APISchema) : Prop :=
  if Schema_Namespaced schema then
    ∀ v acc, acc ∈ access_by_verb (Schema_Access schema) v → Namespace acc ≠ ""
  else apiOp_Namespace apiOp = "" ∧
    ∀ v acc, acc ∈ access_by_verb (Schema_Access schema) v → Namespace acc = All.

(** The user may list all objects of a namespace. *)
Definition may_list (schema : APISchema) (ns : string) : Prop :=
  ∃ acc, acc ∈ access_by_verb (Schema_Access schema) "list" ∧ ResourceName acc = All ∧
    (Namespace acc = All ∨ Namespace acc = ns ∧ ns ≠ "").

Definition in_namespace {Obj} (GetNamespace : Obj → string) (ns : string) (obj : Obj) : bool :=
  bool_decide (ns = "") || bool_decide (GetNamespace obj = ns).

Class ClusterOK {Obj} (GetNamespace GetName : Obj → string) (schema : APISchema)
    (k8s_list : bool → string → outcome string (list Obj)) (cluster : list Obj) := {
  (* Kubernetes lists the objects of a namespace, and all objects for the empty one, to
     the administrator and to the users who may list them *)
  list_admin : ∀ ns, k8s_list true ns = Ok (List.filter (in_namespace GetNamespace ns) cluster);
  list_user : ∀ ns, may_list schema ns →
    k8s_list false ns = Ok (List.filter (in_namespace GetNamespace ns) cluster);
  cluster_NoDup : NoDup cluster;
  (* objects have a name; "*" is neither a name nor a namespace *)
  object_name : ∀ obj, obj ∈ cluster → GetName obj ≠ "" ∧ GetName obj ≠ All;
  object_namespace : ∀ obj, obj ∈ cluster → GetNamespace obj ≠ All ∧
    (GetNamespace obj = "" ↔ Schema_Namespaced schema = false)
}.

(** * Lemmas *)
Section partition_lemmas.
Context `{MapRange, SliceSort}.
Context {Obj : Type} (GetNamespace GetName : Obj → string) (schema : APISchema)
  (k8s_list : bool → string → outcome string (list Obj)) (cluster : list Obj).
Context `{!ClusterOK GetNamespace GetName schema k8s_list cluster}.
Implicit Types (p : Partition) (obj : Obj) (apiOp : APIRequest).

(** The objects a partition selects. *)
Definition selects apiOp p obj : bool :=
  if P_Passthrough p then in_namespace GetNamespace (apiOp_Namespace apiOp) obj
  else in_namespace GetNamespace (P_Namespace p) obj &&
       (P_All p || bool_decide (GetName obj ∈ P_Names p)).

(** Only namespaces the user may list are listed with the user's client. *)
Definition partition_allowed apiOp p : Prop :=
  (P_Passthrough p = true → may_list schema (apiOp_Namespace apiOp)) ∧
  (P_Passthrough p = false → P_All p = true → may_list schema (P_Namespace p)).

Lemma byNameOrNamespaceStore_List_selects apiOp p :
  partition_allowed apiOp p →
  byNameOrNamespaceStore_List GetName k8s_list p apiOp = Ok (List.filter (selects apiOp p) cluster).
Proof.
  intros [Hpass Hall]. unfold byNameOrNamespaceStore_List, selects, Store_List, ByNames.
  destruct (P_Passthrough p); [by apply list_user, Hpass|].
  destruct (P_All p); cbn [orb].
  - rewrite list_user by auto. f_equal. apply List.filter_ext. intros. by rewrite andb_true_r.
  - case_bool_decide as Hns.
    + f_equal. symmetry. apply list_filter_nil. intros obj Hobj. unfold in_namespace.
      rewrite Hns. destruct (object_namespace obj Hobj) as [Hne _].
      by rewrite (bool_decide_eq_false_2 (GetNamespace obj = "*")).
    + rewrite list_admin. cbn. f_equal. apply list_filter_filter.
Qed.

Lemma list_partitions_selects ps apiOp :
  (∀ p, p ∈ ps → partition_allowed apiOp p) →
  list_partitions GetName k8s_list ps apiOp =
  Ok (ps ≫= λ p, List.filter (selects apiOp p) cluster).
Proof.
  intros Hps. unfold list_partitions.
  rewrite (map_outcome_fmap _ (λ p, List.filter (selects apiOp p) cluster))
    by (intros; by apply byNameOrNamespaceStore_List_selects, Hps).
  cbn. f_equal. by rewrite concat_fmap.
Qed.

(** ** The partitions of a list request *)
Lemma access_by_verb_All v :
  AccessListByVerb_All (Schema_Access schema) v = true ↔
  ∃ acc, acc ∈ access_by_verb (Schema_Access schema) v ∧
    Namespace acc = All ∧ ResourceName acc = All.
Proof.
  unfold AccessListByVerb_All, AccessListByVerb_Grants. rewrite AccessList_Grants_true.
  setoid_rewrite Access_Grants_true. naive_solver.
Qed.

Abbreviation resources := (Granted (Schema_Access schema) "list").

(** The entry of a namespace selects an object by its name. *)
Definition resource_selects (r : ResourcesT) obj : bool :=
  R_All r || bool_decide (GetName obj ∈ R_Names r).

Lemma resource_selects_visible obj :
  obj ∈ cluster → AccessListByVerb_All (Schema_Access schema) "list" = false →
  resource_selects (resources_at resources (resource_namespace schema (GetNamespace obj))) obj
    = true ↔
  visible schema "list" (GetNamespace obj) (GetName obj).
Proof.
  intros Hobj HAll. destruct (object_name obj Hobj) as [Hne HneAll].
  unfold resource_selects, visible. rewrite orb_true_iff, bool_decide_eq_true, HAll.
  rewrite Granted_All, Granted_Names. generalize (resource_namespace schema (GetNamespace obj)).
  intros ns. split.
  - intros [(acc&?&?&?)|[[??]|(?&?&?)]]; right; [left|left|right]; eauto 10.
  - intros [?|[([ns' n']&?&?&[Hn|Hn])|(?&?)]]; [done|left|right; left|right; right];
      cbn in *; subst; eauto.
Qed.

Lemma lookup_resources_namespace apiOp k :
  request_wf apiOp schema → is_Some (resources !! k) →
  if Schema_Namespaced schema then k ≠ "" else k = All.
Proof.
  unfold request_wf. intros Hwf Hk. apply lookup_Granted_is_Some in Hk.
  destruct (Schema_Namespaced schema); [|destruct Hwf as [_ Hwf]];
    destruct Hk as [(acc&?&<-)|(_&acc&?&<-&_)]; eauto.
Qed.

Definition aggregate_of apiOp : list Partition :=
  (generateAggregatePartitions apiOp schema "list").1.

Lemma aggregate_selects apiOp obj :
  request_wf apiOp schema → obj ∈ cluster →
  (generateAggregatePartitions apiOp schema "list").2 = false →
  (∃ p, p ∈ aggregate_of apiOp ∧ selects apiOp p obj = true) ↔
  in_namespace GetNamespace (apiOp_Namespace apiOp) obj = true ∧
  visible schema "list" (GetNamespace obj) (GetName obj).
Proof.
  intros Hwf Hobj. unfold aggregate_of, generateAggregatePartitions.
  destruct (AccessListByVerb_All _ _) eqn:HAll; [done|].
  rewrite <- resource_selects_visible by done.
  unfold resource_selects, resource_namespace, selects, in_namespace.
  destruct (object_namespace obj Hobj) as [HnsAll Hns].
  case_bool_decide as Hap; [destruct (R_All (resources_at _ _)) eqn:HR; [done|]|];
    [|destruct (Schema_Namespaced schema) eqn:Hnsd]; cbn; intros _.
  - destruct (Schema_Namespaced schema) eqn:Hnsd;
      [|unfold request_wf in Hwf; rewrite Hnsd in Hwf; by destruct Hwf].
    rewrite exists_elem_of_cons, exists_elem_of_nil. cbn.
    rewrite (bool_decide_eq_false_2 (apiOp_Namespace apiOp = "")) by done. cbn.
    case_bool_decide as Heq; [|naive_solver]. rewrite Heq, HR. naive_solver.
  - rewrite Hap, exists_elem_of_fmap. split.
    + intros ([k r] & Hkr & Hsel). apply elem_of_range_map in Hkr. cbn in Hsel.
      pose proof (lookup_resources_namespace apiOp k Hwf (mk_is_Some _ _ Hkr)) as Hk.
      rewrite Hnsd in Hk. rewrite bool_decide_eq_false_2 in Hsel by done.
      apply andb_true_iff in Hsel as [->%bool_decide_eq_true Hsel].
      split; [done|]. unfold resources_at. by rewrite Hkr.
    + intros [_ Hsel]. unfold resources_at in Hsel.
      destruct (resources !! GetNamespace obj) as [r|] eqn:Hr; [|by cbn in Hsel].
      exists (GetNamespace obj, r). rewrite elem_of_range_map. split; [done|]. cbn.
      by rewrite (bool_decide_eq_true_2 (GetNamespace obj = GetNamespace obj)), orb_true_r by done.
  - rewrite Hap, exists_elem_of_fmap. split.
    + intros ([k r] & Hkr & Hsel). apply elem_of_range_map in Hkr. cbn in Hsel.
      pose proof (lookup_resources_namespace apiOp k Hwf (mk_is_Some _ _ Hkr)) as Hk.
      rewrite Hnsd in Hk. subst k. split; [done|]. unfold resources_at. by rewrite Hkr.
    + intros [_ Hsel]. unfold resources_at in Hsel.
      destruct (resources !! All) as [r|] eqn:Hr; [|by cbn in Hsel].
      exists (All, r). by rewrite elem_of_range_map.
Qed.

(** No object is selected by two partitions. *)
Lemma aggregate_disjoint apiOp p q obj :
  request_wf apiOp schema → p ∈ aggregate_of apiOp → q ∈ aggregate_of apiOp →
  selects apiOp p obj = true → selects apiOp q obj = true → p = q.
Proof.
  intros Hwf. unfold aggregate_of, generateAggregatePartitions, selects.
  pose proof (lookup_resources_namespace apiOp) as Hk.
  destruct (AccessListByVerb_All _ _); [set_solver|]. case_bool_decide.
  { destruct (R_All _); set_solver. }
  destruct (Schema_Namespaced schema); cbn [fst];
    intros ([k r] & -> & Hkr)%list_elem_of_fmap ([k' r'] & -> & Hkr')%list_elem_of_fmap; cbn;
    apply elem_of_range_map in Hkr, Hkr'; pose proof (Hk k Hwf (mk_is_Some _ _ Hkr));
    pose proof (Hk k' Hwf (mk_is_Some _ _ Hkr')).
  - unfold in_namespace. rewrite (bool_decide_eq_false_2 (k = "")), (bool_decide_eq_false_2 (k' = ""))
      by done. cbn. intros [E1%bool_decide_eq_true _]%andb_true_iff [E2%bool_decide_eq_true _]%andb_true_iff.
    rewrite E1 in E2. subst k'. congruence.
  - subst. congruence.
Qed.

Lemma NoDup_aggregate apiOp : request_wf apiOp schema → NoDup (aggregate_of apiOp).
Proof.
  intros Hwf. unfold aggregate_of, generateAggregatePartitions.
  destruct (AccessListByVerb_All _ _); [constructor|]. case_bool_decide.
  { destruct (R_All _); [constructor|apply NoDup_singleton]. }
  pose proof (lookup_resources_namespace apiOp) as Hk.
  destruct (Schema_Namespaced schema); cbn [fst];
    (apply NoDup_fmap_2_strong; [|apply NoDup_range_map]);
    intros [k r] [k' r'] Hkr%elem_of_range_map Hkr'%elem_of_range_map Heq; [congruence|].
  pose proof (Hk k Hwf (mk_is_Some _ _ Hkr)). pose proof (Hk k' Hwf (mk_is_Some _ _ Hkr')).
  congruence.
Qed.

(** Partitions of whole namespaces are listed as the user, who may list them. *)
Lemma aggregate_allowed apiOp p :
  request_wf apiOp schema → p ∈ aggregate_of apiOp → partition_allowed apiOp p.
Proof.
  intros Hwf. unfold aggregate_of, generateAggregatePartitions, partition_allowed.
  destruct (AccessListByVerb_All _ _); [set_solver|]. case_bool_decide.
  { destruct (R_All _); cbn; [set_solver|]. by intros ->%list_elem_of_singleton. }
  unfold request_wf in Hwf.
  destruct (Schema_Namespaced schema); cbn [fst]; intros ([k r] & -> & Hkr)%list_elem_of_fmap;
    cbn; (split; [done|]); intros _ HR; apply elem_of_range_map in Hkr;
    (destruct (proj1 (Granted_All (Schema_Access schema) "list" k)) as (acc&?&?&?);
      [unfold resources_at; by rewrite Hkr|]); exists acc; (split_and!; [done..|]).
  - right. subst. split; [done|]. by eapply Hwf.
  - left. by eapply (proj2 Hwf).
Qed.

Lemma passthrough_may_list apiOp :
  request_wf apiOp schema → (generateAggregatePartitions apiOp schema "list").2 = true →
  may_list schema (apiOp_Namespace apiOp) ∧
  ∀ obj, obj ∈ cluster → in_namespace GetNamespace (apiOp_Namespace apiOp) obj = true →
    visible schema "list" (GetNamespace obj) (GetName obj).
Proof.
  unfold request_wf, generateAggregatePartitions, visible, in_namespace, resource_namespace.
  intros Hwf. destruct (AccessListByVerb_All _ _) eqn:HAll; cbn.
  { intros _. apply access_by_verb_All in HAll as (acc&?&?&?).
    split; [by exists acc; auto|]. by left. }
  case_bool_decide as Hns; [|by destruct (Schema_Namespaced schema)].
  destruct (R_All _) eqn:HR; [|done]. intros _. apply Granted_All in HR as (acc&?&?&?).
  split; [by exists acc; auto|]. intros obj Hobj Hobjns.
  rewrite (bool_decide_eq_false_2 (apiOp_Namespace apiOp = "")) in Hobjns by done.
  apply bool_decide_eq_true in Hobjns. rewrite Hobjns.
  destruct (Schema_Namespaced schema); [|by destruct Hwf].
  right; left. exists acc. auto.
Qed.
End partition_lemmas.

(** * Theorems *)

(** C6: Listing through the partitions of a user gives exactly the objects of the
    requested namespace the user may see, each once, whatever the order in which the
    map of granted namespaces is visited. *)
Theorem list_partitions_visible `{MapRange, SliceSort} RSplit {Obj}
    (GetNamespace GetName : Obj → string) schema k8s_list cluster
    `{!ClusterOK GetNamespace GetName schema k8s_list cluster} apiOp :
  request_wf apiOp schema →
  ∃ ps objs, Partitions_All RSplit apiOp schema "list" "" = Ok ps ∧
    list_partitions GetName k8s_list ps apiOp = Ok objs ∧ NoDup objs ∧
    ∀ obj, obj ∈ objs ↔ obj ∈ cluster ∧
      in_namespace GetNamespace (apiOp_Namespace apiOp) obj = true ∧
      visible schema "list" (GetNamespace obj) (GetName obj).
Proof.
  intros Hwf. unfold Partitions_All. cbn.
  destruct (generateAggregatePartitions apiOp schema "list") as [l passthrough] eqn:Hgen.
  assert (Hl : l = aggregate_of schema apiOp) by (unfold aggregate_of; by rewrite Hgen).
  assert (Hp : passthrough = (generateAggregatePartitions apiOp schema "list").2) by by rewrite Hgen.
  destruct passthrough.
  - destruct (passthrough_may_list GetNamespace GetName schema cluster apiOp)
      as [Hmay Hvis]; [done..|].
    eexists _, _. split; [done|]. split.
    { eapply list_partitions_selects; [done|].
      intros p ->%list_elem_of_singleton. by split. }
    cbn. rewrite app_nil_r. split; [apply NoDup_list_filter, cluster_NoDup|].
    intros obj. rewrite elem_of_list_filter. unfold selects. cbn. naive_solver.
  - assert (Hperm : sort_slice partition_less l ≡ₚ aggregate_of schema apiOp)
      by (rewrite sort_slice_perm; by subst).
    eexists _, _. split; [done|]. split.
    { eapply list_partitions_selects; [done|]. intros p Hin. rewrite Hperm in Hin.
      by eapply aggregate_allowed. }
    split.
    + apply NoDup_bind.
      * intros p q obj. rewrite !Hperm, !elem_of_list_filter. intros ?? [_ ?] [_ ?].
        by eapply (aggregate_disjoint GetNamespace GetName schema).
      * intros. apply NoDup_list_filter, cluster_NoDup.
      * rewrite Hperm. by apply (NoDup_aggregate schema).
    + intros obj. rewrite list_elem_of_bind. setoid_rewrite elem_of_list_filter.
      setoid_rewrite Hperm. split.
      * intros (p & (Hobj & Hsel) & Hin). split; [done|].
        rewrite <- (aggregate_selects _ _ _ k8s_list cluster) by done. by exists p.
      * intros (Hobj & Hvis).
        apply (aggregate_selects _ _ _ k8s_list cluster) in Hvis as (p&?&?); [|done..].
        by exists p.
Qed.

(** A request for one object by its ID selects that object alone when the user may
    see it, and nothing otherwise; a namespace in the ID takes precedence over the
    namespace of the request. *)
Theorem partitions_by_id `{MapRange, SliceSort} RSplit apiOp schema v id idNamespace name :
  RSplit id "/" = (idNamespace, name) →
  id ≠ "" → v = "list" ∨ v = "watch" → name ≠ "" → name ≠ All →
  let ns := if decide (idNamespace = "") then apiOp_Namespace apiOp else idNamespace in
  (Schema_Namespaced schema = true ↔ ns ≠ "") →
  (visible schema v ns name ∧
   Partitions_All RSplit apiOp schema v id = Ok [mkPartition ns false false {[name]}]) ∨
  (¬ visible schema v ns name ∧ Partitions_All RSplit apiOp schema v id = Ok []).
Proof.
  intros HR Hid Hv Hn HnAll ns Hns.
  assert (bool_decide (v = "list") || bool_decide (v = "watch") = true) as Hverb
    by (rewrite orb_true_iff, !bool_decide_eq_true; done).
  unfold Partitions_All. rewrite Hverb, bool_decide_eq_true_2 by done. clear Hverb.
  unfold generatePartitionsByID. rewrite HR.
  replace (if bool_decide (idNamespace = "") && bool_decide (apiOp_Namespace apiOp ≠ "")
           then apiOp_Namespace apiOp else idNamespace) with ns
    by (subst ns; destruct (decide (idNamespace = "")), (decide (apiOp_Namespace apiOp = ""));
        repeat case_bool_decide; cbn; congruence).
  clearbody ns.
  destruct (AccessListByVerb_All _ _) eqn:HAll; [left; split; [by left|done]|].
  assert (Hres : resource_namespace schema ns = if bool_decide (ns = "") then All else ns).
  { revert Hns. unfold resource_namespace.
    destruct (Schema_Namespaced schema); case_bool_decide as E; naive_solver. }
  set (rns := if bool_decide (ns = "") then All else ns) in *.
  assert (Hvis : R_All (resources_at (Granted (Schema_Access schema) v) rns) = true ∨
      name ∈ R_Names (resources_at (Granted (Schema_Access schema) v) rns) ↔
    visible schema v ns name).
  { unfold visible. rewrite Granted_All, Granted_Names, HAll, Hres. split.
    - intros [(acc&?&?&?)|[[??]|(->&?&?)]]; right; [left|left|right]; eauto 10.
    - intros [?|[([ns' n']&?&<-&[E|E])|[??]]]; cbn in *; subst; eauto 10. done. }
  assert (HRAll : bool_decide (ns ≠ "") &&
      R_All (resources_at (Granted (Schema_Access schema) v) ns) =
    R_All (resources_at (Granted (Schema_Access schema) v) rns)).
  { subst rns. case_bool_decide; case_bool_decide; try done. symmetry.
    apply not_true_is_false. rewrite Granted_All, <- access_by_verb_All. congruence. }
  rewrite HRAll. clear HRAll. destruct (R_All _) eqn:HR1; [left; split; [by apply Hvis; left|done]|].
  rewrite <- Hvis. unfold resources_at in *.
  destruct (Granted (Schema_Access schema) v !! rns) as [r|]; cbn in *.
  - case_bool_decide; [left|right]; (split; [|done]); [by right|].
    intros [?|?]; congruence.
  - right. split; [|done]. intros [?|?%not_elem_of_empty]; congruence.
Qed.

(** The partitions of a list or watch come in the order of their namespaces, so a
    continue token finds its place again; any other verb is refused. *)
Theorem partitions_sorted `{MapRange, SliceSort} RSplit apiOp schema v id :
  (v = "list" ∨ v = "watch" → ∃ ps, Partitions_All RSplit apiOp schema v id = Ok ps ∧
     StronglySorted (λ p q, String.leb (P_Namespace p) (P_Namespace q) = true) ps) ∧
  (v ≠ "list" → v ≠ "watch" → ∃ e, Partitions_All RSplit apiOp schema v id = Err e).
Proof.
  unfold Partitions_All. split.
  - intros Hv. replace (bool_decide (v = "list") || bool_decide (v = "watch")) with true
      by (symmetry; rewrite orb_true_iff, !bool_decide_eq_true; done).
    case_bool_decide.
    + eexists. split; [done|]. unfold generatePartitionsByID.
      destruct (RSplit id "/"). repeat case_match; repeat constructor.
    + destruct (generateAggregatePartitions _ _ _) as [l [|]]; eexists; (split; [done|]);
        [repeat constructor|].
      eapply StronglySorted_weaken; [|apply (sort_slice_sorted partition_less)];
        unfold partition_less; intros *; rewrite ?string_ltb_leb, ?negb_true_iff, ?negb_false_iff.
      * done.
      * intros ?. destruct (string_leb_total (P_Namespace x) (P_Namespace y)); congruence.
      * eauto with steve.
  - intros. rewrite !bool_decide_eq_false_2 by done. by eexists.
Qed.

(** ** A concrete cluster *)
Module PartitionExample.
Definition cluster : list (string * string) :=
  [("team", "web"); ("team", "db"); ("ops", "web"); ("ops", "cron")].

(** A user who may list the namespace "team" and get "cron" of the namespace "ops". *)
Definition schema : APISchema := mkAPISchema
  {[ "list" := [mkAccess "team" "*"]; "get" := [mkAccess "ops" "cron"] ]} true.

Definition client (admin : bool) (ns : string) : outcome string (list (string * string)) :=
  if admin || bool_decide (ns = "team") then Ok (List.filter (in_namespace fst ns) cluster)
  else Err "forbidden".

#[export] Instance cluster_ok : ClusterOK fst snd schema client cluster.
Proof.
  split.
  - done.
  - intros ns (acc & Hacc%list_elem_of_singleton & _ & Hns). subst. cbn in Hns.
    destruct Hns as [?|[<- _]]; done.
  - apply (bool_decide_unpack (NoDup cluster)). by vm_compute.
  - unfold cluster. intros obj Hobj. repeat (apply elem_of_cons in Hobj as [->|Hobj]; [done|]).
    by apply not_elem_of_nil in Hobj.
  - unfold cluster. intros obj Hobj. repeat (apply elem_of_cons in Hobj as [->|Hobj]; [done|]).
    by apply not_elem_of_nil in Hobj.
Qed.

Lemma schema_wf apiOp : request_wf apiOp schema.
Proof.
  unfold request_wf. cbn. intros v acc Hacc. unfold access_by_verb in Hacc.
  destruct (decide (v = "list")) as [->|]; [|destruct (decide (v = "get")) as [->|]].
  - by apply list_elem_of_singleton in Hacc as ->.
  - by apply list_elem_of_singleton in Hacc as ->.
  - cbn [Schema_Access schema] in Hacc. rewrite lookup_insert_ne in Hacc by done.
    rewrite lookup_singleton_ne in Hacc by done. by apply not_elem_of_nil in Hacc.
Qed.

(** The ID split at its slash. *)
Definition rsplit (id sep : string) : string * string :=
  match split_on "/" id with [ns; n] => (ns, n) | _ => ("", id) end.
End PartitionExample.
Import Concrete PartitionExample.

Lemma list_partitions_visible_witness :
  ∃ ps objs, Partitions_All rsplit (mkAPIRequest "") schema "list" "" = Ok ps ∧
    list_partitions snd client ps (mkAPIRequest "") = Ok objs ∧ NoDup objs ∧
    ∀ obj, obj ∈ objs ↔ obj ∈ PartitionExample.cluster ∧
      in_namespace fst "" obj = true ∧ visible schema "list" obj.1 obj.2.
Proof.
  apply (list_partitions_visible rsplit fst snd schema client PartitionExample.cluster
           (mkAPIRequest "")). apply schema_wf.
Defined.

Lemma partitions_by_id_witness :
  (visible schema "watch" "ops" "cron" ∧
   Partitions_All rsplit (mkAPIRequest "") schema "watch" "ops/cron" =
     Ok [mkPartition "ops" false false {["cron"]}]) ∨
  (¬ visible schema "watch" "ops" "cron" ∧
   Partitions_All rsplit (mkAPIRequest "") schema "watch" "ops/cron" = Ok []).
Proof.
  apply (partitions_by_id rsplit (mkAPIRequest "") schema "watch" "ops/cron" "ops" "cron");
    try done. by right.
Defined.

Lemma partitions_sorted_witness :
  ∃ ps, Partitions_All rsplit (mkAPIRequest "") schema "list" "" = Ok ps ∧
    StronglySorted (λ p q, String.leb (P_Namespace p) (P_Namespace q) = true) ps.
Proof. apply (partitions_sorted rsplit (mkAPIRequest "") schema "list" ""). by left. Defined.
