(* ===== verification/ListProcessor.v ===== *)
(** * Filtering, sorting and paginating lists: pkg/stores/partition/listprocessor/processor.go

    With [queryhelper.SafeSplit] (pkg/stores/queryhelper/safesplit.go). *)
From S2P Require Import Prelude GoLib GoValue.

(** ** The options of a list request *)
Definition defaultLimit : Z := 100000.
Definition projectIDFieldLabel : string := "field.cattle.io/projectId".

Inductive op := eq_op | notEq_op.
#[export] Instance op_eq_dec : EqDecision op.
Proof. solve_decision. Defined.

Record Filter := mkFilter { field : list string; match_ : string; fop : op }.
Record OrFilter := mkOrFilter { filters : list Filter }.

Inductive SortOrder := ASC | DESC.
#[export] Instance SortOrder_eq_dec : EqDecision SortOrder.
Proof. solve_decision. Defined.

Record Sort := mkSort { Fields : list (list string); Orders : list SortOrder }.
Record Pagination := mkPagination { pageSize : Z; page : Z }.
Record ProjectsOrNamespacesFilter := mkPNFilter { pn_filter : gset string; pn_op : op }.

Record ListOptions := mkListOptions {
  ChunkSize : Z;
  Resume : string;
  Filters : list OrFilter;
  SortOpt : Sort;
  PaginationOpt : Pagination;
  Revision : string;
  ProjectsOrNamespaces : ProjectsOrNamespacesFilter
}.

(** ** Text of the options *)

(** [Filter.String]. *)
Definition Filter_String (f : Filter) : string := join "." (field f) +:+ "=" +:+ match_ f.

(** [OrFilter.String]. *)
Definition OrFilter_String (f : OrFilter) : string := join "," (Filter_String <$> filters f).

Definition identifier_char (c : ascii) : bool :=
  let n := N_of_ascii c in
  ((48 <=? n) && (n <=? 57) || (65 <=? n) && (n <=? 90) || (97 <=? n) && (n <=? 122) ||
   (n =? 95))%N.

(** [Sort.String]: a field without parts has no last part, and Go panics. *)
Definition Sort_String_field (fld : list string) (o : SortOrder) : outcome string string :=
  match list.last fld with
  | None => Panic
  | Some l =>
      let newField := join "." (removelast fld) in
      let newField := if all_chars identifier_char l then newField +:+ "." +:+ l
                      else newField +:+ "[" +:+ l +:+ "]" in
      Ok (if bool_decide (o = DESC) then "-" +:+ newField else newField)
  end.

(** The loop reads [s.Orders[i]] for each field: too few orders panic. *)
Definition Sort_String (s : Sort) : outcome string string :=
  if bool_decide (length (Orders s) < length (Fields s)) then Panic
  else fields ← map_outcome (λ '(f, o), Sort_String_field f o) (zip (Fields s) (Orders s));
       Ok (join "," fields).

(** ** [queryhelper.SafeSplit] *)
Definition SafeSplit (fieldPath : string) : outcome string (list string) :=
  match index_char "[" fieldPath with
  | None => Ok (split_on "." fieldPath)
  | Some loc =>
      let s := split_on "." (str_take loc fieldPath) in
      (* fieldPath[loc+1 : len(fieldPath)-1]: the bounds cross when "[" is the last byte *)
      if bool_decide (loc + 1 ≤ String.length fieldPath - 1) then
        Ok (s ++ [str_take (String.length fieldPath - 1 - (loc + 1)) (str_drop (loc + 1) fieldPath)])
      else Panic
  end.

(** ** Parsing the query *)

(** [url.Values]: each parameter of the query with its values. *)
Abbreviation Values := (gmap string (list string)).
Definition Values_all (q : Values) (k : string) : list string := default [] (q !! k).
(** [q.Get(k)]: the first value, or the empty string. *)
Definition Values_Get (q : Values) (k : string) : string :=
  match Values_all q k with v :: _ => v | [] => "" end.

(** [opReg.Split(s, -1)] for the expression [!]?= *)
Fixpoint opReg_Split (s : string) : list string :=
  match s with
  | "" => [""]
  | String "!" (String "=" r) => "" :: opReg_Split r
  | String "=" r => "" :: opReg_Split r
  | String a r =>
      match opReg_Split r with h :: t => String a h :: t | [] => [String a ""] end
  end.

Definition getLimit (q : Values) : Z :=
  match parse_int (Values_Get q "limit") with Some limit => limit | None => defaultLimit end.

(** One filter of an "or": parts that are not of the form field, operator, value are
    skipped. *)
Definition parse_filter (filter : string) : option Filter :=
  let o := if contains "!=" filter then notEq_op else eq_op in
  match opReg_Split filter with
  | [f; m] => Some (mkFilter (split_on "." f) m o)
  | _ => None
  end.

Definition filter_field_less (f g : Filter) : bool :=
  String.ltb (join "." (field f)) (join "." (field g)).

Definition orfilter_fields (f : OrFilter) : string :=
  join "" ((λ f, join "." (field f)) <$> filters f).
Definition orfilter_less (f g : OrFilter) : bool :=
  String.ltb (orfilter_fields f) (orfilter_fields g).

Definition parse_filters `{SliceSort} (params : list string) : list OrFilter :=
  let filterOpts := (λ s, mkOrFilter (omap parse_filter (split_on "," s))) <$> params in
  let filterOpts := (λ f, mkOrFilter (sort_slice filter_field_less (filters f))) <$> filterOpts in
  sort_slice orfilter_less filterOpts.

(** One part of the sort parameter; empty ones are skipped. *)
Definition parse_sort_part (fld : string) : outcome string (option (list string * SortOrder)) :=
  let '(fld, o) := match fld with String "-" r => (r, DESC) | _ => (fld, ASC) end in
  if bool_decide (fld = "") then Ok None
  else fields ← SafeSplit fld; Ok (Some (fields, o)).

Definition parse_sort (sortKeys : string) : outcome string Sort :=
  if bool_decide (sortKeys = "") then Ok (mkSort [] [])
  else parts ← map_outcome parse_sort_part (split_on "," sortKeys);
       let parts := omap id parts in
       Ok (mkSort parts.*1 parts.*2).

Definition parse_pagination (q : Values) : Pagination :=
  mkPagination (default 0%Z (parse_int (Values_Get q "pagesize")))
               (default 1%Z (parse_int (Values_Get q "page"))).

Definition parse_projects (q : Values) : ProjectsOrNamespacesFilter :=
  let pos := Values_Get q "projectsornamespaces" in
  let neg := Values_Get q "projectsornamespaces!" in
  if bool_decide (pos ≠ "") then mkPNFilter (list_to_set (split_on "," pos)) eq_op
  else if bool_decide (neg ≠ "") then mkPNFilter (list_to_set (split_on "," neg)) notEq_op
  else mkPNFilter ∅ eq_op.

Definition ParseQuery `{SliceSort} (q : Values) : outcome string ListOptions :=
  sortOpts ← parse_sort (Values_Get q "sort");
  Ok (mkListOptions (getLimit q) (Values_Get q "continue")
        (parse_filters (Values_all q "filter")) sortOpts (parse_pagination q)
        (Values_Get q "revision") (parse_projects q)).

(** ** Filtering *)
Section filtering.
Context `{ObjectData}.

(** The loop of [matchesOne] that drops trailing fields until a prefix of the path has a
    value; the dropped fields are collected from the last one on. The path is given in
    reverse. *)
Fixpoint drop_fields (obj : object) (rfield subField : list string)
    : option (goval * list string) :=
  match rfield with
  | [] => None
  | lst :: rest =>
      match GetValue obj (rev rfield) with
      | Some v => Some (v, subField)
      | None => drop_fields obj rest (subField ++ [lst])
      end
  end.

(** One value of [matchesOneInList]: a nested map is matched by [match_map]. *)
Fixpoint matches_item (match_map : object → bool) (m : string) (v : goval) : bool :=
  match v with
  | GString _ | GInt _ | GBool _ => contains m (ToString v)
  | GMap o => match_map o
  | GSlice l => existsb (matches_item match_map m) l
  | GNil | GInt64 _ | GFloat64 _ => false
  end.

(** [matchesOne] and [matchesOneInList], which call each other with fewer fields each
    time: the length of the field bounds the depth. *)
Fixpoint matchesOne_fuel (fuel : nat) (obj : object) (f : Filter) : bool :=
  match fuel with
  | 0 => false
  | S fuel =>
      match drop_fields obj (rev (field f)) [] with
      | None => false
      | Some (v, subField) =>
          match v with
          | GString _ | GInt _ | GBool _ =>
              bool_decide (subField = []) && contains (match_ f) (ToString v)
          | GSlice l =>
              let f := mkFilter subField (match_ f) (fop f) in
              existsb (matches_item (λ o, matchesOne_fuel fuel o f) (match_ f)) l
          | GNil | GInt64 _ | GFloat64 _ | GMap _ => false
          end
      end
  end.

Definition matchesOne (obj : object) (f : Filter) : bool :=
  matchesOne_fuel (S (length (field f))) obj f.

Definition matchesOneInList (l : list goval) (f : Filter) : bool :=
  existsb (matches_item (λ o, matchesOne o f) (match_ f)) l.

Definition matchesAny (obj : object) (filter : OrFilter) : bool :=
  existsb (λ f, let matches := matchesOne obj f in
    matches && bool_decide (fop f = eq_op) || negb matches && bool_decide (fop f = notEq_op))
    (filters filter).

Definition matchesAll (obj : object) (fs : list OrFilter) : bool :=
  forallb (matchesAny obj) fs.

(** [FilterList] reads the chunks of the channel until it is closed. *)
Definition FilterList (chunks : list (list object)) (fs : list OrFilter) : list object :=
  foldl (λ result items,
    foldl (λ result item,
      if bool_decide (length fs = 0) then result ++ [item]
      else if matchesAll item fs then result ++ [item] else result) result items)
    [] chunks.
End filtering.

(** ** Sorting *)
Section sorting.
Context `{ObjectData}.

(** The value an item is sorted by: a missing field is the empty string, and a value that
    is not a string makes the type assertion panic. *)
Definition sort_value (item : object) (fields : list string) : outcome string string :=
  match GetValueFromAny item fields with
  | Some (GString s) => Ok s
  | Some _ => Panic
  | None => Ok ""
  end.

Definition transform (s : Sort) (item : object) : outcome string (object * list string) :=
  vs ← map_outcome (sort_value item) (Fields s); Ok (item, vs).

(** [sortFunc]: values are compared in turn, in reverse where the order is DESC. *)
Fixpoint compare_values (orders : list SortOrder) (l r : list string) : comparison :=
  match l, r, orders with
  | x :: l, y :: r, o :: orders =>
      match String.compare x y with
      | Eq => compare_values orders l r
      | c => if bool_decide (o = DESC) then CompOpp c else c
      end
  | _, _, _ => Eq
  end.

Definition values_le (orders : list SortOrder) (x y : object * list string) : bool :=
  match compare_values orders x.2 y.2 with Gt => false | _ => true end.

Definition SortList (l : list object) (s : Sort) : outcome string (list object) :=
  if bool_decide (length (Fields s) = 0) then Ok l
  else transformed ← map_outcome (transform s) l;
       Ok (stable_sort (values_le (Orders s)) transformed).*1.
End sorting.

(** ** Pagination

    The products and sums of page numbers are those of 64-bit integers, and a slice
    expression out of bounds panics. *)
Definition slice_list {A} (l : list A) (lo hi : Z) : outcome string (list A) :=
  if bool_decide (0 ≤ lo ≤ hi ∧ hi ≤ Z.of_nat (length l))%Z
  then Ok (take (Z.to_nat (hi - lo)) (drop (Z.to_nat lo) l)) else Panic.

Definition PaginateList {A} (l : list A) (p : Pagination) : outcome string (list A * Z) :=
  let len := Z.of_nat (length l) in
  if bool_decide (pageSize p ≤ 0)%Z then Ok (l, 0%Z)
  else
    let pg := if bool_decide (page p < 1)%Z then 0%Z else (page p - 1)%Z in
    let pages := (len `quot` pageSize p)%Z in
    let pages := if bool_decide (len `rem` pageSize p ≠ 0)%Z then (pages + 1)%Z else pages in
    let offset := wrap64 (pageSize p * pg) in
    if bool_decide (offset > len)%Z then Ok ([], pages)
    else
      let upto := wrap64 (offset + pageSize p) in
      items ← (if bool_decide (upto > len)%Z then slice_list l offset len
               else slice_list l offset upto);
      Ok (items, pages).

(** ** Projects and namespaces *)
Section projects.
Context `{ObjectData}.
(* the labels of a namespace, [None] when the cache returns none or an error *)
Context (namespaceCache_Get : string → option (gmap string string)).

Definition projects_keep (pn : ProjectsOrNamespacesFilter) (obj : object) : bool :=
  let namespaceName := Obj_GetNamespace obj in
  if bool_decide (namespaceName = "") then false
  else match namespaceCache_Get namespaceName with
       | None => false
       | Some labels =>
           let projectLabel := default "" (labels !! projectIDFieldLabel) in
           let matches := bool_decide (projectLabel ∈ pn_filter pn) ||
                          bool_decide (namespaceName ∈ pn_filter pn) in
           bool_decide (pn_op pn = eq_op) && matches ||
           bool_decide (pn_op pn = notEq_op) && negb matches
       end.

Definition FilterByProjectsAndNamespaces (l : list object) (pn : ProjectsOrNamespacesFilter)
    : list object :=
  if bool_decide (pn_filter pn = ∅) then l else List.filter (projects_keep pn) l.
End projects.

(** * Specification of filters

    A filter follows the path of its field through nested maps. In a list it looks at
    every item: text items match whatever remains of the path, and maps are searched with
    the remaining fields in reverse order. *)
Definition is_text (v : goval) : bool :=
  match v with GString _ | GInt _ | GBool _ => true | _ => false end.

Inductive path_matches `{ObjectData} (m : string) : goval → list string → Prop :=
  | pm_text v :
      is_text v = true → contains m (ToString v) = true → path_matches m v []
  | pm_key o k v p :
      o !! k = Some v → path_matches m v p → path_matches m (GMap o) (k :: p)
  | pm_slice l v p :
      v ∈ l → item_matches m v (rev p) → path_matches m (GSlice l) p
with item_matches `{ObjectData} (m : string) : goval → list string → Prop :=
  | im_text v p :
      is_text v = true → contains m (ToString v) = true → item_matches m v p
  | im_map o p : path_matches m (GMap o) p → item_matches m (GMap o) p
  | im_slice l v p : v ∈ l → item_matches m v p → item_matches m (GSlice l) p.

(** * Lemmas *)
Section filter_lemmas.
Context `{ObjectDataLaws}.
Implicit Types (o obj : object) (v w : goval) (p : list string).

(** The value found by walking down the path as far as it goes, with the fields left. *)
Fixpoint descend v p : goval * list string :=
  match v, p with
  | GMap o, k :: p' => match o !! k with Some v' => descend v' p' | None => (v, p) end
  | _, _ => (v, p)
  end.

Definition reach o p : option (goval * list string) :=
  match p with [] => None | k :: p => (λ v, descend v p) <$> o !! k end.

Lemma descend_app v p x :
  descend v (p ++ [x]) =
  match descend v p with (w, []) => descend w [x] | (w, rest) => (w, rest ++ [x]) end.
Proof.
  revert v. induction p as [|k p IH]; intros v; cbn; [by destruct v|].
  destruct v; try done. by destruct (o !! k).
Qed.

Lemma GetValue_reach o p :
  GetValue o p = match reach o p with Some (w, []) => Some w | _ => None end.
Proof.
  revert o. induction p as [|k [|k' p] IH]; intros o; cbn [reach].
  - apply GetValue_nil.
  - rewrite GetValue_one. by destruct (o !! k) as [[]|].
  - destruct (o !! k) as [[]|] eqn:Hk; cbn [fmap option_fmap option_map];
      try (rewrite GetValue_other; [done|congruence|done]).
    rewrite (GetValue_map _ _ _ _ Hk) by done. rewrite IH. cbn [reach descend].
    by destruct (o0 !! k').
Qed.

Lemma drop_fields_reach o p sub :
  drop_fields o (rev p) sub = (λ '(w, rest), (w, sub ++ rev rest)) <$> reach o p.
Proof.
  revert sub. induction p as [|x p IH] using rev_ind; intros sub; [done|].
  rewrite rev_app_distr. cbn [app rev drop_fields].
  rewrite rev_involutive, GetValue_reach, IH. clear IH.
  destruct p as [|k p]; cbn [app reach].
  { destruct (o !! x) as [v|]; cbn; [|done].
    destruct v; cbn; by rewrite app_nil_r. }
  destruct (o !! k) as [v|]; cbn; [|done]. rewrite descend_app.
  destruct (descend v p) as [w [|y rest]]; cbn.
  - destruct w; cbn; rewrite ?app_nil_r; try done.
    destruct (o0 !! x) as [[]|]; cbn; by rewrite ?app_nil_r.
  - by rewrite rev_app_distr, <- !app_assoc.
Qed.

Lemma descend_length v p : length (descend v p).2 ≤ length p.
Proof.
  revert v. induction p as [|k p IH]; intros []; cbn; try lia.
  destruct (o !! k); cbn; [|done]. specialize (IH g). lia.
Qed.

Lemma path_matches_map m o k p :
  path_matches m (GMap o) (k :: p) ↔ ∃ v, o !! k = Some v ∧ path_matches m v p.
Proof. split; [inversion_clear 1; eauto|intros (v & ? & ?); by econstructor]. Qed.

Lemma path_matches_map_nil m o : ¬ path_matches m (GMap o) [].
Proof. by inversion_clear 1. Qed.

Lemma path_matches_slice m l p :
  path_matches m (GSlice l) p ↔ ∃ v, v ∈ l ∧ item_matches m v (rev p).
Proof. split; [by inversion_clear 1; eauto|intros (v & ? & ?); by econstructor]. Qed.

Lemma path_matches_text m v p :
  is_text v = true → path_matches m v p ↔ p = [] ∧ contains m (ToString v) = true.
Proof.
  intros Hv. split; [inversion 1; subst; done|]. intros [-> ?]. by constructor.
Qed.

Lemma path_matches_descend m v p :
  path_matches m v p ↔ let '(w, rest) := descend v p in path_matches m w rest.
Proof.
  revert v. induction p as [|k p IH]; intros []; cbn; try done.
  destruct (o !! k) as [v|] eqn:Hk; cbn; [|done].
  rewrite <- IH, path_matches_map, Hk. naive_solver.
Qed.

(** The walk only stops at a map when the next key is missing. *)
Lemma descend_map m v p o rest :
  descend v p = (GMap o, rest) → ¬ path_matches m (GMap o) rest.
Proof.
  revert v. induction p as [|k p IH]; intros []; cbn; try done.
  - intros [= <- <-]. apply path_matches_map_nil.
  - destruct (o0 !! k) as [v|] eqn:Hk; [apply IH|]. intros [= <- <-].
    rewrite path_matches_map, Hk. naive_solver.
Qed.

Lemma matches_item_spec m p match_map v :
  (∀ o, match_map o = true ↔ path_matches m (GMap o) p) →
  matches_item match_map m v = true ↔ item_matches m v p.
Proof.
  intros Hmap. induction v as [v Hv|l IH] using goval_slice_ind.
  - destruct v; cbn [matches_item]; try (split; [done|by inversion 1]);
      try (split; [by constructor|by inversion 1; subst]).
    + by destruct (Hv l).
    + rewrite Hmap. split; [by constructor|]. by inversion 1; subst.
  - cbn [matches_item]. rewrite existsb_true. transitivity (∃ v, v ∈ l ∧ item_matches m v p).
    + induction IH as [|v l Hv _ IHl]; [by rewrite !exists_elem_of_nil|].
      by rewrite !exists_elem_of_cons, IHl, Hv.
    + split; [intros (v&?&?); by econstructor|]. inversion 1; subst; [done|]. eauto.
Qed.

Lemma rev_nil_iff {A} (l : list A) : rev l = [] ↔ l = [].
Proof. split; [|by intros ->]. intros ?%(f_equal (@rev A)). by rewrite rev_involutive in *. Qed.

Lemma matchesOne_fuel_spec n obj f :
  length (field f) < n →
  matchesOne_fuel n obj f = true ↔ path_matches (match_ f) (GMap obj) (field f).
Proof.
  revert obj f. induction n as [|n IH]; intros obj f Hn; [lia|]. cbn [matchesOne_fuel].
  rewrite drop_fields_reach. destruct (field f) as [|k p]; cbn [reach] in *.
  { split; [done|]. by intros ?%path_matches_map_nil. }
  rewrite path_matches_map. destruct (obj !! k) as [v|]; cbn; [|naive_solver].
  transitivity (path_matches (match_ f) v p); [|naive_solver].
  rewrite path_matches_descend. pose proof (descend_length v p) as Hlen.
  destruct (descend v p) as [w rest] eqn:Hd; cbn in Hlen |- *.
  destruct w; try (split; [done|by inversion 1]);
    try (rewrite path_matches_text, andb_true_iff, bool_decide_eq_true, rev_nil_iff by done;
         done);
    [|split; [done|]; by intros ?%(descend_map _ _ _ _ _ Hd)].
  rewrite path_matches_slice, existsb_true. f_equiv. intros v'. f_equiv.
  apply matches_item_spec. intros o. apply (IH o (mkFilter (rev rest) _ _)).
  cbn. rewrite length_rev. cbn in Hn. lia.
Qed.
End filter_lemmas.

Section list_lemmas.
Context `{ObjectData}.

Lemma foldl_filter_app {A} (f : A → bool) l acc :
  foldl (λ result x, if f x then result ++ [x] else result) acc l = acc ++ List.filter f l.
Proof.
  revert acc. induction l as [|x l IH]; intros acc; cbn; [by rewrite app_nil_r|].
  rewrite IH. destruct (f x); [by rewrite <- app_assoc|done].
Qed.

(** The test of [FilterList] on one item. *)
Definition keeps (fs : list OrFilter) (item : object) : bool :=
  bool_decide (length fs = 0) || matchesAll item fs.

Lemma FilterList_chunks chunks fs acc :
  foldl (λ result items,
    foldl (λ result item,
      if bool_decide (length fs = 0) then result ++ [item]
      else if matchesAll item fs then result ++ [item] else result) result items) acc chunks =
  acc ++ List.filter (keeps fs) (List.concat chunks).
Proof.
  unfold keeps. destruct (bool_decide (length fs = 0)); revert acc;
    (induction chunks as [|items chunks IH]; intros acc; cbn [foldl List.concat];
      [by rewrite app_nil_r|]).
  - rewrite IH, List.filter_app, app_assoc. f_equal. apply (foldl_filter_app (λ _, true)).
  - rewrite IH, List.filter_app, app_assoc. f_equal. apply (foldl_filter_app (λ x, matchesAll x fs)).
Qed.
End list_lemmas.

(** ** Sorting *)
Section sort_lemmas.
Context `{ObjectData}.

(** Comparison of the keys of two items: as many values as there are orders. *)
Fixpoint compare_keys (orders : list SortOrder) (l r : list string) : comparison :=
  match orders with
  | [] => Eq
  | o :: orders =>
      match String.compare (hd "" l) (hd "" r) with
      | Eq => compare_keys orders (tl l) (tl r)
      | c => if bool_decide (o = DESC) then CompOpp c else c
      end
  end.

Lemma compare_values_keys orders l r :
  length l = length orders → length r = length orders →
  compare_values orders l r = compare_keys orders l r.
Proof.
  revert l r. induction orders as [|o orders IH]; intros [|x l] [|y r] Hl Hr; try done.
  cbn. rewrite IH; auto.
Qed.

Lemma compare_keys_antisym orders l r :
  compare_keys orders r l = CompOpp (compare_keys orders l r).
Proof.
  revert l r. induction orders as [|o orders IH]; intros l r; cbn; [done|].
  rewrite String.compare_antisym. destruct (String.compare (hd "" l) (hd "" r)); cbn; [apply IH|..];
    by case_bool_decide.
Qed.

Lemma compare_keys_trans orders x y z :
  compare_keys orders x y ≠ Gt → compare_keys orders y z ≠ Gt → compare_keys orders x z ≠ Gt.
Proof.
  revert x y z. induction orders as [|o orders IH]; intros x y z; cbn; [done|].
  generalize (hd "" x) (hd "" y) (hd "" z). intros a b c.
  destruct (String.compare a b) eqn:Hab.
  - apply string_compare_eq in Hab as ->.
    destruct (String.compare b c); [apply IH|by case_bool_decide..].
  - destruct (String.compare b c) eqn:Hbc.
    + apply string_compare_eq in Hbc as ->. rewrite Hab. by case_bool_decide.
    + rewrite (string_compare_lt_trans _ b) by done. by case_bool_decide.
    + by case_bool_decide.
  - destruct (String.compare b c) eqn:Hbc.
    + apply string_compare_eq in Hbc as ->. rewrite Hab. by case_bool_decide.
    + by case_bool_decide.
    + rewrite String.compare_antisym, (string_compare_lt_trans c b a).
      * by case_bool_decide.
      * by rewrite String.compare_antisym, Hbc.
      * by rewrite String.compare_antisym, Hab.
Qed.

(** The key of an item: the values of the fields to sort by, empty when missing. *)
Definition sort_key (s : Sort) (item : object) : list string :=
  (λ fld, match GetValueFromAny item fld with Some (GString v) => v | _ => "" end) <$> Fields s.

Definition item_compare (s : Sort) (x y : object) : comparison :=
  compare_keys (Orders s) (sort_key s x) (sort_key s y).

Definition sortable (s : Sort) (item : object) : Prop :=
  ∀ fld, fld ∈ Fields s → sort_value item fld ≠ Panic.

Lemma sort_value_not_err item fld e : sort_value item fld ≠ Err e.
Proof. unfold sort_value. by_cases. Qed.

Lemma transform_sortable s item :
  sortable s item → transform s item = Ok (item, sort_key s item).
Proof.
  intros Hs. unfold transform, sort_key.
  rewrite (map_outcome_fmap _ (λ fld,
    match GetValueFromAny item fld with Some (GString v) => v | _ => "" end)); [done|].
  intros fld Hfld. specialize (Hs fld Hfld). unfold sort_value in *. by_cases.
Qed.

Definition item_le (s : Sort) (x y : object) : bool :=
  match item_compare s x y with Gt => false | _ => true end.

Lemma item_le_spec s x y : item_le s x y = true ↔ item_compare s x y ≠ Gt.
Proof. unfold item_le. by destruct (item_compare s x y). Qed.

Lemma SortList_stable_sort s l :
  length (Orders s) = length (Fields s) → (∀ item, item ∈ l → sortable s item) →
  SortList l s = Ok (stable_sort (item_le s) l).
Proof.
  intros Hlen Hl. unfold SortList. case_bool_decide as Hnil.
  - f_equal. symmetry. rewrite Hnil in Hlen. apply stable_sort_id.
    assert (∀ x y, item_le s x y = true) as Hle.
    { intros. unfold item_le, item_compare. by destruct (Orders s). }
    clear Hl. induction l; constructor; [done|]. by apply Forall_true.
  - rewrite (map_outcome_fmap _ (λ item, (item, sort_key s item)))
      by (intros; by apply transform_sortable, Hl).
    cbn. rewrite stable_sort_fmap, <- list_fmap_compose. cbn.
    rewrite list_fmap_id. f_equal. apply stable_sort_ext. intros x y _ _.
    unfold values_le, item_le, item_compare. cbn.
    rewrite compare_values_keys; [done|..]; unfold sort_key; by rewrite length_fmap.
Qed.
End sort_lemmas.

(** A value that is not a string makes the whole sort panic. *)
Lemma map_outcome_panic {E A B} (f : A → outcome E B) l :
  (∀ x e, x ∈ l → f x ≠ Err e) → (∃ x, x ∈ l ∧ f x = Panic) → map_outcome f l = Panic.
Proof.
  induction l as [|x l IH]; intros Herr Hx; [by apply exists_elem_of_nil in Hx|].
  cbn. destruct (f x) eqn:Hfx; cbn; [|by destruct (Herr x e); [left|]|done].
  apply exists_elem_of_cons in Hx as [?|Hx]; [congruence|].
  rewrite IH; [done|intros; apply Herr; by right|done].
Qed.

Lemma transform_panic `{ObjectData} s item :
  (∃ fld, fld ∈ Fields s ∧ sort_value item fld = Panic) → transform s item = Panic.
Proof.
  intros Hfld. unfold transform. rewrite map_outcome_panic; [done| |done].
  intros. apply sort_value_not_err.
Qed.

Lemma transform_not_err `{ObjectData} s item e : transform s item ≠ Err e.
Proof.
  unfold transform. intros Herr.
  destruct (map_outcome (sort_value item) (Fields s)) eqn:Hm; try done. clear Herr.
  revert e0 Hm. induction (Fields s) as [|f fs IH]; intros e0; cbn; [done|].
  destruct (sort_value item f) eqn:Hf; cbn; [|by apply sort_value_not_err in Hf|done].
  destruct (map_outcome (sort_value item) fs); cbn; [done| |done]. by destruct (IH e1).
Qed.

(** ** Slices of lists *)
Section page_lemmas.
Open Scope Z_scope.
Context {A : Type}.
Implicit Types (l : list A).

(** The items of page [n] (from 0) of [l] in pages of [ps]. *)
Definition nth_page (ps n : nat) l : list A := take ps (drop (ps * n)%nat l).

Lemma slice_list_ok l lo hi :
  0 ≤ lo ≤ hi → hi ≤ Z.of_nat (length l) →
  slice_list l lo hi = Ok (take (Z.to_nat (hi - lo)) (drop (Z.to_nat lo) l)).
Proof. intros. unfold slice_list. by rewrite bool_decide_eq_true_2. Qed.

Lemma slice_list_negative l lo hi : lo < 0 → slice_list l lo hi = Panic.
Proof. intros. unfold slice_list. rewrite bool_decide_eq_false_2; [done|lia]. Qed.

Lemma concat_pages ps n l :
  (0 < ps)%nat → List.concat ((λ i, nth_page ps i l) <$> seq 0 n) = take (ps * n) l.
Proof.
  intros Hps. induction n as [|n IH]; [by rewrite Nat.mul_0_r, take_0|].
  rewrite seq_S, fmap_app, List.concat_app, IH. cbn. rewrite app_nil_r. unfold nth_page.
  rewrite Nat.mul_succ_r. rewrite <- (take_drop (ps * n) (take (ps * n + ps) l)).
  rewrite take_take, Nat.min_l by lia. f_equal. by rewrite take_drop_commute.
Qed.
End page_lemmas.

(** The page count is the length divided by the page size, rounded up. *)
Lemma page_count (len ps : nat) :
  (0 < ps)%nat →
  ((if bool_decide (Z.of_nat len `rem` Z.of_nat ps ≠ 0) then Z.of_nat len `quot` Z.of_nat ps + 1
    else Z.of_nat len `quot` Z.of_nat ps) = Z.of_nat ((len + ps - 1) / ps))%Z.
Proof.
  intros Hps. rewrite Nat2Z.inj_div, Z.rem_mod_nonneg, Z.quot_div_nonneg by lia.
  replace (Z.of_nat (len + ps - 1))%Z with (Z.of_nat len + (Z.of_nat ps - 1))%Z by lia.
  generalize (Z.of_nat len) as z. intros z.
  pose proof (Z.div_mod z (Z.of_nat ps)). pose proof (Z.mod_pos_bound z (Z.of_nat ps)).
  case_bool_decide.
  - apply Z.div_unique with (z `mod` Z.of_nat ps - 1)%Z; lia.
  - apply Z.div_unique with (Z.of_nat ps - 1)%Z; lia.
Qed.

Lemma PaginateList_page {A} (l : list A) (ps n : nat) :
  (0 < ps)%nat → (Z.of_nat (length l) ≤ 2 ^ 62)%Z → (ps * n < length l)%nat →
  (Z.of_nat ps ≤ max_int64)%Z →
  (PaginateList l (mkPagination (Z.of_nat ps) (Z.of_nat n + 1)) =
   Ok (nth_page ps n l, Z.of_nat ((length l + ps - 1) / ps)))%Z.
Proof.
  intros Hps Hlen Hn Hmax. unfold PaginateList. cbn [pageSize page].
  rewrite (bool_decide_eq_false_2 (Z.of_nat ps ≤ 0)%Z) by lia.
  rewrite (bool_decide_eq_false_2 (Z.of_nat n + 1 < 1)%Z) by lia.
  replace (Z.of_nat n + 1 - 1)%Z with (Z.of_nat n) by lia.
  rewrite page_count by done. rewrite <- Nat2Z.inj_mul.
  assert (Hoff : (0 ≤ Z.of_nat (ps * n) + Z.of_nat ps ≤ max_int64)%Z).
  { unfold max_int64 in *. destruct n; [lia|].
    assert (Z.of_nat ps ≤ Z.of_nat (ps * S n))%Z by nia. lia. }
  rewrite !wrap64_small by (unfold in_int64, min_int64 in *; lia).
  rewrite bool_decide_eq_false_2 by lia. unfold nth_page.
  case_bool_decide; rewrite slice_list_ok by lia; cbn; rewrite ?Nat2Z.id.
  - do 2 f_equal. rewrite !take_ge; [done|rewrite length_drop; lia..].
  - do 3 f_equal. lia.
Qed.

(** ** Printing and parsing the sort parameter *)
Section sort_roundtrip.
Implicit Types (s t : string) (fld : list string).

(** A field as [SafeSplit] returns it: at least two parts, of which only the last may hold
    separators, and the text does not start with the sign of the descending order. *)
Definition sort_field_wf fld : Prop :=
  2 ≤ length fld ∧
  Forall (λ p, all_chars (λ c, negb (Ascii.eqb c "." || Ascii.eqb c "," || Ascii.eqb c "[")%char) p
               = true) (removelast fld) ∧
  (∀ l, list.last fld = Some l → has_char "," l = false) ∧
  (∀ p rest, fld = p :: rest → ∀ r, p ≠ String "-" r).

Definition sort_wf (s : Sort) : Prop :=
  length (Orders s) = length (Fields s) ∧ Forall sort_field_wf (Fields s).

Lemma has_char_join c sep l :
  has_char c sep = false → Forall (λ s, has_char c s = false) l → has_char c (join sep l) = false.
Proof.
  intros Hsep. unfold join. induction 1 as [|s l Hs Hl IH]; [done|].
  destruct l as [|s' l]; [by cbn|].
  change (String.concat sep (s :: s' :: l)) with (s +:+ sep +:+ String.concat sep (s' :: l)).
  by rewrite !has_char_app, Hs, Hsep, IH.
Qed.

Lemma join_snoc sep l x : l ≠ [] → join sep (l ++ [x]) = join sep l +:+ sep +:+ x.
Proof.
  intros Hne. unfold join. induction l as [|s [|s' l] IH]; [done|done|].
  change (String.concat sep ((s :: s' :: l) ++ [x]))
    with (s +:+ sep +:+ String.concat sep ((s' :: l) ++ [x])).
  rewrite IH by done.
  change (String.concat sep (s :: s' :: l)) with (s +:+ sep +:+ String.concat sep (s' :: l)).
  by rewrite !str_app_assoc.
Qed.

Lemma SafeSplit_bracket s l :
  has_char "[" s = false →
  SafeSplit (s +:+ "[" +:+ l +:+ "]") = Ok (split_on "." s ++ [l]).
Proof.
  intros Hs. change ("[" +:+ l +:+ "]") with (String "[" (l +:+ "]")). unfold SafeSplit.
  rewrite index_char_app by done.
  rewrite !str_length_app. cbn [String.length]. rewrite str_length_app. cbn [String.length].
  rewrite bool_decide_eq_true_2 by lia. rewrite str_take_app.
  do 4 f_equal. replace (String.length s + 1) with (String.length (s +:+ "["))
    by (rewrite str_length_app; done).
  replace (s +:+ String "[" (l +:+ "]")) with ((s +:+ "[") +:+ l +:+ "]") by by rewrite str_app_assoc.
  rewrite str_drop_app, str_length_app. cbn [String.length].
  replace (_ - 1 - _) with (String.length l) by lia. apply str_take_app.
Qed.

Lemma SafeSplit_dots fld :
  fld ≠ [] → Forall (λ p, has_char "." p = false) fld →
  Forall (λ p, has_char "[" p = false) fld → SafeSplit (join "." fld) = Ok fld.
Proof.
  intros Hne Hdot Hbr. unfold SafeSplit. rewrite index_char_None.
  - by rewrite split_on_join.
  - by apply has_char_join.
Qed.

Lemma wf_part_chars p c :
  all_chars (λ c, negb (Ascii.eqb c "." || Ascii.eqb c "," || Ascii.eqb c "[")%char) p = true →
  (Ascii.eqb c "." || Ascii.eqb c "," || Ascii.eqb c "[")%char = true → has_char c p = false.
Proof. intros Hp Hc. eapply has_char_all_chars; [done|]. cbn. by rewrite Hc. Qed.

Lemma parse_sort_part_asc t :
  t ≠ "" → (∀ r, t ≠ String "-" r) →
  parse_sort_part t = (fields ← SafeSplit t; Ok (Some (fields, ASC))).
Proof.
  intros Hne Ht. destruct t as [|a r]; [done|]. unfold parse_sort_part.
  destruct (Ascii.eqb a "-") eqn:Ha; [apply ascii_eqb_true in Ha as ->; by destruct (Ht r)|].
  destruct a as [[] [] [] [] [] [] [] []]; done.
Qed.

Lemma parse_sort_part_desc t :
  t ≠ "" → parse_sort_part (String "-" t) = (fields ← SafeSplit t; Ok (Some (fields, DESC))).
Proof. intros. unfold parse_sort_part. by rewrite bool_decide_eq_false_2. Qed.

(** The text of a field without the sign. *)
Definition field_text (init : list string) (l : string) : string :=
  join "." init +:+ if all_chars identifier_char l then "." +:+ l else "[" +:+ l +:+ "]".

Lemma SafeSplit_field_text init l :
  init ≠ [] →
  Forall (λ p, all_chars (λ c, negb (Ascii.eqb c "." || Ascii.eqb c "," || Ascii.eqb c "[")%char) p
               = true) init →
  SafeSplit (field_text init l) = Ok (init ++ [l]).
Proof.
  intros Hne Hinit. unfold field_text.
  assert (Hno : ∀ c, (Ascii.eqb c "." || Ascii.eqb c "," || Ascii.eqb c "[")%char = true →
    Forall (λ p, has_char c p = false) init).
  { intros c Hc. revert Hinit. apply Forall_impl. intros p Hp. by eapply wf_part_chars. }
  destruct (all_chars identifier_char l) eqn:Hid.
  - rewrite <- join_snoc by done. apply SafeSplit_dots; [by destruct init|..];
      (apply Forall_app; split; [by apply Hno|]);
      (constructor; [|constructor]); by eapply has_char_all_chars.
  - rewrite SafeSplit_bracket by (apply has_char_join; [done|by apply Hno]).
    by rewrite split_on_join by (try apply Hno; done).
Qed.

(** The text of a field parses back to the field and holds no comma. *)
Lemma Sort_String_field_parse fld o :
  sort_field_wf fld →
  ∃ t, Sort_String_field fld o = Ok t ∧ parse_sort_part t = Ok (Some (fld, o)) ∧
       has_char "," t = false ∧ t ≠ "".
Proof.
  intros (Hlen & Hinit & Hlast & Hhd).
  destruct (exists_last (l := fld)) as (init & l & ->); [by (destruct fld; cbn in Hlen; [lia|])|].
  rewrite removelast_last in Hinit. rewrite last_snoc in Hlast. specialize (Hlast l eq_refl).
  rewrite length_app in Hlen. cbn in Hlen.
  assert (Hne : init ≠ []) by (destruct init; cbn in Hlen; [lia|done]).
  exists ((if bool_decide (o = DESC) then "-" else "") +:+ field_text init l).
  assert (Hcomma : has_char "," (field_text init l) = false).
  { unfold field_text. rewrite has_char_app, has_char_join; [|done|].
    - destruct (all_chars _ l); cbn; [done|]. by rewrite has_char_app, Hlast.
    - revert Hinit. apply Forall_impl. intros p Hp. by eapply wf_part_chars. }
  assert (Hnonempty : field_text init l ≠ "").
  { unfold field_text. by destruct (join "." init), (all_chars _ l). }
  split_and!.
  - unfold Sort_String_field. rewrite last_snoc, removelast_last. unfold field_text.
    by destruct (all_chars _ l), (bool_decide _).
  - case_bool_decide; subst; cbn [String.append].
    + by rewrite parse_sort_part_desc, SafeSplit_field_text.
    + destruct o; [|done]. rewrite parse_sort_part_asc, SafeSplit_field_text; [done..|].
      destruct init as [|p init]; [done|]. intros r Hr.
      specialize (Hhd p (init ++ [l]) eq_refl). unfold field_text, join in Hr.
      destruct p as [|a p].
      * by destruct init, (all_chars _ l).
      * apply (Hhd p). f_equal. destruct init; cbn in Hr; congruence.
  - rewrite has_char_app, Hcomma. by case_bool_decide.
  - by case_bool_decide.
Qed.

(** The parts of the text of a sort. *)
Lemma Sort_String_fields (s : Sort) :
  sort_wf s →
  ∃ ts, map_outcome (λ '(f, o), Sort_String_field f o) (zip (Fields s) (Orders s)) = Ok ts ∧
        map_outcome parse_sort_part ts = Ok (Some <$> zip (Fields s) (Orders s)) ∧
        Forall (λ t, has_char "," t = false) ts ∧ Forall (λ t, t ≠ "") ts ∧
        length ts = length (Fields s).
Proof.
  destruct s as [fs os]. intros [Hlen Hwf]. cbn [Fields Orders] in *.
  revert os Hlen.
  induction Hwf as [|f fs Hf Hfs IH]; intros [|o os] Hlen; cbn in Hlen; try lia.
  - exists []. split_and!; try done; constructor.
  - destruct (IH os ltac:(lia)) as (ts & Hts & Hparse & Hcomma & Hne & Hl).
    destruct (Sort_String_field_parse f o Hf) as (t & Ht & Hpt & Hct & Hnt).
    exists (t :: ts). cbn. rewrite Ht, Hpt. cbn. fold (zip fs os) in *.
    rewrite Hts, Hparse. cbn. split_and!; try done; try (by constructor). lia.
Qed.
End sort_roundtrip.

(** * Theorems *)

(** [matchesOne], which looks for the longest prefix of a field that has a value and
    continues below it, follows the path of the field step by step; the fuel of the
    model, the number of fields, suffices. *)
Theorem matchesOne_path_matches `{ObjectDataLaws} obj f :
  matchesOne obj f = true ↔ path_matches (match_ f) (GMap obj) (field f).
Proof. apply matchesOne_fuel_spec. lia. Qed.

(** [FilterList] keeps, in order, the items that satisfy every filter, however the
    stream is cut into chunks. *)
Theorem FilterList_filter `{ObjectData} chunks fs :
  FilterList chunks fs = List.filter (λ item, forallb (matchesAny item) fs) (List.concat chunks).
Proof.
  unfold FilterList. rewrite FilterList_chunks. cbn. apply List.filter_ext. intros item.
  unfold keeps, matchesAll. by destruct fs.
Qed.

(** [SortList] sorts by the given fields in the given directions and keeps the order of
    items that compare equal; it panics exactly when an item has a value that is not a
    string at one of the fields. *)
Theorem SortList_spec `{ObjectData} l s :
  length (Orders s) = length (Fields s) →
  ((∀ item, item ∈ l → sortable s item) →
   ∃ l', SortList l s = Ok l' ∧ l' ≡ₚ l ∧
     StronglySorted (λ x y, item_compare s x y ≠ Gt) l' ∧
     ∀ x, List.filter (λ y, bool_decide (item_compare s x y = Eq)) l' =
          List.filter (λ y, bool_decide (item_compare s x y = Eq)) l) ∧
  ((∃ item, item ∈ l ∧ ∃ fld, fld ∈ Fields s ∧ sort_value item fld = Panic) →
   SortList l s = Panic).
Proof.
  intros Hlen. split.
  - intros Hl. rewrite SortList_stable_sort by done. eexists. split; [done|].
    assert (Htrans : ∀ x y z, item_le s x y = true → item_le s y z = true → item_le s x z = true).
    { intros x y z. rewrite !item_le_spec. apply compare_keys_trans. }
    assert (Htotal : ∀ x y, item_le s x y = true ∨ item_le s y x = true).
    { intros x y. unfold item_le, item_compare.
      rewrite (compare_keys_antisym _ (sort_key s x) (sort_key s y)).
      destruct (compare_keys _ _ _); auto. }
    split_and!; [apply stable_sort_perm| |].
    + eapply StronglySorted_weaken, stable_sort_sorted; [|done..]. intros. by apply item_le_spec.
    + intros x. pose proof (stable_sort_stable (item_le s) Htrans Htotal x l) as Hst.
      erewrite List.filter_ext, Hst; [apply List.filter_ext|]; intros y;
        unfold equivb, item_le, item_compare;
        rewrite (compare_keys_antisym _ (sort_key s x) (sort_key s y));
        by destruct (compare_keys _ _ _).
  - intros (item & Hitem & fld & Hfld & Hpanic). unfold SortList.
    rewrite bool_decide_eq_false_2.
    2:{ intros Hnil%nil_length_inv. rewrite Hnil in Hfld. by apply not_elem_of_nil in Hfld. }
    rewrite map_outcome_panic; [done|intros; apply transform_not_err|].
    exists item. split; [done|]. apply transform_panic. by exists fld.
Qed.

(** The pages of a list, put together, are the list; each page has at most the page
    size, and the page count is the length divided by the page size, rounded up. *)
Theorem PaginateList_pages {A} (l : list A) (ps : nat) :
  (0 < ps)%nat → (Z.of_nat ps ≤ max_int64)%Z → (Z.of_nat (length l) ≤ 2 ^ 62)%Z →
  let pages := (length l + ps - 1) / ps in
  ∃ items : nat → list A,
    (∀ n, n < pages → PaginateList l (mkPagination (Z.of_nat ps) (Z.of_nat n + 1)) =
                        Ok (items n, Z.of_nat pages) ∧ 0 < length (items n) ≤ ps) ∧
    List.concat (items <$> seq 0 pages) = l.
Proof.
  intros Hps Hmax Hlen pages. exists (λ n, nth_page ps n l).
  assert (Hpage : ∀ n, n < pages → ps * n < length l).
  { intros n Hn. unfold pages in Hn. pose proof (Nat.Div0.mul_div_le (length l + ps - 1) ps). nia. }
  split.
  - intros n Hn. specialize (Hpage n Hn). rewrite PaginateList_page by done.
    split; [done|]. unfold nth_page. rewrite length_take, length_drop. lia.
  - rewrite concat_pages by done. apply take_ge.
    pose proof (Nat.div_mod_eq (length l + ps - 1) ps).
    pose proof (Nat.mod_upper_bound (length l + ps - 1) ps). unfold pages. lia.
Qed.

(** The offset of a page is computed with 64-bit integers: for page 3 with a page size
    of 2^62 it is negative, and the slice expression panics for every list. *)
Theorem PaginateList_overflow_panics {A} (l : list A) :
  PaginateList l (mkPagination (2 ^ 62) 3) = Panic.
Proof.
  unfold PaginateList. cbn [pageSize page].
  rewrite (bool_decide_eq_false_2 (3 < 1)%Z) by lia.
  replace (wrap64 (2 ^ 62 * (3 - 1))) with (- 2 ^ 63)%Z by reflexivity.
  rewrite (bool_decide_eq_false_2 (2 ^ 62 ≤ 0)%Z) by lia.
  rewrite (bool_decide_eq_false_2 (_ > _)%Z) by lia.
  rewrite !slice_list_negative by lia. by destruct (bool_decide (wrap64 _ > _)%Z).
Qed.

(** The sort criteria written as a query string are parsed back to themselves, so
    they identify the criteria in the cache key of a list. *)
Theorem Sort_String_roundtrip (s : Sort) :
  sort_wf s → ∃ t, Sort_String s = Ok t ∧ parse_sort t = Ok s.
Proof.
  intros Hwf. destruct (Sort_String_fields s Hwf) as (ts & Hts & Hparse & Hcomma & Hne & Hlen).
  destruct Hwf as [Hlen' _]. exists (join "," ts). split.
  { unfold Sort_String. rewrite bool_decide_eq_false_2 by lia. by rewrite Hts. }
  unfold parse_sort. destruct s as [[|f fs] [|o os]]; try done.
  { by destruct ts. }
  destruct ts as [|t ts]; [done|].
  rewrite bool_decide_eq_false_2.
  - rewrite split_on_join by done. rewrite Hparse. cbn [mbind outcome_bind].
    assert (Homap : omap id (Some <$> zip (Fields (mkSort (f :: fs) (o :: os)))
                                        (Orders (mkSort (f :: fs) (o :: os)))) =
            zip (Fields (mkSort (f :: fs) (o :: os))) (Orders (mkSort (f :: fs) (o :: os)))).
    { generalize (zip (Fields (mkSort (f :: fs) (o :: os))) (Orders (mkSort (f :: fs) (o :: os)))).
      intros l. induction l as [|x l IH]; cbn; [done|]. f_equal. exact IH. }
    rewrite Homap, fst_zip, snd_zip by (cbn in *; lia). done.
  - inversion_clear Hne. unfold join. destruct t, ts; cbn; done.
Qed.

(** Filtering by projects and namespaces keeps the objects of the namespaces that are
    named or belong to a named project, the negated filter keeps those of the others;
    objects without a namespace and those of unknown namespaces are dropped by both. *)
Theorem FilterByProjects_spec `{ObjectData} namespaceCache_Get l names o obj :
  names ≠ ∅ →
  obj ∈ FilterByProjectsAndNamespaces namespaceCache_Get l (mkPNFilter names o) ↔
  obj ∈ l ∧ Obj_GetNamespace obj ≠ "" ∧
  ∃ labels, namespaceCache_Get (Obj_GetNamespace obj) = Some labels ∧
    (o = eq_op ↔ default "" (labels !! projectIDFieldLabel) ∈ names ∨
                 Obj_GetNamespace obj ∈ names).
Proof.
  intros Hne. unfold FilterByProjectsAndNamespaces. cbn [pn_filter].
  rewrite bool_decide_eq_false_2 by done. rewrite elem_of_list_filter. f_equiv.
  unfold projects_keep. cbn [pn_filter pn_op]. case_bool_decide as Hns; [naive_solver|].
  destruct (namespaceCache_Get _) as [labels|]; [|naive_solver].
  transitivity (o = eq_op ↔ default "" (labels !! projectIDFieldLabel) ∈ names ∨
                 Obj_GetNamespace obj ∈ names); [|naive_solver].
  rewrite orb_true_iff, !andb_true_iff, negb_true_iff, orb_true_iff, orb_false_iff,
    !bool_decide_eq_true, !bool_decide_eq_false.
  destruct o; naive_solver.
Qed.

(** ** Concrete inputs *)
Import ConcreteData.
Module ListExample.
Definition pod (ns n : string) : object :=
  {[ "metadata" := GMap {[ "namespace" := GString ns; "name" := GString n ]} ]}.
Definition pods : list object := [pod "b" "web"; pod "a" "web"; pod "b" "db"].

(** sort=metadata.name,-metadata.namespace *)
Definition by_name : Sort :=
  mkSort [["metadata"; "name"]; ["metadata"; "namespace"]] [ASC; DESC].

Lemma pods_sortable item : item ∈ pods → sortable by_name item.
Proof.
  unfold pods. intros Hitem fld Hfld.
  repeat (apply elem_of_cons in Hitem as [->|Hitem];
    [repeat (apply elem_of_cons in Hfld as [->|Hfld]; [by vm_compute|]);
     by apply not_elem_of_nil in Hfld|]).
  by apply not_elem_of_nil in Hitem.
Qed.
End ListExample.

Lemma matchesOne_path_matches_witness :
  path_matches "we" (GMap (ListExample.pod "b" "web")) ["metadata"; "name"].
Proof.
  apply (matchesOne_path_matches (ListExample.pod "b" "web")
           (mkFilter ["metadata"; "name"] "we" eq_op)).
  vm_compute. reflexivity.
Defined.

Lemma SortList_spec_witness :
  ∃ l', SortList ListExample.pods ListExample.by_name = Ok l' ∧ l' ≡ₚ ListExample.pods ∧
    StronglySorted (λ x y, item_compare ListExample.by_name x y ≠ Gt) l' ∧
    ∀ x, List.filter (λ y, bool_decide (item_compare ListExample.by_name x y = Eq)) l' =
         List.filter (λ y, bool_decide (item_compare ListExample.by_name x y = Eq))
           ListExample.pods.
Proof.
  apply (SortList_spec ListExample.pods ListExample.by_name); [reflexivity|].
  apply ListExample.pods_sortable.
Defined.

Lemma PaginateList_pages_witness :
  ∃ items : nat → list nat,
    (∀ n, n < 3 → PaginateList [1; 2; 3; 4; 5] (mkPagination 2 (Z.of_nat n + 1)) =
                    Ok (items n, 3%Z) ∧ 0 < length (items n) ≤ 2) ∧
    List.concat (items <$> seq 0 3) = [1; 2; 3; 4; 5].
Proof. apply (PaginateList_pages [1; 2; 3; 4; 5] 2); [lia|by vm_compute..]. Defined.

Lemma Sort_String_roundtrip_witness :
  ∃ t, Sort_String (mkSort [["metadata"; "labels"; "a/b.c"]] [DESC]) = Ok t ∧
       parse_sort t = Ok (mkSort [["metadata"; "labels"; "a/b.c"]] [DESC]).
Proof.
  apply (Sort_String_roundtrip (mkSort [["metadata"; "labels"; "a/b.c"]] [DESC])).
  split; [reflexivity|]. constructor; [|constructor]. split_and!.
  - cbn. lia.
  - repeat constructor.
  - intros l [= <-]. reflexivity.
  - intros p rest [= <- <-] r. discriminate.
Defined.

Lemma FilterByProjects_spec_witness :
  ListExample.pod "a" "web" ∈ FilterByProjectsAndNamespaces (λ _, Some ∅) ListExample.pods
    (mkPNFilter {["b"]} notEq_op).
Proof.
  apply (FilterByProjects_spec (λ _, Some ∅) ListExample.pods {["b"]} notEq_op); [done|].
  split; [right; by left|]. split; [done|]. exists ∅. split; [done|].
  split; [done|]. vm_compute. intros [?|?]; done.
Defined.
