(* ===== verification/PartitionStore.v ===== *)
(** * Lists across partitions and their cache: pkg/stores/partition/store.go

    [Store.List] lists the partitions in parallel, filters, sorts and paginates the
    result, and keeps the sorted list in a cache for the requests of the other pages. *)
From S2P Require Import Prelude GoLib GoValue ListProcessor.

Record cacheKey := mkCacheKey {
  ck_chunkSize : Z;
  ck_resume : string;
  ck_filters : string;
  ck_sort : string;
  ck_pageSize : Z;
  ck_accessID : string;
  ck_resourcePath : string;
  ck_revision : string
}.
#[export] Instance cacheKey_eq_dec : EqDecision cacheKey.
Proof. solve_decision. Defined.
#[export] Instance cacheKey_countable : Countable cacheKey.
Proof.
  refine (inj_countable'
    (λ k, (ck_chunkSize k, ck_resume k, ck_filters k, ck_sort k, ck_pageSize k, ck_accessID k,
           ck_resourcePath k, ck_revision k))
    (λ t, mkCacheKey t.1.1.1.1.1.1.1 t.1.1.1.1.1.1.2 t.1.1.1.1.1.2 t.1.1.1.1.2 t.1.1.1.2
                     t.1.1.2 t.1.2 t.2) _).
  by intros [].
Defined.

(** The result of a list; the conversion of its objects with [ToAPI] is left out. *)
Record APIObjectList := mkAPIObjectList {
  Objects : list object;
  Count : Z;
  Pages : Z;
  L_Continue : string;
  L_Revision : string
}.

(** A cached list: its items and its continue token. *)
Abbreviation list_cache := (gmap cacheKey (list object * string)).

Section store.
Context `{ObjectData, SliceSort}.
Context (namespaceCache_Get : string → option (gmap string string)).
(* the parallel lister: chunks, continue token and revision for a chunk size, a continue
   token and a revision; its error *)
Context (lister : Z → string → string → outcome string (list (list object) * string * string)).
(* the access set of the user and the path of the request *)
Context (accessID resourcePath : string).

Definition getCacheKey (opts : ListOptions) : outcome string cacheKey :=
  sort ← Sort_String (SortOpt opts);
  Ok (mkCacheKey (ChunkSize opts) (Resume opts)
        (join "" (OrFilter_String <$> Filters opts)) sort (pageSize (PaginationOpt opts))
        accessID resourcePath (Revision opts)).

(** The key under which a fresh list is cached holds the revision of the list. *)
Definition with_revision (k : cacheKey) (rev : string) : cacheKey :=
  mkCacheKey (ck_chunkSize k) (ck_resume k) (ck_filters k) (ck_sort k) (ck_pageSize k)
    (ck_accessID k) (ck_resourcePath k) rev.

(** A list, its continue token and its revision, with the cache afterwards. *)
Definition fetched : Type := list object * string * string * option list_cache.

(** The list is not in the cache: it is fetched, filtered, sorted and cached. *)
Definition fetch_list (cache : option (cacheKey * list_cache)) (opts : ListOptions)
    : outcome string fetched :=
  res ← lister (ChunkSize opts) (Resume opts) (Revision opts);
  let '(stream, cont, rev) := res in
  items ← SortList (FilterList stream (Filters opts)) (SortOpt opts);
  let kept := FilterByProjectsAndNamespaces namespaceCache_Get items (ProjectsOrNamespaces opts) in
  let listCache := match cache with
    | Some (k, c) => Some (<[with_revision k rev := (items, cont)]> c)
    | None => None
    end in
  Ok (kept, cont, rev, listCache).

Definition cached_list (cache : option (cacheKey * list_cache)) : option (list object * string) :=
  match cache with
  | Some (k, c) => if bool_decide (ck_revision k ≠ "") then c !! k else None
  | None => None
  end.

Definition get_list (cache : option (cacheKey * list_cache)) (opts : ListOptions)
    : outcome string fetched :=
  match cached_list cache with
  | Some (items, cont) => Ok (items, cont, Revision opts, snd <$> cache)
  | None => fetch_list cache opts
  end.

Definition with_key (listCache : option list_cache) (opts : ListOptions)
    : outcome string (option (cacheKey * list_cache)) :=
  match listCache with
  | None => Ok None
  | Some c => k ← getCacheKey opts; Ok (Some (k, c))
  end.

(** [Store.List] without the partitioner, with the cache of the store, if it has one. *)
Definition Store_List (listCache : option list_cache) (q : Values)
    : outcome string (APIObjectList * option list_cache) :=
  opts ← ParseQuery q;
  cache ← with_key listCache opts;
  res ← get_list cache opts;
  let '(items, cont, rev, listCache) := res in
  paged ← PaginateList items (PaginationOpt opts);
  Ok (mkAPIObjectList (fst paged) (Z.of_nat (length items)) (snd paged) cont rev, listCache).
End store.

(** * Lemmas *)
Section op_lemmas.
Context `{ObjectData}.

Lemma matches_item_ext (f g : object → bool) m v :
  (∀ o, f o = g o) → matches_item f m v = matches_item g m v.
Proof.
  intros Hfg. induction v as [v Hv|l IH] using goval_slice_ind.
  - destruct v; cbn; try done. by destruct (Hv l).
  - cbn. induction IH as [|v l Hv _ IHl]; cbn; [done|]. by rewrite Hv, IHl.
Qed.

(** The operator of a filter plays no role in [matchesOne]. *)
Lemma matchesOne_fuel_op n obj f m o1 o2 :
  matchesOne_fuel n obj (mkFilter f m o1) = matchesOne_fuel n obj (mkFilter f m o2).
Proof.
  revert obj f. induction n as [|n IH]; intros obj f; cbn; [done|].
  destruct (drop_fields _ _ _) as [[v sub]|]; [|done]. destruct v; try done.
  induction l as [|v l IHl]; cbn; [done|]. rewrite IHl. f_equal. by apply matches_item_ext.
Qed.
End op_lemmas.

(** * Theorems *)

(** A request answered from the cache gets the cached list whatever its
    projects-or-namespaces filter: only the first request, which fills the cache, is
    filtered. *)
Theorem cached_list_ignores_projects `{ObjectData, SliceSort} namespaceCache_Get lister accessID
    resourcePath (c : list_cache) q opts k items cont :
  ParseQuery q = Ok opts → getCacheKey accessID resourcePath opts = Ok k →
  Revision opts ≠ "" → c !! k = Some (items, cont) → pageSize (PaginationOpt opts) = 0%Z →
  Store_List namespaceCache_Get lister accessID resourcePath (Some c) q =
    Ok (mkAPIObjectList items (Z.of_nat (length items)) 0 cont (Revision opts), Some c).
Proof.
  intros Hq Hk Hrev Hc Hps. unfold Store_List. rewrite Hq. cbn [mbind outcome_bind with_key].
  rewrite Hk. cbn [mbind outcome_bind]. unfold get_list, cached_list.
  assert (ck_revision k = Revision opts) as ->.
  { unfold getCacheKey in Hk. apply outcome_bind_ok in Hk as (t & _ & [= <-]). done. }
  rewrite bool_decide_eq_true_2, Hc by done. cbn [mbind outcome_bind].
  unfold PaginateList. by rewrite Hps.
Qed.

(** Filters for a value and for its negation have the same text, hence the same cache
    key: a list cached for the one answers the other, though they keep disjoint
    objects. *)
Theorem filter_key_ignores_operator `{ObjectData} f m obj :
  let positive := mkOrFilter [mkFilter f m eq_op] in
  let negative := mkOrFilter [mkFilter f m notEq_op] in
  OrFilter_String positive = OrFilter_String negative ∧
  matchesAll obj [positive] = negb (matchesAll obj [negative]).
Proof.
  split; [done|]. unfold matchesAll, matchesAny, matchesOne. cbn [forallb existsb filters fop field].
  rewrite (matchesOne_fuel_op _ _ f m notEq_op eq_op).
  by destruct (matchesOne_fuel _ _ _).
Qed.

(** ** A cached list *)
Import Concrete ConcreteData.
Module StoreExample.
Definition pods : list object := ListProcessor.ListExample.pods.
Definition query (projects : list string) : Values :=
  <["projectsornamespaces" := projects]> {[ "revision" := ["7"] ]}.
Definition lister (_ : Z) (_ _ : string) : outcome string (list (list object) * string * string) :=
  Ok ([pods], "", "7").
Definition list_pods := Store_List (λ _, Some ∅) lister "access" "/v1/pods".
(** The cache after a request without a filter. *)
Definition cache : list_cache :=
  match list_pods (Some ∅) (query []) with Ok (_, Some c) => c | _ => ∅ end.
Definition opts : ListOptions :=
  match ParseQuery (query ["a"]) with Ok o => o | _ => mkListOptions 0 "" [] (mkSort [] [])
    (mkPagination 0 0) "" (mkPNFilter ∅ eq_op) end.
End StoreExample.

Lemma cached_list_ignores_projects_witness :
  StoreExample.list_pods (Some StoreExample.cache) (StoreExample.query ["a"]) =
    Ok (mkAPIObjectList StoreExample.pods 3 0 "" "7", Some StoreExample.cache).
Proof.
  apply (cached_list_ignores_projects (λ _, Some ∅) StoreExample.lister "access" "/v1/pods"
    StoreExample.cache (StoreExample.query ["a"]) StoreExample.opts
    (mkCacheKey 100000 "" "" "" 0 "access" "/v1/pods" "7") StoreExample.pods "");
    by vm_compute.
Defined.
