(* ===== verification/ProxyStore.v ===== *)
(** * Create, read, update and delete: pkg/stores/proxy and pkg/stores/partition

    A request passes the error store, the unformatter and the partition store and ends in
    a call of the Kubernetes client. [pkg/stores/proxy/proxy_store.go] holds the calls,
    [unformatter.go] and [error_wrapper.go] the wrappers, and [pkg/stores/partition/store.go]
    the conversion of the answer. [pkg/stores/sqlproxy/proxy_store.go] has the same text for
    [byID], [Create], [Update] and [Delete]. *)
From S2P Require Import Prelude GoLib GoValue KubeTypes ListProcessor Partitions.

(** Computations on the state of the cluster that may fail. *)
Definition ST (S A : Type) : Type := S → outcome api_error A * S.
#[export] Instance ST_ret {S} : MRet (ST S) := λ A a s, (Ok a, s).
#[export] Instance ST_bind {S} : MBind (ST S) := λ A B k m s,
  match m s with
  | (Ok a, s) => k a s
  | (Err e, s) => (Err e, s)
  | (Panic, s) => (Panic, s)
  end.
Definition lift {S A} (m : outcome api_error A) : ST S A := λ s, (m, s).
(** Runs the steps of a computation whose results are known. *)
Ltac run := unfold mbind, ST_bind, mret, ST_ret, lift; cbn beta iota.
(** The error of [m] is handled by [h]. *)
Definition catch {S A} (m : ST S A) (h : api_error → ST S A) : ST S A := λ s,
  match m s with (Err e, s) => h e s | r => r end.

Record APIRequest := mkRequest {
  Namespace : string;
  Method : string;
  Query : Values;
  Body : outcome api_error string;   (* what reading the body gives *)
  ContentType : string
}.
Record APISchema := mkSchema { S_ID : string; Namespaced : bool; S_GVK : GroupVersionKind }.

(** The dynamic types of a runtime.Object and of the object of a types.APIObject. *)
Inductive runtime_object :=
  | RNil
  | RUnstructured (o : object)
  | RStatus (message : string)     (* *metav1.Status *)
  | ROther.
Inductive any_object := AMap (o : object) | ARuntime (o : runtime_object).

Record APIObject := mkAPIObject {
  AO_Type : string;
  AO_ID : string;
  AO_Object : any_object;
  AO_Warnings : list Warning
}.
Definition empty_APIObject : APIObject := mkAPIObject "" "" (ARuntime RNil) [].

(** The code of rancher/apiserver and wrangler the stores use: the data of an API object,
    the reserved fields, the code of an invalid body, the names of the events, and
    meta.Accessor's name, namespace and resource version. *)
Class APIServer := {
  Data : any_object → option object;
  ReservedFields : gmap string bool;
  InvalidBodyContent : Z * string;
  ChangeAPIEvent : string;
  RemoveAPIEvent : string;
  CreateAPIEvent : string;
  Accessor : runtime_object → option (string * string * string)
}.
Class APIServerLaws `{ObjectData, ObjectEdit, APIServer} := {
  Data_map : ∀ o, Data (AMap o) = Some o;
  Data_unstructured : ∀ o, Data (ARuntime (RUnstructured o)) = Some o;
  (* the fields are id, type, links and actions *)
  reserved_plain : ∀ k k', is_Some (ReservedFields !! k) → is_Some (ReservedFields !! k') →
    k ≠ ("_" +:+ k');
  reserved_kubernetes : ∀ k, is_Some (ReservedFields !! k) →
    (k ∉ ["metadata"; "status"; "apiVersion"; "kind"]) ∧
    (("_" +:+ k) ∉ ["metadata"; "status"; "apiVersion"; "kind"]);
  Accessor_unstructured : ∀ o, Accessor (RUnstructured o) =
    Some (Obj_GetName o, Obj_GetNamespace o, Object_String o ["metadata"; "resourceVersion"])
}.

(** The options of a request of each verb. *)
Inductive verb := GetV | CreateV | UpdateV | PatchV | DeleteV.
Inductive PatchType := JSONPatchType | StrategicMergePatchType.

(** A header of a response that warns: its code, agent and text. *)
Definition headers : Type := list (Z * string * string).

(** The Kubernetes client: its calls on the cluster, with the warnings of each, and the
    codec of the parameters of a request. *)
Class Kubernetes := {
  cluster : Type;
  client : Type;
  options : verb → Type;
  no_options : ∀ v, options v;
  DecodeParameters : Values → ∀ v, outcome api_error (options v);
  k8s_Get : client → string → options GetV → ST cluster (object * headers);
  k8s_Create : client → object → options CreateV → ST cluster (object * headers);
  k8s_Update : client → object → options UpdateV → ST cluster (object * headers);
  k8s_Patch : client → string → PatchType → string → options PatchV →
    ST cluster (object * headers);
  k8s_Delete : client → string → options DeleteV → ST cluster headers
}.

(** What the store uses of a ClientGetter: the client for a request, a schema and a
    namespace, and the one whose answers are tables. *)
Class ClientGetter `{Kubernetes} := {
  Client : APIRequest → APISchema → string → outcome api_error client;
  TableClient : APIRequest → APISchema → string → outcome api_error client
}.

(** encoding/json, for an object: [None] is the nil map. *)
Class JSON := {
  Unmarshal : string → outcome api_error (option object);
  Marshal : option object → outcome api_error string
}.

(** ** Objects and rows *)
Section objects.
Context `{ObjectData, ObjectEdit, APIServer, MapRange}.

Definition HandleWarningHeader (w : list Warning) (h : Z * string * string) : list Warning :=
  w ++ [mkWarning h.1.1 h.1.2 h.2].
Definition warnings (hs : headers) : list Warning := foldl HandleWarningHeader [] hs.

Definition from_underscore (obj : object) (k : string) : object :=
  let v := obj !! ("_" +:+ k) in
  let obj := delete k (delete ("_" +:+ k) obj) in
  match v with Some v => <[k := v]> obj | None => obj end.
Definition moveFromUnderscore (obj : object) : object :=
  foldl from_underscore obj (range_keys ReservedFields).

Definition to_underscore (obj : object) (k : string) : object :=
  match obj !! k with
  | Some v => <["_" +:+ k := v]> (delete k obj)
  | None => obj
  end.
Definition moveToUnderscore (obj : object) (reservedFields : gmap string bool) : object :=
  foldl to_underscore obj (range_keys reservedFields).

Definition row_object (row : goval) : option object :=
  match row with
  | GMap m => match m !! "object" with
    | Some (GMap object) =>
        Some (PutValue object (default GNil (m !! "cells")) ["metadata"; "fields"])
    | _ => None
    end
  | _ => None
  end.
Definition tableToObjects (obj : object) : list object :=
  match obj !! "rows" with Some (GSlice rows) => omap row_object rows | _ => [] end.

Definition is_table (obj : object) : bool :=
  match obj !! "kind", obj !! "apiVersion" with
  | Some (GString kind), Some (GString v) =>
      bool_decide (kind = "Table" ∧ (v = "meta.k8s.io/v1" ∨ v = "meta.k8s.io/v1beta1"))
  | _, _ => false
  end.
Definition rowToObject (obj : object) : object :=
  if is_table obj then match tableToObjects obj with [item] => item | _ => obj end else obj.

Definition is_nil (obj : runtime_object) : bool := match obj with RNil => true | _ => false end.

End objects.

(** ** The calls: proxy_store.go *)
Section proxy.
Context `{ObjectData, ObjectEdit, APIServer, MapRange, KindNames, Kubernetes, !ClientGetter, JSON}.

Definition byID (apiOp : APIRequest) (schema : APISchema) (namespace id : string)
    : ST cluster (object * list Warning) :=
  k8sClient ← lift (TableClient apiOp schema namespace);
  opts ← lift (DecodeParameters (Query apiOp) GetV);
  '(obj, hs) ← k8s_Get k8sClient id opts;
  mret (rowToObject obj, warnings hs).

(** [input["apiVersion"], input["kind"] = gvk.ToAPIVersionAndKind()]. *)
Definition set_kind (schema : APISchema) (input : object) : object :=
  <["kind" := GString (ToAPIVersionAndKind (S_GVK schema)).2]>
    (<["apiVersion" := GString (ToAPIVersionAndKind (S_GVK schema)).1]> input).

(** [schema.ID[0:1] + "-"]; slicing an empty string panics. *)
Definition generate_name (schema : APISchema) (input : object) : outcome api_error object :=
  if bool_decide (types_Name input = "" ∧ Object_String input ["metadata"; "generateName"] = "")
  then match S_ID schema with
    | "" => Panic
    | String a _ => Ok (SetNested input (GString (String a "-")) ["metadata"; "generateName"])
    end
  else Ok input.

(** The namespace of a new object, and the object with it. *)
Definition set_namespace (apiOp : APIRequest) (schema : APISchema) (namespace : string)
    (input : object) : outcome api_error (string * object) :=
  if Namespaced schema && bool_decide (namespace = "") then
    if bool_decide (Namespace apiOp = "") then
      Err (EAPI InvalidBodyContent.1 InvalidBodyContent.2 "metadata.namespace is required")
    else Ok (Namespace apiOp,
             SetNested input (GString (Namespace apiOp)) ["metadata"; "namespace"])
  else Ok (namespace, input).

Definition Create (apiOp : APIRequest) (schema : APISchema) (params : APIObject)
    : ST cluster (object * list Warning) :=
  let input := default ∅ (Data (AO_Object params)) in
  let namespace := types_Namespace input in
  input ← lift (generate_name schema input);
  '(namespace, input) ← lift (set_namespace apiOp schema namespace input);
  k8sClient ← lift (Client apiOp schema namespace);
  opts ← lift (DecodeParameters (Query apiOp) CreateV);
  '(resp, hs) ← k8s_Create k8sClient (set_kind schema input) opts;
  mret (rowToObject resp, warnings hs).

(** [ioutil.ReadAll(io.LimitReader(body, 2<<20))]. *)
Definition read_body (body : string) : string := str_take (Z.to_nat (Z.shiftl 2 20)) body.

Definition patch_body (pType : PatchType) (bytes : string) : outcome api_error string :=
  match pType with
  | JSONPatchType => Ok bytes
  | StrategicMergePatchType => data ← Unmarshal bytes; Marshal (moveFromUnderscore <$> data)
  end.

Definition patch_type (apiOp : APIRequest) : PatchType :=
  if bool_decide (ContentType apiOp = "application/json-patch+json") then JSONPatchType
  else StrategicMergePatchType.

Definition patch (apiOp : APIRequest) (k8sClient : client) (id : string)
    : ST cluster (object * list Warning) :=
  bytes ← lift (read_body <$> Body apiOp);
  opts ← lift (DecodeParameters (Query apiOp) PatchV);
  bytes ← lift (patch_body (patch_type apiOp) bytes);
  '(resp, hs) ← k8s_Patch k8sClient id (patch_type apiOp) bytes opts;
  mret (resp, warnings hs).

(** The options of the request are decoded, but the call gets [metav1.UpdateOptions{}]. *)
Definition Update (apiOp : APIRequest) (schema : APISchema) (params : APIObject) (id : string)
    : ST cluster (object * list Warning) :=
  let input := default ∅ (Data (AO_Object params)) in
  k8sClient ← lift (Client apiOp schema (types_Namespace input));
  if bool_decide (Method apiOp = "PATCH") then patch apiOp k8sClient id
  else if bool_decide (Object_String input ["metadata"; "resourceVersion"] = "") then
    lift (Err (EText "metadata.resourceVersion is required for update"))
  else
    _ ← lift (DecodeParameters (Query apiOp) UpdateV);
    '(resp, hs) ← k8s_Update k8sClient (moveFromUnderscore (set_kind schema input))
      (no_options UpdateV);
    mret (rowToObject resp, warnings hs).

(** [validation.ErrorCode{Status: http.StatusNoContent}]. *)
Definition no_content : api_error := ECode 204 "".

(** Without an object and without an error when the parameters cannot be decoded. *)
Definition Delete (apiOp : APIRequest) (schema : APISchema) (id : string)
    : ST cluster (option object * list Warning) :=
  match DecodeParameters (Query apiOp) DeleteV with
  | Err _ => mret (None, [])
  | Panic => lift Panic
  | Ok opts =>
      k8sClient ← lift (Client apiOp schema (Namespace apiOp));
      hs ← k8s_Delete k8sClient id opts;
      '(obj, _) ← catch (byID apiOp schema (Namespace apiOp) id) (λ _, lift (Err no_content));
      mret (Some obj, warnings hs)
  end.
End proxy.

(** ** The answers: partition/store.go, unformatter.go, error_wrapper.go *)
Section answers.
Context `{ObjectData, ObjectEdit, APIServer, MapRange}.

(** [moveToUnderscore] replaces the object of an [*unstructured.Unstructured]. *)
Definition underscored (obj : runtime_object) (reservedFields : gmap string bool)
    : runtime_object :=
  match obj with
  | RUnstructured o => RUnstructured (moveToUnderscore o reservedFields)
  | _ => obj
  end.

Definition ToAPI (schema : APISchema) (obj : runtime_object) (warnings : list Warning)
    (reservedFields : gmap string bool) : APIObject :=
  if is_nil obj then empty_APIObject
  else
    let obj := underscored obj reservedFields in
    match Accessor obj with
    | None => mkAPIObject (S_ID schema) "" (ARuntime obj) []
    | Some (name, ns, _) =>
        let id := if bool_decide (ns ≠ "") then ns +:+ "/" +:+ name else name in
        mkAPIObject (S_ID schema) id (ARuntime obj) warnings
    end.

(** The events of a watch and of the API. *)
Inductive event_type := AddedE | ModifiedE | DeletedE | BookmarkE | ErrorE.
Record APIEvent := mkAPIEvent {
  AE_Name : string; AE_Object : APIObject; AE_Revision : string; AE_Error : option string }.

Definition event_name (ty : event_type) : string :=
  match ty with
  | DeletedE => RemoveAPIEvent
  | AddedE => CreateAPIEvent
  | ErrorE => "resource.error"
  | ModifiedE | BookmarkE => ChangeAPIEvent
  end.

(** An error event whose object is not a status dereferences nil. *)
Definition ToAPIEvent (schema : APISchema) (ty : event_type) (obj : runtime_object)
    : outcome api_error APIEvent :=
  match ty, obj with
  | ErrorE, RStatus message =>
      Ok (mkAPIEvent (event_name ty) empty_APIObject "" (Some message))
  | ErrorE, _ => Panic
  | _, _ =>
      (* [ToAPI] changes the object the event holds *)
      let revision := match Accessor (underscored obj ReservedFields) with
        | Some (_, _, rv) => rv | None => "" end in
      Ok (mkAPIEvent (event_name ty) (ToAPI schema obj [] ReservedFields) revision None)
  end.

Definition strip_condition (c : object) : object :=
  RemoveValue (RemoveValue (RemoveValue c ["error"]) ["transitioning"]) ["lastUpdateTime"].

Definition unformat_object (unst : object) : object :=
  let unst := RemoveValue unst ["metadata"; "fields"] in
  let unst := RemoveValue unst ["metadata"; "relationships"] in
  let unst := RemoveValue unst ["metadata"; "state"] in
  match GetValue unst ["status"; "conditions"] with
  | Some conditions =>
      let conditionsSlice := strip_condition <$> ToMapSlice conditions in
      PutValue unst (GSlice (GMap <$> conditionsSlice)) ["status"; "conditions"]
  | None => unst
  end.
Definition unformat (obj : APIObject) : APIObject :=
  match AO_Object obj with
  | AMap unst => mkAPIObject (AO_Type obj) (AO_ID obj) (AMap (unformat_object unst)) (AO_Warnings obj)
  | ARuntime _ => obj
  end.

Definition translateError (err : api_error) : api_error :=
  match err with EStatus code reason message => EAPI code reason message | _ => err end.
Definition translated {S A} (m : ST S A) : ST S A := catch m (λ err, lift (Err (translateError err))).
End answers.

(** ** The stores on top of the calls *)
Section stores.
Context `{ObjectData, ObjectEdit, APIServer, MapRange, KindNames, Kubernetes, !ClientGetter, JSON}.

(** The partition of a request for a single object is the passthrough partition, whose
    store is the proxy store. *)
Definition getStore (v : string) : ST cluster () :=
  lift (match Lookup v with Ok _ => Ok () | Err message => Err (EText message) | Panic => Panic end).

Definition answer (schema : APISchema) (r : object * list Warning) : APIObject :=
  ToAPI schema (RUnstructured r.1) r.2 ReservedFields.

Definition partition_ByID (apiOp : APIRequest) (schema : APISchema) (id : string)
    : ST cluster APIObject :=
  _ ← getStore "get";
  r ← byID apiOp schema (Namespace apiOp) id;
  mret (answer schema r).
Definition partition_Create (apiOp : APIRequest) (schema : APISchema) (data : APIObject)
    : ST cluster APIObject :=
  _ ← getStore "create"; r ← Create apiOp schema data; mret (answer schema r).
Definition partition_Update (apiOp : APIRequest) (schema : APISchema) (data : APIObject)
    (id : string) : ST cluster APIObject :=
  _ ← getStore "update"; r ← Update apiOp schema data id; mret (answer schema r).
Definition partition_Delete (apiOp : APIRequest) (schema : APISchema) (id : string)
    : ST cluster APIObject :=
  _ ← getStore "delete";
  '(obj, warnings) ← Delete apiOp schema id;
  mret (ToAPI schema (match obj with Some o => RUnstructured o | None => RNil end)
          warnings ReservedFields).

(** The store [NewProxyStore] builds. *)
Definition store_ByID (apiOp : APIRequest) (schema : APISchema) (id : string)
    : ST cluster APIObject := translated (partition_ByID apiOp schema id).
Definition store_Create (apiOp : APIRequest) (schema : APISchema) (data : APIObject)
    : ST cluster APIObject := translated (partition_Create apiOp schema data).
Definition store_Update (apiOp : APIRequest) (schema : APISchema) (data : APIObject)
    (id : string) : ST cluster APIObject :=
  translated (partition_Update apiOp schema (unformat data) id).
Definition store_Delete (apiOp : APIRequest) (schema : APISchema) (id : string)
    : ST cluster APIObject := translated (partition_Delete apiOp schema id).
End stores.

(** ** The calls of pkg/stores/sqlproxy/proxy_store.go

    The file repeats those of pkg/stores/proxy/proxy_store.go on single objects, with what they
    use, line by line. *)
Section sqlproxy.
Context `{ObjectData, ObjectEdit, APIServer, MapRange, KindNames, Kubernetes, !ClientGetter, JSON}.
Definition sqlproxy_HandleWarningHeader := HandleWarningHeader.
Definition sqlproxy_byID := byID.
(** [ByID] looks in the namespace of the request. *)
Definition sqlproxy_ByID (apiOp : APIRequest) (schema : APISchema) (id : string)
    : ST cluster (object * list Warning) := sqlproxy_byID apiOp schema (Namespace apiOp) id.
Definition sqlproxy_moveFromUnderscore := moveFromUnderscore.
Definition sqlproxy_rowToObject := rowToObject.
Definition sqlproxy_tableToObjects := tableToObjects.
Definition sqlproxy_Create := Create.
Definition sqlproxy_Update := Update.
Definition sqlproxy_Delete := Delete.
End sqlproxy.

(** ** The SQL partition store: sqlpartition/store.go

    Its partitioner has one store for all requests, so there is no lookup. *)
Section sql.
Context `{ObjectData, ObjectEdit, APIServer, MapRange, KindNames, Kubernetes, !ClientGetter, JSON}.

Definition sql_ByID (apiOp : APIRequest) (schema : APISchema) (id : string)
    : ST cluster APIObject :=
  r ← sqlproxy_ByID apiOp schema id; mret (answer schema r).
Definition sql_Create (apiOp : APIRequest) (schema : APISchema) (data : APIObject)
    : ST cluster APIObject := r ← sqlproxy_Create apiOp schema data; mret (answer schema r).
Definition sql_Update (apiOp : APIRequest) (schema : APISchema) (data : APIObject) (id : string)
    : ST cluster APIObject := r ← sqlproxy_Update apiOp schema data id; mret (answer schema r).
Definition sql_Delete (apiOp : APIRequest) (schema : APISchema) (id : string)
    : ST cluster APIObject :=
  '(obj, warnings) ← sqlproxy_Delete apiOp schema id;
  mret (ToAPI schema (match obj with Some o => RUnstructured o | None => RNil end)
          warnings ReservedFields).

(** The objects of a list already have an id: the field is not reserved for them. *)
Definition sqlReservedFields : gmap string bool := delete "id" ReservedFields.
Definition sql_List (schema : APISchema) (items : list object) (total : Z) (cont rev : string)
    : list APIObject * Z * string * string :=
  ((λ item, ToAPI schema (RUnstructured item) [] sqlReservedFields) <$> items, total, cont, rev).
End sql.

(** The two partition stores make the same calls and give the same answers for one object: the
    lookup of the store of a verb never fails. *)
Lemma sql_store_agrees `{ObjectData, ObjectEdit, APIServer, MapRange, KindNames, Kubernetes, !ClientGetter, JSON}
    apiOp schema data id s :
  sql_ByID apiOp schema id s = partition_ByID apiOp schema id s ∧
  sql_Create apiOp schema data s = partition_Create apiOp schema data s ∧
  sql_Update apiOp schema data id s = partition_Update apiOp schema data id s ∧
  sql_Delete apiOp schema id s = partition_Delete apiOp schema id s.
Proof. by split_and!. Qed.

(** * Lemmas *)
Lemma underscore_ne k : k ≠ ("_" +:+ k).
Proof.
  intros Hk. apply (f_equal String.length) in Hk. rewrite str_length_app in Hk. cbn in Hk. lia.
Qed.

Lemma underscore_inj k k' : ("_" +:+ k) = ("_" +:+ k') → k = k'.
Proof. by intros [= ->]. Qed.

(** ** Reserved fields, in any order of the range *)
Section underscore.
Implicit Types (o : object) (k j : string) (l : list string).

Definition plain_keys l : Prop := ∀ k k', k ∈ l → k' ∈ l → k ≠ ("_" +:+ k').

Lemma plain_keys_cons k l : plain_keys (k :: l) → plain_keys l.
Proof. intros Hl ????. by apply Hl; right. Qed.

Lemma from_underscore_lookup o k j :
  from_underscore o k !! j =
    if decide (j = k) then o !! ("_" +:+ k)
    else if decide (j = "_" +:+ k) then None else o !! j.
Proof.
  pose proof (underscore_ne k) as Hne. unfold from_underscore.
  destruct (decide (j = k)) as [->|Hk].
  - destruct (o !! ("_" +:+ k)); [by rewrite lookup_insert_eq|by rewrite lookup_delete_eq].
  - assert (delete k (delete ("_" +:+ k) o) !! j = delete ("_" +:+ k) o !! j) as Hd
      by by rewrite lookup_delete_ne.
    destruct (o !! ("_" +:+ k)); rewrite ?lookup_insert_ne, Hd by done;
      (destruct (decide _) as [->|]; [by rewrite lookup_delete_eq|by rewrite lookup_delete_ne]).
Qed.

Lemma to_underscore_lookup o k j :
  to_underscore o k !! j =
    if decide (j = k) then None
    else if decide (j = "_" +:+ k) then (if o !! k is Some v then Some v else o !! j) else o !! j.
Proof.
  pose proof (underscore_ne k) as Hne. unfold to_underscore.
  destruct (o !! k) eqn:Ho.
  - destruct (decide (j = k)) as [->|Hk].
    + by rewrite lookup_insert_ne, lookup_delete_eq.
    + destruct (decide _) as [->|]; [by rewrite lookup_insert_eq|].
      by rewrite lookup_insert_ne, lookup_delete_ne.
  - destruct (decide (j = k)) as [->|Hk]; [done|]. by destruct (decide _).
Qed.

Lemma foldl_from_lookup l o j : plain_keys l → NoDup l →
  foldl from_underscore o l !! j =
    if decide (j ∈ l) then o !! ("_" +:+ j)
    else if decide (j ∈ String.append "_" <$> l) then None else o !! j.
Proof.
  revert o. induction l as [|k l IH]; intros o Hl Hnd; cbn [foldl].
  { rewrite decide_False by (by intros ?%elem_of_nil). rewrite decide_False; [done|].
    by intros ?%elem_of_nil. }
  apply list.NoDup_cons in Hnd as [Hk Hnd]. rewrite IH by (eauto using plain_keys_cons).
  rewrite !from_underscore_lookup.
  destruct (decide (j ∈ l)) as [Hj|Hj].
  - rewrite (decide_True (P := j ∈ k :: l)) by by right.
    rewrite (decide_False (P := _ = k)), (decide_False (P := _ = _ +:+ k)); [done| |].
    + intros ->%underscore_inj. done.
    + intros Hjk. by apply (Hl k j); [left|right|].
  - destruct (decide (_ ∈ _ <$> l)) as [(k' & -> & Hk')%list_elem_of_fmap|Hno].
    + rewrite (decide_False (P := _ ∈ k :: l)), (decide_True (P := _ ∈ _ <$> k :: l)); [done| |].
      * cbn. right. apply list_elem_of_fmap. by exists k'.
      * intros [|]%elem_of_cons; [|done]. apply (Hl k k'); [left|by right|done].
    + destruct (decide (j = k)) as [->|Hjk]; [by rewrite decide_True by left|].
      rewrite (decide_False (P := j ∈ k :: l)) by (by intros [|]%elem_of_cons).
      destruct (decide (j = _)) as [->|Hju].
      * rewrite (decide_True (P := _ ∈ _ <$> k :: l)); [done|left].
      * rewrite (decide_False (P := _ ∈ _ <$> k :: l)); [done|]. by intros [|]%elem_of_cons.
Qed.

Lemma foldl_to_lookup l o j : plain_keys l → NoDup l →
  foldl to_underscore o l !! j =
    if decide (j ∈ l) then None
    else if decide (j ∈ String.append "_" <$> l)
      then (if o !! (str_drop 1 j) is Some v then Some v else o !! j)
      else o !! j.
Proof.
  revert o. induction l as [|k l IH]; intros o Hl Hnd; cbn [foldl].
  { rewrite decide_False by (by intros ?%elem_of_nil). rewrite decide_False; [done|].
    by intros ?%elem_of_nil. }
  apply list.NoDup_cons in Hnd as [Hk Hnd]. rewrite IH by (eauto using plain_keys_cons).
  destruct (decide (j ∈ l)) as [Hj|Hj]; [by rewrite (decide_True (P := j ∈ k :: l)) by by right|].
  destruct (decide (_ ∈ _ <$> l)) as [(k' & -> & Hk')%list_elem_of_fmap|Hno].
  - assert (("_" +:+ k') ∉ k :: l) as Hj'.
    { intros [|]%elem_of_cons; [|done]. apply (Hl k k'); [left|by right|done]. }
    rewrite (decide_False (P := _ ∈ k :: l)) by done.
    rewrite (decide_True (P := _ ∈ _ <$> k :: l)) by (right; apply list_elem_of_fmap; by exists k').
    cbn [str_drop String.append]. rewrite !to_underscore_lookup.
    assert (k' ≠ k) by by intros ->.
    rewrite (decide_False (P := k' = k)) by done.
    rewrite (decide_False (P := k' = _)).
    2: { intros ->. apply (Hl ("_" +:+ k) k); [by right|left|done]. }
    rewrite (decide_False (P := String _ k' = k)).
    2: { intros <-. apply (Hl ("_" +:+ k') k'); [left|by right|done]. }
    rewrite decide_False; [done|]. by intros ?%underscore_inj.
  - rewrite to_underscore_lookup.
    destruct (decide (j = k)) as [->|Hjk]; [by rewrite (decide_True (P := k ∈ k :: l)) by left|].
    rewrite (decide_False (P := j ∈ k :: l)) by (by intros [|]%elem_of_cons).
    destruct (decide (j = _)) as [->|Hju].
    + rewrite (decide_True (P := _ ∈ _ <$> k :: l)); [done|left].
    + rewrite (decide_False (P := _ ∈ _ <$> k :: l)); [done|]. by intros [|]%elem_of_cons.
Qed.
End underscore.

Section reserved.
Context `{APIServerLaws, MapRange}.
Implicit Types (o : object) (k j : string).

Lemma reserved_plain_keys : plain_keys (range_keys ReservedFields).
Proof. intros k k' Hk Hk'. apply reserved_plain; by apply elem_of_range_keys. Qed.

Lemma moveFromUnderscore_lookup o j :
  moveFromUnderscore o !! j =
    if decide (j ∈ range_keys ReservedFields) then o !! ("_" +:+ j)
    else if decide (j ∈ String.append "_" <$> range_keys ReservedFields) then None else o !! j.
Proof. apply foldl_from_lookup; [apply reserved_plain_keys|apply NoDup_range_keys]. Qed.

Lemma moveToUnderscore_lookup o j :
  moveToUnderscore o ReservedFields !! j =
    if decide (j ∈ range_keys ReservedFields) then None
    else if decide (j ∈ String.append "_" <$> range_keys ReservedFields)
      then (if o !! (str_drop 1 j) is Some v then Some v else o !! j)
      else o !! j.
Proof. apply foldl_to_lookup; [apply reserved_plain_keys|apply NoDup_range_keys]. Qed.

Lemma kubernetes_field_not_reserved k :
  k ∈ ["metadata"; "status"; "apiVersion"; "kind"] →
  (k ∉ range_keys ReservedFields) ∧ (k ∉ String.append "_" <$> range_keys ReservedFields).
Proof.
  intros Hk. split.
  - intros Hr%elem_of_range_keys. by destruct (reserved_kubernetes k Hr).
  - intros (k' & -> & Hr%elem_of_range_keys)%list_elem_of_fmap.
    by destruct (reserved_kubernetes k' Hr).
Qed.

(** The moves leave a field alone that Kubernetes itself defines. *)
Lemma moveToUnderscore_kubernetes o k :
  k ∈ ["metadata"; "status"; "apiVersion"; "kind"] →
  moveToUnderscore o ReservedFields !! k = o !! k.
Proof.
  intros [Hk1 Hk2]%kubernetes_field_not_reserved. rewrite moveToUnderscore_lookup.
  by rewrite !decide_False.
Qed.

Lemma reserved_underscored k :
  k ∈ range_keys ReservedFields → ("_" +:+ k) ∉ range_keys ReservedFields.
Proof. intros Hk Hk'. by apply (reserved_plain_keys _ _ Hk' Hk). Qed.
End reserved.

(** ** What the formatter and the API server add to an answer *)
Section decorated.
Context `{ObjectEditLaws, !ObjectDataLaws, !APIServer, !APIServerLaws, MapRange}.
Implicit Types (o x b m : object).

Definition plain_metadata m : object :=
  delete "state" (delete "relationships" (delete "fields" m)).

(** A condition without the details the API adds, and an object whose conditions have none. *)
Definition kept_condition (c : object) : object :=
  delete "error" (delete "transitioning" (delete "lastUpdateTime" c)).
Definition as_written o : object :=
  match o !! "status" with
  | Some (GMap s) =>
      match s !! "conditions" with
      | Some (GSlice l) =>
          <["status" := GMap (<["conditions" := GSlice ((λ v, match v with GMap c => GMap (kept_condition c) | _ => v end) <$> l)]> s)]> o
      | _ => o
      end
  | _ => o
  end.
(** The conditions, if there are any, are maps. *)
Definition map_conditions o : Prop :=
  (∀ s, o !! "status" = Some (GMap s) → s !! "conditions" = None) ∨
  (∃ s l, o !! "status" = Some (GMap s) ∧ s !! "conditions" = Some (GSlice (GMap <$> l))).

Lemma strip_kept c : strip_condition c = kept_condition c.
Proof.
  unfold strip_condition, kept_condition. rewrite !RemoveValue_one.
  rewrite (delete_delete _ "transitioning"), (delete_delete _ "lastUpdateTime"), (delete_delete _ "lastUpdateTime" "transitioning").
  rewrite (delete_delete _ "error" "transitioning"). done.
Qed.
Lemma as_written_other o k : k ≠ "status" → as_written o !! k = o !! k.
Proof. intros Hk. unfold as_written. repeat case_match; try done. by apply lookup_insert_ne. Qed.
Lemma as_written_none o : (∀ s, o !! "status" = Some (GMap s) → s !! "conditions" = None) → as_written o = o.
Proof. intros Ho. unfold as_written. destruct (o !! "status") as [[| | | | | | |s]|]; try done. by rewrite (Ho s eq_refl). Qed.
Lemma as_written_conditions o s l : o !! "status" = Some (GMap s) → s !! "conditions" = Some (GSlice (GMap <$> l)) →
  as_written o = <["status" := GMap (<["conditions" := GSlice (GMap <$> (kept_condition <$> l))]> s)]> o.
Proof. intros Hs Hc. unfold as_written. rewrite Hs, Hc. by rewrite <-!list_fmap_compose. Qed.
(** Objects whose conditions have no such details are kept as they are. *)
Lemma as_written_plain o : map_conditions o →
  (∀ s l c, o !! "status" = Some (GMap s) → s !! "conditions" = Some (GSlice l) → GMap c ∈ l →
     c !! "error" = None ∧ c !! "transitioning" = None ∧ c !! "lastUpdateTime" = None) → as_written o = o.
Proof.
  intros [Hno|(s & l & Hs & Hc)] Hplain; [by apply as_written_none|].
  rewrite (as_written_conditions o s l Hs Hc).
  assert (kept_condition <$> l = l) as ->; [|by rewrite (insert_id s), insert_id].
  assert (∀ c, c ∈ l → kept_condition c = c) as Hl.
  { intros c Hcl. unfold kept_condition. destruct (Hplain s _ c Hs Hc) as (He & Ht & Hu);
      [apply list_elem_of_fmap; by exists c|]. by rewrite !delete_id by (by rewrite ?lookup_delete_ne). }
  clear Hplain Hc. induction l as [|c l IH]; [done|]. cbn. rewrite (Hl c ltac:(by left)). f_equal. apply IH.
  intros c' Hc'. apply Hl. by right.
Qed.

(** [b] is the answer [x] with other values in the reserved fields, other columns, state and
    relationships in the metadata, and conditions with other details. *)
Record decorated x b : Prop := {
  decorated_metadata : ∃ m m', x !! "metadata" = Some (GMap m) ∧
    b !! "metadata" = Some (GMap m') ∧ plain_metadata m' = plain_metadata m;
  decorated_status :
    (b !! "status" = x !! "status" ∧
     ∀ s, x !! "status" = Some (GMap s) → s !! "conditions" = None) ∨
    (∃ s l l', x !! "status" = Some (GMap s) ∧
       s !! "conditions" = Some (GSlice (GMap <$> l)) ∧
       b !! "status" = Some (GMap (<["conditions" := GSlice (GMap <$> l')]> s)) ∧
       kept_condition <$> l' = kept_condition <$> l);
  decorated_other : ∀ k, k ∉ ["metadata"; "status"] → ReservedFields !! k = None →
    b !! k = x !! k
}.

(** An object of the cluster: of the kind of the schema, with its namespace and version, and
    without fields of the names the store uses. *)
Record stored `{KindNames} (schema : APISchema) (o : object) (ns : option string) : Prop := {
  stored_apiVersion : o !! "apiVersion" = Some (GString (ToAPIVersionAndKind (S_GVK schema)).1);
  stored_kind : o !! "kind" = Some (GString (ToAPIVersionAndKind (S_GVK schema)).2);
  stored_metadata : ∃ m rv, o !! "metadata" = Some (GMap m) ∧
    m !! "namespace" = GString <$> ns ∧ m !! "resourceVersion" = Some (GString rv) ∧ rv ≠ "" ∧
    m !! "fields" = None ∧ m !! "relationships" = None ∧ m !! "state" = None;
  stored_underscored : ∀ k, is_Some (ReservedFields !! k) → o !! ("_" +:+ k) = None
}.

Lemma GetValue_two_none o k k' :
  (∀ m, o !! k = Some (GMap m) → m !! k' = None) → GetValue o [k; k'] = None.
Proof.
  intros Ho. destruct (o !! k) as [v|] eqn:Hk.
  - assert ((∀ m, v ≠ GMap m) → GetValue o [k; k'] = None) as Hother.
    { intros Hv. apply GetValue_other; [|done]. intros m Hm. apply (Hv m). congruence. }
    destruct v as [| | | | | | |m]; try (by apply Hother).
    rewrite (GetValue_map _ _ _ _ Hk) by done. rewrite GetValue_one. by apply Ho.
  - apply GetValue_other; [|done]. intros m Hm. congruence.
Qed.

Lemma GetValue_two o k k' m : o !! k = Some (GMap m) → GetValue o [k; k'] = m !! k'.
Proof. intros Hk. by rewrite (GetValue_map _ _ _ _ Hk), GetValue_one. Qed.

Lemma RemoveValue_metadata b m' :
  b !! "metadata" = Some (GMap m') →
  RemoveValue (RemoveValue (RemoveValue b ["metadata"; "fields"]) ["metadata"; "relationships"])
    ["metadata"; "state"] = <["metadata" := GMap (plain_metadata m')]> b.
Proof.
  intros Hb. rewrite (RemoveValue_map b _ _ _ Hb).
  rewrite (RemoveValue_map _ _ "relationships" (delete "fields" m')) by apply lookup_insert_eq.
  rewrite insert_insert_eq.
  rewrite (RemoveValue_map _ _ _ (delete "relationships" (delete "fields" m')))
    by apply lookup_insert_eq.
  by rewrite insert_insert_eq.
Qed.

(** Storing the kind changes no other field. *)
Lemma set_kind_lookup `{KindNames} schema o k :
  k ∉ ["apiVersion"; "kind"] → set_kind schema o !! k = o !! k.
Proof. intros Hk. unfold set_kind. rewrite !lookup_insert_ne by set_solver. done. Qed.

Lemma set_kind_stored `{KindNames} schema o ns b k :
  stored schema o ns → k ∈ ["apiVersion"; "kind"] → set_kind schema b !! k = o !! k.
Proof.
  intros Ho Hk. unfold set_kind. destruct (decide (k = "kind")) as [->|Hne].
  - by rewrite lookup_insert_eq, (stored_kind _ _ _ Ho).
  - assert (k = "apiVersion") as -> by set_solver.
    by rewrite lookup_insert_ne, lookup_insert_eq, (stored_apiVersion _ _ _ Ho).
Qed.

(** The unformatter takes the additions back. *)
Lemma unformat_decorated x b m : decorated x b → x !! "metadata" = Some (GMap m) →
  unformat_object b !! "metadata" = Some (GMap (plain_metadata m)) ∧
  unformat_object b !! "status" = as_written x !! "status" ∧
  ∀ k, k ∉ ["metadata"; "status"] → unformat_object b !! k = b !! k.
Proof.
  intros [(m0 & m' & Hx & Hb & Hm) Hst _] Hx'. simplify_eq. unfold unformat_object.
  rewrite (RemoveValue_metadata _ _ Hb), Hm. set (b' := <["metadata" := _]> b).
  assert (b' !! "status" = b !! "status") as Hb's by by apply lookup_insert_ne.
  destruct Hst as [[Hs Hno]|(s & l & l' & Hs & Hc & Hbs & Hl)].
  - rewrite GetValue_two_none by (rewrite Hb's, Hs; apply Hno).
    split; [apply lookup_insert_eq|]. split; [rewrite as_written_none by done; congruence|].
    intros k Hk. apply lookup_insert_ne. set_solver.
  - rewrite (GetValue_two _ _ _ (<["conditions" := GSlice (GMap <$> l')]> s)) by congruence.
    assert (strip_condition <$> l' = kept_condition <$> l) as Hstrip.
    { rewrite <-Hl. apply list_fmap_ext. intros ? c _. apply strip_kept. }
    rewrite lookup_insert_eq, ToMapSlice_maps, Hstrip.
    rewrite (PutValue_map _ _ _ _ (<["conditions" := GSlice (GMap <$> l')]> s)) by congruence.
    rewrite insert_insert_eq. split.
    { rewrite lookup_insert_ne by done. apply lookup_insert_eq. }
    split; [by rewrite lookup_insert_eq, (as_written_conditions x s l), lookup_insert_eq by done|]. intros k Hk.
    rewrite lookup_insert_ne by set_solver. apply lookup_insert_ne. set_solver.
Qed.

(** The columns of the table go to the metadata of the answer. *)
Definition answered (o : object) (cells : goval) : object :=
  moveToUnderscore (PutValue o cells ["metadata"; "fields"]) ReservedFields.

Lemma answered_lookup o cells m k : o !! "metadata" = Some (GMap m) → k ≠ "metadata" →
  PutValue o cells ["metadata"; "fields"] !! k = o !! k.
Proof. intros Ho Hk. rewrite (PutValue_map _ _ _ _ _ Ho). by rewrite lookup_insert_ne. Qed.

Lemma answered_metadata o cells m : o !! "metadata" = Some (GMap m) →
  answered o cells !! "metadata" = Some (GMap (<["fields" := cells]> m)).
Proof.
  intros Hm. unfold answered. rewrite moveToUnderscore_kubernetes by left.
  by rewrite (PutValue_map _ _ _ _ _ Hm), lookup_insert_eq.
Qed.

(** What the update sends is the object itself, but for details of its conditions. *)
Lemma update_sends `{KindNames} schema o ns cells b :
  stored schema o ns → decorated (answered o cells) b →
  moveFromUnderscore (set_kind schema (unformat_object b)) = as_written o.
Proof.
  intros Ho Hb. destruct (stored_metadata _ _ _ Ho) as (m & rv & Hm & _ & _ & _ & Hf & Hr & Hs).
  pose proof (answered_metadata _ cells _ Hm) as Hx.
  destruct (unformat_decorated _ _ _ Hb Hx) as (Hum & Hus & Huk).
  assert (plain_metadata (<["fields" := cells]> m) = m) as Hpm.
  { unfold plain_metadata. rewrite delete_insert_id by done.
    by rewrite (delete_id m "relationships"), delete_id by done. }
  assert (as_written (answered o cells) !! "status" = as_written o !! "status") as Hws.
  { assert (answered o cells !! "status" = o !! "status") as Hxs.
    { unfold answered. rewrite moveToUnderscore_kubernetes by set_solver. by apply (answered_lookup _ _ m). }
    unfold as_written. rewrite Hxs. repeat case_match; rewrite ?lookup_insert_eq; congruence. }
  assert (∀ k, is_Some (ReservedFields !! k) → as_written o !! k = o !! k ∧ as_written o !! ("_" +:+ k) = o !! ("_" +:+ k)) as Hwo.
  { intros k Hk. destruct (reserved_kubernetes k Hk) as [Hn1 Hn2]. split; apply as_written_other; set_solver. }
  apply map_eq. intros j. rewrite moveFromUnderscore_lookup.
  destruct (decide (j ∈ range_keys ReservedFields)) as [Hj|Hj].
  - assert (is_Some (ReservedFields !! j)) as Hrj by by apply elem_of_range_keys.
    destruct (reserved_kubernetes j Hrj) as [Hnj Hnu].
    assert (ReservedFields !! ("_" +:+ j) = None) as Hru.
    { apply eq_None_not_Some. intros Hsome%elem_of_range_keys.
      by apply (reserved_underscored j Hj). }
    rewrite set_kind_lookup, Huk, (decorated_other _ _ Hb) by (done || set_solver).
    unfold answered. rewrite moveToUnderscore_lookup.
    rewrite decide_False by by apply reserved_underscored.
    rewrite decide_True by (apply list_elem_of_fmap; by exists j).
    cbn [str_drop String.append].
    pose proof (stored_underscored _ _ _ Ho _ Hrj) as Hno. cbn in Hno. rewrite !(answered_lookup _ _ _ _ Hm) by set_solver.
    rewrite (proj1 (Hwo j Hrj)), Hno. by destruct (o !! j).
  - destruct (decide (j ∈ _ <$> _)) as [(k & -> & Hk%elem_of_range_keys)%list_elem_of_fmap|Hu].
    { by rewrite (proj2 (Hwo k Hk)), (stored_underscored _ _ _ Ho). }
    destruct (decide (j = "status")) as [->|Hjs]; [by rewrite set_kind_lookup, Hus by set_solver|].
    rewrite as_written_other by done.
    destruct (decide (j ∈ ["apiVersion"; "kind"])) as [Hak|Hak].
    { by apply (set_kind_stored schema o ns). }
    rewrite set_kind_lookup by done.
    destruct (decide (j = "metadata")) as [->|Hjm]; [by rewrite Hum, Hpm, Hm|].
    assert (answered o cells !! j = o !! j) as Hxj.
    { unfold answered. rewrite moveToUnderscore_lookup, !decide_False by done.
      by apply (answered_lookup _ _ m). }
    rewrite Huk, (decorated_other _ _ Hb); [done|set_solver|..|set_solver].
    apply eq_None_not_Some. by intros Hsome%elem_of_range_keys.
Qed.

Lemma decorated_conditions `{KindNames} schema o ns cells b : stored schema o ns → decorated (answered o cells) b →
  map_conditions o.
Proof.
  intros Ho Hb. destruct (stored_metadata _ _ _ Ho) as (m & rv & Hm & _).
  assert (answered o cells !! "status" = o !! "status") as Hxs.
  { unfold answered. rewrite moveToUnderscore_kubernetes by set_solver. by apply (answered_lookup _ _ m). }
  unfold map_conditions. rewrite <-Hxs. destruct (decorated_status _ _ Hb) as [[_ Hno]|(s & l & _ & Hs & Hc & _)]; [by left|].
  right. by exists s, l.
Qed.

(** Its namespace and version are those of the object. *)
Lemma update_keeps `{KindNames} schema o ns cells b :
  stored schema o ns → decorated (answered o cells) b →
  types_Namespace (unformat_object b) = default "" ns ∧
  Object_String (unformat_object b) ["metadata"; "resourceVersion"] ≠ "".
Proof.
  intros Ho Hb.
  destruct (stored_metadata _ _ _ Ho) as (m & rv & Hm & Hns & Hrv & Hne & Hf & Hr & Hs).
  pose proof (answered_metadata _ cells _ Hm) as Hx.
  destruct (unformat_decorated _ _ _ Hb Hx) as (Hum & _ & _).
  assert (∀ k, k ∉ ["fields"; "relationships"; "state"] →
    GetValue (unformat_object b) ["metadata"; k] = m !! k) as Hget.
  { intros k Hk. rewrite (GetValue_two _ _ _ _ Hum). unfold plain_metadata.
    rewrite !lookup_delete_ne by set_solver. apply lookup_insert_ne. set_solver. }
  split.
  - rewrite types_Namespace_at. specialize (Hget "namespace" ltac:(set_solver)).
    rewrite Hns in Hget. destruct ns as [ns|]; [by apply Object_String_get|].
    by apply Object_String_none.
  - rewrite (Object_String_get _ _ rv); [done|]. rewrite Hget by set_solver. done.
Qed.
End decorated.

Section requests.
Context `{ObjectEditLaws, !ObjectDataLaws, !APIServer, !APIServerLaws, MapRange, KindNames,
  Kubernetes, !ClientGetter, JSON}.
Implicit Types (apiOp : APIRequest) (schema : APISchema) (o : object) (c : cluster).

(** A table of one row: the object and its columns. *)
Definition one_row (t o : object) (cells : goval) : Prop :=
  is_table t = true ∧ ∃ row, t !! "rows" = Some (GSlice [GMap row]) ∧
    row !! "object" = Some (GMap o) ∧ default GNil (row !! "cells") = cells.

Lemma rowToObject_one_row t o cells :
  one_row t o cells → rowToObject t = PutValue o cells ["metadata"; "fields"].
Proof.
  intros (Ht & row & Hrows & Ho & Hc). unfold rowToObject, tableToObjects.
  rewrite Ht, Hrows. cbn. by rewrite Ho, Hc.
Qed.

(** A read that finds a row answers the object with its columns. *)
Lemma store_ByID_row apiOp schema id c c' tc opts t o cells hs :
  TableClient apiOp schema (Namespace apiOp) = Ok tc →
  DecodeParameters (Query apiOp) GetV = Ok opts →
  k8s_Get tc id opts c = (Ok (t, hs), c') → one_row t o cells →
  store_ByID apiOp schema id c =
    (Ok (answer schema (PutValue o cells ["metadata"; "fields"], warnings hs)), c').
Proof.
  intros Hc Hd Hg Ht. unfold store_ByID, translated, catch, partition_ByID, getStore, byID.
  rewrite Hc, Hd. run. cbn [Lookup]. rewrite Hg. by rewrite (rowToObject_one_row _ _ _ Ht).
Qed.

Lemma answer_object schema o ws : AO_Object (answer schema (o, ws)) =
  ARuntime (RUnstructured (moveToUnderscore o ReservedFields)).
Proof. unfold answer, ToAPI. cbn. by rewrite Accessor_unstructured. Qed.

(** The call an update makes. *)
Lemma store_Update_call apiOp schema data id b cl opts :
  AO_Object data = AMap b → Method apiOp ≠ "PATCH" →
  Client apiOp schema (types_Namespace (unformat_object b)) = Ok cl →
  Object_String (unformat_object b) ["metadata"; "resourceVersion"] ≠ "" →
  DecodeParameters (Query apiOp) UpdateV = Ok opts →
  ∀ c, store_Update apiOp schema data id c =
    translated ('(resp, hs) ← k8s_Update cl
        (moveFromUnderscore (set_kind schema (unformat_object b))) (no_options UpdateV);
      mret (answer schema (rowToObject resp, warnings hs))) c.
Proof.
  intros Hb Hm Hc Hrv Hd c. unfold store_Update, translated, catch, partition_Update, getStore,
    Update, unformat. rewrite Hb. cbn [AO_Object]. rewrite Data_map. cbn [from_option Datatypes.id].
  rewrite Hc, bool_decide_eq_false_2, bool_decide_eq_false_2 by done. rewrite Hd. run.
  cbn [Lookup String.eqb]. by destruct (k8s_Update _ _ _ _) as [[[resp hs]|e|] c'].
Qed.

(** The metadata a create sends: a prefix for the name when it has none, and the namespace
    of the request when a namespaced object has none. *)
Definition created_metadata apiOp schema (a : ascii) (name gen ns : option string)
    (m : object) : object :=
  let m := if bool_decide (default "" name = "" ∧ default "" gen = "")
    then <["generateName" := GString (String a "-")]> m else m in
  if Namespaced schema && bool_decide (default "" ns = "")
  then <["namespace" := GString (Namespace apiOp)]> m else m.

Lemma Object_String_optional o m k s :
  o !! "metadata" = Some (GMap m) → m !! k = GString <$> s →
  Object_String o ["metadata"; k] = default "" s.
Proof.
  intros Hm Hk. destruct s as [s|].
  - apply Object_String_get. by rewrite (GetValue_two _ _ _ _ Hm).
  - apply Object_String_none. by rewrite (GetValue_two _ _ _ _ Hm).
Qed.

Lemma generate_name_metadata schema a r o m name gen :
  S_ID schema = String a r → o !! "metadata" = Some (GMap m) →
  m !! "name" = GString <$> name → m !! "generateName" = GString <$> gen →
  generate_name schema o = Ok (<["metadata" := GMap
    (if bool_decide (default "" name = "" ∧ default "" gen = "")
     then <["generateName" := GString (String a "-")]> m else m)]> o).
Proof.
  intros Ha Hm Hn Hg. unfold generate_name. rewrite types_Name_at.
  rewrite (Object_String_optional _ _ _ _ Hm Hn), (Object_String_optional _ _ _ _ Hm Hg), Ha.
  destruct (bool_decide _); [|by rewrite insert_id]. by rewrite (SetNested_map _ _ _ _ _ Hm).
Qed.
End requests.

(** * Theorems *)

(** C7: Reading and writing back: when the Kubernetes API answers a read with
    the row of a stored object, without fields of the names the store uses, the client gets the object with its columns
    and the reserved fields renamed; if it sends that back with PUT, whatever the formatter and the API server put into
    the reserved fields, the state, the relationships and the fields error, transitioning and lastUpdateTime of the
    conditions, the update calls Kubernetes with the stored object, of whose conditions these three fields are removed;
    an object whose conditions have none of them is sent exactly as it was stored. *)
Theorem read_modify_write `{ObjectEditLaws, !ObjectDataLaws, !APIServer, !APIServerLaws,
    MapRange, KindNames, Kubernetes, !ClientGetter, JSON}
    (get : APIRequest) (schema : APISchema) id (c c' : cluster) tc opts t o cells hs ns :
  stored schema o ns →
  TableClient get schema (Namespace get) = Ok tc → DecodeParameters (Query get) GetV = Ok opts →
  k8s_Get tc id opts c = (Ok (t, hs), c') → one_row t o cells →
  ∃ shown x, store_ByID get schema id c = (Ok shown, c') ∧
    AO_Object shown = ARuntime (RUnstructured x) ∧ AO_Warnings shown = warnings hs ∧
    ∀ put data b cl uopts c2, AO_Object data = AMap b → decorated x b →
      Method put ≠ "PATCH" → Client put schema (default "" ns) = Ok cl →
      DecodeParameters (Query put) UpdateV = Ok uopts →
      store_Update put schema data id c2 =
        translated ('(resp, hs) ← k8s_Update cl (as_written o) (no_options UpdateV);
          mret (answer schema (rowToObject resp, warnings hs))) c2 ∧
      ((∀ s l c, o !! "status" = Some (GMap s) → s !! "conditions" = Some (GSlice l) → GMap c ∈ l →
          c !! "error" = None ∧ c !! "transitioning" = None ∧ c !! "lastUpdateTime" = None) → as_written o = o).
Proof.
  intros Ho Htc Hopts Hget Ht. eexists _, (answered o cells). split.
  { by eapply store_ByID_row. }
  split; [by rewrite answer_object|]. split.
  { unfold answer, ToAPI. cbn. by rewrite Accessor_unstructured. }
  intros put data b cl uopts c2 Hdata Hb Hm Hcl Hu.
  destruct (update_keeps _ _ _ _ _ Ho Hb) as [Hns Hrv].
  rewrite (store_Update_call put schema data id b cl uopts) by (done || by rewrite Hns).
  rewrite (update_sends _ _ _ _ _ Ho Hb). split; [done|].
  apply as_written_plain. by eapply decorated_conditions.
Qed.

(** The options of an update are decoded and then left out of the call: with and without
    a dry run, a field manager or a field validation in the query, an update does the same. *)
Theorem update_ignores_options `{ObjectData, ObjectEdit, APIServer, MapRange, KindNames,
    Kubernetes, !ClientGetter, JSON}
    (apiOp : APIRequest) (schema : APISchema) (data : APIObject) id (q : Values) opts opts' :
  let apiOp' := mkRequest (Namespace apiOp) (Method apiOp) q (Body apiOp) (ContentType apiOp) in
  Method apiOp ≠ "PATCH" → (∀ ns, Client apiOp' schema ns = Client apiOp schema ns) →
  DecodeParameters (Query apiOp) UpdateV = Ok opts → DecodeParameters q UpdateV = Ok opts' →
  ∀ c, store_Update apiOp' schema data id c = store_Update apiOp schema data id c.
Proof.
  intros apiOp' Hm Hc Hd Hd' c. unfold store_Update, translated, catch, partition_Update, Update.
  subst apiOp'. cbn [Method Query]. rewrite Hc, Hd, Hd'. by rewrite !bool_decide_eq_false_2 by done.
Qed.

(** A delete whose parameters cannot be decoded succeeds with an empty answer and deletes
    nothing. *)
Theorem delete_undecodable_succeeds `{ObjectData, ObjectEdit, APIServer, MapRange, KindNames,
    Kubernetes, !ClientGetter, JSON} (apiOp : APIRequest) (schema : APISchema) id e c :
  DecodeParameters (Query apiOp) DeleteV = Err e →
  store_Delete apiOp schema id c = (Ok empty_APIObject, c).
Proof.
  intros Hd. unfold store_Delete, translated, catch, partition_Delete, Delete. rewrite Hd. done.
Qed.

(** A create of a namespaced object without a namespace in a request without one is
    refused before anything is called. Otherwise it makes one call, for the namespace of the
    object or else of the request, whose object is the one of the request with the kind of the
    schema, a generated name when it has no name, that namespace, and no other change. *)
Theorem create_sends `{ObjectEditLaws, !ObjectDataLaws, !APIServer, !APIServerLaws, MapRange,
    KindNames, Kubernetes, !ClientGetter, JSON}
    (apiOp : APIRequest) (schema : APISchema) (data : APIObject) a r o m name gen ns c :
  AO_Object data = AMap o → S_ID schema = String a r → o !! "metadata" = Some (GMap m) →
  m !! "name" = GString <$> name → m !! "generateName" = GString <$> gen →
  m !! "namespace" = GString <$> ns →
  if bool_decide (Namespaced schema ∧ default "" ns = "" ∧ Namespace apiOp = "") then
    store_Create apiOp schema data c =
      (Err (EAPI InvalidBodyContent.1 InvalidBodyContent.2 "metadata.namespace is required"), c)
  else ∀ cl opts,
    Client apiOp schema (if Namespaced schema && bool_decide (default "" ns = "")
      then Namespace apiOp else default "" ns) = Ok cl →
    DecodeParameters (Query apiOp) CreateV = Ok opts →
    store_Create apiOp schema data c =
      translated ('(resp, hs) ← k8s_Create cl
          (set_kind schema (<["metadata" := GMap (created_metadata apiOp schema a name gen ns m)]> o))
          opts;
        mret (answer schema (rowToObject resp, warnings hs))) c.
Proof.
  intros Hd Ha Hm Hn Hg Hns.
  assert (types_Namespace o = default "" ns) as Hons.
  { rewrite types_Namespace_at. by apply (Object_String_optional _ m). }
  unfold store_Create, translated, catch, partition_Create, getStore, Create.
  rewrite Hd, Data_map. cbn [from_option Datatypes.id].
  rewrite (generate_name_metadata _ _ _ _ _ _ _ Ha Hm Hn Hg), Hons.
  unfold set_namespace, created_metadata.
  set (m1 := if bool_decide _ then <["generateName" := _]> m else m).
  destruct (Namespaced schema); cbn [andb].
  - destruct (decide (default "" ns = "")) as [He|He].
    + rewrite (bool_decide_eq_true_2 (default "" ns = "")) by done.
      destruct (decide (Namespace apiOp = "")) as [Hr|Hr].
      { rewrite !bool_decide_eq_true_2 by done. done. }
      rewrite !bool_decide_eq_false_2 by naive_solver. intros cl opts Hcl Hopts.
      run. cbn [Lookup].
      rewrite (SetNested_map _ _ _ _ m1) by apply lookup_insert_eq. rewrite insert_insert_eq.
      rewrite Hcl, Hopts. by destruct (k8s_Create _ _ _ _) as [[[]| |] ?].
    + rewrite !(bool_decide_eq_false_2 _) by naive_solver. intros cl opts Hcl Hopts.
      run. cbn [Lookup]. rewrite Hcl, Hopts. by destruct (k8s_Create _ _ _ _) as [[[]| |] ?].
  - rewrite bool_decide_eq_false_2 by naive_solver. intros cl opts Hcl Hopts.
    run. cbn [Lookup]. rewrite Hcl, Hopts. by destruct (k8s_Create _ _ _ _) as [[[]| |] ?].
Qed.

(** * A cluster of one object, to evaluate the requests *)
Module ProxyExample.
Import ConcreteData ConcreteEdit.
#[local] Existing Instance canonical_range.

Definition server : APIServer := {|
  Data := λ x, match x with
    | AMap o | ARuntime (RUnstructured o) => Some o | ARuntime _ => None end;
  ReservedFields := {["id" := true; "type" := true; "links" := true; "actions" := true]};
  InvalidBodyContent := (422%Z, "InvalidBodyContent");
  ChangeAPIEvent := "resource.change";
  RemoveAPIEvent := "resource.remove";
  CreateAPIEvent := "resource.create";
  Accessor := λ x, match x with
    | RUnstructured o => Some (string_at o ["metadata"; "name"],
        string_at o ["metadata"; "namespace"], string_at o ["metadata"; "resourceVersion"])
    | _ => None end
|}.
#[local] Existing Instance server.

Definition reserved_names : list string := ["id"; "type"; "links"; "actions"].
Lemma reserved_field k : is_Some (ReservedFields !! k) → k ∈ reserved_names.
Proof.
  intros [v Hv]. cbn in Hv. unfold reserved_names.
  repeat (apply lookup_insert_Some in Hv as [[<- _]|[_ Hv]];
    [apply (bool_decide_unpack _); vm_compute; exact I|]).
  apply lookup_singleton_Some in Hv as [<- _]. apply (bool_decide_unpack _). vm_compute. exact I.
Qed.

Lemma server_laws : APIServerLaws.
Proof.
  split; cbn; try done.
  - intros k k' Hk%reserved_field Hk'%reserved_field. revert k' Hk'. apply list.Forall_forall.
    revert k Hk. apply list.Forall_forall. repeat constructor; discriminate.
  - intros k Hk%reserved_field. revert k Hk. apply list.Forall_forall.
    repeat constructor; try (apply (bool_decide_unpack _); vm_compute; exact I).
Qed.
#[local] Existing Instance server_laws.

Definition row (o : object) : object :=
  {["kind" := GString "Table"; "apiVersion" := GString "meta.k8s.io/v1";
    "rows" := GSlice [GMap {["object" := GMap o; "cells" := GSlice [GString "app"; GString "3d"]]}]]}.

(** The cluster holds one object; an option says whether a call is a dry run. *)
Definition kubernetes : Kubernetes := {|
  cluster := object;
  client := string;
  options := λ _, bool;
  no_options := λ _, false;
  DecodeParameters := λ q _, match Values_Get q "dryRun" with
    | "" => Ok false | "All" => Ok true | _ => Err (EText "invalid dryRun") end;
  k8s_Get := λ _ _ _ c, (Ok (row c, []), c);
  k8s_Create := λ _ o dry c, (Ok (o, []), if dry then c else o);
  k8s_Update := λ _ o dry c, (Ok (o, []), if dry then c else o);
  k8s_Patch := λ _ _ _ _ _ c, (Ok (c, []), c);
  k8s_Delete := λ _ _ dry c, (Ok [(299%Z, "-", "gone")], if dry then c else ∅)
|}.
#[local] Existing Instance kubernetes.
Definition getter : ClientGetter :=
  {| Client := λ _ _ ns, Ok ns; TableClient := λ _ _ ns, Ok ns |}.
#[local] Existing Instance getter.
Definition json : JSON := {| Unmarshal := λ _, Ok None; Marshal := λ _, Ok "null" |}.
#[local] Existing Instance json.

Definition schema : APISchema := mkSchema "secret" true (mkGVK "" "v1" "Secret").
Definition request (meth dryRun : string) : APIRequest :=
  mkRequest "default" meth (if decide (dryRun = "") then ∅ else {["dryRun" := [dryRun]]}) (Ok "") "".

Definition metadata (version : string) : object :=
  {["name" := GString "app"; "namespace" := GString "default";
    "resourceVersion" := GString version]}.
(** A secret has a field of a reserved name: its type. *)
Definition secret : object :=
  {["apiVersion" := GString "v1"; "kind" := GString "Secret"; "type" := GString "Opaque";
    "metadata" := GMap (metadata "7")]}.
(** What a client gets and sends back: the formatter has added the state, the API server the
    id, the links and the type of the schema. *)
Definition body : object :=
  {["apiVersion" := GString "v1"; "kind" := GString "Secret"; "_type" := GString "Opaque";
    "type" := GString "secret"; "id" := GString "default/app"; "links" := GMap ∅;
    "metadata" := GMap (<["fields" := GSlice []]> (<["state" := GMap ∅]> (metadata "7")))]}.
Definition data : APIObject := mkAPIObject "secret" "default/app" (AMap body) [].

Lemma secret_stored : stored schema secret (Some "default").
Proof.
  split; [done|done| |].
  - exists (metadata "7"), "7". by vm_compute.
  - intros k Hk%reserved_field. revert k Hk. apply list.Forall_forall. by repeat constructor.
Qed.

Lemma body_decorated : decorated (answered secret (GSlice [GString "app"; GString "3d"])) body.
Proof.
  split.
  - eexists _, _. split; [vm_compute; reflexivity|]. split; [vm_compute; reflexivity|].
    vm_compute. reflexivity.
  - left. split; [by vm_compute|]. intros s Hs. vm_compute in Hs. discriminate.
  - intros k Hk Hr.
    assert (k ∉ ["metadata"; "status"] ++ reserved_names) as Hno.
    { intros Hin; apply elem_of_app in Hin as [|Hin]; [done|]. 
      assert (Forall (λ k, is_Some (ReservedFields !! k)) reserved_names) as Hall
        by (repeat constructor; by eexists).
      rewrite list.Forall_forall in Hall. destruct (Hall k Hin). congruence. }
    rewrite <- (lookup_foldr_delete_not_elem_of body _ k Hno).
    rewrite <- (lookup_foldr_delete_not_elem_of (answered _ _) _ k Hno).
    f_equal.
Qed.

(** The update of what was read stores the object again. *)
Lemma read_modify_write_witness :
  (∃ shown x, store_ByID (request "GET" "") schema "app" secret = (Ok shown, secret) ∧
    AO_Object shown = ARuntime (RUnstructured x) ∧ AO_Warnings shown = [] ∧
    store_Update (request "PUT" "") schema data "app" ∅ =
      translated ('(resp, hs) ← k8s_Update "default" secret (no_options UpdateV);
          mret (answer schema (rowToObject resp, warnings hs))) ∅) ∧
  (store_Update (request "PUT" "") schema data "app" ∅).2 = secret.
Proof.
  split; [|vm_compute; reflexivity].
  destruct (read_modify_write (H7 := kubernetes) (H8 := getter) (request "GET" "") schema "app" secret secret "default" false (row secret)
    secret (GSlice [GString "app"; GString "3d"]) [] (Some "default") secret_stored
    eq_refl eq_refl eq_refl) as (shown & x & Hs & Hx & Hw & Hput).
  { split; [done|]. eexists. split; [done|]. by split. }
  exists shown, x. split; [exact Hs|]. split; [exact Hx|]. split; [exact Hw|].
  apply (Hput (request "PUT" "") data body "default" false); [done| |discriminate|done|done].
  assert (x = answered secret (GSlice [GString "app"; GString "3d"])) as ->; [|apply body_decorated].
  vm_compute in Hs. injection Hs as <-. cbn in Hx. injection Hx as <-. vm_compute. reflexivity.
Defined.

(** A dry run writes like any other update. *)
Lemma update_ignores_options_witness :
  (∀ c, store_Update (request "PUT" "All") schema data "app" c =
        store_Update (request "PUT" "") schema data "app" c) ∧
  (store_Update (request "PUT" "All") schema data "app" ∅).2 = secret.
Proof.
  split; [|vm_compute; reflexivity].
  apply (update_ignores_options (H4 := kubernetes) (request "PUT" "") schema data "app"
    {["dryRun" := ["All"]]} false true); [discriminate|done|done|done].
Defined.

Lemma delete_undecodable_succeeds_witness :
  store_Delete (request "DELETE" "yes") schema "app" secret = (Ok empty_APIObject, secret).
Proof. apply (delete_undecodable_succeeds (H4 := kubernetes) _ _ _ (EText "invalid dryRun")). reflexivity. Defined.

(** Without a name the object gets a prefix for one, and the namespace of the request. *)
Definition unnamed : object := {["metadata" := GMap ∅; "data" := GMap ∅]}.
Lemma create_sends_witness :
  store_Create (request "POST" "") schema (mkAPIObject "" "" (AMap unnamed) []) ∅ =
  translated ('(resp, hs) ← k8s_Create "default"
      (set_kind schema (<["metadata" := GMap {["generateName" := GString "s-";
        "namespace" := GString "default"]}]> unnamed)) false;
    mret (answer schema (rowToObject resp, warnings hs))) ∅.
Proof.
  apply (create_sends (H7 := kubernetes) (H8 := getter) (request "POST" "") schema (mkAPIObject "" "" (AMap unnamed) []) "s"
    "ecret" unnamed ∅ None None None ∅ eq_refl eq_refl eq_refl eq_refl eq_refl eq_refl
    "default" false eq_refl eq_refl).
Defined.
End ProxyExample.
