(* ===== verification/ProxyWatch.v ===== *)
(** * Watches of the proxy store: pkg/stores/partition/store.go, pkg/stores/proxy

    A watch starts a goroutine for each partition of the user ([Watch] of
    pkg/stores/partition/store.go). The store of the partition writes its namespace to the
    request they all share and opens a watch of Kubernetes with a client for the namespace it
    reads from there (rbac_store.go, [Watch] and [WatchNames] of proxy_store.go); the events,
    and those of changed relationships, go to the client as events of the API. *)
From S2P Require Import Prelude GoLib GoValue KubeTypes ListProcessor Partitions ProxyStore.

Record watch_event := mkEvent { e_Type : event_type; e_Object : runtime_object }.

(** ** The events of one watch: proxy_store.go *)
Section events.
Context `{ObjectData, ObjectEdit, APIServer, MapRange}.
(* the text of an error *)
Context (error_text : api_error → string).

Definition returnErr (message : string) : watch_event := mkEvent ErrorE (RStatus message).

(** [listAndWatch] passes an event of Kubernetes on, an error only when it has a status. *)
Definition forward (event : watch_event) : option watch_event :=
  match e_Type event, e_Object event with
  | ErrorE, RStatus message => Some (returnErr ("event watch error: " +:+ message))
  | ErrorE, _ => None
  | ty, RUnstructured unstr => Some (mkEvent ty (RUnstructured (rowToObject unstr)))
  | ty, o => Some (mkEvent ty o)
  end.

(** What the watch of Kubernetes gives: events until it is closed, or one error. *)
Definition watched (schema : ProxyStore.APISchema) (watcher : outcome api_error (list watch_event))
    : list watch_event :=
  match watcher with
  | Ok es => omap forward es
  | Err err => [returnErr ("stopping watch for " +:+ S_ID schema +:+ ": " +:+ error_text err +:+
                           ": " +:+ error_text err)]
  | Panic => []
  end.

(** An object whose relationship changed, as the user gets it. *)
Definition notified (obj : outcome api_error object) : option watch_event :=
  match obj with
  | Ok obj => Some (mkEvent ModifiedE (RUnstructured (rowToObject obj)))
  | Err err => Some (returnErr ("notifier watch error: " +:+ error_text err +:+ ": " +:+ error_text err))
  | Panic => None
  end.

(** [WatchNames] passes errors and the events of named objects on. *)
Definition names_event (names : gset string) (item : watch_event) : bool :=
  match e_Type item with
  | ErrorE => true
  | _ => match Accessor (e_Object item) with
    | Some (name, _, _) => bool_decide (name ∈ names)
    | None => false
    end
  end.

(** [byNameOrNamespaceStore.Watch]: the client of the administrator watches for names. *)
Definition by_names (p : Partition) : bool := negb (P_Passthrough p || P_All p).
Definition partition_event (p : Partition) (item : watch_event) : bool :=
  if by_names p then names_event (P_Names p) item else true.
End events.

(** ** The goroutines of the partitions: partition/store.go *)
Section watch.
Context `{ObjectData, ObjectEdit, APIServer, MapRange}.
Context (error_text : api_error → string).
(* the watch of Kubernetes of a client, of the administrator or the user, for a namespace: the
   client may fail; and the objects of the notifications, as the user gets them *)
Context (table_client : bool → string → option api_error).
Context (k8s_Watch : bool → string → outcome api_error (list watch_event)).
Context (notifications : string → list (outcome api_error object)).
Context (schema : ProxyStore.APISchema).

(** Where the goroutine of a partition is: not started; with the namespace written; watching,
    with the events to come and, when it reads the notifications, those to come; at its end. *)
Inductive goroutine :=
  | GStart
  | GNamed
  | GWatching (events : list watch_event) (rels : option (list watch_event))
  | GDone.

Record state := mkState {
  ws_Namespace : string;            (* of the shared request *)
  ws_cancelled : bool;
  ws_goroutines : list goroutine;
  ws_sent : list APIEvent;          (* what the client has read from the response *)
  ws_crashed : bool
}.

Definition init (apiOp : Partitions.APIRequest) (ps : list Partition) : state :=
  mkState (apiOp_Namespace apiOp) false (replicate (length ps) GStart) [] false.

Definition set_goroutine (i : nat) (g : goroutine) (s : state) : state :=
  mkState (ws_Namespace s) (ws_cancelled s) (<[i := g]> (ws_goroutines s)) (ws_sent s) (ws_crashed s).

Definition write_namespace (i : nat) (p : Partition) (s : state) : state :=
  mkState (if P_Passthrough p then ws_Namespace s else P_Namespace p) (ws_cancelled s)
    (<[i := GNamed]> (ws_goroutines s)) (ws_sent s) (ws_crashed s).

(** [defer cancel()]: the first goroutine that ends, ends the others. *)
Definition finish (i : nat) (s : state) : state :=
  mkState (ws_Namespace s) true (<[i := GDone]> (ws_goroutines s)) (ws_sent s) (ws_crashed s).

(** The client and the watch for the namespace of the shared request. The notifications are read
    only when the watch could be opened. *)
Definition open_watch (i : nat) (p : Partition) (s : state) : state :=
  match table_client (by_names p) (ws_Namespace s) with
  | Some _ => finish i s              (* the error is not looked at *)
  | None =>
      let watcher := k8s_Watch (by_names p) (ws_Namespace s) in
      set_goroutine i (GWatching (watched error_text schema watcher)
        match watcher with Ok _ => None | _ => Some [] end) s
  end.

(** [response <- ToAPIEvent(apiOp, schema, i)], for an event that passes the filter. *)
Definition respond (p : Partition) (item : watch_event) (s : state) : state :=
  if partition_event p item then
    match ToAPIEvent schema (e_Type item) (e_Object item) with
    | Ok ev => mkState (ws_Namespace s) (ws_cancelled s) (ws_goroutines s) (ws_sent s ++ [ev])
                 (ws_crashed s)
    | _ => mkState (ws_Namespace s) (ws_cancelled s) (ws_goroutines s) (ws_sent s) true
    end
  else s.

Inductive step (ps : list Partition) (s : state) : state → Prop :=
  | step_name i p : ps !! i = Some p → ws_goroutines s !! i = Some GStart →
      step ps s (write_namespace i p s)
  | step_open i p : ps !! i = Some p → ws_goroutines s !! i = Some GNamed →
      step ps s (open_watch i p s)
  | step_notifier i es : ws_goroutines s !! i = Some (GWatching es None) →
      step ps s (set_goroutine i (GWatching es
        (Some (omap (notified error_text) (notifications (ws_Namespace s))))) s)
  | step_event i p e es rels : ps !! i = Some p →
      ws_goroutines s !! i = Some (GWatching (e :: es) rels) →
      step ps s (respond p e (set_goroutine i (GWatching es rels) s))
  | step_rel i p es e rels : ps !! i = Some p →
      ws_goroutines s !! i = Some (GWatching es (Some (e :: rels))) →
      step ps s (respond p e (set_goroutine i (GWatching es (Some rels)) s))
  | step_end i es rels : ws_goroutines s !! i = Some (GWatching es rels) →
      es = [] ∨ ws_cancelled s = true → step ps s (finish i s)
  | step_cancel : step ps s (mkState (ws_Namespace s) true (ws_goroutines s) (ws_sent s) (ws_crashed s)).

Definition reachable (apiOp : Partitions.APIRequest) (ps : list Partition) : state → Prop :=
  rtc (step ps) (init apiOp ps).

(** * Specification *)

(** What a partition passes to the client of the watch. *)
Definition responds (p : Partition) (e : watch_event) (ev : APIEvent) : Prop :=
  partition_event p e = true ∧ ToAPIEvent schema (e_Type e) (e_Object e) = Ok ev.

(** The events of the watch a partition opens when it reads [ns] as its namespace. *)
Definition opened (p : Partition) (ns : string) (e : watch_event) : Prop :=
  table_client (by_names p) ns = None ∧ e ∈ watched error_text schema (k8s_Watch (by_names p) ns).

(** The same without the definitions of the stores: an event of the cluster as it is passed on, its rows made objects and
    the text of an error extended, *)
Inductive passed_on : watch_event → watch_event → Prop :=
  | passed_status message :
      passed_on (mkEvent ErrorE (RStatus message)) (mkEvent ErrorE (RStatus ("event watch error: " +:+ message)))
  | passed_object ty o : ty ≠ ErrorE →
      passed_on (mkEvent ty (RUnstructured o)) (mkEvent ty (RUnstructured (rowToObject o)))
  | passed_other ty o : ty ≠ ErrorE → (∀ u, o ≠ RUnstructured u) → passed_on (mkEvent ty o) (mkEvent ty o).
(** an event of the watch of a namespace, made as the administrator for a partition of names, *)
Definition from_watch (p : Partition) (ns : string) (e : watch_event) : Prop :=
  let admin := negb (P_Passthrough p || P_All p) in
  table_client admin ns = None ∧
  ((∃ es e', k8s_Watch admin ns = Ok es ∧ e' ∈ es ∧ passed_on e' e) ∨
   ∃ err, k8s_Watch admin ns = Err err ∧
     e = mkEvent ErrorE (RStatus ("stopping watch for " +:+ S_ID schema +:+ ": " +:+ error_text err +:+ ": " +:+ error_text err))).
(** an event for a notification, *)
Definition from_notification (ns : string) (e : watch_event) : Prop :=
  ∃ r, r ∈ notifications ns ∧
    ((∃ o, r = Ok o ∧ e = mkEvent ModifiedE (RUnstructured (rowToObject o))) ∨
     ∃ err, r = Err err ∧
       e = mkEvent ErrorE (RStatus ("notifier watch error: " +:+ error_text err +:+ ": " +:+ error_text err))).
(** what a partition lets through: everything, or errors and objects with one of its names, *)
Definition lets_through (p : Partition) (e : watch_event) : Prop :=
  P_Passthrough p = true ∨ P_All p = true ∨ e_Type e = ErrorE ∨
  ∃ name ns rv, Accessor (e_Object e) = Some (name, ns, rv) ∧ name ∈ P_Names p.
(** and the event of the API for it. *)
Definition event_shown (e : watch_event) (ev : APIEvent) : Prop :=
  AE_Name ev = match e_Type e with
    | AddedE => CreateAPIEvent | DeletedE => RemoveAPIEvent | ErrorE => "resource.error" | ModifiedE | BookmarkE => ChangeAPIEvent end ∧
  match e_Type e with
  | ErrorE => ∃ message, e_Object e = RStatus message ∧ AE_Error ev = Some message
  | _ => AE_Error ev = None ∧ AE_Object ev = ToAPI schema (e_Object e) [] ReservedFields
  end.

Lemma forward_passed e' e : forward e' = Some e ↔ passed_on e' e.
Proof.
  split.
  - destruct e' as [ty o]. unfold forward. cbn. intros He. destruct ty, o; simplify_eq; by constructor.
  - intros [message|ty o Hty|ty o Hty Ho]; unfold forward; cbn; [done|by destruct ty|].
    destruct ty, o; try done; by edestruct Ho.
Qed.
Lemma opened_from_watch p ns e : opened p ns e ↔ from_watch p ns e.
Proof. clear notifications.
  unfold opened, from_watch, by_names. apply and_iff_compat_l. destruct (k8s_Watch _ _) as [es|err|]; cbn.
  - rewrite list_elem_of_omap. setoid_rewrite forward_passed. naive_solver.
  - rewrite list_elem_of_singleton. unfold returnErr. naive_solver.
  - split; [by intros ?%not_elem_of_nil|naive_solver].
Qed.
Lemma notified_from ns e : e ∈ omap (notified error_text) (notifications ns) ↔ from_notification ns e.
Proof.
  unfold from_notification. rewrite list_elem_of_omap. split.
  - intros (r & Hr & He). exists r. split; [done|]. destruct r; cbn in He; simplify_eq; eauto.
  - intros (r & Hr & [(o & -> & ->)|(err & -> & ->)]); eexists; by split.
Qed.
Lemma partition_event_lets p e : partition_event p e = true ↔ lets_through p e.
Proof.
  unfold partition_event, lets_through, by_names, names_event.
  destruct (P_Passthrough p); cbn; [by split; [left|]|]. destruct (P_All p); cbn; [by split; [right; left|]|].
  assert (match Accessor (e_Object e) with Some (name, _, _) => bool_decide (name ∈ P_Names p) | None => false end = true ↔
    ∃ name ns rv, Accessor (e_Object e) = Some (name, ns, rv) ∧ name ∈ P_Names p) as Hname.
  { destruct (Accessor (e_Object e)) as [[[name ns] rv]|]; [rewrite bool_decide_eq_true|]; split.
    - intros Hn. by exists name, ns, rv.
    - by intros (name' & ns' & rv' & [= <- <- <-] & Hn).
    - done.
    - by intros (name' & ns' & rv' & ? & _). }
  destruct (e_Type e) eqn:Ht; try (rewrite Hname; split; [auto|by intros [?|[?|[?|?]]]]).
  split; [auto|done].
Qed.
Lemma ToAPIEvent_shown e ev : ToAPIEvent schema (e_Type e) (e_Object e) = Ok ev → event_shown e ev.
Proof.
  unfold ToAPIEvent, event_shown. destruct (e_Type e), (e_Object e); intros [= <-]; cbn; eauto.
Qed.

(** The namespace a partition means to watch. *)
Definition own_namespace (apiOp : Partitions.APIRequest) (p : Partition) : string :=
  if P_Passthrough p then apiOp_Namespace apiOp else P_Namespace p.

(** A partition reads its own namespace, or the one that another partition has written. *)
Definition may_read (p q : Partition) : Prop := q = p ∨ P_Passthrough q = false.

(** * Lemmas *)
Lemma watched_responds watcher e : e ∈ watched error_text schema watcher →
  ∃ ev, ToAPIEvent schema (e_Type e) (e_Object e) = Ok ev.
Proof.
  destruct watcher as [es|err|]; cbn.
  - intros (e' & _ & He)%list_elem_of_omap. unfold forward in He.
    destruct (e_Type e'), (e_Object e'); simplify_eq; by eexists.
  - intros ->%list_elem_of_singleton. by eexists.
  - by intros ?%not_elem_of_nil.
Qed.

Lemma notified_responds (l : list (outcome api_error object)) e : e ∈ omap (notified error_text) l →
  ∃ ev, ToAPIEvent schema (e_Type e) (e_Object e) = Ok ev.
Proof.
  intros (r & _ & He)%list_elem_of_omap. destruct r; cbn in He; simplify_eq; by eexists.
Qed.

Section runs.
Context (apiOp : Partitions.APIRequest) (ps : list Partition).
Abbreviation own := (own_namespace apiOp).

(** An event a partition sends: of its watch of a namespace it may read, or of the notifications
    of one. *)
Definition sends (p : Partition) (ev : APIEvent) : Prop :=
  ∃ e q, q ∈ ps ∧ may_read p q ∧ responds p e ev ∧
    (opened p (own q) e ∨ e ∈ omap (notified error_text) (notifications (own q))).

Definition queue_ok (p : Partition) (e : watch_event) : Prop :=
  ∃ q, q ∈ ps ∧ may_read p q ∧
    (opened p (own q) e ∨ e ∈ omap (notified error_text) (notifications (own q))).

Definition goroutine_ok (p : Partition) (g : goroutine) : Prop :=
  match g with
  | GWatching es rels => Forall (queue_ok p) (es ++ default [] rels)
  | _ => True
  end.

(** Which namespace the shared request holds once goroutines have started. *)
Definition namespace_ok (s : state) : Prop :=
  (ws_Namespace s = apiOp_Namespace apiOp ∧
   ∀ i p, ps !! i = Some p → ws_goroutines s !! i ≠ Some GStart → P_Passthrough p = true) ∨
  ∃ q, q ∈ ps ∧ P_Passthrough q = false ∧ P_Namespace q = ws_Namespace s.

Definition state_ok (s : state) : Prop :=
  length (ws_goroutines s) = length ps ∧ ws_crashed s = false ∧ namespace_ok s ∧
  (∀ i p g, ps !! i = Some p → ws_goroutines s !! i = Some g → goroutine_ok p g) ∧
  ∀ ev, ev ∈ ws_sent s → ∃ p, p ∈ ps ∧ sends p ev.

Lemma namespace_read s i p : namespace_ok s → ps !! i = Some p →
  ws_goroutines s !! i ≠ Some GStart → ∃ q, q ∈ ps ∧ may_read p q ∧ own q = ws_Namespace s.
Proof.
  intros [[Hns Hp]|(q & Hq & Hpass & Hns)] Hi Hg; unfold own_namespace.
  - exists p. rewrite (Hp i p Hi Hg). split_and!; [by eapply list_elem_of_lookup_2|by left|done].
  - exists q. rewrite Hpass. split_and!; [done|by right|done].
Qed.

Lemma queue_responds p e : queue_ok p e → ∃ ev, ToAPIEvent schema (e_Type e) (e_Object e) = Ok ev.
Proof.
  intros (q & _ & _ & [[_ He]|He]); [by eapply watched_responds|by eapply notified_responds].
Qed.

(** The goroutine [i] has started, and goes on to [g]. *)
Lemma set_goroutine_ok s i p g g' : state_ok s → ps !! i = Some p →
  ws_goroutines s !! i = Some g → g ≠ GStart → goroutine_ok p g' → state_ok (set_goroutine i g' s).
Proof.
  intros (Hlen & Hc & Hns & Hg & Hsent) Hp Hi Hne Hg'. unfold state_ok. cbn.
  split_and!; [by rewrite length_insert|done| | |done].
  - destruct Hns as [[Hns Hstart]|Hns]; [left|by right]. split; [done|].
    intros j q Hq Hj. cbn in Hj. destruct (decide (i = j)) as [<-|Hij].
    + apply (Hstart i); [done|congruence].
    + rewrite list_lookup_insert_ne in Hj by done. by apply (Hstart j).
  - intros j q h Hq [(<- & <- & _)|[_ Hj]]%list_lookup_insert_Some; [by simplify_eq|by eapply Hg].
Qed.

Lemma cancel_ok s b : state_ok s →
  state_ok (mkState (ws_Namespace s) b (ws_goroutines s) (ws_sent s) (ws_crashed s)).
Proof. done. Qed.

Lemma finish_ok s i p g : state_ok s → ps !! i = Some p → ws_goroutines s !! i = Some g →
  g ≠ GStart → state_ok (finish i s).
Proof. intros Hok Hp Hi Hne. by apply (cancel_ok (set_goroutine i GDone s)), (set_goroutine_ok s i p g). Qed.

Lemma respond_ok s p e : state_ok s → p ∈ ps → queue_ok p e → state_ok (respond p e s).
Proof.
  intros (Hlen & Hc & Hns & Hg & Hsent) Hp He. unfold respond.
  destruct (partition_event p e) eqn:Hpe; [|done].
  destruct (queue_responds p e He) as [ev Hev]. rewrite Hev. unfold state_ok. cbn.
  split_and!; [done..|]. intros ev' [Hin| ->%list_elem_of_singleton]%elem_of_app; [by apply Hsent|].
  exists p. split; [done|]. destruct He as (q & Hq & Hr & He). by exists e, q.
Qed.

Lemma watch_step_ok s s' : step ps s s' → state_ok s → state_ok s'.
Proof.
  intros Hstep Hok. pose proof Hok as (Hlen & Hc & Hns & Hg & Hsent).
  destruct Hstep as [i p Hp Hi|i p Hp Hi|i es Hi|i p e es rels Hp Hi|i p es e rels Hp Hi|i es rels Hi _|].
  - unfold state_ok. cbn. split_and!; [by rewrite length_insert|done| | |done].
    + unfold namespace_ok. cbn. destruct (P_Passthrough p) eqn:Hpass.
      * destruct Hns as [[Hns Hstart]|Hns]; [left|by right]. split; [done|]. intros j q Hq Hj.
        destruct (decide (i = j)) as [<-|Hij]; [by simplify_eq|].
        rewrite list_lookup_insert_ne in Hj by done. by apply (Hstart j).
      * right. exists p. split; [by eapply list_elem_of_lookup_2|done].
    + intros j q h Hq [(<- & <- & _)|[_ Hj]]%list_lookup_insert_Some; [done|by eapply Hg].
  - destruct (namespace_read s i p Hns Hp) as (q & Hq & Hr & Hown); [by rewrite Hi|].
    unfold open_watch. destruct (table_client _ _) eqn:Ht; [by eapply finish_ok|].
    eapply set_goroutine_ok; [done..|]. cbn. apply list.Forall_app. split.
    + apply list.Forall_forall. intros e He. exists q. split_and!; [done..|]. left.
      unfold opened. by rewrite Hown.
    + destruct (k8s_Watch _ _); constructor.
  - destruct (lookup_lt_is_Some_2 ps i) as [p Hp]; [rewrite <- Hlen; by eapply lookup_lt_Some|].
    destruct (namespace_read s i p Hns Hp) as (q & Hq & Hr & Hown); [by rewrite Hi|].
    eapply set_goroutine_ok; [done..|]. pose proof (Hg _ _ _ Hp Hi) as Hes. cbn in *.
    rewrite app_nil_r in Hes. apply list.Forall_app. split; [done|].
    apply list.Forall_forall. intros e He. exists q. split_and!; [done..|]. right. by rewrite Hown.
  - pose proof (Hg _ _ _ Hp Hi) as Hes. cbn in Hes. apply list.Forall_cons in Hes as [He Hes].
    apply respond_ok; [by eapply (set_goroutine_ok s i p)|by apply (list_elem_of_lookup_2 _ i)|done].
  - pose proof (Hg _ _ _ Hp Hi) as Hes. cbn in Hes.
    apply list.Forall_app in Hes as [Hes [He Hrels]%list.Forall_cons].
    apply respond_ok; [|by apply (list_elem_of_lookup_2 _ i)|done].
    eapply set_goroutine_ok; [done..|]. by apply list.Forall_app.
  - destruct (lookup_lt_is_Some_2 ps i) as [p Hp]; [rewrite <- Hlen; by eapply lookup_lt_Some|].
    by eapply finish_ok.
  - done.
Qed.

Lemma watch_init_ok : state_ok (init apiOp ps).
Proof.
  unfold state_ok. cbn. split_and!; [by rewrite length_replicate|done| | |].
  - left. split; [done|]. intros i p Hp Hi. cbn in Hi.
    rewrite lookup_replicate_2 in Hi by by eapply lookup_lt_Some. done.
  - by intros i p g _ [-> _]%lookup_replicate.
  - by intros ev ?%not_elem_of_nil.
Qed.

Lemma watch_reachable_ok s : reachable apiOp ps s → state_ok s.
Proof.
  intros Hs. unfold reachable in Hs. pose proof watch_init_ok as Hok. induction Hs; [done|].
  apply IHHs. by eapply watch_step_ok.
Qed.

(** ** Runs that send a given event *)
Lemma respond_goroutines p e s : ws_goroutines (respond p e s) = ws_goroutines s.
Proof. unfold respond. by repeat case_match. Qed.
Lemma respond_sends p e ev s : responds p e ev → ev ∈ ws_sent (respond p e s).
Proof.
  intros [Hpe Hev]. unfold respond. rewrite Hpe, Hev. cbn. apply elem_of_app. right. left.
Qed.

Lemma consume i p e ev es rest rels s : ps !! i = Some p →
  ws_goroutines s !! i = Some (GWatching (es ++ e :: rest) rels) → responds p e ev →
  ∃ s', rtc (step ps) s s' ∧ ev ∈ ws_sent s'.
Proof.
  intros Hp Hi Hev. revert s Hi. induction es as [|e' es IH]; intros s Hi; cbn in Hi.
  - exists (respond p e (set_goroutine i (GWatching rest rels) s)).
    split; [|by apply respond_sends]. by apply rtc_once, step_event.
  - destruct (IH (respond p e' (set_goroutine i (GWatching (es ++ e :: rest) rels) s))) as (s' & Hs & Hin).
    { rewrite respond_goroutines. cbn. apply list_lookup_insert_eq. by eapply lookup_lt_Some. }
    exists s'. split; [|done]. eapply rtc_l; [|exact Hs]. by apply (step_event _ _ i p).
Qed.

(** Before the goroutine of [p] opens its watch, that of [q] writes its namespace. *)
Lemma named p q i : ps !! i = Some p → q ∈ ps → may_read p q →
  ∃ s, reachable apiOp ps s ∧ ws_goroutines s !! i = Some GNamed ∧ ws_Namespace s = own q.
Proof.
  intros Hp [j Hq]%list_elem_of_lookup Hr. pose proof (lookup_lt_Some _ _ _ Hp) as Hi.
  set (s1 := write_namespace i p (init apiOp ps)).
  assert (Hs1 : reachable apiOp ps s1).
  { apply rtc_once. apply (step_name _ _ i p Hp). cbn. by apply lookup_replicate_2. }
  assert (Hg1 : ws_goroutines s1 !! i = Some GNamed).
  { cbn. apply list_lookup_insert_eq. by rewrite length_replicate. }
  destruct (decide (q = p)) as [->|Hqp].
  { exists s1. split_and!; [done..|]. unfold own_namespace. by destruct (P_Passthrough p) eqn:Hpass; cbn; rewrite Hpass. }
  assert (Hpass : P_Passthrough q = false) by (destruct Hr; [congruence|done]).
  assert (Hij : i ≠ j) by (intros ->; congruence).
  exists (write_namespace j q s1). split_and!.
  - eapply rtc_r; [exact Hs1|]. apply (step_name _ _ j q Hq). cbn.
    rewrite list_lookup_insert_ne by done. apply lookup_replicate_2. by eapply lookup_lt_Some.
  - cbn. rewrite list_lookup_insert_ne by done. exact Hg1.
  - unfold own_namespace. cbn. by rewrite Hpass.
Qed.

Lemma opened_sent p q e ev : p ∈ ps → q ∈ ps → may_read p q → opened p (own q) e →
  responds p e ev → ∃ s, reachable apiOp ps s ∧ ev ∈ ws_sent s.
Proof.
  intros [i Hp]%list_elem_of_lookup Hq Hr [Ht He] Hev.
  destruct (named p q i Hp Hq Hr) as (s & Hs & Hg & Hns).
  apply list_elem_of_split in He as (es & rest & He).
  destruct (consume i p e ev es rest
    match k8s_Watch (by_names p) (own q) with Ok _ => None | _ => Some [] end (open_watch i p s))
    as (s' & Hs' & Hin); [done| |done|].
  - unfold open_watch. rewrite Hns, Ht, He. cbn. apply list_lookup_insert_eq. by eapply lookup_lt_Some.
  - exists s'. split; [|done]. unfold reachable in *; etrans; [exact Hs|]. eapply rtc_l; [|exact Hs'].
    by apply (step_open _ _ i p).
Qed.
End runs.
End watch.

(** * Theorems *)

(** C13: The client of a watch gets, in every interleaving of the partitions' goroutines, only
    events of watches and notifications, converted for the API, which a partition lets through: all of them, or
    for a partition of names the errors and the objects of these names; and no event makes the conversion panic. But a partition opens its watch for
    whichever namespace the shared request holds then: for any two partitions there is a run in
    which one of them, with the client of the administrator when it is one of names, sends the
    events of the other one's namespace. *)
Theorem proxy_watch_sends `{ObjectData, ObjectEdit, APIServer, MapRange} error_text table_client
    k8s_Watch notifications (schema : ProxyStore.APISchema) apiOp ps :
  let reach := reachable error_text table_client k8s_Watch notifications schema apiOp ps in
  (∀ s, reach s → ws_crashed s = false ∧
    ∀ ev, ev ∈ ws_sent s → ∃ p q e, p ∈ ps ∧ q ∈ ps ∧ may_read p q ∧ lets_through p e ∧ event_shown schema e ev ∧
      (from_watch error_text table_client k8s_Watch schema p (own_namespace apiOp q) e ∨
       from_notification error_text notifications (own_namespace apiOp q) e)) ∧
  ∀ p q e ev, p ∈ ps → q ∈ ps → may_read p q → lets_through p e →
    from_watch error_text table_client k8s_Watch schema p (own_namespace apiOp q) e →
    ToAPIEvent schema (e_Type e) (e_Object e) = Ok ev → ∃ s, reach s ∧ ev ∈ ws_sent s.
Proof.
  intros reach. split.
  - intros s (_ & Hc & _ & _ & Hsent)%watch_reachable_ok. split; [done|]. intros ev Hev.
    destruct (Hsent ev Hev) as (p & Hp & e & q & Hq & Hr & [Hl Hev'] & He). exists p, q, e.
    rewrite opened_from_watch, notified_from in He.
    split_and!; [done..|by apply partition_event_lets|by apply ToAPIEvent_shown|done].
  - intros p q e ev Hp Hq Hr Hl He Hev. apply (opened_sent _ _ _ _ _ _ _ p q e ev); try done.
    + by apply opened_from_watch.
    + split; [by apply partition_event_lets|done].
Qed.

(** * A user who may watch the pod "web" of "team" and the pod "cron" of "ops" *)
Module ProxyWatchExample.
Import ConcreteData ConcreteEdit.
#[local] Existing Instance canonical_range.
#[local] Existing Instance ProxyExample.server.

Definition pod (ns name : string) : object :=
  {["metadata" := GMap {["name" := GString name; "namespace" := GString ns]}]}.
Definition partitions : list Partition :=
  [mkPartition "team" false false {["web"]}; mkPartition "ops" false false {["cron"]}].
(** Everything is there twice; only the administrator may watch. *)
Definition watch (admin : bool) (ns : string) : outcome api_error (list watch_event) :=
  if admin then Ok ((λ name, mkEvent AddedE (RUnstructured (pod ns name))) <$> ["web"; "cron"])
  else Err (EText "forbidden").
Definition schema : ProxyStore.APISchema := ProxyStore.mkSchema "pod" true (mkGVK "" "v1" "Pod").
Definition event_of (ns name : string) : APIEvent :=
  match ToAPIEvent schema AddedE (RUnstructured (pod ns name)) with
  | Ok ev => ev | _ => mkAPIEvent "" empty_APIObject "" None end.

(** The user gets the pod "web" of "ops". *)
Lemma proxy_watch_sends_witness :
  ∃ s, reachable (λ _, "") (λ _ _, None) watch (λ _, []) schema (mkAPIRequest "") partitions s ∧
    event_of "ops" "web" ∈ ws_sent s.
Proof.
  apply (proj2 (proxy_watch_sends (λ _, "") (λ _ _, None) watch (λ _, []) schema (mkAPIRequest "")
    partitions) (mkPartition "team" false false {["web"]}) (mkPartition "ops" false false {["cron"]})
    (mkEvent AddedE (RUnstructured (pod "ops" "web")))).
  - left.
  - right. left.
  - by right.
  - right; right; right. exists "web", "ops", "". split; [vm_compute; reflexivity|]. cbn [P_Names]. set_solver.
  - split; [done|]. left. eexists _, _. split; [reflexivity|]. split; [left|]. apply passed_object. done.
  - vm_compute. reflexivity.
Defined.
End ProxyWatchExample.
