(* ===== verification/ParallelLister.v ===== *)
(** * Listing partitions in parallel: pkg/stores/partition/parallel.go

    [feeder] starts a goroutine per partition; the goroutines take turns in the order of
    the partitions to send their items, until the limit of the request is reached. The
    point where the list was cut is encoded in a continue token. The loop that starts the
    goroutines and the goroutines run concurrently: the feeder is a step relation, each
    step an access to the variables they share. Errors of the lister and a cancelled
    context, after which the list is discarded, are not modelled. *)
From S2P Require Import Prelude GoLib.

(** [listState]: the continuation point of a partial list. *)
Record listState := mkListState {
  ls_Revision : string;
  ls_PartitionName : string;
  ls_Continue : string;
  ls_Offset : Z;
  ls_Limit : Z
}.
Definition zero_listState : listState := mkListState "" "" "" 0 0.
#[export] Instance listState_eq_dec : EqDecision listState.
Proof. solve_decision. Defined.

Section lister.
Context {Part Item : Type} (Name : Part → string).

Fixpoint index_of (partitions : list Part) (name : string) : option nat :=
  match partitions with
  | [] => None
  | p :: ps => if bool_decide (Name p = name) then Some 0 else S <$> index_of ps name
  end.

Definition indexOrZero (partitions : list Part) (name : string) : nat :=
  if bool_decide (name = "") then 0 else default 0 (index_of partitions name).

(* Lister: the items of a page, its continue token and its resource version *)
Context (Lister : Part → string → string → Z → list Item * string * string).
(* base64 and JSON encoding of the state *)
Context (encode : listState → string) (decode : string → option listState).

(** The fields of the lister and the variables of [feeder] the goroutines share. *)
Record shared := mkShared {
  capacity : Z;
  p_state : option listState;
  p_revision : string;
  sent : list (list Item)
}.

(** [ParallelPartitionLister.Continue]. *)
Definition Continue (sh : shared) : string :=
  match p_state sh with None => "" | Some st => encode st end.

(** [ParallelPartitionLister.List]: the state and the limit the feeder starts with. *)
Definition List (limit : Z) (resume revision : string) : outcome string (listState * Z) :=
  if bool_decide (resume ≠ "") then
    match decode resume with
    | None => Err "invalid continue token"
    | Some state => Ok (state, if bool_decide (ls_Limit state > 0)%Z then ls_Limit state else limit)
    end
  else Ok (mkListState revision "" "" 0 0, limit).

(** One iteration of the loop of a goroutine, from its call of the lister to the next;
    [None] when the goroutine returns. *)
Definition goroutine_page (limit : Z) (p : Part) (state : listState) (sh : shared)
    : shared * option listState :=
  let cont := if bool_decide (Name p = ls_PartitionName state) then ls_Continue state else "" in
  let '(items, next_cont, rv) := Lister p cont (ls_Revision state) limit in
  match p_state sh with
  | Some _ => (sh, None)
  | None =>
      let revision := if bool_decide (ls_Revision state = "") then rv else ls_Revision state in
      let p_rev := if bool_decide (p_revision sh = "") then rv else p_revision sh in
      let items :=
        if bool_decide (ls_PartitionName state = Name p) && bool_decide (ls_Offset state > 0)%Z &&
           bool_decide (ls_Offset state < Z.of_nat (length items))%Z
        then drop (Z.to_nat (ls_Offset state)) items else items in
      if bool_decide (limit > 0)%Z && bool_decide (Z.of_nat (length items) > capacity sh)%Z then
        (mkShared 0 (Some (mkListState rv (Name p) cont (capacity sh) limit)) p_rev
           (sent sh ++ [take (Z.to_nat (capacity sh)) items]), None)
      else
        let sh := mkShared (capacity sh - Z.of_nat (length items)) None p_rev
                           (sent sh ++ [items]) in
        if bool_decide (next_cont = "") then (sh, None)
        else (sh, Some (mkListState revision (Name p) next_cont 0 (ls_Limit state)))
  end.

(** The state of a feeder: the index of its loop, whether the iteration has passed its
    check and waits for tickets, whether the loop was left by [break], the partition
    whose goroutine has the turn and that goroutine's local state. *)
Record feeder_state := mkFeeder {
  f_i : nat;
  f_checked : bool;
  f_broken : bool;
  f_turn : nat;
  f_local : listState;
  f_shared : shared
}.

Section feeder.
Context (Partitions : list Part) (Concurrency : Z) (state : listState) (limit : Z).

Definition feeder_init : feeder_state :=
  let i := indexOrZero Partitions (ls_PartitionName state) in
  mkFeeder i false false i state (mkShared limit None "" []).

(** Tickets an iteration acquires: all of them when no revision is set. *)
Definition tickets : Z := if bool_decide (ls_Revision state = "") then 3 else 1.

(** The semaphore: the goroutines between the turn and the index hold their tickets. *)
Definition can_acquire (s : feeder_state) : bool :=
  bool_decide ((Z.of_nat (f_i s) - Z.of_nat (f_turn s) + 1) * tickets ≤ Concurrency)%Z.

Definition check_loop (s : feeder_state) : feeder_state :=
  if bool_decide (limit > 0)%Z && bool_decide (capacity (f_shared s) ≤ 0)%Z
  then mkFeeder (f_i s) false true (f_turn s) (f_local s) (f_shared s)
  else mkFeeder (f_i s) true false (f_turn s) (f_local s) (f_shared s).

Definition spawn (s : feeder_state) : feeder_state :=
  mkFeeder (S (f_i s)) false (f_broken s) (f_turn s) (f_local s) (f_shared s).

(** The goroutine that has the turn lists one page; when it returns, the next one has the
    turn, with its own copy of the state. *)
Definition take_turn (p : Part) (s : feeder_state) : feeder_state :=
  match goroutine_page limit p (f_local s) (f_shared s) with
  | (sh, Some local) => mkFeeder (f_i s) (f_checked s) (f_broken s) (f_turn s) local sh
  | (sh, None) => mkFeeder (f_i s) (f_checked s) (f_broken s) (S (f_turn s)) state sh
  end.

Inductive feeder_step : feeder_state → feeder_state → Prop :=
  | step_check s :
      f_checked s = false → f_broken s = false → f_i s < length Partitions →
      feeder_step s (check_loop s)
  | step_spawn s :
      f_checked s = true → can_acquire s = true → feeder_step s (spawn s)
  | step_turn s p :
      f_turn s < f_i s → Partitions !! f_turn s = Some p → feeder_step s (take_turn p s).

(** The loop has ended and every goroutine has returned: the channel is closed. *)
Definition feeder_done (s : feeder_state) : bool :=
  negb (f_checked s) && (f_broken s || bool_decide (f_i s = length Partitions)) &&
  bool_decide (f_turn s = f_i s).

Definition feeder_run (s : feeder_state) : Prop :=
  rtc feeder_step feeder_init s ∧ feeder_done s = true.
End feeder.
End lister.

(** * Specification *)

(** What the code relies on in the lister of a partition: the pages that start at a
    continue token are the items that follow it, a page holds at most the limit, and
    listing again at the revision a page was read at gives the same page. [rest p cont]
    are the items of a partition from a continue token on. *)
Class ListerOK {Part Item} (Lister : Part → string → string → Z → list Item * string * string)
    (limit : Z) (rest : Part → string → list Item) := {
  lister_rest : ∀ p cont rev,
    rest p cont = (Lister p cont rev limit).1.1 ++
      let c := (Lister p cont rev limit).1.2 in if bool_decide (c = "") then [] else rest p c;
  lister_limit : ∀ p cont rev,
    (0 < limit)%Z → (Z.of_nat (length (Lister p cont rev limit).1.1) ≤ limit)%Z;
  lister_stable : ∀ p cont rev,
    Lister p cont (Lister p cont rev limit).2 limit = Lister p cont rev limit
}.

(** The partitions of a request have different names, and only the first one may have
    none, as the partitioner guarantees. *)
Definition partitions_ok {Part} (Name : Part → string) (Partitions : list Part) : Prop :=
  NoDup (Name <$> Partitions) ∧ ∀ i p, Partitions !! i = Some p → Name p = "" → i = 0.

Section spec.
Context {Part Item : Type} (Name : Part → string).
Context (Lister : Part → string → string → Z → list Item * string * string).
Context (rest : Part → string → list Item).

(** The items of a partition that a state has not returned yet. *)
Definition remaining (st : listState) (p : Part) : list Item :=
  if bool_decide (Name p = ls_PartitionName st)
  then drop (Z.to_nat (ls_Offset st)) (rest p (ls_Continue st)) else rest p "".

Definition all_of (ps : list Part) : list Item := List.concat ((λ p, rest p "") <$> ps).

(** The items of all partitions from a state on. *)
Definition items_from (Partitions : list Part) (st : listState) : list Item :=
  match drop (indexOrZero Name Partitions (ls_PartitionName st)) Partitions with
  | [] => []
  | p :: ps => remaining st p ++ all_of ps
  end.

(** The offset of a state lies within the page it refers to. *)
Definition offset_ok (limit : Z) (st : listState) (p : Part) : Prop :=
  Name p = ls_PartitionName st →
  ls_Offset st = 0%Z ∨
  (0 ≤ ls_Offset st < Z.of_nat (length (Lister p (ls_Continue st) (ls_Revision st) limit).1.1))%Z.

Definition state_ok (limit : Z) (Partitions : list Part) (st : listState) : Prop :=
  ∀ p, Partitions !! indexOrZero Name Partitions (ls_PartitionName st) = Some p →
       offset_ok limit st p.
End spec.

(** * Lemmas *)
Section page_lemmas.
Open Scope Z_scope.
Context {Part Item : Type} (Name : Part → string).
Context (Lister : Part → string → string → Z → list Item * string * string).
Context (limit : Z) (rest : Part → string → list Item).
Context `{!ListerOK Lister limit rest}.

Abbreviation page := (goroutine_page Name Lister limit).
Abbreviation remaining := (remaining Name rest).

(** The items the feeder still may send and those it has sent make up the limit. *)
Definition capacity_ok (sh : shared) : Prop :=
  0 < limit → 0 ≤ capacity sh ∧
    capacity sh + Z.of_nat (length (List.concat (@sent Item sh))) = limit.

Lemma goroutine_page_capacity p st sh :
  capacity sh ≤ 0 → capacity (page p st sh).1 ≤ 0.
Proof.
  intros Hcap. unfold goroutine_page. destruct (Lister _ _ _ _) as [[??]?].
  destruct (p_state sh); [done|]. destruct (_ && bool_decide (_ > capacity sh)); [done|].
  destruct (bool_decide (_ = "")); cbn; lia.
Qed.

(** What one page does: [Some] state with the items left in the partition, or the end of
    the partition, or a token for them. *)
Definition page_result (p : Part) (st : listState) (sh : shared)
    (r : shared * option listState) : Prop :=
  capacity_ok r.1 ∧
  match r.2 with
  | Some st' =>
      p_state r.1 = None ∧ ls_PartitionName st' = Name p ∧ ls_Offset st' = 0 ∧
      List.concat (sent r.1) ++ remaining st' p = List.concat (sent sh) ++ remaining st p
  | None =>
      match p_state r.1 with
      | None => List.concat (sent r.1) = List.concat (sent sh) ++ remaining st p
      | Some tok =>
          ls_PartitionName tok = Name p ∧ ls_Limit tok = limit ∧ 0 < limit ∧
          capacity r.1 = 0 ∧ offset_ok Name Lister limit tok p ∧
          List.concat (sent r.1) ++ remaining tok p = List.concat (sent sh) ++ remaining st p
      end
  end.

Lemma concat_snoc {A} (ls : list (list A)) l : List.concat (ls ++ [l]) = List.concat ls ++ l.
Proof. by rewrite List.concat_app; cbn; rewrite app_nil_r. Qed.

(** The page of a state, after the items before its offset are skipped. *)
Lemma page_items p st :
  let cont := if bool_decide (Name p = ls_PartitionName st) then ls_Continue st else "" in
  let page := Lister p cont (ls_Revision st) limit in
  let items :=
    if bool_decide (ls_PartitionName st = Name p) && bool_decide (ls_Offset st > 0) &&
       bool_decide (ls_Offset st < Z.of_nat (length page.1.1))
    then drop (Z.to_nat (ls_Offset st)) page.1.1 else page.1.1 in
  offset_ok Name Lister limit st p →
  remaining st p = items ++ (if bool_decide (page.1.2 = "") then [] else rest p page.1.2).
Proof.
  intros cont page items Hoff. unfold ParallelLister.remaining. subst items.
  rewrite (bool_decide_ext (ls_PartitionName st = Name p) (Name p = ls_PartitionName st)) by done.
  case_bool_decide as Hname; cbn [andb]; subst cont; [|apply lister_rest].
  rewrite (lister_rest p (ls_Continue st) (ls_Revision st)). fold page.
  destruct (Hoff Hname) as [->|Hlt].
  - rewrite (bool_decide_eq_false_2 (0 > 0)) by lia. done.
  - fold page in Hlt. rewrite (bool_decide_eq_true_2 (ls_Offset st < _)) by lia. rewrite andb_true_r.
    rewrite drop_app_le by lia. case_bool_decide; [done|].
    replace (ls_Offset st) with 0 by lia. done.
Qed.

Lemma goroutine_page_result p st sh :
  p_state sh = None → capacity_ok sh → offset_ok Name Lister limit st p →
  (Name p = ls_PartitionName st → ls_Offset st = 0 ∨ capacity sh = limit) →
  page_result p st sh (page p st sh).
Proof.
  intros Hst Hcap Hoff Hfirst. pose proof (page_items p st Hoff) as Hitems.
  unfold goroutine_page. rewrite Hst.
  set (cont := if bool_decide (Name p = ls_PartitionName st) then ls_Continue st else "") in *.
  pose proof (lister_limit p cont (ls_Revision st)) as Hlimit.
  pose proof (lister_stable p cont (ls_Revision st)) as Hstable.
  pose proof (lister_rest p cont (ls_Revision st)) as Hrest.
  destruct (Lister p cont (ls_Revision st) limit) as [[its c] rv] eqn:Hpage. cbn in *.
  set (items := if bool_decide (ls_PartitionName st = Name p) && _ && _ then _ else _) in *.
  assert (Hsub : (length items ≤ length its)%nat).
  { subst items. destruct (_ && _); [rewrite length_drop; lia|lia]. }
  destruct (bool_decide (limit > 0) && bool_decide (Z.of_nat (length items) > capacity sh)) eqn:Hcut.
  - apply andb_true_iff in Hcut as [Hl%bool_decide_eq_true Hlen%bool_decide_eq_true].
    destruct Hcap as [Hcap0 Hcap]; [lia|]. specialize (Hlimit ltac:(lia)).
    assert (items = its) as Heq.
    { subst items. destruct (bool_decide (ls_PartitionName st = Name p) && _) eqn:E; cbn [andb] in *.
      - case_bool_decide; [|done]. apply andb_true_iff in E as [E1%bool_decide_eq_true E2%bool_decide_eq_true].
        rewrite length_drop in Hlen. destruct Hfirst; [done|lia..].
      - done. }
    rewrite Heq in *. clear items Heq. unfold page_result. cbn. split_and!; try done; try lia.
    + intros _. cbn. rewrite concat_snoc, length_app, length_take. lia.
    + right. cbn. rewrite Hstable. cbn. lia.
    + rewrite concat_snoc, <- app_assoc. f_equal. rewrite Hitems. unfold ParallelLister.remaining. cbn.
      rewrite bool_decide_eq_true_2, Hrest by done. rewrite drop_app_le by lia.
      by rewrite app_assoc, take_drop.
  - assert (Hcap' : capacity_ok (mkShared (capacity sh - Z.of_nat (length items)) None
        (if bool_decide (p_revision sh = "") then rv else p_revision sh) (sent sh ++ [items]))).
    { intros Hl. destruct (Hcap Hl) as [Hcap0 Hlen]. cbn. rewrite concat_snoc, length_app.
      rewrite (bool_decide_eq_true_2 (limit > 0)) in Hcut by lia. cbn in Hcut.
      apply bool_decide_eq_false in Hcut. lia. }
    destruct (bool_decide (c = "")) eqn:Hc; (split; [exact Hcap'|]); cbn.
    + by rewrite concat_snoc, Hitems, app_nil_r.
    + rewrite concat_snoc, Hitems. split_and!; [done..|]. unfold ParallelLister.remaining. cbn.
      by rewrite bool_decide_eq_true_2, drop_0, <- app_assoc.
Qed.
End page_lemmas.

Lemma index_of_lookup {Part} (Name : Part → string) ps i p :
  NoDup (Name <$> ps) → ps !! i = Some p → index_of Name ps (Name p) = Some i.
Proof.
  revert i. induction ps as [|q ps IH]; intros i Hnd Hp; [done|].
  rewrite fmap_cons in Hnd. apply list.NoDup_cons in Hnd as [Hq Hnd]. cbn.
  destruct i as [|i]; cbn in Hp.
  - simplify_eq. by rewrite bool_decide_eq_true_2.
  - rewrite bool_decide_eq_false_2, (IH i); [done..|].
    intros Heq. apply Hq. rewrite Heq. apply list_elem_of_fmap_2. by eapply list_elem_of_lookup_2.
Qed.

Section feeder_lemmas.
Context {Part Item : Type} (Name : Part → string).
Context (Lister : Part → string → string → Z → list Item * string * string).
Context (limit : Z) (rest : Part → string → list Item).
Context `{!ListerOK Lister limit rest}.
Context (Partitions : list Part) (Concurrency : Z) (state : listState).
Context (Hparts : partitions_ok Name Partitions).
Context (Hstate : state_ok Name Lister limit Partitions state).

Abbreviation start := (indexOrZero Name Partitions (ls_PartitionName state)).
Abbreviation items_from := (items_from Name rest Partitions).
Abbreviation remaining := (remaining Name rest).
Abbreviation state_ok := (state_ok Name Lister limit Partitions).
Abbreviation step := (feeder_step Name Lister Partitions Concurrency state limit).

(** The items from a local state of partition [i] on. *)
Definition pending (i : nat) (local : listState) : list Item :=
  match drop i Partitions with [] => [] | p :: ps => remaining local p ++ all_of rest ps end.

Lemma indexOrZero_lookup i p :
  Partitions !! i = Some p → indexOrZero Name Partitions (Name p) = i.
Proof.
  intros Hp. unfold indexOrZero. case_bool_decide as Hname.
  - symmetry. by eapply Hparts.
  - by rewrite (index_of_lookup _ _ i) by (try apply Hparts; done).
Qed.

(** A partition after the first one is not the one the state points into. *)
Lemma later_partition i p :
  start < i → Partitions !! i = Some p → Name p ≠ ls_PartitionName state.
Proof. intros Hi Hp Heq. rewrite <- Heq, (indexOrZero_lookup i) in Hi by done. lia. Qed.

Lemma pending_start : pending start state = items_from state.
Proof. reflexivity. Qed.

Lemma pending_lookup i p local :
  Partitions !! i = Some p → pending i local = remaining local p ++ all_of rest (drop (S i) Partitions).
Proof. intros Hp. unfold pending. by rewrite (drop_S _ p). Qed.

Lemma pending_next i : start ≤ i → pending (S i) state = all_of rest (drop (S i) Partitions).
Proof.
  intros Hi. unfold pending. destruct (drop (S i) Partitions) as [|p ps] eqn:Hd; [done|].
  assert (Partitions !! S i = Some p) as Hp.
  { rewrite <- (Nat.add_0_r (S i)), <- lookup_drop, Hd. done. }
  unfold ParallelLister.remaining. rewrite bool_decide_eq_false_2; [done|].
  eapply later_partition, Hp. lia.
Qed.

Lemma pending_token i p tok :
  Partitions !! i = Some p → ls_PartitionName tok = Name p →
  items_from tok = remaining tok p ++ all_of rest (drop (S i) Partitions).
Proof.
  intros Hp Htok. unfold ParallelLister.items_from. rewrite Htok, (indexOrZero_lookup i) by done.
  by rewrite (drop_S _ p).
Qed.

Lemma index_of_lt name i : index_of Name Partitions name = Some i → i < length Partitions.
Proof.
  clear Hparts Hstate. revert i. induction Partitions as [|p ps IH]; intros i; cbn; [done|].
  case_bool_decide; [intros [= <-]; lia|]. destruct (index_of Name ps name); [|done].
  intros [= <-]. specialize (IH n eq_refl). lia.
Qed.

Lemma start_le : start ≤ length Partitions.
Proof.
  unfold indexOrZero. case_bool_decide; [lia|].
  destruct (index_of _ _ _) eqn:Hi; cbn; [|lia]. apply index_of_lt in Hi. lia.
Qed.

Record feeder_inv (s : feeder_state) : Prop := {
  inv_turn : start ≤ f_turn s ≤ f_i s;
  inv_index : f_i s ≤ length Partitions;
  inv_checked : f_checked s = true → f_i s < length Partitions ∧ f_broken s = false;
  inv_broken : f_broken s = true → (0 < limit ∧ capacity (f_shared s) ≤ 0)%Z;
  inv_capacity : capacity_ok limit (f_shared s);
  inv_local : p_state (f_shared s) = None → ∀ p, Partitions !! f_turn s = Some p →
    offset_ok Name Lister limit (f_local s) p ∧
    (Name p = ls_PartitionName (f_local s) →
       ls_Offset (f_local s) = 0%Z ∨ capacity (f_shared s) = limit);
  inv_items :
    match p_state (f_shared s) with
    | None => List.concat (sent (f_shared s)) ++ pending (f_turn s) (f_local s) = items_from state
    | Some tok =>
        List.concat (sent (f_shared s)) ++ items_from tok = items_from state ∧
        state_ok tok ∧ ls_Limit tok = limit ∧ (0 < limit)%Z ∧ capacity (f_shared s) = 0%Z
    end
}.

Lemma inv_init : feeder_inv (feeder_init Name Partitions state limit).
Proof.
  pose proof start_le. split; cbn; try done; try lia.
  - intros Hl. cbn. lia.
  - intros _ p Hp. split; [by apply Hstate|]. by right.
Qed.

Lemma inv_step s s' : step s s' → feeder_inv s → feeder_inv s'.
Proof.
  intros Hstep [Hturn Hidx Hck Hbr Hcap Hloc Hit]. destruct Hstep as [s Hc Hb Hi|s Hc Ha|s p Hti Hp].
  - unfold check_loop. destruct (_ && _) eqn:E; split; cbn; try done.
    apply andb_true_iff in E. rewrite !bool_decide_eq_true in E. lia.
  - destruct (Hck Hc) as [Hlt Hnb]. split; cbn; try done; lia.
  - unfold take_turn. destruct (p_state (f_shared s)) as [tok|] eqn:Htok.
    { assert (goroutine_page Name Lister limit p (f_local s) (f_shared s) = (f_shared s, None)) as ->.
      { unfold goroutine_page. destruct (Lister _ _ _ _) as [[??]?]. by rewrite Htok. }
      split; cbn; rewrite ?Htok; try done; lia. }
    destruct (Hloc eq_refl p Hp) as [Hoff Hfirst].
    pose proof (goroutine_page_result Name Lister limit rest p (f_local s) (f_shared s)
                  Htok Hcap Hoff Hfirst) as [Hcap' Hres].
    assert (Hcapmono : (0 < limit ∧ capacity (f_shared s) ≤ 0)%Z →
      (capacity (goroutine_page Name Lister limit p (f_local s) (f_shared s)).1 ≤ 0)%Z)
      by (intros [_ ?]; by apply goroutine_page_capacity).
    rewrite (pending_lookup _ p) in Hit by done. rewrite app_assoc in Hit.
    destruct (goroutine_page _ _ _ _ _ _) as [sh [local|]]; cbn in Hcap', Hres, Hcapmono.
    + destruct Hres as (Hst & Hname & Hoff' & Hsent).
      split; cbn; rewrite ?Hst; try done; [naive_solver| |].
      * intros _ q Hq. simplify_eq. split; [intros _; by left|by left].
      * rewrite (pending_lookup _ p) by done. by rewrite app_assoc, Hsent.
    + pose proof (pending_next (f_turn s) (proj1 Hturn)) as Hnext.
      destruct (p_state sh) as [tok|] eqn:Hst.
      * destruct Hres as (Hname & Hlim & Hpos & Hz & Hoff' & Hsent).
        split; cbn; rewrite ?Hst; try done; [lia|naive_solver|]. split_and!; try done.
        -- rewrite (pending_token (f_turn s) p) by done. by rewrite app_assoc, Hsent.
        -- intros q. rewrite Hname, (indexOrZero_lookup (f_turn s)) by done.
           intros Hq. by simplify_eq.
      * split; cbn; rewrite ?Hst; try done; [lia|naive_solver| |].
        -- intros _ q Hq. apply later_partition in Hq; [|lia]. by split; intros ?.
        -- by rewrite Hnext, Hres.
Qed.

Lemma inv_reachable s : rtc step (feeder_init Name Partitions state limit) s → feeder_inv s.
Proof.
  intros Hsteps. pose proof inv_init as Hinv.
  induction Hsteps as [|s1 s2 s3 Hstep _ IH]; [done|]. by eapply IH, inv_step.
Qed.
End feeder_lemmas.

Lemma feeder_run_items {Part Item} (Name : Part → string) Lister limit
    (rest : Part → string → list Item) `{!ListerOK Lister limit rest}
    Partitions Concurrency state s :
  partitions_ok Name Partitions → state_ok Name Lister limit Partitions state →
  feeder_run Name Lister Partitions Concurrency state limit s →
  let out := List.concat (sent (f_shared s)) in
  let all := items_from Name rest Partitions state in
  match p_state (f_shared s) with
  | Some tok => out ++ items_from Name rest Partitions tok = all ∧
      Z.of_nat (length out) = limit ∧
      state_ok Name Lister limit Partitions tok ∧ ls_Limit tok = limit ∧ (0 < limit)%Z
  | None => out = all ∨
      f_broken s = true ∧ (0 < limit)%Z ∧ Z.of_nat (length out) = limit ∧ ∃ lost, out ++ lost = all
  end.
Proof.
  intros Hparts Hstate [Hsteps Hdone].
  destruct (inv_reachable Name Lister limit rest _ _ _ Hparts Hstate s Hsteps) as
    [Hturn Hidx Hck Hbr Hcap Hloc Hit].
  unfold feeder_done in Hdone. cbn zeta.
  apply andb_true_iff in Hdone as [[_ Hend]%andb_true_iff Hti%bool_decide_eq_true].
  destruct (p_state (f_shared s)) as [tok|].
  - destruct Hit as (Hall & Htok & Hl & Hpos & Hz). split_and!; try done.
    destruct (Hcap Hpos). lia.
  - apply orb_true_iff in Hend as [Hbroken|Hend%bool_decide_eq_true].
    + right. destruct (Hbr Hbroken). destruct (Hcap ltac:(done)). split_and!; [done..|lia|by eexists].
    + left. rewrite Hti, Hend in Hit. unfold pending in Hit. rewrite drop_all in Hit.
      by rewrite app_nil_r in Hit.
Qed.

(** A sequence of requests, each after the first with the token of the one before; in none
    of them the loop left early. *)
Inductive listing {Part Item} (Name : Part → string)
    (Lister : Part → string → string → Z → list Item * string * string) encode decode
    (Partitions : list Part) (Concurrency : Z) : Z → string → string → list Item → Prop :=
  | listing_last limit resume revision state limit' s :
      List decode limit resume revision = Ok (state, limit') →
      feeder_run Name Lister Partitions Concurrency state limit' s →
      f_broken s = false → Continue encode (f_shared s) = "" →
      listing Name Lister encode decode Partitions Concurrency limit resume revision
        (List.concat (sent (f_shared s)))
  | listing_more limit resume revision state limit' s out :
      List decode limit resume revision = Ok (state, limit') →
      feeder_run Name Lister Partitions Concurrency state limit' s →
      Continue encode (f_shared s) ≠ "" →
      listing Name Lister encode decode Partitions Concurrency limit
        (Continue encode (f_shared s)) "" out →
      listing Name Lister encode decode Partitions Concurrency limit resume revision
        (List.concat (sent (f_shared s)) ++ out).

Section listing_lemmas.
Context {Part Item : Type} (Name : Part → string).
Context (Lister : Part → string → string → Z → list Item * string * string).
Context (limit : Z) (rest : Part → string → list Item).
Context `{!ListerOK Lister limit rest}.
Context (encode : listState → string) (decode : string → option listState).
Context (Hencode : ∀ st, encode st ≠ "" ∧ decode (encode st) = Some st).
Context (Partitions : list Part) (Concurrency : Z).
Context (Hparts : partitions_ok Name Partitions).
Context (Hlimit : (0 < limit)%Z).

(** The state a request starts from. *)
Definition resume_state (resume revision : string) : option listState :=
  if bool_decide (resume = "") then Some (mkListState revision "" "" 0 0) else decode resume.

Lemma List_resume resume revision state limit' :
  List decode limit resume revision = Ok (state, limit') →
  resume_state resume revision = Some state ∧
  (limit' = if bool_decide (resume = "") || bool_decide (ls_Limit state ≤ 0)%Z then limit
            else ls_Limit state).
Proof.
  unfold List, resume_state. case_bool_decide; case_bool_decide; try done.
  - destruct (decode resume); [|done]. intros [= <- <-]. split; [done|]. cbn.
    case_bool_decide; case_bool_decide; try done; lia.
  - by intros [= <- <-].
Qed.

Lemma request_limit resume state :
  (resume ≠ "" → ls_Limit state = limit) →
  (if bool_decide (resume = "") || bool_decide (ls_Limit state ≤ 0)%Z then limit
   else ls_Limit state) = limit.
Proof.
  intros Hl. destruct (bool_decide (resume = "")) eqn:Hr; [done|].
  apply bool_decide_eq_false in Hr. rewrite (Hl Hr). by destruct (bool_decide _).
Qed.

Lemma listing_items l resume revision state out :
  listing Name Lister encode decode Partitions Concurrency l resume revision out →
  l = limit → resume_state resume revision = Some state →
  (resume ≠ "" → ls_Limit state = limit) → state_ok Name Lister limit Partitions state →
  out = items_from Name rest Partitions state.
Proof.
  intros Hlist. revert state.
  induction Hlist as [l resume revision st limit' s HL Hrun Hb Hc
                     |l resume revision st limit' s out HL Hrun Hc _ IH];
    intros state -> Hres Hlim Hok; apply List_resume in HL as [Hres' ->];
    rewrite Hres in Hres'; injection Hres' as <-.
  - rewrite request_limit in Hrun by done.
    pose proof (feeder_run_items Name Lister limit rest _ _ _ _ Hparts Hok Hrun) as Hitems.
    unfold Continue in Hc. destruct (p_state (f_shared s)) as [tok|]; [by destruct (Hencode tok)|].
    destruct Hitems as [?|[??]]; [done|congruence].
  - rewrite request_limit in Hrun by done.
    pose proof (feeder_run_items Name Lister limit rest _ _ _ _ Hparts Hok Hrun) as Hitems.
    unfold Continue in *. destruct (p_state (f_shared s)) as [tok|]; [|done].
    destruct Hitems as (<- & _ & Htok & Hl & _). f_equal. apply IH; try done.
    unfold resume_state. rewrite bool_decide_eq_false_2 by done. by apply Hencode.
Qed.
End listing_lemmas.

(** ** Termination *)
Section termination.
Context {Part Item : Type} (Name : Part → string).
Context (Lister : Part → string → string → Z → list Item * string * string).
Context (Partitions : list Part) (Concurrency : Z) (state : listState) (limit : Z).
(* the pages of a partition from a continue token on *)
Context (pages_left : Part → string → nat).
Context (Hpages : ∀ p cont rev,
  (Lister p cont rev limit).1.2 ≠ "" → pages_left p (Lister p cont rev limit).1.2 < pages_left p cont).

Abbreviation step := (feeder_step Name Lister Partitions Concurrency state limit).

Definition pages_measure (s : @feeder_state Item) : nat :=
  match Partitions !! f_turn s with
  | Some p => pages_left p (if bool_decide (Name p = ls_PartitionName (f_local s))
                            then ls_Continue (f_local s) else "")
  | None => 0
  end.

Definition loop_measure (s : @feeder_state Item) : nat :=
  2 * (length Partitions - f_i s) + (if f_checked s || f_broken s then 0 else 1).

Definition measure (s : @feeder_state Item) : nat * nat * nat :=
  (length Partitions - f_turn s, pages_measure s, loop_measure s).

Definition lex3 (x y : nat * nat * nat) : Prop :=
  x.1.1 < y.1.1 ∨ x.1.1 = y.1.1 ∧ (x.1.2 < y.1.2 ∨ x.1.2 = y.1.2 ∧ x.2 < y.2).

Lemma lex3_wf : well_founded lex3.
Proof.
  intros [[a b] c]. revert b c. induction (lt_wf a) as [a _ IHa]. intros b.
  induction (lt_wf b) as [b _ IHb]. intros c. induction (lt_wf c) as [c _ IHc].
  constructor. intros [[x y] z]. unfold lex3. cbn.
  intros [?|[-> [?|[-> ?]]]]; auto.
Qed.

(** The index stays within the partitions while an iteration waits for its tickets. *)
Definition index_ok (s : @feeder_state Item) : Prop :=
  f_turn s ≤ f_i s ≤ length Partitions ∧
  (f_checked s = true → f_i s < length Partitions ∧ f_broken s = false).

Lemma goroutine_page_pages p st sh st' :
  (goroutine_page Name Lister limit p st sh).2 = Some st' →
  ls_PartitionName st' = Name p ∧ pages_left p (ls_Continue st') <
    pages_left p (if bool_decide (Name p = ls_PartitionName st) then ls_Continue st else "").
Proof.
  unfold goroutine_page. set (cont := if bool_decide _ then _ else _).
  specialize (Hpages p cont (ls_Revision st)).
  destruct (Lister p cont (ls_Revision st) limit) as [[its c] rv]. cbn in Hpages.
  destruct (p_state sh); [done|]. destruct (_ && bool_decide (_ > capacity sh)%Z); [done|].
  case_bool_decide; [done|]. intros [= <-]. cbn. auto.
Qed.

Lemma step_decreases s s' : index_ok s → step s s' → index_ok s' ∧ lex3 (measure s') (measure s).
Proof.
  intros [Hi Hck] Hstep. destruct Hstep as [s Hc Hb Hlt|s Hc Ha|s p Hti Hp].
  - unfold check_loop. destruct (_ && _); (split; [by split; cbn|]);
      unfold lex3, measure, loop_measure, pages_measure; cbn; rewrite Hc, Hb; cbn; lia.
  - destruct (Hck Hc). split; [split; cbn; [lia|done]|].
    unfold lex3, measure, loop_measure, pages_measure; cbn. rewrite Hc. cbn.
    destruct (f_broken s); lia.
  - unfold take_turn. pose proof (goroutine_page_pages p (f_local s) (f_shared s)) as Hpg.
    destruct (goroutine_page _ _ _ _ _ _) as [sh [st'|]]; cbn in Hpg.
    + destruct (Hpg st' eq_refl) as [Hname Hlt]. split; [done|].
      unfold lex3, measure, pages_measure. cbn. rewrite Hp, Hname.
      rewrite (bool_decide_eq_true_2 (Name p = Name p)) by done. lia.
    + split; [split; cbn; [lia|done]|]. unfold lex3, measure. cbn.
      apply lookup_lt_Some in Hp. lia.
Qed.

Lemma step_Acc s : index_ok s → Acc (flip step) s.
Proof.
  remember (measure s) as m eqn:Hm. revert s Hm.
  induction (lex3_wf m) as [m _ IH]. intros s -> Hok. constructor. intros s' Hstep.
  destruct (step_decreases s s' Hok Hstep). by eapply IH.
Qed.

Lemma index_ok_reachable s s' : rtc step s s' → index_ok s → index_ok s'.
Proof. induction 1; [done|]. intros Hok. eapply IHrtc, (step_decreases x); done. Qed.

(** With enough tickets, a feeder that is not done can take a step. *)
Lemma feeder_progress s :
  (3 ≤ Concurrency)%Z → index_ok s → feeder_done Partitions s = false → ∃ s', step s s'.
Proof.
  intros Hconc [Hi Hck] Hdone. destruct (decide (f_turn s = f_i s)) as [Heq|Hne].
  - destruct (f_checked s) eqn:Hc.
    + exists (spawn s). apply step_spawn; [done|]. unfold can_acquire, tickets.
      apply bool_decide_eq_true. case_bool_decide; lia.
    + unfold feeder_done in Hdone. rewrite Hc, (bool_decide_eq_true_2 (f_turn s = f_i s)), andb_true_r in Hdone by done.
      apply orb_false_iff in Hdone as [Hb Hn%bool_decide_eq_false].
      exists (check_loop limit s). apply step_check; [done..|lia].
  - destruct (lookup_lt_is_Some_2 Partitions (f_turn s)) as [p Hp]; [lia|].
    exists (take_turn Name Lister state limit p s). apply step_turn; [lia|done].
Qed.
End termination.

(** * Theorems *)

(** C24: However the loop and the goroutines interleave, the feeder sends the items of the
    partitions in order: with a continue token, exactly the limit, and the token stands
    for all items not sent; without one, all items, unless the loop saw the limit reached
    at the end of a partition and left early. *)
Theorem feeder_items {Part Item} (Name : Part → string) Lister limit
    (rest : Part → string → list Item) `{!ListerOK Lister limit rest}
    Partitions Concurrency state s :
  partitions_ok Name Partitions → state_ok Name Lister limit Partitions state →
  feeder_run Name Lister Partitions Concurrency state limit s →
  let out := List.concat (sent (f_shared s)) in
  let all := items_from Name rest Partitions state in
  match p_state (f_shared s) with
  | Some tok => out ++ items_from Name rest Partitions tok = all ∧
      Z.of_nat (length out) = limit ∧
      state_ok Name Lister limit Partitions tok ∧ ls_Limit tok = limit ∧ (0 < limit)%Z
  | None => out = all ∨
      f_broken s = true ∧ (0 < limit)%Z ∧ Z.of_nat (length out) = limit ∧ ∃ lost, out ++ lost = all
  end.
Proof. by eapply feeder_run_items. Qed.

(** C26: Requests that follow the continue tokens to the end return, together, the items of every partition in order, each
    once, when tokens are read back as they were written, a partition answers a token with what comes after it, partitions have
    different names, the limit is positive, and the last request did not leave its loop because its page was full, which can lose what follows ([feeder_loses_partitions]). *)
Theorem listing_complete {Part Item} (Name : Part → string) Lister limit
    (rest : Part → string → list Item) `{!ListerOK Lister limit rest}
    encode decode Partitions Concurrency revision out :
  (∀ st, encode st ≠ "" ∧ decode (encode st) = Some st) →
  partitions_ok Name Partitions → (0 < limit)%Z →
  listing Name Lister encode decode Partitions Concurrency limit "" revision out →
  out = all_of rest Partitions.
Proof.
  intros Hencode Hparts Hlimit Hlist.
  rewrite (listing_items Name Lister limit rest encode decode Hencode Partitions Concurrency Hparts
    limit "" revision (mkListState revision "" "" 0 0) out); try done.
  - unfold items_from. cbn. rewrite drop_0. destruct Partitions as [|p ps]; [done|].
    unfold all_of. cbn. f_equal. unfold remaining. by case_bool_decide.
  - intros p _ _. by left.
Qed.

(** C29: A feeder always comes to its end: no execution is infinite, and as long as the
    channel is not closed some step is possible (with the three tickets of the store). *)
Theorem feeder_terminates {Part Item} (Name : Part → string)
    (Lister : Part → string → string → Z → list Item * string * string)
    Partitions Concurrency state limit (pages_left : Part → string → nat) :
  (∀ p cont rev, (Lister p cont rev limit).1.2 ≠ "" →
     pages_left p (Lister p cont rev limit).1.2 < pages_left p cont) →
  (3 ≤ Concurrency)%Z →
  Acc (flip (feeder_step Name Lister Partitions Concurrency state limit))
      (feeder_init Name Partitions state limit) ∧
  ∀ s, rtc (feeder_step Name Lister Partitions Concurrency state limit)
           (feeder_init Name Partitions state limit) s →
       feeder_done Partitions s = true ∨
       ∃ s', feeder_step Name Lister Partitions Concurrency state limit s s'.
Proof.
  intros Hpages Hconc.
  assert (Hinit : index_ok Partitions (@feeder_init Part Item Name Partitions state limit)).
  { pose proof (start_le Name Partitions state). split; cbn; [lia|done]. }
  split; [by eapply step_Acc|]. intros s Hs.
  destruct (feeder_done Partitions s) eqn:Hd; [by left|right].
  eapply feeder_progress; [done| |done]. by eapply index_ok_reachable.
Qed.

(** ** Concrete runs *)
Module ListerExample.
Definition items (p : string) : list nat :=
  if bool_decide (p = "a") then [1; 2] else if bool_decide (p = "b") then [3] else [].
Definition lister (p cont rev : string) (limit : Z) : list nat * string * string :=
  (items p, "", "7").
Definition rest (p cont : string) : list nat := items p.
Definition partitions : list string := ["a"; "b"].

#[export] Instance lister_ok limit : (2 ≤ limit)%Z → ListerOK lister limit rest.
Proof.
  intros Hl. split; cbn; try done.
  - intros. by rewrite app_nil_r.
  - intros p _ _ _. unfold items. repeat case_bool_decide; cbn; lia.
Qed.

Lemma partitions_ok : partitions_ok id partitions.
Proof.
  split; [by apply (bool_decide_unpack (NoDup (id <$> partitions)))|].
  by intros [|[|i]] p [= <-].
Qed.

(** A token for each state. *)
#[export] Instance listState_countable : Countable listState.
Proof.
  refine (inj_countable'
    (λ st, (ls_Revision st, ls_PartitionName st, ls_Continue st, ls_Offset st, ls_Limit st))
    (λ t, mkListState t.1.1.1.1 t.1.1.1.2 t.1.1.2 t.1.2 t.2) _).
  by intros [].
Defined.
Definition encode (st : listState) : string := repeat_str "x" (S (encode_nat st)).
Definition decode (t : string) : option listState := decode_nat (String.length t - 1).

Lemma length_repeat_x n : String.length (repeat_str "x" n) = n.
Proof. induction n; cbn; congruence. Qed.

Lemma decode_encode st : encode st ≠ "" ∧ decode (encode st) = Some st.
Proof.
  split; [done|]. unfold decode, encode. rewrite length_repeat_x.
  replace (S (encode_nat st) - 1) with (encode_nat st) by lia. apply decode_encode_nat.
Qed.

Definition no_state : listState := mkListState "" "" "" 0 0.
Abbreviation step limit := (feeder_step id lister partitions 3 no_state limit).

(** The loop and the goroutines in strict alternation. *)
Definition turns (limit : Z) (ps : list string) (s : feeder_state) : feeder_state :=
  foldl (λ s p, take_turn id lister no_state limit p (spawn (check_loop limit s))) s ps.

Lemma step_all limit s p :
  f_checked s = false → f_broken s = false → f_turn s = f_i s →
  partitions !! f_i s = Some p →
  bool_decide (limit > 0)%Z && bool_decide (capacity (f_shared s) ≤ 0)%Z = false →
  rtc (step limit) s (take_turn id lister no_state limit p (spawn (check_loop limit s))).
Proof.
  intros Hc Hb Ht Hp Hcap. apply lookup_lt_Some in Hp as Hlt.
  eapply rtc_l; [by apply step_check|]. unfold check_loop. rewrite Hcap.
  eapply rtc_l; [apply step_spawn; [done|]|].
  { unfold can_acquire. change (tickets no_state) with 3%Z. cbn [f_i f_turn]. rewrite Ht.
    apply bool_decide_eq_true. lia. }
  eapply rtc_l; [apply (step_turn _ _ _ _ _ _ _ p); cbn; [lia|by rewrite Ht]|]. constructor.
Qed.
End ListerExample.
Import ListerExample.

(** When the items of a partition reach the limit exactly and its goroutine finishes
    before the loop looks at the capacity again, the loop ends without a continue token:
    the items of the partitions after it are lost. *)
Theorem feeder_loses_partitions :
  ∃ s, feeder_run id ListerExample.lister ListerExample.partitions 3 ListerExample.no_state 2 s ∧
    Continue ListerExample.encode (f_shared s) = "" ∧
    List.concat (sent (f_shared s)) = [1; 2] ∧
    items_from id ListerExample.rest ListerExample.partitions ListerExample.no_state = [1; 2; 3].
Proof.
  exists (check_loop 2 (turns 2 ["a"] (feeder_init id partitions no_state 2))).
  split; [split|]; [|by vm_compute..].
  eapply rtc_r; [by apply (step_all 2 _ "a")|]. apply step_check; [done..|vm_compute; lia].
Qed.

Definition full_run : feeder_state :=
  turns 5 ["a"; "b"] (feeder_init id partitions no_state 5).

Lemma full_run_done : feeder_run id lister partitions 3 no_state 5 full_run.
Proof.
  split; [|by vm_compute]. unfold full_run. cbn [turns foldl].
  etrans; [by apply (step_all 5 _ "a")|]. by apply (step_all 5 _ "b").
Qed.

Lemma feeder_items_witness :
  List.concat (sent (f_shared full_run)) = [1; 2; 3] ∨ f_broken full_run = true.
Proof.
  pose proof (feeder_items id lister 5 rest (ListerOK0 := lister_ok 5 ltac:(lia)) partitions 3
    no_state full_run ListerExample.partitions_ok ltac:(by intros p _ _; left) full_run_done) as Hitems.
  replace (p_state (f_shared full_run)) with (@None listState) in Hitems by by vm_compute.
  destruct Hitems as [Hitems|[Hb _]]; [left; exact Hitems|by right].
Defined.

Lemma listing_complete_witness :
  List.concat (sent (f_shared full_run)) = all_of rest partitions.
Proof.
  apply (listing_complete id lister 5 rest (ListerOK0 := lister_ok 5 ltac:(lia)) encode decode
    partitions 3 "").
  - apply decode_encode.
  - apply ListerExample.partitions_ok.
  - lia.
  - eapply (listing_last _ _ _ _ _ _ _ _ _ no_state 5); [done|apply full_run_done|by vm_compute..].
Defined.

Lemma feeder_terminates_witness :
  Acc (flip (feeder_step id lister partitions 3 no_state 5)) (feeder_init id partitions no_state 5).
Proof.
  apply (feeder_terminates id lister partitions 3 no_state 5 (λ _ _, 0)); [by intros|lia].
Defined.
