(* ===== verification/QueryParser.v ===== *)
(** * The filter language: pkg/stores/sqlpartition/queryparser/selector.go

    With the operators of pkg/stores/sqlpartition/selection/operator.go. A [Lexer] at
    position [pos] of its string is the rest of the string from [pos] on; a [Parser] at
    [position] is the rest of the scanned items. Reading past the scanned items, which
    would be an index out of range in Go, is [Panic]. *)
From S2P Require Import Prelude GoLib.

(** ** Operators *)
Inductive Operator :=
  | DoesNotExist | Equals | DoubleEquals | PartialEquals | In | NotEquals
  | NotPartialEquals | NotIn | Exists | GreaterThan | LessThan.
#[export] Instance Operator_eq_dec : EqDecision Operator.
Proof. solve_decision. Defined.

(** The text of an operator, for error messages. *)
Definition Operator_text (o : Operator) : string :=
  match o with
  | DoesNotExist => "!" | Equals => "=" | DoubleEquals => "==" | PartialEquals => "~"
  | In => "in" | NotEquals => "!=" | NotPartialEquals => "!~" | NotIn => "notin"
  | Exists => "exists" | GreaterThan => "gt" | LessThan => "lt"
  end.

Definition binaryOperators : list Operator :=
  [In; NotIn; Equals; DoubleEquals; NotEquals; PartialEquals; NotPartialEquals;
   GreaterThan; LessThan].

(** ** Requirements *)
Record Requirement := mkRequirement {
  r_key : string;
  r_operator : Operator;
  r_strValues : list string
}.
#[export] Instance Requirement_eq_dec : EqDecision Requirement.
Proof. solve_decision. Defined.

Definition is_integer (v : string) : bool :=
  match parse_int v with Some _ => true | None => false end.

(** The rules of [NewRequirement] that depend on the operator; its default case cannot
    happen for the operators of the type. *)
Definition requirement_errors (op : Operator) (vals : list string) : list string :=
  match op with
  | In | NotIn =>
      if bool_decide (length vals = 0) then
        ["for 'in', 'notin' operators, values set can't be empty"] else []
  | Equals | DoubleEquals | NotEquals =>
      if bool_decide (length vals ≠ 1) then
        ["exact-match compatibility requires one single value"] else []
  | PartialEquals | NotPartialEquals =>
      if bool_decide (length vals ≠ 1) then
        ["partial-match compatibility requires one single value"] else []
  | Exists | DoesNotExist =>
      if bool_decide (length vals ≠ 0) then
        ["values set must be empty for exists and does not exist"] else []
  | GreaterThan | LessThan =>
      (if bool_decide (length vals ≠ 1) then
         ["for 'Gt', 'Lt' operators, exactly one value is required"] else []) ++
      ((λ _, "for 'Gt', 'Lt' operators, the value must be an integer") <$>
         List.filter (λ v, negb (is_integer v)) vals)
  end.

Definition NewRequirement (key : string) (op : Operator) (vals : list string)
    : outcome string Requirement :=
  match requirement_errors op vals with
  | [] => Ok (mkRequirement key op vals)
  | errs => Err (join ", " errs)
  end.

(** [sets.String.List]: the members in increasing order. *)
Definition set_List (s : gset string) : list string := sort_strings (elements s).

(** [Requirement.Values]. *)
Definition Requirement_Values (r : Requirement) : list string :=
  set_List (list_to_set (r_strValues r)).

(** [safeSort]: a sorted copy; [sort.Strings] of a sorted slice changes nothing. *)
Definition safeSort (l : list string) : list string := sort_strings l.

Definition operator_symbol (o : Operator) : string :=
  match o with
  | Equals => "=" | DoubleEquals => "==" | NotEquals => "!=" | PartialEquals => "~"
  | NotPartialEquals => "!~" | In => " in " | NotIn => " notin " | GreaterThan => ">"
  | LessThan => "<" | Exists | DoesNotExist => ""
  end.

Definition is_set_operator (o : Operator) : bool :=
  match o with In | NotIn => true | _ => false end.

(** The text of the values: more than one are sorted. *)
Definition values_text (vs : list string) : string :=
  match vs with
  | [v] => v
  | vs => join "," (safeSort vs)
  end.

(** [Requirement.String]. *)
Definition Requirement_String (r : Requirement) : string :=
  (if bool_decide (r_operator r = DoesNotExist) then "!" else "") +:+ r_key r +:+
  match r_operator r with
  | Exists | DoesNotExist => ""
  | o =>
      operator_symbol o +:+ (if is_set_operator o then "(" else "") +:+
      values_text (r_strValues r) +:+ (if is_set_operator o then ")" else "")
  end.

(** [internalSelector.String]. *)
Definition Selector_String (s : list Requirement) : string :=
  join "," (Requirement_String <$> s).

(** [internalSelector.RequiresExactMatch]: the value a selector requires of a label. *)
Fixpoint RequiresExactMatch (s : list Requirement) (label : string) : option string :=
  match s with
  | [] => None
  | r :: s =>
      if bool_decide (r_key r = label) then
        match r_operator r, r_strValues r with
        | (Equals | DoubleEquals | In), [v] => Some v
        | _, _ => None
        end
      else RequiresExactMatch s label
  end.

(** ** The lexer *)
Inductive Token :=
  | ErrorToken | EndOfStringToken | ClosedParToken | CommaToken | DoesNotExistToken
  | DoubleEqualsToken | EqualsToken | PartialEqualsToken | GreaterThanToken
  | IdentifierToken | QuotedStringToken | InToken | LessThanToken | NotEqualsToken
  | NotInToken | NotPartialEqualsToken | OpenParToken.
#[export] Instance Token_eq_dec : EqDecision Token.
Proof. solve_decision. Defined.

Abbreviation ScannedItem := (Token * string)%type.

Definition string2token (s : string) : option Token :=
  if bool_decide (s = ")") then Some ClosedParToken
  else if bool_decide (s = ",") then Some CommaToken
  else if bool_decide (s = "!") then Some DoesNotExistToken
  else if bool_decide (s = "==") then Some DoubleEqualsToken
  else if bool_decide (s = "=") then Some EqualsToken
  else if bool_decide (s = "~") then Some PartialEqualsToken
  else if bool_decide (s = ">") then Some GreaterThanToken
  else if bool_decide (s = "in") then Some InToken
  else if bool_decide (s = "<") then Some LessThanToken
  else if bool_decide (s = "!=") then Some NotEqualsToken
  else if bool_decide (s = "!~") then Some NotPartialEqualsToken
  else if bool_decide (s = "notin") then Some NotInToken
  else if bool_decide (s = "(") then Some OpenParToken
  else None.

Definition in_range (lo hi : N) (c : ascii) : bool :=
  (lo <=? N_of_ascii c)%N && (N_of_ascii c <=? hi)%N.

(** [isIdentifierStartChar]: the byte is taken as a code point, so the letters of Latin-1
    count. *)
Definition isIdentifierStartChar (ch : ascii) : bool :=
  in_range 48 57 ch || in_range 65 90 ch || in_range 97 122 ch || Ascii.eqb ch "_" ||
  in_range 170 170 ch || in_range 181 181 ch || in_range 186 186 ch ||
  in_range 192 214 ch || in_range 216 246 ch || in_range 248 255 ch.

Definition isWhitespace (ch : ascii) : bool :=
  Ascii.eqb ch " " || in_range 9 9 ch || in_range 13 13 ch || in_range 10 10 ch.

Definition isSpecialSymbol (ch : ascii) : bool :=
  has_char ch "=!(),><~".

Definition nul : ascii := "000".

(** The part of [strings.ToLower] that matters for the keywords: ASCII letters, and the
    letter U+0130 (bytes C4 B0), whose lower case is an ASCII i. *)
Fixpoint ToLower (s : string) : string :=
  match s with
  | "" => ""
  | String "196" (String "176" r) => String "i" (ToLower r)
  | String c r =>
      String (if in_range 65 90 c then ascii_of_N (N_of_ascii c + 32) else c) (ToLower r)
  end.

(** [scanIDOrKeyword]: the bytes up to a symbol, white space, a zero byte (which is
    skipped) or the end. *)
Fixpoint scan_identifier (s : string) : string * string :=
  match s with
  | "" => ("", "")
  | String ch r =>
      if Ascii.eqb ch nul then ("", r)
      else if isSpecialSymbol ch || isWhitespace ch then ("", s)
      else let '(buffer, rest) := scan_identifier r in (String ch buffer, rest)
  end.

Definition scanIDOrKeyword (s : string) : Token * string * string :=
  let '(buffer, rest) := scan_identifier s in
  match string2token (ToLower buffer) with
  | Some tok => (tok, buffer, rest)
  | None => (IdentifierToken, buffer, rest)
  end.

(** [scanQuotedString]: [buffer] is what has been read; [None] when the string has no end. *)
Fixpoint scan_quoted (delim : ascii) (inEscape : bool) (buffer s : string)
    : option (string * string) * (string * string) :=
  match s with
  | "" => (None, (buffer, ""))
  | String ch r =>
      if Ascii.eqb ch nul then (None, (buffer, r))
      else if inEscape then scan_quoted delim false (buffer +:+ String ch "") r
      else if Ascii.eqb ch "\" then scan_quoted delim true buffer r
      else if Ascii.eqb ch delim then (Some (buffer, r), (buffer, r))
      else scan_quoted delim false (buffer +:+ String ch "") r
  end.

Definition scanQuotedString (delim : ascii) (s : string) : Token * string * string :=
  match scan_quoted delim false "" s with
  | (Some (lit, rest), _) => (QuotedStringToken, lit, rest)
  | (None, (buffer, rest)) =>
      let b := if bool_decide (12 < String.length buffer) then str_take 10 buffer +:+ "..."
               else buffer in
      (ErrorToken, "unterminated string starting with '" +:+ b +:+ "'", rest)
  end.

(** [scanSpecialSymbol]: the longest run of symbols each prefix of which, from the first
    token on, is a token. *)
Fixpoint scan_symbols (buffer : string) (lst : option (Token * string)) (s : string)
    : option (Token * string) * string * string :=
  match s with
  | "" => (lst, buffer, "")
  | String ch r =>
      if Ascii.eqb ch nul then (lst, buffer, r)
      else if isSpecialSymbol ch then
        let buffer := buffer +:+ String ch "" in
        match string2token buffer with
        | Some tok => scan_symbols buffer (Some (tok, buffer)) r
        | None => match lst with
                  | Some _ => (lst, buffer, s)
                  | None => scan_symbols buffer lst r
                  end
        end
      else (lst, buffer, s)
  end.

Definition scanSpecialSymbol (s : string) : Token * string * string :=
  match scan_symbols "" None s with
  | (Some (tok, lit), _, rest) => (tok, lit, rest)
  | (None, buffer, rest) => (ErrorToken, "error expected: keyword found '" +:+ buffer +:+ "'", rest)
  end.

Fixpoint skipWhiteSpaces (s : string) : string :=
  match s with
  | String ch r => if isWhitespace ch then skipWhiteSpaces r else s
  | "" => ""
  end.

(** The verb %c: the UTF-8 encoding of the byte taken as a code point. *)
Definition rune_text (ch : ascii) : string :=
  let n := N_of_ascii ch in
  if (n <? 128)%N then String ch ""
  else String (ascii_of_N (192 + n / 64)) (String (ascii_of_N (128 + n mod 64)) "").

(** [Lex]: a token, its literal, and the rest of the string. *)
Definition Lex (s : string) : Token * string * string :=
  match skipWhiteSpaces s with
  | "" => (EndOfStringToken, "", "")
  | String ch r as s =>
      if Ascii.eqb ch nul then (EndOfStringToken, "", r)
      else if isSpecialSymbol ch then scanSpecialSymbol s
      else if isIdentifierStartChar ch then scanIDOrKeyword s
      else if Ascii.eqb ch dquote || Ascii.eqb ch "'" then scanQuotedString ch r
      else (ErrorToken, "unexpected character '" +:+ rune_text ch +:+ "'", r)
  end.

(** [scan]: the items up to the first end of string. *)
Fixpoint scan_fuel (fuel : nat) (s : string) : list ScannedItem :=
  match fuel with
  | 0 => []
  | S fuel =>
      let '(tok, lit, rest) := Lex s in
      (tok, lit) :: if bool_decide (tok = EndOfStringToken) then [] else scan_fuel fuel rest
  end.

(** Every item but the end of string takes at least one byte. *)
Definition scan (s : string) : list ScannedItem := scan_fuel (S (String.length s)) s.

(** ** The parser *)
Inductive ParserContext := KeyAndOperator | ValuesContext.

(** In a context of values the keywords are identifiers. *)
Definition in_context (context : ParserContext) (tok : Token) : Token :=
  match context, tok with
  | ValuesContext, (InToken | NotInToken) => IdentifierToken
  | _, _ => tok
  end.

Abbreviation parse_result A := (outcome string (A * list ScannedItem)).

Definition lookahead (context : ParserContext) (items : list ScannedItem)
    : outcome string (Token * string) :=
  match items with
  | (tok, lit) :: _ => Ok (in_context context tok, lit)
  | [] => Panic
  end.

Definition consume (context : ParserContext) (items : list ScannedItem)
    : parse_result (Token * string) :=
  match items with
  | (tok, lit) :: rest => Ok ((in_context context tok, lit), rest)
  | [] => Panic
  end.

Definition found (lit expected : string) : string :=
  "found '" +:+ lit +:+ "', expected: " +:+ expected.

Definition parseKeyAndInferOperator (items : list ScannedItem)
    : parse_result (string * option Operator) :=
  res ← consume ValuesContext items;
  let '((tok, literal), items) := res in
  res ← (if bool_decide (tok = DoesNotExistToken) then
           res ← consume ValuesContext items;
           let '((tok, literal), items) := res in
           Ok (Some DoesNotExist, tok, literal, items)
         else Ok (None, tok, literal, items));
  let '(operator, tok, literal, items) := res in
  if bool_decide (tok ≠ IdentifierToken) then Err (found literal "identifier")
  else
    next ← lookahead ValuesContext items;
    let operator :=
      if bool_decide (fst next = EndOfStringToken) || bool_decide (fst next = CommaToken) then
        match operator with Some o => Some o | None => Some Exists end
      else operator in
    Ok ((literal, operator), items).

Definition parseOperator (items : list ScannedItem) : parse_result Operator :=
  res ← consume KeyAndOperator items;
  let '((tok, lit), items) := res in
  match tok with
  | InToken => Ok (In, items)
  | EqualsToken => Ok (Equals, items)
  | PartialEqualsToken => Ok (PartialEquals, items)
  | DoubleEqualsToken => Ok (DoubleEquals, items)
  | GreaterThanToken => Ok (GreaterThan, items)
  | LessThanToken => Ok (LessThan, items)
  | NotInToken => Ok (NotIn, items)
  | NotEqualsToken => Ok (NotEquals, items)
  | NotPartialEqualsToken => Ok (NotPartialEquals, items)
  | _ =>
      if bool_decide (lit = "lt") then Ok (LessThan, items)
      else if bool_decide (lit = "gt") then Ok (GreaterThan, items)
      else Err (found lit (join ", " (Operator_text <$> binaryOperators)))
  end.

(** [parseIdentifiersList]: every round consumes an item. *)
Fixpoint parseIdentifiersList (s : gset string) (items : list ScannedItem)
    : parse_result (gset string) :=
  match items with
  | [] => Panic
  | (tok, lit) :: items =>
      match in_context ValuesContext tok with
      | IdentifierToken =>
          let s := {[lit]} ∪ s in
          next ← lookahead ValuesContext items;
          match fst next with
          | CommaToken => parseIdentifiersList s items
          | ClosedParToken => Ok (s, items)
          | _ => Err (found (snd next) "',' or ')'")
          end
      | CommaToken =>
          let s := if bool_decide (s = ∅) then {[""]} else s in
          next ← lookahead ValuesContext items;
          if bool_decide (fst next = ClosedParToken) then Ok ({[""]} ∪ s, items)
          else if bool_decide (fst next = CommaToken) then
            match items with
            | [] => Panic
            | _ :: items => parseIdentifiersList ({[""]} ∪ s) items
            end
          else parseIdentifiersList s items
      | _ => Err (found lit "',', or identifier")
      end
  end.

Definition parseValues (items : list ScannedItem) : parse_result (gset string) :=
  res ← consume ValuesContext items;
  let '((tok, lit), items) := res in
  if bool_decide (tok ≠ OpenParToken) then Err ("found '" +:+ lit +:+ "' expected: '('")
  else
    next ← lookahead ValuesContext items;
    match fst next with
    | IdentifierToken | CommaToken =>
        res ← parseIdentifiersList ∅ items;
        let '(s, items) := res in
        res ← consume ValuesContext items;
        let '((tok, _), items) := res in
        if bool_decide (tok ≠ ClosedParToken) then Err (found (snd next) "')'")
        else Ok (s, items)
    | ClosedParToken =>
        res ← consume ValuesContext items;
        Ok ({[""]}, snd res)
    | _ => Err (found (snd next) "',', ')' or identifier")
    end.

Definition parseSingleValue (items : list ScannedItem) : parse_result (gset string) :=
  next ← lookahead ValuesContext items;
  if bool_decide (fst next = EndOfStringToken) || bool_decide (fst next = CommaToken) then
    Err "found end of a query string, expected: a comparison value"
  else
    res ← consume ValuesContext items;
    let '((tok, lit), items) := res in
    if bool_decide (tok = IdentifierToken) || bool_decide (tok = QuotedStringToken)
    then Ok ({[lit]}, items)
    else Err (found lit "identifier").

(** *** [labelSelectorRegex]: ^metadata.labels(?:\.\w[-a-zA-Z0-9_./]*|\[.*])$

    The dot after "metadata" is not escaped: it is any one character. *)
Definition cont_byte (c : ascii) : bool := in_range 128 191 c.

(** The rest of a string after its first character, as Go decodes UTF-8: bytes that are
    no encoding count one character each. *)
Definition drop_rune (s : string) : option string :=
  match s with
  | "" => None
  | String a r1 =>
      match r1 with
      | String b r2 =>
          if in_range 194 223 a && cont_byte b then Some r2
          else match r2 with
          | String c r3 =>
              if (in_range 224 224 a && in_range 160 191 b || in_range 225 236 a && cont_byte b ||
                  in_range 237 237 a && in_range 128 159 b || in_range 238 239 a && cont_byte b) &&
                 cont_byte c then Some r3
              else match r3 with
              | String d r4 =>
                  if (in_range 240 240 a && in_range 144 191 b || in_range 241 243 a && cont_byte b ||
                      in_range 244 244 a && in_range 128 143 b) && cont_byte c && cont_byte d
                  then Some r4 else Some r1
              | "" => Some r1
              end
          | "" => Some r1
          end
      | "" => Some r1
      end
  end.

Definition word_char (c : ascii) : bool :=
  in_range 48 57 c || in_range 65 90 c || in_range 97 122 c || Ascii.eqb c "_".
Definition label_char (c : ascii) : bool :=
  word_char c || Ascii.eqb c "-" || Ascii.eqb c "." || Ascii.eqb c "/".
Definition newline : ascii := "010".

Definition strip_prefix (p s : string) : option string :=
  if String.prefix p s then Some (str_drop (String.length p) s) else None.

Definition label_suffix_ok (s : string) : bool :=
  match s with
  | String "." (String w r) => word_char w && all_chars label_char r
  | String "[" r => ends_with "]" r && negb (has_char newline r)
  | _ => false
  end.

Definition labelSelectorRegex_Match (key : string) : bool :=
  match strip_prefix "metadata" key with
  | Some (String c _ as r) =>
      negb (Ascii.eqb c newline) &&
      match drop_rune r with
      | Some r => match strip_prefix "labels" r with Some r => label_suffix_ok r | None => false end
      | None => false
      end
  | _ => false
  end.

Definition parse_operand (op : Operator) (items : list ScannedItem)
    : parse_result (gset string) :=
  if is_set_operator op then parseValues items else parseSingleValue items.

Definition parseRequirement (items : list ScannedItem) : parse_result Requirement :=
  res ← parseKeyAndInferOperator items;
  let '((key, operator), items) := res in
  match operator with
  | Some op =>
      if labelSelectorRegex_Match key then
        r ← NewRequirement key op []; Ok (r, items)
      else Err ("existence tests are valid only for labels; not valid for field '" +:+ key +:+ "'")
  | None =>
      res ← parseOperator items;
      let '(op, items) := res in
      res ← parse_operand op items;
      let '(values, items) := res in
      r ← NewRequirement key op (set_List values);
      Ok (r, items)
  end.

(** The loop of [parse]; running out of fuel is [Panic], which it never does. *)
Fixpoint parse_loop (fuel : nat) (requirements : list Requirement) (items : list ScannedItem)
    : outcome string (list Requirement) :=
  match fuel with
  | 0 => Panic
  | S fuel =>
      next ← lookahead ValuesContext items;
      match fst next with
      | IdentifierToken | DoesNotExistToken =>
          res ← parseRequirement items;
          let '(r, items) := res in
          let requirements := requirements ++ [r] in
          res ← consume ValuesContext items;
          let '((t, l), items) := res in
          match t with
          | EndOfStringToken => Ok requirements
          | CommaToken =>
              next ← lookahead ValuesContext items;
              match fst next with
              | IdentifierToken | DoesNotExistToken => parse_loop fuel requirements items
              | _ => Err (found (snd next) "identifier after ','")
              end
          | _ => Err (found l "',' or 'end of string'")
          end
      | EndOfStringToken => Ok requirements
      | _ => Err (found (snd next) "!, identifier, or 'end of string'")
      end
  end.

Definition parse (selector : string) : outcome string (list Requirement) :=
  let items := scan selector in parse_loop (S (length items)) [] items.

(** [ParseToRequirements]. *)
Definition ParseToRequirements (selector : string) : outcome string (list Requirement) :=
  parse selector.

Example parse_example :
  ParseToRequirements "metadata.name in (b, a,,b), metadata.labels[x/y] , spec.n >5" =
  Ok [mkRequirement "metadata.name" In [""; "a"; "b"];
      mkRequirement "metadata.labels[x/y]" Exists [];
      mkRequirement "spec.n" GreaterThan ["5"]].
Proof. vm_compute. reflexivity. Qed.

(** * Lemmas *)

#[local] Arguments Ascii.eqb : simpl never.
#[local] Arguments in_range : simpl never.
#[local] Arguments isSpecialSymbol : simpl never.
#[local] Arguments isWhitespace : simpl never.
#[local] Arguments isIdentifierStartChar : simpl never.
#[local] Arguments string2token : simpl never.
#[local] Arguments ToLower : simpl never.
#[local] Arguments in_context : simpl never.
#[local] Arguments found : simpl never.

(** ** The lexer *)
Section lexer_lemmas.
Implicit Types (s r : string).

Lemma string2token_not_eos s tok : string2token s = Some tok → tok ≠ EndOfStringToken.
Proof. unfold string2token. repeat case_bool_decide; congruence. Qed.

Lemma scan_identifier_length s : String.length (scan_identifier s).2 ≤ String.length s.
Proof.
  induction s as [|c s IH]; cbn; [done|]. destruct (Ascii.eqb c nul); cbn; [lia|].
  destruct (isSpecialSymbol c || isWhitespace c); cbn; [lia|].
  destruct (scan_identifier s); cbn in *. lia.
Qed.

Lemma scan_quoted_length delim esc b s :
  String.length (scan_quoted delim esc b s).2.2 ≤ String.length s ∧
  ∀ lit rest, (scan_quoted delim esc b s).1 = Some (lit, rest) →
              String.length rest ≤ String.length s.
Proof.
  revert esc b. induction s as [|c s IH]; intros esc b; cbn; [done|].
  destruct (Ascii.eqb c nul); cbn; [by split; [lia|]|].
  destruct esc; [destruct (IH false (b +:+ String c "")) as [H1 H2]|
    destruct (Ascii.eqb c "\"); [destruct (IH true b) as [H1 H2]|
      destruct (Ascii.eqb c delim); [|destruct (IH false (b +:+ String c "")) as [H1 H2]]]].
  1,2,4: split; [lia|]; intros lit rest Hr; specialize (H2 lit rest Hr); lia.
  split; cbn; [lia|]. intros lit rest [= <- <-]. lia.
Qed.

Lemma scan_symbols_length b lst s : String.length (scan_symbols b lst s).2 ≤ String.length s.
Proof.
  revert b lst. induction s as [|c s IH]; intros b lst; cbn; [done|].
  destruct (Ascii.eqb c nul); cbn; [lia|]. destruct (isSpecialSymbol c); cbn; [|lia].
  destruct (string2token _) as [t|].
  - specialize (IH (b +:+ String c "") (Some (t, b +:+ String c ""))). lia.
  - destruct lst; cbn; [lia|]. specialize (IH (b +:+ String c "") None). lia.
Qed.

Lemma scan_symbols_tokens b lst s tok lit :
  (scan_symbols b lst s).1.1 = Some (tok, lit) →
  (∀ t l, lst = Some (t, l) → t ≠ EndOfStringToken) → tok ≠ EndOfStringToken.
Proof.
  revert b lst. induction s as [|c s IH]; intros b lst; cbn; [naive_solver|].
  destruct (Ascii.eqb c nul); cbn; [naive_solver|]. destruct (isSpecialSymbol c); cbn; [|naive_solver].
  destruct (string2token _) as [t|] eqn:Ht.
  - intros H _. apply (IH _ _ H). intros t' l' [= <- <-]. by eapply string2token_not_eos.
  - destruct lst; cbn; [naive_solver|]. apply IH.
Qed.

(** A symbol at the start of the string is read. *)
Lemma scan_symbols_reads c s :
  isSpecialSymbol c = true →
  String.length (scan_symbols "" None (String c s)).2 < String.length (String c s).
Proof.
  intros Hc. cbn. replace (Ascii.eqb c nul) with false
    by (symmetry; apply ascii_eqb_false; by intros ->).
  rewrite Hc. destruct (string2token _) as [t|].
  - pose proof (scan_symbols_length (String c "") (Some (t, String c "")) s). lia.
  - pose proof (scan_symbols_length (String c "") None s). lia.
Qed.

Lemma skipWhiteSpaces_length s : String.length (skipWhiteSpaces s) ≤ String.length s.
Proof. induction s as [|c s IH]; cbn; [done|]. destruct (isWhitespace c); cbn; lia. Qed.

Lemma identifier_start c : isIdentifierStartChar c = true →
  Ascii.eqb c nul = false ∧ isSpecialSymbol c = false ∧ isWhitespace c = false.
Proof. by destruct c as [[] [] [] [] [] [] [] []]. Qed.

Lemma Lex_decreases s tok lit rest :
  Lex s = (tok, lit, rest) → tok ≠ EndOfStringToken → String.length rest < String.length s.
Proof.
  unfold Lex. pose proof (skipWhiteSpaces_length s) as Hs.
  destruct (skipWhiteSpaces s) as [|c r]; [by intros [= <- <- <-]|].
  destruct (Ascii.eqb c nul) eqn:Hnul; [by intros [= <- <- <-]|].
  destruct (isSpecialSymbol c) eqn:Hsp; [|destruct (isIdentifierStartChar c) eqn:Hid];
    [| |destruct (_ || _)].
  - unfold scanSpecialSymbol. pose proof (scan_symbols_reads c r Hsp).
    destruct (scan_symbols "" None (String c r)) as [[[[t l]|] b] rest']; cbn in *;
      intros [= <- <- <-] _; lia.
  - unfold scanIDOrKeyword. cbn [scan_identifier]. rewrite Hnul.
    destruct (identifier_start c Hid) as (_ & -> & ->). cbn [orb].
    pose proof (scan_identifier_length r) as Hlen. destruct (scan_identifier r) as [b rest'].
    cbn in Hlen, Hs. destruct (string2token _); intros [= <- <- <-] _; lia.
  - unfold scanQuotedString. destruct (scan_quoted_length c false "" r) as [H1 H2].
    destruct (scan_quoted c false "" r) as [[[l rest']|] [b rest'']]; cbn in *;
      intros [= <- <- <-] _; [specialize (H2 l rest' eq_refl)|]; lia.
  - cbn in Hs. intros [= <- <- <-] _. lia.
Qed.

(** Scanning does not depend on the fuel. *)
Lemma scan_fuel_enough n m s :
  String.length s < n → String.length s < m → scan_fuel n s = scan_fuel m s.
Proof.
  revert m s. induction n as [|n IH]; intros [|m] s Hn Hm; try lia. cbn.
  destruct (Lex s) as [[tok lit] rest] eqn:Hlex. case_bool_decide as Htok; [done|].
  f_equal. pose proof (Lex_decreases _ _ _ _ Hlex Htok). apply IH; lia.
Qed.

Lemma scan_unfold s :
  scan s = let '(tok, lit, rest) := Lex s in
           (tok, lit) :: if bool_decide (tok = EndOfStringToken) then [] else scan rest.
Proof.
  unfold scan at 1. cbn [scan_fuel]. destruct (Lex s) as [[tok lit] rest] eqn:Hlex.
  case_bool_decide as Htok; [done|]. f_equal.
  pose proof (Lex_decreases _ _ _ _ Hlex Htok). apply scan_fuel_enough; lia.
Qed.
End lexer_lemmas.

(** ** The parser reads within the scanned items *)
Definition has_eos (items : list ScannedItem) : Prop :=
  List.Exists (λ it, it = (EndOfStringToken, "")) items.

Lemma Lex_eos s lit rest : Lex s = (EndOfStringToken, lit, rest) → lit = "".
Proof.
  unfold Lex. destruct (skipWhiteSpaces s) as [|c r]; [by intros [= <- _]|].
  destruct (Ascii.eqb c nul); [by intros [= <- _]|].
  destruct (isSpecialSymbol c); [|destruct (isIdentifierStartChar c);
    [|unfold scanQuotedString; destruct (_ || _); [by destruct (scan_quoted _ _ _ _) as [[[]|] []]|done]]].
  - unfold scanSpecialSymbol.
    pose proof (scan_symbols_tokens "" None (String c r) EndOfStringToken lit) as Ht.
    destruct (scan_symbols _ _ _) as [[[[t l]|] b] rest']; [|done].
    intros [= -> -> _]. by destruct (Ht eq_refl).
  - unfold scanIDOrKeyword. destruct (scan_identifier _) as [b rest'].
    destruct (string2token _) as [t|] eqn:Ht; [|done].
    intros [= -> _ _]. by destruct (string2token_not_eos _ _ Ht).
Qed.

Lemma scan_has_eos s : has_eos (scan s).
Proof.
  induction s as [s IH] using (induction_ltof1 _ String.length). rewrite scan_unfold.
  destruct (Lex s) as [[tok lit] rest] eqn:Hlex. case_bool_decide as Htok.
  { left. subst. by rewrite (Lex_eos _ _ _ Hlex). }
  right. apply IH. by eapply Lex_decreases.
Qed.

(** A parser step neither panics nor reads past the end of the string, and leaves at most
    [n] items. *)
Definition step_ok {A} (n : nat) (m : parse_result A) : Prop :=
  match m with
  | Panic => False
  | Err _ => True
  | Ok (_, rest) => has_eos rest ∧ length rest ≤ n
  end.

Section parser_safety.
Implicit Types (items rest : list ScannedItem).

Lemma has_eos_cons tok lit rest :
  has_eos ((tok, lit) :: rest) ↔ (tok = EndOfStringToken ∧ lit = "") ∨ has_eos rest.
Proof. unfold has_eos. rewrite Exists_cons. naive_solver. Qed.

Lemma has_eos_inv items :
  has_eos items → ∃ tok lit rest, items = (tok, lit) :: rest ∧
    (tok = EndOfStringToken ∧ lit = "" ∨ has_eos rest).
Proof. destruct items as [|[tok lit] rest]; [by intros ?%Exists_nil|]. rewrite has_eos_cons. eauto 10. Qed.

Lemma step_ok_bind {A B} n n' (m : parse_result A) (k : A * list ScannedItem → parse_result B) :
  step_ok n m → (∀ a rest, has_eos rest → length rest ≤ n → step_ok n' (k (a, rest))) →
  step_ok n' (m ≫= k).
Proof. destruct m as [[a rest]| |]; cbn; intros Hm Hk; [|done|done]. destruct Hm. by apply Hk. Qed.

Lemma step_ok_weaken {A} n n' (m : parse_result A) : step_ok n m → n ≤ n' → step_ok n' m.
Proof. destruct m as [[a rest]| |]; cbn; [|done|done]. intros [??] ?. split; [done|lia]. Qed.

Lemma in_context_eos ctx tok : in_context ctx tok = EndOfStringToken ↔ tok = EndOfStringToken.
Proof. by destruct ctx, tok. Qed.

Lemma parseIdentifiersList_ok s items :
  has_eos items → step_ok (length items) (parseIdentifiersList s items).
Proof.
  remember (length items) as n eqn:Hn. revert s items Hn.
  induction (lt_wf n) as [n _ IH]. intros s items -> Heos.
  assert (IH' : ∀ s rest, length rest < length items → has_eos rest →
    step_ok (length items) (parseIdentifiersList s rest)).
  { intros s' rest Hlt Hrest. eapply step_ok_weaken; [by eapply IH|lia]. }
  clear IH. apply has_eos_inv in Heos as (tok & lit & rest & -> & Htok).
  cbn [parseIdentifiersList]. destruct (in_context ValuesContext tok) eqn:Hctx; try done;
    (destruct Htok as [[-> ->]|Hrest]; [done|]);
    apply has_eos_inv in Hrest as Hinv; destruct Hinv as (tok2 & lit2 & rest2 & Heq & Htok2);
    rewrite Heq in *; cbn [lookahead mbind outcome_bind fst snd].
  - generalize (if bool_decide (s = ∅) then {[""]} else s) as s'. intros s'.
    case_bool_decide as H1; [by split; [|cbn; lia]|].
    case_bool_decide as H2; [|apply IH'; [cbn; lia|done]].
    destruct Htok2 as [[-> ->]|Htok2]; [done|]. apply IH'; [cbn; lia|done].
  - destruct (in_context ValuesContext tok2) eqn:H2; try done.
    + by split; [|cbn; lia].
    + apply IH'; [cbn; lia|done].
Qed.

Lemma parse_operand_ok op items :
  has_eos items → step_ok (length items) (parse_operand op items).
Proof.
  intros Heos. unfold parse_operand, parseValues, parseSingleValue.
  apply has_eos_inv in Heos as (tok & lit & rest & -> & Htok).
  destruct (is_set_operator op); cbn [consume lookahead mbind outcome_bind fst snd].
  - case_bool_decide as Hopen; [done|].
    destruct Htok as [[-> ->]|Hrest]; [done|]. apply has_eos_inv in Hrest as Hinv.
    destruct Hinv as (tok2 & lit2 & rest2 & Heq & Htok2). rewrite Heq in *. cbn [lookahead fst snd mbind outcome_bind].
    destruct (in_context ValuesContext tok2) eqn:H2; try done.
    + destruct Htok2 as [[-> ->]|?]; [done|]. cbn [consume snd mbind outcome_bind step_ok]. split; [done|cbn; lia].
    + eapply step_ok_bind; [by apply parseIdentifiersList_ok|]. intros s items Hitems Hlen.
      apply has_eos_inv in Hitems as (tok3 & lit3 & rest3 & -> & Htok3).
      cbn [consume mbind outcome_bind].
      case_bool_decide as H3; [done|].
      destruct Htok3 as [[-> ->]|?]; [done|]. cbn in *. split; [done|lia].
    + eapply step_ok_bind; [by apply parseIdentifiersList_ok|]. intros s items Hitems Hlen.
      apply has_eos_inv in Hitems as (tok3 & lit3 & rest3 & -> & Htok3).
      cbn [consume mbind outcome_bind].
      case_bool_decide as H3; [done|].
      destruct Htok3 as [[-> ->]|?]; [done|]. cbn in *. split; [done|lia].
  - destruct (_ || _) eqn:E; [done|].
    apply orb_false_iff in E as [E%bool_decide_eq_false _]. rewrite in_context_eos in E.
    destruct Htok as [[??]|Hrest]; [done|].
    destruct (_ || _); [|done]. cbn. split; [done|lia].
Qed.

Lemma parseKeyAndInferOperator_ok items :
  has_eos items → step_ok (length items - 1) (parseKeyAndInferOperator items).
Proof.
  intros Heos. unfold parseKeyAndInferOperator.
  apply has_eos_inv in Heos as (tok & lit & rest & -> & Htok).
  cbn [consume mbind outcome_bind]. case_bool_decide as Hnot.
  - destruct Htok as [[-> ->]|Hrest]; [done|].
    apply has_eos_inv in Hrest as (tok2 & lit2 & rest2 & -> & Htok2).
    cbn [consume mbind outcome_bind]. case_bool_decide as Hid; [done|].
    destruct Htok2 as [[-> ->]|Hrest2]; [done|]. apply has_eos_inv in Hrest2 as Hinv.
    destruct Hinv as (tok3 & lit3 & rest3 & -> & _). cbn [lookahead mbind outcome_bind step_ok].
    split; [done|cbn; lia].
  - cbn [mbind outcome_bind]. case_bool_decide as Hid; [done|].
    destruct Htok as [[-> ->]|Hrest]; [done|]. apply has_eos_inv in Hrest as Hinv.
    destruct Hinv as (tok3 & lit3 & rest3 & -> & _). cbn [lookahead mbind outcome_bind step_ok].
    split; [done|cbn; lia].
Qed.

Lemma parseOperator_ok items :
  has_eos items → step_ok (length items - 1) (parseOperator items).
Proof.
  intros (tok & lit & rest & -> & Htok)%has_eos_inv. unfold parseOperator.
  cbn [consume mbind outcome_bind]. destruct Htok as [[-> ->]|Hrest]; [done|].
  destruct (in_context KeyAndOperator tok); repeat case_bool_decide; try done;
    (split; [done|cbn; lia]).
Qed.

Lemma NewRequirement_ok key op vals : NewRequirement key op vals ≠ Panic.
Proof. unfold NewRequirement. by destruct (requirement_errors op vals). Qed.
End parser_safety.

(** A requirement as the parser gives it: the rules of [NewRequirement], sorted values
    without repetition, and existence tests only for labels. *)
Definition requirement_ok (r : Requirement) : Prop :=
  requirement_errors (r_operator r) (r_strValues r) = [] ∧
  StronglySorted (λ x y, String.leb x y = true) (r_strValues r) ∧ NoDup (r_strValues r) ∧
  (r_operator r = Exists ∨ r_operator r = DoesNotExist →
     labelSelectorRegex_Match (r_key r) = true).

Section parser_lemmas.
Implicit Types (items rest : list ScannedItem).

Lemma NewRequirement_spec key op vals r :
  NewRequirement key op vals = Ok r ↔ r = mkRequirement key op vals ∧ requirement_errors op vals = [].
Proof.
  unfold NewRequirement. destruct (requirement_errors op vals).
  - split; [by intros [= <-]|by intros [-> _]].
  - split; [done|by intros [_ ?]].
Qed.

Lemma step_ok_requirement n key op vals items :
  has_eos items → length items ≤ n →
  step_ok n (r ← NewRequirement key op vals; Ok (r, items)).
Proof.
  intros. pose proof (NewRequirement_ok key op vals).
  by destruct (NewRequirement key op vals).
Qed.

Lemma parseRequirement_ok items :
  has_eos items → step_ok (length items - 1) (parseRequirement items).
Proof.
  intros Heos. unfold parseRequirement.
  eapply step_ok_bind; [by apply parseKeyAndInferOperator_ok|].
  intros [key [op|]] rest Hrest Hlen.
  - destruct (labelSelectorRegex_Match key); [|done]. by apply step_ok_requirement.
  - eapply step_ok_bind; [by apply parseOperator_ok|]. intros op rest2 Hrest2 Hlen2.
    eapply step_ok_bind; [by apply parse_operand_ok|]. intros values rest3 Hrest3 Hlen3.
    apply step_ok_requirement; [done|lia].
Qed.

Lemma parse_loop_ok fuel reqs items :
  has_eos items → length items < fuel → parse_loop fuel reqs items ≠ Panic.
Proof.
  revert reqs items. induction fuel as [|fuel IH]; intros reqs items Heos Hlen; [lia|].
  cbn [parse_loop]. apply has_eos_inv in Heos as Hinv.
  destruct Hinv as (tok & lit & rest & Heq & _). rewrite Heq at 1.
  cbn [lookahead mbind outcome_bind fst snd].
  assert (Hgo : (res ← parseRequirement items;
      let '(r, items) := res in
      let requirements := reqs ++ [r] in
      res ← consume ValuesContext items;
      let '((t, l), items) := res in
      match t with
      | EndOfStringToken => Ok requirements
      | CommaToken =>
          next ← lookahead ValuesContext items;
          match fst next with
          | IdentifierToken | DoesNotExistToken => parse_loop fuel requirements items
          | _ => Err (found (snd next) "identifier after ','")
          end
      | _ => Err (found l "',' or 'end of string'")
      end) ≠ Panic).
  { pose proof (parseRequirement_ok items Heos) as Hreq.
    destruct (parseRequirement items) as [[r rest2]| |]; [|done|done].
    destruct Hreq as [Hrest2 Hlen2]. apply has_eos_inv in Hrest2 as (t & l & rest3 & -> & Ht).
    cbn [consume mbind outcome_bind]. cbn in Hlen2.
    destruct (in_context ValuesContext t) eqn:Hctx; try done.
    destruct Ht as [[-> ->]|Hrest3]; [done|]. apply has_eos_inv in Hrest3 as Hinv.
    destruct Hinv as (t4 & l4 & rest4 & Heq4 & _). rewrite Heq4 at 1.
    cbn [lookahead mbind outcome_bind fst]. destruct (in_context ValuesContext t4); try done; apply IH; try done; lia. }
  by destruct (in_context ValuesContext tok).
Qed.

Lemma set_List_sorted (s : gset string) :
  StronglySorted (λ x y, String.leb x y = true) (set_List s) ∧ NoDup (set_List s).
Proof.
  unfold set_List. split; [apply sort_strings_sorted|].
  rewrite sort_strings_perm. apply NoDup_elements.
Qed.

Lemma parseKeyAndInferOperator_op items key op rest :
  parseKeyAndInferOperator items = Ok ((key, Some op), rest) → op = Exists ∨ op = DoesNotExist.
Proof.
  unfold parseKeyAndInferOperator. intros H.
  apply outcome_bind_ok in H as ([[tok lit] it] & _ & H).
  apply outcome_bind_ok in H as ([[[o tok2] lit2] it2] & Ho & H).
  assert (o = Some DoesNotExist ∨ o = None) as Hor.
  { clear H. case_bool_decide; [|injection Ho as <- _ _ _; by right].
    apply outcome_bind_ok in Ho as ([[? ?] ?] & _ & [= <- _ _ _]). by left. }
  case_bool_decide; [done|]. apply outcome_bind_ok in H as (next & _ & H).
  destruct Hor as [-> | ->]; destruct (_ || _); simplify_eq; auto.
Qed.

Lemma parseRequirement_valid items r rest :
  parseRequirement items = Ok (r, rest) → requirement_ok r.
Proof.
  unfold parseRequirement. intros H.
  apply outcome_bind_ok in H as ([[key [op|]] items1] & Hkey & H).
  - apply parseKeyAndInferOperator_op in Hkey. destruct (labelSelectorRegex_Match key) eqn:Hre; [|done].
    apply outcome_bind_ok in H as (r' & [-> Herrs]%NewRequirement_spec & [= <- _]).
    split_and!; [done|constructor|constructor|done].
  - apply outcome_bind_ok in H as ([op items2] & Hop & H).
    apply outcome_bind_ok in H as ([values items3] & _ & H).
    apply outcome_bind_ok in H as (r' & [-> Herrs]%NewRequirement_spec & [= <- _]).
    destruct (set_List_sorted values). split_and!; [done..|]. cbn. intros Hex. exfalso.
    unfold parseOperator in Hop. apply outcome_bind_ok in Hop as ([[tok lit] it] & _ & Hop).
    destruct tok; repeat case_bool_decide; destruct Hex; congruence.
Qed.

Lemma parse_loop_valid fuel reqs items out :
  Forall requirement_ok reqs → parse_loop fuel reqs items = Ok out → Forall requirement_ok out.
Proof.
  revert reqs items. induction fuel as [|fuel IH]; intros reqs items Hreqs; [done|].
  cbn [parse_loop]. intros ([tok lit] & _ & H)%outcome_bind_ok. cbn [fst snd] in H.
  destruct tok; try done; try (by injection H as <-);
    (apply outcome_bind_ok in H as ([r items2] & Hr%parseRequirement_valid & H);
     apply outcome_bind_ok in H as ([[t l] items3] & _ & H);
     assert (Forall requirement_ok (reqs ++ [r])) by (apply Forall_app; auto);
     destruct t; try done; try (by injection H as <-);
     apply outcome_bind_ok in H as ([t4 l4] & _ & H); cbn [fst snd] in H;
     destruct t4; try done; by eapply IH).
Qed.
End parser_lemmas.

(** ** Printed requirements *)
Definition id_char (c : ascii) : bool :=
  negb (Ascii.eqb c nul || isSpecialSymbol c || isWhitespace c).

(** A key or value that the lexer reads as one identifier. *)
Definition is_word (s : string) : bool :=
  match s with
  | String c _ => isIdentifierStartChar c && all_chars id_char s
  | "" => false
  end.

(** A requirement whose key and values can be written without quotes. *)
Definition printable (r : Requirement) : Prop :=
  requirement_ok r ∧ is_word (r_key r) = true ∧
  Forall (λ v, is_set_operator (r_operator r) = true ∧ v = "" ∨ is_word v = true) (r_strValues r).

Definition boundary (s : string) : bool :=
  match s with "" => true | String c _ => isSpecialSymbol c || isWhitespace c end.

(** The next byte does not continue the symbol [sym]. *)
Definition symbol_ends (sym s : string) : bool :=
  match s with
  | "" => true
  | String c _ => negb (Ascii.eqb c nul) &&
      (negb (isSpecialSymbol c) || bool_decide (string2token (sym +:+ String c "") = None))
  end.

Definition word_token (s : string) : Token := default IdentifierToken (string2token (ToLower s)).

Section print_lemmas.
Implicit Types (s rest : string).

Lemma special_not_nul c : isSpecialSymbol c || isWhitespace c = true → Ascii.eqb c nul = false.
Proof. intros Hc. apply ascii_eqb_false. by intros ->. Qed.

Lemma scan_identifier_word s rest :
  all_chars id_char s = true → boundary rest = true → scan_identifier (s +:+ rest) = (s, rest).
Proof.
  intros Hs Hb. induction s as [|c s IH]; cbn.
  - destruct rest as [|c r]; [done|]. cbn in *. by rewrite special_not_nul, Hb by done.
  - cbn in Hs. apply andb_true_iff in Hs as [Hc Hs]. unfold id_char in Hc.
    rewrite !negb_orb, !andb_true_iff, !negb_true_iff in Hc. destruct Hc as [[-> ->] ->].
    by rewrite IH.
Qed.

Lemma is_word_inv s : is_word s = true →
  ∃ c r, s = String c r ∧ isIdentifierStartChar c = true ∧ all_chars id_char s = true.
Proof. destruct s as [|c r]; [done|]. cbn [is_word]. intros [??]%andb_true_iff. eauto. Qed.

Lemma Lex_word s rest :
  is_word s = true → boundary rest = true → Lex (s +:+ rest) = (word_token s, s, rest).
Proof.
  intros (c & r & -> & Hc & Hs)%is_word_inv Hb. unfold Lex. cbn [String.append skipWhiteSpaces].
  destruct (identifier_start c Hc) as (Hnul & Hsp & Hws). rewrite Hws, Hnul, Hsp, Hc.
  unfold scanIDOrKeyword. change (String c (r +:+ rest)) with (String c r +:+ rest).
  rewrite scan_identifier_word by done. unfold word_token. by destruct (string2token _).
Qed.

Lemma string2token_keyword t tok : string2token t = Some tok →
  tok = InToken ∨ tok = NotInToken ∨ ∃ c r, t = String c r ∧ isSpecialSymbol c = true.
Proof.
  unfold string2token.
  repeat case_bool_decide; intros [= <-]; subst; try (by left); try (by right; left);
    right; right; eexists _, _; done.
Qed.

Lemma ToLower_start c r : isIdentifierStartChar c = true →
  ∃ c' r', ToLower (String c r) = String c' r' ∧ isSpecialSymbol c' = false.
Proof.
  intros Hc. destruct (decide (c = "196"%char)) as [->|Hne].
  - destruct r as [|b r]; [by eexists _, _|]. destruct (decide (b = "176"%char)) as [->|Hne].
    + by eexists _, _.
    + exists "196"%char. destruct b as [[] [] [] [] [] [] [] []]; try done; by eexists.
  - destruct c as [[] [] [] [] [] [] [] []]; try done; by eexists _, _.
Qed.

Lemma word_token_values s :
  is_word s = true → in_context ValuesContext (word_token s) = IdentifierToken.
Proof.
  intros (c & r & -> & Hc & _)%is_word_inv. unfold word_token.
  destruct (string2token _) as [tok|] eqn:Ht; [|done].
  apply string2token_keyword in Ht as [->|[->|(c2 & r2 & Heq & Hsp)]]; [done..|].
  destruct (ToLower_start c r Hc) as (c' & r' & Heq' & Hsp'). congruence.
Qed.

Lemma scan_symbols_stop b x rest :
  symbol_ends b rest = true → (scan_symbols b (Some x) rest).1.1 = Some x ∧
                              (scan_symbols b (Some x) rest).2 = rest.
Proof.
  destruct rest as [|c r]; cbn; [done|]. intros [Hnul%negb_true_iff Hc]%andb_true_iff.
  rewrite Hnul. destruct (isSpecialSymbol c); [|done]. cbn in Hc.
  apply bool_decide_eq_true in Hc. by rewrite Hc.
Qed.

(** The symbols of the language with their tokens. *)
Definition symbols : list (string * Token) :=
  [("(", OpenParToken); (")", ClosedParToken); (",", CommaToken); ("!", DoesNotExistToken);
   ("=", EqualsToken); ("==", DoubleEqualsToken); ("!=", NotEqualsToken);
   ("~", PartialEqualsToken); ("!~", NotPartialEqualsToken); (">", GreaterThanToken);
   ("<", LessThanToken)].

Lemma Lex_special c r :
  isSpecialSymbol c = true → Lex (String c r) = scanSpecialSymbol (String c r).
Proof.
  intros Hc. assert (isWhitespace c = false) as Hws
    by (destruct c as [[] [] [] [] [] [] [] []]; done).
  unfold Lex. cbn [skipWhiteSpaces]. rewrite Hws, Hc, special_not_nul; [done|by rewrite Hc].
Qed.

Lemma scan_symbols_step b lst c r tok :
  isSpecialSymbol c = true → string2token (b +:+ String c "") = Some tok →
  scan_symbols b lst (String c r) =
  scan_symbols (b +:+ String c "") (Some (tok, b +:+ String c "")) r.
Proof. intros Hc Ht. cbn. by rewrite special_not_nul, Hc, Ht by (by rewrite Hc). Qed.

Lemma Lex_symbol sym tok rest :
  (sym, tok) ∈ symbols → symbol_ends sym rest = true → Lex (sym +:+ rest) = (tok, sym, rest).
Proof.
  intros Hsym Hend. pose proof (scan_symbols_stop sym (tok, sym) rest Hend) as [H1 H2].
  assert (Hstart : ∃ c r, sym = String c r ∧ isSpecialSymbol c = true ∧
    scan_symbols "" None (sym +:+ rest) = scan_symbols sym (Some (tok, sym)) rest).
  { clear Hend H1 H2. unfold symbols in Hsym.
    repeat (apply elem_of_cons in Hsym as [[= -> ->]|Hsym];
      [eexists _, _; split; [reflexivity|split; [reflexivity|]]; cbn [String.append];
       do 2 try (erewrite scan_symbols_step by reflexivity); reflexivity|]).
    by apply not_elem_of_nil in Hsym. }
  destruct Hstart as (c & r & -> & Hc & Hscan). cbn [String.append] in *.
  rewrite Lex_special by done. unfold scanSpecialSymbol. rewrite Hscan.
  destruct (scan_symbols _ _ rest) as [[[[t l]|] b] rest']; cbn in H1, H2; [|done].
  by simplify_eq.
Qed.
End print_lemmas.

Ltac symbol_in := unfold symbols; repeat (apply elem_of_cons; first [by left | right]).

Section scan_printed.
Implicit Types (s rest : string) (vs : list string).

Lemma word_token_not_eos s : is_word s = true → word_token s ≠ EndOfStringToken.
Proof. intros Hs Heq. apply word_token_values in Hs. by rewrite Heq in Hs. Qed.

Lemma scan_word s rest :
  is_word s = true → boundary rest = true → scan (s +:+ rest) = (word_token s, s) :: scan rest.
Proof.
  intros Hs Hb. rewrite scan_unfold, Lex_word by done.
  by rewrite bool_decide_eq_false_2 by by apply word_token_not_eos.
Qed.

Lemma symbols_not_eos sym tok : (sym, tok) ∈ symbols → tok ≠ EndOfStringToken.
Proof.
  unfold symbols. intros Hsym.
  repeat (apply elem_of_cons in Hsym as [[= -> ->]|Hsym]; [done|]).
  by apply not_elem_of_nil in Hsym.
Qed.

Lemma scan_symbol sym tok rest :
  (sym, tok) ∈ symbols → symbol_ends sym rest = true →
  scan (sym +:+ rest) = (tok, sym) :: scan rest.
Proof.
  intros Hsym Hend. rewrite scan_unfold, (Lex_symbol sym tok) by done.
  rewrite bool_decide_eq_false_2; [done|]. by eapply symbols_not_eos.
Qed.

Lemma scan_space s : scan (String " " s) = scan s.
Proof. rewrite !scan_unfold. done. Qed.

Lemma scan_empty : scan "" = [(EndOfStringToken, "")].
Proof. reflexivity. Qed.

(** A word does not continue a symbol. *)
Lemma word_ends sym s rest : is_word s = true → symbol_ends sym (s +:+ rest) = true.
Proof.
  intros (c & r & -> & Hc & _)%is_word_inv. destruct (identifier_start c Hc) as (Hnul & Hsp & _).
  cbn. by rewrite Hnul, Hsp.
Qed.

(** Values after the first one, with their commas. *)
Definition tail_text vs : string := join "" ((λ v, "," +:+ v) <$> vs).
Definition tail_tokens vs : list ScannedItem :=
  vs ≫= λ v, [(CommaToken, ","); (word_token v, v)].

Lemma tail_text_cons v vs : tail_text (v :: vs) = "," +:+ v +:+ tail_text vs.
Proof. unfold tail_text, join. destruct vs; cbn; by rewrite ?str_app_nil_r. Qed.

Lemma join_tail v vs : join "," (v :: vs) = v +:+ tail_text vs.
Proof.
  revert v. induction vs as [|w vs IH]; intros v; [unfold tail_text, join; cbn; by rewrite str_app_nil_r|].
  change (join "," (v :: w :: vs)) with (v +:+ "," +:+ join "," (w :: vs)).
  by rewrite IH, tail_text_cons.
Qed.

Lemma scan_tail vs rest :
  Forall (λ v, is_word v = true) vs → boundary rest = true →
  symbol_ends "," rest = true →
  scan (tail_text vs +:+ rest) = tail_tokens vs ++ scan rest ∧ boundary (tail_text vs +:+ rest) = true.
Proof.
  intros Hvs Hb Hend. induction Hvs as [|v vs Hv Hvs [IH1 IH2]]; [done|].
  rewrite tail_text_cons, !str_app_assoc. split; [|done].
  rewrite (scan_symbol "," CommaToken) by (first [by apply word_ends | symbol_in]).
  by rewrite scan_word, IH1 by done.
Qed.
End scan_printed.

Section parse_printed.
Implicit Types (s rest : string) (vs : list string) (items : list ScannedItem).

Lemma parseIdentifiersList_word v (s : gset string) t l items :
  is_word v = true →
  parseIdentifiersList s ((word_token v, v) :: (t, l) :: items) =
  match in_context ValuesContext t with
  | CommaToken => parseIdentifiersList ({[v]} ∪ s) ((t, l) :: items)
  | ClosedParToken => Ok ({[v]} ∪ s, (t, l) :: items)
  | _ => Err (found l "',' or ')'")
  end.
Proof.
  intros Hv. change (parseIdentifiersList s ((word_token v, v) :: (t, l) :: items)) with
    (match in_context ValuesContext (word_token v) with
     | IdentifierToken =>
         match in_context ValuesContext t with
         | CommaToken => parseIdentifiersList ({[v]} ∪ s) ((t, l) :: items)
         | ClosedParToken => Ok ({[v]} ∪ s, (t, l) :: items)
         | _ => Err (found l "',' or ')'")
         end
     | CommaToken => parseIdentifiersList s ((CommaToken, v) :: (t, l) :: items)
     | _ => Err (found v "',', or identifier")
     end).
  by rewrite word_token_values.
Qed.

(** A comma before a word only adds the empty value at the start of the list. *)
Lemma parseIdentifiersList_comma v (s : gset string) items :
  is_word v = true →
  parseIdentifiersList s ((CommaToken, ",") :: (word_token v, v) :: items) =
  parseIdentifiersList (if bool_decide (s = ∅) then {[""]} else s) ((word_token v, v) :: items).
Proof.
  intros Hv. unfold parseIdentifiersList at 1. fold parseIdentifiersList.
  change (in_context ValuesContext CommaToken) with CommaToken. cbn match.
  cbn [lookahead mbind outcome_bind fst]. rewrite word_token_values by done.
  rewrite (bool_decide_eq_false_2 (IdentifierToken = ClosedParToken)),
    (bool_decide_eq_false_2 (IdentifierToken = CommaToken)) by done.
  cbn [parseIdentifiersList]. by rewrite word_token_values.
Qed.

Lemma parseIdentifiersList_tail v vs (s : gset string) items :
  is_word v = true → Forall (λ v, is_word v = true) vs →
  parseIdentifiersList s ((word_token v, v) :: tail_tokens vs ++ (ClosedParToken, ")") :: items) =
  Ok (list_to_set (v :: vs) ∪ s, (ClosedParToken, ")") :: items).
Proof.
  intros Hv Hvs. revert v s Hv. induction Hvs as [|w vs Hw Hvs IH]; intros v s Hv.
  - cbn [tail_tokens mbind list_bind app]. rewrite parseIdentifiersList_word by done.
    cbn. do 2 f_equal. set_solver.
  - cbn [tail_tokens mbind list_bind app]. fold (tail_tokens vs).
    rewrite parseIdentifiersList_word by done.
    change (in_context ValuesContext CommaToken) with CommaToken. cbn match.
    rewrite parseIdentifiersList_comma, bool_decide_eq_false_2, IH by (done || set_solver).
    do 2 f_equal. set_solver.
Qed.

(** The tokens of the values of a set operator, between the parentheses. *)
Definition set_tokens vs : list ScannedItem :=
  match vs with
  | [] => []
  | v :: vs => (if bool_decide (v = "") then [] else [(word_token v, v)]) ++ tail_tokens vs
  end.

(** Sorted values without repetition: only the first one may be empty. *)
Definition set_values_ok vs : Prop :=
  match vs with
  | [] => False
  | v :: vs => (v = "" ∨ is_word v = true) ∧ Forall (λ v, is_word v = true) vs
  end.

Lemma parseValues_printed vs items :
  set_values_ok vs →
  parseValues ((OpenParToken, "(") :: set_tokens vs ++ (ClosedParToken, ")") :: items) =
  Ok (list_to_set vs, items).
Proof.
  destruct vs as [|v vs]; [done|]. intros [Hv Hvs]. unfold parseValues.
  cbn [consume mbind outcome_bind]. change (in_context ValuesContext OpenParToken) with OpenParToken.
  rewrite bool_decide_eq_false_2 by (intros H; by apply H). cbn [set_tokens].
  case_bool_decide as Hempty.
  - subst v. destruct vs as [|w vs].
    + cbn. do 2 f_equal.
    + inversion_clear Hvs as [|?? Hw Hvs2]. rename Hvs2 into Hvs.
      cbn [app tail_tokens mbind list_bind]. fold (tail_tokens vs).
      cbn [lookahead mbind outcome_bind fst].
      change (in_context ValuesContext CommaToken) with CommaToken. cbn match.
      rewrite parseIdentifiersList_comma, bool_decide_eq_true_2 by done.
      rewrite parseIdentifiersList_tail by done. cbn [mbind outcome_bind consume].
      change (in_context ValuesContext ClosedParToken) with ClosedParToken.
      rewrite bool_decide_eq_false_2 by (intros H; by apply H). do 2 f_equal. set_solver.
  - destruct Hv as [?|Hv]; [done|]. cbn [app lookahead mbind outcome_bind fst].
    rewrite word_token_values by done. rewrite parseIdentifiersList_tail by done.
    cbn [mbind outcome_bind consume].
    change (in_context ValuesContext ClosedParToken) with ClosedParToken.
    rewrite bool_decide_eq_false_2 by (intros H; by apply H). do 2 f_equal. set_solver.
Qed.

Lemma scan_set_values vs rest :
  set_values_ok vs → boundary rest = true → symbol_ends ")" rest = true →
  scan ("(" +:+ join "," vs +:+ ")" +:+ rest) =
  (OpenParToken, "(") :: set_tokens vs ++ (ClosedParToken, ")") :: scan rest.
Proof.
  destruct vs as [|v vs]; [done|]. intros [Hv Hvs] Hb Hend.
  rewrite join_tail, str_app_assoc.
  destruct (scan_tail vs (")" +:+ rest)) as [Htail Htb]; [done..|].
  assert (Hclose : scan (")" +:+ rest) = (ClosedParToken, ")") :: scan rest)
    by (apply scan_symbol; [symbol_in|done]).
  cbn [set_tokens]. case_bool_decide as Hempty.
  - subst v. cbn [String.append] in *. change (String "(" ?s) with ("(" +:+ s).
    rewrite (scan_symbol "(" OpenParToken).
    + cbn [String.append] in *. by rewrite Htail, Hclose.
    + symbol_in.
    + destruct vs as [|w vs]; [done|]. by rewrite tail_text_cons.
  - destruct Hv as [?|Hv]; [done|].
    rewrite (scan_symbol "(" OpenParToken) by (first [by apply word_ends | symbol_in]).
    by rewrite scan_word, Htail, Hclose by done.
Qed.
End parse_printed.

(** ** Requirements *)
Definition operator_token (o : Operator) : Token :=
  match o with
  | Equals => EqualsToken | DoubleEquals => DoubleEqualsToken | NotEquals => NotEqualsToken
  | PartialEquals => PartialEqualsToken | NotPartialEquals => NotPartialEqualsToken
  | In => InToken | NotIn => NotInToken | GreaterThan => GreaterThanToken
  | LessThan => LessThanToken | Exists | DoesNotExist => DoesNotExistToken
  end.

Definition operator_literal (o : Operator) : string :=
  match o with In => "in" | NotIn => "notin" | o => operator_symbol o end.

(** The tokens of a requirement. *)
Definition requirement_tokens (r : Requirement) : list ScannedItem :=
  (if bool_decide (r_operator r = DoesNotExist) then [(DoesNotExistToken, "!")] else []) ++
  (word_token (r_key r), r_key r) ::
  match r_operator r with
  | Exists | DoesNotExist => []
  | o =>
      (operator_token o, operator_literal o) ::
      if is_set_operator o then
        (OpenParToken, "(") :: set_tokens (r_strValues r) ++ [(ClosedParToken, ")")]
      else (λ v, (word_token v, v)) <$> r_strValues r
  end.

Section requirement_lemmas.
Implicit Types (r : Requirement) (rest : string) (items : list ScannedItem).

Lemma printable_single r :
  printable r → is_set_operator (r_operator r) = false →
  r_operator r ≠ Exists → r_operator r ≠ DoesNotExist →
  ∃ v, r_strValues r = [v] ∧ is_word v = true.
Proof.
  intros ((Herr & _) & _ & Hvs) Hset Hex Hdne. revert Herr.
  destruct (r_strValues r) as [|v [|w vs]].
  - by destruct (r_operator r).
  - inversion_clear Hvs as [|?? Hv _]. intros _. exists v. split; [done|].
    destruct Hv as [[? _]|?]; [congruence|done].
  - destruct (r_operator r); try done; unfold requirement_errors; rewrite bool_decide_eq_true_2 by done; done.
Qed.

Lemma printable_set r :
  printable r → is_set_operator (r_operator r) = true → set_values_ok (r_strValues r).
Proof.
  intros ((Herr & Hsort & Hnd & _) & _ & Hvs) Hset.
  destruct (r_strValues r) as [|v vs]; [by destruct (r_operator r)|].
  inversion_clear Hvs as [|?? Hv Hvs']. split; [naive_solver|].
  apply Forall_forall. intros w Hw. rewrite Forall_forall in Hvs'. destruct (Hvs' w Hw) as [[_ ->]|?]; [|done].
  exfalso. inversion_clear Hsort as [|?? _ Hle]. rewrite Forall_forall in Hle.
  specialize (Hle _ Hw). destruct v; [|done].
  apply list.NoDup_cons in Hnd as [Hnd _]. by apply Hnd, list_elem_of_In.
Qed.

Lemma scan_operator r rest :
  printable r → r_operator r ≠ Exists → r_operator r ≠ DoesNotExist →
  boundary rest = true → symbol_ends ")" rest = true →
  let vs := r_strValues r in
  let body := (if is_set_operator (r_operator r) then "(" else "") +:+
    values_text vs +:+ (if is_set_operator (r_operator r) then ")" else "") in
  scan (operator_symbol (r_operator r) +:+ body +:+ rest) =
  (operator_token (r_operator r), operator_literal (r_operator r)) ::
  (if is_set_operator (r_operator r) then
     (OpenParToken, "(") :: set_tokens vs ++ [(ClosedParToken, ")")]
   else (λ v, (word_token v, v)) <$> vs) ++ scan rest ∧
  boundary (operator_symbol (r_operator r) +:+ body +:+ rest) = true.
Proof.
  intros Hr Hex Hdne Hb Hend vs body.
  destruct (is_set_operator (r_operator r)) eqn:Hset.
  - assert (Hvals : values_text vs = join "," vs).
    { unfold values_text. destruct Hr as ((_ & Hsort & _) & _). unfold safeSort, sort_strings.
      subst vs. rewrite stable_sort_id by done. by destruct (r_strValues r) as [|v [|w vs]]. }
    pose proof (scan_set_values vs rest (printable_set r Hr Hset) Hb Hend) as Hscan.
    subst body. rewrite Hvals, !str_app_assoc.
    assert (Hop : ∀ o, is_set_operator o = true → ∀ s, scan (operator_symbol o +:+ "(" +:+ s) =
      (operator_token o, operator_literal o) :: scan ("(" +:+ s) ∧ boundary (operator_symbol o +:+ s) = true).
    { intros [] Hs s; try done; (split; [|done]); cbn [operator_symbol String.append];
        rewrite scan_space.
      - change (String "i" (String "n" ?x)) with ("in" +:+ x). rewrite scan_word, scan_space by done. done.
      - change (String "n" (String "o" (String "t" (String "i" (String "n" ?x))))) with ("notin" +:+ x).
        rewrite scan_word, scan_space by done. done. }
    destruct (Hop _ Hset (join "," vs +:+ ")" +:+ rest)) as [Hop1 Hop2].
    split; [|by destruct (r_operator r)].
    rewrite Hop1, Hscan. cbn [app]. do 2 f_equal. by rewrite <- app_assoc.
  - destruct (printable_single r Hr Hset Hex Hdne) as (v & Hv & Hword). subst body vs.
    rewrite Hv. cbn [String.append fmap list_fmap app]. rewrite str_app_nil_r.
    split; [|by destruct (r_operator r)].
    rewrite <- (scan_word v rest Hword Hb).
    destruct (r_operator r); try done; cbn [operator_symbol operator_token operator_literal];
      (apply scan_symbol; [symbol_in|by apply word_ends]).
Qed.

Lemma scan_requirement r rest :
  printable r → boundary rest = true → symbol_ends ")" rest = true →
  scan (Requirement_String r +:+ rest) = requirement_tokens r ++ scan rest.
Proof.
  intros Hr Hb Hend. pose proof (scan_operator r rest Hr) as Hop.
  unfold Requirement_String, requirement_tokens. rewrite !str_app_assoc.
  assert (Hkey : is_word (r_key r) = true) by apply Hr.
  assert (Hbang : ∀ s, scan ((if bool_decide (r_operator r = DoesNotExist) then "!" else "") +:+ r_key r +:+ s)
    = (if bool_decide (r_operator r = DoesNotExist) then [(DoesNotExistToken, "!")] else []) ++
      scan (r_key r +:+ s)).
  { intros s. case_bool_decide; [|done]. apply scan_symbol; [symbol_in|by apply word_ends]. }
  rewrite Hbang, <- app_assoc. f_equal. cbn [app].
  destruct (decide (r_operator r = Exists ∨ r_operator r = DoesNotExist)) as [Hex|Hex].
  - rewrite scan_word by (try done; destruct Hex as [-> | ->]; done).
    by destruct Hex as [-> | ->].
  - destruct Hop as [Hscan Hbound]; [naive_solver|naive_solver|done|done|].
    destruct (r_operator r) eqn:Ho; try (by destruct Hex; auto);
      (rewrite !str_app_assoc in Hscan; rewrite !str_app_assoc in Hbound; rewrite !str_app_assoc;
       rewrite scan_word by done; by rewrite Hscan).
Qed.
End requirement_lemmas.

Section roundtrip_lemmas.
Implicit Types (r : Requirement) (items : list ScannedItem).

(** Where a requirement may end. *)
Definition ends_requirement (t : Token) : Prop := t = CommaToken ∨ t = EndOfStringToken.

Lemma parseKey_exists r t l items :
  printable r → ends_requirement t →
  r_operator r = Exists ∨ r_operator r = DoesNotExist →
  parseKeyAndInferOperator (requirement_tokens r ++ (t, l) :: items) =
  Ok ((r_key r, Some (r_operator r)), (t, l) :: items).
Proof.
  intros Hr Ht Hop. assert (Hkey : is_word (r_key r) = true) by apply Hr.
  pose proof (word_token_values _ Hkey) as Hid.
  unfold parseKeyAndInferOperator, requirement_tokens.
  destruct Hop as [-> | ->]; cbn [bool_decide decide_rel app consume mbind outcome_bind].
  - rewrite (bool_decide_eq_false_2 (Exists = DoesNotExist)) by done.
    cbn [app consume mbind outcome_bind]. rewrite Hid.
    rewrite (bool_decide_eq_false_2 (IdentifierToken = DoesNotExistToken)) by done.
    cbn [mbind outcome_bind].
    rewrite (bool_decide_eq_false_2 (IdentifierToken ≠ IdentifierToken)) by (intros H; by apply H).
    cbn [lookahead mbind outcome_bind fst]. by destruct Ht as [-> | ->].
  - rewrite (bool_decide_eq_true_2 (DoesNotExist = DoesNotExist)) by done.
    cbn [app consume mbind outcome_bind].
    change (in_context ValuesContext DoesNotExistToken) with DoesNotExistToken.
    rewrite (bool_decide_eq_true_2 (DoesNotExistToken = DoesNotExistToken)) by done.
    cbn [consume mbind outcome_bind]. rewrite Hid.
    rewrite (bool_decide_eq_false_2 (IdentifierToken ≠ IdentifierToken)) by (intros H; by apply H).
    cbn [lookahead mbind outcome_bind fst]. by destruct Ht as [-> | ->].
Qed.

Lemma parseKey_binary key tok lit items :
  is_word key = true → in_context ValuesContext tok ≠ CommaToken → tok ≠ EndOfStringToken →
  parseKeyAndInferOperator ((word_token key, key) :: (tok, lit) :: items) =
  Ok ((key, None), (tok, lit) :: items).
Proof.
  intros Hkey Hc He. pose proof (word_token_values _ Hkey) as Hid.
  unfold parseKeyAndInferOperator. cbn [consume mbind outcome_bind]. rewrite Hid.
  rewrite (bool_decide_eq_false_2 (IdentifierToken = DoesNotExistToken)) by done.
  cbn [mbind outcome_bind].
  rewrite (bool_decide_eq_false_2 (IdentifierToken ≠ IdentifierToken)) by (intros H; by apply H).
  cbn [lookahead mbind outcome_bind fst].
  rewrite (bool_decide_eq_false_2 (in_context ValuesContext tok = EndOfStringToken)).
  - by rewrite (bool_decide_eq_false_2 (in_context ValuesContext tok = CommaToken)).
  - by rewrite in_context_eos.
Qed.

Lemma set_List_sorted_id (vs : list string) :
  StronglySorted (λ x y, String.leb x y = true) vs → NoDup vs → set_List (list_to_set vs) = vs.
Proof.
  intros Hs Hnd. unfold set_List.
  rewrite (sort_strings_unique (elements (list_to_set vs)) vs)
    by (by apply elements_list_to_set).
  by apply stable_sort_id.
Qed.

Lemma parseSingleValue_word v items :
  is_word v = true →
  parseSingleValue ((word_token v, v) :: items) = Ok (list_to_set [v], items).
Proof.
  intros Hv. unfold parseSingleValue. cbn [lookahead consume mbind outcome_bind fst].
  rewrite word_token_values by done. rewrite !bool_decide_eq_false_2 by done. cbn [orb].
  rewrite bool_decide_eq_true_2 by done. cbn. do 2 f_equal. set_solver.
Qed.

Lemma parseRequirement_printed r t l items :
  printable r → ends_requirement t →
  parseRequirement (requirement_tokens r ++ (t, l) :: items) = Ok (r, (t, l) :: items).
Proof.
  intros Hr Ht. destruct r as [key op vs]. unfold parseRequirement.
  assert (Hkey : is_word key = true) by apply Hr.
  destruct (decide (op = Exists ∨ op = DoesNotExist)) as [Hex|Hex].
  - rewrite parseKey_exists by done. cbn [r_key r_operator mbind outcome_bind].
    destruct Hr as ((Herr & _ & _ & Hlab) & _ & _). cbn in Hlab, Herr. rewrite (Hlab Hex).
    assert (vs = []) as ->.
    { destruct Hex; subst; cbn in Herr; destruct vs; cbn in Herr; done. }
    unfold NewRequirement. by rewrite Herr.
  - assert (Htoks : requirement_tokens (mkRequirement key op vs) ++ (t, l) :: items =
      (word_token key, key) :: (operator_token op, operator_literal op) ::
      (if is_set_operator op then (OpenParToken, "(") :: set_tokens vs ++ [(ClosedParToken, ")")]
       else (λ v, (word_token v, v)) <$> vs) ++ (t, l) :: items).
    { unfold requirement_tokens. cbn [r_key r_operator r_strValues].
      rewrite bool_decide_eq_false_2 by naive_solver. destruct op; naive_solver. }
    rewrite Htoks, parseKey_binary by (destruct op; naive_solver). cbn [mbind outcome_bind].
    assert (Hop : ∀ its, parseOperator ((operator_token op, operator_literal op) :: its) = Ok (op, its))
      by (destruct op; naive_solver).
    rewrite Hop. cbn [mbind outcome_bind].
    assert (Hvals : parse_operand op ((if is_set_operator op
        then (OpenParToken, "(") :: set_tokens vs ++ [(ClosedParToken, ")")]
        else (λ v, (word_token v, v)) <$> vs) ++ (t, l) :: items) = Ok (list_to_set vs, (t, l) :: items)).
    { unfold parse_operand. destruct (is_set_operator op) eqn:Hset.
      - cbn [app]. rewrite <- app_assoc. cbn [app]. apply parseValues_printed.
        by apply (printable_set (mkRequirement key op vs)).
      - destruct (printable_single (mkRequirement key op vs)) as (v & Hv & Hw);
          [done|done|naive_solver|naive_solver|]. cbn in Hv. subst vs. cbn [fmap list_fmap app].
        by apply parseSingleValue_word. }
    rewrite Hvals. cbn [mbind outcome_bind].
    destruct Hr as ((Herr & Hs & Hnd & _) & _ & _). cbn in Herr, Hs, Hnd.
    rewrite set_List_sorted_id by done. unfold NewRequirement. by rewrite Herr.
Qed.

(** A requirement starts with an identifier or "!". *)
Lemma requirement_tokens_start r items :
  printable r → ∃ tok lit rest, requirement_tokens r ++ items = (tok, lit) :: rest ∧
    (in_context ValuesContext tok = IdentifierToken ∨ in_context ValuesContext tok = DoesNotExistToken).
Proof.
  intros Hr. assert (Hkey : is_word (r_key r) = true) by apply Hr.
  pose proof (word_token_values _ Hkey). unfold requirement_tokens.
  case_bool_decide; eexists _, _, _; (split; [done|]); auto.
Qed.

(** The tokens of the requirements after the first one, with their commas. *)
Definition next_tokens (rs : list Requirement) : list ScannedItem :=
  List.concat ((λ r, (CommaToken, ",") :: requirement_tokens r) <$> rs).

Definition selector_tokens (rs : list Requirement) : list ScannedItem :=
  match rs with
  | [] => []
  | r :: rs => requirement_tokens r ++ next_tokens rs
  end.

Lemma parse_loop_printed fuel acc r rs :
  Forall printable (r :: rs) → length rs < fuel →
  parse_loop fuel acc (selector_tokens (r :: rs) ++ [(EndOfStringToken, "")]) = Ok (acc ++ r :: rs).
Proof.
  revert fuel acc r. induction rs as [|r2 rs IH]; intros fuel acc r Hrs Hfuel;
    (destruct fuel as [|fuel]; [lia|]); inversion_clear Hrs as [|?? Hr Hrs'];
    cbn [selector_tokens]; rewrite <- app_assoc; cbn [parse_loop].
  - destruct (requirement_tokens_start r (next_tokens [] ++ [(EndOfStringToken, "")]) Hr)
      as (tok & lit & rest & Heq & Htok).
    rewrite Heq at 1. cbn [lookahead mbind outcome_bind fst].
    change (next_tokens [] ++ [(EndOfStringToken, "")]) with [(EndOfStringToken, "")].
    rewrite parseRequirement_printed by (try done; by right).
    cbn [mbind outcome_bind consume]. by destruct Htok as [-> | ->].
  - destruct (requirement_tokens_start r (next_tokens (r2 :: rs) ++ [(EndOfStringToken, "")]) Hr)
      as (tok & lit & rest & Heq & Htok).
    rewrite Heq at 1. cbn [lookahead mbind outcome_bind fst].
    assert (Hnext : next_tokens (r2 :: rs) ++ [(EndOfStringToken, "")]
       = (CommaToken, ",") :: selector_tokens (r2 :: rs) ++ [(EndOfStringToken, "")]) by done.
    rewrite Hnext, parseRequirement_printed by (try done; by left).
    cbn [mbind outcome_bind consume].
    change (in_context ValuesContext CommaToken) with CommaToken. cbn match.
    inversion Hrs' as [|?? Hr2 _]; subst.
    destruct (requirement_tokens_start r2 (next_tokens rs ++ [(EndOfStringToken, "")]) Hr2)
      as (tok2 & lit2 & rest2 & Heq2 & Htok2).
    assert (Hla : lookahead ValuesContext (selector_tokens (r2 :: rs) ++ [(EndOfStringToken, "")]) =
      Ok (in_context ValuesContext tok2, lit2)).
    { cbn [selector_tokens]. rewrite <- app_assoc, Heq2. done. }
    rewrite Hla. cbn [mbind outcome_bind fst].
    destruct Htok as [-> | ->], Htok2 as [-> | ->]; rewrite IH by (try done; cbn in *; lia);
      by rewrite <- app_assoc.
Qed.

(** The text of a selector does not continue a comma. *)
Lemma selector_text_start r rs :
  printable r → symbol_ends "," (join "," (Requirement_String <$> r :: rs)) = true.
Proof.
  intros Hr. assert (Hkey : is_word (r_key r) = true) by apply Hr.
  assert (∃ s, join "," (Requirement_String <$> r :: rs) = Requirement_String r +:+ s) as [s ->].
  { destruct rs as [|r2 rs]; [exists ""; by rewrite str_app_nil_r|].
    by exists ("," +:+ join "," (Requirement_String <$> r2 :: rs)). }
  unfold Requirement_String. rewrite !str_app_assoc. case_bool_decide; [done|].
  change ("" +:+ ?x) with x. by apply word_ends.
Qed.

Lemma scan_selector r rs :
  Forall printable (r :: rs) →
  scan (Selector_String (r :: rs)) = selector_tokens (r :: rs) ++ [(EndOfStringToken, "")].
Proof.
  intros Hrs. unfold Selector_String. revert r Hrs.
  induction rs as [|r2 rs IH]; intros r Hrs; inversion_clear Hrs as [|?? Hr Hrs'].
  - cbn [fmap list_fmap]. unfold join. cbn [String.concat selector_tokens mbind list_bind].
    rewrite <- (str_app_nil_r (Requirement_String r)), scan_requirement by done.
    by rewrite app_nil_r.
  - change (join "," (Requirement_String <$> r :: r2 :: rs)) with
      (Requirement_String r +:+ "," +:+ join "," (Requirement_String <$> r2 :: rs)).
    assert (Hr2 : printable r2) by (by inversion Hrs').
    rewrite scan_requirement by done.
    rewrite (scan_symbol "," CommaToken); [|symbol_in|by apply selector_text_start].
    rewrite IH by done. cbn [selector_tokens].
    change (next_tokens (r2 :: rs)) with
      ((CommaToken, ",") :: requirement_tokens r2 ++ next_tokens rs).
    rewrite <- !app_assoc. cbn [app]. by rewrite <- !app_assoc.
Qed.
End roundtrip_lemmas.

(** * Theorems *)

(** C35: Parsing a filter never panics: the lexer comes to the end of every string, the
    parser never reads past the scanned items, and the rounds of its loop are bounded by
    their number. *)
Theorem ParseToRequirements_total selector : ParseToRequirements selector ≠ Panic.
Proof. apply parse_loop_ok; [apply scan_has_eos|lia]. Qed.

(** The requirements of a parsed filter obey the rules of [NewRequirement], have sorted
    values without repetition, and test the existence of labels only. *)
Theorem ParseToRequirements_valid selector rs :
  ParseToRequirements selector = Ok rs → Forall requirement_ok rs.
Proof. apply parse_loop_valid. constructor. Qed.

(** A selector written as text is parsed back to itself, when its keys and values are
    identifiers. *)
Theorem Selector_String_roundtrip rs :
  Forall printable rs → ParseToRequirements (Selector_String rs) = Ok rs.
Proof.
  intros Hrs. unfold ParseToRequirements, parse. destruct rs as [|r rs]; [done|].
  rewrite scan_selector by done. rewrite parse_loop_printed; [done|done|].
  rewrite length_app. cbn. enough (length rs ≤ length (next_tokens rs)).
  { rewrite length_app. lia. }
  clear Hrs. unfold next_tokens. induction rs as [|r2 rs IH]; cbn; [lia|]. rewrite length_app. lia.
Qed.

Lemma ParseToRequirements_valid_witness :
  Forall requirement_ok [mkRequirement "spec.n" GreaterThan ["5"]].
Proof. apply (ParseToRequirements_valid "spec.n gt 5"). vm_compute. reflexivity. Defined.

Lemma Selector_String_roundtrip_witness :
  ParseToRequirements (Selector_String [mkRequirement "metadata.name" NotIn [""; "a"; "b"]]) =
  Ok [mkRequirement "metadata.name" NotIn [""; "a"; "b"]].
Proof.
  apply (Selector_String_roundtrip [mkRequirement "metadata.name" NotIn [""; "a"; "b"]]).
  constructor; [|constructor]. split_and!.
  - split_and!; [reflexivity| | |].
    + repeat constructor.
    + apply (bool_decide_unpack (NoDup [""; "a"; "b"])). by vm_compute.
    + intros [|]; done.
  - reflexivity.
  - repeat (apply List.Forall_cons; [first [by left | by right]|]). constructor.
Defined.
