(* ===== verification/SqlQuery.v ===== *)
(** * SQL queries of the list option indexer

    pkg/sqlcache/sqltypes/types.go, pkg/sqlcache/partition/partition.go,
    pkg/sqlcache/db/utility.go and the part of
    pkg/sqlcache/informer/listoption_indexer.go that turns list options and
    partitions into a parameterised SQL query and runs it. *)
From S2P Require Import Prelude GoLib.

(** ** Data *)
Module sqltypes.
(** A string type with eight constants; [OtherOp] is any other string. *)
Inductive Op := Eq | NotEq | Exists | NotExists | In | NotIn | Lt | Gt | OtherOp (s : string).
#[export] Instance Op_eq_dec : EqDecision Op.
Proof. solve_decision. Defined.

Inductive SortOrder := ASC | DESC.
#[export] Instance SortOrder_eq_dec : EqDecision SortOrder.
Proof. solve_decision. Defined.

Record Filter := mkFilter {
  Field : list string; Matches : list string; op : Op; Partial : bool
}.
Record OrFilter := mkOrFilter { Filters : list Filter }.
Record Sort := mkSort { Fields : list string; Order : SortOrder; SortAsIP : bool }.
Record SortList := mkSortList { SortDirectives : list Sort }.
Record Pagination := mkPagination { PageSize : Z; Page : Z }.
Record ListOptions := mkListOptions {
  lo_Filters : list OrFilter;
  ProjectsOrNamespaces : OrFilter;
  lo_SortList : SortList;
  lo_Pagination : Pagination;
  Revision : string
}.
End sqltypes.
Export (hints) sqltypes.

Module partition.
Record Partition := mkPartition {
  Passthrough : bool; Namespace : string; All : bool; Names : gset string
}.
End partition.

(** Values bound to the placeholders of a query. *)
Class FloatParser := {
  float64 : Type;
  (** [strconv.ParseFloat(s, 32)], [None] when it returns an error. *)
  ParseFloat : string → option float64
}.

Inductive param `{FloatParser} :=
  | PString (s : string)
  | PFloat (f : float64)
  | PInt (z : Z).

Inductive sql_error :=
  | ErrInvalidColumn (column : string)
  | ErrUnknownRevision
  | ErrNumber (text : string)             (* an error of package strconv *)
  | ErrNoJoinIndex (label : string)       (* internal error: no join-table index *)
  | ErrProjectsOp (op : sqltypes.Op)      (* supports only 'IN' or 'NOT IN' *)
  | ErrNullTest                           (* NULL tests are for labels only *)
  | ErrUnrecognizedOperator
  | ErrBackend (text : string).           (* an error of the database *)

Record QueryInfo `{FloatParser} := mkQueryInfo {
  query : string;
  params : list param;
  countQuery : string;
  countParams : list param;
  limit : Z;
  offset : Z
}.

Arguments mkQueryInfo {_}.

Record ListOptionIndexer := mkIndexer {
  namespaced : bool;
  indexedFields : list string;
  latestRV : string
}.

Definition projectIDFieldLabel : string := "field.cattle.io/projectId".
Definition namespacesDbName : string := "_v1_Namespace".
Definition escapeBackslashDirective : string := " ESCAPE '\'".

(** A name between double quotes. *)
Definition quoted (s : string) : string := dq +:+ s +:+ dq.

(** ** Columns *)

Definition letter_or_underscore (c : ascii) : bool :=
  let n := N_of_ascii c in
  (bool_decide (65 ≤ n ≤ 90)%N || bool_decide (97 ≤ n ≤ 122)%N || bool_decide (n = 95)%N).

(** The regular expression [^[a-zA-Z_][a-zA-Z0-9_]*$]. *)
Definition simpleName_Match (s : string) : bool :=
  match s with
  | "" => false
  | String c r => letter_or_underscore c && all_chars (λ c, letter_or_underscore c || is_digit c) r
  end.

Definition smartJoin (s : list string) : string :=
  match s with
  | [] => ""
  | [x] => x
  | _ =>
      let lastBit := default "" (list.last s) in
      if simpleName_Match lastBit then join "." s
      else join "." (removelast s) +:+ "[" +:+ lastBit +:+ "]"
  end.

Definition Sanitize (s : string) : string := replace_char dquote "" s.

Definition toColumnName (s : list string) : string := Sanitize (smartJoin s).

Definition defaultIndexedFields : list string := ["metadata.name"; "metadata.creationTimestamp"].
Definition defaultIndexNamespaced : string := "metadata.namespace".

(** The columns of the indexer built by [NewListOptionIndexer]. *)
Definition new_indexedFields (fields : list (list string)) (namespaced : bool) : list string :=
  defaultIndexedFields ++ (if namespaced then [defaultIndexNamespaced] else []) ++
  (toColumnName <$> fields).

Definition validateColumn (l : ListOptionIndexer) (column : string) : bool :=
  existsb (String.eqb column) (indexedFields l).

(** The greatest index between 1 and [i] whose field has no character but digits. *)
Fixpoint last_numeric (fields : list string) (i : nat) : option nat :=
  match i with
  | 0 => None
  | S i' =>
      match fields !! i with
      | Some f => if all_chars is_digit f then Some i else last_numeric fields i'
      | None => last_numeric fields i'
      end
  end.

Definition getValidFieldEntry (l : ListOptionIndexer) (prefix : string) (fields : list string)
    : outcome sql_error string :=
  let columnName := toColumnName fields in
  if validateColumn l columnName then Ok (prefix +:+ "." +:+ quoted columnName)
  else if decide (length fields ≤ 2) then Err (ErrInvalidColumn columnName)
  else match last_numeric fields (length fields - 1) with
       | None => Err (ErrInvalidColumn columnName)
       | Some idx =>
           let indexField := nth idx fields "" in
           let leadingColumnName := toColumnName (take idx fields ++ drop (S idx) fields) in
           if validateColumn l leadingColumnName then
             Ok ("extractBarredValue(" +:+ prefix +:+ "." +:+ quoted leadingColumnName +:+ ", " +:+
                 quoted indexField +:+ ")")
           else Err (ErrInvalidColumn columnName)
       end.

(** ** Labels *)
Definition isLabelFilter (f : sqltypes.Filter) : bool :=
  match sqltypes.Field f with
  | a :: b :: _ => String.eqb a "metadata" && String.eqb b "labels"
  | _ => false
  end.

Definition hasLabelFilter (fs : list sqltypes.OrFilter) : bool :=
  existsb (λ outer, existsb isLabelFilter (sqltypes.Filters outer)) fs.

Definition isLabelsFieldList (fields : list string) : bool :=
  match fields with
  | [a; b; _] => String.eqb a "metadata" && String.eqb b "labels"
  | _ => false
  end.

(** An index into a slice panics out of range. *)
Definition at_index (l : list string) (i : nat) : outcome sql_error string :=
  match l !! i with Some x => Ok x | None => Panic end.

(** The operators that select objects by a label they carry. *)
Definition binds_label (o : sqltypes.Op) : bool :=
  match o with
  | sqltypes.In | sqltypes.Eq | sqltypes.Gt | sqltypes.Lt | sqltypes.Exists => true
  | _ => false
  end.

Definition sort_labels (ds : list sqltypes.Sort) : gmap string bool :=
  foldl (λ m d,
    match isLabelsFieldList (sqltypes.Fields d), sqltypes.Fields d !! 2 with
    | true, Some label => <[label := true]> m
    | _, _ => m
    end) ∅ ds.

Definition unbind_label (m : gmap string bool) (f : sqltypes.Filter)
    : outcome sql_error (gmap string bool) :=
  if isLabelFilter f && binds_label (sqltypes.op f) then
    label ← at_index (sqltypes.Field f) 2; Ok (delete label m)
  else Ok m.

Definition getUnboundSortLabels `{MapRange} (lo : sqltypes.ListOptions)
    : outcome sql_error (list string) :=
  let directives := sqltypes.SortDirectives (sqltypes.lo_SortList lo) in
  match directives with
  | [] => Ok []
  | _ =>
      unbound ← foldl_outcome (λ m andFilter,
        foldl_outcome unbind_label m (sqltypes.Filters andFilter))
        (sort_labels directives) (sqltypes.lo_Filters lo);
      Ok (range_keys unbound)
  end.

(** The join table of each label: [joinTableIndexByLabelName]. *)
Abbreviation join_table := (gmap string nat).

(** Without a next number an unknown label is an error. *)
Definition internLabel (labelName : string) (jt : join_table) (nextNum : option nat)
    : outcome sql_error (nat * join_table) :=
  match jt !! labelName with
  | Some i => Ok (i, jt)
  | None =>
      match nextNum with
      | None => Err (ErrNoJoinIndex labelName)
      | Some n => Ok (n, <[labelName := n]> jt)
      end
  end.

(** The alias [lt%d] of a label table. *)
Definition lt_name (i : nat) : string := "lt" +:+ pretty i.

Section query.
Context `{MapRange} `{FloatParser}.

(** The parts of a WITH clause: definitions, parameters and joins. *)
Fixpoint getWithParts_from (i1 : nat) (unboundSortLabels : list string) (jt : join_table)
    (dbName mainFuncPrefix : string)
    : outcome sql_error (list string * list param * list string * join_table) :=
  match unboundSortLabels with
  | [] => Ok ([], [], [], jt)
  | label :: rest =>
      r ← internLabel label jt (Some i1);
      let '(idx, jt) := r in
      let part := lt_name idx +:+ "(key, value) AS (" +:+ nl +:+
        "SELECT key, value FROM " +:+ quoted (dbName +:+ "_labels") +:+ nl +:+
        "  WHERE label = ?" +:+ nl +:+ ")" in
      let joinPart := "LEFT OUTER JOIN " +:+ lt_name idx +:+ " ON " +:+ mainFuncPrefix +:+
        ".key = " +:+ lt_name idx +:+ ".key" in
      r ← getWithParts_from (S i1) rest jt dbName mainFuncPrefix;
      let '(parts, ps, joinParts, jt) := r in
      Ok (part :: parts, PString label :: ps, joinPart :: joinParts, jt)
  end.
Definition getWithParts := getWithParts_from 1.

(** ** Clauses *)

(** [(?, ?, ..., ?)] for [n] values, with at least one placeholder. *)
Definition placeholders (n : nat) : string := "(?" +:+ repeat_str ", ?" (n - 1) +:+ ")".

(** The target of IN for a field. *)
Definition field_target (matches : list string) : string :=
  match matches with [] => "()" | _ => placeholders (length matches) end.

(** [formatMatchTargetWithFormatter], with the format [%%%s%%] when [partial] is true. *)
Definition formatMatchTargetWithFormatter (match_ : string) (partial : bool) : string :=
  let m := replace_char "\" "\\" match_ in
  let m := replace_char "_" "\_" m in
  let m := replace_char "%" "\%" m in
  if partial then "%" +:+ m +:+ "%" else m.

Definition formatMatchTarget (filter : sqltypes.Filter) : outcome sql_error string :=
  m ← at_index (sqltypes.Matches filter) 0;
  Ok (formatMatchTargetWithFormatter m (sqltypes.Partial filter)).

Definition prepareComparisonParameters (o : sqltypes.Op) (target : string)
    : outcome sql_error (string * float64) :=
  match ParseFloat target with
  | None => Err (ErrNumber target)
  | Some num =>
      match o with
      | sqltypes.Lt => Ok ("<", num)
      | sqltypes.Gt => Ok (">", num)
      | _ => Err ErrUnrecognizedOperator
      end
  end.

(** The comparison of an equality filter and its escape directive. *)
Definition eq_operator (negated partial : bool) : string * string :=
  match negated, partial with
  | false, true => ("LIKE", escapeBackslashDirective)
  | false, false => ("=", "")
  | true, true => ("NOT LIKE", escapeBackslashDirective)
  | true, false => ("!=", "")
  end.

Definition in_operator (o : sqltypes.Op) : string :=
  match o with sqltypes.NotIn => "NOT IN" | _ => "IN" end.

Definition getFieldFilter (l : ListOptionIndexer) (filter : sqltypes.Filter) (prefix : string)
    : outcome sql_error (string * list param) :=
  fieldEntry ← getValidFieldEntry l prefix (sqltypes.Field filter);
  match sqltypes.op filter with
  | sqltypes.Eq | sqltypes.NotEq =>
      let '(opString, escapeString) :=
        eq_operator (bool_decide (sqltypes.op filter = sqltypes.NotEq)) (sqltypes.Partial filter) in
      target ← formatMatchTarget filter;
      Ok (fieldEntry +:+ " " +:+ opString +:+ " ?" +:+ escapeString, [PString target])
  | sqltypes.Lt | sqltypes.Gt =>
      m ← at_index (sqltypes.Matches filter) 0;
      r ← prepareComparisonParameters (sqltypes.op filter) m;
      let '(sym, target) := r in
      Ok (fieldEntry +:+ " " +:+ sym +:+ " ?", [PFloat target])
  | sqltypes.Exists | sqltypes.NotExists => Err ErrNullTest
  | sqltypes.In | sqltypes.NotIn =>
      Ok (fieldEntry +:+ " " +:+ in_operator (sqltypes.op filter) +:+ " " +:+
            field_target (sqltypes.Matches filter), PString <$> sqltypes.Matches filter)
  | sqltypes.OtherOp _ => Err ErrUnrecognizedOperator
  end.

Definition getProjectsOrNamespacesFieldFilter (l : ListOptionIndexer) (filter : sqltypes.Filter)
    : outcome sql_error (string * list param) :=
  fieldEntry ← getValidFieldEntry l "nsf" (sqltypes.Field filter);
  match sqltypes.op filter with
  | sqltypes.In | sqltypes.NotIn =>
      Ok (fieldEntry +:+ " " +:+ in_operator (sqltypes.op filter) +:+ " " +:+
            field_target (sqltypes.Matches filter), PString <$> sqltypes.Matches filter)
  | _ => Err ErrUnrecognizedOperator
  end.

(** [lt%d.label = ? AND lt%d.value] followed by a comparison. *)
Definition label_test (index : nat) (comparison : string) : string :=
  lt_name index +:+ ".label = ? AND " +:+ lt_name index +:+ ".value " +:+ comparison.

Definition getProjectsOrNamespacesLabelFilter (index : nat) (filter : sqltypes.Filter)
    (dbName : string) : outcome sql_error (string * list param) :=
  labelName ← at_index (sqltypes.Field filter) 2;
  let target := field_target (sqltypes.Matches filter) in
  let matches := PString labelName :: (PString <$> sqltypes.Matches filter) in
  match sqltypes.op filter with
  | sqltypes.In => Ok (label_test index ("IN " +:+ target), matches)
  | sqltypes.NotIn =>
      let clause1 := "(" +:+ label_test index ("NOT IN " +:+ target) +:+ ")" in
      let lt1 := lt_name index +:+ "i1" in
      let clause2 := "(o.key NOT IN (SELECT o1.key FROM " +:+ quoted dbName +:+ " o1" +:+ nl +:+
        "		JOIN " +:+ quoted (dbName +:+ "_fields") +:+ " f1 ON o1.key = f1.key" +:+ nl +:+
        "		LEFT OUTER JOIN " +:+ quoted "_v1_Namespace_fields" +:+ " nsf1 ON f1." +:+
        quoted "metadata.namespace" +:+ " = nsf1." +:+ quoted "metadata.name" +:+ nl +:+
        "		LEFT OUTER JOIN " +:+ quoted "_v1_Namespace_labels" +:+ " " +:+ lt1 +:+
        " ON nsf1.key = " +:+ lt1 +:+ ".key" +:+ nl +:+
        "		WHERE " +:+ lt1 +:+ ".label = ?))" in
      Ok (clause1 +:+ " OR " +:+ clause2, matches ++ [PString labelName])
  | _ => Err ErrUnrecognizedOperator
  end.

(** The clause of an operator NotExists. *)
Definition label_not_exists (index : nat) (dbName : string) : string :=
  let lt1 := lt_name index +:+ "i1" in
  "o.key NOT IN (SELECT o1.key FROM " +:+ quoted dbName +:+ " o1" +:+ nl +:+
  "		JOIN " +:+ quoted (dbName +:+ "_fields") +:+ " f1 ON o1.key = f1.key" +:+ nl +:+
  "		LEFT OUTER JOIN " +:+ quoted (dbName +:+ "_labels") +:+ " " +:+ lt1 +:+
  " ON o1.key = " +:+ lt1 +:+ ".key" +:+ nl +:+
  "		WHERE " +:+ lt1 +:+ ".label = ?)".

Definition getLabelFilter (index : nat) (filter : sqltypes.Filter) (dbName : string)
    : outcome sql_error (string * list param) :=
  labelName ← at_index (sqltypes.Field filter) 2;
  let not_exists := label_not_exists index dbName in
  match sqltypes.op filter with
  | sqltypes.Eq =>
      let '(opString, escapeString) := eq_operator false (sqltypes.Partial filter) in
      target ← formatMatchTarget filter;
      Ok (label_test index (opString +:+ " ?" +:+ escapeString),
          [PString labelName; PString target])
  | sqltypes.NotEq =>
      let '(opString, escapeString) := eq_operator true (sqltypes.Partial filter) in
      target ← formatMatchTarget filter;
      Ok ("(" +:+ not_exists +:+ ") OR (" +:+
            label_test index (opString +:+ " ?" +:+ escapeString) +:+ ")",
          [PString labelName; PString labelName; PString target])
  | sqltypes.Lt | sqltypes.Gt =>
      m ← at_index (sqltypes.Matches filter) 0;
      r ← prepareComparisonParameters (sqltypes.op filter) m;
      let '(sym, target) := r in
      Ok (label_test index (sym +:+ " ?"), [PString labelName; PFloat target])
  | sqltypes.Exists => Ok (lt_name index +:+ ".label = ?", [PString labelName])
  | sqltypes.NotExists => Ok (not_exists, [PString labelName])
  | sqltypes.In =>
      Ok (label_test index ("IN " +:+ placeholders (length (sqltypes.Matches filter))),
          PString labelName :: (PString <$> sqltypes.Matches filter))
  | sqltypes.NotIn =>
      Ok ("(" +:+ not_exists +:+ ") OR (" +:+
            label_test index ("NOT IN " +:+ placeholders (length (sqltypes.Matches filter))) +:+ ")",
          PString labelName :: PString labelName :: (PString <$> sqltypes.Matches filter))
  | sqltypes.OtherOp _ => Err ErrUnrecognizedOperator
  end.

(** The clause of one filter of an OR list. *)
Definition filter_clause (l : ListOptionIndexer) (dbName : string) (jt : join_table)
    (filter : sqltypes.Filter) : outcome sql_error (string * list param) :=
  if isLabelFilter filter then
    label ← at_index (sqltypes.Field filter) 2;
    r ← internLabel label jt None;
    getLabelFilter r.1 filter dbName
  else getFieldFilter l filter "f".

Definition buildORClauseFromFilters (l : ListOptionIndexer) (orFilters : sqltypes.OrFilter)
    (dbName : string) (jt : join_table) : outcome sql_error (string * list param) :=
  cs ← map_outcome (filter_clause l dbName jt) (sqltypes.Filters orFilters);
  Ok (match cs.*1 with
      | [] => ""
      | [clause] => clause
      | clauses => "(" +:+ join ") OR (" clauses +:+ ")"
      end, concat cs.*2).

Definition projects_clause (l : ListOptionIndexer) (dbName : string) (jt : join_table)
    (filter : sqltypes.Filter) : outcome sql_error (string * list param) :=
  if isLabelFilter filter then
    label ← at_index (sqltypes.Field filter) 2;
    r ← internLabel label jt None;
    getProjectsOrNamespacesLabelFilter r.1 filter dbName
  else getProjectsOrNamespacesFieldFilter l filter.

Definition buildClauseFromProjectsOrNamespaces (l : ListOptionIndexer)
    (orFilters : sqltypes.OrFilter) (dbName : string) (jt : join_table)
    : outcome sql_error (string * list param) :=
  match sqltypes.Filters orFilters with
  | [] => Ok ("", [])
  | f :: _ =>
      cs ← map_outcome (projects_clause l dbName jt) (sqltypes.Filters orFilters);
      match sqltypes.op f with
      | sqltypes.In => Ok ("(" +:+ join ") OR (" cs.*1 +:+ ")", concat cs.*2)
      | sqltypes.NotIn => Ok ("(" +:+ join ") AND (" cs.*1 +:+ ")", concat cs.*2)
      | o => Err (ErrProjectsOp o)
      end
  end.

Definition buildSortLabelsClause (labelName : string) (jt : join_table) (isAsc sortAsIP : bool)
    : outcome sql_error string :=
  r ← internLabel labelName jt None;
  let fieldEntry := lt_name r.1 +:+ ".value" in
  let fieldEntry := if sortAsIP then "inet_aton(" +:+ fieldEntry +:+ ")" else fieldEntry in
  Ok (fieldEntry +:+ (if isAsc then " ASC NULLS LAST" else " DESC NULLS FIRST")).

(** ** [constructQuery], phase by phase *)

(** A requested revision may not be newer than the latest one of the indexer. *)
Definition check_revision (l : ListOptionIndexer) (lo : sqltypes.ListOptions)
    : outcome sql_error unit :=
  if String.eqb (sqltypes.Revision lo) "" then Ok tt else
  match parse_int (latestRV l), parse_int (sqltypes.Revision lo) with
  | None, _ => Err (ErrNumber (latestRV l))
  | _, None => Err (ErrNumber (sqltypes.Revision lo))
  | Some current, Some requested =>
      if bool_decide (current < requested)%Z then Err ErrUnknownRevision else Ok tt
  end.

(** The join of the label table of one filter, unless it is joined already. *)
Definition label_join (dbName : string) (st : string * join_table) (filter : sqltypes.Filter)
    : outcome sql_error (string * join_table) :=
  let '(query, jt) := st in
  if isLabelFilter filter then
    labelName ← at_index (sqltypes.Field filter) 2;
    match jt !! labelName with
    | Some _ => Ok (query, jt)
    | None =>
        let jtIndex := S (size jt) in
        Ok (query +:+ nl +:+ "  LEFT OUTER JOIN " +:+ quoted (dbName +:+ "_labels") +:+ " " +:+
              lt_name jtIndex +:+ " ON o.key = " +:+ lt_name jtIndex +:+ ".key",
            <[labelName := jtIndex]> jt)
    end
  else Ok (query, jt).

Definition label_joins (dbName : string) (st : string * join_table)
    (fs : list sqltypes.OrFilter) : outcome sql_error (string * join_table) :=
  foldl_outcome (λ st orFilter, foldl_outcome (label_join dbName) st (sqltypes.Filters orFilter))
    st fs.

(** The joins with the tables of namespaces. *)
Definition projects_joins (st : string * join_table) : string * join_table :=
  let '(query, jt) := st in
  let jtIndex := S (size jt) in
  (query +:+ nl +:+ "  LEFT OUTER JOIN " +:+ quoted (namespacesDbName +:+ "_fields") +:+
     " nsf ON f." +:+ quoted "metadata.namespace" +:+ " = nsf." +:+ quoted "metadata.name" +:+
   nl +:+ "  LEFT OUTER JOIN " +:+ quoted (namespacesDbName +:+ "_labels") +:+ " " +:+
     lt_name jtIndex +:+ " ON nsf.key = " +:+ lt_name jtIndex +:+ ".key",
   match jt !! projectIDFieldLabel with
   | Some _ => jt
   | None => <[projectIDFieldLabel := jtIndex]> jt
   end).

(** SELECT ... FROM ... JOIN up to the joins of the sort labels. *)
Definition select_text (distinct : bool) (dbName : string) (joinParts : list string) : string :=
  "SELECT " +:+ (if distinct then "DISTINCT " else "") +:+
  "o.object, o.objectnonce, o.dekid FROM " +:+ quoted dbName +:+ " o" +:+ nl +:+
  "  JOIN " +:+ quoted (dbName +:+ "_fields") +:+ " f ON o.key = f.key" +:+
  match joinParts with [] => "" | _ => nl +:+ "  " +:+ join (nl +:+ "  ") joinParts end.

(** The WITH, SELECT and JOIN parts. *)
Definition select_part (lo : sqltypes.ListOptions) (unboundSortLabels : list string)
    (dbName : string) : outcome sql_error (string * list param * join_table) :=
  let projects := sqltypes.Filters (sqltypes.ProjectsOrNamespaces lo) in
  let queryUsesLabels := hasLabelFilter (sqltypes.lo_Filters lo) || negb (bool_decide (projects = [])) in
  r ← (match unboundSortLabels with
       | [] => Ok ("", [], [], ∅)
       | _ =>
           r ← getWithParts unboundSortLabels ∅ dbName "o";
           let '(parts, ps, joinParts, jt) := r in
           Ok ("WITH " +:+ join ("," +:+ nl) parts +:+ nl, ps, joinParts, jt)
       end);
  let '(query, ps, joinParts, jt) := r in
  let query := query +:+ select_text queryUsesLabels dbName joinParts in
  st ← (if queryUsesLabels then label_joins dbName (query, jt) (sqltypes.lo_Filters lo)
        else Ok (query, jt));
  let '(query, jt) := match projects with [] => st | _ => projects_joins st end in
  Ok (query, ps, jt).

(** The WHERE clauses of the filters; an empty OR list gives none. *)
Definition where_filters (l : ListOptionIndexer) (lo : sqltypes.ListOptions) (dbName : string)
    (jt : join_table) : outcome sql_error (list string * list param) :=
  cs ← map_outcome (λ orFilters, buildORClauseFromFilters l orFilters dbName jt)
         (sqltypes.lo_Filters lo);
  let cs := List.filter (λ c, negb (String.eqb c.1 "")) cs in
  Ok (cs.*1, concat cs.*2).

Definition where_projects (l : ListOptionIndexer) (lo : sqltypes.ListOptions) (dbName : string)
    (jt : join_table) : outcome sql_error (list string * list param) :=
  match sqltypes.Filters (sqltypes.ProjectsOrNamespaces lo) with
  | [] => Ok ([], [])
  | _ =>
      c ← buildClauseFromProjectsOrNamespaces l (sqltypes.ProjectsOrNamespaces lo) dbName jt;
      Ok ([c.1], c.2)
  end.

Definition namespace_clause : string := "f." +:+ quoted "metadata.namespace" +:+ " = ?".

(** The WHERE clause of a namespace, unless it stands for all of them. *)
Definition where_namespace (namespace : string) : list string * list param :=
  if String.eqb namespace "" || String.eqb namespace "*" then ([], [])
  else ([namespace_clause], [PString namespace]).

(** The conditions of one partition and their parameters. *)
Definition partition_conditions (p : partition.Partition) : list string * list param :=
  if partition.Passthrough p then ([], []) else
  let '(cs, ps) := where_namespace (partition.Namespace p) in
  if partition.All p then (cs, ps) else
  let sortedNames := sort_strings (elements (partition.Names p)) in
  match sortedNames with
  | [] => (cs ++ ["FALSE"], ps)
  | _ => (cs ++ ["f." +:+ quoted "metadata.name" +:+ " IN " +:+ placeholders (length sortedNames)],
          ps ++ (PString <$> sortedNames))
  end.

Definition where_partitions (partitions : list partition.Partition) : list string * list param :=
  let conditions := partition_conditions <$> partitions in
  let partitionClauses := join " AND " <$> List.filter (λ cs, negb (bool_decide (cs = []))) conditions.*1 in
  ((if decide (length partitions = 0) then ["FALSE"] else []) ++
   match partitionClauses with
   | [] => []
   | [clause] => [clause]
   | clauses => ["(" +:+ nl +:+ "      (" +:+ join (") OR" +:+ nl +:+ "      (") clauses +:+ ")" +:+ nl +:+ ")"]
   end, concat conditions.*2).

Definition where_part (whereClauses : list string) : string :=
  match whereClauses with
  | [] => ""
  | _ => nl +:+ "  WHERE" +:+ nl +:+ "    " +:+
         join (" AND" +:+ nl +:+ "    ") ((λ c, "(" +:+ c +:+ ")") <$> whereClauses)
  end.

(** The ORDER BY term of one sort directive. *)
Definition order_clause (l : ListOptionIndexer) (jt : join_table) (d : sqltypes.Sort)
    : outcome sql_error string :=
  let isAsc := bool_decide (sqltypes.Order d = sqltypes.ASC) in
  if isLabelsFieldList (sqltypes.Fields d) then
    label ← at_index (sqltypes.Fields d) 2;
    buildSortLabelsClause label jt isAsc (sqltypes.SortAsIP d)
  else
    fieldEntry ← getValidFieldEntry l "f" (sqltypes.Fields d);
    let fieldEntry := if sqltypes.SortAsIP d then "inet_aton(" +:+ fieldEntry +:+ ")" else fieldEntry in
    Ok (fieldEntry +:+ (if isAsc then " ASC" else " DESC")).

Definition order_part (l : ListOptionIndexer) (lo : sqltypes.ListOptions) (jt : join_table)
    : outcome sql_error string :=
  match sqltypes.SortDirectives (sqltypes.lo_SortList lo) with
  | [] => Ok (nl +:+ "  ORDER BY f." +:+
              quoted (if namespaced l then "id" else "metadata.name") +:+ " ASC ")
  | ds =>
      cs ← map_outcome (order_clause l jt) ds;
      Ok (nl +:+ "  ORDER BY " +:+ join ", " cs)
  end.

(** The offset of a page, computed in Go's [int]. *)
Definition page_offset (p : sqltypes.Pagination) : Z :=
  if bool_decide (1 ≤ sqltypes.Page p)%Z
  then wrap64 (sqltypes.PageSize p * (sqltypes.Page p - 1))%Z else 0%Z.

Definition limit_clause : string := nl +:+ "  LIMIT ?".
Definition offset_clause : string := nl +:+ "  OFFSET ?".

(** LIMIT and OFFSET; without either the query has no count query. *)
Definition paginate (query : string) (ps : list param) (order : string) (p : sqltypes.Pagination)
    : QueryInfo :=
  let limit := sqltypes.PageSize p in
  let offset := page_offset p in
  let with_limit := bool_decide (0 < limit)%Z in
  let with_offset := bool_decide (0 < offset)%Z in
  let all_params := ps ++ (if with_limit then [PInt limit] else []) ++
                    (if with_offset then [PInt offset] else []) in
  if with_limit || with_offset then
    mkQueryInfo (query +:+ order +:+ (if with_limit then limit_clause else "") +:+
                   (if with_offset then offset_clause else "")) all_params
      ("SELECT COUNT(*) FROM (" +:+ query +:+ ")") ps limit offset
  else mkQueryInfo (query +:+ order) all_params "" [] 0 0.

Definition constructQuery (l : ListOptionIndexer) (lo : sqltypes.ListOptions)
    (partitions : list partition.Partition) (namespace dbName : string)
    : outcome sql_error QueryInfo :=
  unboundSortLabels ← getUnboundSortLabels lo;
  _ ← check_revision l lo;
  r ← select_part lo unboundSortLabels dbName;
  let '(query, withParams, jt) := r in
  wf ← where_filters l lo dbName jt;
  wp ← where_projects l lo dbName jt;
  let wn := where_namespace namespace in
  let wa := where_partitions partitions in
  let whereClauses := wf.1 ++ wp.1 ++ wn.1 ++ wa.1 in
  let ps := withParams ++ wf.2 ++ wp.2 ++ wn.2 ++ wa.2 in
  let query := query +:+ where_part whereClauses in
  order ← order_part l lo jt;
  Ok (paginate query ps order (sqltypes.lo_Pagination lo)).

(** ** Running the query *)

(** The database: the rows of a query, the number a count query returns, and the
    error of closing the statement. *)
Class Database := mkDatabase {
  Item : Type;
  QueryRows : string → list param → outcome sql_error (list Item);
  QueryCount : string → list param → outcome sql_error Z;
  CloseStmt : string → option sql_error
}.

Record ListResult `{Database} := mkListResult {
  items : list Item; total : Z; continueToken : string; resourceVersion : string
}.

#[global] Arguments mkListResult {_}.

Definition executeQuery `{Database} (l : ListOptionIndexer) (info : QueryInfo)
    : outcome sql_error ListResult :=
  r ← (its ← QueryRows (query info) (params info);
       total ← (if String.eqb (countQuery info) "" then Ok (Z.of_nat (length its))
                else QueryCount (countQuery info) (countParams info));
       Ok (its, total));
  let '(its, total) := r in
  let token :=
    if bool_decide (0 < limit info)%Z &&
       bool_decide (wrap64 (offset info + Z.of_nat (length its)) < total)%Z
    then itoa (wrap64 (offset info + limit info)) else "" in
  match CloseStmt (query info) with
  | Some err => Err err
  | None => Ok (mkListResult its total token (latestRV l))
  end.

Definition ListByOptions `{Database} (l : ListOptionIndexer) (name : string)
    (lo : sqltypes.ListOptions) (partitions : list partition.Partition) (namespace : string)
    : outcome sql_error ListResult :=
  info ← constructQuery l lo partitions namespace (Sanitize name);
  executeQuery l info.
End query.

(** * Evaluation on the inputs of the program's tests *)
Module SqlExample.
Import GoLib.Concrete.
#[export] Instance float_text : FloatParser := {| float64 := Z; ParseFloat := parse_int |}.

Definition indexer : ListOptionIndexer :=
  mkIndexer false ["metadata.queryField1"; "status.queryField2"; "spec.containers.image"] "17".
Definition options (fs : list sqltypes.OrFilter) (ds : list sqltypes.Sort) : sqltypes.ListOptions :=
  sqltypes.mkListOptions fs (sqltypes.mkOrFilter []) (sqltypes.mkSortList ds)
    (sqltypes.mkPagination 0 0) "".
Definition one (f : sqltypes.Filter) : sqltypes.OrFilter := sqltypes.mkOrFilter [f].
Definition text (s : string) : string := replace_char "~" dq s.

(** The statement and its parameters as text. *)
Definition param_text (p : param) : string :=
  match p with PString s => s | PFloat f => itoa f | PInt z => itoa z end.
Definition statement (q : QueryInfo) : string * list string :=
  (query q, param_text <$> params q).

(** The statements two of the tests of [constructQuery] expect. *)
Example query_sort_unbound_label :
  statement <$> constructQuery indexer
    (options [] [sqltypes.mkSort ["metadata"; "labels"; "unbound"] sqltypes.ASC false]) []
    "" "something" =
  Ok (text "WITH lt1(key, value) AS (
SELECT key, value FROM ~something_labels~
  WHERE label = ?
)
SELECT o.object, o.objectnonce, o.dekid FROM ~something~ o
  JOIN ~something_fields~ f ON o.key = f.key
  LEFT OUTER JOIN lt1 ON o.key = lt1.key
  WHERE
    (FALSE)
  ORDER BY lt1.value ASC NULLS LAST", ["unbound"]).
Proof. vm_compute. reflexivity. Qed.

Example query_label_not_equal :
  statement <$> constructQuery indexer
    (options [one (sqltypes.mkFilter ["metadata"; "labels"; "labelNotEqualPartial"] ["somevalue"]
       sqltypes.NotEq true)] []) [] "" "something" =
  Ok (text "SELECT DISTINCT o.object, o.objectnonce, o.dekid FROM ~something~ o
  JOIN ~something_fields~ f ON o.key = f.key
  LEFT OUTER JOIN ~something_labels~ lt1 ON o.key = lt1.key
  WHERE
    ((o.key NOT IN (SELECT o1.key FROM ~something~ o1
		JOIN ~something_fields~ f1 ON o1.key = f1.key
		LEFT OUTER JOIN ~something_labels~ lt1i1 ON o1.key = lt1i1.key
		WHERE lt1i1.label = ?)) OR (lt1.label = ? AND lt1.value NOT LIKE ? ESCAPE '\')) AND
    (FALSE)
  ORDER BY f.~metadata.name~ ASC ",
  ["labelNotEqualPartial"; "labelNotEqualPartial"; "%somevalue%"]).
Proof. vm_compute. reflexivity. Qed.
End SqlExample.
