(* ===== verification/SqlPlaceholders.v ===== *)
(** * Every placeholder of a query has a parameter

    The query text of [SqlQuery.constructQuery] and the text of its count query hold
    one placeholder for each parameter the database driver binds, and the texts do not
    depend on the values that are bound. *)
From S2P Require Import Prelude GoLib SqlQuery.

(** ** Counting placeholders *)
Fixpoint count_char (c : ascii) (s : string) : nat :=
  match s with
  | "" => 0
  | String a r => (if Ascii.eqb a c then 1 else 0) + count_char c r
  end.
Abbreviation qmarks := (count_char "?").

Lemma count_char_app c s r : count_char c (s +:+ r) = count_char c s + count_char c r.
Proof. induction s; cbn; [done|]. rewrite IHs. lia. Qed.

Lemma count_char_join c sep l : count_char c sep = 0 →
  count_char c (join sep l) = sum_list (count_char c <$> l).
Proof.
  intros Hsep. unfold join. induction l as [|x [|y l] IH]; [done|cbn; lia|].
  change (String.concat sep (x :: y :: l)) with (x +:+ sep +:+ String.concat sep (y :: l)).
  rewrite !count_char_app, Hsep, IH. done.
Qed.

Lemma count_char_digits c s : all_chars is_digit s = true → is_digit c = false → count_char c s = 0.
Proof.
  intros Hs Hc. induction s as [|a s IH]; cbn in *; [done|].
  apply andb_true_iff in Hs as [Ha Hs]. rewrite IH by done.
  destruct (Ascii.eqb a c) eqn:E; [|done]. apply ascii_eqb_true in E as ->. congruence.
Qed.

Lemma qmarks_nat (n : nat) : qmarks (pretty n) = 0.
Proof.
  unfold pretty, pretty_nat, pretty, pretty_N. case_decide; [done|].
  apply count_char_digits; [apply pretty_N_digits|done].
Qed.

Lemma qmarks_lt_name n : qmarks (lt_name n) = 0.
Proof. unfold lt_name. rewrite count_char_app, qmarks_nat. done. Qed.

Lemma qmarks_quoted s : qmarks (quoted s) = qmarks s.
Proof. unfold quoted. rewrite !count_char_app. cbn. lia. Qed.

Lemma qmarks_repeat n : qmarks (repeat_str ", ?" n) = n.
Proof. induction n; cbn; lia. Qed.

Lemma qmarks_placeholders n : 0 < n → qmarks (placeholders n) = n.
Proof. intros. unfold placeholders. rewrite !count_char_app, qmarks_repeat. cbn. lia. Qed.

Lemma qmarks_field_target ms : qmarks (field_target ms) = length ms.
Proof.
  unfold field_target. destruct ms as [|m ms]; [done|]. apply qmarks_placeholders. cbn; lia.
Qed.

Create Rewrite HintDb qmarks.
#[export] Hint Rewrite @count_char_app qmarks_nat qmarks_lt_name qmarks_quoted
  @qmarks_field_target @length_fmap @length_app : qmarks.

(** Counts the placeholders of literals. *)
Ltac count_step :=
  progress (autorewrite with qmarks; cbn [count_char nl dq length Nat.add id namespacesDbName];
    repeat match goal with |- context [Ascii.eqb ?a ?c] =>
      let b := eval vm_compute in (Ascii.eqb a c) in change (Ascii.eqb a c) with b
    end; cbn match).
Ltac count := repeat count_step; try lia.

Lemma non_nil_length {A} (l : list A) : l ≠ [] → 0 < length l.
Proof. destruct l; cbn; [done|lia]. Qed.

(** ** Clauses *)

(** A clause and its parameters. *)
Definition balanced `{FloatParser} (c : string * list param) : Prop :=
  qmarks c.1 = length c.2.

(** A label test by a set of values has at least one value. *)
Definition filter_wf (f : sqltypes.Filter) : Prop :=
  isLabelFilter f = true → sqltypes.op f ∈ [sqltypes.In; sqltypes.NotIn] →
  sqltypes.Matches f ≠ [].

(** The names the indexer was built with hold no placeholder. *)
Definition indexer_wf (l : ListOptionIndexer) (dbName : string) : Prop :=
  Forall (λ c, qmarks c = 0) (indexedFields l) ∧ qmarks dbName = 0.

Section clauses.
Context `{FloatParser} (l : ListOptionIndexer) (dbName : string).
Context (Hwf : indexer_wf l dbName).
Implicit Types f : sqltypes.Filter.

Lemma qmarks_column c : validateColumn l c = true → qmarks c = 0.
Proof.
  destruct Hwf as [Hc _]. unfold validateColumn. rewrite existsb_true.
  intros (c' & Hin & ->%String.eqb_eq). rewrite Forall_forall in Hc. apply Hc.
  by apply list_elem_of_In.
Qed.

Lemma last_numeric_spec fields i idx : last_numeric fields i = Some idx →
  ∃ s, fields !! idx = Some s ∧ all_chars is_digit s = true ∧ 0 < idx ≤ i.
Proof.
  induction i as [|i IH]; cbn [last_numeric]; [done|].
  destruct (fields !! S i) as [s|] eqn:Hs.
  - destruct (all_chars is_digit s) eqn:Hd; [intros [= <-]; exists s; auto with lia|].
    intros (s' & ? & ? & ?)%IH. exists s'. auto with lia.
  - intros (s' & ? & ? & ?)%IH. exists s'. auto with lia.
Qed.

Lemma qmarks_field_entry prefix fields e :
  getValidFieldEntry l prefix fields = Ok e → qmarks e = qmarks prefix.
Proof.
  unfold getValidFieldEntry. destruct (validateColumn l (toColumnName fields)) eqn:Hv.
  { intros [= <-]. apply qmarks_column in Hv. count. }
  case_decide; [done|]. destruct (last_numeric _ _) as [idx|] eqn:Hidx; [|done].
  destruct (validateColumn l _) eqn:Hv' in |- *; [|done]. intros [= <-].
  apply qmarks_column in Hv'. apply last_numeric_spec in Hidx as (s & Hs & Hd & _).
  rewrite (nth_lookup_Some _ _ _ _ Hs).
  pose proof (count_char_digits "?" s Hd eq_refl). count.
Qed.

Lemma eq_operator_qmarks n p o1 o2 :
  eq_operator n p = (o1, o2) → qmarks o1 = 0 ∧ qmarks o2 = 0.
Proof. by destruct n, p; intros [= <- <-]. Qed.

Lemma prepareComparison_qmarks o t sym v :
  prepareComparisonParameters o t = Ok (sym, v) → qmarks sym = 0.
Proof. unfold prepareComparisonParameters. by destruct (ParseFloat t), o; intros; simplify_eq. Qed.

Lemma in_operator_qmarks o : qmarks (in_operator o) = 0.
Proof. by destruct o. Qed.

Lemma getFieldFilter_balanced f prefix c :
  getFieldFilter l f prefix = Ok c → qmarks prefix = 0 → balanced c.
Proof.
  unfold getFieldFilter, balanced. intros Hf Hp. apply outcome_bind_ok in Hf as (e & He & Hf).
  apply qmarks_field_entry in He. destruct (eq_operator _ _) as [o1 o2] eqn:Ho.
  apply eq_operator_qmarks in Ho as [Ho1 Ho2].
  pose proof (in_operator_qmarks (sqltypes.op f)) as Hi.
  destruct (sqltypes.op f); invert_outcome;
    try match goal with x : string * float64 |- _ => destruct x; invert_outcome end;
    repeat match goal with H : prepareComparisonParameters _ _ = _ |- _ =>
      apply prepareComparison_qmarks in H end; cbn [fst snd] in *; count.
Qed.

Lemma projects_field_balanced f c :
  getProjectsOrNamespacesFieldFilter l f = Ok c → balanced c.
Proof.
  unfold getProjectsOrNamespacesFieldFilter, balanced. intros (e & He & Hf)%outcome_bind_ok.
  apply qmarks_field_entry in He. cbn in He.
  pose proof (in_operator_qmarks (sqltypes.op f)) as Hi.
  destruct (sqltypes.op f); invert_outcome; cbn [fst snd]; count.
Qed.

Lemma qmarks_label_test i s : qmarks (label_test i s) = S (qmarks s).
Proof. unfold label_test. count. Qed.

Lemma qmarks_label_not_exists i : qmarks (label_not_exists i dbName) = 1.
Proof. destruct Hwf as [_ Hdb]. unfold label_not_exists. count. Qed.

Lemma getLabelFilter_balanced i f c :
  getLabelFilter i f dbName = Ok c → isLabelFilter f = true → filter_wf f → balanced c.
Proof.
  unfold getLabelFilter, balanced. intros (name & _ & Hf)%outcome_bind_ok Hl Hv.
  specialize (Hv Hl). pose proof (proj2 Hwf) as Hdb.
  destruct (eq_operator false _) as [o1 o2] eqn:Ho, (eq_operator true _) as [o3 o4] eqn:Ho'.
  apply eq_operator_qmarks in Ho as [Ho1 Ho2], Ho' as [Ho3 Ho4].
  destruct (sqltypes.op f); invert_outcome;
    try match goal with x : string * float64 |- _ => destruct x; invert_outcome end;
    repeat match goal with H : prepareComparisonParameters _ _ = _ |- _ =>
      apply prepareComparison_qmarks in H end;
    cbn [fst snd]; 
    repeat (rewrite qmarks_label_not_exists || rewrite qmarks_label_test || count_step); try lia.
  all: assert (0 < length (sqltypes.Matches f))
    by (apply non_nil_length, Hv; rewrite !elem_of_cons; auto);
    rewrite qmarks_placeholders by done; lia.
Qed.

Lemma projects_label_balanced i f c :
  getProjectsOrNamespacesLabelFilter i f dbName = Ok c → balanced c.
Proof.
  unfold getProjectsOrNamespacesLabelFilter, balanced. intros (name & _ & Hf)%outcome_bind_ok.
  pose proof (proj2 Hwf) as Hdb.
  destruct (sqltypes.op f); invert_outcome; cbn [fst snd];
    repeat (rewrite qmarks_label_test || count_step); try lia.
Qed.

Lemma balanced_join sep cs : qmarks sep = 0 → Forall balanced cs →
  qmarks (join sep cs.*1) = length (concat cs.*2).
Proof.
  intros Hsep Hcs. rewrite count_char_join by done.
  induction Hcs as [|c cs Hc Hcs IH]; cbn; [done|]. by rewrite length_app, IH, Hc.
Qed.

Lemma filter_clause_balanced jt f c :
  filter_clause l dbName jt f = Ok c → filter_wf f → balanced c.
Proof.
  unfold filter_clause. destruct (isLabelFilter f) eqn:Hl; intros Hf Hv; invert_outcome.
  - by eapply getLabelFilter_balanced.
  - by eapply getFieldFilter_balanced.
Qed.

Lemma projects_clause_balanced jt f c :
  projects_clause l dbName jt f = Ok c → balanced c.
Proof.
  unfold projects_clause. destruct (isLabelFilter f) eqn:Hl; intros Hf; invert_outcome;
    eauto using projects_label_balanced, projects_field_balanced.
Qed.

Lemma buildORClause_balanced jt fs c :
  buildORClauseFromFilters l fs dbName jt = Ok c → Forall filter_wf (sqltypes.Filters fs) →
  balanced c.
Proof.
  unfold buildORClauseFromFilters. intros (cs & Hcs & Hc)%outcome_bind_ok Hv.
  apply map_outcome_ok in Hcs. invert_outcome.
  assert (Hb : Forall balanced cs).
  { clear -Hcs Hv Hwf. induction Hcs as [|f c' gs cs Hf Hcs IH]; [done|].
    inversion_clear Hv. constructor; [by eapply filter_clause_balanced|auto]. }
  pose proof (balanced_join ") OR (" cs eq_refl Hb) as Hj.
  unfold balanced. cbn [fst snd]. rewrite <- Hj.
  destruct cs.*1 as [|x [|y xs]]; [done|done|]. generalize (join ") OR (" (x :: y :: xs)) as t. intros. count.
Qed.

Lemma buildProjects_balanced jt fs c :
  buildClauseFromProjectsOrNamespaces l fs dbName jt = Ok c → balanced c.
Proof.
  unfold buildClauseFromProjectsOrNamespaces. destruct (sqltypes.Filters fs) as [|f fs'] eqn:Hfs.
  { by intros [= <-]. }
  rewrite <- Hfs. intros (cs & Hcs & Hc)%outcome_bind_ok. apply map_outcome_ok in Hcs.
  assert (Hb : Forall balanced cs).
  { clear -Hcs Hwf. induction Hcs as [|g c' gs cs Hg Hcs IH]; constructor;
      eauto using projects_clause_balanced. }
  pose proof (balanced_join ") OR (" cs eq_refl Hb).
  pose proof (balanced_join ") AND (" cs eq_refl Hb).
  unfold balanced. destruct (sqltypes.op f); invert_outcome; cbn [fst snd]; count.
Qed.
End clauses.

(** ** Parts of the query *)
Section parts.
Context `{MapRange} `{FloatParser} (l : ListOptionIndexer) (dbName : string).
Context (Hwf : indexer_wf l dbName).

Lemma getWithParts_balanced i labels jt prefix parts ps joins jt' :
  getWithParts_from i labels jt dbName prefix = Ok (parts, ps, joins, jt') →
  qmarks prefix = 0 →
  qmarks (join ("," +:+ nl) parts) = length ps ∧ sum_list (qmarks <$> joins) = 0.
Proof.
  intros Hp Hq. rewrite count_char_join by done. revert i jt parts ps joins jt' Hp.
  pose proof (proj2 Hwf) as Hdb.
  induction labels as [|label labels IH]; intros i jt parts ps joins jt' Hp; cbn in Hp.
  - by simplify_eq.
  - apply outcome_bind_ok in Hp as ([idx jt1] & _ & Hp).
    apply outcome_bind_ok in Hp as ([[[parts1 ps1] joins1] jt2] & Hrest & Hp). simplify_eq.
    apply IH in Hrest as [Hparts Hjoins]. cbn [fmap list_fmap sum_list length]. split.
    + rewrite Hparts. count.
    + rewrite Hjoins. count.
Qed.

Lemma label_join_qmarks q jt f q' jt' :
  label_join dbName (q, jt) f = Ok (q', jt') → qmarks q' = qmarks q.
Proof.
  unfold label_join. pose proof (proj2 Hwf) as Hdb. destruct (isLabelFilter f); [|by intros [= <- <-]].
  intros (name & _ & Hj)%outcome_bind_ok. destruct (jt !! name); simplify_eq; [done|]. count.
Qed.

Lemma label_joins_qmarks st fs st' :
  label_joins dbName st fs = Ok st' → qmarks st'.1 = qmarks st.1.
Proof.
  intros Hj. revert Hj. apply (foldl_outcome_inv (λ st', qmarks st'.1 = qmarks st.1)); [done|].
  intros st1 orf st2 _ H1 Hf. revert Hf.
  apply (foldl_outcome_inv (λ st', qmarks st'.1 = qmarks st.1)); [done|].
  intros [q jt] f [q' jt'] _ Hq Hf%label_join_qmarks. cbn in *. congruence.
Qed.

Lemma projects_joins_qmarks st : qmarks (projects_joins st).1 = qmarks st.1.
Proof. destruct st as [q jt]. cbn [projects_joins fst]. count. Qed.

Lemma select_text_qmarks distinct joins :
  sum_list (qmarks <$> joins) = 0 → qmarks (select_text distinct dbName joins) = 0.
Proof.
  intros Hj. unfold select_text. pose proof (proj2 Hwf) as Hdb.
  pose proof (count_char_join "?" (nl +:+ "  ") joins eq_refl).
  destruct distinct, joins; count.
Qed.

Lemma select_part_balanced lo labels q ps jt :
  select_part lo labels dbName = Ok (q, ps, jt) → qmarks q = length ps.
Proof.
  unfold select_part. intros ([[[q0 ps0] joins] jt0] & Hwith & Hq)%outcome_bind_ok.
  apply outcome_bind_ok in Hq as (st & Hst & Hq).
  assert (Hq0 : qmarks q0 = length ps0 ∧ sum_list (qmarks <$> joins) = 0).
  { destruct labels; [by simplify_eq|].
    apply outcome_bind_ok in Hwith as ([[[parts ps1] joins1] jt1] & Hparts & Hwith).
    invert_outcome. apply getWithParts_balanced in Hparts as [Hl Hj]; [|done].
    split; [|done]. count. }
  destruct Hq0 as [Hq0 Hjoins].
  assert (Hst0 : qmarks st.1 = length ps0).
  { rewrite <- Hq0. destruct (_ || _) in Hst; [apply label_joins_qmarks in Hst; rewrite Hst|
      apply Ok_inj in Hst; subst st]; cbn [fst];
    rewrite count_char_app, select_text_qmarks by done; lia. }
  destruct (sqltypes.Filters _) in Hq; [destruct st; by simplify_eq|].
  pose proof (projects_joins_qmarks st). destruct (projects_joins st). simplify_eq. cbn in *. congruence.
Qed.

(** WHERE clauses and their parameters. *)
Definition balanced_parts (c : list string * list param) : Prop :=
  sum_list (qmarks <$> c.1) = length c.2.

Lemma balanced_concat (cs : list (string * list param)) :
  Forall balanced cs → balanced_parts (cs.*1, concat cs.*2).
Proof.
  unfold balanced_parts. cbn [fst snd]. induction 1 as [|c cs Hc Hcs IH]; cbn; [done|].
  by rewrite length_app, <- IH, Hc.
Qed.

Lemma where_filters_balanced lo jt c :
  where_filters l lo dbName jt = Ok c →
  Forall (λ fs, Forall filter_wf (sqltypes.Filters fs)) (sqltypes.lo_Filters lo) →
  balanced_parts c.
Proof.
  unfold where_filters. intros (cs & Hcs & Hc)%outcome_bind_ok Hv.
  apply map_outcome_ok in Hcs. invert_outcome. apply balanced_concat.
  assert (Hb : Forall balanced cs).
  { clear -Hcs Hv Hwf. induction Hcs as [|f c' gs cs Hf Hcs IH]; [done|].
    inversion_clear Hv. constructor; [by eapply buildORClause_balanced|auto]. }
  apply Forall_forall. intros c' [Hin _]%filter_In. rewrite Forall_forall in Hb. auto.
Qed.

Lemma where_projects_balanced lo jt c :
  where_projects l lo dbName jt = Ok c → balanced_parts c.
Proof.
  unfold where_projects. destruct (sqltypes.Filters _); intros; invert_outcome; [done|].
  match goal with H : buildClauseFromProjectsOrNamespaces _ _ _ _ = Ok _ |- _ =>
    apply buildProjects_balanced in H as Hb; [|done] end.
  unfold balanced_parts, balanced in *. cbn. lia.
Qed.

Lemma where_namespace_balanced ns : balanced_parts (where_namespace ns).
Proof. unfold where_namespace. by destruct (_ || _). Qed.

Lemma partition_conditions_balanced p : balanced_parts (partition_conditions p).
Proof.
  unfold partition_conditions. destruct (partition.Passthrough p); [done|].
  pose proof (where_namespace_balanced (partition.Namespace p)) as Hn.
  destruct (where_namespace _) as [cs ps]. unfold balanced_parts in *. cbn [fst snd] in *.
  destruct (partition.All p); [done|]. destruct (sort_strings _) as [|n ns]; cbn [fst snd].
  - rewrite fmap_app, sum_list_with_app, Hn. cbn. lia.
  - rewrite fmap_app, sum_list_with_app, length_app, Hn. cbn [fmap list_fmap sum_list_with].
    rewrite !count_char_app, qmarks_placeholders by (cbn; lia). cbn. rewrite length_fmap. lia.
Qed.

Lemma where_partitions_balanced partitions : balanced_parts (where_partitions partitions).
Proof.
  unfold where_partitions, balanced_parts. cbn [fst snd].
  rewrite fmap_app, sum_list_with_app.
  assert (Hcs : sum_list (qmarks <$> (join " AND " <$>
    List.filter (λ cs, negb (bool_decide (cs = []))) (partition_conditions <$> partitions).*1)) =
    length (concat (partition_conditions <$> partitions).*2)).
  { induction partitions as [|p ps IH]; [done|].
    pose proof (partition_conditions_balanced p) as Hp. unfold balanced_parts in Hp.
    cbn [fmap list_fmap List.filter concat]. rewrite length_app, <- IH, <- Hp.
    case_bool_decide as Hnil; [by rewrite Hnil|]. cbn [negb fmap list_fmap sum_list_with id].
    by rewrite count_char_join. }
  rewrite <- Hcs. generalize (join " AND " <$> List.filter
    (λ cs, negb (bool_decide (cs = []))) (partition_conditions <$> partitions).*1) as clauses.
  intros clauses.
  replace (sum_list (qmarks <$> (if decide (length partitions = 0) then ["FALSE"] else [])))
    with 0 by (by case_decide).
  destruct clauses as [|x [|y xs]]; [done|done|].
  pose proof (count_char_join "?" (") OR" +:+ nl +:+ "      (") (x :: y :: xs) eq_refl) as Hj.
  rewrite <- Hj. clear Hj. generalize (join (") OR" +:+ nl +:+ "      (") (x :: y :: xs)). intros t.
  cbn [fmap list_fmap sum_list_with]. unfold id. count.
Qed.

Lemma where_part_qmarks cs : qmarks (where_part cs) = sum_list (qmarks <$> cs).
Proof.
  unfold where_part. destruct cs as [|c cs]; [done|]. rewrite !count_char_app, count_char_join by done.
  change (qmarks nl) with 0. cbn [count_char Ascii.eqb Bool.eqb Nat.add].
  rewrite <- list_fmap_compose. cbn [Nat.add].
  assert (Heq : ∀ ds, sum_list (qmarks ∘ (λ c, "(" +:+ c +:+ ")") <$> ds) = sum_list (qmarks <$> ds)).
  { induction ds as [|d ds IH]; [done|]. cbn [fmap list_fmap sum_list_with id]. rewrite IH.
    unfold compose. count. }
  by rewrite Heq.
Qed.

Lemma order_clause_qmarks jt d c : order_clause l jt d = Ok c → qmarks c = 0.
Proof.
  unfold order_clause, buildSortLabelsClause. intros Hc.
  destruct (isLabelsFieldList _); invert_outcome.
  - destruct (sqltypes.SortAsIP d), (bool_decide _); count.
  - match goal with H : getValidFieldEntry _ _ _ = _ |- _ =>
      eapply qmarks_field_entry in H as He; [|done] end.
    change (qmarks "f") with 0 in He. destruct (sqltypes.SortAsIP d), (bool_decide _); count.
Qed.

Lemma order_part_qmarks lo jt c : order_part l lo jt = Ok c → qmarks c = 0.
Proof.
  unfold order_part. destruct (sqltypes.SortDirectives _) as [|d ds]; intros Hc; invert_outcome.
  - by destruct (namespaced l).
  - match goal with H : map_outcome _ _ = _ |- _ => apply map_outcome_ok in H as Hcs end.
    rewrite !count_char_app, count_char_join by done. change (qmarks nl) with 0. cbn [count_char Ascii.eqb Bool.eqb Nat.add].
    generalize dependent x. generalize (d :: ds) as es. intros es cs _ Hcs.
    induction Hcs as [|e c es cs Hc _ IH]; [done|].
    cbn [fmap list_fmap sum_list_with]. by rewrite (order_clause_qmarks _ _ _ Hc).
Qed.
End parts.

(** ** Requests of the same shape

    Two requests have the same shape when they differ in the values they compare with
    only: the matches of filters, the namespace, the names of the partitions, the
    revision and the size of a page. *)
Definition same_filter (f g : sqltypes.Filter) : Prop :=
  sqltypes.Field f = sqltypes.Field g ∧ sqltypes.op f = sqltypes.op g ∧
  sqltypes.Partial f = sqltypes.Partial g ∧
  length (sqltypes.Matches f) = length (sqltypes.Matches g).
Definition same_or (o o' : sqltypes.OrFilter) : Prop :=
  Forall2 same_filter (sqltypes.Filters o) (sqltypes.Filters o').

Definition all_namespaces (ns : string) : bool := String.eqb ns "" || String.eqb ns "*".

Definition same_partition (p q : partition.Partition) : Prop :=
  partition.Passthrough p = partition.Passthrough q ∧
  all_namespaces (partition.Namespace p) = all_namespaces (partition.Namespace q) ∧
  partition.All p = partition.All q ∧
  size (partition.Names p) = size (partition.Names q).

Record same_options (lo lo' : sqltypes.ListOptions) : Prop := mkSame {
  same_Filters : Forall2 same_or (sqltypes.lo_Filters lo) (sqltypes.lo_Filters lo');
  same_Projects : same_or (sqltypes.ProjectsOrNamespaces lo) (sqltypes.ProjectsOrNamespaces lo');
  same_SortList : sqltypes.lo_SortList lo = sqltypes.lo_SortList lo';
  same_limit : bool_decide (0 < sqltypes.PageSize (sqltypes.lo_Pagination lo))%Z =
               bool_decide (0 < sqltypes.PageSize (sqltypes.lo_Pagination lo'))%Z;
  same_offset : bool_decide (0 < page_offset (sqltypes.lo_Pagination lo))%Z =
                bool_decide (0 < page_offset (sqltypes.lo_Pagination lo'))%Z
}.

Section shape.
Context `{MapRange} `{FloatParser} (l : ListOptionIndexer) (dbName : string).

Lemma same_isLabelFilter f g : same_filter f g → isLabelFilter f = isLabelFilter g.
Proof. intros [Hf _]. unfold isLabelFilter. by rewrite Hf. Qed.

(** Loops that read the fields and operators only. *)
Lemma foldl_same {A B} (R : B → B → Prop) (h : A → B → outcome sql_error A) a fs gs :
  Forall2 R fs gs → (∀ a f g, R f g → h a f = h a g) →
  foldl_outcome h a fs = foldl_outcome h a gs.
Proof.
  intros Hfs Hh. revert a. induction Hfs as [|f g fs gs Hfg _ IH]; intros a; cbn; [done|].
  rewrite (Hh a f g Hfg). destruct (h a g); cbn; [apply IH|done|done].
Qed.

Lemma getUnboundSortLabels_same lo lo' :
  same_options lo lo' → getUnboundSortLabels lo = getUnboundSortLabels lo'.
Proof.
  intros [Hf _ Hs _ _]. unfold getUnboundSortLabels. rewrite <- Hs.
  destruct (sqltypes.SortDirectives _); [done|]. f_equal.
  apply (foldl_same same_or); [done|]. intros m o o' Ho.
  apply (foldl_same same_filter); [done|]. intros m' f g Hfg. unfold unbind_label.
  rewrite (same_isLabelFilter f g Hfg). destruct Hfg as (-> & -> & _). done.
Qed.

Lemma label_joins_same st fs gs :
  Forall2 same_or fs gs → label_joins dbName st fs = label_joins dbName st gs.
Proof.
  intros Hfs. apply (foldl_same same_or); [done|]. intros m o o' Ho.
  apply (foldl_same same_filter); [done|]. intros [q jt] f g Hfg. unfold label_join.
  rewrite (same_isLabelFilter f g Hfg). by destruct Hfg as (-> & _).
Qed.

Lemma hasLabelFilter_same fs gs : Forall2 same_or fs gs → hasLabelFilter fs = hasLabelFilter gs.
Proof.
  unfold hasLabelFilter. induction 1 as [|o o' fs gs Ho _ IH]; cbn; [done|]. rewrite IH. f_equal.
  induction Ho as [|f g os os' Hfg _ IHo]; cbn; [done|]. by rewrite IHo, (same_isLabelFilter f g Hfg).
Qed.

Lemma select_part_same lo lo' labels :
  same_options lo lo' → select_part lo labels dbName = select_part lo' labels dbName.
Proof.
  intros [Hf Hp _ _ _]. unfold select_part. rewrite (hasLabelFilter_same _ _ Hf).
  assert (Hp' : bool_decide (sqltypes.Filters (sqltypes.ProjectsOrNamespaces lo) = []) =
    bool_decide (sqltypes.Filters (sqltypes.ProjectsOrNamespaces lo') = [])).
  { apply bool_decide_ext. by destruct Hp. }
  rewrite Hp'. destruct (match labels with [] => _ | _ => _ end) as [[[[q ps] js] jt]| |];
    cbn [mbind outcome_bind]; [|done|done].
  rewrite (label_joins_same _ _ _ Hf). by destruct Hp.
Qed.

(** Clauses of filters of the same shape have the same text. *)
Lemma field_target_same ms ms' : length ms = length ms' → field_target ms = field_target ms'.
Proof. unfold field_target. destruct ms, ms'; cbn; intros; simplify_eq; congruence. Qed.

Lemma prepareComparison_sym o t t' r r' :
  prepareComparisonParameters o t = Ok r → prepareComparisonParameters o t' = Ok r' → r.1 = r'.1.
Proof.
  unfold prepareComparisonParameters. intros. by destruct (ParseFloat t), (ParseFloat t'), o; simplify_eq.
Qed.

Ltac same_symbol :=
  match goal with
  | H1 : prepareComparisonParameters ?o _ = Ok ?r, H2 : prepareComparisonParameters ?o _ = Ok ?r' |- _ =>
      pose proof (prepareComparison_sym _ _ _ _ _ H1 H2); destruct r, r'; cbn [fst] in *; subst
  end.

Lemma getFieldFilter_same f g prefix c c' : same_filter f g →
  getFieldFilter l f prefix = Ok c → getFieldFilter l g prefix = Ok c' → c.1 = c'.1.
Proof.
  intros (Hf & Ho & Hp & Hm). unfold getFieldFilter. rewrite Hf, Ho, Hp.
  rewrite (field_target_same _ _ Hm). destruct (getValidFieldEntry _ _ _) as [e| |]; cbn; [|done|done].
  destruct (eq_operator _ _). destruct (sqltypes.op g); intros; invert_outcome; try same_symbol;
    invert_outcome; done.
Qed.

Lemma projects_field_same f g c c' : same_filter f g →
  getProjectsOrNamespacesFieldFilter l f = Ok c →
  getProjectsOrNamespacesFieldFilter l g = Ok c' → c.1 = c'.1.
Proof.
  intros (Hf & Ho & Hp & Hm). unfold getProjectsOrNamespacesFieldFilter. rewrite Hf, Ho.
  rewrite (field_target_same _ _ Hm). destruct (getValidFieldEntry _ _ _) as [e| |]; cbn; [|done|done].
  destruct (sqltypes.op g); intros; invert_outcome; done.
Qed.

Lemma getLabelFilter_same i f g c c' : same_filter f g →
  getLabelFilter i f dbName = Ok c → getLabelFilter i g dbName = Ok c' → c.1 = c'.1.
Proof.
  intros (Hf & Ho & Hp & Hm). unfold getLabelFilter. rewrite Hf, Ho, Hp, Hm.
  intros (n & Hn & Hc)%outcome_bind_ok (n' & Hn' & Hc')%outcome_bind_ok.
  rewrite Hn in Hn'. apply Ok_inj in Hn' as <-.
  destruct (eq_operator false _), (eq_operator true _).
  destruct (sqltypes.op g); invert_outcome; try same_symbol; invert_outcome; done.
Qed.

Lemma projects_label_same i f g c c' : same_filter f g →
  getProjectsOrNamespacesLabelFilter i f dbName = Ok c →
  getProjectsOrNamespacesLabelFilter i g dbName = Ok c' → c.1 = c'.1.
Proof.
  intros (Hf & Ho & Hp & Hm). unfold getProjectsOrNamespacesLabelFilter. rewrite Hf, Ho.
  rewrite (field_target_same _ _ Hm).
  intros (n & Hn & Hc)%outcome_bind_ok (n' & Hn' & Hc')%outcome_bind_ok.
  rewrite Hn in Hn'. apply Ok_inj in Hn' as <-.
  destruct (sqltypes.op g); invert_outcome; done.
Qed.

Lemma filter_clause_same jt f g c c' : same_filter f g →
  filter_clause l dbName jt f = Ok c → filter_clause l dbName jt g = Ok c' → c.1 = c'.1.
Proof.
  intros Hfg. unfold filter_clause. rewrite (same_isLabelFilter _ _ Hfg).
  destruct (isLabelFilter g); [|by apply getFieldFilter_same].
  replace (sqltypes.Field f) with (sqltypes.Field g) by by destruct Hfg.
  intros (n & -> & (r & Hr & Hf)%outcome_bind_ok)%outcome_bind_ok. cbn [mbind outcome_bind].
  rewrite Hr. cbn [mbind outcome_bind]. revert Hf. by apply getLabelFilter_same.
Qed.

Lemma projects_clause_same jt f g c c' : same_filter f g →
  projects_clause l dbName jt f = Ok c → projects_clause l dbName jt g = Ok c' → c.1 = c'.1.
Proof.
  intros Hfg. unfold projects_clause. rewrite (same_isLabelFilter _ _ Hfg).
  destruct (isLabelFilter g); [|by apply projects_field_same].
  replace (sqltypes.Field f) with (sqltypes.Field g) by by destruct Hfg.
  intros (n & -> & (r & Hr & Hf)%outcome_bind_ok)%outcome_bind_ok. cbn [mbind outcome_bind].
  rewrite Hr. cbn [mbind outcome_bind]. revert Hf. by apply projects_label_same.
Qed.

(** The texts of a list of clauses. *)
Lemma map_outcome_same {A} (R : A → A → Prop) (h : A → outcome sql_error (string * list param))
    fs gs cs ds :
  Forall2 R fs gs → (∀ f g c d, R f g → h f = Ok c → h g = Ok d → c.1 = d.1) →
  map_outcome h fs = Ok cs → map_outcome h gs = Ok ds → cs.*1 = ds.*1.
Proof.
  intros Hfs Hh Hcs Hds. apply map_outcome_ok in Hcs, Hds. revert cs ds Hcs Hds.
  induction Hfs as [|f g fs gs Hfg _ IH]; intros cs ds Hcs Hds;
    inversion_clear Hcs; inversion_clear Hds; cbn; [done|].
  f_equal; [by eapply Hh|by apply IH].
Qed.

Lemma buildOR_same jt o o' c c' : same_or o o' →
  buildORClauseFromFilters l o dbName jt = Ok c → buildORClauseFromFilters l o' dbName jt = Ok c' →
  c.1 = c'.1.
Proof.
  unfold buildORClauseFromFilters. intros Ho (cs & Hcs & Hc)%outcome_bind_ok (ds & Hds & Hd)%outcome_bind_ok.
  pose proof (map_outcome_same _ _ _ _ _ _ Ho (λ f g c d, filter_clause_same jt f g c d) Hcs Hds) as He.
  rewrite He in Hc. invert_outcome. done.
Qed.

Lemma buildProjects_same jt o o' c c' : same_or o o' →
  buildClauseFromProjectsOrNamespaces l o dbName jt = Ok c →
  buildClauseFromProjectsOrNamespaces l o' dbName jt = Ok c' → c.1 = c'.1.
Proof.
  unfold buildClauseFromProjectsOrNamespaces, same_or. destruct o as [fs], o' as [gs]. cbn [sqltypes.Filters].
  intros Ho. destruct Ho as [|f g fs gs Hfg Ho]; [by intros; invert_outcome|].
  intros (cs & Hcs & Hc)%outcome_bind_ok (ds & Hds & Hd)%outcome_bind_ok.
  pose proof (map_outcome_same _ _ _ _ _ _ (Forall2_cons f g Hfg Ho)
    (λ f g c d, projects_clause_same jt f g c d) Hcs Hds) as He.
  rewrite He in Hc. destruct Hfg as (_ & Hop & _). rewrite Hop in Hc.
  destruct (sqltypes.op g); invert_outcome; done.
Qed.

Lemma where_filters_same jt lo lo' c c' : same_options lo lo' →
  where_filters l lo dbName jt = Ok c → where_filters l lo' dbName jt = Ok c' → c.1 = c'.1.
Proof.
  unfold where_filters. intros Hlo (cs & Hcs & Hc)%outcome_bind_ok (ds & Hds & Hd)%outcome_bind_ok.
  pose proof (map_outcome_same _ _ _ _ _ _ (same_Filters _ _ Hlo)
    (λ f g c d, buildOR_same jt f g c d) Hcs Hds) as He.
  invert_outcome. cbn [fst]. clear Hcs Hds. revert ds He.
  induction cs as [|x cs IH]; intros [|y ds] He; simplify_eq/=; [done|].
  match goal with H : x.1 = y.1 |- _ => rewrite H end.
  destruct (negb _); cbn; [f_equal; [done|]|]; by apply IH.
Qed.

Lemma where_projects_same jt lo lo' c c' : same_options lo lo' →
  where_projects l lo dbName jt = Ok c → where_projects l lo' dbName jt = Ok c' → c.1 = c'.1.
Proof.
  unfold where_projects. intros Hlo. pose proof (same_Projects _ _ Hlo) as Hp. unfold same_or in Hp.
  destruct (sqltypes.Filters (_ lo)) as [|f fs], (sqltypes.Filters (_ lo')) as [|g gs];
    try (by inversion Hp); intros; invert_outcome; [done|].
  match goal with H1 : buildClauseFromProjectsOrNamespaces _ _ _ _ = Ok ?x,
    H2 : buildClauseFromProjectsOrNamespaces _ _ _ _ = Ok ?y |- _ =>
    pose proof (buildProjects_same _ _ _ _ _ (same_Projects _ _ Hlo) H1 H2) as Hxy ||
    pose proof (buildProjects_same _ _ _ _ _ (same_Projects _ _ Hlo) H2 H1) as Hxy end.
  cbn [fst]. congruence.
Qed.

Lemma where_namespace_same ns ns' :
  all_namespaces ns = all_namespaces ns' → (where_namespace ns).1 = (where_namespace ns').1.
Proof. unfold where_namespace, all_namespaces. intros ->. by destruct (_ || _). Qed.

Lemma partition_conditions_same p q :
  same_partition p q → (partition_conditions p).1 = (partition_conditions q).1.
Proof.
  intros (Hp & Hn & Ha & Hs). unfold partition_conditions. rewrite Hp, Ha.
  apply where_namespace_same in Hn. destruct (partition.Passthrough q); [done|].
  destruct (where_namespace (_ p)) as [cs ps], (where_namespace (_ q)) as [ds qs]. cbn in Hn. subst ds.
  destruct (partition.All q); [done|].
  assert (Hlen : length (sort_strings (elements (partition.Names p))) =
    length (sort_strings (elements (partition.Names q)))) by (by rewrite !sort_strings_perm).
  destruct (sort_strings (elements (partition.Names p))), (sort_strings (elements (partition.Names q)));
    try done. cbn [fst]. by rewrite Hlen.
Qed.

Lemma where_partitions_same ps qs :
  Forall2 same_partition ps qs → (where_partitions ps).1 = (where_partitions qs).1.
Proof.
  intros Hps. unfold where_partitions. cbn [fst]. rewrite (Forall2_length Hps).
  replace (partition_conditions <$> ps).*1 with (partition_conditions <$> qs).*1; [done|].
  induction Hps as [|p q ps qs Hpq _ IH]; cbn; [done|].
  by rewrite IH, (partition_conditions_same _ _ Hpq).
Qed.
End shape.

(** ** The theorems *)

(** C21: The text of the query and the text of its count query hold exactly one placeholder for each of their parameters,
    when every filter that tests a label for being in or not in a set of values has a value (without one [getLabelFilter] writes a
    placeholder that nothing is bound to), and the columns and the name of the table hold no question mark. *)
Theorem constructQuery_placeholders `{MapRange} `{FloatParser} l lo partitions namespace dbName info :
  indexer_wf l dbName →
  Forall (λ fs, Forall filter_wf (sqltypes.Filters fs)) (sqltypes.lo_Filters lo) →
  constructQuery l lo partitions namespace dbName = Ok info →
  qmarks (query info) = length (params info) ∧
  qmarks (countQuery info) = length (countParams info).
Proof.
  intros Hwf Hf. unfold constructQuery. intros (labels & _ & (u & _ & ([[q ps] jt] & Hsel & Hq)%outcome_bind_ok)%outcome_bind_ok)%outcome_bind_ok.
  apply outcome_bind_ok in Hq as (wf & Hwfs & (wp & Hwp & (order & Ho & Hq)%outcome_bind_ok)%outcome_bind_ok).
  apply (select_part_balanced l) in Hsel; [|done].
  apply where_filters_balanced in Hwfs; [|done..]. apply where_projects_balanced in Hwp; [|done].
  apply (order_part_qmarks l dbName) in Ho; [|done].
  pose proof (where_namespace_balanced namespace) as Hn.
  pose proof (where_partitions_balanced partitions) as Hp.
  unfold balanced_parts in *. apply Ok_inj in Hq as <-.
  assert (Hqs : qmarks (q +:+ where_part (wf.1 ++ wp.1 ++ (where_namespace namespace).1 ++ (where_partitions partitions).1)) =
    length (ps ++ wf.2 ++ wp.2 ++ (where_namespace namespace).2 ++ (where_partitions partitions).2)).
  { rewrite count_char_app, where_part_qmarks, !fmap_app, !sum_list_with_app, !length_app. lia. }
  revert Hqs. generalize (q +:+ where_part (wf.1 ++ wp.1 ++ (where_namespace namespace).1 ++ (where_partitions partitions).1)) as text.
  generalize (ps ++ wf.2 ++ wp.2 ++ (where_namespace namespace).2 ++ (where_partitions partitions).2) as all.
  intros all text Htext. unfold paginate.
  destruct (bool_decide (0 < sqltypes.PageSize _)%Z), (bool_decide (0 < page_offset _)%Z);
    cbn [orb query params countQuery countParams]; unfold limit_clause, offset_clause;
    rewrite ?app_nil_r; count.
Qed.

(** C14: the texts of the query and of the count query are the same for all requests of
    the same shape: no value of a filter, namespace, resource name, revision or page
    becomes part of the SQL text. *)
Theorem constructQuery_text_fixed `{MapRange} `{FloatParser} l lo lo' partitions partitions'
    namespace namespace' dbName info info' :
  same_options lo lo' → Forall2 same_partition partitions partitions' →
  all_namespaces namespace = all_namespaces namespace' →
  constructQuery l lo partitions namespace dbName = Ok info →
  constructQuery l lo' partitions' namespace' dbName = Ok info' →
  query info = query info' ∧ countQuery info = countQuery info'.
Proof.
  intros Hlo Hps Hns. unfold constructQuery. rewrite (getUnboundSortLabels_same _ _ Hlo).
  intros (labels & Hl & (u & _ & ([[q ps] jt] & Hsel & Hq)%outcome_bind_ok)%outcome_bind_ok)%outcome_bind_ok.
  intros (labels' & Hl' & (u' & _ & (r & Hsel' & Hq')%outcome_bind_ok)%outcome_bind_ok)%outcome_bind_ok.
  rewrite Hl in Hl'. apply Ok_inj in Hl' as <-.
  rewrite (select_part_same _ _ _ _ Hlo), Hsel' in Hsel. apply Ok_inj in Hsel as ->.
  apply outcome_bind_ok in Hq as (wf & Hwf & (wp & Hwp & (order & Ho & Hq)%outcome_bind_ok)%outcome_bind_ok).
  apply outcome_bind_ok in Hq' as (wf' & Hwf' & (wp' & Hwp' & (order' & Ho' & Hq')%outcome_bind_ok)%outcome_bind_ok).
  pose proof (where_filters_same _ _ _ _ _ _ _ Hlo Hwf Hwf') as H1.
  pose proof (where_projects_same _ _ _ _ _ _ _ Hlo Hwp Hwp') as H2.
  pose proof (where_namespace_same _ _ Hns) as H3. pose proof (where_partitions_same _ _ Hps) as H4.
  assert (order = order') as <-.
  { unfold order_part in *. rewrite (same_SortList _ _ Hlo), Ho' in Ho. by apply Ok_inj in Ho. }
  apply Ok_inj in Hq as <-, Hq' as <-. rewrite H1, H2, H3, H4. unfold paginate.
  rewrite (same_limit _ _ Hlo), (same_offset _ _ Hlo). by destruct (_ || _).
Qed.

(** ** Concrete requests *)
Import GoLib.Concrete SqlExample.

Definition by_label (value : string) : sqltypes.ListOptions :=
  options [one (sqltypes.mkFilter ["metadata"; "labels"; "app"] [value] sqltypes.NotEq true)] [].
Definition named (n : string) : partition.Partition :=
  partition.mkPartition false "" false {[n]}.
Definition query_of (value name : string) : outcome sql_error QueryInfo :=
  constructQuery indexer (by_label value) [named name] "" "something".
Definition info_of (value name : string) : QueryInfo :=
  match query_of value name with Ok info => info | _ => mkQueryInfo "" [] "" [] 0 0 end.

Lemma query_of_ok value name : is_ok (query_of value name) = true →
  query_of value name = Ok (info_of value name).
Proof. unfold info_of. by destruct (query_of value name). Qed.

Lemma constructQuery_placeholders_witness :
  qmarks (query (info_of "web" "a")) = 4 ∧ length (params (info_of "web" "a")) = 4 ∧
  qmarks (countQuery (info_of "web" "a")) = length (countParams (info_of "web" "a")).
Proof.
  destruct (constructQuery_placeholders indexer (by_label "web") [named "a"] "" "something"
    (info_of "web" "a")) as [H1 H2].
  - by split; [repeat constructor|].
  - by repeat constructor.
  - apply query_of_ok. vm_compute. reflexivity.
  - rewrite <- H1. split_and!; [vm_compute; reflexivity..|exact H2].
Defined.

Lemma constructQuery_text_fixed_witness :
  query (info_of "web" "a") = query (info_of "x'; DROP TABLE y" "b") ∧
  countQuery (info_of "web" "a") = countQuery (info_of "x'; DROP TABLE y" "b").
Proof.
  apply (constructQuery_text_fixed indexer (by_label "web") (by_label "x'; DROP TABLE y")
    [named "a"] [named "b"] "" "" "something").
  - by split; repeat constructor.
  - by repeat constructor.
  - done.
  - apply query_of_ok. vm_compute. reflexivity.
  - apply query_of_ok. vm_compute. reflexivity.
Defined.
