(* ===== verification/SqlAccess.v ===== *)
(** * Access control of lists from the SQL cache

    pkg/stores/sqlpartition/partitioner.go: the partitions of a user, and what the
    WHERE clause [SqlQuery.constructQuery] builds from them selects. *)
From S2P Require Import Prelude GoLib AccessControl Partitions SqlQuery SqlPlaceholders.

(** ** The partitioner *)
Module SqlPartitioner.
Definition passthroughPartitions : list partition.Partition :=
  [partition.mkPartition true "" false ∅].

Section partitioner.
Context `{MapRange, SliceSort} (RSplit : string → string → string * string).

Definition generatePartitionsByID (apiOp : APIRequest) (schema : APISchema) (verb id : string)
    : list partition.Partition :=
  let accessListByVerb := Schema_Access schema in
  let resources := Granted accessListByVerb verb in
  let '(idNamespace, name) := RSplit id "/" in
  let apiNamespace := apiOp_Namespace apiOp in
  let effectiveNamespace :=
    if bool_decide (idNamespace = "") && bool_decide (apiNamespace ≠ "")
    then apiNamespace else idNamespace in
  let single := [partition.mkPartition false effectiveNamespace false {[name]}] in
  if AccessListByVerb_All accessListByVerb verb then single
  else if bool_decide (effectiveNamespace ≠ "") &&
          R_All (resources_at resources effectiveNamespace) then single
  else
    let resourceNamespace :=
      if bool_decide (effectiveNamespace = "") then All else effectiveNamespace in
    match resources !! resourceNamespace with
    | Some nameset => if bool_decide (name ∈ R_Names nameset) then single else []
    | None => []
    end.

Definition generateAggregatePartitions (apiOp : APIRequest) (schema : APISchema) (verb : string)
    : list partition.Partition * bool :=
  let accessListByVerb := Schema_Access schema in
  let resources := Granted accessListByVerb verb in
  if AccessListByVerb_All accessListByVerb verb then ([], true)
  else if bool_decide (apiOp_Namespace apiOp ≠ "") then
    if R_All (resources_at resources (apiOp_Namespace apiOp)) then ([], true)
    else ([partition.mkPartition false (apiOp_Namespace apiOp) false
             (R_Names (resources_at resources (apiOp_Namespace apiOp)))], false)
  else if Schema_Namespaced schema then
    ((λ '(k, r), partition.mkPartition false k (R_All r) (R_Names r)) <$> range_map resources, false)
  else
    ((λ '(_, r), partition.mkPartition false "" (R_All r) (R_Names r)) <$> range_map resources, false).

Definition partition_less (p q : partition.Partition) : bool :=
  String.ltb (partition.Namespace p) (partition.Namespace q).

Definition All (apiOp : APIRequest) (schema : APISchema) (verb id : string)
    : outcome string (list partition.Partition) :=
  if bool_decide (verb = "list") || bool_decide (verb = "watch") then
    if bool_decide (id ≠ "") then Ok (generatePartitionsByID apiOp schema verb id)
    else
      let '(partitions, passthrough) := generateAggregatePartitions apiOp schema verb in
      if passthrough then Ok passthroughPartitions
      else Ok (sort_slice partition_less partitions)
  else Err ("parition all: invalid verb " +:+ verb).
End partitioner.
End SqlPartitioner.

(** ** What the WHERE clause means

    The conditions on a row of the fields table, by its columns metadata.namespace and
    metadata.name. *)
Inductive condition :=
  | InNamespace (ns : string)          (* f.metadata.namespace = ? *)
  | NamedIn (names : list string)      (* f.metadata.name IN (?, ...) *)
  | NoRow.                             (* FALSE *)

(** Their texts are written out here, without the definitions that build the query. *)
Definition column_text (name : string) : string :=
  "f." +:+ String (ascii_of_nat 34) (name +:+ String (ascii_of_nat 34) "").
Definition condition_text (c : condition) : string :=
  match c with
  | InNamespace _ => column_text "metadata.namespace" +:+ " = ?"
  | NamedIn names => column_text "metadata.name" +:+ " IN (" +:+ join ", " (replicate (length names) "?") +:+ ")"
  | NoRow => "FALSE"
  end.
Definition condition_values (c : condition) : list string :=
  match c with InNamespace ns => [ns] | NamedIn names => names | NoRow => [] end.
Definition condition_holds (ns n : string) (c : condition) : bool :=
  match c with
  | InNamespace ns' => bool_decide (ns = ns')
  | NamedIn names => bool_decide (n ∈ names)
  | NoRow => false
  end.

(** A clause is a disjunction of conjunctions of conditions. *)
Abbreviation clause := (list (list condition)).

Definition clause_text (d : clause) : string :=
  match (λ cs, join " AND " (condition_text <$> cs)) <$> d with
  | [text] => text
  | texts => "(" +:+ nl +:+ "      (" +:+ join (") OR" +:+ nl +:+ "      (") texts +:+ ")" +:+ nl +:+ ")"
  end.
Definition clause_values (d : clause) : list string := d ≫= λ cs, cs ≫= condition_values.
Definition clause_holds (ns n : string) (d : clause) : bool :=
  existsb (forallb (condition_holds ns n)) d.

(** A WHERE clause is a conjunction of other clauses, of which only the text is known, and clauses on these columns,
    each in parentheses. [other] says which of the other clauses hold for the row. *)
Record where_clause := mkWhere { other_clauses : list string; access_clauses : list clause }.
Definition where_conjunction (clauses : list string) : string :=
  match clauses with
  | [] => ""
  | c :: cs => nl +:+ "  WHERE" +:+ nl +:+ "    (" +:+ c +:+ ")" +:+
               foldr (λ c text, " AND" +:+ nl +:+ "    (" +:+ c +:+ ")" +:+ text) "" cs
  end.
Definition where_text (w : where_clause) : string :=
  where_conjunction (other_clauses w ++ (clause_text <$> access_clauses w))%list.
Definition where_values (w : where_clause) : list string := access_clauses w ≫= clause_values.
Definition where_holds (other : string → bool) (ns n : string) (w : where_clause) : bool :=
  forallb other (other_clauses w) && forallb (clause_holds ns n) (access_clauses w).

(** The conditions of a namespace and of one partition. *)
Definition namespace_spec (namespace : string) : list condition :=
  if all_namespaces namespace then [] else [InNamespace namespace].
Definition partition_spec (p : partition.Partition) : list condition :=
  if partition.Passthrough p then [] else
  namespace_spec (partition.Namespace p) ++
  (if partition.All p then [] else
   match sort_strings (elements (partition.Names p)) with
   | [] => [NoRow]
   | names => [NamedIn names]
   end).

(** The clauses of the access restrictions of a query. *)
Definition access_spec (namespace : string) (partitions : list partition.Partition) : list clause :=
  (match namespace_spec namespace with [] => [] | cs => [[cs]] end) ++
  (match partitions with [] => [[[NoRow]]] | _ => [] end) ++
  (match List.filter (λ cs, negb (bool_decide (cs = []))) (partition_spec <$> partitions) with
   | [] => []
   | d => [d]
   end).

(** * Lemmas *)
Section where_lemmas.
Context `{FloatParser}.

Lemma placeholders_text n : 0 < n → placeholders n = "(" +:+ join ", " (replicate n "?") +:+ ")".
Proof.
  intros Hn. unfold placeholders. destruct n as [|n]; [lia|]. replace (S n - 1) with n by lia. clear Hn.
  assert ("?" +:+ repeat_str ", ?" n = join ", " (replicate (S n) "?")) as <-.
  { induction n as [|n IH]; [done|].
    transitivity ("?" +:+ ", " +:+ join ", " (replicate (S n) "?")); [by rewrite <- IH|done]. }
  done.
Qed.

Lemma where_part_conjunction cs : where_part cs = where_conjunction cs.
Proof.
  unfold where_part, where_conjunction. destruct cs as [|c cs]; [done|].
  assert (∀ c, join (" AND" +:+ nl +:+ "    ") ((λ c, "(" +:+ c +:+ ")") <$> c :: cs) = "(" +:+ c +:+ ")" +:+
    foldr (λ c text, " AND" +:+ nl +:+ "    (" +:+ c +:+ ")" +:+ text) "" cs) as ->; [|done].
  clear c. induction cs as [|c' cs IH]; intros c; [done|].
  transitivity (("(" +:+ c +:+ ")") +:+ (" AND" +:+ nl +:+ "    ") +:+
    join (" AND" +:+ nl +:+ "    ") ((λ c, "(" +:+ c +:+ ")") <$> c' :: cs)); [done|].
  rewrite IH. cbn [foldr]. rewrite !str_app_assoc. done.
Qed.

Lemma where_namespace_spec ns :
  where_namespace ns = (condition_text <$> namespace_spec ns,
                        PString <$> (namespace_spec ns ≫= condition_values)).
Proof. unfold where_namespace, namespace_spec, all_namespaces. by destruct (_ || _). Qed.

Lemma partition_conditions_spec p :
  partition_conditions p = (condition_text <$> partition_spec p,
                            PString <$> (partition_spec p ≫= condition_values)).
Proof.
  unfold partition_conditions, partition_spec. destruct (partition.Passthrough p); [done|].
  rewrite where_namespace_spec. destruct (partition.All p); [by rewrite app_nil_r|].
  rewrite fmap_app, bind_app, fmap_app.
  destruct (sort_strings _) as [|n ns]; [by rewrite app_nil_r|]. rewrite placeholders_text by (cbn; lia).
  cbn [mbind list_bind condition_values]. by rewrite app_nil_r.
Qed.

(** The clauses of namespace and partitions are the texts of [access_spec], their
    parameters its values. *)
Lemma where_access_spec ns ps :
  (where_namespace ns).1 ++ (where_partitions ps).1 = clause_text <$> access_spec ns ps ∧
  (where_namespace ns).2 ++ (where_partitions ps).2 = PString <$> (access_spec ns ps ≫= clause_values).
Proof.
  assert (Hn : (where_namespace ns).1 = clause_text <$> match namespace_spec ns with [] => [] | cs => [[cs]] end ∧
    (where_namespace ns).2 = PString <$> (match namespace_spec ns with [] => [] | cs => [[cs]] end ≫= clause_values)).
  { rewrite where_namespace_spec. unfold namespace_spec. by destruct (all_namespaces ns). }
  destruct Hn as [Hn1 Hn2]. unfold access_spec. rewrite !fmap_app, !bind_app, !fmap_app, <- Hn1, <- Hn2.
  clear Hn1 Hn2. assert (Hps : partition_conditions <$> ps = (λ p, (condition_text <$> partition_spec p,
      PString <$> (partition_spec p ≫= condition_values))) <$> ps).
  { apply list_fmap_ext. intros ???. apply partition_conditions_spec. }
  unfold where_partitions. cbn [fst snd]. rewrite Hps. clear Hps. rewrite <- !list_fmap_compose.
  assert (Hjoin : join " AND " <$> List.filter (λ cs, negb (bool_decide (cs = [])))
      ((fst ∘ (λ p, (condition_text <$> partition_spec p, PString <$> (partition_spec p ≫= condition_values)))) <$> ps) =
    (λ cs, join " AND " (condition_text <$> cs)) <$>
      List.filter (λ cs, negb (bool_decide (cs = []))) (partition_spec <$> ps)).
  { induction ps as [|p ps IH]; [done|]. cbn [fmap list_fmap List.filter compose fst].
    destruct (partition_spec p) as [|c cs]; cbn [fmap list_fmap]; [exact IH|].
    rewrite !bool_decide_eq_false_2 by done. cbn [negb fmap list_fmap]. f_equal. exact IH. }
  rewrite Hjoin. clear Hjoin. split.
  - f_equal. f_equal; [by destruct ps|].
    destruct (List.filter _ _) as [|c [|c' cs]]; done.
  - f_equal. rewrite concat_fmap.
    replace (match ps with [] => [[[NoRow]]] | _ => [] end ≫= clause_values) with (@nil string) by by destruct ps.
    cbn [fmap list_fmap app]. induction ps as [|p ps IH]; [done|].
    cbn [fmap list_fmap mbind list_bind compose snd List.filter].
    rewrite IH. clear IH. destruct (partition_spec p) as [|c cs]; [done|].
    rewrite bool_decide_eq_false_2 by done. cbn [negb].
    destruct (List.filter _ _) as [|d ds]; cbn; unfold clause_values; cbn; rewrite ?app_nil_r; [done|].
    by rewrite !fmap_app.
Qed.
End where_lemmas.

(** ** What [access_spec] selects *)

(** The rows a partition stands for. *)
Definition partition_selects (p : partition.Partition) (ns n : string) : bool :=
  partition.Passthrough p ||
  ((all_namespaces (partition.Namespace p) || bool_decide (ns = partition.Namespace p)) &&
   (partition.All p || bool_decide (n ∈ partition.Names p))).

(** A partition without any condition. *)
Definition unrestricted (p : partition.Partition) : bool :=
  partition.Passthrough p || (all_namespaces (partition.Namespace p) && partition.All p).

Lemma partition_spec_holds p ns n :
  forallb (condition_holds ns n) (partition_spec p) = partition_selects p ns n.
Proof.
  unfold partition_spec, partition_selects, namespace_spec.
  destruct (partition.Passthrough p); [done|]. rewrite forallb_app. cbn [orb]. f_equal.
  - destruct (all_namespaces _); cbn; [done|]. by rewrite andb_true_r.
  - destruct (partition.All p); [done|]. cbn [orb].
    pose proof (sort_strings_perm (elements (partition.Names p))) as Hp.
    assert (Hin : n ∈ partition.Names p ↔ n ∈ sort_strings (elements (partition.Names p)))
      by (by rewrite Hp, elem_of_elements).
    destruct (sort_strings _) as [|x xs]; cbn [forallb condition_holds].
    + rewrite bool_decide_eq_false_2; [done|]. rewrite Hin. apply not_elem_of_nil.
    + rewrite andb_true_r. apply bool_decide_ext. by rewrite Hin.
Qed.

Lemma partition_spec_nil p : partition_spec p = [] ↔ unrestricted p = true.
Proof.
  unfold partition_spec, unrestricted, namespace_spec.
  destruct (partition.Passthrough p), (all_namespaces _), (partition.All p); cbn; try done.
  all: by destruct (sort_strings _).
Qed.

(** A row passes when it is in the namespace, there is a partition, and it is in one of
    the restricted partitions if there are any. *)
Lemma access_spec_holds namespace ps ns n :
  forallb (clause_holds ns n) (access_spec namespace ps) =
  (all_namespaces namespace || bool_decide (ns = namespace)) &&
  negb (bool_decide (ps = [])) &&
  (forallb unrestricted ps ||
   existsb (λ p, negb (unrestricted p) && partition_selects p ns n) ps).
Proof.
  unfold access_spec. rewrite !forallb_app, <- andb_assoc. f_equal; [|f_equal].
  - unfold namespace_spec. destruct (all_namespaces namespace); cbn; [done|].
    by rewrite !andb_true_r, orb_false_r.
  - by destruct ps.
  - assert (Hr : existsb (λ p, negb (unrestricted p) && partition_selects p ns n) ps =
      clause_holds ns n (List.filter (λ cs, negb (bool_decide (cs = []))) (partition_spec <$> ps)) ∧
      forallb unrestricted ps = bool_decide (List.filter (λ cs : list condition, negb (bool_decide (cs = []))) (partition_spec <$> ps) = [])).
    { induction ps as [|p ps [IH1 IH2]]; [done|]. cbn [existsb forallb fmap list_fmap List.filter].
      rewrite IH1, IH2. clear IH1 IH2. pose proof (partition_spec_nil p) as Hn.
      destruct (unrestricted p); cbn [negb andb orb].
      - rewrite (proj2 Hn) by done. rewrite bool_decide_eq_true_2 by done. done.
      - rewrite bool_decide_eq_false_2 by (intros ?%Hn; done). cbn [negb clause_holds existsb].
        unfold clause_holds. cbn [existsb]. by rewrite partition_spec_holds. }
    destruct Hr as [-> ->]. destruct (List.filter _ _); cbn [forallb]; [done|].
    by rewrite andb_true_r.
Qed.

(** Partitions of which none, or every one, is unrestricted select the union of their
    rows. *)
Lemma access_spec_union namespace ps ns n :
  (∀ p, p ∈ ps → unrestricted p = true → ∀ q, q ∈ ps → unrestricted q = true) →
  forallb (clause_holds ns n) (access_spec namespace ps) = true ↔
  (all_namespaces namespace = true ∨ ns = namespace) ∧
  ∃ p, p ∈ ps ∧ partition_selects p ns n = true.
Proof.
  intros Hall. rewrite access_spec_holds, !andb_true_iff, !orb_true_iff, bool_decide_eq_true.
  assert (Hex : negb (bool_decide (ps = [])) = true ∧ (forallb unrestricted ps = true ∨
      existsb (λ p, negb (unrestricted p) && partition_selects p ns n) ps = true) ↔
    ∃ p, p ∈ ps ∧ partition_selects p ns n = true); [|by rewrite <- Hex; clear; tauto].
  rewrite forallb_true, existsb_true, negb_true_iff, bool_decide_eq_false. split.
  - intros [Hne [Hu|(p & Hp & [_ ?]%andb_true_iff)]]; [|by exists p].
    destruct ps as [|p ps]; [done|]. exists p. split; [by left|].
    specialize (Hu p ltac:(by left)). unfold unrestricted in Hu. unfold partition_selects.
    destruct (partition.Passthrough p); [done|]. cbn in *.
    by apply andb_true_iff in Hu as [-> ->].
  - intros (p & Hp & Hsel). split; [by intros ->; apply not_elem_of_nil in Hp|].
    destruct (unrestricted p) eqn:Hu; [left; eauto|].
    right. exists p. by rewrite Hu.
Qed.

(** ** The rows a user may list *)

(** As [Partitions.visible], and across namespaces also the objects an access names in
    all namespaces. *)
Definition sql_visible (schema : APISchema) (namespace ns n : string) : Prop :=
  visible schema "list" ns n ∨
  (namespace = "" ∧ Schema_Namespaced schema = true ∧
   (mkAccess AccessControl.All n ∈ access_by_verb (Schema_Access schema) "list" ∨
    mkAccess AccessControl.All n ∈ access_by_verb (Schema_Access schema) "get")).

(** A row of the table of a resource: [*] is neither a namespace nor a name. *)
Definition row_wf (schema : APISchema) (ns n : string) : Prop :=
  n ≠ "" ∧ n ≠ AccessControl.All ∧ ns ≠ AccessControl.All ∧
  (ns = "" ↔ Schema_Namespaced schema = false).

Section partitioner_lemmas.
Context `{MapRange, SliceSort} (schema : APISchema) (apiOp : APIRequest).
Context (Hwf : request_wf apiOp schema) (Hns : apiOp_Namespace apiOp ≠ AccessControl.All).
Abbreviation resources := (Granted (Schema_Access schema) "list").
Abbreviation aggregate := (SqlPartitioner.generateAggregatePartitions apiOp schema "list").
Abbreviation access_all := (AccessListByVerb_All (Schema_Access schema) "list").

Lemma granted_visible ns n : n ≠ "" → n ≠ AccessControl.All → access_all = false →
  R_All (resources_at resources (resource_namespace schema ns)) = true ∨
  n ∈ R_Names (resources_at resources (resource_namespace schema ns)) ↔
  visible schema "list" ns n.
Proof.
  intros Hn1 Hn2 Hall. rewrite Granted_All, Granted_Names. unfold visible. rewrite Hall.
  generalize (resource_namespace schema ns) as k. intros k. split.
  - intros [(acc&?&?&?)|[[??]|(?&?&?&?)]]; right; [left|left|right]; eauto 10.
  - intros [?|[([ns' n']&?&?&[Hn|Hn])|(?&?)]]; [done|left|right; left|right; right];
      cbn in *; subst; eauto.
Qed.

Lemma all_access_none : access_all = false → R_All (resources_at resources AccessControl.All) = false.
Proof.
  intros Hall. apply not_true_is_false. rewrite Granted_All, <- access_by_verb_All. congruence.
Qed.

Lemma resources_key k : is_Some (resources !! k) →
  if Schema_Namespaced schema then k ≠ "" else k = AccessControl.All.
Proof. by apply lookup_resources_namespace with apiOp. Qed.

(** No partition of a restricted user is without conditions. *)
Lemma aggregate_restricted p :
  aggregate.2 = false → p ∈ aggregate.1 → unrestricted p = false.
Proof.
  unfold SqlPartitioner.generateAggregatePartitions. destruct access_all eqn:Hall; [done|].
  pose proof (all_access_none Hall) as Hstar. case_bool_decide as Hap.
  - destruct (R_All (resources_at resources (apiOp_Namespace apiOp))) eqn:HR; [done|].
    cbn. intros _ ->%list_elem_of_singleton.
    unfold unrestricted, all_namespaces. cbn. by rewrite andb_false_r.
  - intros _ Hp. destruct (Schema_Namespaced schema) eqn:Hnsd; cbn [fst] in Hp;
      apply list_elem_of_fmap in Hp as ([k r] & -> & Hkr); apply elem_of_range_map in Hkr;
      pose proof (resources_key k (mk_is_Some _ _ Hkr)) as Hk; rewrite Hnsd in Hk;
      unfold unrestricted, all_namespaces; cbn.
    + apply String.eqb_neq in Hk as ->. cbn. destruct (String.eqb_spec k "*") as [Hk'|]; [|done].
      change "*" with AccessControl.All in Hk'. subst k. unfold resources_at in Hstar. by rewrite Hkr in Hstar.
    + subst k. unfold resources_at in Hstar. by rewrite Hkr in Hstar.
Qed.

Lemma resources_at_elem k r : (k, r) ∈ range_map resources → resources_at resources k = r.
Proof. intros Hkr%elem_of_range_map. unfold resources_at. by rewrite Hkr. Qed.

Lemma granted_elem k n :
  R_All (resources_at resources k) = true ∨ n ∈ R_Names (resources_at resources k) →
  (k, resources_at resources k) ∈ range_map resources.
Proof.
  unfold resources_at. destruct (resources !! k) as [r|] eqn:Hkr; cbn.
  - intros _. by apply elem_of_range_map.
  - by intros [?|?%not_elem_of_empty].
Qed.

(** The names granted in all namespaces. *)
Lemma star_names n : n ≠ "" → n ≠ AccessControl.All →
  n ∈ R_Names (resources_at resources AccessControl.All) ↔
  mkAccess AccessControl.All n ∈ access_by_verb (Schema_Access schema) "list" ∨
  mkAccess AccessControl.All n ∈ access_by_verb (Schema_Access schema) "get".
Proof. intros. rewrite Granted_Names. naive_solver. Qed.

Lemma aggregate_namespaced ns n : access_all = false → Schema_Namespaced schema = true →
  (∃ r, r ∈ range_map resources ∧ partition_selects (partition.mkPartition false r.1 (R_All r.2) (R_Names r.2)) ns n = true) ↔
  (R_All (resources_at resources ns) = true ∨ n ∈ R_Names (resources_at resources ns)) ∨
  n ∈ R_Names (resources_at resources AccessControl.All).
Proof.
  intros Hall Hnsd. pose proof (all_access_none Hall) as Hstar. unfold partition_selects. cbn.
  split.
  - intros ([k r] & Hkr & [Hk Hr]%andb_true_iff). pose proof (resources_at_elem _ _ Hkr) as <-.
    apply elem_of_range_map in Hkr. pose proof (resources_key k (mk_is_Some _ _ Hkr)) as Hne.
    rewrite Hnsd in Hne. rewrite orb_true_iff, bool_decide_eq_true in Hk, Hr. cbn in *.
    destruct Hk as [Hk| ->]; [|by left].
    unfold all_namespaces in Hk. rewrite (proj2 (String.eqb_neq k "")) in Hk by done.
    apply String.eqb_eq in Hk. change "*" with AccessControl.All in Hk. subst k.
    right. destruct Hr as [Hr|?]; [congruence|done].
  - intros [Hr|Hr].
    + exists (ns, resources_at resources ns). split; [by eapply granted_elem|]. cbn.
      rewrite (bool_decide_eq_true_2 (ns = ns)), orb_true_r by done. cbn.
      by rewrite orb_true_iff, bool_decide_eq_true.
    + exists (AccessControl.All, resources_at resources AccessControl.All).
      split; [eapply granted_elem; by right|]. cbn. by rewrite bool_decide_eq_true_2, orb_true_r by done.
Qed.

Lemma aggregate_cluster ns n : Schema_Namespaced schema = false →
  (∃ r, r ∈ range_map resources ∧ partition_selects (partition.mkPartition false "" (R_All r.2) (R_Names r.2)) ns n = true) ↔
  R_All (resources_at resources AccessControl.All) = true ∨
  n ∈ R_Names (resources_at resources AccessControl.All).
Proof.
  intros Hnsd. unfold partition_selects. cbn. setoid_rewrite orb_true_iff. setoid_rewrite bool_decide_eq_true. split.
  - intros ([k r] & Hkr & Hr). pose proof (resources_at_elem _ _ Hkr) as <-.
    apply elem_of_range_map in Hkr. pose proof (resources_key k (mk_is_Some _ _ Hkr)) as Hne.
    rewrite Hnsd in Hne. by subst k.
  - intros Hr. exists (AccessControl.All, resources_at resources AccessControl.All).
    split; [by eapply granted_elem|done].
Qed.

Lemma aggregate_selects_visible ns n : row_wf schema ns n → aggregate.2 = false →
  (all_namespaces (apiOp_Namespace apiOp) = true ∨ ns = apiOp_Namespace apiOp) →
  (∃ p, p ∈ aggregate.1 ∧ partition_selects p ns n = true) ↔
  sql_visible schema (apiOp_Namespace apiOp) ns n.
Proof.
  intros (Hn1 & Hn2 & Hns1 & Hns2). unfold SqlPartitioner.generateAggregatePartitions, sql_visible.
  destruct access_all eqn:Hall; [done|].
  rewrite <- granted_visible, <- star_names by done. unfold resource_namespace.
  destruct (decide (apiOp_Namespace apiOp = "")) as [Hap|Hap].
  - rewrite Hap, bool_decide_eq_false_2 by auto. intros _ _.
    destruct (Schema_Namespaced schema) eqn:Hnsd; cbn [fst]; rewrite exists_elem_of_fmap.
    + pose proof (aggregate_namespaced ns n Hall Hnsd) as Ha.
      etransitivity; [|etransitivity; [exact Ha|]]; [|naive_solver].
      f_equiv. intros [k r]. done.
    + pose proof (aggregate_cluster ns n Hnsd) as Ha.
      etransitivity; [|etransitivity; [exact Ha|]]; [|naive_solver].
      f_equiv. intros [k r]. done.
  - rewrite bool_decide_eq_true_2 by done.
    destruct (R_All (resources_at _ (apiOp_Namespace apiOp))) eqn:HR; [done|]. cbn [fst snd].
    intros _ [Hall'| ->].
    { unfold all_namespaces in Hall'. apply orb_true_iff in Hall' as [?%String.eqb_eq|?%String.eqb_eq]; done. }
    assert (Schema_Namespaced schema = true) as ->.
    { destruct (Schema_Namespaced schema) eqn:Hnsd; [done|]. destruct Hap. by apply Hns2. }
    rewrite exists_elem_of_cons, exists_elem_of_nil. unfold partition_selects. cbn. rewrite HR.
    rewrite (bool_decide_eq_true_2 (apiOp_Namespace apiOp = apiOp_Namespace apiOp)) by done.
    rewrite orb_true_r. cbn. rewrite bool_decide_eq_true. naive_solver.
Qed.

Lemma passthrough_visible ns n : aggregate.2 = true →
  (all_namespaces (apiOp_Namespace apiOp) = true ∨ ns = apiOp_Namespace apiOp) →
  visible schema "list" ns n.
Proof.
  unfold SqlPartitioner.generateAggregatePartitions, visible.
  destruct access_all eqn:Hall; [by left|]. case_bool_decide as Hap; [|by destruct (Schema_Namespaced schema)].
  destruct (R_All (resources_at _ (apiOp_Namespace apiOp))) eqn:HR; [|done].
  intros _ [Hall'| ->].
  { unfold all_namespaces in Hall'. apply orb_true_iff in Hall' as [?%String.eqb_eq|?%String.eqb_eq]; done. }
  apply Granted_All in HR as (acc & ? & ? & ?). right; left. exists acc. split; [done|].
  unfold resource_namespace. destruct (Schema_Namespaced schema) eqn:Hnsd; [by auto|].
  unfold request_wf in Hwf. rewrite Hnsd in Hwf. by destruct Hwf.
Qed.
End partitioner_lemmas.

Lemma and_iff_under (P Q R : Prop) : (P → Q ↔ R) → P ∧ Q ↔ P ∧ R.
Proof. tauto. Qed.

Lemma paginate_extends `{FloatParser} q ps order p :
  ∃ suffix after, query (paginate q ps order p) = q +:+ suffix ∧
    params (paginate q ps order p) = ps ++ after.
Proof. unfold paginate. destruct (_ || _); cbn [query params]; by eexists _, _. Qed.

(** The access clauses are a part of the query, their values a part of its parameters
    and bound to the placeholders of these clauses. *)
Lemma constructQuery_access `{MapRange} `{FloatParser} l lo ps namespace dbName info :
  indexer_wf l dbName →
  Forall (λ fs, Forall filter_wf (sqltypes.Filters fs)) (sqltypes.lo_Filters lo) →
  constructQuery l lo ps namespace dbName = Ok info →
  ∃ prefix clauses suffix before after,
    query info = prefix +:+ where_part (clauses ++ (clause_text <$> access_spec namespace ps)) +:+ suffix ∧
    params info = before ++ (PString <$> (access_spec namespace ps ≫= clause_values)) ++ after ∧
    qmarks prefix + sum_list (qmarks <$> clauses) = length before.
Proof.
  intros Hwf Hf. unfold constructQuery.
  intros (labels & _ & (u & _ & ([[q vs] jt] & Hsel & Hq)%outcome_bind_ok)%outcome_bind_ok)%outcome_bind_ok.
  apply outcome_bind_ok in Hq as (wf & Hwfs & (wp & Hwp & (order & Ho & Hq)%outcome_bind_ok)%outcome_bind_ok).
  apply (select_part_balanced l) in Hsel; [|done].
  apply where_filters_balanced in Hwfs; [|done..]. apply where_projects_balanced in Hwp; [|done].
  apply Ok_inj in Hq as <-. destruct (where_access_spec namespace ps) as [<- <-].
  destruct (paginate_extends (q +:+ where_part (wf.1 ++ wp.1 ++ (where_namespace namespace).1 ++ (where_partitions ps).1))
    (vs ++ wf.2 ++ wp.2 ++ (where_namespace namespace).2 ++ (where_partitions ps).2) order
    (sqltypes.lo_Pagination lo)) as (suffix & after & -> & ->).
  exists q, (wf.1 ++ wp.1), suffix, (vs ++ wf.2 ++ wp.2), after. unfold balanced_parts in *.
  rewrite str_app_assoc, <- !app_assoc. split_and!; [done..|].
  rewrite fmap_app, sum_list_with_app, !length_app. lia.
Qed.

(** The options demand a label with a value: in every query for them the WHERE clause has, with values bound to
    its own placeholders, the test that a label of the object has this name and value. The value is escaped as
    for a pattern. *)
Definition label_demanded `{MapRange} `{FloatParser} (label value : string) (lo : sqltypes.ListOptions) : Prop :=
  ∀ l ps namespace dbName info, indexer_wf l dbName →
    Forall (λ fs, Forall filter_wf (sqltypes.Filters fs)) (sqltypes.lo_Filters lo) →
    constructQuery l lo ps namespace dbName = Ok info →
    ∃ alias prefix others others' suffix before after,
      query info = prefix +:+
        where_conjunction (others ++ (alias +:+ ".label = ? AND " +:+ alias +:+ ".value = ?") :: others') +:+ suffix ∧
      params info = before ++ PString label ::
        PString (replace_char "%" "\%" (replace_char "_" "\_" (replace_char "\" "\\" value))) :: after ∧
      qmarks prefix + sum_list (qmarks <$> others) = length before.
Lemma last_label_filter `{MapRange} `{FloatParser} label value lo fs :
  sqltypes.lo_Filters lo = fs ++
    [sqltypes.mkOrFilter [sqltypes.mkFilter ["metadata"; "labels"; label] [value] sqltypes.Eq false]] →
  label_demanded label value lo.
Proof.
  intros Hlo l ps namespace dbName info Hwf Hf Hq. unfold constructQuery in Hq.
  apply outcome_bind_ok in Hq as (labels & _ & (u & _ & ([[q vs] jt] & Hsel & Hq)%outcome_bind_ok)%outcome_bind_ok).
  apply outcome_bind_ok in Hq as (wf & Hwfs & (wp & Hwp & (order & Ho & Hq)%outcome_bind_ok)%outcome_bind_ok).
  apply (select_part_balanced l) in Hsel; [|done]. apply Ok_inj in Hq as <-.
  assert (∃ n wf1, balanced_parts wf1 ∧
    wf.1 = wf1.1 ++ [lt_name n +:+ ".label = ? AND " +:+ lt_name n +:+ ".value = ?"] ∧
    wf.2 = wf1.2 ++ [PString label; PString (formatMatchTargetWithFormatter value false)]) as (n & wf1 & Hb & Hwf1 & Hwf2).
  { unfold where_filters in Hwfs. rewrite Hlo in Hwfs. apply outcome_bind_ok in Hwfs as (cs & Hcs & Hw).
    apply Ok_inj in Hw as <-. apply map_outcome_ok, Forall2_app_inv_l in Hcs as (cs1 & cs2 & Hcs1 & Hcs2 & ->).
    apply Forall2_cons_inv_l in Hcs2 as (c & ? & Hc & ->%Forall2_nil_inv_l & ->).
    unfold buildORClauseFromFilters in Hc. cbn [sqltypes.Filters map_outcome] in Hc.
    unfold filter_clause in Hc. change (isLabelFilter _) with true in Hc. cbn iota in Hc.
    cbn [at_index] in Hc. unfold internLabel in Hc.
    rewrite Hlo, list.Forall_app in Hf. destruct Hf as [Hf _].
    destruct (jt !! label) as [i|] eqn:Hjt; cbn in Hc; rewrite ?Hjt in Hc; cbn in Hc; [|done].
    injection Hc as <-. exists i. eexists (_, _). split; [|split].
    - apply (where_filters_balanced l dbName Hwf (sqltypes.mkListOptions fs (sqltypes.ProjectsOrNamespaces lo)
        (sqltypes.lo_SortList lo) (sqltypes.lo_Pagination lo) (sqltypes.Revision lo)) jt); [|done].
      unfold where_filters. cbn [sqltypes.lo_Filters]. rewrite (proj2 (map_outcome_ok _ _ _) Hcs1). reflexivity.
    - cbn [fst]. rewrite List.filter_app. etransitivity; [apply fmap_app|]. reflexivity.
    - cbn [snd]. rewrite List.filter_app. etransitivity; [apply f_equal, fmap_app|].
      rewrite concat_app. reflexivity. }
  unfold formatMatchTargetWithFormatter in Hwf2. cbn iota in Hwf2.
  destruct (paginate_extends (q +:+ where_part (wf.1 ++ wp.1 ++ (where_namespace namespace).1 ++ (where_partitions ps).1))
    (vs ++ wf.2 ++ wp.2 ++ (where_namespace namespace).2 ++ (where_partitions ps).2) order
    (sqltypes.lo_Pagination lo)) as (suffix & after & -> & ->).
  exists (lt_name n), q, wf1.1, (wp.1 ++ (where_namespace namespace).1 ++ (where_partitions ps).1), suffix, (vs ++ wf1.2).
  eexists. rewrite Hwf1, Hwf2, where_part_conjunction, str_app_assoc, <-!app_assoc. split_and!; [done|reflexivity|].
  rewrite length_app. unfold balanced_parts in Hb. lia.
Qed.

(** The partitions of a list and the rows their clauses select. *)
Lemma list_access_spec `{MapRange, SliceSort} RSplit schema apiOp :
  request_wf apiOp schema → apiOp_Namespace apiOp ≠ AccessControl.All →
  ∃ ps, SqlPartitioner.All RSplit apiOp schema "list" "" = Ok ps ∧
    ∀ ns n, row_wf schema ns n →
      forallb (clause_holds ns n) (access_spec (apiOp_Namespace apiOp) ps) = true ↔
      (apiOp_Namespace apiOp = "" ∨ ns = apiOp_Namespace apiOp) ∧
      sql_visible schema (apiOp_Namespace apiOp) ns n.
Proof.
  intros Hwf Hns.
  assert (Happ : ∀ ns, (all_namespaces (apiOp_Namespace apiOp) = true ∨ ns = apiOp_Namespace apiOp) ↔
    (apiOp_Namespace apiOp = "" ∨ ns = apiOp_Namespace apiOp)).
  { intros ns. unfold all_namespaces. rewrite orb_true_iff, !String.eqb_eq. naive_solver. }
  unfold SqlPartitioner.All. cbn.
  destruct (SqlPartitioner.generateAggregatePartitions apiOp schema "list") as [ps pass] eqn:Hgen.
  destruct pass.
  - eexists. split; [done|].
    intros ns n _. rewrite access_spec_union, <- Happ.
    2:{ intros p Hp _ q ->%list_elem_of_singleton. done. }
    unfold SqlPartitioner.passthroughPartitions. rewrite exists_elem_of_cons, exists_elem_of_nil.
    cbn. split; [|by intros [? _]; auto].
    intros [Hn _]. split; [done|]. left. eapply passthrough_visible; [done..|by rewrite Hgen|done].
  - eexists. split; [done|].
    intros ns n Hrow. rewrite access_spec_union, Happ.
    2:{ intros p Hp Hu. rewrite sort_slice_perm in Hp.
        pose proof (aggregate_restricted schema apiOp Hwf p) as Hr. rewrite Hgen in Hr.
        by rewrite Hr in Hu. }
    apply and_iff_under. intros Hn. rewrite <- Happ in Hn.
    rewrite <- (aggregate_selects_visible schema apiOp Hwf Hns ns n Hrow) by (by rewrite ?Hgen).
    rewrite Hgen. cbn [fst]. by setoid_rewrite sort_slice_perm.
Qed.

(** * Theorems *)

(** C2: Take a request whose namespace is not [*], for a schema with accesses as the schema factory gives them, whose filters
    on a label being in a set have values, and a table whose columns and name have no question mark. Every query for its list
    has a WHERE clause that is a conjunction, of clauses in parentheses, of those of the filters and of clauses whose values are
    bound to their own placeholders and which hold exactly for the rows of the requested namespace that the user may see; across all
    namespaces these are also the rows whose name is granted in all namespaces. *)
Theorem sql_list_visible `{MapRange, SliceSort} `{FloatParser} RSplit schema apiOp l lo dbName :
  request_wf apiOp schema → apiOp_Namespace apiOp ≠ AccessControl.All →
  indexer_wf l dbName → Forall (λ fs, Forall filter_wf (sqltypes.Filters fs)) (sqltypes.lo_Filters lo) →
  ∃ ps, SqlPartitioner.All RSplit apiOp schema "list" "" = Ok ps ∧
    ∀ info, constructQuery l lo ps (apiOp_Namespace apiOp) dbName = Ok info →
      ∃ w prefix suffix before after,
        query info = prefix +:+ where_text w +:+ suffix ∧
        params info = before ++ (PString <$> where_values w) ++ after ∧
        qmarks prefix + sum_list (qmarks <$> other_clauses w) = length before ∧
        ∀ other ns n, row_wf schema ns n →
          where_holds other ns n w = true ↔
          Forall (λ c, other c = true) (other_clauses w) ∧
          (apiOp_Namespace apiOp = "" ∨ ns = apiOp_Namespace apiOp) ∧
          sql_visible schema (apiOp_Namespace apiOp) ns n.
Proof.
  intros Hwf Hns Hl Hlo. destruct (list_access_spec RSplit schema apiOp Hwf Hns) as (ps & Hps & Hsel).
  exists ps. split; [done|]. intros info Hq.
  destruct (constructQuery_access l lo ps _ dbName info Hl Hlo Hq) as (prefix & clauses & suffix & before & after & -> & -> & Hn).
  exists (mkWhere clauses (access_spec (apiOp_Namespace apiOp) ps)), prefix, suffix, before, after.
  unfold where_text. rewrite <- where_part_conjunction. split_and!; [done..|]. intros other ns n Hrow. unfold where_holds.
  rewrite andb_true_iff. cbn [access_clauses other_clauses]. rewrite (Hsel ns n Hrow).
  by rewrite forallb_true, list.Forall_forall.
Qed.

(** The partitions of one object are those of the other partitioner. *)
Definition to_sql (p : Partition) : partition.Partition :=
  partition.mkPartition (P_Passthrough p) (P_Namespace p) (P_All p) (P_Names p).

Lemma by_id_partitions RSplit apiOp schema verb id :
  SqlPartitioner.generatePartitionsByID RSplit apiOp schema verb id =
  to_sql <$> generatePartitionsByID RSplit apiOp schema verb id.
Proof.
  unfold SqlPartitioner.generatePartitionsByID, generatePartitionsByID.
  destruct (RSplit id "/"). by repeat case_match.
Qed.

(** Although a partition with passthrough stands for all rows, it adds nothing to the
    query when another partition is restricted. *)
Example passthrough_partition_ignored :
  access_spec "" [partition.mkPartition true "" false ∅;
                  partition.mkPartition false "team" true ∅] = [[[InNamespace "team"]]].
Proof. reflexivity. Qed.

(** * Concrete inputs *)
Import Concrete PartitionExample SqlExample.

Definition web_filter : sqltypes.OrFilter :=
  one (sqltypes.mkFilter ["metadata"; "labels"; "app"] ["web"] sqltypes.Eq false).

Lemma indexer_ok : indexer_wf indexer "something".
Proof. by split; [repeat constructor|]. Qed.

Lemma web_filter_ok : Forall (λ fs, Forall filter_wf (sqltypes.Filters fs)) [web_filter].
Proof. by repeat constructor. Qed.

Lemma sql_list_visible_witness :
  ∃ ps, SqlPartitioner.All rsplit (mkAPIRequest "") schema "list" "" = Ok ps ∧
    ∀ info, constructQuery indexer (options [web_filter] []) ps "" "something" = Ok info →
      ∃ w prefix suffix before after,
        query info = prefix +:+ where_text w +:+ suffix ∧
        params info = before ++ (PString <$> where_values w) ++ after ∧
        qmarks prefix + sum_list (qmarks <$> other_clauses w) = length before ∧
        ∀ other ns n, row_wf schema ns n →
          where_holds other ns n w = true ↔
          Forall (λ c, other c = true) (other_clauses w) ∧ ("" = "" ∨ ns = "") ∧ sql_visible schema "" ns n.
Proof. apply (sql_list_visible rsplit schema (mkAPIRequest "")); [apply schema_wf|done|apply indexer_ok|apply web_filter_ok]. Defined.
