(* ===== verification/SqlProcessor.v ===== *)
(** * The query parameters of lists from the SQL cache

    pkg/stores/sqlpartition/listprocessor/processor.go: the list options of a request. *)
From S2P Require Import Prelude GoLib.
From S2P Require ListProcessor QueryParser.
From S2P Require Import SqlQuery SqlPlaceholders.
Import (hints) QueryParser.

(** ** Accessors *)

(** The index of the last occurrence of a byte. *)
Fixpoint last_index_char (c : ascii) (s : string) : option nat :=
  match s with
  | "" => None
  | String a r =>
      match last_index_char c r with
      | Some i => Some (S i)
      | None => if Ascii.eqb a c then Some 0 else None
      end
  end.

(** [endsWithBracket.FindStringSubmatch], for [^(.+)\[(.+)]$]: the first group is greedy,
    neither group is empty, and no byte is a newline. *)
Definition endsWithBracket_Find (s : string) : option (string * string) :=
  if has_char "010" s || negb (ends_with "]" s) then None else
  let t := str_take (String.length s - 1) s in
  match last_index_char "[" (str_take (String.length t - 1) t) with
  | Some (S i) => Some (str_take (S i) t, str_drop (S (S i)) t)
  | _ => None
  end.

Definition splitQuery (query : string) : list string :=
  match endsWithBracket_Find query with
  | Some (m1, m2) => split_on "." m1 ++ [m2]
  | None => split_on "." query
  end.

(** ** Operators *)
Definition mapK8sOpToRancherOp : list (QueryParser.Operator * sqltypes.Op) :=
  [(QueryParser.Equals, sqltypes.Eq); (QueryParser.DoubleEquals, sqltypes.Eq);
   (QueryParser.PartialEquals, sqltypes.Eq); (QueryParser.NotEquals, sqltypes.NotEq);
   (QueryParser.NotPartialEquals, sqltypes.NotEq); (QueryParser.In, sqltypes.In);
   (QueryParser.NotIn, sqltypes.NotIn); (QueryParser.Exists, sqltypes.Exists);
   (QueryParser.DoesNotExist, sqltypes.NotExists); (QueryParser.LessThan, sqltypes.Lt);
   (QueryParser.GreaterThan, sqltypes.Gt)].

Inductive query_error :=
  | ErrFilter (text : string)       (* the filter language *)
  | ErrUnknownOp (op : QueryParser.Operator)
  | ErrInvalidRevision (value : string).  (* an API error, 400 Bad Request *)

Definition k8sOpToRancherOp (k8sOp : QueryParser.Operator) : outcome query_error (sqltypes.Op * bool) :=
  match List.find (λ e, bool_decide (e.1 = k8sOp)) mapK8sOpToRancherOp with
  | Some (_, v) =>
      Ok (v, bool_decide (k8sOp = QueryParser.PartialEquals) ||
             bool_decide (k8sOp = QueryParser.NotPartialEquals))
  | None => Err (ErrUnknownOp k8sOp)
  end.

Definition k8sRequirementToOrFilter (r : QueryParser.Requirement) : outcome query_error sqltypes.Filter :=
  o ← k8sOpToRancherOp (QueryParser.r_operator r);
  Ok (sqltypes.mkFilter (splitQuery (QueryParser.r_key r)) (QueryParser.Requirement_Values r) o.1 o.2).

(** ** Filters *)
Definition in_error {E E' A} (f : E → E') (m : outcome E A) : outcome E' A :=
  match m with Ok a => Ok a | Err e => Err (f e) | Panic => Panic end.

Definition parse_or_filter (filters : string) : outcome query_error sqltypes.OrFilter :=
  requirements ← in_error ErrFilter (QueryParser.ParseToRequirements filters);
  fs ← map_outcome k8sRequirementToOrFilter requirements;
  Ok (sqltypes.mkOrFilter fs).

Definition parseNamespaceOrProjectFilters (projOrNS : string) (o : sqltypes.Op) : sqltypes.OrFilter :=
  let projOrNs := split_on "," projOrNS in
  sqltypes.mkOrFilter
    (if decide (0 < length projOrNs) then
       [sqltypes.mkFilter ["metadata"; "name"] projOrNs o false;
        sqltypes.mkFilter ["metadata"; "labels"; projectIDFieldLabel] projOrNs o false]
     else []).

(** ** Sorting *)

(** [callsIPFunctionRegex.MatchString], for [^ip\(.+\)$]. *)
Definition callsIPFunction (s : string) : bool :=
  String.prefix "ip(" s && ends_with ")" s && bool_decide (5 ≤ String.length s) &&
  negb (has_char "010" s).

Definition parse_sort_part (sortPart : string) : outcome query_error (list sqltypes.Sort) :=
  let sortAsIP := callsIPFunction sortPart in
  let field := if sortAsIP then str_take (String.length sortPart - 1 - 3) (str_drop 3 sortPart)
               else sortPart in
  let '(field, order) :=
    match field with String "-" r => (r, sqltypes.DESC) | _ => (field, sqltypes.ASC) end in
  if String.eqb field "" then Ok []
  else
    fields ← in_error ErrFilter (ListProcessor.SafeSplit field);
    Ok [sqltypes.mkSort fields order sortAsIP].

Definition parse_sort (sortKeys : string) : outcome query_error sqltypes.SortList :=
  if String.eqb sortKeys "" then Ok (sqltypes.mkSortList [])
  else
    directives ← map_outcome parse_sort_part (split_on "," sortKeys);
    Ok (sqltypes.mkSortList (concat directives)).

Definition parse_pagination (q : ListProcessor.Values) : sqltypes.Pagination :=
  sqltypes.mkPagination (default 0%Z (parse_int (ListProcessor.Values_Get q "pagesize")))
                        (default 1%Z (parse_int (ListProcessor.Values_Get q "page"))).

(** The parameter [projectsornamespaces] and its operator, if it is present. *)
Definition projects_param (q : ListProcessor.Values) : option (string * sqltypes.Op) :=
  let pos := ListProcessor.Values_Get q "projectsornamespaces" in
  let neg := ListProcessor.Values_Get q "projectsornamespaces!" in
  if negb (String.eqb pos "") then Some (pos, sqltypes.In)
  else if negb (String.eqb neg "") then Some (neg, sqltypes.NotIn) else None.

(** Adds the parameter: to the filters of namespaces themselves, as a condition on the
    namespace of other resources. *)
Definition add_projects (gvKind : string) (param : option (string * sqltypes.Op))
    (fs : list sqltypes.OrFilter) : list sqltypes.OrFilter * sqltypes.OrFilter :=
  match param with
  | None => (fs, sqltypes.mkOrFilter [])
  | Some (text, o) =>
      let f := parseNamespaceOrProjectFilters text o in
      if String.eqb gvKind "Namespace" then
        (match sqltypes.Filters f with
         | [f1; f2] =>
             if bool_decide (o = sqltypes.In) then fs ++ [f]
             else fs ++ [sqltypes.mkOrFilter [f1]; sqltypes.mkOrFilter [f2]]
         | _ => fs
         end, sqltypes.mkOrFilter [])
      else (fs, f)
  end.

Definition ParseQuery (q : ListProcessor.Values) (gvKind : string)
    : outcome query_error sqltypes.ListOptions :=
  filterOpts ← map_outcome parse_or_filter (ListProcessor.Values_all q "filter");
  sortList ← parse_sort (ListProcessor.Values_Get q "sort");
  let '(filterOpts, projects) := add_projects gvKind (projects_param q) filterOpts in
  let revision := ListProcessor.Values_Get q "revision" in
  if negb (String.eqb revision "") && bool_decide (parse_int revision = None) then
    Err (ErrInvalidRevision revision)
  else Ok (sqltypes.mkListOptions filterOpts projects sortList (parse_pagination q) revision).

(** * Lemmas *)

(** ** Accessors *)
Section accessor_lemmas.
Implicit Types (s t : string) (init : list string).

Lemma last_index_char_app c s t : has_char c t = false →
  last_index_char c (s +:+ String c t) = Some (String.length s).
Proof.
  intros Ht. assert (Hnone : ∀ u, has_char c u = false → last_index_char c u = None).
  { induction u as [|a u IH]; cbn; [done|]. intros [-> Hu]%orb_false_iff. by rewrite (IH Hu). }
  induction s as [|a s IH]; cbn; [by rewrite Hnone, ascii_eqb_refl|by rewrite IH].
Qed.

Lemma ends_with_snoc c s a : ends_with c (s +:+ String a "") = Ascii.eqb a c.
Proof. induction s as [|b s IH]; [done|]. cbn. rewrite <- IH. by destruct s. Qed.

Lemma string_snoc s : s ≠ "" → ∃ t a, s = t +:+ String a "".
Proof.
  induction s as [|a s IH]; [done|]. intros _. destruct s as [|b s].
  - by exists "", a.
  - destruct IH as (t & c & ->); [done|]. by exists (String a t), c.
Qed.

(** The greedy match of an accessor with brackets. *)
Lemma endsWithBracket_Find_app s t :
  s ≠ "" → t ≠ "" → has_char "010" s = false → has_char "010" t = false →
  has_char "[" t = false →
  endsWithBracket_Find (s +:+ "[" +:+ t +:+ "]") = Some (s, t).
Proof.
  intros Hs Ht Hns Hnt Hb. unfold endsWithBracket_Find.
  assert (Hq : s +:+ "[" +:+ t +:+ "]" = (s +:+ "[" +:+ t) +:+ "]") by (by rewrite !str_app_assoc).
  rewrite Hq, ends_with_snoc. rewrite !has_char_app, Hns, Hnt. cbn [has_char orb negb Ascii.eqb Bool.eqb].
  rewrite str_length_app. cbn [String.length]. rewrite Nat.add_sub.
  rewrite str_take_app.
  destruct (string_snoc t Ht) as (t' & a & ->).
  assert (Hq' : s +:+ "[" +:+ t' +:+ String a "" = (s +:+ "[" +:+ t') +:+ String a "")
    by (by rewrite !str_app_assoc).
  rewrite Hq', str_length_app. cbn [String.length]. rewrite Nat.add_sub, str_take_app.
  rewrite has_char_app in Hb. apply orb_false_iff in Hb as [Hb _].
  change ("[" +:+ t') with (String "[" t'). rewrite last_index_char_app by done.
  change (String "[" t') with ("[" +:+ t'). rewrite <- Hq'.
  destruct s as [|b s]; [done|]. cbn [String.length].
  change (S (String.length s)) with (String.length (String b s)).
  rewrite str_take_app. do 2 f_equal.
  replace (S (String.length (String b s))) with (String.length (String b s +:+ "["))
    by (rewrite str_length_app; cbn; lia).
  rewrite <- str_app_assoc. apply str_drop_app.
Qed.

(** The fields of an accessor with a path and a last field: what [smartJoin] writes
    between brackets can be told from the path. *)
Definition accessor_wf (init : list string) (lst : string) : Prop :=
  join "." init ≠ "" ∧
  Forall (λ p, has_char "." p = false ∧ has_char "010" p = false) init ∧
  (simpleName_Match lst = true ∨
   (lst ≠ "" ∧ has_char "[" lst = false ∧ has_char "010" lst = false)).

Lemma simpleName_chars lst : simpleName_Match lst = true →
  all_chars (λ c, letter_or_underscore c || is_digit c) lst = true.
Proof.
  destruct lst as [|c lst]; cbn; [done|]. intros [Hc Hr]%andb_true_iff. by rewrite Hc, Hr.
Qed.

Lemma smartJoin_snoc init lst : init ≠ [] → smartJoin (init ++ [lst]) =
  if simpleName_Match lst then join "." init +:+ "." +:+ lst
  else join "." init +:+ "[" +:+ lst +:+ "]".
Proof.
  intros Hne. unfold smartJoin. destruct init as [|x [|y init]]; [done|done|].
  change ((x :: y :: init) ++ [lst]) with (x :: y :: (init ++ [lst])).
  change (x :: y :: init ++ [lst]) with ((x :: y :: init) ++ [lst]).
  rewrite last_snoc, removelast_last, ListProcessor.join_snoc by done. cbn [default]. done.
Qed.

Lemma endsWithBracket_Find_simple s lst :
  simpleName_Match lst = true → endsWithBracket_Find (s +:+ "." +:+ lst) = None.
Proof.
  intros Hl. unfold endsWithBracket_Find.
  assert (Hne : lst ≠ "") by (by intros ->). destruct (string_snoc lst Hne) as (t & a & ->).
  apply simpleName_chars in Hl. rewrite all_chars_app in Hl. apply andb_true_iff in Hl as [_ Ha].
  assert (Hq : s +:+ "." +:+ t +:+ String a "" = (s +:+ "." +:+ t) +:+ String a "")
    by (by rewrite !str_app_assoc).
  rewrite Hq, ends_with_snoc. replace (Ascii.eqb a "]") with false; [by rewrite orb_true_r|].
  symmetry. apply ascii_eqb_false. intros ->. by vm_compute in Ha.
Qed.

Lemma splitQuery_join init lst : accessor_wf init lst → init ≠ [] →
  splitQuery (smartJoin (init ++ [lst])) = init ++ [lst].
Proof.
  intros (Hj & Hinit & Hl) Hne. rewrite smartJoin_snoc by done.
  assert (Hdots : Forall (λ p, has_char "." p = false) init)
    by (revert Hinit; apply Forall_impl; tauto).
  assert (Hnl : Forall (λ p, has_char "010" p = false) init)
    by (revert Hinit; apply Forall_impl; tauto).
  unfold splitQuery. destruct (simpleName_Match lst) eqn:Hs.
  - rewrite endsWithBracket_Find_simple by done.
    rewrite <- ListProcessor.join_snoc by done. apply split_on_join; [by destruct init|].
    apply Forall_app; split; [done|]. constructor; [|constructor].
    eapply has_char_all_chars; [by apply simpleName_chars|done].
  - destruct Hl as [?|(? & ? & ?)]; [congruence|].
    rewrite endsWithBracket_Find_app; [by rewrite split_on_join| done..| |done|done].
    by apply ListProcessor.has_char_join.
Qed.
End accessor_lemmas.

(** ** Queries that do not panic *)

(** A filter with the elements its operator reads: a label test names the label, a test of
    one value has one. *)
Definition filter_complete (f : sqltypes.Filter) : Prop :=
  (isLabelFilter f = true → 2 < length (sqltypes.Field f)) ∧
  (sqltypes.op f ∈ [sqltypes.Eq; sqltypes.NotEq; sqltypes.Lt; sqltypes.Gt] →
   sqltypes.Matches f ≠ []).

Section no_panic.
Context `{MapRange} `{FloatParser} (l : ListOptionIndexer) (dbName : string).
Implicit Types f : sqltypes.Filter.

Lemma at_index_no_panic (fs : list string) i : i < length fs → at_index fs i ≠ Panic.
Proof. intros [x Hx]%lookup_lt_is_Some. unfold at_index. by rewrite Hx. Qed.

Lemma label_no_panic f : filter_complete f → isLabelFilter f = true →
  at_index (sqltypes.Field f) 2 ≠ Panic.
Proof. intros [Hl _] Hf. by apply at_index_no_panic, Hl. Qed.

Lemma match_no_panic f : filter_complete f →
  sqltypes.op f ∈ [sqltypes.Eq; sqltypes.NotEq; sqltypes.Lt; sqltypes.Gt] →
  at_index (sqltypes.Matches f) 0 ≠ Panic.
Proof. intros [_ Hm] Hf. apply at_index_no_panic, non_nil_length, Hm, Hf. Qed.

Lemma getValidFieldEntry_no_panic prefix fields : getValidFieldEntry l prefix fields ≠ Panic.
Proof. unfold getValidFieldEntry. by repeat case_match. Qed.

Lemma internLabel_no_panic label jt n : internLabel label jt n ≠ Panic.
Proof. unfold internLabel. by repeat case_match. Qed.

Lemma prepareComparison_no_panic o t : prepareComparisonParameters o t ≠ Panic.
Proof. unfold prepareComparisonParameters. by repeat case_match. Qed.

Lemma formatMatchTarget_no_panic f : at_index (sqltypes.Matches f) 0 ≠ Panic →
  formatMatchTarget f ≠ Panic.
Proof. intros. unfold formatMatchTarget. by apply bind_no_panic. Qed.

(** Closes the goals of a sequence of calls that do not panic. *)
Ltac no_panic :=
  repeat match goal with
    | |- _ ≫= _ ≠ Panic => apply bind_no_panic; [|intros ? _]
    | |- Ok _ ≠ Panic => done
    | |- Err _ ≠ Panic => done
    | |- (let '(_, _) := ?x in _) ≠ Panic => destruct x
    | |- getValidFieldEntry _ _ _ ≠ Panic => apply getValidFieldEntry_no_panic
    | |- internLabel _ _ _ ≠ Panic => apply internLabel_no_panic
    | |- prepareComparisonParameters _ _ ≠ Panic => apply prepareComparison_no_panic
    | |- formatMatchTarget _ ≠ Panic => apply formatMatchTarget_no_panic
    | |- at_index (sqltypes.Field _) 2 ≠ Panic => by apply label_no_panic
    | |- at_index (sqltypes.Matches _) 0 ≠ Panic =>
        apply match_no_panic; [done|]; match goal with E : sqltypes.op _ = _ |- _ =>
          rewrite E, !elem_of_cons; auto 6 end
    end.

Lemma filter_clause_no_panic jt f : filter_complete f → filter_clause l dbName jt f ≠ Panic.
Proof.
  intros Hf. unfold filter_clause. destruct (isLabelFilter f) eqn:Hl.
  - no_panic. unfold getLabelFilter. no_panic.
    destruct (sqltypes.op f) eqn:Ho; try destruct (eq_operator _ _); no_panic.
  - unfold getFieldFilter. no_panic.
    destruct (sqltypes.op f) eqn:Ho; try destruct (eq_operator _ _); no_panic.
Qed.

Lemma projects_clause_no_panic jt f : filter_complete f → projects_clause l dbName jt f ≠ Panic.
Proof.
  intros Hf. unfold projects_clause. destruct (isLabelFilter f) eqn:Hl.
  - no_panic. unfold getProjectsOrNamespacesLabelFilter. no_panic. by destruct (sqltypes.op f).
  - unfold getProjectsOrNamespacesFieldFilter. no_panic. by destruct (sqltypes.op f).
Qed.

Lemma getUnboundSortLabels_no_panic lo :
  Forall (λ fs, Forall filter_complete (sqltypes.Filters fs)) (sqltypes.lo_Filters lo) →
  getUnboundSortLabels lo ≠ Panic.
Proof.
  intros Hfs. unfold getUnboundSortLabels. destruct (sqltypes.SortDirectives _); [done|].
  apply bind_no_panic; [|done]. apply foldl_outcome_no_panic. intros m o Ho.
  rewrite List.Forall_forall in Hfs. apply list_elem_of_In, Hfs in Ho.
  rewrite List.Forall_forall in Ho. apply foldl_outcome_no_panic. intros m' f Hf.
  apply list_elem_of_In, Ho in Hf. unfold unbind_label.
  destruct (isLabelFilter f) eqn:Hl; [|done]. destruct (binds_label _); [|done].
  cbn [andb]. no_panic.
Qed.

Lemma label_joins_no_panic st fs :
  Forall (λ fs, Forall filter_complete (sqltypes.Filters fs)) fs → label_joins dbName st fs ≠ Panic.
Proof.
  intros Hfs. unfold label_joins. apply foldl_outcome_no_panic. intros st' o Ho.
  rewrite List.Forall_forall in Hfs. apply list_elem_of_In, Hfs in Ho.
  rewrite List.Forall_forall in Ho. apply foldl_outcome_no_panic. intros [q jt] f Hf.
  apply list_elem_of_In, Ho in Hf. unfold label_join. destruct (isLabelFilter f) eqn:Hl; [|done].
  no_panic. by case_match.
Qed.

Lemma getWithParts_no_panic i labels jt prefix :
  getWithParts_from i labels jt dbName prefix ≠ Panic.
Proof.
  revert i jt. induction labels as [|label labels IH]; intros i jt; cbn [getWithParts_from]; [done|].
  apply bind_no_panic; [apply internLabel_no_panic|]. intros [idx jt'] _.
  apply bind_no_panic; [apply IH|]. by intros [[[ps vs] js] jt''] _.
Qed.

Lemma constructQuery_no_panic lo partitions namespace :
  Forall (λ fs, Forall filter_complete (sqltypes.Filters fs)) (sqltypes.lo_Filters lo) →
  Forall filter_complete (sqltypes.Filters (sqltypes.ProjectsOrNamespaces lo)) →
  constructQuery l lo partitions namespace dbName ≠ Panic.
Proof.
  intros Hfs Hps. unfold constructQuery. apply bind_no_panic; [by apply getUnboundSortLabels_no_panic|].
  intros labels _. apply bind_no_panic; [unfold check_revision; by repeat case_match|]. intros _ _.
  apply bind_no_panic.
  { unfold select_part. apply bind_no_panic.
    - destruct labels; [done|]. apply bind_no_panic; [apply getWithParts_no_panic|].
      by intros [[[? ?] ?] ?] _.
    - intros [[[q vs] js] jt] _. apply bind_no_panic.
      + destruct (_ || _); [by apply label_joins_no_panic|done].
      + intros st _. by destruct (match sqltypes.Filters _ with [] => _ | _ => _ end). }
  intros [[q vs] jt] _. rewrite List.Forall_forall in Hfs, Hps.
  apply bind_no_panic.
  { unfold where_filters. apply bind_no_panic; [|done]. apply map_outcome_no_panic. intros o Ho.
    apply list_elem_of_In, Hfs in Ho. rewrite List.Forall_forall in Ho.
    unfold buildORClauseFromFilters. apply bind_no_panic; [|done]. apply map_outcome_no_panic.
    intros f Hf. apply filter_clause_no_panic, Ho. by apply list_elem_of_In. }
  intros wf _. apply bind_no_panic.
  { unfold where_projects, buildClauseFromProjectsOrNamespaces.
    destruct (sqltypes.Filters (sqltypes.ProjectsOrNamespaces lo)) as [|f fs]; [done|].
    apply bind_no_panic; [|done]. apply bind_no_panic; [|intros; by case_match].
    apply map_outcome_no_panic. intros g Hg. apply projects_clause_no_panic, Hps.
    by apply list_elem_of_In. }
  intros wp _. apply bind_no_panic; [|done].
  unfold order_part. destruct (sqltypes.SortDirectives _) as [|d ds]; [done|].
  apply bind_no_panic; [|done]. apply map_outcome_no_panic. intros e _.
  unfold order_clause. destruct (isLabelsFieldList _) eqn:He.
  - apply bind_no_panic.
    + apply at_index_no_panic. unfold isLabelsFieldList in He.
      destruct (sqltypes.Fields e) as [|? [|? [|? [|]]]]; cbn; try done; lia.
    + intros label _. unfold buildSortLabelsClause. no_panic.
  - no_panic.
Qed.
End no_panic.

(** ** The filters of a parsed query *)
Section parsed.
Implicit Types r : QueryParser.Requirement.

Lemma Requirement_Values_nonempty r :
  QueryParser.r_strValues r ≠ [] → QueryParser.Requirement_Values r ≠ [].
Proof.
  intros Hne Hnil. destruct (QueryParser.r_strValues r) as [|v vs] eqn:Hvs; [done|].
  assert (Hv : v ∈ QueryParser.Requirement_Values r); [|rewrite Hnil in Hv; by apply not_elem_of_nil in Hv].
  unfold QueryParser.Requirement_Values, QueryParser.set_List.
  rewrite elem_of_sort_strings, elem_of_elements, elem_of_list_to_set, Hvs. by left.
Qed.

(** A filter with a value for each operator that reads one. *)
Definition filter_valued (f : sqltypes.Filter) : Prop :=
  sqltypes.op f ∈ [sqltypes.Eq; sqltypes.NotEq; sqltypes.Lt; sqltypes.Gt; sqltypes.In; sqltypes.NotIn] →
  sqltypes.Matches f ≠ [].

Lemma requirement_filter_valued r f :
  QueryParser.requirement_ok r → k8sRequirementToOrFilter r = Ok f → filter_valued f.
Proof.
  intros (Herr & _) (o & Ho & Hf)%outcome_bind_ok Hop. apply Ok_inj in Hf as <-. cbn in *.
  apply Requirement_Values_nonempty. intros Hnil. rewrite Hnil in Herr.
  destruct (QueryParser.r_operator r); vm_compute in Herr; try discriminate Herr;
    vm_compute in Ho; apply Ok_inj in Ho as <-; cbn in Hop;
    rewrite !elem_of_cons, elem_of_nil in Hop; naive_solver.
Qed.

Lemma parse_or_filter_valued text fs :
  parse_or_filter text = Ok fs → Forall filter_valued (sqltypes.Filters fs).
Proof.
  intros (rs & Hrs & (gs & Hgs & Hf)%outcome_bind_ok)%outcome_bind_ok. apply Ok_inj in Hf as <-.
  assert (Hok : Forall QueryParser.requirement_ok rs).
  { destruct (QueryParser.ParseToRequirements text) eqn:Hp; cbn in Hrs; try done.
    apply Ok_inj in Hrs as <-. eapply QueryParser.parse_loop_valid; [constructor|exact Hp]. }
  clear Hrs. apply map_outcome_ok in Hgs. cbn. revert Hok.
  induction Hgs as [|r f rs gs Hr Hgs IH]; [done|]. inversion_clear 1.
  constructor; [by eapply requirement_filter_valued|auto].
Qed.

Lemma parse_projects_valued text o :
  Forall filter_valued (sqltypes.Filters (parseNamespaceOrProjectFilters text o)) ∧
  Forall (λ f, isLabelFilter f = true → 2 < length (sqltypes.Field f))
    (sqltypes.Filters (parseNamespaceOrProjectFilters text o)).
Proof.
  unfold parseNamespaceOrProjectFilters. pose proof (split_on_nonnil "," text).
  cbn [sqltypes.Filters]. case_decide; [|by split; constructor].
  split.
  - apply List.Forall_cons; [by intros _|]. apply List.Forall_cons; [by intros _|]. constructor.
  - apply List.Forall_cons; [by intros Hl%Is_true_true|]. apply List.Forall_cons; [|constructor].
    intros _. cbn. lia.
Qed.

Lemma add_projects_valued kind param fs fs' projects :
  add_projects kind param fs = (fs', projects) →
  Forall (λ o, Forall filter_valued (sqltypes.Filters o)) fs →
  Forall (λ o, Forall filter_valued (sqltypes.Filters o)) fs' ∧
  Forall filter_valued (sqltypes.Filters projects) ∧
  Forall (λ f, isLabelFilter f = true → 2 < length (sqltypes.Field f)) (sqltypes.Filters projects).
Proof.
  unfold add_projects. intros Hadd Hfs. destruct param as [[text o]|]; [|by simplify_eq; split_and!; [|constructor..]].
  destruct (parse_projects_valued text o) as [Hv Hl].
  destruct (String.eqb kind "Namespace"); simplify_eq; [|done].
  split; [|by split; constructor].
  destruct (sqltypes.Filters (parseNamespaceOrProjectFilters text o)) as [|f1 [|f2 [|]]] eqn:Hf; try done.
  rewrite !list.Forall_cons in Hv. destruct Hv as (H1 & H2 & _).
  case_bool_decide; apply Forall_app; split; try done.
  - constructor; [|constructor]. rewrite Hf. by repeat constructor.
  - by repeat constructor.
Qed.

Lemma ParseQuery_valued q kind lo : ParseQuery q kind = Ok lo →
  Forall (λ o, Forall filter_valued (sqltypes.Filters o)) (sqltypes.lo_Filters lo) ∧
  Forall filter_valued (sqltypes.Filters (sqltypes.ProjectsOrNamespaces lo)) ∧
  Forall (λ f, isLabelFilter f = true → 2 < length (sqltypes.Field f))
    (sqltypes.Filters (sqltypes.ProjectsOrNamespaces lo)).
Proof.
  unfold ParseQuery. intros (fs & Hfs & (sl & _ & Hq)%outcome_bind_ok)%outcome_bind_ok.
  destruct (add_projects kind (projects_param q) fs) as [fs' projects] eqn:Hadd.
  destruct (_ && _); [done|]. apply Ok_inj in Hq as <-. cbn.
  eapply add_projects_valued; [done|]. apply map_outcome_ok in Hfs.
  clear Hadd. induction Hfs as [|t o ts os Ho Hfs IH]; constructor; [by eapply parse_or_filter_valued|done].
Qed.
End parsed.

(** * Theorems *)

(** The accessor of a field, written as the indexer names its column, is split back
    into the field: a filter on the column name reads that column. *)
Theorem splitQuery_smartJoin init lst :
  accessor_wf init lst → splitQuery (smartJoin (init ++ [lst])) = init ++ [lst].
Proof.
  intros Hwf. apply splitQuery_join; [done|]. destruct Hwf as [Hj _]. by intros ->.
Qed.

(** C31: The options of every request whose filters on labels name a label give a query or
    an error: building the query does not panic, and each of its label tests compares with
    at least one value. *)
Theorem parsed_query_safe `{MapRange} `{FloatParser} q kind lo l partitions namespace dbName :
  ParseQuery q kind = Ok lo →
  Forall (λ o, Forall (λ f, isLabelFilter f = true → 2 < length (sqltypes.Field f))
                 (sqltypes.Filters o)) (sqltypes.lo_Filters lo) →
  constructQuery l lo partitions namespace dbName ≠ Panic ∧
  Forall (λ o, Forall filter_wf (sqltypes.Filters o)) (sqltypes.lo_Filters lo).
Proof.
  intros (Hv & Hpv & Hpl)%ParseQuery_valued Hl.
  assert (Hc : ∀ f, filter_valued f → (isLabelFilter f = true → 2 < length (sqltypes.Field f)) →
    filter_complete f ∧ filter_wf f).
  { intros f Hf Hlf. split; [split; [done|]|]; unfold filter_wf, filter_valued in *.
    - intros Hop. apply Hf. rewrite !elem_of_cons in *. clear -Hop. naive_solver.
    - intros _ Hop. apply Hf. rewrite !elem_of_cons in *. clear -Hop. naive_solver. }
  rewrite List.Forall_forall in Hv, Hl. split.
  - apply constructQuery_no_panic.
    + apply List.Forall_forall. intros o Ho. specialize (Hv o Ho). specialize (Hl o Ho).
      rewrite List.Forall_forall in Hv, Hl |- *. intros f Hf. apply Hc; auto.
    + rewrite List.Forall_forall in Hpv, Hpl |- *. intros f Hf. apply Hc; auto.
  - apply List.Forall_forall. intros o Ho. specialize (Hv o Ho). specialize (Hl o Ho).
    rewrite List.Forall_forall in Hv, Hl |- *. intros f Hf. apply Hc; auto.
Qed.

(** A filter on the labels as a whole is accepted by the parser and then panics on the
    missing name of the label. *)
Theorem metadata_labels_filter_panics `{MapRange} `{FloatParser} l partitions namespace dbName :
  ∃ lo, ParseQuery {[ "filter" := ["metadata.labels=x"] ]} "Pod" = Ok lo ∧
        constructQuery l lo partitions namespace dbName = Panic.
Proof. eexists. split; [vm_compute; reflexivity|]. reflexivity. Qed.

(** ** Concrete requests *)
Import GoLib.Concrete SqlExample.

Lemma splitQuery_smartJoin_witness :
  splitQuery (smartJoin (["metadata"; "annotations"] ++ ["k8s.io/this-is-fun"])) =
  ["metadata"; "annotations"; "k8s.io/this-is-fun"].
Proof.
  apply (splitQuery_smartJoin ["metadata"; "annotations"]). split; [done|].
  split; [by repeat constructor|by right].
Defined.

Definition pods_query : ListProcessor.Values :=
  {[ "filter" := ["metadata.labels[app]~web,status.queryField2 in (a, b)"];
     "sort" := ["-metadata.queryField1,ip(spec.containers.image)"];
     "pagesize" := ["10"]; "page" := ["3"]; "projectsornamespaces" := ["p-1"] ]}.
Definition pods_options : sqltypes.ListOptions :=
  match ParseQuery pods_query "Pod" with Ok lo => lo | _ => options [] [] end.

Lemma parsed_query_safe_witness :
  sqltypes.lo_Pagination pods_options = sqltypes.mkPagination 10 3 ∧
  constructQuery indexer pods_options [] "" "something" ≠ Panic.
Proof.
  split; [vm_compute; reflexivity|].
  apply (parsed_query_safe pods_query "Pod" pods_options indexer [] "" "something").
  - vm_compute. reflexivity.
  - assert (Hlen : forallb (λ o, forallb (λ f, negb (isLabelFilter f) || Nat.ltb 2 (length (sqltypes.Field f)))
      (sqltypes.Filters o)) (sqltypes.lo_Filters pods_options) = true) by (vm_compute; reflexivity).
    apply List.Forall_forall. intros o Ho. rewrite forallb_forall in Hlen. apply Hlen in Ho.
    apply List.Forall_forall. intros f Hf Hlab. rewrite forallb_forall in Ho. apply Ho in Hf.
    rewrite Hlab in Hf. by apply Nat.ltb_lt.
Defined.
