(* ===== verification/SqlResults.v ===== *)
(** * Results of SQL queries

    What the patterns of partial filters match, the check of a requested revision, and the
    pages of a list with their continue tokens. *)
From S2P Require Import Prelude GoLib SqlQuery.
From S2P Require ListProcessor.

(** ** The LIKE operator

    SQLite documents LIKE with an escape character: [%] matches any sequence, [_] any
    character, an escaped [%], [_] or escape character itself, and any other character
    itself or its equivalent in the other case, for ASCII letters. *)
Definition lower_char (c : ascii) : ascii :=
  if bool_decide (65 ≤ N_of_ascii c ≤ 90)%N then ascii_of_N (N_of_ascii c + 32) else c.
Fixpoint lower (s : string) : string :=
  match s with "" => "" | String c r => String (lower_char c) (lower r) end.

Definition special (c : ascii) : bool := (Ascii.eqb c "%" || Ascii.eqb c "_" || Ascii.eqb c "\")%char.

Class LikeOperator := { like : string → string → bool }.
Class LikeLaws `{LikeOperator} := {
  like_empty : ∀ t, like "" t = String.eqb t "";
  like_percent : ∀ p t, like (String "%" p) t = true ↔ ∃ u v, t = u +:+ v ∧ like p v = true;
  like_escaped : ∀ c p t, special c = true →
    like (String "\" (String c p)) t = match t with String a r => Ascii.eqb a c && like p r | "" => false end;
  like_other : ∀ c p t, special c = false →
    like (String c p) t =
    match t with String a r => Ascii.eqb (lower_char a) (lower_char c) && like p r | "" => false end
}.

(** ** Escaping *)
Lemma replace_char_app c rep s t :
  replace_char c rep (s +:+ t) = replace_char c rep s +:+ replace_char c rep t.
Proof. induction s as [|a s IH]; [done|]. cbn. by rewrite IH, str_app_assoc. Qed.

(** The escaped form of one character. *)
Definition escape (c : ascii) : string :=
  if special c then String "\" (String c "") else String c "".

Definition escaped (m : string) : string := formatMatchTargetWithFormatter m false.

Lemma escaped_cons c m : escaped (String c m) = escape c +:+ escaped m.
Proof.
  unfold escaped, formatMatchTargetWithFormatter. cbn zeta. cbn match.
  change (String c m) with (String c "" +:+ m). rewrite !replace_char_app. f_equal.
  unfold escape, special. cbn [replace_char].
  destruct (Ascii.eqb c "\") eqn:E1; [apply ascii_eqb_true in E1 as ->; reflexivity|].
  rewrite str_app_nil_r. cbn [replace_char].
  destruct (Ascii.eqb c "_") eqn:E2; [apply ascii_eqb_true in E2 as ->; reflexivity|].
  rewrite str_app_nil_r. cbn [replace_char].
  destruct (Ascii.eqb c "%") eqn:E3; [apply ascii_eqb_true in E3 as ->; reflexivity|].
  reflexivity.
Qed.

(** Only a special character is equivalent to a special character. *)
Lemma lower_char_special a c : special c = true →
  Ascii.eqb a c = Ascii.eqb (lower_char a) (lower_char c).
Proof.
  unfold special. rewrite !orb_true_iff, !ascii_eqb_true. intros Hc.
  destruct Hc as [[-> | ->]| ->]; by destruct a as [[] [] [] [] [] [] [] []]; vm_compute.
Qed.

Section like_lemmas.
Context `{LikeLaws}.

(** The escaped text of a value matches the value, whatever the case of its letters. *)
Lemma like_escaped_text m p t :
  like (escaped m +:+ p) t = true ↔ ∃ u v, t = u +:+ v ∧ lower u = lower m ∧ like p v = true.
Proof.
  revert t. induction m as [|c m IH]; intros t.
  - change (escaped "" +:+ p) with p. split; [by exists "", t|].
    intros ([|a u] & v & -> & Hu & Hv); [done|by cbn in Hu].
  - rewrite escaped_cons, str_app_assoc.
    assert (Hc : like (escape c +:+ escaped m +:+ p) t =
      match t with String a r => Ascii.eqb (lower_char a) (lower_char c) && like (escaped m +:+ p) r | "" => false end).
    { unfold escape. destruct (special c) eqn:Hs; cbn [String.append].
      - rewrite like_escaped by done. destruct t; [done|]. by rewrite lower_char_special.
      - by rewrite like_other. }
    rewrite Hc. destruct t as [|a r].
    { split; [done|]. intros ([|b u] & v & Ht & Hu & _); by cbn in *. }
    rewrite andb_true_iff, ascii_eqb_true, IH. split.
    + intros [Ha (u & v & -> & Hu & Hv)]. exists (String a u), v. cbn. by rewrite Ha, Hu.
    + intros ([|b u] & v & Ht & Hu & Hv); cbn in *; [done|]. simplify_eq.
      split; [done|]. by exists u, v.
Qed.

Lemma lower_app s t : lower (s +:+ t) = lower s +:+ lower t.
Proof. induction s; cbn; [done|]. by rewrite IHs. Qed.

Lemma lower_split s u v : lower s = u +:+ v → ∃ s1 s2, s = s1 +:+ s2 ∧ lower s1 = u ∧ lower s2 = v.
Proof.
  revert s. induction u as [|a u IH]; intros s Hs.
  - by exists "", s.
  - destruct s as [|b s]; cbn in Hs; [done|]. simplify_eq.
    destruct (IH s) as (s1 & s2 & -> & <- & <-); [done|]. by exists (String b s1), s2.
Qed.
End like_lemmas.

Lemma partial_like `{LikeLaws} m t :
  like (formatMatchTargetWithFormatter m true) t = contains (lower m) (lower t).
Proof.
  change (formatMatchTargetWithFormatter m true) with (String "%" (escaped m +:+ "%")).
  apply eq_true_iff_eq. rewrite like_percent, contains_spec. split.
  - intros (u & v & -> & (w & x & -> & Hw & _)%like_escaped_text).
    exists (lower u), (lower x). by rewrite !lower_app, Hw.
  - intros (p & q & Ht). apply lower_split in Ht as (u & v & -> & _ & Hv).
    apply lower_split in Hv as (w & x & -> & Hw & _). exists u, (w +:+ x). split; [done|].
    apply like_escaped_text. exists w, x. split_and!; [done..|].
    apply (like_percent "" x). exists x, "". by rewrite like_empty, str_app_nil_r.
Qed.

Lemma escaped_id m : escaped m = m ↔ all_chars (λ c, negb (special c)) m = true.
Proof.
  induction m as [|c m IH]; [done|]. rewrite escaped_cons. cbn [all_chars]. unfold escape.
  assert (Hlen : ∀ m, String.length m ≤ String.length (escaped m)).
  { clear. induction m as [|c m IH]; [done|]. rewrite escaped_cons, str_length_app. unfold escape.
    destruct (special c); cbn [String.length]; lia. }
  destruct (special c); cbn [negb andb String.append].
  - split; [|done]. intros Heq. apply (f_equal String.length) in Heq. cbn [String.length] in Heq.
    specialize (Hlen m). lia.
  - rewrite <- IH. split; [by intros [= Heq]|by intros ->].
Qed.

(** ** The requested revision and the pages *)
Section pages.
Context `{MapRange} `{FloatParser} `{!Database}.
Variables (l : ListOptionIndexer) (partitions : list partition.Partition) (namespace : string).

(** The options with another page. *)
Definition with_page (lo : sqltypes.ListOptions) (p : sqltypes.Pagination) : sqltypes.ListOptions :=
  sqltypes.mkListOptions (sqltypes.lo_Filters lo) (sqltypes.ProjectsOrNamespaces lo)
    (sqltypes.lo_SortList lo) p (sqltypes.Revision lo).

(** The query without limit and offset, its parameters, and its ORDER BY part. *)
Definition base_query (lo : sqltypes.ListOptions) (dbName : string)
    : outcome sql_error (string * list param * string) :=
  labels ← getUnboundSortLabels lo;
  _ ← check_revision l lo;
  r ← select_part lo labels dbName;
  let '(query, withParams, jt) := r in
  wf ← where_filters l lo dbName jt;
  wp ← where_projects l lo dbName jt;
  let wn := where_namespace namespace in
  let wa := where_partitions partitions in
  order ← order_part l lo jt;
  Ok (query +:+ where_part (wf.1 ++ wp.1 ++ wn.1 ++ wa.1),
      withParams ++ wf.2 ++ wp.2 ++ wn.2 ++ wa.2, order).

Lemma constructQuery_base lo dbName p :
  constructQuery l (with_page lo p) partitions namespace dbName =
  r ← base_query lo dbName; Ok (paginate r.1.1 r.1.2 r.2 p).
Proof.
  unfold constructQuery, base_query.
  change (getUnboundSortLabels (with_page lo p)) with (getUnboundSortLabels lo).
  change (check_revision l (with_page lo p)) with (check_revision l lo).
  destruct (getUnboundSortLabels lo) as [labels| |]; cbn [mbind outcome_bind]; [|done..].
  destruct (check_revision l lo); cbn [mbind outcome_bind]; [|done..].
  change (select_part (with_page lo p) labels dbName) with (select_part lo labels dbName).
  destruct (select_part lo labels dbName) as [[[q vs] jt]| |]; cbn [mbind outcome_bind]; [|done..].
  change (where_filters l (with_page lo p) dbName jt) with (where_filters l lo dbName jt).
  destruct (where_filters l lo dbName jt); cbn [mbind outcome_bind]; [|done..].
  change (where_projects l (with_page lo p) dbName jt) with (where_projects l lo dbName jt).
  destruct (where_projects l lo dbName jt); cbn [mbind outcome_bind]; [|done..].
  change (order_part l (with_page lo p) jt) with (order_part l lo jt).
  by destruct (order_part l lo jt).
Qed.

(** What SQL promises of a query with result [rows]: LIMIT and OFFSET take a segment,
    COUNT the number, and statements are closed without an error. *)
Record paged_rows (query : string) (vs : list param) (order : string) (rows : list Item) : Prop := {
  rows_limit : ∀ n : Z, (0 < n)%Z →
    QueryRows (query +:+ order +:+ limit_clause) (vs ++ [PInt n]) = Ok (take (Z.to_nat n) rows);
  rows_offset : ∀ n m : Z, (0 < n)%Z → (0 < m)%Z →
    QueryRows (query +:+ order +:+ limit_clause +:+ offset_clause) (vs ++ [PInt n; PInt m]) =
    Ok (take (Z.to_nat n) (drop (Z.to_nat m) rows));
  rows_count : QueryCount ("SELECT COUNT(*) FROM (" +:+ query +:+ ")") vs = Ok (Z.of_nat (length rows));
  rows_close : ∀ q, CloseStmt q = None
}.

(** The token of page [k] (from 0): the number of rows up to its end, unless it is the
    last one. *)
Definition page_token (rows : list Item) (n k : nat) : string :=
  if bool_decide (n * k + n < length rows) then itoa (Z.of_nat (n * k + n)) else "".

Lemma paginate_page q vs order rows (n k : nat) :
  paged_rows q vs order rows → 0 < n → n * k < length rows → (Z.of_nat (length rows + n) ≤ max_int64)%Z →
  executeQuery l (paginate q vs order (sqltypes.mkPagination (Z.of_nat n) (Z.of_nat k + 1))) =
  Ok (mkListResult (ListProcessor.nth_page n k rows) (Z.of_nat (length rows)) (page_token rows n k) (latestRV l)).
Proof.
  intros Hr Hn Hk Hmax. unfold max_int64 in Hmax.
  assert (Hoff : page_offset (sqltypes.mkPagination (Z.of_nat n) (Z.of_nat k + 1)) = Z.of_nat (n * k)).
  { unfold page_offset. cbn [sqltypes.PageSize sqltypes.Page]. rewrite bool_decide_eq_true_2 by lia.
    rewrite Z.add_simpl_r, <- Nat2Z.inj_mul. apply wrap64_small. unfold in_int64, min_int64, max_int64. lia. }
  unfold executeQuery, paginate. rewrite Hoff. cbn [sqltypes.PageSize].
  rewrite (bool_decide_eq_true_2 (0 < Z.of_nat n)%Z) by lia. cbn [orb query params countQuery countParams limit offset].
  assert (Hrows : QueryRows (q +:+ order +:+ limit_clause +:+
      (if bool_decide (0 < Z.of_nat (n * k))%Z then offset_clause else ""))
      (vs ++ [PInt (Z.of_nat n)] ++ (if bool_decide (0 < Z.of_nat (n * k))%Z then [PInt (Z.of_nat (n * k))] else [])) =
    Ok (ListProcessor.nth_page n k rows)).
  { unfold ListProcessor.nth_page. case_bool_decide.
    - cbn [app]. rewrite (rows_offset _ _ _ _ Hr) by lia. by rewrite !Nat2Z.id.
    - rewrite str_app_nil_r. cbn [app]. rewrite (rows_limit _ _ _ _ Hr) by lia.
      replace (n * k) with 0 by lia. by rewrite Nat2Z.id, drop_0. }
  rewrite Hrows. cbn [mbind outcome_bind].
  replace (String.eqb ("SELECT COUNT(*) FROM (" +:+ q +:+ ")") "") with false by done.
  rewrite (rows_count _ _ _ _ Hr). cbn [mbind outcome_bind]. rewrite (rows_close _ _ _ _ Hr).
  do 2 f_equal. unfold page_token. rewrite (bool_decide_eq_true_2 (0 < Z.of_nat n)%Z) by lia. cbn [andb].
  unfold ListProcessor.nth_page. rewrite length_take, length_drop.
  rewrite !wrap64_small by (unfold in_int64, min_int64, max_int64; lia).
  rewrite <- !Nat2Z.inj_add.
  destruct (decide (n * k + n < length rows)) as [Hlast|Hlast].
  - rewrite !bool_decide_eq_true_2 by lia. done.
  - rewrite !bool_decide_eq_false_2 by lia. done.
Qed.
End pages.

(** * Theorems *)

(** The pattern of a partial filter matches exactly the values that contain the text of
    the filter, whatever the case of ASCII letters: percent signs, underscores and
    backslashes of the text stand for themselves. *)
Theorem partial_filter_contains `{FloatParser} `{LikeLaws} l f prefix e m rest :
  sqltypes.op f = sqltypes.Eq → sqltypes.Partial f = true → sqltypes.Matches f = m :: rest →
  getValidFieldEntry l prefix (sqltypes.Field f) = Ok e →
  ∃ pattern, getFieldFilter l f prefix = Ok (e +:+ " LIKE ?" +:+ escapeBackslashDirective, [PString pattern]) ∧
    ∀ t, like pattern t = contains (lower m) (lower t).
Proof.
  intros Ho Hp Hm He. exists (formatMatchTargetWithFormatter m true).
  split; [|intros; apply partial_like].
  unfold getFieldFilter, formatMatchTarget. rewrite He. cbn [mbind outcome_bind].
  by rewrite Ho, Hp, Hm.
Qed.

(** The value of an exact filter is escaped too, although no pattern is matched: it is
    compared unchanged only if it has no percent sign, underscore or backslash. *)
Theorem exact_filter_escapes `{FloatParser} l f prefix e m rest :
  sqltypes.op f = sqltypes.Eq → sqltypes.Partial f = false → sqltypes.Matches f = m :: rest →
  getValidFieldEntry l prefix (sqltypes.Field f) = Ok e →
  ∃ value, getFieldFilter l f prefix = Ok (e +:+ " = ?", [PString value]) ∧
    (value = m ↔ all_chars (λ c, negb (special c)) m = true).
Proof.
  intros Ho Hp Hm He. exists (escaped m). split; [|apply escaped_id].
  unfold getFieldFilter, formatMatchTarget. rewrite He. cbn [mbind outcome_bind].
  rewrite Ho, Hp, Hm. done.
Qed.

(** C27: The pages of a list, followed by their continue tokens until the token is empty,
    are the rows of the query: page k has the next rows, all pages report the total, and
    only the last one has no token. *)
Theorem list_pages `{MapRange} `{FloatParser} `{!Database} l partitions namespace name lo
    q vs order rows (n : nat) :
  0 < n → (Z.of_nat (length rows + n) ≤ max_int64)%Z →
  base_query l partitions namespace lo (Sanitize name) = Ok (q, vs, order) →
  paged_rows q vs order rows →
  let pages := (length rows + n - 1) / n in
  (∀ k, k < pages →
     ListByOptions l name (with_page lo (sqltypes.mkPagination (Z.of_nat n) (Z.of_nat k + 1)))
       partitions namespace =
     Ok (mkListResult (ListProcessor.nth_page n k rows) (Z.of_nat (length rows))
           (page_token rows n k) (latestRV l))) ∧
  List.concat ((λ k, ListProcessor.nth_page n k rows) <$> seq 0 pages) = rows ∧
  (∀ k, k < pages → page_token rows n k = "" ↔ S k = pages).
Proof.
  intros Hn Hmax Hbase Hrows pages.
  assert (Hpage : ∀ k, k < pages ↔ n * k < length rows).
  { intros k. unfold pages. pose proof (Nat.div_mod_eq (length rows + n - 1) n).
    pose proof (Nat.mod_upper_bound (length rows + n - 1) n). split; nia. }
  split_and!.
  - intros k Hk%Hpage. unfold ListByOptions. rewrite constructQuery_base, Hbase.
    cbn [mbind outcome_bind fst snd]. by apply paginate_page.
  - rewrite ListProcessor.concat_pages by done. apply take_ge.
    specialize (Hpage pages). lia.
  - intros k Hk. pose proof (Hpage (S k)) as HS. unfold page_token.
    case_bool_decide as Hb.
    + split; [|lia]. by intros ?%itoa_nonempty.
    + split; [lia|done].
Qed.

(** A list at a requested revision is refused when the indexer has not reached it, and
    when either revision is not a number; no query is run. *)
Theorem requested_revision `{MapRange} `{FloatParser} `{!Database} l partitions namespace name lo labels :
  getUnboundSortLabels lo = Ok labels → sqltypes.Revision lo ≠ "" →
  (∀ current requested, parse_int (latestRV l) = Some current →
     parse_int (sqltypes.Revision lo) = Some requested → (current < requested)%Z →
     ListByOptions l name lo partitions namespace = Err ErrUnknownRevision) ∧
  (parse_int (latestRV l) = None →
     ListByOptions l name lo partitions namespace = Err (ErrNumber (latestRV l))) ∧
  (is_Some (parse_int (latestRV l)) → parse_int (sqltypes.Revision lo) = None →
     ListByOptions l name lo partitions namespace = Err (ErrNumber (sqltypes.Revision lo))).
Proof.
  intros Hl Hrev. unfold ListByOptions, constructQuery. rewrite Hl. cbn [mbind outcome_bind].
  unfold check_revision. rewrite (proj2 (String.eqb_neq _ _)) by done. split_and!.
  - intros c r -> -> Hlt. by rewrite bool_decide_eq_true_2.
  - by intros ->.
  - by intros [c ->] ->.
Qed.

(** ** Concrete instances *)
Import GoLib.Concrete SqlExample.

(** The operator, by recursion on the pattern. *)
Fixpoint like_fun (p t : string) : bool :=
  let fix suffixes (k : string → bool) (t : string) : bool :=
    k t || match t with "" => false | String _ r => suffixes k r end in
  match p with
  | "" => String.eqb t ""
  | String c p' =>
      if Ascii.eqb c "%" then suffixes (like_fun p') t
      else if Ascii.eqb c "\" then
        match p' with
        | "" => false
        | String d p'' => match t with String a r => Ascii.eqb a d && like_fun p'' r | "" => false end
        end
      else match t with
           | String a r => (Ascii.eqb c "_" || Ascii.eqb (lower_char a) (lower_char c)) && like_fun p' r
           | "" => false
           end
  end.
#[export] Instance like_instance : LikeOperator := {| like := like_fun |}.
#[export] Instance like_instance_laws : LikeLaws.
Proof.
  split; cbn [like like_instance].
  - done.
  - intros p t. cbn [like_fun]. rewrite ascii_eqb_refl. induction t as [|a t IH].
    + rewrite orb_false_r. split; [by exists "", ""|]. by intros ([|] & [|] & Ht & Hv).
    + rewrite orb_true_iff, IH. split.
      * intros [Hp|(u & v & -> & Hv)]; [by exists "", (String a t)|by exists (String a u), v].
      * intros ([|b u] & v & Ht & Hv); cbn in Ht; [left; by subst|]. simplify_eq. right. by exists u, v.
  - intros c p t Hc. reflexivity.
  - intros c p t Hc. unfold special in Hc. apply orb_false_iff in Hc as [[H1 H2]%orb_false_iff H3].
    cbn [like_fun]. rewrite H1, H2, H3. done.
Qed.

Definition like_filter : sqltypes.Filter :=
  sqltypes.mkFilter ["metadata"; "queryField1"] ["50%_"] sqltypes.Eq true.

Lemma partial_filter_contains_witness :
  ∃ pattern, getFieldFilter indexer like_filter "f" =
      Ok ("f." +:+ quoted "metadata.queryField1" +:+ " LIKE ?" +:+ escapeBackslashDirective, [PString pattern]) ∧
    ∀ t, like pattern t = contains (lower "50%_") (lower t).
Proof.
  apply (partial_filter_contains indexer like_filter "f"
    ("f." +:+ quoted "metadata.queryField1") "50%_" []); reflexivity.
Defined.

Lemma exact_filter_escapes_witness :
  ∃ value, getFieldFilter indexer (sqltypes.mkFilter ["metadata"; "queryField1"] ["my_app"] sqltypes.Eq false) "f" =
      Ok ("f." +:+ quoted "metadata.queryField1" +:+ " = ?", [PString value]) ∧
    (value = "my_app" ↔ all_chars (λ c, negb (special c)) "my_app" = true).
Proof.
  apply (exact_filter_escapes indexer
    (sqltypes.mkFilter ["metadata"; "queryField1"] ["my_app"] sqltypes.Eq false) "f"
    ("f." +:+ quoted "metadata.queryField1") "my_app" []); reflexivity.
Defined.

(** A table of three rows. *)
Definition table : list string := ["a"; "b"; "c"].
#[export] Instance table_database : Database := {|
  Item := string;
  QueryRows := λ _ vs, match vs with
    | [PInt n] => Ok (take (Z.to_nat n) table)
    | [PInt n; PInt m] => Ok (take (Z.to_nat n) (drop (Z.to_nat m) table))
    | _ => Ok table
    end;
  QueryCount := λ _ _, Ok 3%Z;
  CloseStmt := λ _, None
|}.

Definition table_rows : list Item := table.

Definition everything : partition.Partition := partition.mkPartition false "" true ∅.
Definition table_base : string * list param * string :=
  match base_query indexer [everything] "" (options [] []) "table" with Ok b => b | _ => ("", [], "") end.

Lemma list_pages_witness :
  ListByOptions indexer "table" (with_page (options [] []) (sqltypes.mkPagination 2 1)) [everything] "" =
    Ok (mkListResult ["a"; "b"] 3 "2" "17") ∧
  List.concat ((λ k, ListProcessor.nth_page 2 k table) <$> seq 0 2) = table.
Proof.
  destruct (list_pages indexer [everything] "" "table" (options [] [])
    table_base.1.1 table_base.1.2 table_base.2 table_rows 2) as (Hpages & Hall & _).
  - lia.
  - cbn. unfold max_int64. lia.
  - assert (Hok : is_ok (base_query indexer [everything] "" (options [] []) "table") = true)
      by (vm_compute; reflexivity).
    unfold table_base. change (Sanitize "table") with "table".
    by destruct (base_query indexer [everything] "" (options [] []) "table") as [[[? ?] ?]| |].
  - by split.
  - split; [|exact Hall]. apply (Hpages 0). cbn. lia.
Defined.

Lemma requested_revision_witness :
  ListByOptions indexer "table"
    (sqltypes.mkListOptions [] (sqltypes.mkOrFilter []) (sqltypes.mkSortList [])
       (sqltypes.mkPagination 0 1) "18") [everything] "" = Err ErrUnknownRevision.
Proof.
  eapply (requested_revision indexer [everything] "" "table"
    (sqltypes.mkListOptions [] (sqltypes.mkOrFilter []) (sqltypes.mkSortList [])
       (sqltypes.mkPagination 0 1) "18")).
  - reflexivity.
  - done.
  - vm_compute. reflexivity.
  - vm_compute. reflexivity.
  - lia.
Defined.
