(* ===== verification/WatchBackfill.v ===== *)
(** * The proxy channel of a watch

    [watcherWithBackfill] of pkg/sqlcache/informer/listoption_indexer.go: a goroutine that
    buffers the events of a watcher while older events are replayed and then passes them
    on. Its runs are the interleavings of its own steps with those of the sender of the
    events, of the consumer, and of the calls that end the backfill, cancel the context or
    close the watcher. *)
From S2P Require Import Prelude.

Section backfill.
Context {T : Type} (maxBufferSize : nat).

(** Where the goroutine is: in the loop that accumulates events, waiting for the end of
    the backfill, in the loop that flushes the queue, in the final loop (holding an event
    it has to send, if any), or returned. *)
Inductive phase := Accumulate | WaitDone | Flush | Pipe (event : option T) | Returned.

Record proxy := mkProxy {
  at_phase : phase;
  queue : list T;
  backfill_done : bool;   (* [signalBackfillDone] was called *)
  ctx_done : bool;        (* the context of the watch is cancelled *)
  closed : bool;          (* [watcherCh] is closed *)
  received : list T;      (* the events received from [watcherCh] so far *)
  delivered : list T      (* the events the goroutine has sent to [eventsCh] *)
}.

Definition init : proxy := mkProxy Accumulate [] false false false [] [].

(** [backfillCtx] is derived from the context of the watch. *)
Definition backfillCtx_done (s : proxy) : bool := backfill_done s || ctx_done s.

Definition goto (p : phase) (s : proxy) : proxy :=
  mkProxy p (queue s) (backfill_done s) (ctx_done s) (closed s) (received s) (delivered s).
(** An event comes from [watcherCh] and goes to the end of the queue, or is held. *)
Definition enqueue (e : T) (s : proxy) : proxy :=
  mkProxy (at_phase s) (queue s ++ [e]) (backfill_done s) (ctx_done s) (closed s)
    (received s ++ [e]) (delivered s).
Definition hold (e : T) (s : proxy) : proxy :=
  mkProxy (Pipe (Some e)) (queue s) (backfill_done s) (ctx_done s) (closed s)
    (received s ++ [e]) (delivered s).
(** The consumer takes an event. *)
Definition send (e : T) (p : phase) (rest : list T) (s : proxy) : proxy :=
  mkProxy p rest (backfill_done s) (ctx_done s) (closed s) (received s) (delivered s ++ [e]).

(** The calls from outside. *)
Inductive outside : proxy → proxy → Prop :=
  | signal_done s : outside s
      (mkProxy (at_phase s) (queue s) true (ctx_done s) (closed s) (received s) (delivered s))
  | cancel_ctx s : outside s
      (mkProxy (at_phase s) (queue s) (backfill_done s) true (closed s) (received s) (delivered s))
  | close_watcher s : outside s
      (mkProxy (at_phase s) (queue s) (backfill_done s) (ctx_done s) true (received s) (delivered s)).

(** The steps of the goroutine that take an event from the sender. *)
Inductive receive : proxy → proxy → Prop :=
  | accumulate_event s e :
      at_phase s = Accumulate → length (queue s) < maxBufferSize → closed s = false →
      receive s (enqueue e s)
  | flush_event s e h t :
      at_phase s = Flush → queue s = h :: t → length (queue s) < maxBufferSize → closed s = false →
      receive s (enqueue e s)
  | pipe_event s e :
      at_phase s = Pipe None → closed s = false → receive s (hold e s).

(** The steps that pass events on. *)
Inductive progress : proxy → proxy → Prop :=
  (* case <-backfillCtx.Done(): break *)
  | accumulate_done s :
      at_phase s = Accumulate → length (queue s) < maxBufferSize → backfillCtx_done s = true →
      progress s (goto WaitDone s)
  (* the condition of the loop *)
  | accumulate_full s :
      at_phase s = Accumulate → maxBufferSize ≤ length (queue s) → progress s (goto WaitDone s)
  (* <-backfillCtx.Done() *)
  | wait_done s :
      at_phase s = WaitDone → backfillCtx_done s = true → ctx_done s = false →
      progress s (goto Flush s)
  | flush_send s h t :
      at_phase s = Flush → queue s = h :: t → progress s (send h Flush t s)
  | flush_end s :
      at_phase s = Flush → queue s = [] → progress s (goto (Pipe None) s)
  | pipe_send s e :
      at_phase s = Pipe (Some e) → progress s (send e (Pipe None) (queue s) s).

(** The steps that return: the context is done or [watcherCh] is closed. *)
Inductive return_ : proxy → proxy → Prop :=
  | accumulate_closed s :
      at_phase s = Accumulate → length (queue s) < maxBufferSize → closed s = true →
      return_ s (goto Returned s)
  | wait_cancelled s :
      at_phase s = WaitDone → ctx_done s = true → return_ s (goto Returned s)
  | flush_cancelled s h t :
      at_phase s = Flush → queue s = h :: t → ctx_done s = true → return_ s (goto Returned s)
  | flush_closed s h t :
      at_phase s = Flush → queue s = h :: t → length (queue s) < maxBufferSize → closed s = true →
      return_ s (goto Returned s)
  | pipe_closed s :
      at_phase s = Pipe None → closed s = true → return_ s (goto Returned s)
  | pipe_cancelled s e :
      at_phase s = Pipe e → ctx_done s = true → return_ s (goto Returned s).

Inductive step (s s' : proxy) : Prop :=
  | step_outside : outside s s' → step s s'
  | step_receive : receive s s' → step s s'
  | step_progress : progress s s' → step s s'
  | step_return : return_ s s' → step s s'.

Definition reachable : proxy → Prop := rtc step init.

(** ** Invariants *)

(** The event the final loop holds. *)
Definition held (s : proxy) : list T :=
  match at_phase s with Pipe (Some e) => [e] | _ => [] end.

Definition proxy_wf (s : proxy) : Prop :=
  length (queue s) ≤ maxBufferSize ∧
  match at_phase s with
  | Returned => (∃ lost, received s = delivered s ++ lost) ∧ (ctx_done s || closed s) = true ∧
      (delivered s ≠ [] → backfill_done s = true)
  | Pipe _ => queue s = [] ∧ received s = delivered s ++ held s ∧ backfill_done s = true
  | Flush => received s = delivered s ++ queue s ∧ backfill_done s = true
  | Accumulate | WaitDone => received s = queue s ∧ delivered s = []
  end.

Lemma progress_wf s s' : progress s s' → proxy_wf s → proxy_wf s'.
Proof.
  destruct 1; unfold proxy_wf, held, backfillCtx_done, goto, send in *; cbn;
    intros [Hlen Hwf]; rewrite H in Hwf.
  - done.
  - done.
  - destruct Hwf as [-> ->]. rewrite H1, orb_false_r in H0. by split_and!.
  - destruct Hwf as [-> ?]. rewrite H0 in *. cbn in *. rewrite <- app_assoc. split_and!; [lia|done..].
  - destruct Hwf as [-> ?]. rewrite H0 in *. by split_and!.
  - destruct Hwf as (? & -> & ?). rewrite app_nil_r. by split_and!.
Qed.

Lemma receive_wf s s' : receive s s' → proxy_wf s → proxy_wf s'.
Proof.
  destruct 1; unfold proxy_wf, held, backfillCtx_done, enqueue, hold in *; cbn;
    intros [Hlen Hwf]; rewrite H in *; rewrite ?length_app; cbn.
  - destruct Hwf as [-> ->]. split_and!; [lia|done..].
  - destruct Hwf as [-> ?]. rewrite app_assoc. split_and!; [lia|done..].
  - destruct Hwf as (? & -> & ?). rewrite app_nil_r. by split_and!.
Qed.

Lemma outside_wf s s' : outside s s' → proxy_wf s → proxy_wf s'.
Proof.
  destruct 1; unfold proxy_wf, held, backfillCtx_done; cbn; intros [Hlen Hwf]; (split; [done|]);
    destruct (at_phase s); rewrite ?orb_true_r, ?orb_true_l; naive_solver.
Qed.

Lemma return_wf s s' : return_ s s' → proxy_wf s → proxy_wf s'.
Proof.
  destruct 1; unfold proxy_wf, held, goto; cbn; intros [Hlen Hwf]; rewrite H in Hwf; (split; [done|]);
    repeat match goal with E : ctx_done _ = true |- _ => rewrite E | E : closed _ = true |- _ => rewrite E end;
    rewrite ?orb_true_r.
  - destruct Hwf as [-> ->]. split_and!; [by eexists|done..].
  - destruct Hwf as [-> ->]. split_and!; [by eexists|done..].
  - destruct Hwf as [-> ?]. split_and!; [by eexists|done..].
  - destruct Hwf as [-> ?]. split_and!; [by eexists|done..].
  - destruct Hwf as (_ & -> & ?). split_and!; [by eexists|done..].
  - destruct Hwf as (_ & -> & ?). split_and!; [by eexists|done..].
Qed.

Lemma reachable_wf s : reachable s → proxy_wf s.
Proof.
  unfold reachable. intros Hs. assert (Hinit : proxy_wf init) by (split; cbn; [lia|done]).
  induction Hs as [s|s1 s2 s3 Hstep _ IH]; [done|]. apply IH.
  destruct Hstep; eauto using outside_wf, receive_wf, progress_wf, return_wf.
Qed.

(** ** Delivery *)

(** The number of steps [progress] needs before the goroutine waits for a new event. *)
Definition remaining (s : proxy) : nat :=
  match at_phase s with
  | Accumulate => length (queue s) + 3
  | WaitDone => length (queue s) + 2
  | Flush => length (queue s) + 1
  | Pipe (Some _) => 1
  | Pipe None | Returned => 0
  end.

Lemma progress_decreases s s' : progress s s' → remaining s' < remaining s.
Proof.
  destruct 1; unfold remaining, goto, send; cbn; rewrite H; cbn; try lia.
  - rewrite H0. cbn. lia.
Qed.

(** The steps [progress] change neither the flags nor the events received. *)
Lemma progress_frame s s' : progress s s' →
  backfill_done s' = backfill_done s ∧ ctx_done s' = ctx_done s ∧ closed s' = closed s ∧
  received s' = received s.
Proof. by destruct 1. Qed.

Lemma progress_possible s :
  0 < remaining s → backfill_done s = true → ctx_done s = false → ∃ s', progress s s'.
Proof.
  unfold remaining. intros Hr Hb Hc.
  assert (Hd : backfillCtx_done s = true) by (unfold backfillCtx_done; by rewrite Hb).
  destruct (at_phase s) as [| | |[e|]|] eqn:Hp; try lia.
  - destruct (decide (length (queue s) < maxBufferSize)).
    + eexists. by apply accumulate_done.
    + eexists. apply accumulate_full; [done|lia].
  - eexists. by apply wait_done.
  - destruct (queue s) as [|h t] eqn:Hq; eexists; [by apply flush_end|by eapply flush_send].
  - eexists. by apply pipe_send.
Qed.

Lemma progress_delivers n s : remaining s ≤ n → proxy_wf s →
  backfill_done s = true → ctx_done s = false → closed s = false →
  ∃ s', rtc progress s s' ∧ delivered s' = received s.
Proof.
  revert s. induction n as [|n IH]; intros s Hn Hwf Hb Hc Hcl.
  - exists s. split; [constructor|]. unfold remaining, proxy_wf, held in *.
    destruct (at_phase s) as [| | |[e|]|]; try lia.
    + destruct Hwf as (_ & _ & -> & _). by rewrite app_nil_r.
    + destruct Hwf as (_ & _ & Hr & _). by rewrite Hc, Hcl in Hr.
  - destruct (decide (remaining s = 0)) as [H0|H0]; [by apply IH; [lia|..]|].
    destruct (progress_possible s) as [s1 H1]; [lia|done..|].
    pose proof (progress_frame _ _ H1) as (? & ? & ? & Hr). pose proof (progress_decreases _ _ H1).
    destruct (IH s1) as (s2 & Hs2 & Hd); [lia|by eapply progress_wf|congruence..|].
    exists s2. split; [by eapply rtc_l|congruence].
Qed.
End backfill.

#[global] Arguments mkProxy {T}.
#[global] Arguments init {T}.

(** * Theorems *)

(** C32: In every run the consumer gets the events in the order in which they were sent,
    each once, and none before the end of the backfill was signalled, whether or not the watch has been cancelled or
    closed; the events still to deliver are
    those of the queue, which never exceeds its bound, and the goroutine gives events up
    only when the watch is cancelled or closed. *)
Theorem backfill_fifo {T} (maxBufferSize : nat) (s : proxy (T := T)) :
  reachable maxBufferSize s →
  length (queue s) ≤ maxBufferSize ∧
  (∃ rest, received s = delivered s ++ rest ∧
     (at_phase s ≠ Returned → rest = held s ++ queue s)) ∧
  (delivered s ≠ [] → backfill_done s = true) ∧
  (at_phase s = Returned → ctx_done s || closed s = true).
Proof.
  intros [Hlen Hwf]%reachable_wf. split; [done|]. unfold held in *.
  destruct (at_phase s) as [| | |[e|]|] eqn:Hp.
  - destruct Hwf as [-> ->]. split_and!; [by eexists|done|done].
  - destruct Hwf as [-> ->]. split_and!; [by eexists|done|done].
  - destruct Hwf as [-> ?]. split_and!; [by eexists|done..].
  - destruct Hwf as (-> & -> & ?). split_and!; [by eexists|done..].
  - destruct Hwf as (-> & -> & ?). split_and!; [by exists []|done..].
  - destruct Hwf as ([lost ->] & ? & ?). split_and!; [by exists lost|done..].
Qed.

(** C39: When the backfill has ended and the watch is neither cancelled nor closed, every
    event received so far is delivered, by steps that only need the consumer, in a number
    that the length of the queue bounds. *)
Theorem backfill_delivers {T} (maxBufferSize : nat) (s : proxy (T := T)) :
  reachable maxBufferSize s → backfill_done s = true → ctx_done s = false → closed s = false →
  (∃ s', rtc (progress maxBufferSize) s s' ∧ delivered s' = received s) ∧
  (∀ n s', nsteps (progress maxBufferSize) n s s' → n ≤ length (queue s) + 3).
Proof.
  intros Hs Hb Hc Hcl. split.
  - by eapply progress_delivers; [reflexivity|apply reachable_wf|..].
  - assert (Hrem : remaining s ≤ length (queue s) + 3)
      by (unfold remaining; destruct (at_phase s) as [| | |[]|]; lia).
    intros n s' Hn. enough (n ≤ remaining s) by lia. clear -Hn.
    induction Hn as [s|n s1 s2 s3 H1 _ IH]; [lia|]. apply progress_decreases in H1. lia.
Qed.

(** * A run: an event arrives during the backfill *)
Module BackfillExample.
Definition during_backfill : proxy := enqueue 7 init.
Definition after_backfill : proxy :=
  mkProxy Accumulate [7] true false false [7] [].

Lemma run_after_backfill : reachable 100 after_backfill.
Proof.
  unfold reachable. eapply rtc_l; [apply step_receive, (accumulate_event _ init 7); [done|cbn; lia|done]|].
  eapply rtc_l; [apply step_outside, signal_done|]. constructor.
Defined.

Lemma backfill_fifo_witness :
  reachable 100 during_backfill ∧ length (queue during_backfill) ≤ 100.
Proof.
  assert (Hr : reachable 100 during_backfill).
  { eapply rtc_l; [|constructor]. apply step_receive, accumulate_event; [done|cbn; lia|done]. }
  split; [exact Hr|]. exact (proj1 (backfill_fifo 100 during_backfill Hr)).
Defined.

Lemma backfill_delivers_witness :
  ∃ s', rtc (progress 100) after_backfill s' ∧ delivered s' = [7].
Proof.
  exact (proj1 (backfill_delivers 100 after_backfill run_after_backfill eq_refl eq_refl eq_refl)).
Defined.
End BackfillExample.
