(* ===== verification/WatchEvents.v ===== *)
(** * The event log of the list option indexer

    pkg/sqlcache/informer/listoption_indexer.go: the events table and the watchers that
    [notifyEvent] feeds, the replay of older events at the start of a [Watch], and the
    garbage collection of the table. *)
From S2P Require Import Prelude.

(** The metadata [meta.Accessor] gives of an object. *)
Record Metadata := mkMetadata {
  GetName : string;
  GetNamespace : string;
  GetLabels : gmap string string;
  GetResourceVersion : string
}.

Inductive EventType := Added | Modified | Deleted.
#[export] Instance EventType_eq_dec : EqDecision EventType.
Proof. solve_decision. Defined.

Inductive watch_error :=
  | ErrTooOld
  | ErrAccessor               (* not an API object *)
  | ErrOldObject (key : string).  (* the old object is not in the store *)

(** [WatchFilter]; the selector is nil or a predicate on labels. *)
Record WatchFilter := mkWatchFilter {
  ID : string; Selector : option (gmap string string → bool); Namespace : string
}.

Section events.
Context {Obj : Type} (Accessor : Obj → option Metadata).

(** An event carries the object as it is now. The row of an event has its type and the
    resource version of the object as its key. *)
Record Event := mkEvent { ev_type : EventType; ev_rv : string; ev_obj : Obj }.

Definition matchFilter (filterName filterNamespace : string)
    (filterSelector : option (gmap string string → bool)) (obj : option Obj) : bool :=
  match obj with
  | None => false
  | Some obj =>
      match Accessor obj with
      | None => false
      | Some metadata =>
          negb (negb (String.eqb filterName "") && negb (String.eqb filterName (GetName metadata))) &&
          negb (negb (String.eqb filterNamespace "") && negb (String.eqb filterNamespace (GetNamespace metadata))) &&
          match filterSelector with None => true | Some matches => matches (GetLabels metadata) end
      end
  end.

Definition matchWatch (f : WatchFilter) (oldObj obj : option Obj) : bool :=
  let matchOld := match oldObj with
                  | None => false
                  | Some _ => matchFilter (ID f) (Namespace f) (Selector f) oldObj
                  end in
  matchOld || matchFilter (ID f) (Namespace f) (Selector f) obj.

(** ** State *)

(** The events table in the order of its row ids, the latest version, the watchers with
    what was sent to their channels, and the number of the next watcher. *)
Record indexer := mkIndexer {
  rows : list Event;
  latestRV : string;
  watchers : gmap nat (WatchFilter * list Event);
  next_key : nat
}.

Definition same_row (e e' : Event) : bool :=
  bool_decide (ev_type e = ev_type e') && String.eqb (ev_rv e) (ev_rv e').

(** INSERT ... ON CONFLICT(type, rv) DO UPDATE: a row with the same key keeps its place. *)
Definition upsertEvent (e : Event) (l : list Event) : list Event :=
  if existsb (same_row e) l then (λ e', if same_row e e' then e else e') <$> l else l ++ [e].

Definition notifyEvent (ty : EventType) (oldObj : option Obj) (obj : Obj) (st : indexer)
    : outcome watch_error indexer :=
  match Accessor obj with
  | None => Err ErrAccessor
  | Some acc =>
      let e := mkEvent ty (GetResourceVersion acc) obj in
      Ok (mkIndexer (upsertEvent e (rows st)) (GetResourceVersion acc)
        ((λ '(f, sent), (f, if matchWatch f oldObj (Some obj) then sent ++ [e] else sent))
           <$> watchers st) (next_key st))
  end.

Definition notifyEventAdded (obj : Obj) : indexer → outcome watch_error indexer :=
  notifyEvent Added None obj.

(** The events of an object that was in the store: [GetByKey] gives the old one. *)
Definition notify_old (GetByKey : string → option Obj) (ty : EventType) (key : string) (obj : Obj)
    (st : indexer) : outcome watch_error indexer :=
  match GetByKey key with
  | None => Err (ErrOldObject key)
  | Some oldObj => notifyEvent ty (Some oldObj) obj st
  end.
Definition notifyEventModified (GetByKey : string → option Obj) := notify_old GetByKey Modified.
Definition notifyEventDeleted (GetByKey : string → option Obj) := notify_old GetByKey Deleted.

(** ** Watching *)
Definition addWatcher (f : WatchFilter) (st : indexer) : nat * indexer :=
  (next_key st, mkIndexer (rows st) (latestRV st) (<[next_key st := (f, [])]> (watchers st)) (S (next_key st))).
Definition removeWatcher (key : nat) (st : indexer) : indexer :=
  mkIndexer (rows st) (latestRV st) (delete key (watchers st)) (next_key st).

(** The rows after the row of a version; [None] when there is no such row. *)
Fixpoint rows_after (rv : string) (l : list Event) : option (list Event) :=
  match l with
  | [] => None
  | e :: l => if String.eqb (ev_rv e) rv then Some l else rows_after rv l
  end.

(** The loop over the rows: it ends after the event that was the latest one when the watch
    was registered. *)
Fixpoint replay (f : WatchFilter) (latest : string) (l : list Event) : list Event :=
  match l with
  | [] => []
  | e :: l =>
      let rest := if String.eqb (ev_rv e) latest then [] else replay f latest l in
      if matchFilter (ID f) (Namespace f) (Selector f) (Some (ev_obj e)) then e :: rest else rest
  end.

(** The replay of a watch that was registered when [latest] was the latest version, with
    the rows of the table at the time of the query. *)
Definition Watch_replay (f : WatchFilter) (resourceVersion latest : string) (l : list Event)
    : outcome watch_error (list Event) :=
  let targetRV := if String.eqb resourceVersion "" then latest else resourceVersion in
  match rows_after targetRV l with
  | Some later => Ok (replay f latest later)
  | None => if String.eqb targetRV latest then Ok (replay f latest l) else Err ErrTooOld
  end.

(** DELETE of the rows before the last [keep] ones. *)
Definition collect_garbage (keep : nat) (st : indexer) : indexer :=
  if decide (keep = 0) then st else
  mkIndexer (drop (length (rows st) - keep) (rows st)) (latestRV st) (watchers st) (next_key st).

(** A change of the cluster: the kind of the event, the old object and the new one. *)
Record change := mkChange { ch_type : EventType; ch_old : option Obj; ch_obj : Obj }.
Definition notify_all (cs : list change) (st : indexer) : outcome watch_error indexer :=
  foldl_outcome (λ st c, notifyEvent (ch_type c) (ch_old c) (ch_obj c) st) st cs.

(** A watch among changes: [before] arrive after it is registered and before the table is
    read, [after] arrive later. Its consumer gets the replayed events and then those sent
    to its channel. *)
Definition Watch_run (f : WatchFilter) (resourceVersion : string) (before after : list change)
    (st : indexer) : outcome watch_error (list Event) :=
  let '(key, st1) := addWatcher f st in
  st2 ← notify_all before st1;
  replayed ← Watch_replay f resourceVersion (latestRV st) (rows st2);
  st3 ← notify_all after st2;
  Ok (replayed ++ (default (f, []) (watchers st3 !! key)).2).
End events.

Arguments mkIndexer {Obj}.
Arguments mkEvent {Obj}.
Arguments mkChange {Obj}.

(** * Lemmas *)
Section event_lemmas.
Context {Obj : Type} (Accessor : Obj → option Metadata).
Implicit Types (c : change (Obj := Obj)) (cs : list (change (Obj := Obj)))
  (e : Event (Obj := Obj)) (st : indexer (Obj := Obj)) (f : WatchFilter).

(** The event of a change. *)
Definition change_event c : option Event :=
  (λ m, mkEvent (ch_type c) (GetResourceVersion m) (ch_obj c)) <$> Accessor (ch_obj c).
Definition change_events cs : list Event := omap change_event cs.

(** The events of changes a live watcher gets, and those a replay gives. *)
Definition watched f cs : list Event :=
  change_events (List.filter (λ c, matchWatch Accessor f (ch_old c) (Some (ch_obj c))) cs).
Definition replayed f (l : list Event) : list Event :=
  List.filter (λ e, matchFilter Accessor (ID f) (Namespace f) (Selector f) (Some (ev_obj e))) l.

Definition api_objects cs : Prop := Forall (λ c, is_Some (Accessor (ch_obj c))) cs.

Lemma change_events_cons c cs m : Accessor (ch_obj c) = Some m →
  change_events (c :: cs) = mkEvent (ch_type c) (GetResourceVersion m) (ch_obj c) :: change_events cs.
Proof. intros Hm. unfold change_events, change_event. cbn [omap list_omap]. by rewrite Hm. Qed.

Lemma upsertEvent_new e (l : list Event) : ev_rv e ∉ ev_rv <$> l → upsertEvent e l = l ++ [e].
Proof.
  intros Hnew. unfold upsertEvent. replace (existsb (same_row e) l) with false; [done|].
  symmetry. apply not_true_is_false. rewrite existsb_true. intros (e' & Hin & Hsame).
  unfold same_row in Hsame. apply andb_true_iff in Hsame as [_ Heq%String.eqb_eq].
  apply Hnew. rewrite Heq. by apply list_elem_of_fmap_2.
Qed.

Lemma watched_cons f c cs : watched f (c :: cs) =
  (if matchWatch Accessor f (ch_old c) (Some (ch_obj c)) then change_events [c] else []) ++ watched f cs.
Proof.
  unfold watched. cbn [List.filter]. destruct (matchWatch _ _ _ _); [|done].
  unfold change_events. cbn [omap list_omap]. by destruct (change_event c).
Qed.

Lemma watched_app f cs cs' : watched f (cs ++ cs') = watched f cs ++ watched f cs'.
Proof.
  induction cs as [|c cs IH]; [done|]. cbn [app]. by rewrite !watched_cons, IH, app_assoc.
Qed.

Lemma notifyEvent_ok ty old obj m st : Accessor obj = Some m →
  notifyEvent Accessor ty old obj st =
  let e := mkEvent ty (GetResourceVersion m) obj in
  Ok (mkIndexer (upsertEvent e (rows st)) (GetResourceVersion m)
    ((λ '(f, sent), (f, if matchWatch Accessor f old (Some obj) then sent ++ [e] else sent))
       <$> watchers st) (next_key st)).
Proof. unfold notifyEvent. by intros ->. Qed.

(** Changes with new versions are appended to the table and sent to the watchers that
    match them. *)
Lemma notify_all_spec cs st : api_objects cs → NoDup (ev_rv <$> rows st ++ change_events cs) →
  ∃ st', notify_all Accessor cs st = Ok st' ∧ rows st' = rows st ++ change_events cs ∧
    ∀ key f sent, watchers st !! key = Some (f, sent) → watchers st' !! key = Some (f, sent ++ watched f cs).
Proof.
  unfold api_objects. intros Hcs. revert st. induction Hcs as [|c cs [m Hm] Hcs IH]; intros st Hnd.
  - exists st. split; [done|]. unfold change_events, watched. cbn. split; [by rewrite app_nil_r|].
    intros. by rewrite app_nil_r.
  - pose proof (change_events_cons c cs m Hm) as Hce.
    rewrite Hce, fmap_app in Hnd. cbn [fmap list_fmap] in Hnd.
    unfold notify_all. cbn [foldl_outcome]. rewrite (notifyEvent_ok _ _ _ m) by done.
    cbn [mbind outcome_bind]. assert (Hnew : GetResourceVersion m ∉ ev_rv <$> rows st).
    { apply list.NoDup_app in Hnd as (_ & Hd & _). intros Hin. apply (Hd _ Hin). by left. }
    rewrite upsertEvent_new by done.
    edestruct IH as (st' & Hrun & Hrows & Hw); [|exists st'; split_and!; [exact Hrun|..]].
    + cbn [rows]. rewrite fmap_app, fmap_app, <- app_assoc. exact Hnd.
    + rewrite Hrows, Hce. cbn [rows]. by rewrite <- app_assoc.
    + intros key f sent Hk. rewrite (Hw key f (sent ++ (if matchWatch Accessor f (ch_old c) (Some (ch_obj c)) then change_events [c] else []))).
      * by rewrite watched_cons, app_assoc.
      * cbn [watchers]. rewrite lookup_fmap, Hk, (change_events_cons c [] m Hm).
        cbn [fmap option_fmap option_map]. do 2 f_equal.
        destruct (matchWatch _ _ _ _); [done|by rewrite app_nil_r].
Qed.

Lemma rows_after_app rv (l : list (Event (Obj := Obj))) e l' : rv ∉ ev_rv <$> l → ev_rv e = rv → rows_after rv (l ++ e :: l') = Some l'.
Proof.
  intros Hl He. induction l as [|x l IH]; cbn.
  - by rewrite He, String.eqb_refl.
  - cbn in Hl. apply not_elem_of_cons in Hl as [Hx Hl].
    rewrite (proj2 (String.eqb_neq _ _)) by done. by apply IH.
Qed.

Lemma rows_after_None rv (l : list (Event (Obj := Obj))) : rv ∉ ev_rv <$> l → rows_after rv l = None.
Proof.
  induction l as [|x l IH]; cbn; [done|]. intros [Hx Hl]%not_elem_of_cons.
  rewrite (proj2 (String.eqb_neq _ _)) by done. by apply IH.
Qed.

(** The replay ends after the event of the latest version, or with the table. *)
Lemma replay_until f latest (l : list (Event (Obj := Obj))) e l' :
  latest ∉ ev_rv <$> l → ev_rv e = latest →
  replay Accessor f latest (l ++ e :: l') = replayed f (l ++ [e]).
Proof.
  intros Hl He. unfold replayed. induction l as [|x l IH]; cbn [app replay List.filter].
  - by rewrite He, String.eqb_refl.
  - cbn in Hl. apply not_elem_of_cons in Hl as [Hx Hl].
    by rewrite (proj2 (String.eqb_neq _ _)), IH by done.
Qed.

Lemma replay_all f latest (l : list (Event (Obj := Obj))) :
  latest ∉ ev_rv <$> l → replay Accessor f latest l = replayed f l.
Proof.
  intros Hl. unfold replayed. induction l as [|x l IH]; cbn [replay List.filter]; [done|].
  cbn in Hl. apply not_elem_of_cons in Hl as [Hx Hl].
  by rewrite (proj2 (String.eqb_neq _ _)), IH by done.
Qed.

(** A watch gets its replay and then every later change that matches it. *)
Lemma Watch_run_spec f rv before after st :
  api_objects (before ++ after) → NoDup (ev_rv <$> rows st ++ change_events (before ++ after)) →
  Watch_run Accessor f rv before after st =
  (λ out, out ++ watched f (before ++ after))
    <$> Watch_replay Accessor f rv (latestRV st) (rows st ++ change_events before).
Proof.
  intros [Hb Ha]%Forall_app Hnd. unfold change_events in Hnd. rewrite omap_app in Hnd.
  unfold Watch_run, addWatcher.
  destruct (notify_all_spec before (mkIndexer (rows st) (latestRV st)
    (<[next_key st := (f, [])]> (watchers st)) (S (next_key st)))) as (st2 & -> & Hrows & Hw); [done| |].
  { cbn [rows]. rewrite app_assoc, fmap_app in Hnd. by apply list.NoDup_app in Hnd as [Hnd _]. }
  cbn [mbind outcome_bind]. cbn [rows] in Hrows. rewrite Hrows.
  destruct (Watch_replay _ _ _ _ _) as [out|err|]; [|done..]. cbn [mbind outcome_bind fmap outcome_fmap].
  destruct (notify_all_spec after st2) as (st3 & -> & _ & Hw'); [done| |].
  { rewrite Hrows, <- app_assoc. exact Hnd. }
  cbn [mbind outcome_bind]. cbn [watchers] in Hw. do 2 f_equal.
  rewrite (Hw' (next_key st) f (watched f before)).
  - cbn. by rewrite watched_app.
  - rewrite (Hw (next_key st) f []); [done|]. apply lookup_insert_eq.
Qed.
End event_lemmas.

(** * Theorems *)

(** What holds of the table between two changes: every version has one row, and the latest
    version is that of the last row. *)
Definition event_log {Obj} (st : indexer (Obj := Obj)) : Prop :=
  NoDup (ev_rv <$> rows st) ∧ ∀ l e, rows st = l ++ [e] → latestRV st = ev_rv e.

Section watch_theorems.
Context {Obj : Type} (Accessor : Obj → option Metadata).
Implicit Types (st : indexer (Obj := Obj)) (e target latest : Event (Obj := Obj)) (f : WatchFilter).

Lemma drop_suffix {A} (l : list A) x l' n : length l' < n →
  drop (length (l ++ x :: l') - n) (l ++ x :: l') = drop (length (l ++ x :: l') - n) l ++ x :: l'.
Proof. intros Hn. rewrite drop_app_le; [done|]. rewrite length_app. cbn. lia. Qed.

Lemma fmap_drop_elem {A B} (g : A → B) n (l : list A) y : y ∈ g <$> drop n l → y ∈ g <$> l.
Proof. rewrite fmap_drop. apply subseteq_drop. Qed.

(** The garbage collection keeps a suffix of the table. *)
Lemma collect_garbage_rows keep st :
  ∃ l, rows st = l ++ rows (collect_garbage keep st) ∧ latestRV (collect_garbage keep st) = latestRV st.
Proof.
  unfold collect_garbage. case_decide; [by exists []|]. exists (take (length (rows st) - keep) (rows st)).
  cbn. by rewrite take_drop.
Qed.

Lemma Watch_replay_found f rv latestRV l e l' : rv ≠ "" → rv ∉ ev_rv <$> l → ev_rv e = rv →
  Watch_replay Accessor f rv latestRV (l ++ e :: l') = Ok (replay Accessor f latestRV l').
Proof.
  intros Hrv Hl He. unfold Watch_replay. rewrite (proj2 (String.eqb_neq _ _)) by done.
  by rewrite rows_after_app.
Qed.

Lemma Watch_replay_too_old f rv latestRV (l : list (Event (Obj := Obj))) :
  rv ≠ "" → rv ≠ latestRV → rv ∉ ev_rv <$> l →
  Watch_replay Accessor f rv latestRV l = Err ErrTooOld.
Proof.
  intros Hrv Hlatest Hl. unfold Watch_replay. rewrite (proj2 (String.eqb_neq rv "")) by done.
  rewrite rows_after_None by done. by rewrite (proj2 (String.eqb_neq _ _)).
Qed.

(** The rows around an earlier version. *)
Lemma log_split older target missed latest (new : list (Event (Obj := Obj))) :
  NoDup (ev_rv <$> (older ++ target :: missed ++ [latest]) ++ new) →
  (ev_rv target ∉ ev_rv <$> older) ∧ (ev_rv target ∉ ev_rv <$> missed ++ [latest] ++ new) ∧
  (ev_rv latest ∉ ev_rv <$> missed) ∧ ev_rv target ≠ ev_rv latest.
Proof.
  rewrite <- app_assoc. cbn [app]. rewrite <- app_assoc. cbn [app]. rewrite fmap_app. cbn [fmap list_fmap].
  intros (_ & Holder & [Htarget Hnd]%list.NoDup_cons)%list.NoDup_app. split_and!.
  - intros Hin. apply (Holder _ Hin). by left.
  - done.
  - rewrite fmap_app in Hnd. apply list.NoDup_app in Hnd as (_ & Hd & _). intros Hin.
    apply (Hd _ Hin). by left.
  - intros Heq. apply Htarget. rewrite fmap_app, elem_of_app, Heq. right. by left.
Qed.

(** The table after a garbage collection: it still has the version, or only later rows. *)
Lemma collect_garbage_split keep st older target later :
  rows st = older ++ target :: later →
  if decide (keep = 0 ∨ length later < keep)
  then ∃ n, rows (collect_garbage keep st) = drop n older ++ target :: later
  else ∃ n, rows (collect_garbage keep st) = drop n later.
Proof.
  intros Hrows. unfold collect_garbage. case_decide as Hk; case_decide as H0; cbn [rows].
  - by exists 0.
  - rewrite Hrows. eexists. apply drop_suffix. lia.
  - exfalso. lia.
  - exists (length later - keep). rewrite Hrows, drop_app_ge by (rewrite length_app; cbn; lia).
    rewrite length_app. cbn [length].
    replace (length older + S (length later) - keep - length older) with (S (length later - keep)) by lia.
    done.
Qed.

(** C9: A watch from an earlier version gets every event after that version that matches
    its filter exactly once and in order, those that were missed from the table and the
    later ones, also the ones that arrive while the table is read, from its channel; if the
    garbage collection has deleted the row of the version, the watch fails and the client
    is told that the version is too old. *)
Theorem watch_complete f before after st keep older target missed latest :
  event_log st → rows st = older ++ target :: missed ++ [latest] → ev_rv target ≠ "" →
  api_objects Accessor (before ++ after) →
  NoDup (ev_rv <$> rows st ++ change_events Accessor (before ++ after)) →
  Watch_run Accessor f (ev_rv target) before after (collect_garbage keep st) =
  if decide (keep = 0 ∨ S (length missed) < keep)
  then Ok (replayed Accessor f (missed ++ [latest]) ++ watched Accessor f (before ++ after))
  else Err ErrTooOld.
Proof.
  intros Hlog Hrows Hrv Hobjs Hnd.
  assert (Hl : latestRV st = ev_rv latest).
  { apply (proj2 Hlog (older ++ target :: missed)). by rewrite Hrows, <- app_assoc. }
  destruct (collect_garbage_rows keep st) as (gone & Hgone & Hlatest).
  rewrite Watch_run_spec; [|done|].
  2:{ rewrite Hgone, <- app_assoc, fmap_app in Hnd. by apply list.NoDup_app in Hnd as (_ & _ & Hnd). }
  rewrite Hlatest, Hl. clear Hgone gone Hlatest.
  unfold change_events in Hnd. rewrite omap_app, Hrows, app_assoc, fmap_app in Hnd.
  apply list.NoDup_app in Hnd as [Hnd _].
  apply log_split in Hnd as (Holder & Hnew & Hmissed & Hne).
  pose proof (collect_garbage_split keep st _ _ _ Hrows) as Hkept.
  replace (length (missed ++ [latest])) with (S (length missed)) in Hkept by (rewrite length_app; cbn; lia).
  case_decide; destruct Hkept as [n ->].
  - rewrite <- app_assoc. cbn [app]. rewrite Watch_replay_found, <- app_assoc; [|done| |done].
    + cbn [app]. rewrite replay_until by done. done.
    + intros Hin%fmap_drop_elem. done.
  - rewrite Watch_replay_too_old; [done..|]. intros Hin. apply Hnew.
    rewrite app_assoc, fmap_app, elem_of_app in *. destruct Hin as [Hin|]; [left|by right].
    by eapply fmap_drop_elem.
Qed.

(** A watch that asks for the latest version gets every later event that matches its
    filter once; but the events that arrive after it is registered and before the table is
    read are in the table and in its channel, and it gets them twice. *)
Theorem watch_from_latest_repeats f resourceVersion before after st older latest :
  event_log st → rows st = older ++ [latest] → ev_rv latest ≠ "" →
  resourceVersion = "" ∨ resourceVersion = ev_rv latest →
  api_objects Accessor (before ++ after) →
  NoDup (ev_rv <$> rows st ++ change_events Accessor (before ++ after)) →
  Watch_run Accessor f resourceVersion before after st =
  Ok (replayed Accessor f (change_events Accessor before) ++ watched Accessor f (before ++ after)).
Proof.
  intros Hlog Hrows Hne Hrv Hobjs Hnd.
  assert (Hl : latestRV st = ev_rv latest) by by eapply (proj2 Hlog).
  rewrite Watch_run_spec, Hl by done.
  unfold change_events in Hnd. rewrite omap_app, Hrows, app_assoc, fmap_app in Hnd.
  apply list.NoDup_app in Hnd as [Hnd _]. rewrite <- app_assoc, fmap_app in Hnd. cbn in Hnd.
  apply list.NoDup_app in Hnd as (_ & Holder & [Hnew _]%list.NoDup_cons).
  assert (Hreplay : Watch_replay Accessor f resourceVersion (ev_rv latest)
      (rows st ++ change_events Accessor before) = Watch_replay Accessor f (ev_rv latest) (ev_rv latest)
      (rows st ++ change_events Accessor before)).
  { destruct Hrv as [->| ->]; [|done]. unfold Watch_replay.
    by rewrite (proj2 (String.eqb_neq (ev_rv latest) "")) by done. }
  rewrite Hreplay, Hrows, <- app_assoc. cbn [app]. rewrite Watch_replay_found; [|done| |done].
  - by rewrite replay_all.
  - intros Hin. apply (Holder _ Hin). by left.
Qed.
End watch_theorems.

(** * A run *)
Module WatchExample.
Definition pod (name rv : string) : Metadata := mkMetadata name "default" ∅ rv.
Definition created (name rv : string) : Event := mkEvent Added rv (pod name rv).
Definition create (name rv : string) : change := mkChange Added None (pod name rv).
Definition table : indexer := mkIndexer [created "a" "1"; created "b" "2"; created "c" "3"] "3" ∅ 0.
Definition every : WatchFilter := mkWatchFilter "" None "".

Lemma table_log : event_log table.
Proof.
  split; [by apply (bool_decide_unpack _); vm_compute|]. intros l e Hrows.
  change (rows table) with ([created "a" "1"; created "b" "2"] ++ [created "c" "3"]) in Hrows.
  by apply app_inj_tail in Hrows as [_ <-].
Defined.

(** An event that arrives during the replay of the missed ones is delivered once. *)
Lemma watch_complete_witness :
  Watch_run Some every "1" [create "d" "4"] [create "e" "5"] (collect_garbage 0 table) =
  Ok [created "b" "2"; created "c" "3"; created "d" "4"; created "e" "5"].
Proof.
  apply (watch_complete Some every [create "d" "4"] [create "e" "5"] table 0 [] (created "a" "1")
    [created "b" "2"] (created "c" "3") table_log eq_refl ltac:(done)).
  - by repeat constructor; eexists.
  - by apply (bool_decide_unpack _); vm_compute.
Defined.

(** An event that arrives before the table is read is delivered twice to a watch that asks
    for the latest version. *)
Lemma watch_from_latest_repeats_witness :
  Watch_run Some every "" [create "d" "4"] [create "e" "5"] table =
  Ok [created "d" "4"; created "d" "4"; created "e" "5"].
Proof.
  apply (watch_from_latest_repeats Some every "" [create "d" "4"] [create "e" "5"] table
    [created "a" "1"; created "b" "2"] (created "c" "3") table_log eq_refl ltac:(done)).
  - by left.
  - by repeat constructor; eexists.
  - by apply (bool_decide_unpack _); vm_compute.
Defined.
End WatchExample.
