(* ===== verification/WatchPartitions.v ===== *)
(** * Watches of the partitions of a user

    pkg/stores/sqlproxy/proxy_store.go: [WatchByPartitions] starts a goroutine for each
    partition. They share the request: each writes its namespace to it and the goroutine
    of [watch] reads the namespace from it later. *)
From S2P Require Import Prelude GoLib WatchEvents AccessControl Partitions SqlQuery SqlAccess.

(** What [watch] reads of [types.WatchRequest]. *)
Record WatchRequest := mkWatchRequest { w_ID : string; w_Selector : string }.

Section watch.
Context (RSplit : string → string → string * string).
(* labels.Parse of k8s.io/apimachinery *)
Context (Parse : string → outcome string (gmap string string → bool)).
Context {Obj : Type} (Accessor : Obj → option Metadata).
Context (wr : WatchRequest).

Definition parse_selector : outcome string (option (gmap string string → bool)) :=
  if String.eqb (w_Selector wr) "" then Ok None
  else match Parse (w_Selector wr) with
       | Ok selector => Ok (Some selector)
       | Err e => Err ("invalid selector: " +:+ e)
       | Panic => Panic
       end.

(** The goroutine of a partition: not started, after the assignment of the namespace (the
    goroutine of [watch] is started), and watching with a namespace. *)
Inductive goroutine := Start | Started | Watching (namespace : string).

(** [apiOp.Namespace] of the shared request, and the goroutines of the partitions. *)
Record shared := mkShared { shared_Namespace : string; goroutines : list goroutine }.

Definition init (apiOp : APIRequest) (partitions : list partition.Partition) : shared :=
  mkShared (apiOp_Namespace apiOp) (replicate (length partitions) Start).

(** [watchByPartition]. *)
Definition watchByPartition (i : nat) (p : partition.Partition) (s : shared) : shared :=
  mkShared (if partition.Passthrough p then shared_Namespace s else partition.Namespace p)
    (<[i := Started]> (goroutines s)).

(** The namespace the goroutine of [watch] gives to the filter. *)
Definition filter_namespace (apiNamespace : string) : string :=
  let idNamespace := (RSplit (w_ID wr) "/").1 in
  if String.eqb idNamespace "" then apiNamespace else idNamespace.
Definition watch (i : nat) (s : shared) : shared :=
  mkShared (shared_Namespace s)
    (<[i := Watching (filter_namespace (shared_Namespace s))]> (goroutines s)).

Inductive step (partitions : list partition.Partition) (s : shared) : shared → Prop :=
  | step_partition i p :
      partitions !! i = Some p → goroutines s !! i = Some Start →
      step partitions s (watchByPartition i p s)
  | step_watch i : goroutines s !! i = Some Started → step partitions s (watch i s).

Definition reachable (apiOp : APIRequest) (partitions : list partition.Partition) : shared → Prop :=
  rtc (step partitions) (init apiOp partitions).

(** An event of the cache: one of the log, replayed at the start of the watch, or one that comes later, with the object
    as it was before if there was one. *)
Inductive cache_event := Replayed (obj : Obj) | Notified (oldObj : option Obj) (obj : Obj).
Definition event_object (e : cache_event) : Obj := match e with Replayed obj | Notified _ obj => obj end.

(** The filters of the cache: a new event also passes when the object passed before. *)
Definition cache_passes (f : WatchFilter) (e : cache_event) : bool :=
  match e with
  | Replayed obj => matchFilter Accessor (WatchEvents.ID f) (WatchEvents.Namespace f) (WatchEvents.Selector f) (Some obj)
  | Notified oldObj obj => matchWatch Accessor f oldObj (Some obj)
  end.
(** The filter of [WatchNames]. *)
Definition WatchNames_passes (names : gset string) (e : cache_event) : bool :=
  match Accessor (event_object e) with
  | Some m => bool_decide (WatchEvents.GetName m ∈ names)
  | None => false
  end.
Definition partition_delivers (selector : option (gmap string string → bool)) (ns : string)
    (p : partition.Partition) (e : cache_event) : bool :=
  cache_passes (mkWatchFilter (w_ID wr) selector ns) e &&
  (partition.Passthrough p || partition.All p || WatchNames_passes (partition.Names p) e).

(** A partition sends the event to the result of [WatchByPartitions]. *)
Definition delivers (selector : option (gmap string string → bool))
    (partitions : list partition.Partition) (s : shared) (e : cache_event) : Prop :=
  ∃ i p ns, partitions !! i = Some p ∧ goroutines s !! i = Some (Watching ns) ∧
    partition_delivers selector ns p e = true.

Definition all_watching (s : shared) : Prop :=
  ∀ g, g ∈ goroutines s → ∃ ns, g = Watching ns.
End watch.

(** * Lemmas *)
Section watch_lemmas.
Context (RSplit : string → string → string * string) {Obj : Type} (Accessor : Obj → option Metadata)
  (wr : WatchRequest) (apiOp : APIRequest).
Implicit Types (ps : list partition.Partition) (s : shared).

(** The namespace a partition means to watch. *)
Definition own_namespace (p : partition.Partition) : string :=
  if partition.Passthrough p then apiOp_Namespace apiOp else partition.Namespace p.

(** With one namespace for all partitions the shared request holds it whenever it is read. *)
Definition watching_wf (ns : string) ps s : Prop :=
  length (goroutines s) = length ps ∧
  (shared_Namespace s = apiOp_Namespace apiOp ∨ shared_Namespace s = ns) ∧
  (∀ i, goroutines s !! i = Some Started → shared_Namespace s = ns) ∧
  ∀ i ns', goroutines s !! i = Some (Watching ns') → ns' = filter_namespace RSplit wr ns.

Lemma watchByPartition_wf ns ps s i p :
  own_namespace p = ns → watching_wf ns ps s → watching_wf ns ps (watchByPartition i p s).
Proof.
  intros Hp (Hlen & Hcell & Hstarted & Hwatching). unfold own_namespace in Hp.
  assert (Hcell' : shared_Namespace (watchByPartition i p s) = ns).
  { cbn. destruct (partition.Passthrough p); naive_solver. }
  split_and!; [by cbn; rewrite length_insert|by right|done|].
  intros j ns' [(_ & [=] & _)|[_ Hj]]%list_lookup_insert_Some. by eapply Hwatching.
Qed.

Lemma watch_wf ns ps s i : goroutines s !! i = Some Started →
  watching_wf ns ps s → watching_wf ns ps (watch RSplit wr i s).
Proof.
  intros Hi (Hlen & Hcell & Hstarted & Hwatching).
  split_and!; [by cbn; rewrite length_insert|done| |]; cbn.
  - intros j [(_ & [=] & _)|[_ Hj]]%list_lookup_insert_Some. by eapply Hstarted.
  - intros j ns' [(_ & [= <-] & _)|[_ Hj]]%list_lookup_insert_Some; [|by eapply Hwatching].
    by rewrite (Hstarted i Hi).
Qed.

Lemma reachable_watching ns ps s :
  (∀ p, p ∈ ps → own_namespace p = ns) → reachable RSplit wr apiOp ps s → watching_wf ns ps s.
Proof.
  intros Hns Hs. assert (Hinit : watching_wf ns ps (init apiOp ps)).
  { split_and!; [by cbn; rewrite length_replicate|by left| |]; cbn;
      intros *; intros [? _]%lookup_replicate; done. }
  unfold reachable in Hs. induction Hs as [s|s1 s2 s3 Hstep _ IH]; [done|]. apply IH.
  destruct Hstep as [i p Hp _|i Hi].
  - apply watchByPartition_wf; [|done]. by eapply Hns, list_elem_of_lookup_2.
  - by apply watch_wf.
Qed.

(** When every goroutine watches, the events of all partitions are delivered. *)
Lemma delivers_own ns ps s selector e :
  (∀ p, p ∈ ps → own_namespace p = ns) → reachable RSplit wr apiOp ps s → all_watching s →
  delivers Accessor wr selector ps s e ↔
  ∃ p, p ∈ ps ∧ partition_delivers Accessor wr selector (filter_namespace RSplit wr ns) p e = true.
Proof.
  intros Hns Hs Hall. destruct (reachable_watching ns ps s Hns Hs) as (Hlen & _ & _ & Hwatching). split.
  - intros (i & p & ns' & Hp & Hi & Hd). exists p. split; [by eapply list_elem_of_lookup_2|].
    by rewrite (Hwatching _ _ Hi) in Hd.
  - intros (p & [i Hp]%list_elem_of_lookup & Hd).
    destruct (lookup_lt_is_Some_2 (goroutines s) i) as [g Hg].
    { rewrite Hlen. by eapply lookup_lt_Some. }
    destruct (Hall g) as [ns' ->]; [by eapply list_elem_of_lookup_2|].
    exists i, p, ns'. split_and!; [done..|]. by rewrite (Hwatching _ _ Hg).
Qed.

(** In every run a partition watches the namespace of a partition, its own or that of another one. *)
Definition watching_some ps s : Prop :=
  length (goroutines s) = length ps ∧
  (Exists (λ g, g ≠ Start) (goroutines s) → ∃ q, q ∈ ps ∧ shared_Namespace s = partition.Namespace q) ∧
  ∀ i ns', goroutines s !! i = Some (Watching ns') → ∃ q, q ∈ ps ∧ ns' = filter_namespace RSplit wr (partition.Namespace q).
Lemma reachable_watching_some ps s : Forall (λ p, partition.Passthrough p = false) ps →
  reachable RSplit wr apiOp ps s → watching_some ps s.
Proof.
  intros Hpass Hs. assert (Hinit : watching_some ps (init apiOp ps)).
  { split_and!; [by cbn; rewrite length_replicate| |]; cbn.
    - intros (g & Hg & Hne)%list.Exists_exists. by apply elem_of_replicate_inv in Hg.
    - by intros i ns' [? _]%lookup_replicate. }
  unfold reachable in Hs. induction Hs as [s|s1 s2 s3 Hstep _ IH]; [done|]. apply IH. clear IH.
  destruct Hinit as (Hlen & Hcell & Hwatching). destruct Hstep as [i p Hp _|i Hi].
  - assert (shared_Namespace (watchByPartition i p s1) = partition.Namespace p) as Hns.
    { cbn. by rewrite (proj1 (Forall_lookup _ _) Hpass _ _ Hp). }
    split_and!; [by cbn; rewrite length_insert|intros _; exists p; split; [by eapply list_elem_of_lookup_2|done]|].
    cbn. intros j ns' [(_ & [=] & _)|[_ Hj]]%list_lookup_insert_Some. by eapply Hwatching.
  - assert (∃ q, q ∈ ps ∧ shared_Namespace s1 = partition.Namespace q) as (q & Hq & Hns).
    { apply Hcell, list.Exists_exists. exists Started. split; [by eapply list_elem_of_lookup_2|done]. }
    split_and!; [by cbn; rewrite length_insert|intros _; by exists q|]; cbn.
    intros j ns' [(_ & [= <-] & _)|[_ Hj]]%list_lookup_insert_Some; [|by eapply Hwatching].
    exists q. by rewrite Hns.
Qed.

(** The goroutines may run one after the other; then each partition watches its own namespace. *)
Lemma own_run ps : Forall (λ p, partition.Passthrough p = false) ps →
  ∃ s, reachable RSplit wr apiOp ps s ∧
    goroutines s = (λ p, Watching (filter_namespace RSplit wr (partition.Namespace p))) <$> ps.
Proof.
  intros Hpass. set (w p := Watching (filter_namespace RSplit wr (partition.Namespace p))).
  assert (∀ k, k <= length ps → ∃ s, reachable RSplit wr apiOp ps s ∧
    goroutines s = (w <$> take k ps) ++ replicate (length ps - k) Start) as Hk.
  { induction k as [|k IH]; intros Hle.
    - exists (init apiOp ps). split; [constructor|]. cbn. by rewrite Nat.sub_0_r.
    - destruct (IH ltac:(lia)) as (s & Hs & Hg). destruct (lookup_lt_is_Some_2 ps k ltac:(lia)) as [p Hp].
      assert (length (w <$> take k ps) = k) as Hlen by (rewrite length_fmap, length_take; lia).
      assert (replicate (length ps - k) Start = Start :: replicate (length ps - S k) Start) as Hrep.
      { by replace (length ps - k) with (S (length ps - S k)) by lia. }
      exists (watch RSplit wr k (watchByPartition k p s)). split.
      + eapply rtc_r; [eapply rtc_r; [exact Hs|]|].
        * apply (step_partition _ _ _ _ k p); [done|]. rewrite Hg, Hrep, lookup_app_r, Hlen by lia. by rewrite Nat.sub_diag.
        * apply step_watch. cbn. apply list_lookup_insert_eq. rewrite Hg, length_app, Hlen, length_replicate. lia.
      + cbn. rewrite (proj1 (Forall_lookup _ _) Hpass _ _ Hp), list_insert_insert_eq, Hg, Hrep.
        rewrite insert_app_r_alt, Hlen, Nat.sub_diag by lia. cbn. rewrite (take_S_r _ _ _ Hp), fmap_app, <-app_assoc. done. }
  destruct (Hk (length ps) ltac:(lia)) as (s & Hs & Hg). exists s. split; [done|].
  by rewrite Hg, Nat.sub_diag, firstn_all, app_nil_r.
Qed.
Lemma delivers_own_run ps s selector e :
  goroutines s = (λ p, Watching (filter_namespace RSplit wr (partition.Namespace p))) <$> ps →
  delivers Accessor wr selector ps s e ↔
  ∃ p, p ∈ ps ∧ partition_delivers Accessor wr selector (filter_namespace RSplit wr (partition.Namespace p)) p e = true.
Proof.
  intros Hg. unfold delivers. rewrite Hg. setoid_rewrite list_lookup_fmap. split.
  - intros (i & p & ns & Hp & Hi & Hd). rewrite Hp in Hi. injection Hi as <-. exists p.
    split; [by eapply list_elem_of_lookup_2|done].
  - intros (p & [i Hp]%list_elem_of_lookup & Hd). eexists i, p, _. rewrite Hp. by split_and!.
Qed.
End watch_lemmas.

(** Every run can go on until all goroutines watch. *)
Definition pending (g : goroutine) : nat :=
  match g with Start => 2 | Started => 1 | Watching _ => 0 end.

Lemma sum_list_with_insert {A} (f : A → nat) l i x y : l !! i = Some x → f y < f x →
  sum_list_with f (<[i := y]> l) < sum_list_with f l.
Proof.
  revert i. induction l as [|z l IH]; intros [|i] Hi Hf; [done..| |].
  - injection Hi as ->. cbn. lia.
  - specialize (IH i Hi Hf).
    change (f z + sum_list_with f (<[i := y]> l) < f z + sum_list_with f l). lia.
Qed.

Lemma can_watch RSplit wr ps s : length (goroutines s) = length ps →
  ∃ s', rtc (step RSplit wr ps) s s' ∧ all_watching s'.
Proof.
  remember (sum_list_with pending (goroutines s)) as n eqn:Hn. revert s Hn.
  induction n as [n IH] using lt_wf_ind. intros s Hn Hlen.
  destruct (decide (Exists (λ g, pending g ≠ 0) (goroutines s))) as [He|He].
  - apply Exists_exists in He as (g & [i Hg]%list_elem_of_In%list_elem_of_lookup & Hpend).
    assert (Hstep : ∃ s1, step RSplit wr ps s s1 ∧ length (goroutines s1) = length ps ∧
      sum_list_with pending (goroutines s1) < n).
    { subst n. destruct g as [| |ns]; [| |done].
      - destruct (lookup_lt_is_Some_2 ps i) as [p Hp]; [rewrite <- Hlen; by eapply lookup_lt_Some|].
        exists (watchByPartition i p s). split_and!; [by econstructor|by cbn; rewrite length_insert|].
        apply (sum_list_with_insert _ _ _ Start); [done|cbn; lia].
      - exists (watch RSplit wr i s). split_and!; [by constructor|by cbn; rewrite length_insert|].
        apply (sum_list_with_insert _ _ _ Started); [done|cbn; lia]. }
    destruct Hstep as (s1 & H1 & Hlen1 & Hlt). destruct (IH _ Hlt s1 eq_refl Hlen1) as (s' & Hs' & ?).
    exists s'. split; [by eapply rtc_l|done].
  - exists s. split; [constructor|]. intros g Hg. destruct g as [| |ns]; [..|by exists ns];
      destruct He; apply Exists_exists; eexists; (split; [by apply list_elem_of_In|done]).
Qed.

Lemma matchFilter_spec {Obj} (Accessor : Obj → option Metadata) ns selector obj m :
  Accessor obj = Some m →
  matchFilter Accessor "" ns selector (Some obj) = true ↔
  (ns = "" ∨ GetNamespace m = ns) ∧
  match selector with Some matches => matches (GetLabels m) = true | None => True end.
Proof.
  intros Hm. unfold matchFilter. rewrite Hm. cbn [String.eqb negb andb].
  rewrite andb_true_iff, negb_true_iff, andb_false_iff, !negb_false_iff, !String.eqb_eq.
  destruct selector; naive_solver.
Qed.

(** An event of the cache about an object with this metadata; before it had the same name and namespace. *)
Definition event_of {Obj} (Accessor : Obj → option Metadata) (e : cache_event (Obj := Obj)) (m : Metadata) : Prop :=
  Accessor (event_object e) = Some m ∧
  match e with
  | Notified (Some old) _ => ∃ m', Accessor old = Some m' ∧ GetNamespace m' = GetNamespace m ∧
                                   WatchEvents.GetName m' = WatchEvents.GetName m
  | _ => True
  end.
(** The object has the labels that are asked for, or a new event says that it had them before. *)
Definition selected {Obj} (Accessor : Obj → option Metadata) (selector : option (gmap string string → bool))
    (e : cache_event (Obj := Obj)) (m : Metadata) : Prop :=
  match selector with
  | None => True
  | Some matches => matches (GetLabels m) = true ∨
      ∃ old obj m', e = Notified (Some old) obj ∧ Accessor old = Some m' ∧ matches (GetLabels m') = true
  end.
Lemma cache_passes_spec {Obj} (Accessor : Obj → option Metadata) ns selector e m : event_of Accessor e m →
  cache_passes Accessor (mkWatchFilter "" selector ns) e = true ↔
  (ns = "" ∨ GetNamespace m = ns) ∧ selected Accessor selector e m.
Proof.
  intros [Hm Hold]. unfold selected. destruct e as [obj|[old|] obj]; cbn [cache_passes event_object] in *.
  - cbn [WatchEvents.ID WatchEvents.Namespace WatchEvents.Selector]. rewrite matchFilter_spec by done.
    destruct selector; naive_solver.
  - destruct Hold as (m' & Hm' & Hns & _). unfold matchWatch. cbn [WatchEvents.ID WatchEvents.Namespace WatchEvents.Selector].
    rewrite orb_true_iff, !matchFilter_spec, Hns by done. destruct selector; naive_solver.
  - unfold matchWatch. cbn [WatchEvents.ID WatchEvents.Namespace WatchEvents.Selector orb]. rewrite matchFilter_spec by done.
    destruct selector; naive_solver.
Qed.
Lemma partition_delivers_spec {Obj} (Accessor : Obj → option Metadata) sel ns selector p e m : event_of Accessor e m →
  partition_delivers Accessor (mkWatchRequest "" sel) selector ns p e = true ↔
  (ns = "" ∨ GetNamespace m = ns) ∧ selected Accessor selector e m ∧
  (partition.Passthrough p = true ∨ partition.All p = true ∨ WatchEvents.GetName m ∈ partition.Names p).
Proof.
  intros He. unfold partition_delivers, WatchNames_passes. rewrite andb_true_iff, !orb_true_iff, (proj1 He).
  rewrite bool_decide_eq_true. cbn [w_ID]. rewrite (cache_passes_spec _ _ _ _ m He). tauto.
Qed.

(** ** The partitions of a watch *)
Section watch_partitions.
Context `{MapRange, SliceSort} (schema : APISchema) (apiOp : APIRequest).
Context (Hwf : request_wf apiOp schema).
Abbreviation resources := (Granted (Schema_Access schema) "watch").
Abbreviation aggregate := (SqlPartitioner.generateAggregatePartitions apiOp schema "watch").

(** A request whose partitions are all in one namespace. *)
Definition one_namespace : Prop := Schema_Namespaced schema = false ∨ apiOp_Namespace apiOp ≠ "".

Lemma granted_watch ns n : n ≠ "" → n ≠ All →
  AccessListByVerb_All (Schema_Access schema) "watch" = false →
  R_All (resources_at resources (resource_namespace schema ns)) = true ∨
  n ∈ R_Names (resources_at resources (resource_namespace schema ns)) ↔
  visible schema "watch" ns n.
Proof.
  intros Hn1 Hn2 Hall. rewrite Granted_All, Granted_Names. unfold visible. rewrite Hall.
  generalize (resource_namespace schema ns) as k. intros k. split.
  - intros [(acc&?&?&?)|[[??]|(?&?&?&?)]]; right; [left|left|right]; eauto 10.
  - intros [?|[([ns' n']&?&?&[Hn|Hn])|(?&?)]]; [done|left|right; left|done]; cbn in *; subst; eauto.
Qed.

Lemma aggregate_one_namespace p : one_namespace →
  p ∈ aggregate.1 → partition.Passthrough p = false ∧ partition.Namespace p = apiOp_Namespace apiOp.
Proof.
  intros Hone. unfold SqlPartitioner.generateAggregatePartitions.
  destruct (AccessListByVerb_All _ _); [by intros ?%not_elem_of_nil|]. case_bool_decide as Hap.
  - destruct (R_All _); [by intros ?%not_elem_of_nil|]. by intros ->%list_elem_of_singleton.
  - destruct Hone as [Hns|]; [|done]. rewrite Hns. unfold request_wf in Hwf. rewrite Hns in Hwf.
    destruct Hwf as [-> _]. by intros ([k r] & -> & _)%list_elem_of_fmap.
Qed.

Lemma watch_passthrough ns n : aggregate.2 = true →
  (apiOp_Namespace apiOp = "" ∨ ns = apiOp_Namespace apiOp) → visible schema "watch" ns n.
Proof.
  unfold SqlPartitioner.generateAggregatePartitions, visible.
  destruct (AccessListByVerb_All _ _); [by left|]. case_bool_decide as Hap; [|by destruct (Schema_Namespaced schema)].
  destruct (R_All _) eqn:HR; [|done]. intros _ [?| ->]; [done|].
  apply Granted_All in HR as (acc & ? & ? & ?). right; left. exists acc. split; [done|].
  unfold resource_namespace. destruct (Schema_Namespaced schema) eqn:Hns; [by auto|].
  unfold request_wf in Hwf. rewrite Hns in Hwf. by destruct Hwf.
Qed.

Lemma aggregate_key k r : Schema_Namespaced schema = true → (k, r) ∈ range_map resources → k ≠ "".
Proof.
  intros Hnsd Hkr. apply elem_of_range_map in Hkr.
  assert (Hk : is_Some (resources !! k)) by by eexists.
  apply lookup_Granted_is_Some in Hk as [(acc & Hacc & <-)|[? _]]; [|done].
  unfold request_wf in Hwf. rewrite Hnsd in Hwf. by apply (Hwf "watch").
Qed.
Lemma aggregate_no_passthrough : Forall (λ p, partition.Passthrough p = false) aggregate.1.
Proof.
  apply list.Forall_forall. unfold SqlPartitioner.generateAggregatePartitions.
  destruct (AccessListByVerb_All _ _); [by intros p ?%not_elem_of_nil|]. case_bool_decide.
  - destruct (R_All _); [by intros p ?%not_elem_of_nil|]. by intros p ->%list_elem_of_singleton.
  - destruct (Schema_Namespaced schema); by intros p ([k r] & -> & _)%list_elem_of_fmap.
Qed.

(** The partitions that hold an object by their own namespace and names are those of the accesses to it. *)
Lemma aggregate_watch_visible ns n : row_wf schema ns n → aggregate.2 = false →
  (apiOp_Namespace apiOp = "" ∨ ns = apiOp_Namespace apiOp) →
  (∃ p, p ∈ aggregate.1 ∧ (partition.Namespace p = "" ∨ ns = partition.Namespace p) ∧
        (partition.All p = true ∨ n ∈ partition.Names p)) ↔
  visible schema "watch" ns n.
Proof.
  intros (Hn1 & Hn2 & _ & Hns). pose proof aggregate_key as Hkey. revert Hkey. unfold SqlPartitioner.generateAggregatePartitions.
  destruct (AccessListByVerb_All _ _) eqn:Hall; [done|]. rewrite <- granted_watch by done.
  unfold resource_namespace. case_bool_decide as Hap.
  - destruct (R_All (resources_at _ _)) eqn:HR; [done|]. intros _ _ [?| ->]; [done|].
    destruct (Schema_Namespaced schema) eqn:Hnsd; [|by destruct Hap; apply Hns].
    cbn. rewrite exists_elem_of_cons, exists_elem_of_nil. cbn. rewrite HR. naive_solver.
  - intros Hkey _ _. destruct (Schema_Namespaced schema) eqn:Hnsd; cbn [fst]; rewrite exists_elem_of_fmap.
    + split.
      * intros ([k r] & Hkr & [Hk|Hk] & Hr); cbn in Hk, Hr; [by destruct (Hkey k r)|]. subst k.
        apply elem_of_range_map in Hkr. unfold resources_at. by rewrite Hkr.
      * intros Hr. unfold resources_at in Hr. destruct (resources !! ns) as [r|] eqn:Hkr; cbn in Hr.
        -- exists (ns, r). rewrite elem_of_range_map. cbn. auto.
        -- destruct Hr as [?|?%not_elem_of_empty]; done.
    + split.
      * intros ([k r] & Hkr & _ & Hr). apply elem_of_range_map in Hkr.
        assert (Hk : ∃ acc, acc ∈ access_by_verb (Schema_Access schema) "watch" ∧ Namespace acc = k).
        { assert (Hk : is_Some (resources !! k)) by by eexists.
          apply lookup_Granted_is_Some in Hk as [(acc & ? & ?)|[? _]]; [|done]. by exists acc. }
        destruct Hk as (acc & Hacc & Hk). unfold request_wf in Hwf. rewrite Hnsd in Hwf.
        rewrite (proj2 Hwf _ _ Hacc) in Hk. subst k. unfold resources_at. by rewrite Hkr.
      * intros Hr. unfold resources_at in Hr. destruct (resources !! All) as [r|] eqn:Hkr; cbn in Hr.
        -- exists (All, r). rewrite elem_of_range_map. cbn. auto.
        -- destruct Hr as [?|?%not_elem_of_empty]; done.
Qed.

(** What a partition holds comes from accesses, to its namespace and to its names. *)
Lemma aggregate_accesses p q ns n : p ∈ aggregate.1 → q ∈ aggregate.1 →
  (partition.Namespace q = "" ∨ ns = partition.Namespace q) →
  partition.All p = true ∨ n ∈ partition.Names p →
  ∃ acc acc', acc ∈ access_by_verb (Schema_Access schema) "watch" ∧ acc' ∈ access_by_verb (Schema_Access schema) "watch" ∧
    Namespace acc = resource_namespace schema ns ∧ (ResourceName acc' = All ∨ ResourceName acc' = n).
Proof.
  assert (∀ k r, (k, r) ∈ range_map resources → R_All r = true ∨ n ∈ R_Names r →
    ∃ acc, acc ∈ access_by_verb (Schema_Access schema) "watch" ∧ Namespace acc = k ∧
      (ResourceName acc = All ∨ ResourceName acc = n)) as Hname.
  { intros k r Hkr Hr. apply elem_of_range_map in Hkr.
    assert (resources_at resources k = r) as <- by (unfold resources_at; by rewrite Hkr).
    rewrite Granted_All, Granted_Names in Hr. destruct Hr as [(acc & ? & ? & ?)|[[? _]|[? _]]]; [by eauto 6| |done].
    exists (mkAccess k n). cbn. auto. }
  unfold SqlPartitioner.generateAggregatePartitions. destruct (AccessListByVerb_All _ _); [by intros ?%not_elem_of_nil|].
  case_bool_decide as Hap.
  - destruct (R_All (resources_at _ _)) eqn:HR; [by intros ?%not_elem_of_nil|].
    cbn. intros ->%list_elem_of_singleton ->%list_elem_of_singleton [?|Hns] [?|Hn]; cbn in *; [done..|]. subst ns.
    assert (Schema_Namespaced schema = true) as Hnsd.
    { unfold request_wf in Hwf. destruct (Schema_Namespaced schema); [done|]. by destruct Hwf. }
    unfold resources_at in Hn. destruct (resources !! apiOp_Namespace apiOp) as [r|] eqn:Hkr;
      [|by apply not_elem_of_empty in Hn].
    destruct (Hname _ r (proj2 (elem_of_range_map _ _ _) Hkr) (or_intror Hn)) as (acc & Hacc & Hk & Hna).
    exists acc, acc. unfold resource_namespace. by rewrite Hnsd.
  - unfold resource_namespace. intros Hp Hq Hns Hn.
    assert (∃ k r k' r', (k, r) ∈ range_map resources ∧ (k', r') ∈ range_map resources ∧ (R_All r = true ∨ n ∈ R_Names r) ∧
      k' = if Schema_Namespaced schema then ns else All) as (k & r & k' & r' & Hkr & Hkr' & Hr & Hk').
    { destruct (Schema_Namespaced schema) eqn:Hnsd; cbn [fst] in Hp, Hq.
      - apply list_elem_of_fmap in Hp as ([k r] & -> & Hkr), Hq as ([k' r'] & -> & Hkr'). cbn in *.
        exists k, r, k', r'. split_and!; [done..|]. destruct Hns as [->|]; [|done]. by apply aggregate_key in Hkr'.
      - apply list_elem_of_fmap in Hp as ([k r] & -> & Hkr), Hq as ([k' r'] & -> & Hkr'). cbn in *.
        exists k, r, k', r'. split_and!; [done..|]. apply elem_of_range_map in Hkr'.
        assert (Hk : is_Some (resources !! k')) by by eexists.
        apply lookup_Granted_is_Some in Hk as [(acc & Hacc & <-)|[? _]]; [|done].
        unfold request_wf in Hwf. rewrite Hnsd in Hwf. by apply (proj2 Hwf "watch"). }
    destruct (Hname _ _ Hkr Hr) as (acc' & Hacc' & _ & Hna). apply elem_of_range_map in Hkr'.
    assert (Hk : is_Some (resources !! k')) by by eexists.
    apply lookup_Granted_is_Some in Hk as [(acc & Hacc & Hk)|[? _]]; [|done]. exists acc, acc'. by rewrite Hk.
Qed.
End watch_partitions.

(** * Theorems *)

(** What a watch of the namespace [requested] should deliver. *)
Definition should_deliver {Obj} (Accessor : Obj → option Metadata) schema selector (requested : string)
    (e : cache_event (Obj := Obj)) (m : Metadata) : Prop :=
  (requested = "" ∨ GetNamespace m = requested) ∧ selected Accessor selector e m ∧
  visible schema "watch" (GetNamespace m) (WatchEvents.GetName m).

(** The watches of a user without access to everything. *)
Lemma aggregate_watches `{MapRange, SliceSort} RSplit {Obj} (Accessor : Obj → option Metadata)
    schema apiOp selector w_Selector :
  request_wf apiOp schema → RSplit "" "/" = ("", "") →
  let wr := mkWatchRequest "" w_Selector in
  let ps := SqlPartitioner.generateAggregatePartitions apiOp schema "watch" in
  let sorted := sort_slice SqlPartitioner.partition_less ps.1 in
  let exactly s := ∀ e m, event_of Accessor e m → row_wf schema (GetNamespace m) (WatchEvents.GetName m) →
    delivers Accessor wr selector sorted s e ↔ should_deliver Accessor schema selector (apiOp_Namespace apiOp) e m in
  (ps.2 = false →
   (∀ s, reachable RSplit wr apiOp sorted s → all_watching s → one_namespace schema apiOp → exactly s) ∧
   ∃ s, reachable RSplit wr apiOp sorted s ∧ all_watching s ∧ exactly s) ∧
  ∀ s, reachable RSplit wr apiOp sorted s → ∀ e m, event_of Accessor e m →
    delivers Accessor wr selector sorted s e →
    selected Accessor selector e m ∧
    ∃ acc acc', acc ∈ access_by_verb (Schema_Access schema) "watch" ∧
      acc' ∈ access_by_verb (Schema_Access schema) "watch" ∧
      Namespace acc = resource_namespace schema (GetNamespace m) ∧
      (ResourceName acc' = All ∨ ResourceName acc' = WatchEvents.GetName m).
Proof.
  intros Hwf Hsplit wr ps sorted exactly.
  assert (Hfilter : ∀ ns, filter_namespace RSplit wr ns = ns).
  { intros ns. unfold filter_namespace. cbn [w_ID wr]. by rewrite Hsplit. }
  assert (∀ p, p ∈ sorted ↔ p ∈ ps.1) as Hsorted by (intros p; unfold sorted; by rewrite sort_slice_perm).
  assert (Forall (λ p, partition.Passthrough p = false) sorted) as Hnp.
  { apply list.Forall_forall. intros p Hp%Hsorted. pose proof (aggregate_no_passthrough schema apiOp) as Hno.
    rewrite list.Forall_forall in Hno. auto. }
  assert (∀ e m, event_of Accessor e m → row_wf schema (GetNamespace m) (WatchEvents.GetName m) → ps.2 = false →
    (∃ p, p ∈ sorted ∧ partition_delivers Accessor wr selector (partition.Namespace p) p e = true) ↔
    should_deliver Accessor schema selector (apiOp_Namespace apiOp) e m) as Hown.
  { intros e m He Hrow Hpass. unfold should_deliver. setoid_rewrite Hsorted.
    assert (∀ ns p, partition_delivers Accessor wr selector ns p e = true ↔ _) as Hd
      by (intros ns p; exact (partition_delivers_spec Accessor w_Selector ns selector p e m He)).
    setoid_rewrite Hd. split.
    - intros (p & Hp & Hns & Hsel & Hn). rewrite list.Forall_forall in Hnp. rewrite (Hnp p) in Hn by by apply Hsorted.
      assert (apiOp_Namespace apiOp = "" ∨ GetNamespace m = apiOp_Namespace apiOp) as Hreq.
      { destruct (decide (apiOp_Namespace apiOp = "")) as [?|Hne]; [by left|]. right.
        destruct (aggregate_one_namespace schema apiOp Hwf p (or_intror Hne) Hp) as [_ Heq].
        destruct Hns as [Hns|Hns]; congruence. }
      split_and!; [done..|]. apply (aggregate_watch_visible schema apiOp Hwf _ _ Hrow Hpass Hreq).
      exists p. split_and!; [done..|]. naive_solver.
    - intros (Hreq & Hsel & Hv). apply (aggregate_watch_visible schema apiOp Hwf _ _ Hrow Hpass Hreq) in Hv as (p & Hp & Hns & Hn).
      exists p. auto. }
  split.
  - intros Hpass. split.
    + intros s Hs Hall Hone e m He Hrow. rewrite <-(Hown e m He Hrow Hpass).
      rewrite (delivers_own RSplit Accessor wr apiOp (apiOp_Namespace apiOp)); [|intros p Hp%Hsorted|done..].
      2:{ unfold own_namespace. by destruct (aggregate_one_namespace schema apiOp Hwf p Hone Hp) as [-> ->]. }
      rewrite Hfilter. apply exist_proper. intros p. apply and_iff_under. intros Hp%Hsorted.
      by destruct (aggregate_one_namespace schema apiOp Hwf p Hone Hp) as [_ ->].
    + destruct (own_run RSplit wr apiOp sorted Hnp) as (s & Hs & Hg). exists s. split_and!; [done| |].
      * intros g. rewrite Hg. intros (p & -> & _)%list_elem_of_fmap. eauto.
      * intros e m He Hrow. rewrite <-(Hown e m He Hrow Hpass), (delivers_own_run RSplit Accessor wr sorted s selector e Hg).
        by setoid_rewrite Hfilter.
  - intros s Hs e m He (i & p & ns & Hp & Hi & Hd).
    destruct (reachable_watching_some RSplit wr apiOp sorted s Hnp Hs) as (_ & _ & Hw).
    destruct (Hw _ _ Hi) as (q & Hq & ->). rewrite Hfilter in Hd.
    apply (partition_delivers_spec _ _ _ _ _ _ m He) in Hd as (Hns & Hsel & Hn). split; [done|].
    apply list_elem_of_lookup_2 in Hp. rewrite list.Forall_forall in Hnp. rewrite (Hnp p Hp) in Hn.
    apply (aggregate_accesses schema apiOp Hwf p q); [by apply Hsorted..|done|naive_solver].
Qed.

(** C5: The goroutines of the partitions of a watch without an ID, for a schema with accesses as the schema factory gives them, can
    always come to watch, in a run in which they deliver exactly
    the events about objects of the requested namespace that the user may watch and that match the selector, or matched it
    before the change. When the request names a namespace, or the resource is not namespaced, they do so in every run.
    Otherwise they race on the namespace in the request; in any run they deliver only events that match, of
    objects whose namespace is that of an access of the user and whose name is that of one, if not of the same. *)
Theorem watch_visible `{MapRange, SliceSort} RSplit {Obj} (Accessor : Obj → option Metadata)
    schema apiOp selector w_Selector :
  request_wf apiOp schema → RSplit "" "/" = ("", "") →
  let wr := mkWatchRequest "" w_Selector in
  let exactly ps s := ∀ e m, event_of Accessor e m → row_wf schema (GetNamespace m) (WatchEvents.GetName m) →
    delivers Accessor wr selector ps s e ↔ should_deliver Accessor schema selector (apiOp_Namespace apiOp) e m in
  ∃ ps, SqlPartitioner.All RSplit apiOp schema "watch" "" = Ok ps ∧
    (∃ s, reachable RSplit wr apiOp ps s ∧ all_watching s ∧ exactly ps s) ∧
    ∀ s, reachable RSplit wr apiOp ps s → all_watching s →
      (one_namespace schema apiOp → exactly ps s) ∧
      ∀ e m, event_of Accessor e m → delivers Accessor wr selector ps s e →
        selected Accessor selector e m ∧
        (should_deliver Accessor schema selector (apiOp_Namespace apiOp) e m ∨
         ∃ acc acc', acc ∈ access_by_verb (Schema_Access schema) "watch" ∧
           acc' ∈ access_by_verb (Schema_Access schema) "watch" ∧
           Namespace acc = resource_namespace schema (GetNamespace m) ∧
           (ResourceName acc' = All ∨ ResourceName acc' = WatchEvents.GetName m)).
Proof.
  intros Hwf Hsplit wr exactly.
  assert (Hfilter : ∀ ns, filter_namespace RSplit wr ns = ns).
  { intros ns. unfold filter_namespace. cbn [w_ID wr]. by rewrite Hsplit. }
  unfold SqlPartitioner.All. cbn. pose proof (watch_passthrough schema apiOp Hwf) as Hpass.
  destruct (aggregate_watches RSplit Accessor schema apiOp selector w_Selector Hwf Hsplit) as [Hexact Hbound].
  destruct (SqlPartitioner.generateAggregatePartitions apiOp schema "watch") as [ps pass].
  cbn [fst snd] in *. destruct pass; eexists; (split; [done|]).
  - assert (∀ s, reachable RSplit wr apiOp SqlPartitioner.passthroughPartitions s → all_watching s →
      exactly SqlPartitioner.passthroughPartitions s) as Hexactly.
    { intros s Hs Hall e m He Hrow. rewrite delivers_own; [|intros p ->%list_elem_of_singleton; reflexivity|done..].
      unfold SqlPartitioner.passthroughPartitions, should_deliver. rewrite exists_elem_of_cons, exists_elem_of_nil.
      rewrite Hfilter. unfold wr. rewrite (partition_delivers_spec _ _ _ _ _ _ m He). cbn [partition.Passthrough own_namespace].
      specialize (Hpass (GetNamespace m) (WatchEvents.GetName m) eq_refl). naive_solver. }
    split.
    + destruct (can_watch RSplit wr SqlPartitioner.passthroughPartitions (init apiOp SqlPartitioner.passthroughPartitions))
        as (s & Hs & Hall); [done|]. exists s. auto.
    + intros s Hs Hall. split; [auto|]. intros e m He Hd.
      rewrite delivers_own in Hd; [|intros p ->%list_elem_of_singleton; reflexivity|done..].
      destruct Hd as (p & Hp & Hd). rewrite Hfilter in Hd. apply (partition_delivers_spec _ _ _ _ _ _ m He) in Hd as (Hns & Hsel & _).
      split; [done|]. left. split_and!; [done..|]. by apply Hpass.
  - destruct (Hexact eq_refl) as [Hone Hrun]. split; [exact Hrun|]. intros s Hs Hall. split; [exact (Hone s Hs Hall)|].
    intros e m He Hd. destruct (Hbound s Hs e m He Hd) as [? ?]. auto.
Qed.

(** The goroutines of two partitions race on the namespace of the request: whatever the
    partitions, there is a run in which a partition watches the namespace of another one
    and delivers its objects, also those the user may not watch when it is a partition of
    all objects of its own namespace. *)
Theorem watch_partitions_race RSplit {Obj} (Accessor : Obj → option Metadata) wr apiOp ps i j p q :
  i ≠ j → ps !! i = Some p → ps !! j = Some q → partition.Passthrough q = false →
  (RSplit (w_ID wr) "/").1 = "" → w_ID wr = "" →
  ∃ s, reachable RSplit wr apiOp ps s ∧
    ∀ obj m, Accessor obj = Some m → GetNamespace m = partition.Namespace q →
      partition.All p = true ∨ WatchEvents.GetName m ∈ partition.Names p →
      delivers Accessor wr None ps s (Replayed obj).
Proof.
  intros Hij Hp Hq Hpass Hsplit Hid.
  assert (Hlen : i < length ps ∧ j < length ps) by (split; by eapply lookup_lt_Some).
  exists (watch RSplit wr i (watchByPartition j q (watchByPartition i p (init apiOp ps)))). split.
  - unfold reachable. eapply rtc_l; [|eapply rtc_l; [|eapply rtc_l; [|constructor]]].
    + apply (step_partition _ _ _ _ i p); [done|]. cbn. apply lookup_replicate_2. tauto.
    + apply (step_partition _ _ _ _ j q); [done|]. cbn. rewrite list_lookup_insert_ne by done.
      apply lookup_replicate_2. tauto.
    + apply step_watch. cbn. rewrite list_lookup_insert_ne by done. apply list_lookup_insert_eq.
      rewrite length_replicate. tauto.
  - intros obj m Hm Hns Hd. exists i, p, (partition.Namespace q). split_and!; [done| |].
    + cbn. unfold filter_namespace. rewrite Hsplit, Hpass. cbn. apply list_lookup_insert_eq.
      rewrite !length_insert, length_replicate. tauto.
    + unfold partition_delivers, WatchNames_passes. rewrite Hid. apply andb_true_iff. split.
      * cbn [cache_passes WatchEvents.ID WatchEvents.Namespace WatchEvents.Selector].
        apply (matchFilter_spec _ _ _ _ m); auto.
      * cbn [event_object]. rewrite Hm, !orb_true_iff, bool_decide_eq_true. tauto.
Qed.

(** A watch of one object of a namespace by an ID that holds the namespace compares the
    whole ID with the names of the objects and delivers nothing. *)
Theorem watch_by_id_silent {Obj} (Accessor : Obj → option Metadata) wr ps s selector obj m :
  has_char "/" (w_ID wr) = true → Accessor obj = Some m → has_char "/" (WatchEvents.GetName m) = false →
  ¬ delivers Accessor wr selector ps s (Replayed obj).
Proof.
  intros Hid Hm Hname (i & p & ns & _ & _ & Hd). unfold partition_delivers in Hd.
  cbn [cache_passes WatchEvents.ID WatchEvents.Namespace WatchEvents.Selector] in Hd.
  unfold matchFilter in Hd. rewrite Hm in Hd. assert (Hne : w_ID wr ≠ WatchEvents.GetName m) by congruence.
  assert (w_ID wr ≠ "") by (intros Heq; by rewrite Heq in Hid).
  by rewrite !(proj2 (String.eqb_neq _ _)) in Hd by done.
Qed.

(** * A user who may watch the namespace "team" and the object "cron" of "ops" *)
Module WatchRaceExample.
Import Concrete PartitionExample.
Definition schema : APISchema := mkAPISchema
  {[ "watch" := [mkAccess "team" "*"; mkAccess "ops" "cron"] ]} true.
Definition ops_pod (name : string) : Metadata := mkMetadata name "ops" ∅ "1".
Definition ops : partition.Partition := partition.mkPartition false "ops" false {["cron"]}.
Definition team : partition.Partition := partition.mkPartition false "team" true ∅.

Lemma schema_ok apiOp : request_wf apiOp schema.
Proof.
  unfold request_wf. cbn. intros v acc Hacc. unfold access_by_verb in Hacc.
  destruct (decide (v = "watch")) as [->|].
  - change (acc ∈ [mkAccess "team" "*"; mkAccess "ops" "cron"]) in Hacc.
    rewrite !elem_of_cons in Hacc. destruct Hacc as [->|[->|Hacc%not_elem_of_nil]]; done.
  - cbn [Schema_Access schema] in Hacc. rewrite lookup_singleton_ne in Hacc by done.
    by apply not_elem_of_nil in Hacc.
Qed.

Lemma watch_visible_witness :
  let wr := mkWatchRequest "" "" in
  let exactly ps s := ∀ e m, event_of Some e m → row_wf schema (GetNamespace m) (WatchEvents.GetName m) →
    delivers Some wr None ps s e ↔ should_deliver Some schema None "" e m in
  ∃ ps, SqlPartitioner.All rsplit (mkAPIRequest "") schema "watch" "" = Ok ps ∧
    (∃ s, reachable rsplit wr (mkAPIRequest "") ps s ∧ all_watching s ∧ exactly ps s) ∧
    ∀ s, reachable rsplit wr (mkAPIRequest "") ps s → all_watching s →
      (one_namespace schema (mkAPIRequest "") → exactly ps s) ∧
      ∀ e m, event_of Some e m → delivers Some wr None ps s e →
        True ∧
        (should_deliver Some schema None "" e m ∨
         ∃ acc acc', acc ∈ access_by_verb (Schema_Access schema) "watch" ∧
           acc' ∈ access_by_verb (Schema_Access schema) "watch" ∧
           Namespace acc = GetNamespace m ∧ (ResourceName acc' = All ∨ ResourceName acc' = WatchEvents.GetName m)).
Proof. apply (watch_visible rsplit Some schema (mkAPIRequest "") None ""); [apply schema_ok|reflexivity]. Defined.

(** The watch of all namespaces can deliver "ops/vault", which the user may not watch. *)
Lemma watch_partitions_race_witness :
  SqlPartitioner.All rsplit (mkAPIRequest "") schema "watch" "" = Ok [ops; team] ∧
  (∃ s, reachable rsplit (mkWatchRequest "" "") (mkAPIRequest "") [ops; team] s ∧
     delivers Some (mkWatchRequest "" "") None [ops; team] s (Replayed (ops_pod "vault"))) ∧
  ¬ visible schema "watch" "ops" "vault".
Proof.
  split; [by vm_compute|]. split.
  - destruct (watch_partitions_race rsplit Some (mkWatchRequest "" "") (mkAPIRequest "")
      [ops; team] 1 0 team ops ltac:(done) eq_refl eq_refl eq_refl eq_refl eq_refl) as (s & Hs & Hd).
    exists s. split; [exact Hs|]. apply (Hd _ (ops_pod "vault")); [done..|]. by left.
  - unfold visible. intros [Hall|[(acc & Hacc & Hns & Hn)|[Hv _]]]; [| |].
    + by vm_compute in Hall.
    + change (acc ∈ [mkAccess "team" "*"; mkAccess "ops" "cron"]) in Hacc.
      rewrite !elem_of_cons in Hacc. destruct Hacc as [->|[->|Hacc%not_elem_of_nil]]; [done|by destruct Hn|done].
    + done.
Defined.

Lemma watch_by_id_silent_witness :
  ¬ delivers Some (mkWatchRequest "ops/cron" "") None [ops] (mkShared "ops" [Watching "ops"])
    (Replayed (ops_pod "cron")).
Proof. by apply (watch_by_id_silent Some _ [ops] _ None _ (ops_pod "cron")). Defined.
End WatchRaceExample.
