(* ===== verification/SyntheticWatcher.v ===== *)
(** * Watching by listing: pkg/sqlcache/informer/synthetic_watcher.go

    A resource that cannot be watched is listed at intervals, and the differences between
    two lists become the events of a watch. *)
From S2P Require Import Prelude GoLib WatchEvents.

Section synthetic.
Context `{MapRange} {Obj : Type}.
(* the accessors of unstructured.Unstructured *)
Context (GetNamespace GetName GetResourceVersion : Obj → string).

Record objectHolder := mkHolder { version : string; unstructuredObject : Obj }.

(** The events of the result channel. *)
Definition createWatchEvent (event : EventType) (u : Obj) : EventType * Obj := (event, u).

Definition object_key (uItem : Obj) : string :=
  if String.eqb (GetNamespace uItem) "" then GetName uItem
  else GetNamespace uItem +:+ "/" +:+ GetName uItem.

Definition newObjects_of (items : list Obj) : gmap string objectHolder :=
  foldl (λ newObjects uItem,
    <[object_key uItem := mkHolder (GetResourceVersion uItem) uItem]> newObjects) ∅ items.

(** The events sent so far, [previousState] and [currentState]. *)
Definition tick_state : Type := list (EventType * Obj) * gmap string objectHolder * gmap string objectHolder.

(** The body of the loop over [newObjects]. *)
Definition tick_object (st : tick_state) (kv : string * objectHolder) : tick_state :=
  let '(events, previousState, currentState) := st in
  let '(key, newObject) := kv in
  let currentState := <[key := newObject]> currentState in
  match previousState !! key with
  | None => (events ++ [createWatchEvent Added (unstructuredObject newObject)], previousState, currentState)
  | Some oldItem =>
      let previousState := delete key previousState in
      if String.eqb (version oldItem) (version newObject) then (events, previousState, currentState)
      else (events ++ [createWatchEvent Modified (unstructuredObject oldItem)], previousState, currentState)
  end.

(** A tick of the ticker after which the list succeeds. *)
Definition tick (items : list Obj) (previousState : gmap string objectHolder)
    : list (EventType * Obj) * gmap string objectHolder :=
  let '(events, previousState, currentState) :=
    foldl tick_object ([], previousState, ∅) (range_map (newObjects_of items)) in
  (events ++ ((λ '(_, item), createWatchEvent Deleted (unstructuredObject item)) <$> range_map previousState),
   currentState).

(** The ticks of a watcher until it is stopped; a list that fails is logged. *)
Fixpoint receive (lists : list (option (list Obj))) (previousState : gmap string objectHolder)
    : list (EventType * Obj) :=
  match lists with
  | [] => []
  | None :: lists => receive lists previousState
  | Some items :: lists =>
      let '(events, currentState) := tick items previousState in
      events ++ receive lists currentState
  end.

(** ** Specification *)

(** What the consumer of a watch stores: the objects of the events under their keys. *)
Definition apply_event (store : gmap string Obj) (event : EventType * Obj) : gmap string Obj :=
  match event.1 with
  | Added | Modified => <[object_key event.2 := event.2]> store
  | Deleted => delete (object_key event.2) store
  end.
Definition apply_events : gmap string Obj → list (EventType * Obj) → gmap string Obj := foldl apply_event.

(** The last list that succeeded; the empty one at the start. *)
Definition next_list (items : list Obj) (listed : option (list Obj)) : list Obj :=
  match listed with Some items' => items' | None => items end.
Definition last_list : list (option (list Obj)) → list Obj := foldl next_list [].

(** What a tick leaves at a key of the store of the consumer, by the old and the new object
    with this key. *)
Definition synced (old new : option objectHolder) (stored : option Obj) : option Obj :=
  match old, new with
  | None, Some newObject => Some (unstructuredObject newObject)
  | Some oldItem, Some newObject =>
      if String.eqb (version oldItem) (version newObject) then stored
      else Some (unstructuredObject oldItem)
  | Some _, None => None
  | None, None => stored
  end.

(** ** Lemmas *)
Implicit Types (m : gmap string objectHolder) (items : list Obj) (store : gmap string Obj).

(** The objects of a state are stored under their keys. *)
Definition keys_ok m : Prop := map_Forall (λ k h, object_key (unstructuredObject h) = k) m.

Lemma newObjects_keys_ok items : keys_ok (newObjects_of items).
Proof.
  unfold newObjects_of. assert (Hinit : keys_ok ∅) by apply map_Forall_empty.
  revert Hinit. generalize (∅ : gmap string objectHolder).
  induction items as [|x items IH]; intros m Hm; [done|]. by apply IH, map_Forall_insert_2.
Qed.

Lemma apply_events_app store l l' :
  apply_events store (l ++ l') = apply_events (apply_events store l) l'.
Proof. apply foldl_app. Qed.

(** The step of the loop for a key: an event that leaves at this key what [synced] says. *)
Lemma tick_object_event events m cur k x :
  keys_ok m → object_key (unstructuredObject x) = k →
  ∃ ev, tick_object (events, m, cur) (k, x) = (events ++ ev, delete k m, <[k := x]> cur) ∧
    ∀ store, apply_events store ev =
      partial_alter (λ _, synced (m !! k) (Some x) (store !! k)) k store.
Proof.
  intros Hm Hx. unfold tick_object, createWatchEvent. destruct (m !! k) as [old|] eqn:Hold.
  - cbn [synced]. destruct (String.eqb _ _); eexists; (split; [f_equal; f_equal|]).
    + by rewrite app_nil_r.
    + intros store. by rewrite partial_alter_self.
    + intros store. cbn. by rewrite (Hm _ _ Hold).
  - eexists. rewrite delete_id by done. split; [done|]. intros store. cbn. by rewrite Hx.
Qed.

(** The loop over the new objects, in any order. *)
Lemma tick_fold l events m cur : keys_ok m → NoDup l.*1 →
  (∀ kv, kv ∈ l → object_key (unstructuredObject kv.2) = kv.1) →
  ∃ ev m' cur', foldl tick_object (events, m, cur) l = (events ++ ev, m', cur') ∧
    ∀ k, let new := (list_to_map l : gmap string objectHolder) !! k in
      m' !! k = (if new is Some _ then None else m !! k) ∧
      cur' !! k = (if new is Some _ then new else cur !! k) ∧
      ∀ store, apply_events store ev !! k = if new is Some _ then synced (m !! k) new (store !! k) else store !! k.
Proof.
  revert events m cur. induction l as [|[k x] l IH]; intros events m cur Hm Hnd Hl.
  { exists [], m, cur. split; [by rewrite app_nil_r|]. done. }
  apply list.NoDup_cons in Hnd as [Hk Hnd]. cbn [fst] in Hk.
  destruct (tick_object_event events m cur k x Hm) as (ev1 & Hstep & Hev1); [by apply (Hl (k, x)); left|].
  destruct (IH (events ++ ev1) (delete k m) (<[k := x]> cur)) as (ev & m' & cur' & Hfold & Hspec);
    [by apply map_Forall_delete|done|intros; apply Hl; by right|].
  exists (ev1 ++ ev), m', cur'. cbn [foldl]. rewrite Hstep, Hfold, <- app_assoc. split; [done|].
  intros k'. destruct (Hspec k') as (Hm' & Hcur & Hstore). cbn [list_to_map]. cbn zeta in *.
  change (list_to_map ((k, x) :: l)) with (<[k := x]> (list_to_map l) : gmap string objectHolder).
  destruct (decide (k = k')) as [<-|Hne].
  - rewrite (not_elem_of_list_to_map_1 _ _ Hk) in *. rewrite lookup_insert_eq, lookup_delete_eq in *.
    split_and!; [done..|]. intros store. rewrite apply_events_app, Hstore, Hev1.
    by rewrite lookup_partial_alter_eq.
  - rewrite !lookup_insert_ne, ?lookup_delete_ne in * by done. split_and!; [done..|].
    intros store. by rewrite apply_events_app, Hstore, Hev1, lookup_partial_alter_ne.
Qed.

(** The loop over what is left of the previous state. *)
Lemma deleted_events l store k :
  (∀ kv, kv ∈ l → object_key (unstructuredObject kv.2) = kv.1) →
  apply_events store ((λ '(_, item), createWatchEvent Deleted (unstructuredObject item)) <$> l) !! k =
  if decide (k ∈ l.*1) then None else store !! k.
Proof.
  revert store. induction l as [|[k0 x] l IH]; intros store Hl; [done|]. cbn [fmap list_fmap fst].
  change (apply_events store (createWatchEvent Deleted (unstructuredObject x) ::
    ((λ '(_, item), createWatchEvent Deleted (unstructuredObject item)) <$> l))) with
    (apply_events (delete (object_key (unstructuredObject x)) store)
      ((λ '(_, item), createWatchEvent Deleted (unstructuredObject item)) <$> l)).
  rewrite IH by (intros; apply Hl; by right).
  replace (object_key (unstructuredObject x)) with k0 by (symmetry; apply (Hl (k0, x)); by left).
  destruct (decide (k = k0)) as [->|Hne].
  - rewrite lookup_delete_eq, (decide_True (P := k0 ∈ k0 :: l.*1)) by by left. by case_decide.
  - rewrite lookup_delete_ne by done. apply decide_ext. rewrite elem_of_cons. naive_solver.
Qed.

Lemma tick_synced items m : keys_ok m →
  ∃ events, tick items m = (events, newObjects_of items) ∧
    ∀ store k, apply_events store events !! k =
      synced (m !! k) (newObjects_of items !! k) (store !! k).
Proof.
  intros Hm. unfold tick.
  destruct (tick_fold (range_map (newObjects_of items)) [] m ∅ Hm) as (ev & m' & cur' & -> & Hspec).
  { apply NoDup_fst_range_map. }
  { intros [k x] Hin%elem_of_range_map. by apply newObjects_keys_ok in Hin. }
  assert (Hnew : (list_to_map (range_map (newObjects_of items)) : gmap string objectHolder) = newObjects_of items).
  { symmetry. apply list_to_map_flip. by rewrite range_map_perm. }
  rewrite Hnew in Hspec. eexists. split.
  - f_equal. apply map_eq. intros k. destruct (Hspec k) as (_ & -> & _).
    rewrite lookup_empty. by destruct (_ !! k).
  - intros store k. rewrite apply_events_app, deleted_events.
    + destruct (Hspec k) as (Hm' & _ & ->). pose proof (elem_of_range_keys m' k) as Hk.
      unfold range_keys in Hk. rewrite Hm' in Hk.
      destruct (newObjects_of items !! k) as [x|], (m !! k) as [h|]; cbn; case_decide as Hd; try done;
        rewrite Hk in Hd; naive_solver.
    + intros [k' x] Hin%elem_of_range_map. cbn. destruct (Hspec k') as (Hm' & _).
      rewrite Hm' in Hin. destruct (newObjects_of items !! k'); [done|]. by apply Hm in Hin.
Qed.

(** The state of the watcher after some ticks is that of the last list. *)
Lemma receive_app lists more items :
  receive (lists ++ more) (newObjects_of items) =
  receive lists (newObjects_of items) ++ receive more (newObjects_of (foldl next_list items lists)).
Proof.
  revert items. induction lists as [|[items'|] lists IH]; intros items; [done| |apply IH].
  cbn [app receive foldl next_list].
  destruct (tick_synced items' _ (newObjects_keys_ok items)) as (ev & -> & _).
  by rewrite IH, app_assoc.
Qed.

(** The consumer's store after some ticks. *)
Definition received (lists : list (option (list Obj))) : gmap string Obj :=
  apply_events ∅ (receive lists ∅).

Lemma received_snoc lists items k :
  received (lists ++ [Some items]) !! k =
  synced (newObjects_of (last_list lists) !! k) (newObjects_of items !! k) (received lists !! k).
Proof.
  unfold received. pose proof (receive_app lists [Some items] []) as Hr.
  change (newObjects_of []) with (∅ : gmap string objectHolder) in Hr. fold (last_list lists) in Hr.
  rewrite Hr. cbn [receive].
  destruct (tick_synced items _ (newObjects_keys_ok (last_list lists))) as (ev & -> & Hev).
  by rewrite app_nil_r, apply_events_app, Hev.
Qed.

Lemma received_None lists : received (lists ++ [None]) = received lists.
Proof.
  unfold received. pose proof (receive_app lists [None] []) as Hr.
  change (newObjects_of []) with (∅ : gmap string objectHolder) in Hr. rewrite Hr. cbn [receive].
  by rewrite app_nil_r.
Qed.

Lemma received_keys lists k :
  is_Some (received lists !! k) ↔ is_Some (newObjects_of (last_list lists) !! k).
Proof.
  induction lists as [|[items|] lists IH] using rev_ind.
  - split; intros [? Hx]; cbn in Hx; by rewrite lookup_empty in Hx.
  - rewrite received_snoc. unfold last_list. rewrite foldl_app. cbn [foldl next_list]. fold (last_list lists).
    destruct (newObjects_of (last_list lists) !! k), (newObjects_of items !! k); cbn;
      rewrite ?is_Some_Some_iff; try done.
    destruct (String.eqb _ _); rewrite ?IH, !is_Some_Some_iff; done.
  - rewrite received_None, IH. unfold last_list. by rewrite foldl_app.
Qed.

Lemma newObjects_lookup items k :
  is_Some (newObjects_of items !! k) ↔ ∃ obj, obj ∈ items ∧ object_key obj = k.
Proof.
  unfold newObjects_of. rewrite (foldl_or (λ m : gmap string objectHolder, is_Some (m !! k))
    (λ obj, object_key obj = k)).
  - rewrite lookup_empty, is_Some_None_iff. clear. tauto.
  - intros m obj _. rewrite lookup_insert_is_Some'. clear. tauto.
Qed.
End synthetic.

#[global] Arguments mkHolder {Obj}.

(** * Theorems *)

(** After every successful list the consumer of the watch has exactly the objects of
    the list by their keys, and the new ones as listed; but the event of an object whose
    version has changed carries the object of the previous list, so that the consumer's
    copy is one version behind. *)
Theorem synthetic_watch_lags `{MapRange} {Obj} (GetNamespace GetName GetResourceVersion : Obj → string)
    lists items :
  let objects := newObjects_of GetNamespace GetName GetResourceVersion in
  let store := received GetNamespace GetName GetResourceVersion (lists ++ [Some items]) in
  (∀ k, is_Some (store !! k) ↔ ∃ obj, obj ∈ items ∧ object_key GetNamespace GetName obj = k) ∧
  (∀ k newObject, objects (last_list lists) !! k = None → objects items !! k = Some newObject →
     store !! k = Some (unstructuredObject newObject)) ∧
  (∀ k oldItem newObject, objects (last_list lists) !! k = Some oldItem →
     objects items !! k = Some newObject → version oldItem ≠ version newObject →
     store !! k = Some (unstructuredObject oldItem)).
Proof.
  cbn zeta. split_and!.
  - intros k. rewrite received_keys. unfold last_list. rewrite foldl_app. cbn [foldl next_list].
    apply newObjects_lookup.
  - intros k new Hold Hnew. by rewrite received_snoc, Hold, Hnew.
  - intros k old new Hold Hnew Hv. rewrite received_snoc, Hold, Hnew. cbn.
    by rewrite (proj2 (String.eqb_neq _ _)).
Qed.

(** * Two lists: the consumer still has version 1 of the object when its version is 2 *)
Module SyntheticExample.
Import Concrete.
Definition pod (name rv : string) : Metadata := mkMetadata name "default" ∅ rv.
Definition lists : list (option (list Metadata)) := [Some [pod "a" "1"; pod "b" "1"]; None].

Lemma synthetic_watch_lags_witness :
  received GetNamespace GetName GetResourceVersion (lists ++ [Some [pod "a" "2"]]) !! "default/a" =
  Some (pod "a" "1").
Proof.
  by apply (proj2 (proj2 (synthetic_watch_lags GetNamespace GetName GetResourceVersion lists
    [pod "a" "2"])) _ (mkHolder "1" (pod "a" "1")) (mkHolder "2" (pod "a" "2"))).
Defined.
End SyntheticExample.
