(* ===== verification/Counts.v ===== *)
(** * Counts of resources: pkg/resources/counts/counts.go, pkg/resources/counts/buffer.go

    The numbers of objects of each type, in total and by namespace, and the watch that
    keeps them up to date with the events of the cluster cache. Go's [int] is an integer
    here: a counter is bounded by the number of objects and events. *)
From S2P Require Import Prelude GoLib WatchEvents AccessControl.

(** What the counts use of [summary.Summary] of the library wrangler. *)
Module summary.
Record Summary := mkSummary { Error : bool; Transitioning : bool }.
End summary.

Record Summary := mkSummary {
  Count : Z; States : gmap string Z; Error : Z; Transitioning : Z
}.
Definition zero_Summary : Summary := mkSummary 0 ∅ 0 0.

Record ItemCount := mkItemCount {
  ic_Summary : Summary; Namespaces : gmap string Summary; Revision : Z
}.

(** [Count]: an ID and the counts by the ID of their schema. *)
Record CountT := mkCount { c_ID : string; c_Counts : gmap string ItemCount }.

Definition simpleState (s : summary.Summary) : string :=
  if summary.Error s then "error" else if summary.Transitioning s then "in-progress" else "".

(** [addSummary] with [d = 1] and [removeSummary] with [d = -1]. *)
Definition change_summary (d : Z) (counts : Summary) (s : summary.Summary) : Summary :=
  let st := simpleState s in
  mkSummary (Count counts + d)
    (if String.eqb st "" then States counts
     else <[st := (default 0 (States counts !! st) + d)%Z]> (States counts))
    (if summary.Error s then Error counts + d else Error counts)
    (if summary.Transitioning s then Transitioning counts + d else Transitioning counts).
Definition addSummary : Summary → summary.Summary → Summary := change_summary 1.
Definition removeSummary : Summary → summary.Summary → Summary := change_summary (-1).

Definition change_counts (change : Summary → summary.Summary → Summary) (itemCount : ItemCount)
    (ns : string) (s : summary.Summary) : ItemCount :=
  mkItemCount (change (ic_Summary itemCount) s)
    (if String.eqb ns "" then Namespaces itemCount
     else <[ns := change (default zero_Summary (Namespaces itemCount !! ns)) s]> (Namespaces itemCount))
    (Revision itemCount).
Definition addCounts : ItemCount → string → summary.Summary → ItemCount := change_counts addSummary.
Definition removeCounts : ItemCount → string → summary.Summary → ItemCount := change_counts removeSummary.

Section counts.
Context {GVK : Type} `{Countable GVK} {Obj : Type} (Accessor : Obj → option Metadata).
(* summary.SummarizeWithOptions of wrangler, by HasObservedGeneration *)
Context (SummarizeWithOptions : bool → Obj → summary.Summary).

(** What the counts read of a schema. *)
Record APISchema := mkAPISchema {
  s_ID : string;
  s_GVK : GVK;
  s_HasStore : bool;
  s_HasObservedGeneration : bool;
  s_Access : AccessListByVerb
}.

(** The name, namespace, revision and summary of an object. *)
Record info := mkInfo { i_name : string; i_ns : string; i_revision : Z; i_summary : summary.Summary }.

Definition getInfo (obj : Obj) (schema : APISchema) : option info :=
  m ← Accessor obj;
  revision ← parse_int (GetResourceVersion m);
  Some (mkInfo (WatchEvents.GetName m) (GetNamespace m) revision
         (SummarizeWithOptions (s_HasObservedGeneration schema) obj)).

(** ** Counting *)
Section getCount.
(* the schemas of the request, the access control of the API server, the cluster cache *)
Context (Schemas : list APISchema) (CanList CanWatch : APISchema → bool) (ccache_List : GVK → list Obj).

Definition ignore (id : string) : bool := bool_decide (id ∈ ["count"; "schema"; "apiRoot"]).
Definition schemasToWatch : list APISchema :=
  List.filter (λ s, negb (ignore (s_ID s)) && s_HasStore s && CanList s && CanWatch s) Schemas.

Definition may_count (access : AccessListByVerb) (i : info) : bool :=
  AccessListByVerb_Grants access "list" "*" "*" ||
  AccessListByVerb_Grants access "list" (i_ns i) (i_name i) ||
  AccessListByVerb_Grants access "get" (i_ns i) (i_name i).

(** The body of the loop over the objects of a schema. *)
Definition count_object (schema : APISchema) (st : Z * ItemCount) (obj : Obj) : Z * ItemCount :=
  match getInfo obj schema with
  | None => st
  | Some i =>
      if may_count (s_Access schema) i
      then (Z.max st.1 (i_revision i), addCounts st.2 (i_ns i) (i_summary i)) else st
  end.
Definition count_schema (schema : APISchema) : ItemCount :=
  let '(rev, itemCount) :=
    foldl (count_object schema) (0%Z, mkItemCount zero_Summary ∅ 0) (ccache_List (s_GVK schema)) in
  mkItemCount (ic_Summary itemCount) (Namespaces itemCount) rev.

Definition getCount : CountT :=
  mkCount "count" (foldl (λ counts schema, <[s_ID schema := count_schema schema]> counts) ∅ schemasToWatch).
End getCount.

(** ** Watching *)

(** The variables of [Watch]: [result] is not nil, and the maps. *)
Record count_watch := mkCountWatch {
  result_open : bool;
  counts : gmap string ItemCount;
  gvkToSchema : gmap GVK APISchema
}.

(** The state the handlers start with. *)
Definition Watch `{MapRange} (LookupSchema : string → option APISchema) (start : CountT) : count_watch :=
  mkCountWatch true (c_Counts start)
    (foldl (λ m id, match LookupSchema id with None => m | Some schema => <[s_GVK schema := schema]> m end)
       ∅ (range_keys (c_Counts start))).

(** The two summaries count alike. *)
Definition same_summary (s s' : summary.Summary) : bool :=
  Bool.eqb (summary.Transitioning s) (summary.Transitioning s') &&
  Bool.eqb (summary.Error s) (summary.Error s') && String.eqb (simpleState s) (simpleState s').

(** The counts after an event; [None] when nothing changes. *)
Definition changed_counts (add : bool) (schema : APISchema) (i : info) (oldObj : option Obj)
    (itemCount : ItemCount) : option ItemCount :=
  match oldObj with
  | Some old =>
      match getInfo old schema with
      | None => None
      | Some o =>
          if same_summary (i_summary o) (i_summary i) then None
          else Some (addCounts (removeCounts itemCount (i_ns i) (i_summary o)) (i_ns i) (i_summary i))
      end
  | None =>
      Some ((if add then addCounts else removeCounts) itemCount (i_ns i) (i_summary i))
  end.

(** [onChange]: the new state and the count sent. *)
Definition onChange (add : bool) (gvk : GVK) (obj : Obj) (oldObj : option Obj) (w : count_watch)
    : count_watch * option CountT :=
  if negb (result_open w) then (w, None) else
  match gvkToSchema w !! gvk with
  | None => (w, None)
  | Some schema =>
      match getInfo obj schema with
      | None => (w, None)
      | Some i =>
          let itemCount := default (mkItemCount zero_Summary ∅ 0) (counts w !! s_ID schema) in
          if bool_decide (i_revision i ≤ Revision itemCount)%Z then (w, None) else
          match changed_counts add schema i oldObj itemCount with
          | None => (w, None)
          | Some itemCount =>
              (mkCountWatch true (<[s_ID schema := itemCount]> (counts w)) (gvkToSchema w),
               Some (mkCount "count" {[s_ID schema := itemCount]}))
          end
      end
  end.

(** The handlers of the cluster cache: OnAdd, OnChange and OnRemove. *)
Definition handle (gvk : GVK) (c : change (Obj := Obj)) (w : count_watch) : count_watch * option CountT :=
  match ch_type c with
  | Added => onChange true gvk (ch_obj c) None w
  | Modified => onChange true gvk (ch_obj c) (ch_old c) w
  | Deleted => onChange false gvk (ch_obj c) None w
  end.
Definition handle_all (gvk : GVK) : list (change (Obj := Obj)) → count_watch → count_watch :=
  λ cs w, foldl (λ w c, (handle gvk c w).1) w cs.

(** The context of the request is done. *)
Definition close_watch (w : count_watch) : count_watch :=
  mkCountWatch false (counts w) (gvkToSchema w).
End counts.

(** ** Debouncing: buffer.go

    What happens to the goroutine after the first count: a count arrives or the ticker
    fires. *)
Inductive debounce_event := Input (count : CountT) | Tick.

(** The counts sent and [currentCount]. *)
Definition debounce_step (st : list CountT * option CountT) (e : debounce_event)
    : list CountT * option CountT :=
  let '(sent, currentCount) := st in
  match e, currentCount with
  | Input count, None => (sent, Some count)
  | Input count, Some current =>
      (sent, Some (mkCount (c_ID current) (c_Counts count ∪ c_Counts current)))
  | Tick, None => (sent, None)
  | Tick, Some current => (sent ++ [current], None)
  end.
Definition debounceCounts (firstCount : CountT) (events : list debounce_event)
    : list CountT * option CountT :=
  foldl debounce_step ([firstCount], None) events.

(** * Specification: counting again *)

(** The number of elements that satisfy a test. *)
Definition num {A} (f : A → bool) (l : list A) : Z := Z.of_nat (length (List.filter f l)).

(** [c] counts the summaries [l]. A state without objects may have an entry 0. *)
Definition tally (c : Summary) (l : list summary.Summary) : Prop :=
  Count c = Z.of_nat (length l) ∧
  Error c = num summary.Error l ∧ Transitioning c = num summary.Transitioning l ∧
  ∀ st, st ≠ "" → default 0%Z (States c !! st) = num (λ s, String.eqb (simpleState s) st) l.

(** [c] counts objects with a namespace ("" for none) and a summary. *)
Definition in_ns (ns : string) (x : string * summary.Summary) : bool := String.eqb (x.1) ns.
Definition item_tally (c : ItemCount) (l : list (string * summary.Summary)) : Prop :=
  tally (ic_Summary c) l.*2 ∧
  ∀ ns, ns ≠ "" → tally (default zero_Summary (Namespaces c !! ns)) (List.filter (in_ns ns) l).*2.

(** * Lemmas *)
Lemma num_cons {A} (f : A → bool) x l : num f (x :: l) = ((if f x then 1 else 0) + num f l)%Z.
Proof. unfold num. cbn. destruct (f x); cbn [length]; lia. Qed.

#[export] Instance num_perm {A} (f : A → bool) : Proper ((≡ₚ) ==> (=)) (num f).
Proof. intros l l' Hl. unfold num. induction Hl as [|x l l' _ IH|x y l|]; cbn; by_cases; cbn in *; lia. Qed.

#[export] Instance filter_perm {A} (f : A → bool) : Proper ((≡ₚ) ==> (≡ₚ)) (List.filter f).
Proof.
  intros l l' Hl. induction Hl as [|x l l' _ IH|x y l|l1 l2 l3 _ IH1 _ IH2]; cbn; [done|by case_match; rewrite IH| |by rewrite IH1].
  repeat case_match; done || constructor.
Qed.

#[export] Instance tally_perm : Proper ((=) ==> (≡ₚ) ==> iff) tally.
Proof. intros c ? <- l l' Hl. unfold tally. by setoid_rewrite Hl. Qed.

#[export] Instance item_tally_perm : Proper ((=) ==> (≡ₚ) ==> iff) item_tally.
Proof. intros c ? <- l l' Hl. unfold item_tally. by setoid_rewrite Hl. Qed.

Lemma tally_zero : tally zero_Summary [].
Proof. by split_and!. Qed.

(** Adding and removing one summary. *)
Lemma change_summary_tally d c s l l' :
  Z.of_nat (length l') = (Z.of_nat (length l) + d)%Z →
  (∀ f, num f l' = if f s then num f l + d else num f l)%Z →
  tally c l → tally (change_summary d c s) l'.
Proof.
  intros Hlen Hnum (Hc & He & Ht & Hs). unfold tally, change_summary. cbn.
  rewrite !Hnum, Hlen, Hc, He, Ht. split_and!; try done. intros st Hst. rewrite Hnum, <- Hs by done.
  destruct (String.eqb_spec (simpleState s) "") as [H0|H0].
  - rewrite H0. by rewrite (proj2 (String.eqb_neq "" st)).
  - destruct (String.eqb_spec (simpleState s) st) as [<-|Hne].
    + by rewrite lookup_insert_eq.
    + by rewrite lookup_insert_ne.
Qed.

Lemma addSummary_tally c s l : tally c l → tally (addSummary c s) (s :: l).
Proof.
  apply change_summary_tally; [cbn [length]; lia|]. intros f. rewrite num_cons. destruct (f s); lia.
Qed.
Lemma removeSummary_tally c s l : tally c (s :: l) → tally (removeSummary c s) l.
Proof.
  apply change_summary_tally; [cbn [length]; lia|]. intros f. rewrite num_cons. destruct (f s); lia.
Qed.

Lemma filter_in_ns ns ns' s l : List.filter (in_ns ns') ((ns, s) :: l) =
  if decide (ns = ns') then (ns, s) :: List.filter (in_ns ns') l else List.filter (in_ns ns') l.
Proof. cbn [List.filter]. unfold in_ns at 1. cbn [fst]. case_decide as Hn; [subst; by rewrite String.eqb_refl|by rewrite (proj2 (String.eqb_neq _ _))]. Qed.

Lemma change_counts_tally change ic ns s l l' :
  (∀ c k k', (k = s :: k' ∧ l = (ns, s) :: l' ∨ k' = s :: k ∧ l' = (ns, s) :: l) → tally c k → tally (change c s) k') →
  (l = (ns, s) :: l' ∨ l' = (ns, s) :: l) →
  item_tally ic l → item_tally (change_counts change ic ns s) l'.
Proof.
  intros Hchange Hl [Hall Hns]. split.
  - cbn. eapply Hchange; [|exact Hall]. destruct Hl as [-> | ->]; [left|right]; done.
  - intros ns' Hne. specialize (Hns ns' Hne). unfold change_counts. cbn [Namespaces].
    destruct (decide (ns = ns')) as [<-|Hns'].
    + rewrite (proj2 (String.eqb_neq ns "")), lookup_insert_eq by done. cbn [default].
      eapply Hchange; [|exact Hns].
      destruct Hl as [-> | ->]; rewrite filter_in_ns, decide_True by done; [left|right]; done.
    + assert (Hf : List.filter (in_ns ns') l = List.filter (in_ns ns') l').
      { destruct Hl as [-> | ->]; by rewrite filter_in_ns, decide_False. }
      rewrite <- Hf. destruct (String.eqb ns ""); [done|]. by rewrite lookup_insert_ne.
Qed.

Lemma addCounts_tally ic ns s l : item_tally ic l → item_tally (addCounts ic ns s) ((ns, s) :: l).
Proof.
  intros Hl. eapply change_counts_tally; [|by right|exact Hl].
  intros c k k' [[-> Heq]|[-> _]]; [|apply addSummary_tally]. apply (f_equal length) in Heq. cbn in Heq. lia.
Qed.
Lemma removeCounts_tally ic ns s l : item_tally ic ((ns, s) :: l) → item_tally (removeCounts ic ns s) l.
Proof.
  intros Hl. eapply change_counts_tally; [|by left|exact Hl].
  intros c k k' [[-> _]|[-> Heq]]; [apply removeSummary_tally|]. apply (f_equal length) in Heq. cbn in Heq. lia.
Qed.

(** Summaries that count alike are exchangeable. *)
Lemma same_summary_tally ic ns s s' l : same_summary s s' = true →
  item_tally ic ((ns, s) :: l) → item_tally ic ((ns, s') :: l).
Proof.
  unfold same_summary. rewrite !andb_true_iff. intros [[Ht He] Hs] [Hall Hns].
  apply Bool.eqb_prop in Ht, He. apply String.eqb_eq in Hs.
  assert (Htally : ∀ c k, tally c (s :: k) → tally c (s' :: k)).
  { intros c k. unfold tally. setoid_rewrite num_cons. cbn [length]. by rewrite Ht, He, Hs. }
  split; [by apply Htally|]. intros ns' Hne. specialize (Hns ns' Hne).
  rewrite filter_in_ns in *. case_decide; [by apply Htally|done].
Qed.

Section count_lemmas.
Context {GVK : Type} `{Countable GVK} {Obj : Type} (Accessor : Obj → option Metadata).
Context (SummarizeWithOptions : bool → Obj → summary.Summary).
Implicit Types (schema : APISchema (GVK := GVK)) (obj : Obj) (objs : list Obj).
Abbreviation Info := (getInfo Accessor SummarizeWithOptions).

(** The namespace and the summary of an object the user may count. *)
Definition counted schema obj : option (string * summary.Summary) :=
  i ← Info obj schema;
  if may_count (s_Access schema) i then Some (i_ns i, i_summary i) else None.
Definition counted_objects schema objs : list (string * summary.Summary) := omap (counted schema) objs.

#[export] Instance counted_objects_perm schema : Proper ((≡ₚ) ==> (≡ₚ)) (counted_objects schema).
Proof. intros l l' Hl. unfold counted_objects. by rewrite Hl. Qed.

Lemma count_objects_tally schema objs st l :
  item_tally st.2 l →
  item_tally (foldl (count_object Accessor SummarizeWithOptions schema) st objs).2 (counted_objects schema objs ++ l).
Proof.
  revert st l. induction objs as [|obj objs IH]; intros st l Hst; [done|].
  unfold counted_objects. cbn [foldl omap list_omap]. unfold count_object at 2, counted at 1.
  destruct (Info obj schema) as [i|]; cbn [mbind option_bind]; [|by apply IH].
  destruct (may_count _ _); [|by apply IH]. cbn [app].
  rewrite Permutation_middle. apply IH. by apply addCounts_tally.
Qed.

Lemma count_schema_tally ccache_List schema :
  item_tally (count_schema Accessor SummarizeWithOptions ccache_List schema)
    (counted_objects schema (ccache_List (s_GVK schema))).
Proof.
  unfold count_schema. rewrite <- (app_nil_r (counted_objects _ _)).
  pose proof (count_objects_tally schema (ccache_List (s_GVK schema)) (0%Z, mkItemCount zero_Summary ∅ 0) []) as Ht.
  destruct (foldl _ _ _) as [rev ic]. apply Ht. split; [apply tally_zero|]. intros ns _. cbn.
  rewrite lookup_empty. apply tally_zero.
Qed.

Lemma foldl_insert_lookup {A} (f : APISchema (GVK := GVK) → A) l (m : gmap string A) schema :
  NoDup (s_ID <$> l) → schema ∈ l →
  foldl (λ c s, <[s_ID s := f s]> c) m l !! s_ID schema = Some (f schema).
Proof.
  induction l as [|s l IH] using rev_ind; intros Hnd Hin; [by apply not_elem_of_nil in Hin|].
  rewrite foldl_app. cbn [foldl]. rewrite fmap_app in Hnd. apply list.NoDup_app in Hnd as (Hnd & Hd & _).
  rewrite elem_of_app, list_elem_of_singleton in Hin.
  destruct Hin as [Hin| ->]; [|by rewrite lookup_insert_eq].
  rewrite lookup_insert_ne; [by apply IH|]. intros Heq. apply (Hd (s_ID s)); [|by left].
  rewrite Heq. by apply list_elem_of_fmap_2.
Qed.

Lemma getCount_lookup Schemas CanList CanWatch ccache_List schema :
  NoDup (s_ID <$> Schemas) → schema ∈ schemasToWatch Schemas CanList CanWatch →
  c_Counts (getCount Accessor SummarizeWithOptions Schemas CanList CanWatch ccache_List) !! s_ID schema =
  Some (count_schema Accessor SummarizeWithOptions ccache_List schema).
Proof.
  intros Hnd Hin. apply foldl_insert_lookup; [|done]. unfold schemasToWatch. clear Hin.
  induction Schemas as [|s l IH]; [done|]. cbn in Hnd. apply list.NoDup_cons in Hnd as [Hs Hnd].
  cbn [List.filter]. case_match; [|by apply IH]. cbn. apply list.NoDup_cons. split; [|by apply IH].
  intros Hin. apply Hs. apply list_elem_of_fmap in Hin as (s' & -> & Hin). apply elem_of_list_filter in Hin.
  apply list_elem_of_fmap_2. tauto.
Qed.

Lemma Watch_lookup `{MapRange} LookupSchema start schema :
  is_Some (c_Counts start !! s_ID schema) → LookupSchema (s_ID schema) = Some schema →
  (∀ id schema', LookupSchema id = Some schema' → s_GVK schema' = s_GVK schema → schema' = schema) →
  gvkToSchema (Watch LookupSchema start) !! s_GVK schema = Some schema.
Proof.
  intros Hstart Hlookup Hunique. cbn. rewrite <- elem_of_range_keys in Hstart.
  enough (Hm : ∀ l m, s_ID schema ∈ l ∨ m !! s_GVK schema = Some schema →
    foldl (λ m id, match LookupSchema id with None => m | Some s => <[s_GVK s := s]> m end) m l
      !! s_GVK schema = Some schema) by (apply Hm; by left).
  clear Hstart start. induction l as [|id l IH]; intros m Hin; cbn [foldl].
  - destruct Hin as [?%not_elem_of_nil|?]; done.
  - apply IH. rewrite elem_of_cons in Hin. destruct (LookupSchema id) as [s|] eqn:Hs.
    + destruct (decide (s_GVK s = s_GVK schema)) as [Heq|Hne].
      * right. rewrite (Hunique id s Hs Heq). apply lookup_insert_eq.
      * rewrite lookup_insert_ne by done. destruct Hin as [[<-|?]|?]; [|by left|by right]. congruence.
    + destruct Hin as [[<-|?]|?]; [congruence|by left|by right].
Qed.
End count_lemmas.

(** ** Events of the cluster *)
Section count_events.
Context {GVK : Type} `{Countable GVK} {Obj : Type} (Accessor : Obj → option Metadata).
Context (SummarizeWithOptions : bool → Obj → summary.Summary) (schema : APISchema (GVK := GVK)).
Implicit Types (obj : Obj) (objs : list Obj) (c : change (Obj := Obj)) (cs : list (change (Obj := Obj)))
  (ic : ItemCount) (w : count_watch (GVK := GVK)).
Abbreviation Counted := (counted Accessor SummarizeWithOptions schema).

(** An event after version [rev] of an object the user may count; an object does not
    change its namespace. *)
Definition event_counted (rev : Z) c : Prop :=
  ∃ i, getInfo Accessor SummarizeWithOptions (ch_obj c) schema = Some i ∧
    may_count (s_Access schema) i = true ∧ (rev < i_revision i)%Z ∧
    ∀ old, ch_old c = Some old → ∃ s, Counted old = Some (i_ns i, s).

(** The objects before and after an event. The object of a removal may be a later version
    of the removed one that counts the same. *)
Definition event_objects (objs : list Obj) c (objs' : list Obj) : Prop :=
  match ch_type c with
  | Added => objs' ≡ₚ ch_obj c :: objs
  | Modified => ∃ old rest, ch_old c = Some old ∧ objs ≡ₚ old :: rest ∧ objs' ≡ₚ ch_obj c :: rest
  | Deleted => ∃ old, Counted old = Counted (ch_obj c) ∧ objs ≡ₚ old :: objs'
  end.

Inductive events_objects (rev : Z) : list Obj → list change → list Obj → Prop :=
  | events_nil objs : events_objects rev objs [] objs
  | events_cons objs c objs1 cs objs2 :
      event_counted rev c → event_objects objs c objs1 → events_objects rev objs1 cs objs2 →
      events_objects rev objs (c :: cs) objs2.

Definition watching w ic (l : list Obj) : Prop :=
  result_open w = true ∧ gvkToSchema w !! s_GVK schema = Some schema ∧
  counts w !! s_ID schema = Some ic ∧ item_tally ic (counted_objects Accessor SummarizeWithOptions schema l).

Lemma counted_info obj i : getInfo Accessor SummarizeWithOptions obj schema = Some i →
  may_count (s_Access schema) i = true → Counted obj = Some (i_ns i, i_summary i).
Proof. intros Hi Hm. unfold counted. rewrite Hi. cbn. by rewrite Hm. Qed.

Lemma counted_objects_cons obj objs x : Counted obj = Some x →
  counted_objects Accessor SummarizeWithOptions schema (obj :: objs) =
  x :: counted_objects Accessor SummarizeWithOptions schema objs.
Proof. intros Hx. unfold counted_objects. cbn [omap list_omap]. by rewrite Hx. Qed.

Lemma counted_old old ns s : Counted old = Some (ns, s) →
  ∃ o, getInfo Accessor SummarizeWithOptions old schema = Some o ∧ i_ns o = ns ∧ i_summary o = s.
Proof.
  unfold counted. destruct (getInfo _ _ _ _) as [o|]; [|done]. cbn. case_match; [|done].
  intros [= <- <-]. by exists o.
Qed.

(** The counts after an event count the objects after it. *)
Lemma changed_counts_tally ic objs c objs' i :
  getInfo Accessor SummarizeWithOptions (ch_obj c) schema = Some i →
  event_counted (Revision ic) c → event_objects objs c objs' →
  item_tally ic (counted_objects Accessor SummarizeWithOptions schema objs) →
  let ic' := changed_counts Accessor SummarizeWithOptions
    (match ch_type c with Deleted => false | _ => true end) schema i
    (match ch_type c with Modified => ch_old c | _ => None end) ic in
  item_tally (default ic ic') (counted_objects Accessor SummarizeWithOptions schema objs') ∧
  (∀ ic1, ic' = Some ic1 → Revision ic1 = Revision ic).
Proof.
  intros Hi (i' & Hi' & Hm & _ & Hold) Hobjs Ht. rewrite Hi in Hi'. injection Hi' as <-.
  pose proof (counted_info _ _ Hi Hm) as Hc. unfold event_objects in Hobjs. unfold changed_counts.
  destruct (ch_type c).
  - split; [|by intros ? [= <-]]. cbn. rewrite Hobjs, (counted_objects_cons _ _ _ Hc). by apply addCounts_tally.
  - destruct Hobjs as (old & rest & Heq & Hobjs & Hobjs'). rewrite Heq.
    destruct (Hold old Heq) as [s Hs]. destruct (counted_old _ _ _ Hs) as (o & -> & _ & ->).
    rewrite Hobjs, (counted_objects_cons _ _ _ Hs) in Ht.
    rewrite Hobjs', (counted_objects_cons _ _ _ Hc). destruct (same_summary s (i_summary i)) eqn:Hsame.
    + split; [by eapply same_summary_tally|done].
    + split; [|by intros ? [= <-]]. by apply addCounts_tally, removeCounts_tally.
  - destruct Hobjs as (old & Heq & Hobjs). split; [|by intros ? [= <-]].
    rewrite Hobjs in Ht. rewrite (counted_objects_cons _ _ (i_ns i, i_summary i)) in Ht by congruence.
    by apply removeCounts_tally.
Qed.

Lemma handle_watching w ic objs c objs' :
  watching w ic objs → event_counted (Revision ic) c → event_objects objs c objs' →
  ∃ ic', watching (handle Accessor SummarizeWithOptions (s_GVK schema) c w).1 ic' objs' ∧ Revision ic' = Revision ic.
Proof.
  intros (Hopen & Hgvk & Hic & Ht) Hev Hobjs. pose proof Hev as (i & Hi & _ & Hrev & _).
  destruct (changed_counts_tally ic objs c objs' i Hi Hev Hobjs Ht) as [Ht' Hrev'].
  assert (Hhandle : handle Accessor SummarizeWithOptions (s_GVK schema) c w =
    onChange Accessor SummarizeWithOptions (match ch_type c with Deleted => false | _ => true end) (s_GVK schema)
      (ch_obj c) (match ch_type c with Modified => ch_old c | _ => None end) w)
    by (unfold handle; by destruct (ch_type c)).
  rewrite Hhandle. unfold onChange. rewrite Hopen, Hgvk, Hi, Hic. cbn [negb default from_option id].
  rewrite bool_decide_eq_false_2 by lia.
  destruct (changed_counts _ _ _ _ _ _ _) as [ic'|] eqn:Hc; cbn [fst default from_option id] in *.
  - exists ic'. split; [|by apply Hrev']. split_and!; [done..| |done]. cbn. apply lookup_insert_eq.
  - exists ic. by split_and!.
Qed.

Lemma handle_all_watching w ic objs cs objs' :
  watching w ic objs → events_objects (Revision ic) objs cs objs' →
  ∃ ic', watching (handle_all Accessor SummarizeWithOptions (s_GVK schema) cs w) ic' objs'.
Proof.
  intros Hw Hcs. remember (Revision ic) as rev eqn:Hrev. revert w ic Hw Hrev.
  induction Hcs as [objs|objs c objs1 cs objs2 Hev Hobjs _ IH]; intros w ic Hw ->; [by exists ic|].
  destruct (handle_watching w ic objs c objs1 Hw Hev Hobjs) as (ic1 & Hw1 & Hrev1).
  apply (IH _ ic1 Hw1). done.
Qed.
End count_events.

(** ** Debouncing *)

(** What a consumer of counts stores: the last counts of each schema. *)
Definition view (l : list CountT) : gmap string ItemCount :=
  foldl (λ m c, c_Counts c ∪ m) ∅ l.
Definition inputs (events : list debounce_event) : list CountT :=
  omap (λ e, match e with Input c => Some c | Tick => None end) events.
Definition delivered (st : list CountT * option CountT) : list CountT :=
  st.1 ++ match st.2 with Some c => [c] | None => [] end.

Lemma view_snoc l c : view (l ++ [c]) = c_Counts c ∪ view l.
Proof. unfold view. by rewrite foldl_app. Qed.

Lemma debounce_step_view st e :
  view (delivered (debounce_step st e)) =
  match e with Input c => c_Counts c ∪ view (delivered st) | Tick => view (delivered st) end.
Proof.
  destruct st as [sent [current|]], e as [c|]; unfold delivered; cbn [debounce_step fst snd];
    rewrite ?app_nil_r, ?view_snoc; cbn [c_Counts]; by rewrite ?assoc_L by apply _.
Qed.

(** * Theorems *)

(** C37: The counts a watch starts with count the objects of each watched schema that the user may see, in total and by
    namespace; after any sequence of events, each of an object that the user may see, of the namespace it had before, and
    with a revision after that of the start, the counts it maintains count the objects there are then, when schemas have different IDs and the
    kind has one schema. Events of other objects are counted as well ([counts_ignore_access]). *)
Theorem counts_track `{MapRange} {GVK} `{Countable GVK} {Obj} (Accessor : Obj → option Metadata)
    SummarizeWithOptions Schemas CanList CanWatch ccache_List LookupSchema
    (schema : APISchema (GVK := GVK)) :
  NoDup (s_ID <$> Schemas) → schema ∈ schemasToWatch Schemas CanList CanWatch →
  LookupSchema (s_ID schema) = Some schema →
  (∀ id s, LookupSchema id = Some s → s_GVK s = s_GVK schema → s = schema) →
  let start := getCount Accessor SummarizeWithOptions Schemas CanList CanWatch ccache_List in
  let objs := ccache_List (s_GVK schema) in
  let Counted := counted_objects Accessor SummarizeWithOptions schema in
  ∃ ic, c_Counts start !! s_ID schema = Some ic ∧ item_tally ic (Counted objs) ∧
    ∀ cs objs', events_objects Accessor SummarizeWithOptions schema (Revision ic) objs cs objs' →
      ∃ ic', counts (handle_all Accessor SummarizeWithOptions (s_GVK schema) cs
               (Watch LookupSchema start)) !! s_ID schema = Some ic' ∧
        item_tally ic' (Counted objs').
Proof.
  intros Hnd Hin Hlookup Hunique. cbn zeta.
  pose proof (getCount_lookup Accessor SummarizeWithOptions Schemas CanList CanWatch ccache_List schema Hnd Hin) as Hic.
  eexists. split; [exact Hic|]. split; [apply count_schema_tally|]. intros cs objs' Hcs.
  eapply handle_all_watching in Hcs as (ic' & _ & _ & Hic' & Ht); [by exists ic'|].
  split_and!; [done|by apply Watch_lookup|exact Hic|apply count_schema_tally].
Qed.

(** The events are counted whether or not the user may see the object: when an object
    the user may see neither by list nor by get is added, counting again gives the same
    numbers, but the watch sends a count that is one higher. *)
Theorem counts_ignore_access {GVK} `{Countable GVK} {Obj} (Accessor : Obj → option Metadata)
    SummarizeWithOptions (schema : APISchema (GVK := GVK)) w ic obj i objs :
  result_open w = true → gvkToSchema w !! s_GVK schema = Some schema →
  counts w !! s_ID schema = Some ic →
  getInfo Accessor SummarizeWithOptions obj schema = Some i → (Revision ic < i_revision i)%Z →
  may_count (s_Access schema) i = false →
  counted_objects Accessor SummarizeWithOptions schema (obj :: objs) =
    counted_objects Accessor SummarizeWithOptions schema objs ∧
  ∃ ic', (handle Accessor SummarizeWithOptions (s_GVK schema) (mkChange Added None obj) w).2 =
      Some (mkCount "count" {[s_ID schema := ic']}) ∧
    Count (ic_Summary ic') = (Count (ic_Summary ic) + 1)%Z.
Proof.
  intros Hopen Hgvk Hic Hi Hrev Hm. split.
  - unfold counted_objects. cbn [omap list_omap]. unfold counted at 1. rewrite Hi. cbn [mbind option_bind].
    by rewrite Hm.
  - unfold handle, onChange. cbn [ch_type ch_obj]. rewrite Hopen, Hgvk, Hi, Hic.
    cbn [negb default from_option id]. rewrite bool_decide_eq_false_2 by lia. cbn [changed_counts snd].
    by eexists.
Qed.

(** Whatever the times of the ticker, the counts the debouncer has sent, with the one
    it holds, leave a consumer with the same counts as all counts it has received, and
    after a tick it holds none. *)
Theorem debounce_keeps_last firstCount events :
  view (delivered (debounceCounts firstCount events)) = view (firstCount :: inputs events) ∧
  (debounceCounts firstCount (events ++ [Tick])).2 = None ∧
  length (debounceCounts firstCount events).1 ≤
    S (length (List.filter (λ e, match e with Tick => true | _ => false end) events)).
Proof.
  unfold debounceCounts. split_and!.
  - induction events as [|e events IH] using rev_ind; [done|].
    rewrite foldl_app. cbn [foldl]. rewrite debounce_step_view, IH. unfold inputs.
    rewrite omap_app. destruct e as [c|]; cbn [omap list_omap].
    + by rewrite app_comm_cons, view_snoc.
    + by rewrite app_nil_r.
  - rewrite foldl_app. cbn [foldl]. by destruct (foldl _ _ _) as [sent [c|]].
  - induction events as [|e events IH] using rev_ind; [done|].
    rewrite foldl_app, List.filter_app, length_app. cbn [foldl].
    destruct (foldl _ _ _) as [sent [c|]], e; cbn in *; rewrite ?length_app; cbn; lia.
Qed.

(** * A user who may list the pods of the namespace "team" *)
Module CountsExample.
Import Concrete.
Definition pod (ns name rv : string) : Metadata := mkMetadata name ns ∅ rv.
(* an object whose name is "bad" has an error *)
Definition summarize (observed : bool) (m : Metadata) : summary.Summary :=
  summary.mkSummary (String.eqb (WatchEvents.GetName m) "bad") false.
Definition pods : APISchema (GVK := string) :=
  mkAPISchema "pod" "Pod" true false {[ "list" := [mkAccess "team" "*"] ]}.
Definition cluster (gvk : string) : list Metadata := [pod "team" "web" "1"; pod "ops" "cron" "2"].
Definition lookup (id : string) : option (APISchema (GVK := string)) :=
  if String.eqb id "pod" then Some pods else None.
Definition start : CountT := getCount Some summarize [pods] (λ _, true) (λ _, true) cluster.
Definition created : change := mkChange Added None (pod "team" "bad" "3").

Lemma run : events_objects Some summarize pods 1 (cluster "Pod") [created] (pod "team" "bad" "3" :: cluster "Pod").
Proof.
  eapply events_cons; [| |apply events_nil]; [|apply Permutation_refl].
  exists (mkInfo "bad" "team" 3 (summary.mkSummary true false)). by split_and!.
Defined.

Lemma counts_track_witness :
  ∃ ic', counts (handle_all Some summarize "Pod" [created] (Watch lookup start)) !! "pod" = Some ic' ∧
    item_tally ic' [("team", summary.mkSummary true false); ("team", summary.mkSummary false false)].
Proof.
  destruct (counts_track Some summarize [pods] (λ _, true) (λ _, true) cluster lookup pods)
    as (ic & Hic & _ & Hrun).
  - by repeat constructor; apply not_elem_of_nil.
  - by left.
  - done.
  - unfold lookup. intros id s. by case_match; intros [= <-].
  - change (Some (count_schema Some summarize cluster pods) = Some ic) in Hic. injection Hic as <-.
    destruct (Hrun [created] _ run) as (ic' & Hic' & Ht). exists ic'. split; [exact Hic'|]. exact Ht.
Defined.

Definition watching_pods := Watch lookup start.

Lemma counts_ignore_access_witness :
  ∃ ic', (handle Some summarize "Pod" (mkChange Added None (pod "ops" "vault" "3")) watching_pods).2 =
      Some (mkCount "count" {["pod" := ic']}) ∧ Count (ic_Summary ic') = 2%Z.
Proof.
  by apply (counts_ignore_access Some summarize pods watching_pods
    (count_schema Some summarize cluster pods) (pod "ops" "vault" "3")
    (mkInfo "vault" "ops" 3 (summary.mkSummary false false)) (cluster "Pod")).
Defined.
End CountsExample.
