(* ===== verification/SummaryCache.v ===== *)
(** * Relationships between objects: pkg/summarycache/summarycache.go

    The cache keeps the summary of every object by its key, and an index from the key of an
    object to the summaries that refer to it. A formatted object gets its own relationships
    and the reverse of those of the objects that refer to it. Changes of relationships are
    sent to the subscribed watches through buffered channels. *)
From S2P Require Import Prelude GoLib KubeTypes.
From S2P Require QueryParser.

(** metav1.LabelSelector. *)
Record LabelSelectorRequirement := mkRequirement {
  LR_Key : string; LR_Operator : string; LR_Values : list string }.
Record LabelSelector := mkSelector {
  MatchLabels : gmap string string; MatchExpressions : list LabelSelectorRequirement }.
#[export] Instance LabelSelectorRequirement_eq_dec : EqDecision LabelSelectorRequirement.
Proof. solve_decision. Defined.
#[export] Instance LabelSelector_eq_dec : EqDecision LabelSelector.
Proof. solve_decision. Defined.

(** summary.Relationship of wrangler. *)
Record summary_Relationship := mkRel {
  r_Name : string;
  r_Namespace : string;
  r_ControlledBy : bool;
  r_Kind : string;
  r_APIVersion : string;
  r_Inbound : bool;
  r_Type : string;
  r_Selector : option LabelSelector
}.
#[export] Instance summary_Relationship_eq_dec : EqDecision summary_Relationship.
Proof. solve_decision. Defined.

(** summary.SummarizedObject: the metadata, the kind and the summary of an object. *)
Record SummarizedObject := mkSummarized {
  so_Name : string;
  so_Namespace : string;
  so_Kind : string;
  so_APIVersion : string;
  so_State : string;
  so_Error : bool;
  so_Transitioning : bool;
  so_Message : list string;
  so_Relationships : list summary_Relationship
}.

(** [Relationship]: what the formatter shows. *)
Record Relationship := mkRelationship {
  ToID : string; ToType : string; ToNamespace : string;
  FromID : string; FromType : string;
  Rel : string; Selector : string;
  State : string; Message : string; Error : bool; Transitioning : bool
}.

(** What the cache reads of a schema. *)
Record APISchema := mkSchema { Namespaced : bool; HasObservedGeneration : bool }.

(** The library functions that read an object: its kind, the name and namespace of its
    metadata, if it has any, and its summary; and the text of a label selector. *)
Class Summaries (Obj : Type) := {
  object_GVK : Obj → GroupVersionKind;
  object_meta : Obj → option (string * string);
  SummarizedWithOptions : bool → Obj → SummarizedObject;
  LabelSelectorAsSelector : LabelSelector → option string;
  StringsEqual : list string → list string → bool
}.
Class SummariesLaws Obj `{Summaries Obj, KindNames} := {
  Summarized_GVK : ∀ b o, FromAPIVersionAndKind (so_APIVersion (SummarizedWithOptions b o))
    (so_Kind (SummarizedWithOptions b o)) = object_GVK o;
  Summarized_meta : ∀ b o, object_meta o =
    Some (so_Name (SummarizedWithOptions b o), so_Namespace (SummarizedWithOptions b o));
  StringsEqual_spec : ∀ l l', StringsEqual l l' = true ↔ l = l'
}.

(** [cache.ThreadSafeStore] with one index: items under keys, each with the values the index
    function had when it was stored. *)
Class ThreadSafeStore (O : Type) := {
  store : Type;
  store_empty : store;
  store_items : store → gmap string (O * list string);
  store_Update : string → O → list string → store → store;   (* Add and Update *)
  store_Delete : string → store → store;
  store_ByIndex : string → store → list O
}.
Class ThreadSafeStoreLaws O `{ThreadSafeStore O} := {
  items_empty : store_items store_empty = ∅;
  items_Update : ∀ k o vs s, store_items (store_Update k o vs s) = <[k := (o, vs)]> (store_items s);
  items_Delete : ∀ k s, store_items (store_Delete k s) = delete k (store_items s);
  ByIndex_items : ∀ v s, store_ByIndex v s ≡ₚ
    (filter (λ x : O * list string, v ∈ x.2) ((map_to_list (store_items s)).*2)).*1
}.

(** [converter.GVKToSchemaID]. *)
Definition GVKToSchemaID (gvk : GroupVersionKind) : string :=
  if bool_decide (Group gvk = "") then QueryParser.ToLower (Kind gvk)
  else QueryParser.ToLower (Group gvk +:+ "." +:+ Kind gvk).

Definition toKeyFrom (namespace name : string) (gvk : GroupVersionKind) : string :=
  join "," [Group gvk; Version gvk; Kind gvk; namespace; name].

Section cache.
Context {Obj : Type} `{Summaries Obj, KindNames, ThreadSafeStore SummarizedObject}.
(* the schemas the collection has now, and the objects the cluster cache has now *)
Context (schemas : string → option APISchema).
Context (Get : GroupVersionKind → string → string → option Obj).
Implicit Types (rel : summary_Relationship) (s summarized : SummarizedObject) (obj : Obj).

(** [FromAPIVersionAndKind] of a relationship and of a summary. *)
Definition rel_GVK rel : GroupVersionKind := FromAPIVersionAndKind (r_APIVersion rel) (r_Kind rel).
Definition so_GVK s : GroupVersionKind := FromAPIVersionAndKind (so_APIVersion s) (so_Kind s).

(** [toKey] of an object and of a summary. *)
Definition toKey obj : string :=
  let '(name, namespace) := default ("", "") (object_meta obj) in
  toKeyFrom namespace name (object_GVK obj).
Definition summary_key s : string := toKeyFrom (so_Namespace s) (so_Name s) (so_GVK s).

Definition getSummarizeOptions obj : bool :=
  match schemas (GVKToSchemaID (object_GVK obj)) with
  | Some schema => HasObservedGeneration schema
  | None => false
  end.
Definition summarize obj : SummarizedObject := SummarizedWithOptions (getSummarizeOptions obj) obj.

Definition resolveNamespace (sourceNamespace toNamespace : string) (gvk : GroupVersionKind)
    : string :=
  if bool_decide (toNamespace ≠ "") then toNamespace
  else match schemas (GVKToSchemaID gvk) with
    | Some schema => if Namespaced schema then sourceNamespace else toNamespace
    | None => toNamespace
    end.

Definition relationshipIndexer s : list string :=
  (λ rel, toKeyFrom (resolveNamespace (so_Namespace s) (r_Namespace rel) (rel_GVK rel))
            (r_Name rel) (rel_GVK rel)) <$> so_Relationships s.

Definition refersTo summarized rel : bool :=
  if negb (bool_decide (so_APIVersion summarized = r_APIVersion rel ∧
                        so_Kind summarized = r_Kind rel ∧ so_Name summarized = r_Name rel))
  then false
  else if bool_decide (so_Namespace summarized = "" ∧ r_Namespace rel = "") then true
  else bool_decide (so_Namespace summarized =
         resolveNamespace (so_Namespace summarized) (r_Namespace rel) (so_GVK summarized)).

Definition toSelector (sel : option LabelSelector) : string :=
  match sel with
  | None => ""
  | Some sel => default "" (LabelSelectorAsSelector sel)
  end.

Definition addObject (rel : Relationship) (obj : option Obj) : Relationship :=
  match obj with
  | None => rel
  | Some ro =>
      let s := summarize ro in
      mkRelationship (ToID rel) (ToType rel) (ToNamespace rel) (FromID rel) (FromType rel)
        (Rel rel) (Selector rel) (so_State s) (join "; " (so_Message s)) (so_Error s)
        (so_Transitioning s)
  end.

Definition toRel (ns : string) rel : Relationship :=
  let gvk := rel_GVK rel in
  let ns := resolveNamespace ns (r_Namespace rel) gvk in
  let id := if bool_decide (r_Name rel ≠ "" ∧ ns ≠ "") then ns +:+ "/" +:+ r_Name rel
            else r_Name rel in
  let obj := Get gvk ns (r_Name rel) in
  if r_Inbound rel then
    addObject (mkRelationship "" "" "" id (GVKToSchemaID gvk) (r_Type rel) "" "" "" false false) obj
  else
    let toNS := match r_Selector rel with Some _ => ns | None => "" end in
    addObject (mkRelationship id (GVKToSchemaID gvk) toNS "" "" (r_Type rel)
                 (toSelector (r_Selector rel)) "" "" false false) obj.

Definition reverseRel summarized rel : Relationship :=
  toRel (so_Namespace summarized)
    (mkRel (so_Name summarized) (so_Namespace summarized) false (so_Kind summarized)
       (so_APIVersion summarized) (negb (r_Inbound rel)) (r_Type rel) None).

(** The kinds for which the object has a relationship with a selector. *)
Definition selectors s : gset string :=
  list_to_set ((λ rel, r_APIVersion rel +:+ "/" +:+ r_Kind rel) <$>
    filter (λ rel, is_Some (r_Selector rel)) (so_Relationships s)).

Definition keeps summarized rel : bool :=
  refersTo summarized rel &&
  negb (r_Inbound rel && bool_decide ((r_APIVersion rel +:+ "/" +:+ r_Kind rel) ∈ selectors summarized)).

Definition SummaryAndRelationship obj (st : store) : SummarizedObject * list Relationship :=
  let summarized := summarize obj in
  (summarized,
   (toRel (so_Namespace summarized) <$> so_Relationships summarized) ++
   (store_ByIndex (toKey obj) st ≫= λ s, reverseRel s <$>
      filter (λ rel, keeps summarized rel = true) (so_Relationships s))).

(** [process]: the relationships of a known kind, with their namespaces. *)
Definition process_rel s rel : option summary_Relationship :=
  match schemas (GVKToSchemaID (rel_GVK rel)) with
  | None => None
  | Some schema => Some (
      if bool_decide (r_Namespace rel = "") && Namespaced schema
      then mkRel (r_Name rel) (so_Namespace s) (r_ControlledBy rel) (r_Kind rel) (r_APIVersion rel)
             (r_Inbound rel) (r_Type rel) (r_Selector rel)
      else rel)
  end.
Definition process obj : SummarizedObject * list summary_Relationship :=
  let s := summarize obj in (s, omap (process_rel s) (so_Relationships s)).

(** ** Comparing relationships *)
Definition reqEqual (l r : LabelSelectorRequirement) : bool :=
  bool_decide (LR_Key l = LR_Key r ∧ LR_Operator l = LR_Operator r) &&
  StringsEqual (LR_Values l) (LR_Values r).
Definition reqEquals (left right : list LabelSelectorRequirement) : bool :=
  bool_decide (length left = length right) && forallb (λ p, reqEqual p.1 p.2) (zip left right).

(** [left[k]] is the empty string for a key that is missing. *)
Definition mapEquals (left right : gmap string string) : bool :=
  bool_decide (size left = size right) &&
  forallb (λ p, bool_decide (default "" (left !! p.1) = p.2)) (map_to_list right).

Definition selEquals (left right : option LabelSelector) : bool :=
  match left, right with
  | None, None => true
  | Some l, Some r =>
      reqEquals (MatchExpressions l) (MatchExpressions r) &&
      mapEquals (MatchLabels l) (MatchLabels r)
  | _, _ => false
  end.

Definition relEquals (left right : summary_Relationship) : bool :=
  bool_decide (r_Name left = r_Name right ∧ r_Namespace left = r_Namespace right ∧
    r_ControlledBy left = r_ControlledBy right ∧ r_Kind left = r_Kind right ∧
    r_APIVersion left = r_APIVersion right ∧ r_Inbound left = r_Inbound right ∧
    r_Type left = r_Type right) && selEquals (r_Selector left) (r_Selector right).

(** ** The events of the cluster cache: the store and the relationships to notify *)
Definition Add obj (st : store) : store * list summary_Relationship :=
  let '(s, rels) := process obj in
  (store_Update (summary_key s) s (relationshipIndexer s) st, rels).
Definition Remove obj (st : store) : store * list summary_Relationship :=
  let '(s, rels) := process obj in (store_Delete (summary_key s) st, rels).
Definition Change newObj oldObj (st : store) : store * list summary_Relationship :=
  let oldRels := (process oldObj).2 in
  let '(s, rels) := process newObj in
  (store_Update (summary_key s) s (relationshipIndexer s) st,
   if bool_decide (length rels = length oldRels)
   then (filter (λ p, relEquals p.1 p.2 = false) (zip oldRels rels)).*2
   else []).

Inductive event := OnAdd (obj : Obj) | OnRemove (obj : Obj) | OnChange (obj oldObj : Obj).
Definition handle (st : store) (e : event) : store :=
  match e with
  | OnAdd obj => (Add obj st).1
  | OnRemove obj => (Remove obj st).1
  | OnChange obj oldObj => (Change obj oldObj st).1
  end.
Definition handle_all : list event → store := foldl handle store_empty.
End cache.
Arguments event : clear implicits.

(** ** Subscriptions

    Each subscription has two channels and a goroutine that moves the relationships it wants
    from the first to the second. Every relationship to notify gets a goroutine that holds the
    lock of the cache while it sends to all subscriptions. *)
Definition channel_size : nat := 100.

Record subscription := mkSubscription {
  sub_kind : string; sub_apiVersion : string; sub_namespace : string;
  sub_cb : list summary_Relationship;            (* the channel [cb] *)
  sub_hand : option summary_Relationship;        (* what the goroutine is about to send *)
  sub_ret : list summary_Relationship;           (* the channel [ret] *)
  sub_open : bool                                (* registered in [cbs] *)
}.

(** The callers of the cache, and where they are. *)
Inductive caller :=
  | Notify (rel : summary_Relationship)
  | Sending (rel : summary_Relationship) (to : list nat)
  | Subscribe (kind apiVersion namespace : string)
  | Unsubscribe (id : nat)                       (* the context of a watch is done *)
  | Read                                         (* SummaryAndRelationship *)
  | Finished.

Record bus := mkBus {
  b_lock : option nat;                           (* the caller that holds the lock *)
  b_cbID : nat;
  b_subs : gmap nat subscription;
  b_callers : list caller
}.

Section bus.
Context `{MapRange}.
Implicit Types (b : bus) (rel : summary_Relationship).

Definition wants (sub : subscription) rel : bool :=
  bool_decide (r_Kind rel = sub_kind sub ∧ r_APIVersion rel = sub_apiVersion sub ∧
    (sub_namespace sub = "" ∨ sub_namespace sub = r_Namespace rel)).

Definition with_channels (sub : subscription) cb hand ret : subscription :=
  mkSubscription (sub_kind sub) (sub_apiVersion sub) (sub_namespace sub) cb hand ret (sub_open sub).

(** The goroutine that filters: it takes a relationship, or sends the one it has. *)
Definition forward (sub : subscription) : option subscription :=
  match sub_hand sub, sub_cb sub with
  | Some rel, _ =>
      if decide (length (sub_ret sub) < channel_size)
      then Some (with_channels sub (sub_cb sub) None (sub_ret sub ++ [rel])) else None
  | None, rel :: cb =>
      Some (with_channels sub cb (if wants sub rel then Some rel else None) (sub_ret sub))
  | None, [] => None
  end.

(** [cb <- rel]. *)
Definition send rel (sub : subscription) : option subscription :=
  if decide (length (sub_cb sub) < channel_size)
  then Some (with_channels sub (sub_cb sub ++ [rel]) (sub_hand sub) (sub_ret sub)) else None.

Definition consume (sub : subscription) : option subscription :=
  match sub_ret sub with
  | [] => None
  | _ :: ret => Some (with_channels sub (sub_cb sub) (sub_hand sub) ret)
  end.

Definition close_sub (sub : subscription) : subscription :=
  mkSubscription (sub_kind sub) (sub_apiVersion sub) (sub_namespace sub) (sub_cb sub)
    (sub_hand sub) (sub_ret sub) false.

Definition set_caller (t : nat) (c : caller) (l : list caller) : list caller := <[t := c]> l.

(** The next step of a caller; [None] when it has to wait. *)
Definition call_step (t : nat) b : option bus :=
  match b_callers b !! t, b_lock b with
  | Some (Notify rel), None =>
      Some (mkBus (Some t) (b_cbID b) (b_subs b) (set_caller t
        (Sending rel (range_keys (filter (λ x, sub_open x.2 = true) (b_subs b)))) (b_callers b)))
  | Some (Sending rel (id :: to)), _ =>
      sub ← b_subs b !! id; sub ← send rel sub;
      Some (mkBus (b_lock b) (b_cbID b) (<[id := sub]> (b_subs b))
              (set_caller t (Sending rel to) (b_callers b)))
  | Some (Sending rel []), _ =>
      Some (mkBus None (b_cbID b) (b_subs b) (set_caller t Finished (b_callers b)))
  | Some (Subscribe kind v ns), None =>
      Some (mkBus None (S (b_cbID b))
        (<[b_cbID b := mkSubscription kind v ns [] None [] true]> (b_subs b))
        (set_caller t Finished (b_callers b)))
  | Some (Unsubscribe id), None =>
      sub ← b_subs b !! id;
      Some (mkBus None (b_cbID b) (<[id := close_sub sub]> (b_subs b))
              (set_caller t Finished (b_callers b)))
  | Some Read, None =>
      Some (mkBus None (b_cbID b) (b_subs b) (set_caller t Finished (b_callers b)))
  | _, _ => None
  end.

Inductive action := ACall (t : nat) | AForward (id : nat) | AConsume (id : nat).

Definition on_sub (f : subscription → option subscription) (id : nat) b : option bus :=
  sub ← b_subs b !! id; sub ← f sub;
  Some (mkBus (b_lock b) (b_cbID b) (<[id := sub]> (b_subs b)) (b_callers b)).

Definition exec (a : action) b : option bus :=
  match a with
  | ACall t => call_step t b
  | AForward id => on_sub forward id b
  | AConsume id => on_sub consume id b
  end.
Fixpoint exec_all (l : list action) b : option bus :=
  match l with
  | [] => Some b
  | a :: l => b ← exec a b; exec_all l b
  end.
End bus.

(** * Lemmas *)
Definition no_comma (x : string) : Prop := has_char "," x = false.

Definition plain_key (namespace name : string) (gvk : GroupVersionKind) : Prop :=
  Forall no_comma [Group gvk; Version gvk; Kind gvk; namespace; name].

(** Keys of parts without a comma determine the parts. *)
Lemma toKeyFrom_inj ns n gvk ns' n' gvk' :
  plain_key ns n gvk → plain_key ns' n' gvk' →
  toKeyFrom ns n gvk = toKeyFrom ns' n' gvk' → ns = ns' ∧ n = n' ∧ gvk = gvk'.
Proof.
  intros Hk Hk' Heq. apply (f_equal (split_on ",")) in Heq. unfold toKeyFrom in Heq.
  change "," with (String "," "") in Heq. rewrite !split_on_join in Heq by done.
  destruct gvk, gvk'. cbn in Heq. by simplify_eq.
Qed.

(** A bind over a filtered list is one over the whole list that has nothing to say about the
    other elements. *)
Lemma bind_filter {A B} (P : A → Prop) `{!∀ x, Decision (P x)} (f g : A → list B) l :
  (∀ x, x ∈ l → P x → f x = g x) → (∀ x, x ∈ l → ¬ P x → g x = []) →
  filter P l ≫= f = l ≫= g.
Proof.
  induction l as [|x l IH]; intros Hf Hg; [done|]. rewrite list.filter_cons.
  assert (filter P l ≫= f = l ≫= g) as Hl.
  { apply IH; intros y Hy; [apply Hf|apply Hg]; by right. }
  destruct (decide (P x)) as [Hx|Hx]; csimpl; rewrite Hl.
  - rewrite (Hf x) by (done || left). done.
  - rewrite (Hg x) by (done || left). done.
Qed.

Lemma filter_ext_elem {A} (P Q : A → Prop) `{!∀ x, Decision (P x), !∀ x, Decision (Q x)} (l : list A) :
  (∀ x, x ∈ l → P x ↔ Q x) → filter P l = filter Q l.
Proof.
  induction l as [|x l IH]; intros Hpq; [done|]. rewrite !list.filter_cons.
  rewrite IH by (intros; apply Hpq; by right).
  rewrite (decide_ext (P x) (Q x)); [done|]. apply Hpq. left.
Qed.

Lemma filter_none {A} (P : A → Prop) `{!∀ x, Decision (P x)} (l : list A) :
  (∀ x, x ∈ l → ¬ P x) → filter P l = [].
Proof.
  induction l as [|x l IH]; intros Hp; [done|]. rewrite list.filter_cons, decide_False.
  - apply IH. intros. apply Hp. by right.
  - apply Hp. left.
Qed.

Lemma filter_fmap {A B} (f : A → B) (P : B → Prop) `{!∀ x, Decision (P x)} (l : list A) :
  filter P (f <$> l) = f <$> filter (λ x, P (f x)) l.
Proof.
  induction l as [|x l IH]; [done|]. rewrite fmap_cons, !list.filter_cons, IH.
  by destruct (decide (P (f x))).
Qed.

Section cache_lemmas.
Context {Obj : Type} `{SummariesLaws Obj, !ThreadSafeStore SummarizedObject,
  !ThreadSafeStoreLaws SummarizedObject}.
Context (schemas : string → option APISchema).
Context (Get : GroupVersionKind → string → string → option Obj).
Implicit Types (rel : summary_Relationship) (s : SummarizedObject) (obj : Obj)
  (es : list (event Obj)).

(** An API version and a kind that are the ones of their group, version and kind. *)
Definition canonical (v k : string) : Prop :=
  ToAPIVersionAndKind (FromAPIVersionAndKind v k) = (v, k).

(** The key of the object a relationship is about, seen from the object that has it. *)
Definition target_namespace s rel : string :=
  resolveNamespace schemas (so_Namespace s) (r_Namespace rel) (rel_GVK rel).
Definition target s rel : string :=
  toKeyFrom (target_namespace s rel) (r_Name rel) (rel_GVK rel).

Definition rel_ok s rel : Prop :=
  canonical (r_APIVersion rel) (r_Kind rel) ∧
  plain_key (target_namespace s rel) (r_Name rel) (rel_GVK rel).
Definition summary_ok s : Prop :=
  canonical (so_APIVersion s) (so_Kind s) ∧ plain_key (so_Namespace s) (so_Name s) (so_GVK s).

(** The relationships to objects of one kind and name are about one object. *)
Definition unambiguous s : Prop :=
  ∀ rel rel', rel ∈ so_Relationships s → rel' ∈ so_Relationships s →
    rel_GVK rel = rel_GVK rel' → r_Name rel = r_Name rel' →
    target_namespace s rel = target_namespace s rel'.

Lemma canonical_inj v k v' k' : canonical v k → canonical v' k' →
  FromAPIVersionAndKind v k = FromAPIVersionAndKind v' k' → v = v' ∧ k = k'.
Proof. unfold canonical. intros Hk Hk' Heq. rewrite Heq, Hk' in Hk. by simplify_eq. Qed.

Lemma resolveNamespace_idem ns to gvk :
  resolveNamespace schemas (resolveNamespace schemas ns to gvk) to gvk =
  resolveNamespace schemas ns to gvk.
Proof.
  unfold resolveNamespace. destruct (bool_decide _); [done|].
  by destruct (schemas _) as [[[] ?]|].
Qed.

Lemma refersTo_spec s rel : refersTo schemas s rel = true ↔
  so_APIVersion s = r_APIVersion rel ∧ so_Kind s = r_Kind rel ∧ so_Name s = r_Name rel ∧
  so_Namespace s = resolveNamespace schemas (so_Namespace s) (r_Namespace rel) (so_GVK s).
Proof.
  unfold refersTo. case_bool_decide as Hid; cbn; [|naive_solver].
  case_bool_decide as Hns; [|rewrite bool_decide_eq_true; naive_solver].
  split; [|done]. intros _. destruct Hid as (? & ? & ?), Hns as [-> ->].
  repeat (split; [done|]). unfold resolveNamespace.
  rewrite bool_decide_eq_false_2 by naive_solver. by destruct (schemas _) as [[[] ?]|].
Qed.

(** A relationship about the object refers to it, and the other way around when the object
    that has it is indexed under the object. *)
Lemma refersTo_target s0 s rel : summary_ok s0 → rel_ok s rel →
  target s rel = summary_key s0 → refersTo schemas s0 rel = true.
Proof.
  intros [Hc0 Hp0] [Hc Hp] Heq. apply toKeyFrom_inj in Heq as (Hns & Hn & Hg); [|done..].
  destruct (canonical_inj _ _ _ _ Hc Hc0 Hg) as [Hv Hk].
  apply refersTo_spec. split; [done|]. split; [done|]. split; [done|].
  rewrite <- Hns, <- Hg. symmetry. apply resolveNamespace_idem.
Qed.

Lemma target_refersTo s0 s rel rel' :
  summary_ok s0 → unambiguous s → rel ∈ so_Relationships s → rel' ∈ so_Relationships s →
  rel_ok s rel' → refersTo schemas s0 rel = true → target s rel' = summary_key s0 →
  target s rel = summary_key s0.
Proof.
  intros [Hc0 Hp0] Hs Hrel Hrel' [Hc' Hp'] Href Heq.
  pose proof Heq as (Hns & Hn & Hg)%toKeyFrom_inj; [|done..].
  apply refersTo_spec in Href as (Hv & Hk & Hn0 & _).
  assert (rel_GVK rel = rel_GVK rel') as Hg'.
  { rewrite Hg. unfold rel_GVK, so_GVK. by rewrite Hv, Hk. }
  unfold target in *. rewrite (Hs rel rel'), Hg' by congruence. congruence.
Qed.

Lemma keeps_refersTo s0 rel :
  (so_APIVersion s0 +:+ "/" +:+ so_Kind s0) ∉ selectors s0 →
  keeps schemas s0 rel = refersTo schemas s0 rel.
Proof.
  intros Hsel. unfold keeps. destruct (refersTo _ _ _) eqn:Href; [|done]. cbn.
  apply refersTo_spec in Href as (Hv & Hk & _). rewrite <- Hv, <- Hk.
  rewrite (bool_decide_eq_false_2 (_ ∈ selectors _)) by done. by rewrite andb_false_r.
Qed.

(** ** The store holds the summaries of the current objects *)
Definition object_key obj : string := summary_key (summarize schemas obj).
Definition current_step (m : gmap string Obj) (e : event Obj) : gmap string Obj :=
  match e with
  | OnAdd obj | OnChange obj _ => <[object_key obj := obj]> m
  | OnRemove obj => delete (object_key obj) m
  end.
Definition current : list (event Obj) → gmap string Obj := foldl current_step ∅.

Definition stored_summary obj : SummarizedObject * list string :=
  (summarize schemas obj, relationshipIndexer schemas (summarize schemas obj)).

Lemma handle_items st m e : store_items st = stored_summary <$> m →
  store_items (handle schemas st e) = stored_summary <$> current_step m e.
Proof.
  intros Hst. destruct e; cbn.
  - by rewrite items_Update, Hst, fmap_insert.
  - by rewrite items_Delete, Hst, fmap_delete.
  - by rewrite items_Update, Hst, fmap_insert.
Qed.

Lemma handle_all_items es : store_items (handle_all schemas es) = stored_summary <$> current es.
Proof.
  unfold handle_all, current.
  enough (Hf : ∀ st m, store_items st = stored_summary <$> m →
    store_items (foldl (handle schemas) st es) = stored_summary <$> foldl current_step m es).
  { apply Hf. by rewrite items_empty, fmap_empty. }
  induction es as [|e es IH]; intros st m Hst; cbn; [done|]. by apply IH, handle_items.
Qed.

Lemma ByIndex_current v es : store_ByIndex v (handle_all schemas es) ≡ₚ
  summarize schemas <$> filter (λ obj, v ∈ (stored_summary obj).2) ((map_to_list (current es)).*2).
Proof.
  rewrite ByIndex_items, handle_all_items, map_to_list_fmap.
  assert ((prod_map id stored_summary <$> map_to_list (current es)).*2 =
    stored_summary <$> (map_to_list (current es)).*2) as ->.
  { by rewrite <- !list_fmap_compose. }
  by rewrite filter_fmap, <- list_fmap_compose.
Qed.

(** The inbound relationships: all those of current objects that are about the object. *)
Definition inbound obj es : list Relationship :=
  ((map_to_list (current es)).*2) ≫= λ o, reverseRel schemas Get (summarize schemas o) <$>
    filter (λ rel, target (summarize schemas o) rel = toKey obj)
      (so_Relationships (summarize schemas o)).

Lemma toKey_summary obj : toKey obj = summary_key (summarize schemas obj).
Proof.
  unfold toKey, summary_key, summarize, so_GVK.
  rewrite (Summarized_meta (getSummarizeOptions schemas obj)). cbn.
  by rewrite Summarized_GVK.
Qed.

Lemma indexed_target v obj :
  v ∈ (stored_summary obj).2 ↔ ∃ rel, rel ∈ so_Relationships (summarize schemas obj) ∧
    target (summarize schemas obj) rel = v.
Proof.
  cbn. unfold relationshipIndexer. rewrite list_elem_of_fmap. unfold target, target_namespace.
  split; intros (rel & ? & ?); exists rel; by split.
Qed.

Lemma keeps_current s0 o : summary_ok s0 →
  (so_APIVersion s0 +:+ "/" +:+ so_Kind s0) ∉ selectors s0 →
  unambiguous (summarize schemas o) →
  Forall (rel_ok (summarize schemas o)) (so_Relationships (summarize schemas o)) →
  summary_key s0 ∈ (stored_summary o).2 →
  filter (λ rel, keeps schemas s0 rel = true) (so_Relationships (summarize schemas o)) =
  filter (λ rel, target (summarize schemas o) rel = summary_key s0)
    (so_Relationships (summarize schemas o)).
Proof.
  intros Hs0 Hsel Hun Hok (rel' & Hrel' & Ht')%indexed_target.
  rewrite list.Forall_forall in Hok. apply filter_ext_elem.
  intros rel Hrel. rewrite keeps_refersTo by done. split.
  - intros Href. by apply (target_refersTo s0 _ rel rel'); auto.
  - intros Ht. apply (refersTo_target s0 (summarize schemas o)); auto.
Qed.
End cache_lemmas.

(** ** Comparing relationships *)
Section equals.
Context {Obj : Type} `{SummariesLaws Obj}.

(** Every label of the selector has a value. *)
Definition labels_valued (rel : summary_Relationship) : Prop :=
  ∀ sel, r_Selector rel = Some sel → map_Forall (λ _ v, v ≠ "") (MatchLabels sel).

Lemma reqEqual_spec l r : reqEqual l r = true ↔ l = r.
Proof.
  unfold reqEqual. rewrite andb_true_iff, bool_decide_eq_true, StringsEqual_spec.
  destruct l, r; cbn. naive_solver.
Qed.

Lemma reqEquals_spec l r : reqEquals l r = true ↔ l = r.
Proof.
  unfold reqEquals. rewrite andb_true_iff, bool_decide_eq_true. revert r.
  induction l as [|x l IH]; intros [|y r]; cbn; try by (split; [intros [? _]|]).
  rewrite andb_true_iff, reqEqual_spec. specialize (IH r). naive_solver congruence.
Qed.

Lemma mapEquals_spec l r : map_Forall (λ _ v, v ≠ "") r → mapEquals l r = true ↔ l = r.
Proof.
  intros Hr. unfold mapEquals. rewrite andb_true_iff, bool_decide_eq_true, forallb_true. split.
  - intros [Hsize Hall].
    assert (r ⊆ l) as Hsub.
    { apply map_subseteq_spec. intros k v Hv.
      specialize (Hall (k, v) ltac:(by apply elem_of_map_to_list)).
      apply bool_decide_eq_true in Hall. cbn in Hall.
      destruct (l !! k) as [v'|]; cbn in Hall; [congruence|].
      by destruct (Hr k v Hv). }
    symmetry. by apply map_subseteq_size_eq; [|lia].
  - intros ->. split; [done|]. intros [k v] Hkv%elem_of_map_to_list. cbn.
    apply bool_decide_eq_true. by rewrite Hkv.
Qed.

Lemma relEquals_spec l r : labels_valued r → relEquals l r = true ↔ l = r.
Proof.
  intros Hr. unfold relEquals. rewrite andb_true_iff, bool_decide_eq_true.
  assert (selEquals (r_Selector l) (r_Selector r) = true ↔ r_Selector l = r_Selector r) as ->.
  { destruct (r_Selector l) as [sl|], (r_Selector r) as [sr|] eqn:Hsr; cbn; try done.
    rewrite andb_true_iff, reqEquals_spec, mapEquals_spec by (by apply Hr).
    destruct sl, sr; cbn. split; [by intros [-> ->]|by intros [= -> ->]]. }
  destruct l, r; cbn. split; [by intros [(-> & -> & -> & -> & -> & -> & ->) ->]|].
  by intros [= -> -> -> -> -> -> -> ->].
Qed.
End equals.

(** ** A subscription nobody reads from *)
Section blocked.
Context `{MapRange}.

(** Both channels are full and a notification that holds the lock waits for the first. *)
Definition blocked (id t : nat) (b : bus) : Prop :=
  ∃ rel to sub rel', b_lock b = Some t ∧ b_callers b !! t = Some (Sending rel (id :: to)) ∧
    b_subs b !! id = Some sub ∧ sub_hand sub = Some rel' ∧
    length (sub_cb sub) = channel_size ∧ length (sub_ret sub) = channel_size ∧
    ∀ u rel to, b_callers b !! u = Some (Sending rel to) → u = t.

(** The callers that need the lock. *)
Definition waits (c : caller) : Prop :=
  match c with Sending _ _ | Finished => False | _ => True end.

Lemma exec_blocked id t b a b' : blocked id t b → exec a b = Some b' → a ≠ AConsume id →
  blocked id t b' ∧ ∀ u c, b_callers b !! u = Some c → waits c → b_callers b' !! u = Some c.
Proof.
  intros (rel & to & sub & rel' & Hl & Ht & Hs & Hh & Hcb & Hret & Hsend) Ha Hne.
  assert (∀ id' f, on_sub f id' b = Some b' → id' ≠ id ∨ f sub = None →
    blocked id t b' ∧ ∀ u c, b_callers b !! u = Some c → waits c → b_callers b' !! u = Some c)
    as Hon.
  { unfold on_sub. intros id' f Hb' Hid.
    destruct (b_subs b !! id') as [s1|] eqn:Hs1; cbn in Hb'; [|done].
    destruct (f s1) as [s2|] eqn:Hf; cbn in Hb'; [|done]. injection Hb' as <-. cbn.
    destruct (decide (id' = id)) as [->|Hid']; [naive_solver congruence|].
    split; [|done]. exists rel, to, sub, rel'. cbn. by rewrite lookup_insert_ne. }
  destruct a as [u|id'|id']; cbn in Ha.
  - unfold call_step in Ha. rewrite Hl in Ha.
    destruct (b_callers b !! u) as [[|rel0 to0| | | |]|] eqn:Hu; try done.
    rewrite (Hsend u _ _ Hu) in Hu. rewrite Ht in Hu. injection Hu as <- <-.
    rewrite Hs in Ha. cbn in Ha. unfold send in Ha. by rewrite Hcb in Ha.
  - apply (Hon id' forward Ha). destruct (decide (id' = id)); [|by left]. right.
    unfold forward. rewrite Hh, Hret. by rewrite decide_False by lia.
  - apply (Hon id' consume Ha). left. congruence.
Qed.

Lemma exec_all_blocked id t l b b' : blocked id t b → exec_all l b = Some b' →
  AConsume id ∉ l →
  blocked id t b' ∧ ∀ u c, b_callers b !! u = Some c → waits c → b_callers b' !! u = Some c.
Proof.
  revert b. induction l as [|a l IH]; intros b Hb Hl Hno; cbn in Hl.
  { injection Hl as <-. done. }
  destruct (exec a b) as [b1|] eqn:Ha; cbn in Hl; [|done].
  apply not_elem_of_cons in Hno as [Hne Hno].
  destruct (exec_blocked _ _ _ _ _ Hb Ha) as [Hb1 Hw1]; [congruence|].
  destruct (IH b1 Hb1 Hl Hno) as [Hb' Hw']. split; [done|]. eauto.
Qed.
End blocked.

(** * Theorems *)

(** C30: Whatever the cluster cache has reported, a formatted object gets its own relationships and, for every current object,
    the reverse of exactly those relationships that are about the formatted object: provided that no object has relationships to
    objects of one kind and name in two namespaces, that the formatted object has no selector for its own kind, and that versions,
    kinds, namespaces and names make keys that can be told apart. *)
Theorem relationships_exact {Obj} `{SummariesLaws Obj, !ThreadSafeStore SummarizedObject,
    !ThreadSafeStoreLaws SummarizedObject} schemas Get (es : list (event Obj)) (obj : Obj) :
  let s0 := summarize schemas obj in
  summary_ok s0 → (so_APIVersion s0 +:+ "/" +:+ so_Kind s0) ∉ selectors s0 →
  map_Forall (λ _ o, let s := summarize schemas o in
    unambiguous schemas s ∧ Forall (rel_ok schemas s) (so_Relationships s)) (current schemas es) →
  ∃ rels, SummaryAndRelationship schemas Get obj (handle_all schemas es) = (s0, rels) ∧
    rels ≡ₚ (toRel schemas Get (so_Namespace s0) <$> so_Relationships s0) ++
            inbound schemas Get obj es.
Proof.
  intros s0 Hs0 Hsel Hok. eexists. split; [reflexivity|]. apply Permutation_app_head.
  rewrite (ByIndex_current schemas). unfold inbound. rewrite (toKey_summary schemas), list_fmap_bind.
  fold s0. apply reflexive_eq, bind_filter.
  - intros o Ho Hk. cbn. f_equal.
    apply list_elem_of_fmap in Ho as ([k o'] & -> & Ho%elem_of_map_to_list).
    destruct (Hok _ _ Ho). by apply keeps_current.
  - intros o _ Hk. rewrite (filter_none (λ rel, target _ _ _ = _)); [done|].
    intros rel Hrel Ht. apply Hk. apply indexed_target. by exists rel.
Qed.

(** A change of an object notifies, in order, exactly the relationships that differ from
    the one before at the same position, as long as their selectors have no label with an
    empty value; when the number of relationships changes it notifies nothing. *)
Theorem change_notifies {Obj} `{Summaries Obj, !KindNames, !SummariesLaws Obj,
    !ThreadSafeStore SummarizedObject} schemas (newObj oldObj : Obj) st :
  let rels := (process schemas newObj).2 in
  let oldRels := (process schemas oldObj).2 in
  Forall labels_valued rels →
  (Change schemas newObj oldObj st).2 =
    if decide (length rels = length oldRels)
    then (filter (λ p, p.1 ≠ p.2) (zip oldRels rels)).*2 else [].
Proof.
  intros rels oldRels Hok. unfold Change. subst rels oldRels.
  destruct (process schemas newObj) as [s rels]. set (oldRels := (process schemas oldObj).2).
  cbn [snd] in *. destruct (decide _) as [Hlen|Hlen];
    [rewrite bool_decide_eq_true_2 by done|by rewrite bool_decide_eq_false_2].
  f_equal. apply filter_ext_elem. intros [l r] Hlr. cbn.
  assert (labels_valued r) as Hr.
  { rewrite list.Forall_forall in Hok. apply Hok. by apply elem_of_zip_r in Hlr. }
  rewrite <- not_true_iff_false, relEquals_spec by done. done.
Qed.

(** Once the two channels of a subscription are full, a notification waits for it while it
    holds the lock of the cache, and as long as the subscriber reads nothing no step of any
    other goroutine changes that: no object can be formatted, no watch can subscribe or give up
    its subscription, and no other relationship is notified. *)
Theorem slow_subscriber_blocks `{MapRange} id t l b b' :
  blocked id t b → exec_all l b = Some b' → AConsume id ∉ l →
  b_lock b' = Some t ∧
  ∀ u c, b_callers b !! u = Some c → waits c → b_callers b' !! u = Some c.
Proof.
  intros Hb Hl Hno. destruct (exec_all_blocked id t l b b' Hb Hl Hno) as [Hb' Hw].
  split; [|done]. by destruct Hb' as (? & ? & ? & ? & ? & _).
Qed.

(** * Objects that are their own summaries, to evaluate the cache *)
Module SummaryExample.
Import Concrete ConcreteEdit.

Definition summaries : Summaries SummarizedObject := {|
  object_GVK := λ s, FromAPIVersionAndKind (so_APIVersion s) (so_Kind s);
  object_meta := λ s, Some (so_Name s, so_Namespace s);
  SummarizedWithOptions := λ _ s, s;
  LabelSelectorAsSelector := λ _, None;
  StringsEqual := λ l l', bool_decide (l = l')
|}.
#[local] Existing Instance summaries.
Lemma summaries_laws : SummariesLaws SummarizedObject.
Proof. split; [done|done|]. intros. apply bool_decide_eq_true. Qed.
#[local] Existing Instance summaries_laws.

Definition map_store : ThreadSafeStore SummarizedObject := {|
  store := gmap string (SummarizedObject * list string);
  store_empty := ∅;
  store_items := λ s, s;
  store_Update := λ k o vs s, <[k := (o, vs)]> s;
  store_Delete := λ k s, delete k s;
  store_ByIndex := λ v s,
    (filter (λ x : SummarizedObject * list string, v ∈ x.2) ((map_to_list s).*2)).*1
|}.
#[local] Existing Instance map_store.
Lemma map_store_laws : ThreadSafeStoreLaws SummarizedObject.
Proof. by split. Qed.
#[local] Existing Instance map_store_laws.

Definition schemas (id : string) : option APISchema :=
  if bool_decide (id ∈ ["pod"; "apps.replicaset"]) then Some (mkSchema true false) else None.
Definition no_objects (_ : GroupVersionKind) (_ _ : string) : option SummarizedObject := None.

Definition rel (name value : string) : summary_Relationship :=
  mkRel name "" false "ReplicaSet" "apps/v1" true "owner"
    (if decide (value = "") then None else Some (mkSelector {["app" := value]} [])).
Definition pod (rels : list summary_Relationship) : SummarizedObject :=
  mkSummarized "web-1" "shop" "Pod" "v1" "running" false false [] rels.
Definition replicaSet : SummarizedObject :=
  mkSummarized "web" "shop" "ReplicaSet" "apps/v1" "active" false false [] [].

Lemma relationships_exact_witness :
  (∃ rels, SummaryAndRelationship schemas no_objects replicaSet
      (handle_all schemas [OnAdd (pod [rel "web" ""; rel "db" ""])]) = (replicaSet, rels) ∧
    rels ≡ₚ [] ++ inbound schemas no_objects replicaSet [OnAdd (pod [rel "web" ""; rel "db" ""])]) ∧
  inbound schemas no_objects replicaSet [OnAdd (pod [rel "web" ""; rel "db" ""])] =
    [mkRelationship "shop/web-1" "pod" "" "" "" "owner" "" "" "" false false].
Proof.
  split; [|vm_compute; reflexivity].
  refine (relationships_exact schemas no_objects [OnAdd (pod [rel "web" ""; rel "db" ""])]
    replicaSet _ _ _).
  - split; [reflexivity|]. repeat constructor.
  - apply (bool_decide_unpack _). vm_compute. exact I.
  - apply map_Forall_insert_2; [|apply map_Forall_empty]. cbn zeta. split.
    + intros r r' Hr Hr' _ _. unfold target_namespace.
      assert (∀ x, x ∈ so_Relationships (summarize schemas (pod [rel "web" ""; rel "db" ""])) →
        resolveNamespace schemas (so_Namespace (summarize schemas (pod [rel "web" ""; rel "db" ""])))
          (r_Namespace x) (rel_GVK x) = "shop") as Hall.
      { apply list.Forall_forall. repeat constructor. }
      by rewrite (Hall r), (Hall r').
    + repeat constructor.
Defined.

(** The second of two relationships changes. *)
Lemma change_notifies_witness :
  (Change schemas (pod [rel "web" "a"; rel "db" "b"]) (pod [rel "web" "a"; rel "db" "c"])
     store_empty).2 = [mkRel "db" "shop" false "ReplicaSet" "apps/v1" true "owner"
                         (Some (mkSelector {["app" := "b"]} []))].
Proof.
  rewrite change_notifies; [vm_compute; reflexivity|].
  repeat constructor; intros sel [= <-]; apply map_Forall_singleton; discriminate.
Defined.

(** A label without a value equals a missing one, so this change goes unnoticed. *)
Example empty_label_unnoticed :
  relEquals (mkRel "web" "" false "Pod" "v1" false "selects" (Some (mkSelector {["a" := "x"]} [])))
    (mkRel "web" "" false "Pod" "v1" false "selects" (Some (mkSelector {["b" := ""]} []))) = true.
Proof. vm_compute. reflexivity. Qed.

(** A pod with one relationship to a replica set of another namespace and one to the replica set
    of the same name of its own namespace is shown twice for the first. *)
Definition ambiguous_pod : SummarizedObject :=
  pod [mkRel "web" "blog" false "ReplicaSet" "apps/v1" true "uses" None; rel "web" ""].
Example wrong_namespace_shown :
  length (SummaryAndRelationship schemas no_objects
    (mkSummarized "web" "blog" "ReplicaSet" "apps/v1" "active" false false [] [])
    (handle_all schemas [OnAdd ambiguous_pod])).2 = 2 ∧
  length (inbound schemas no_objects
    (mkSummarized "web" "blog" "ReplicaSet" "apps/v1" "active" false false [] [])
    [OnAdd ambiguous_pod]) = 1.
Proof. vm_compute. split; reflexivity. Qed.

(** The selector of a replica set covers its pods, and yet the pod it owns is shown as well:
    the check compares the kind of the replica set with the kinds it selects. *)
Example selector_covers_nothing :
  length (SummaryAndRelationship schemas no_objects
    (mkSummarized "web" "shop" "ReplicaSet" "apps/v1" "active" false false []
      [mkRel "" "" false "Pod" "v1" false "creates" (Some (mkSelector {["app" := "web"]} []))])
    (handle_all schemas [OnAdd (pod [rel "web" ""])])).2 = 2.
Proof. vm_compute. reflexivity. Qed.

Definition start : bus := mkBus None 0 ∅
  (Subscribe "ReplicaSet" "apps/v1" "" :: replicate 202 (Notify (rel "web" "")) ++ [Read; Unsubscribe 0]).
(** Notifications until the channel [ret], the goroutine and the channel [cb] are full. *)
Definition schedule : list action :=
  ACall 0 :: concat ((λ i, [ACall i; ACall i; ACall i; AForward 0; AForward 0]) <$> seq 1 100) ++
  [ACall 101; ACall 101; ACall 101; AForward 0] ++
  concat ((λ i, [ACall i; ACall i; ACall i]) <$> seq 102 100) ++ [ACall 202].
Definition full : bus := default start (exec_all schedule start).
Definition full_subscription : subscription :=
  default (mkSubscription "" "" "" [] None [] false) (b_subs full !! 0).

Lemma full_blocked : blocked 0 202 full.
Proof.
  assert (forallb (λ p : nat * caller, match p.2 with Sending _ _ => bool_decide (p.1 = 202) | _ => true end)
    (imap pair (b_callers full)) = true) as Hall by (vm_compute; reflexivity).
  exists (rel "web" ""), [], full_subscription, (rel "web" "").
  repeat (split; [vm_compute; reflexivity|]).
  intros u r to Hu. rewrite forallb_true in Hall. apply (bool_decide_eq_true (u = 202)).
  apply (Hall (u, Sending r to)), elem_of_lookup_imap. exists u, (Sending r to).
  split; [reflexivity|exact Hu].
Qed.

Lemma slow_subscriber_blocks_witness :
  exec_all schedule start = Some full ∧ b_lock full = Some 202 ∧
  b_callers full !! 203 = Some Read ∧ b_callers full !! 204 = Some (Unsubscribe 0).
Proof.
  split; [vm_compute; reflexivity|].
  destruct (slow_subscriber_blocks 0 202 [] full full full_blocked eq_refl
    ltac:(by intros ?%elem_of_nil)) as [Hl Hw].
  split; [exact Hl|]. split; apply Hw; (vm_compute; (reflexivity || exact I)).
Defined.
End SummaryExample.
