(* ===== verification/ClusterCache.v ===== *)
(** * Watching every kind: pkg/clustercache/controller.go

    The cluster cache runs an informer for every schema that can be listed and watched. When
    the schemas change, [OnSchemas] starts the missing informers, stops those of kinds that are
    gone, and waits for the new ones. What the informers report is queued, and one goroutine
    calls the registered handlers for each event of a kind that is still watched. *)
From S2P Require Import Prelude GoLib KubeTypes.
From S2P Require SummaryCache.

(** What the cache reads of a schema; a resource is named like a kind. *)
Record APISchema := mkSchema {
  S_Verbs : list string; S_GVR : GroupVersionKind; S_GVK : GroupVersionKind }.

(** A watcher with its informer; the cancelled ones stay in the list of all watchers, which
    the program does not keep. *)
Record watcher := mkWatcher {
  w_gvk : GroupVersionKind; w_gvr : GroupVersionKind; w_cancelled : bool }.

Record clusterCache := mkCache {
  watchers : gmap GroupVersionKind nat;
  all_watchers : list watcher
}.

Section schemas.
Context `{MapRange}.
Implicit Types (h : clusterCache) (gvk : GroupVersionKind) (w : nat).

Definition validSchema (schema : APISchema) : bool :=
  bool_decide ("list" ∈ S_Verbs schema) && bool_decide ("watch" ∈ S_Verbs schema).

(** [w.cancel()]. *)
Definition cancel w (l : list watcher) : list watcher :=
  alter (λ x, mkWatcher (w_gvk x) (w_gvr x) true) w l.

(** The first loop: the cache, the kinds of the schemas and the watchers to wait for. *)
Definition start_schema (st : clusterCache * gset GroupVersionKind * list nat) (schema : APISchema)
    : clusterCache * gset GroupVersionKind * list nat :=
  let '(h, gvks, toWait) := st in
  if validSchema schema then
    let gvk := S_GVK schema in
    let gvks := {[gvk]} ∪ gvks in
    match watchers h !! gvk with
    | Some _ => (h, gvks, toWait)
    | None =>
        let w := length (all_watchers h) in
        (mkCache (<[gvk := w]> (watchers h))
           (all_watchers h ++ [mkWatcher gvk (S_GVR schema) false]), gvks, toWait ++ [w])
    end
  else st.

(** The second loop: the watchers of kinds without a schema stop. *)
Definition stop_watcher (gvks : gset GroupVersionKind) h (x : GroupVersionKind * nat) : clusterCache :=
  if bool_decide (x.1 ∈ gvks) then h
  else mkCache (delete x.1 (watchers h)) (cancel x.2 (all_watchers h)).

(** The third loop: a watcher that does not sync in time stops. *)
Definition wait_watcher (synced : nat → bool) h w : clusterCache :=
  if synced w then h
  else match all_watchers h !! w with
    | Some x => mkCache (delete (w_gvk x) (watchers h)) (cancel w (all_watchers h))
    | None => h
    end.

Definition OnSchemas (schemas : list APISchema) (synced : nat → bool) h : clusterCache :=
  let '(h, gvks, toWait) := foldl start_schema (h, ∅, []) schemas in
  let h := foldl (stop_watcher gvks) h (range_map (watchers h)) in
  foldl (wait_watcher synced) h toWait.
End schemas.

(** ** Reading the stores of the informers *)
Section reads.
Context {Obj : Type} (GetByKey : nat → string → option Obj) (ListStore : nat → list Obj).

Definition object_key (namespace name : string) : string :=
  if bool_decide (namespace = "") then name else namespace +:+ "/" +:+ name.
Definition Get (gvk : GroupVersionKind) (namespace name : string) (h : clusterCache) : option Obj :=
  w ← watchers h !! gvk; GetByKey w (object_key namespace name).
Definition List_objects (gvk : GroupVersionKind) (h : clusterCache) : list Obj :=
  match watchers h !! gvk with Some w => ListStore w | None => [] end.
End reads.

(** ** Events *)
Section events.
Context {Obj : Type} (meta_key : Obj → option (string * string)).

(** What an informer reports: a deleted object can be a cache.DeletedFinalStateUnknown, which
    is not a runtime.Object, when the watch missed the deletion. *)
Inductive notification :=
  | Added (obj : Obj)
  | Updated (oldObj newObj : Obj)
  | Removed (obj : Obj)
  | RemovedUnknown (key : string) (obj : Obj).

Record event := mkEvent {
  e_add : bool; e_gvk : GroupVersionKind; e_obj : Obj; e_oldObj : option Obj }.

(** [addResourceEventHandler]: the event that is queued, if any. *)
Definition queued (gvk : GroupVersionKind) (n : notification) : option event :=
  match n with
  | Added obj => Some (mkEvent true gvk obj None)
  | Updated oldObj newObj => Some (mkEvent false gvk newObj (Some oldObj))
  | Removed obj => Some (mkEvent false gvk obj None)
  | RemovedUnknown _ _ => None
  end.

Definition toKey (obj : Obj) : string :=
  match meta_key obj with
  | None => ""
  | Some (ns, name) => if bool_decide (ns = "") then name else ns +:+ "/" +:+ name
  end.

(** A call of the handlers of one of the three collections. *)
Inductive call :=
  | CallAdd (gvk : GroupVersionKind) (key : string) (obj : Obj)
  | CallRemove (gvk : GroupVersionKind) (key : string) (obj : Obj)
  | CallChange (gvk : GroupVersionKind) (key : string) (obj oldObj : Obj).

(** One round of the loop of [start]. *)
Definition dispatch (h : clusterCache) (e : event) : option call :=
  match watchers h !! e_gvk e with
  | None => None
  | Some _ =>
      let key := toKey (e_obj e) in
      Some (match e_oldObj e with
        | Some oldObj => CallChange (e_gvk e) key (e_obj e) oldObj
        | None => if e_add e then CallAdd (e_gvk e) key (e_obj e)
                  else CallRemove (e_gvk e) key (e_obj e)
        end)
  end.

(** [callAll]: every handler is called, and the errors are collected. *)
Definition callAll {S E} (handlers : list (call → S → S * option E)) (c : call) (s : S)
    : S * list E :=
  foldl (λ st f, let '(s, err) := f c st.1 in
           (s, st.2 ++ match err with Some e => [e] | None => [] end)) (s, []) handlers.

(** The handlers the summary cache registers. *)
Definition summary_event (c : call) : SummaryCache.event Obj :=
  match c with
  | CallAdd _ _ obj => SummaryCache.OnAdd obj
  | CallRemove _ _ obj => SummaryCache.OnRemove obj
  | CallChange _ _ obj oldObj => SummaryCache.OnChange obj oldObj
  end.

(** What reaches the summary cache of the reports of the informer of a kind, while the
    watchers stay the same. *)
Definition summary_events (h : clusterCache) (gvk : GroupVersionKind) (l : list notification)
    : list (SummaryCache.event Obj) :=
  omap (λ n, e ← queued gvk n; summary_event <$> dispatch h e) l.
End events.
Arguments notification : clear implicits.
Arguments call : clear implicits.
Arguments event : clear implicits.

(** * Lemmas *)

(** A watcher runs when it is the watcher of its kind, and only then. *)
Record no_leak (h : clusterCache) : Prop := {
  watched_runs : ∀ gvk w, watchers h !! gvk = Some w →
    ∃ x, all_watchers h !! w = Some x ∧ w_gvk x = gvk ∧ w_cancelled x = false;
  running_watched : ∀ w x, all_watchers h !! w = Some x → w_cancelled x = false →
    watchers h !! w_gvk x = Some w
}.

Section on_schemas.
Implicit Types (h : clusterCache) (gvk : GroupVersionKind) (w : nat).

Lemma cancel_lookup w l u :
  cancel w l !! u = if decide (u = w) then (λ x, mkWatcher (w_gvk x) (w_gvr x) true) <$> l !! u
                    else l !! u.
Proof.
  unfold cancel. destruct (decide (u = w)) as [->|].
  - apply list_lookup_alter_eq.
  - by apply list_lookup_alter_ne.
Qed.

(** Stopping the watcher of a kind. *)
Definition stop_kind gvk w h : clusterCache :=
  mkCache (delete gvk (watchers h)) (cancel w (all_watchers h)).

Lemma stop_kind_no_leak gvk w h :
  no_leak h → watchers h !! gvk = Some w → no_leak (stop_kind gvk w h).
Proof.
  intros [Hwr Hrw] Hw. split; cbn.
  - intros gvk' w' (Hne & Hw')%lookup_delete_Some. destruct (Hwr _ _ Hw') as (x & Hx & Hg & Hc).
    exists x. rewrite cancel_lookup, decide_False; [done|]. intros ->.
    destruct (Hwr _ _ Hw) as (x' & Hx' & Hg' & _). congruence.
  - intros u x. rewrite cancel_lookup. destruct (decide (u = w)) as [->|Hne].
    + by intros (y & _ & ->)%fmap_Some.
    + intros Hx Hc. pose proof (Hrw _ _ Hx Hc) as Hu. rewrite lookup_delete_ne; [done|].
      intros Heq. rewrite <- Heq in Hu. congruence.
Qed.

Lemma start_watcher_no_leak gvk gvr h :
  no_leak h → watchers h !! gvk = None →
  no_leak (mkCache (<[gvk := length (all_watchers h)]> (watchers h))
    (all_watchers h ++ [mkWatcher gvk gvr false])).
Proof.
  intros [Hwr Hrw] Hw. split; cbn.
  - intros gvk' w' [[<- <-]|[Hne Hw']]%lookup_insert_Some.
    + eexists. split; [by apply list_lookup_middle|done].
    + destruct (Hwr _ _ Hw') as (x & Hx & ? & ?). exists x. split; [|done].
      by apply lookup_app_l_Some.
  - intros u x [Hx|[Hlen Hx]]%lookup_app_Some Hc.
    + rewrite lookup_insert_ne; [by apply Hrw|]. intros ->. rewrite (Hrw _ _ Hx Hc) in Hw. done.
    + apply list_lookup_singleton_Some in Hx as [Hu <-]. cbn.
      replace u with (length (all_watchers h)) by lia. by apply lookup_insert_eq.
Qed.

(** *** The first loop *)
Definition valid_kind (schemas : list APISchema) gvk : Prop :=
  ∃ s, s ∈ schemas ∧ validSchema s = true ∧ S_GVK s = gvk.

Record started h0 (schemas : list APISchema) (st : clusterCache * gset GroupVersionKind * list nat) : Prop := {
  st_no_leak : no_leak st.1.1;
  st_kinds : ∀ gvk, gvk ∈ st.1.2 ↔ valid_kind schemas gvk;
  st_kept : ∀ gvk w, watchers h0 !! gvk = Some w → watchers st.1.1 !! gvk = Some w;
  st_new : ∀ gvk w, watchers st.1.1 !! gvk = Some w → watchers h0 !! gvk = None →
    gvk ∈ st.1.2 ∧ w ∈ st.2;
  st_started : ∀ gvk, gvk ∈ st.1.2 → is_Some (watchers st.1.1 !! gvk);
  st_wait : ∀ w, w ∈ st.2 → length (all_watchers h0) ≤ w ∧
    ∃ gvk, gvk ∈ st.1.2 ∧ watchers st.1.1 !! gvk = Some w ∧ watchers h0 !! gvk = None;
  st_length : length (all_watchers h0) ≤ length (all_watchers st.1.1);
  st_NoDup : NoDup st.2
}.

Lemma started_init h : no_leak h → started h [] (h, ∅, []).
Proof.
  intros Hh. split; cbn; [done|..|done|constructor].
  - intros gvk. split; [set_solver|]. by intros (s & ?%elem_of_nil & _).
  - done.
  - intros gvk w ??. congruence.
  - set_solver.
  - by intros w ?%elem_of_nil.
Qed.

Lemma valid_kind_snoc schemas s gvk :
  valid_kind (schemas ++ [s]) gvk ↔ valid_kind schemas gvk ∨ (validSchema s = true ∧ S_GVK s = gvk).
Proof.
  unfold valid_kind. split.
  - intros (s' & Hs' & Hv & Hg). apply elem_of_app in Hs' as [|Hs']; [left; by exists s'|].
    apply list_elem_of_singleton in Hs' as ->. by right.
  - intros [(s' & ? & ?)|[? ?]]; [exists s'|exists s]; (split; [|done]); apply elem_of_app;
      [by left|right; by apply list_elem_of_singleton].
Qed.

Lemma started_step h0 schemas st s :
  started h0 schemas st → started h0 (schemas ++ [s]) (start_schema st s).
Proof.
  destruct st as [[h gvks] toWait]. intros [Hnl Hk Hkept Hnew Hst Hwait Hlen Hnd]. cbn in *.
  destruct (validSchema s) eqn:Hv.
  2: { split; cbn; try done. intros gvk. rewrite valid_kind_snoc, Hk, Hv. naive_solver. }
  assert (∀ gvk, gvk ∈ {[S_GVK s]} ∪ gvks ↔ valid_kind (schemas ++ [s]) gvk) as Hk'.
  { intros gvk. rewrite valid_kind_snoc, elem_of_union, elem_of_singleton, Hk, Hv. naive_solver. }
  destruct (watchers h !! S_GVK s) as [w|] eqn:Hw.
  - split; cbn; try done.
    + intros gvk w' Hw' H0. destruct (Hnew _ _ Hw' H0). set_solver.
    + intros gvk [->%elem_of_singleton|]%elem_of_union; [by eexists|]. by apply Hst.
    + intros w' Hw'. destruct (Hwait _ Hw') as (? & gvk & ? & ?). split; [done|].
      exists gvk. set_solver.
  - split; cbn.
    + by apply start_watcher_no_leak.
    + done.
    + intros gvk w' Hw'. rewrite lookup_insert_ne; [by apply Hkept|].
      intros Heq. rewrite <- Heq in Hw'. rewrite (Hkept _ _ Hw') in Hw. done.
    + intros gvk w' [[<- <-]|[Hne Hw']]%lookup_insert_Some H0.
      * split; [set_solver|]. apply elem_of_app. right. by apply list_elem_of_singleton.
      * destruct (Hnew _ _ Hw' H0). split; [set_solver|]. apply elem_of_app. by left.
    + intros gvk Hg. destruct (decide (gvk = S_GVK s)) as [->|Hne].
      * rewrite lookup_insert_eq. by eexists.
      * rewrite lookup_insert_ne by done. apply Hst. set_solver.
    + intros w' [Hw'|Hw']%elem_of_app.
      * destruct (Hwait _ Hw') as (? & gvk & ? & Hg & ?). split; [done|]. exists gvk.
        split; [set_solver|]. rewrite lookup_insert_ne; [done|]. intros Heq. rewrite <- Heq in Hg. congruence.
      * apply list_elem_of_singleton in Hw' as ->. split; [done|]. exists (S_GVK s).
        split; [set_solver|]. rewrite lookup_insert_eq. split; [done|].
        destruct (watchers h0 !! S_GVK s) as [w|] eqn:Hw0; [|done].
        rewrite (Hkept _ _ Hw0) in Hw. done.
    + rewrite length_app. lia.
    + apply list.NoDup_app. split; [done|]. split; [|apply NoDup_singleton].
      intros w' Hw' ->%list_elem_of_singleton.
      destruct (Hwait _ Hw') as (_ & gvk & _ & Hg & _).
      destruct (watched_runs _ Hnl _ _ Hg) as (x & Hx%lookup_lt_Some & _). lia.
Qed.

Lemma started_all h schemas : no_leak h → started h schemas (foldl start_schema (h, ∅, []) schemas).
Proof.
  intros Hh. induction schemas as [|s l IH] using rev_ind; [by apply started_init|].
  rewrite foldl_app. by apply started_step.
Qed.

(** *** The second and third loop *)
Lemma stop_all gvks l h :
  no_leak h → NoDup l.*1 → (∀ x, x ∈ l → watchers h !! x.1 = Some x.2) →
  let h' := foldl (stop_watcher gvks) h l in
  no_leak h' ∧ ∀ gvk, watchers h' !! gvk =
    if decide (gvk ∈ gvks ∨ gvk ∉ l.*1) then watchers h !! gvk else None.
Proof.
  revert h. induction l as [|[gvk w] l IH]; intros h Hh Hnd Hl; cbn.
  { split; [done|]. intros gvk. rewrite decide_True; [done|]. right. by intros ?%elem_of_nil. }
  apply list.NoDup_cons in Hnd as [Hgvk Hnd]. cbn in Hgvk.
  pose proof (Hl (gvk, w) ltac:(left)) as Hw. cbn in Hw.
  replace (stop_watcher gvks h (gvk, w)) with
    (if bool_decide (gvk ∈ gvks) then h else stop_kind gvk w h) by done.
  case_bool_decide as Hin.
  - destruct (IH h Hh Hnd) as [Hh' Hw']; [intros; apply Hl; by right|]. split; [done|].
    intros g. rewrite Hw'. apply decide_ext. rewrite elem_of_cons. cbn.
    destruct (decide (g = gvk)) as [->|]; tauto.
  - destruct (IH (stop_kind gvk w h)) as [Hh' Hw'].
    + by apply stop_kind_no_leak.
    + done.
    + intros [g v] Hg. cbn. rewrite lookup_delete_ne; [apply (Hl (g, v)); by right|].
      intros <-. apply Hgvk. apply list_elem_of_fmap. by exists (gvk, v).
    + split; [done|]. intros g. rewrite Hw'. cbn.
      destruct (decide (g = gvk)) as [->|Hne].
      * rewrite lookup_delete_eq, (decide_False (P := _ ∨ gvk ∉ gvk :: _)); [by destruct (decide _)|].
        intros [|Hno]; [done|]. apply Hno. left.
      * rewrite lookup_delete_ne by done. apply decide_ext. rewrite elem_of_cons. cbn. tauto.
Qed.

Lemma wait_all synced l h :
  no_leak h → NoDup l → (∀ w, w ∈ l → ∃ gvk, watchers h !! gvk = Some w) →
  let h' := foldl (wait_watcher synced) h l in
  no_leak h' ∧ ∀ gvk, watchers h' !! gvk =
    w ← watchers h !! gvk; if decide (w ∈ l ∧ synced w = false) then None else Some w.
Proof.
  revert h. induction l as [|w l IH]; intros h Hh Hnd Hl; cbn.
  { split; [done|]. intros gvk. destruct (watchers h !! gvk) as [w|]; cbn; [|done].
    rewrite decide_False; [done|]. by intros [?%elem_of_nil _]. }
  apply list.NoDup_cons in Hnd as [Hw Hnd].
  destruct (Hl w ltac:(left)) as [gvk Hgvk].
  destruct (watched_runs _ Hh _ _ Hgvk) as (x & Hx & Hxg & _).
  replace (wait_watcher synced h w) with (if synced w then h else stop_kind gvk w h)
    by (unfold wait_watcher; by rewrite Hx, Hxg).
  destruct (synced w) eqn:Hs.
  - destruct (IH h Hh Hnd) as [Hh' Hw']; [intros; apply Hl; by right|]. split; [done|].
    intros g. rewrite Hw'. destruct (watchers h !! g) as [v|]; cbn; [|done].
    apply decide_ext. rewrite elem_of_cons. destruct (decide (v = w)) as [->|]; [|tauto].
    split; [tauto|]. intros [_ ?]. congruence.
  - destruct (IH (stop_kind gvk w h)) as [Hh' Hw'].
    + by apply stop_kind_no_leak.
    + done.
    + intros v Hv. destruct (Hl v ltac:(by right)) as [g Hg]. exists g. cbn.
      rewrite lookup_delete_ne; [done|]. intros ->. congruence.
    + split; [done|]. intros g. rewrite Hw'. cbn.
      destruct (decide (g = gvk)) as [->|Hne].
      * rewrite lookup_delete_eq, Hgvk. cbn. rewrite decide_True; [done|]. split; [left|done].
      * rewrite lookup_delete_ne by done. destruct (watchers h !! g) as [v|] eqn:Hg; cbn; [|done].
        apply decide_ext. rewrite elem_of_cons. split; [tauto|]. intros [[->|] ?]; [|done].
        destruct (watched_runs _ Hh _ _ Hg) as (x' & Hx' & Hx'g & _). congruence.
Qed.
End on_schemas.

(** * Theorems *)

(** When the schemas change, the cache watches exactly the kinds that can be listed and
    watched, except those whose new informer does not sync: it keeps the informer of a kind it
    watched before, starts one for every other kind and stops the rest, and no informer runs
    that is not the one of its kind. *)
Theorem OnSchemas_watches `{MapRange} schemas synced h :
  no_leak h →
  let h' := OnSchemas schemas synced h in
  no_leak h' ∧
  (∀ gvk w, valid_kind schemas gvk → watchers h !! gvk = Some w → watchers h' !! gvk = Some w) ∧
  (∀ gvk, ¬ valid_kind schemas gvk → watchers h' !! gvk = None) ∧
  (∀ gvk, valid_kind schemas gvk → watchers h !! gvk = None →
    ∃ w, length (all_watchers h) ≤ w ∧ watchers h' !! gvk = if synced w then Some w else None).
Proof.
  intros Hh. unfold OnSchemas. pose proof (started_all h schemas Hh) as Hst.
  destruct (foldl start_schema _ _) as [[h1 gvks] toWait].
  destruct Hst as [Hnl Hk Hkept Hnew Hst Hwait Hlen Hnd]. cbn in *.
  destruct (stop_all gvks (range_map (watchers h1)) h1 Hnl) as [Hnl2 Hw2].
  { apply NoDup_fst_range_map. }
  { intros [g w] Hg. by apply elem_of_range_map in Hg. }
  set (h2 := foldl (stop_watcher gvks) h1 _) in *.
  assert (∀ gvk, watchers h2 !! gvk = if decide (gvk ∈ gvks) then watchers h1 !! gvk else None) as Hw2'.
  { intros gvk. rewrite Hw2. destruct (decide (gvk ∈ gvks)) as [Hg|Hg]; [by rewrite decide_True by by left|].
    destruct (watchers h1 !! gvk) as [w|] eqn:Hw; [|by destruct (decide _)].
    rewrite decide_False; [done|]. intros [|Hno]; [done|]. apply Hno. apply list_elem_of_fmap.
    exists (gvk, w). split; [done|]. by apply elem_of_range_map. }
  destruct (wait_all synced toWait h2 Hnl2 Hnd) as [Hnl3 Hw3].
  { intros w Hw. destruct (Hwait _ Hw) as (_ & gvk & Hg & Hgw & _). exists gvk.
    by rewrite Hw2', decide_True. }
  split; [done|]. split; [|split].
  - intros gvk w Hg Hw. rewrite Hw3, Hw2', decide_True, (Hkept _ _ Hw) by by apply Hk. cbn.
    rewrite decide_False; [done|]. intros [Hin _].
    destruct (Hwait _ Hin) as (_ & g & _ & Hg' & Hnone).
    destruct (watched_runs _ Hnl _ _ Hg') as (x & Hx & Hxg & _).
    destruct (watched_runs _ Hnl _ _ (Hkept _ _ Hw)) as (x' & Hx' & Hxg' & _). congruence.
  - intros gvk Hg. rewrite Hw3, Hw2', decide_False; [done|]. by rewrite Hk.
  - intros gvk Hg Hnone. rewrite Hw3, Hw2', decide_True by by apply Hk.
    destruct (Hst gvk) as [w Hw]; [by apply Hk|]. rewrite Hw. cbn. exists w.
    destruct (Hnew _ _ Hw Hnone) as [_ Hin]. destruct (Hwait _ Hin) as [Hle _]. split; [done|].
    destruct (synced w); [rewrite decide_False by naive_solver|rewrite decide_True by done]; done.
Qed.

Module ClusterExample.
Import Concrete.

Definition pods : GroupVersionKind := mkGVK "" "v1" "Pod".
Definition jobs : GroupVersionKind := mkGVK "batch" "v1" "Job".
Definition nodes : GroupVersionKind := mkGVK "" "v1" "Node".
Definition schema (verbs : list string) (gvk : GroupVersionKind) : APISchema := mkSchema verbs gvk gvk.

(** The cache watches jobs; now there are pods, and nodes that cannot be watched. *)
Definition before : clusterCache := mkCache {[jobs := 0]} [mkWatcher jobs jobs false].
Definition schemas : list APISchema := [schema ["list"; "watch"] pods; schema ["list"] nodes].

Lemma before_no_leak : no_leak before.
Proof.
  split; cbn.
  - intros gvk w [<- <-]%lookup_singleton_Some. by eexists.
  - intros w x Hx _. apply list_lookup_singleton_Some in Hx as [-> <-]. vm_compute. reflexivity.
Qed.

Lemma OnSchemas_watches_witness :
  no_leak (OnSchemas schemas (λ _, true) before) ∧
  watchers (OnSchemas schemas (λ _, true) before) !! jobs = None ∧
  watchers (OnSchemas schemas (λ _, true) before) = {[pods := 1]} ∧
  all_watchers (OnSchemas schemas (λ _, true) before) =
    [mkWatcher jobs jobs true; mkWatcher pods pods false].
Proof.
  destruct (OnSchemas_watches schemas (λ _, true) before before_no_leak) as (Hnl & _ & Hno & _).
  split; [exact Hnl|]. split; [|split; vm_compute; reflexivity].
  apply Hno. intros (s & Hs & Hv & Hg).
  repeat (apply elem_of_cons in Hs as [->|Hs]; [discriminate|]). by apply elem_of_nil in Hs.
Defined.

(** A deletion the watch has missed reaches no handler: the summary cache keeps the object. *)
Example missed_deletion_ignored :
  length (summary_events (Obj := string) (λ o, Some ("", o)) (mkCache {[pods := 0]} [])
    pods [Added "web"; RemovedUnknown "web" "web"]) = 1 ∧
  length (summary_events (Obj := string) (λ o, Some ("", o)) (mkCache {[pods := 0]} [])
    pods [Added "web"; Removed "web"]) = 2.
Proof. vm_compute. split; reflexivity. Qed.

(** Nor does anything that is still queued when the kind is stopped. *)
Example stopped_kind_ignored :
  summary_events (Obj := string) (λ o, Some ("", o)) (mkCache ∅ []) pods [Added "web"; Removed "web"] = [].
Proof. vm_compute. reflexivity. Qed.
End ClusterExample.
