(* ===== verification/DateFields.v ===== *)
(** * Columns that show an age

    Kubernetes prints ages relative to the moment it answers. Before an object is cached, the
    columns of dates are turned into points in time ([pkg/resources/virtual/virtual.go]); when
    a cached object is formatted, they are turned into ages again
    ([pkg/resources/common/formatter.go]). The columns come from [dynamiccolumns.go], the kinds
    with date columns from [gvkdatefields.go], the texts of durations from [duration.go]. *)
From S2P Require Import Prelude GoLib GoValue KubeTypes.

(** The date columns of the built-in kinds. *)
Definition date_fields : list (GroupVersionKind * list string) := [
  (mkGVK "" "v1" "ConfigMap", ["Age"]);
  (mkGVK "" "v1" "Endpoints", ["Age"]);
  (mkGVK "" "v1" "Event", ["Last Seen"; "First Seen"]);
  (mkGVK "" "v1" "Namespace", ["Age"]);
  (mkGVK "" "v1" "Node", ["Age"]);
  (mkGVK "" "v1" "PersistentVolume", ["Age"]);
  (mkGVK "" "v1" "PersistentVolumeClaim", ["Age"]);
  (mkGVK "" "v1" "Pod", ["Age"]);
  (mkGVK "" "v1" "ReplicationController", ["Age"]);
  (mkGVK "" "v1" "ResourceQuota", ["Age"]);
  (mkGVK "" "v1" "Secret", ["Age"]);
  (mkGVK "" "v1" "Service", ["Age"]);
  (mkGVK "" "v1" "ServiceAccount", ["Age"]);
  (mkGVK "admissionregistration.k8s.io" "v1alpha2" "MutatingAdmissionPolicy", ["Age"]);
  (mkGVK "admissionregistration.k8s.io" "v1alpha2" "MutatingAdmissionPolicyBinding", ["Age"]);
  (mkGVK "admissionregistration.k8s.io" "v1alpha2" "ValidatingAdmissionPolicy", ["Age"]);
  (mkGVK "admissionregistration.k8s.io" "v1alpha2" "ValidatingAdmissionPolicyBinding", ["Age"]);
  (mkGVK "admissionregistration.k8s.io" "v1beta1" "MutatingWebhookConfiguration", ["Age"]);
  (mkGVK "admissionregistration.k8s.io" "v1beta1" "ValidatingWebhookConfiguration", ["Age"]);
  (mkGVK "apiserverinternal.k8s.io" "v1alpha1" "StorageVersion", ["Age"]);
  (mkGVK "apps" "v1" "DaemonSet", ["Age"]);
  (mkGVK "apps" "v1" "Deployment", ["Age"]);
  (mkGVK "apps" "v1" "ReplicaSet", ["Age"]);
  (mkGVK "apps" "v1" "StatefulSet", ["Age"]);
  (mkGVK "apps" "v1beta1" "ControllerRevision", ["Age"]);
  (mkGVK "autoscaling" "v1" "Scale", ["Age"]);
  (mkGVK "autoscaling" "v2beta1" "HorizontalPodAutoscaler", ["Age"]);
  (mkGVK "ext.cattle.io" "v1" "Token", ["Age"]);
  (mkGVK "ext.cattle.io" "v1" "Kubeconfig", ["Age"]);
  (mkGVK "batch" "v1" "Job", ["Duration"; "Age"]);
  (mkGVK "batch" "v1beta1" "CronJob", ["Last Schedule"; "Age"]);
  (mkGVK "certificates.k8s.io" "v1beta1" "CertificateSigningRequest", ["Age"]);
  (mkGVK "coordination.k8s.io" "v1" "Lease", ["Age"]);
  (mkGVK "coordination.k8s.io" "v1alpha2" "LeaseCandidate", ["Age"]);
  (mkGVK "discovery.k8s.io" "v1beta1" "EndpointSlice", ["Age"]);
  (mkGVK "flowcontrol.k8s.io" "v1" "FlowSchema", ["Age"]);
  (mkGVK "flowcontrol.k8s.io" "v1" "PriorityLevelConfiguration", ["Age"]);
  (mkGVK "networking.k8s.io" "v1beta1" "Ingress", ["Age"]);
  (mkGVK "networking.k8s.io" "v1beta1" "IngressClass", ["Age"]);
  (mkGVK "networking.k8s.io" "v1beta1" "IPAddress", ["Age"]);
  (mkGVK "networking.k8s.io" "v1beta1" "NetworkPolicy", ["Age"]);
  (mkGVK "networking.k8s.io" "v1beta1" "ServiceCIDR", ["Age"]);
  (mkGVK "node.k8s.io" "v1" "RuntimeClass", ["Age"]);
  (mkGVK "policy" "v1" "PodDisruptionBudget", ["Age"]);
  (mkGVK "rbac.authorization.k8s.io" "v1beta1" "ClusterRoleBinding", ["Age"]);
  (mkGVK "rbac.authorization.k8s.io" "v1beta1" "RoleBinding", ["Age"]);
  (mkGVK "resource.k8s.io" "v1beta1" "DeviceClass", ["Age"]);
  (mkGVK "resource.k8s.io" "v1beta1" "ResourceClaim", ["Age"]);
  (mkGVK "resource.k8s.io" "v1beta1" "ResourceClaimTemplate", ["Age"]);
  (mkGVK "resource.k8s.io" "v1beta1" "ResourceSlice", ["Age"]);
  (mkGVK "scheduling.k8s.io" "v1" "PriorityClass", ["Age"]);
  (mkGVK "storage.k8s.io" "v1" "CSIDriver", ["Age"]);
  (mkGVK "storage.k8s.io" "v1" "CSINode", ["Age"]);
  (mkGVK "storage.k8s.io" "v1" "StorageClass", ["Age"]);
  (mkGVK "storage.k8s.io" "v1" "VolumeAttachment", ["Age"]);
  (mkGVK "storage.k8s.io" "v1beta1" "VolumeAttributesClass", ["Age"])].
Definition DateFieldsByGVK : gmap GroupVersionKind (list string) := list_to_map date_fields.

(** A column: its name and type in the table, and the path of its value. *)
Record ColumnDefinition := mkColumn { c_Name : string; c_Type : string; c_Field : string }.

(** The columns of a table, as [SetColumns] numbers them. *)
Definition column_field (i : nat) : string := "$.metadata.fields[" +:+ itoa (Z.of_nat i) +:+ "]".
Definition SetColumns (columns : list (string * string)) : list ColumnDefinition :=
  imap (λ i c, mkColumn c.1 c.2 (column_field i)) columns.

(** Go's [time.Parse(time.RFC3339, s)] in nanoseconds since 1970, and the text
    [duration.HumanDuration] of apimachinery shows for a duration. *)
Class Time := { ParseRFC3339 : string → option Z; HumanDuration : Z → string }.
(** A text of digits is no timestamp; only negative durations have no text. *)
Class TimeLaws `{Time} := {
  ParseRFC3339_digits : ∀ z, ParseRFC3339 (itoa z) = None;
  HumanDuration_valid : ∀ d, (0 ≤ d)%Z → HumanDuration d ≠ "<invalid>"
}.

Section durations.
Open Scope Z_scope.
Context `{Time}.

(** [time.Since]: the difference, saturated at the bounds of int64. *)
Definition Since (now t : Z) : Z := Z.max min_int64 (Z.min max_int64 (now - t)).

Definition second : Z := 1000000000.
Definition unit_of (c : ascii) : option Z :=
  if Ascii.eqb c "y" then Some (365 * 24 * 3600 * second)
  else if Ascii.eqb c "d" then Some (24 * 3600 * second)
  else if Ascii.eqb c "h" then Some (3600 * second)
  else if Ascii.eqb c "m" then Some (60 * second)
  else if Ascii.eqb c "s" then Some second
  else None.

(** The digits at the start of a text, and the rest. *)
Fixpoint take_digits (s : string) : string * string :=
  match s with
  | String c r => if is_digit c then let '(d, r) := take_digits r in (String c d, r) else ("", s)
  | "" => ("", "")
  end.

(** The spaces before a number; a new line is an error. *)
Fixpoint skip_space (s : string) : string :=
  match s with
  | String c r => if bool_decide (N_of_ascii c ∈ [9; 11; 12; 13; 32]%N) then skip_space r else s
  | "" => ""
  end.

(** [fmt.Fscanf(r, "%d%c", &val, &unit)]: the number, the unit and the rest. *)
Definition scan_unit (s : string) : option (Z * ascii * string) :=
  let s := skip_space s in
  let '(sign, s) := match s with
    | String c r => if Ascii.eqb c "+" || Ascii.eqb c "-" then (String c "", r) else ("", s)
    | "" => ("", s)
    end in
  let '(digits, r) := take_digits s in
  val ← parse_int (sign +:+ digits);
  match r with String c r => Some (val, c, r) | "" => None end.

Fixpoint parse_units (fuel : nat) (total : Z) (s : string) : outcome string Z :=
  match s, fuel with
  | "", _ => Ok total
  | _, O => Err "out of fuel"
  | _, S fuel =>
      match scan_unit s with
      | None => Err "invalid duration"
      | Some (val, c, r) =>
          match unit_of c with
          | None => Err "invalid duration unit"
          | Some u => parse_units fuel (wrap64 (total + wrap64 (val * u))) r
          end
      end
  end.

Definition ParseTimestampOrHumanReadableDuration (now : Z) (s : string) : outcome string Z :=
  match ParseRFC3339 s with
  | Some t => Ok (Since now t)
  | None => parse_units (String.length s) 0 s
  end.

Definition GetIndexValueFromString (pathString : string) : Z :=
  match index_char "[" pathString with
  | None => -1
  | Some idxStart =>
      let rest := str_drop (S idxStart) pathString in
      match index_char "]" rest with
      | None => -1
      | Some idxEnd => default (-1) (parse_int (str_take idxEnd rest))
      end
  end.
End durations.

(** ** Before an object is cached, and when it is formatted *)
Section columns.
Open Scope Z_scope.
Context `{Time, NestedFields}.
Implicit Types (obj : object) (col : ColumnDefinition).

Definition is_date_column (gvk : GroupVersionKind) (isCRD : bool) col : bool :=
  (isCRD && bool_decide (c_Type col = "date")) ||
  match DateFieldsByGVK !! gvk with
  | Some names => bool_decide (c_Name col ∈ names)
  | None => false
  end.

(** [t.UnixMilli()]. *)
Definition UnixMilli (t : Z) : Z := t / 1000000.

(** The value of a column: an index out of range panics. *)
Definition column_value (l : list goval) (index : Z) : outcome string goval :=
  match l !! Z.to_nat index with
  | Some v => if bool_decide (index < 0) then Panic else Ok v
  | None => Panic
  end.

(** The converter of one date column: the object and the error it logs. *)
Definition to_timestamp (now : Z) col obj : outcome string (object * option string) :=
  let index := GetIndexValueFromString (c_Field col) in
  if bool_decide (index = -1) then Ok (obj, Some "field index not found")
  else match NestedSlice obj ["metadata"; "fields"] with
  | Ok (Some curValue) =>
      value ← column_value curValue index;
      match value with
      | GString value =>
          match ParseTimestampOrHumanReadableDuration now value with
          | Ok duration =>
              let text := GString (itoa (UnixMilli (now + wrap64 (- duration)))) in
              match SetNestedField obj (GSlice (<[Z.to_nat index := text]> curValue))
                      ["metadata"; "fields"] with
              | Ok obj => Ok (obj, None)
              | Err e => Ok (obj, Some e)
              | Panic => Panic
              end
          | Err _ => Ok (obj, None)
          | Panic => Panic
          end
      | _ => Ok (obj, Some "could not cast metadata.fields to string")
      end
  | Panic => Panic
  | _ => Ok (obj, None)   (* not found, whatever the error *)
  end.

(** What [convertMetadataTimestampFields] does for one column; [None] when it returns. *)
Definition from_timestamp (now : Z) col obj : outcome string (option object) :=
  let index := GetIndexValueFromString (c_Field col) in
  if bool_decide (index = -1) then Ok None
  else match NestedSlice obj ["metadata"; "fields"] with
  | Ok (Some curValue) =>
      value ← column_value curValue index;
      match value with
      | GString timeValue =>
          let dur := match ParseTimestampOrHumanReadableDuration now timeValue with
            | Ok d => Some d
            | _ => millis ← parse_int timeValue; Some (Since now (wrap64 (millis * 1000000)))
            end in
          match dur with
          | None => Ok None
          | Some dur =>
              let humanDuration := HumanDuration dur in
              if bool_decide (humanDuration = "<invalid>") then Ok None
              else match SetNestedField obj
                     (GSlice (<[Z.to_nat index := GString humanDuration]> curValue))
                     ["metadata"; "fields"] with
                | Ok obj => Ok (Some obj)
                | Err _ => Ok None
                | Panic => Panic
                end
          end
      | _ => Ok None
      end
  | Panic => Panic
  | _ => Ok None
  end.

(** The columns in order, up to the first that cannot be converted. *)
Fixpoint convert_columns (now : Z) (cols : list ColumnDefinition) obj : outcome string object :=
  match cols with
  | [] => Ok obj
  | col :: cols =>
      res ← from_timestamp now col obj;
      match res with Some obj => convert_columns now cols obj | None => Ok obj end
  end.
Definition convertMetadataTimestampFields (now : Z) (gvk : GroupVersionKind) (isCRD : bool)
    (cols : list ColumnDefinition) obj : outcome string object :=
  convert_columns now (List.filter (is_date_column gvk isCRD) cols) obj.

(** The date converters of a transform function, which go on after an error. *)
Fixpoint cache_columns (now : Z) (cols : list ColumnDefinition) obj : outcome string object :=
  match cols with
  | [] => Ok obj
  | col :: cols => res ← to_timestamp now col obj; cache_columns now cols res.1
  end.
Definition transform_dates (now : Z) (gvk : GroupVersionKind) (isCRD : bool)
    (cols : list ColumnDefinition) obj : outcome string object :=
  cache_columns now (List.filter (is_date_column gvk isCRD) cols) obj.
End columns.

(** * Lemmas *)
Lemma all_digits_no_char c s : all_chars is_digit s = true → is_digit c = false → has_char c s = false.
Proof.
  intros Hs Hc. induction s as [|a s IH]; cbn in *; [done|].
  apply andb_true_iff in Hs as [Ha Hs]. rewrite IH by done. rewrite orb_false_r.
  apply ascii_eqb_false. intros ->. congruence.
Qed.

(** The path of a column gives back its number. *)
Lemma GetIndex_column_field i :
  (Z.of_nat i ≤ max_int64)%Z → GetIndexValueFromString (column_field i) = Z.of_nat i.
Proof.
  intros Hi. unfold GetIndexValueFromString, column_field.
  change ("$.metadata.fields[" +:+ itoa (Z.of_nat i) +:+ "]")
    with ("$.metadata.fields" +:+ String "[" (itoa (Z.of_nat i) +:+ String "]" "")).
  rewrite index_char_app by done.
  change (S (String.length "$.metadata.fields")) with (String.length "$.metadata.fields[").
  change ("$.metadata.fields" +:+ String "[" ?x) with ("$.metadata.fields[" +:+ x).
  rewrite str_drop_app, index_char_app
    by (apply all_digits_no_char; [apply itoa_digits; lia|done]).
  rewrite str_take_app, parse_int_itoa by lia. done.
Qed.

Lemma take_digits_all s : all_chars is_digit s = true → take_digits s = (s, "").
Proof.
  induction s as [|c s IH]; cbn; [done|]. intros [-> Hs]%andb_true_iff. by rewrite (IH Hs).
Qed.

Lemma digit_not_space c : is_digit c = true →
  bool_decide (N_of_ascii c ∈ [9; 11; 12; 13; 32]%N) = false.
Proof.
  intros Hc. apply bool_decide_eq_false. intros Hin.
  unfold is_digit, digit_val in Hc. apply bool_decide_eq_true in Hc.
  repeat (apply elem_of_cons in Hin as [Hin|Hin]; [rewrite Hin in Hc; by destruct Hc|]).
  by apply elem_of_nil in Hin.
Qed.

(** A point in time is no duration: it has no unit. *)
Lemma scan_unit_digits s : all_chars is_digit s = true → s ≠ "" → scan_unit s = None.
Proof.
  intros Hs Hne. destruct s as [|c r]; [done|]. pose proof Hs as Hcr. cbn in Hs.
  apply andb_true_iff in Hs as [Hc Hr]. destruct (digit_not_sign c Hc) as [Hp Hm].
  unfold scan_unit. cbn [skip_space]. rewrite (digit_not_space c Hc).
  rewrite (proj2 (ascii_eqb_false c "+") Hp), (proj2 (ascii_eqb_false c "-") Hm). cbn [orb].
  rewrite (take_digits_all _ Hcr). by destruct (parse_int _).
Qed.

Section date_lemmas.
Open Scope Z_scope.
Context `{TimeLaws, !NestedFields, !NestedFieldsLaws}.
Implicit Types (obj m : object) (col : ColumnDefinition) (l : list goval) (i : nat).

Lemma parse_timestamp_text now z : 0 ≤ z →
  ∃ e, ParseTimestampOrHumanReadableDuration now (itoa z) = Err e.
Proof.
  intros Hz. unfold ParseTimestampOrHumanReadableDuration. rewrite ParseRFC3339_digits.
  pose proof (itoa_nonempty z) as Hne. pose proof (scan_unit_digits _ (itoa_digits z Hz) Hne) as Hs.
  destruct (itoa z) as [|c r]; [done|]. cbn [parse_units String.length]. rewrite Hs. by eexists.
Qed.

(** The object [obj] with metadata [m] and columns [l]. *)
Definition with_fields obj m l : object :=
  <["metadata" := GMap (<["fields" := GSlice l]> m)]> obj.

Lemma with_fields_slice obj m l : NestedSlice (with_fields obj m l) ["metadata"; "fields"] = Ok (Some l).
Proof.
  apply NestedSlice_found. unfold with_fields.
  rewrite (NestedField_map _ _ _ (<["fields" := GSlice l]> m)) by apply lookup_insert_eq.
  by rewrite lookup_insert_eq.
Qed.

Lemma with_fields_set obj m l l' :
  SetNestedField (with_fields obj m l) (GSlice l') ["metadata"; "fields"] = Ok (with_fields obj m l').
Proof.
  unfold with_fields. rewrite (SetNestedField_map _ _ _ _ (<["fields" := GSlice l]> m))
    by apply lookup_insert_eq.
  by rewrite !insert_insert_eq.
Qed.

Lemma column_value_at l i v : l !! i = Some v → column_value l (Z.of_nat i) = Ok v.
Proof.
  intros Hv. unfold column_value. rewrite Nat2Z.id, Hv, bool_decide_eq_false_2 by lia. done.
Qed.

(** The column [col] is number [i]. *)
Definition numbered col i : Prop := c_Field col = column_field i ∧ Z.of_nat i ≤ max_int64.

Definition stamp now d : Z := UnixMilli (now + wrap64 (- d)).

Lemma to_timestamp_column now col obj m l i v d :
  numbered col i → l !! i = Some (GString v) →
  ParseTimestampOrHumanReadableDuration now v = Ok d →
  to_timestamp now col (with_fields obj m l) =
    Ok (with_fields obj m (<[i := GString (itoa (stamp now d))]> l), None).
Proof.
  intros [Hc Hi] Hv Hd. unfold to_timestamp. rewrite Hc, (GetIndex_column_field i Hi).
  rewrite bool_decide_eq_false_2 by lia. rewrite with_fields_slice, (column_value_at _ _ _ Hv).
  cbn [mbind outcome_bind]. rewrite Hd, Nat2Z.id, with_fields_set. done.
Qed.

Lemma from_timestamp_column now col obj m l i z :
  numbered col i → l !! i = Some (GString (itoa z)) → 0 ≤ z →
  z * 1000000 ≤ now ≤ max_int64 →
  from_timestamp now col (with_fields obj m l) =
    Ok (Some (with_fields obj m (<[i := GString (HumanDuration (now - z * 1000000))]> l))).
Proof.
  intros [Hc Hi] Hv Hz Hnow. unfold from_timestamp.
  rewrite Hc, (GetIndex_column_field i Hi), bool_decide_eq_false_2 by lia.
  rewrite with_fields_slice, (column_value_at _ _ _ Hv). cbn [mbind outcome_bind].
  destruct (parse_timestamp_text now z Hz) as [e ->].
  rewrite parse_int_itoa by (unfold max_int64 in *; lia). cbn [mbind option_bind].
  rewrite wrap64_small by (unfold in_int64, min_int64, max_int64 in *; lia).
  assert (Since now (z * 1000000) = now - z * 1000000) as ->.
  { unfold Since, min_int64, max_int64 in *. lia. }
  rewrite bool_decide_eq_false_2 by (apply HumanDuration_valid; lia).
  by rewrite Nat2Z.id, with_fields_set.
Qed.

(** Converting columns of different numbers converts each of them by itself. *)
Lemma cache_columns_all now cols js obj m l (d : nat → Z) :
  Forall2 numbered cols js → NoDup js →
  (∀ i, i ∈ js → ∃ v, l !! i = Some (GString v) ∧
    ParseTimestampOrHumanReadableDuration now v = Ok (d i)) →
  ∃ l', cache_columns now cols (with_fields obj m l) = Ok (with_fields obj m l') ∧
    ∀ i, l' !! i = if decide (i ∈ js) then Some (GString (itoa (stamp now (d i)))) else l !! i.
Proof.
  intros Hn. revert l. induction Hn as [|col i cols js Hcol _ IH]; intros l Hnd Hl; cbn.
  { exists l. split; [done|]. intros i. rewrite decide_False; [done|]. by intros ?%elem_of_nil. }
  apply list.NoDup_cons in Hnd as [Hi Hnd].
  destruct (Hl i ltac:(left)) as (v & Hv & Hd).
  rewrite (to_timestamp_column _ _ _ _ _ _ _ _ Hcol Hv Hd). cbn [mbind outcome_bind fst].
  destruct (IH (<[i := GString (itoa (stamp now (d i)))]> l) Hnd) as (l' & Hl' & Hlook).
  { intros j Hj. rewrite list_lookup_insert_ne by (intros ->; done). apply Hl. by right. }
  exists l'. split; [done|]. intros j. rewrite Hlook.
  destruct (decide (j = i)) as [->|Hji].
  - rewrite decide_False by done. rewrite decide_True by left.
    apply list_lookup_insert_eq. by apply lookup_lt_Some in Hv.
  - rewrite list_lookup_insert_ne by done. apply decide_ext. rewrite elem_of_cons. tauto.
Qed.

Lemma convert_columns_all now cols js obj m l (z : nat → Z) :
  Forall2 numbered cols js → NoDup js →
  (∀ i, i ∈ js → l !! i = Some (GString (itoa (z i))) ∧ 0 ≤ z i ∧ z i * 1000000 ≤ now ≤ max_int64) →
  ∃ l', convert_columns now cols (with_fields obj m l) = Ok (with_fields obj m l') ∧
    ∀ i, l' !! i = if decide (i ∈ js) then Some (GString (HumanDuration (now - z i * 1000000)))
                   else l !! i.
Proof.
  intros Hn. revert l. induction Hn as [|col i cols js Hcol _ IH]; intros l Hnd Hl; cbn.
  { exists l. split; [done|]. intros i. rewrite decide_False; [done|]. by intros ?%elem_of_nil. }
  apply list.NoDup_cons in Hnd as [Hi Hnd].
  destruct (Hl i ltac:(left)) as (Hv & Hz & Hnow).
  rewrite (from_timestamp_column _ _ _ _ _ _ _ Hcol Hv Hz Hnow). cbn [mbind outcome_bind].
  destruct (IH (<[i := GString (HumanDuration (now - z i * 1000000))]> l) Hnd) as (l' & Hl' & Hlook).
  { intros j Hj. rewrite list_lookup_insert_ne by (intros ->; done). apply Hl. by right. }
  exists l'. split; [done|]. intros j. rewrite Hlook.
  destruct (decide (j = i)) as [->|Hji].
  - rewrite decide_False by done. rewrite decide_True by left.
    apply list_lookup_insert_eq. by apply lookup_lt_Some in Hv.
  - rewrite list_lookup_insert_ne by done. apply decide_ext. rewrite elem_of_cons. tauto.
Qed.

Definition number_from (n : nat) (columns : list (string * string)) : list ColumnDefinition :=
  imap (λ i c, mkColumn c.1 c.2 (column_field (n + i))) columns.

Lemma number_from_cons n c columns : number_from n (c :: columns) =
  mkColumn c.1 c.2 (column_field n) :: number_from (S n) columns.
Proof.
  unfold number_from. rewrite imap_cons, Nat.add_0_r. f_equal.
  apply imap_ext. intros i x _. cbn. by rewrite Nat.add_succ_r.
Qed.

Lemma filter_numbered (P : ColumnDefinition → bool) n columns :
  Z.of_nat (n + length columns) ≤ max_int64 →
  ∃ js, Forall2 numbered (List.filter P (number_from n columns)) js ∧ NoDup js ∧
    ∀ i, i ∈ js ↔ (n ≤ i)%nat ∧ ∃ c, number_from n columns !! (i - n)%nat = Some c ∧ P c = true.
Proof.
  revert n. induction columns as [|c0 columns IH]; intros n Hlen.
  { exists []. split; [constructor|]. split; [constructor|]. intros i. split; [by intros ?%elem_of_nil|].
    by intros (_ & c & Hc & _). }
  cbn in Hlen. destruct (IH (S n)) as (js & Hjs & Hnd & Hin); [lia|].
  rewrite number_from_cons. cbn [List.filter]. set (col := mkColumn _ _ _).
  assert (∀ i, (S n ≤ i)%nat → (col :: number_from (S n) columns) !! (i - n)%nat =
    number_from (S n) columns !! (i - S n)%nat) as Hlook.
  { intros i Hi. replace (i - n)%nat with (S (i - S n))%nat by lia. done. }
  destruct (P col) eqn:HP.
  - exists (n :: js). split.
    { constructor; [|done]. split; [done|lia]. }
    split; [apply list.NoDup_cons; split; [|done]; intros [? _]%Hin; lia|].
    intros i. rewrite elem_of_cons, Hin. split.
    + intros [->|[Hi Hc]]; [|split; [lia|by setoid_rewrite (Hlook i Hi)]].
      split; [done|]. exists col. by rewrite Nat.sub_diag.
    + intros [Hi Hc]. destruct (decide (i = n)) as [->|]; [by left|]. right.
      split; [lia|]. by setoid_rewrite (Hlook i ltac:(lia)) in Hc.
  - exists js. split; [done|]. split; [done|]. intros i. rewrite Hin. split.
    + intros [Hi Hc]. split; [lia|]. by setoid_rewrite (Hlook i Hi).
    + intros [Hi (c & Hc & HPc)]. destruct (decide (i = n)) as [->|].
      { rewrite Nat.sub_diag in Hc. cbn in Hc. congruence. }
      split; [lia|]. rewrite (Hlook i ltac:(lia)) in Hc. by exists c.
Qed.

Lemma with_fields_same obj m l :
  obj !! "metadata" = Some (GMap m) → m !! "fields" = Some (GSlice l) → with_fields obj m l = obj.
Proof. intros Ho Hm. unfold with_fields. by rewrite (insert_id m), insert_id. Qed.
End date_lemmas.

(** * Theorems *)

(** An age that is cached at one time and shown at a later one has grown by the time in
    between, up to a millisecond: for every date column whose text can be read when the object
    is cached, the formatted object shows the duration from then until it is formatted, and all
    other columns and fields are as they were. *)
Theorem date_columns_fresh `{TimeLaws, !NestedFields, !NestedFieldsLaws} gvk isCRD columns
    (t0 t1 : Z) (obj m : object) (l : list goval) (d : nat → Z) :
  let date i := ∃ c, SetColumns columns !! i = Some c ∧ is_date_column gvk isCRD c = true in
  (Z.of_nat (length columns) ≤ max_int64)%Z → (0 ≤ t0 ≤ t1)%Z → (t1 ≤ max_int64)%Z →
  obj !! "metadata" = Some (GMap m) → m !! "fields" = Some (GSlice l) →
  (∀ i, date i → ∃ v, l !! i = Some (GString v) ∧
    ParseTimestampOrHumanReadableDuration t0 v = Ok (d i) ∧ (0 ≤ t0 - d i ≤ t1)%Z) →
  ∃ cached l', transform_dates t0 gvk isCRD (SetColumns columns) obj = Ok cached ∧
    convertMetadataTimestampFields t1 gvk isCRD (SetColumns columns) cached =
      Ok (with_fields obj m l') ∧
    ∀ i, (date i → ∃ age, l' !! i = Some (GString (HumanDuration age)) ∧
           (t1 - t0 + d i ≤ age < t1 - t0 + d i + 1000000)%Z) ∧
         (¬ date i → l' !! i = l !! i).
Proof.
  intros date Hlen Ht Ht1 Ho Hm Hd.
  destruct (filter_numbered (is_date_column gvk isCRD) 0 columns Hlen) as (js & Hjs & Hnd & Hin).
  assert (∀ i, i ∈ js ↔ date i) as Hdate.
  { intros i. rewrite Hin. unfold date. rewrite Nat.sub_0_r. change (number_from 0 columns) with (SetColumns columns).
    split; [by intros [_ ?]|]. split; [lia|done]. }
  unfold transform_dates, convertMetadataTimestampFields.
  change (SetColumns columns) with (number_from 0 columns).
  pose proof (with_fields_same obj m l Ho Hm) as Hsame.
  destruct (cache_columns_all t0 _ js obj m l d Hjs Hnd) as (l1 & Hl1 & Hlook1).
  { intros i Hi. destruct (Hd i) as (v & Hv & Hp & _); [by apply Hdate|]. by exists v. }
  assert (∀ i, i ∈ js → (t0 + - d i - 1000000 < stamp t0 (d i) * 1000000 ≤ t0 + - d i)%Z ∧
    (0 ≤ stamp t0 (d i))%Z) as Hstamp.
  { intros i Hi. destruct (Hd i) as (v & _ & _ & Hb); [by apply Hdate|]. unfold stamp, UnixMilli.
    rewrite wrap64_small by (unfold in_int64, min_int64, max_int64 in *; lia).
    pose proof (Z.div_mod (t0 + - d i) 1000000 ltac:(lia)).
    pose proof (Z.mod_pos_bound (t0 + - d i) 1000000 ltac:(lia)).
    split; [lia|]. apply Z.div_pos; lia. }
  destruct (convert_columns_all t1 _ js obj m l1 (λ i, stamp t0 (d i)) Hjs Hnd) as (l2 & Hl2 & Hlook2).
  { intros i Hi. rewrite Hlook1, decide_True by done. split; [done|].
    destruct (Hd i) as (v & _ & _ & Hb); [by apply Hdate|]. destruct (Hstamp i Hi). lia. }
  exists (with_fields obj m l1), l2. split; [by rewrite <- Hl1, Hsame|]. split; [done|]. intros i. rewrite Hlook2. split.
  - intros Hi%Hdate. rewrite decide_True by done. eexists. split; [done|].
    destruct (Hstamp i Hi). lia.
  - intros Hi. rewrite <- Hdate in Hi. by rewrite Hlook1, !decide_False.
Qed.

Module DateExample.
Import ConcreteEdit.
Open Scope Z_scope.

Definition time : Time := {|
  ParseRFC3339 := λ _, None;
  HumanDuration := λ d, if decide (d < 0) then "<invalid>" else itoa (d / second) +:+ "s"
|}.
#[local] Existing Instance time.
Lemma time_laws : TimeLaws.
Proof.
  split; [done|]. intros d Hd. cbn. rewrite decide_False by lia. unfold itoa.
  intros Heq. pose proof (itoa_digits (d / second) ltac:(apply Z.div_pos; [lia|done])) as Hdig.
  unfold itoa in Hdig. destruct (pretty (d / second)) as [|c r]; [done|].
  injection Heq as -> _. done.
Qed.
#[local] Existing Instance time_laws.

Definition pods : GroupVersionKind := mkGVK "" "v1" "Pod".
Definition pod : object :=
  {["metadata" := GMap {["fields" := GSlice [GString "web"; GString "3m"]]}]}.
Definition now : Z := 10 ^ 18.

(** The age of three minutes is one of four a minute later. *)
Lemma date_columns_fresh_witness :
  (∃ cached l', transform_dates now pods false (SetColumns [("Name", "string"); ("Age", "string")]) pod = Ok cached ∧
    convertMetadataTimestampFields (now + 60 * second) pods false
      (SetColumns [("Name", "string"); ("Age", "string")]) cached = Ok (with_fields pod
        {["fields" := GSlice [GString "web"; GString "3m"]]} l')) ∧
  (cached ← transform_dates now pods false (SetColumns [("Name", "string"); ("Age", "string")]) pod;
   convertMetadataTimestampFields (now + 60 * second) pods false
     (SetColumns [("Name", "string"); ("Age", "string")]) cached) =
  Ok {["metadata" := GMap {["fields" := GSlice [GString "web"; GString "240s"]]}]}.
Proof.
  split; [|vm_compute; reflexivity].
  destruct (date_columns_fresh pods false [("Name", "string"); ("Age", "string")] now
    (now + 60 * second) pod {["fields" := GSlice [GString "web"; GString "3m"]]}
    [GString "web"; GString "3m"] (λ _, 180 * second)) as (cached & l' & H1 & H2 & _).
  - vm_compute. discriminate.
  - split; vm_compute; discriminate.
  - vm_compute. discriminate.
  - reflexivity.
  - reflexivity.
  - intros i (c & Hc & Hdate). destruct i as [|[|i]].
    + injection Hc as <-. vm_compute in Hdate. discriminate.
    + exists "3m". split; [reflexivity|]. split; [vm_compute; reflexivity|].
      split; vm_compute; discriminate.
    + discriminate.
  - by exists cached, l'.
Defined.

(** A cron job that never ran: its first date column cannot be read, and the age after it stays
    a point in time. *)
Example unreadable_column_stops :
  let columns := SetColumns [("Last Schedule", "string"); ("Age", "string")] in
  let cronjobs := mkGVK "batch" "v1beta1" "CronJob" in
  (cached ← transform_dates now cronjobs false columns
     {["metadata" := GMap {["fields" := GSlice [GString "<none>"; GString "3m"]]}]};
   convertMetadataTimestampFields (now + 60 * second) cronjobs false columns cached) =
  Ok {["metadata" := GMap {["fields" := GSlice [GString "<none>"; GString "999999820000"]]}]}.
Proof. vm_compute. reflexivity. Qed.

(** An empty column is read as a duration of nothing. *)
Example empty_duration : ParseTimestampOrHumanReadableDuration now "" = Ok 0.
Proof. vm_compute. reflexivity. Qed.
End DateExample.
