(* ===== verification/VirtualFields.v ===== *)
(** * Fields added before an object is cached: pkg/resources/virtual

    A transform function adds the id, the state and the relationships to an object before the
    SQL cache stores it, and converts events, clusters and date columns. A client that reads
    such an object from a list and sends it back must not write any of it to Kubernetes. *)
From S2P Require Import Prelude GoLib GoValue KubeTypes ListProcessor Partitions ProxyStore.
From S2P Require SummaryCache DateFields.

(** What is used of wrangler's conditions: the maps of a slice, and what the summarizers say
    about a condition of an object, an error and a transition. *)
Class Conditions := {
  Object_Slice : object → list string → list object;
  condition_summary : object → object → bool * bool
}.
Class ConditionsLaws `{ObjectData, Conditions} := {
  Object_Slice_maps : ∀ o ks l, GetValue o ks = Some (GSlice (GMap <$> l)) → Object_Slice o ks = l;
  Object_Slice_none : ∀ o ks, GetValue o ks = None → Object_Slice o ks = []
}.

(** [resource.ParseQuantity] and the text of the float of a quantity. *)
Class Quantities := { ParseQuantity : string → option string }.

(** [json.Marshal] of a relationship, read back as a map: empty fields are left out. *)
Definition string_field (k v : string) : list (string * goval) :=
  if bool_decide (v = "") then [] else [(k, GString v)].
Definition bool_field (k : string) (v : bool) : list (string * goval) :=
  if v then [(k, GBool true)] else [].
Definition toMap (r : SummaryCache.Relationship) : object :=
  list_to_map (
    string_field "toId" (SummaryCache.ToID r) ++ string_field "toType" (SummaryCache.ToType r) ++
    string_field "toNamespace" (SummaryCache.ToNamespace r) ++
    string_field "fromId" (SummaryCache.FromID r) ++
    string_field "fromType" (SummaryCache.FromType r) ++
    string_field "rel" (SummaryCache.Rel r) ++ string_field "selector" (SummaryCache.Selector r) ++
    string_field "state" (SummaryCache.State r) ++ string_field "message" (SummaryCache.Message r) ++
    bool_field "error" (SummaryCache.Error r) ++
    bool_field "transitioning" (SummaryCache.Transitioning r)).

Section common.
Context `{ObjectData, ObjectEdit, Conditions}.
(* the summary cache: no summary, or one, and the relationships *)
Context (SummaryAndRelationship :
  object → option SummaryCache.SummarizedObject * list SummaryCache.Relationship).
Implicit Types (raw : object) (condition : object).

Definition addIDField raw : object :=
  let objectID := Obj_GetName raw in
  let namespace := Obj_GetNamespace raw in
  let objectID := if bool_decide (namespace ≠ "") then namespace +:+ "/" +:+ objectID
                  else objectID in
  let raw' := match raw !! "id" with
    | Some currentIDValue => <["_id" := currentIDValue]> raw
    | None => raw
    end in
  <["id" := GString objectID]> raw'.

Definition normalize_condition raw condition : object :=
  let '(error, transitioning) := condition_summary raw condition in
  let condition := <["transitioning" := GBool transitioning]>
                     (<["error" := GBool error]> condition) in
  if bool_decide (Object_String condition ["lastUpdateTime"] = "")
  then <["lastUpdateTime" := GString (Object_String condition ["lastTransitionTime"])]> condition
  else condition.

(** The conditions are changed in place, one after the other. *)
Fixpoint normalize_from raw (newConditions conditions : list object) : list object :=
  match conditions with
  | [] => newConditions
  | condition :: rest =>
      let obj := PutValue raw (GSlice (GMap <$> (newConditions ++ condition :: rest)))
                   ["status"; "conditions"] in
      normalize_from raw (newConditions ++ [normalize_condition obj condition]) rest
  end.
Definition normalizeConditions raw : object :=
  match Object_Slice raw ["status"; "conditions"] with
  | [] => raw
  | conditions =>
      SetNested raw (GSlice (GMap <$> normalize_from raw [] conditions)) ["status"; "conditions"]
  end.

Definition state_map (s : SummaryCache.SummarizedObject) : object :=
  {["name" := GString (SummaryCache.so_State s); "error" := GBool (SummaryCache.so_Error s);
    "transitioning" := GBool (SummaryCache.so_Transitioning s);
    "message" := GString (join ":" (SummaryCache.so_Message s))]}.

Definition addSummaryFields raw : object :=
  let '(s, relationships) := SummaryAndRelationship raw in
  let raw := match s with
    | Some s => PutValue raw (GMap (state_map s)) ["metadata"; "state"]
    | None => raw
    end in
  let raw := PutValue raw (GSlice ((λ r, GMap (toMap r)) <$> relationships))
               ["metadata"; "relationships"] in
  normalizeConditions raw.

Definition TransformCommon raw : object := addSummaryFields (addIDField raw).

Definition TransformEventObject raw : object :=
  match raw !! "type" with
  | Some currentTypeValue => <["_type" := currentTypeValue]> raw
  | None => raw
  end.
End common.

(** ** Clusters

    A converter gives back the object and perhaps an error; a failed type assertion panics. *)
Section cluster.
Context `{NestedFields, Quantities}.
Implicit Types (obj mapx : object).

Definition is_string (v : option goval) (s : string) : bool :=
  match v with Some (GString x) => bool_decide (x = s) | _ => false end.

(** Whether one of the conditions says that the cluster is ready; [None] when a condition
    before it is not a map. *)
Fixpoint connected (conditions : list goval) : option bool :=
  match conditions with
  | [] => Some false
  | GMap c :: rest =>
      if is_string (c !! "type") "Ready" && is_string (c !! "status") "True"
      then Some true else connected rest
  | _ :: _ => None
  end.

(** [mem.(string)] for a value that may be missing. *)
Definition as_string (v : option goval) : outcome string string :=
  match v with Some (GString s) => Ok s | _ => Panic end.

(** The memory and the processors of a map of resources, as numbers; whether it changed. The
    message about processors that cannot be parsed shows the memory. *)
Definition convert_memory mapx : outcome string (object * bool) :=
  match mapx !! "memory" with
  | None => Ok (mapx, false)
  | mem =>
      s ← as_string mem;
      match ParseQuantity s with
      | Some f => Ok (<["memoryRaw" := GFloat64 f]> mapx, true)
      | None => Ok (mapx, false)
      end
  end.
Definition convert_cpu (mem : option goval) mapx (madeChange : bool) : outcome string (object * bool) :=
  match mapx !! "cpu" with
  | None => Ok (mapx, madeChange)
  | cpu =>
      s ← as_string cpu;
      match ParseQuantity s with
      | Some f => Ok (<["cpuRaw" := GFloat64 f]> mapx, true)
      | None => _ ← as_string mem; Ok (mapx, madeChange)
      end
  end.

Definition convert_resources obj (statusName : string) : outcome string object :=
  match NestedMap obj ["status"; statusName] with
  | Ok (Some mapx) =>
      '(mapx', madeChange) ← convert_memory mapx;
      '(mapx', madeChange) ← convert_cpu (mapx !! "memory") mapx' madeChange;
      if (madeChange : bool) then
        match SetNestedField obj (GMap mapx') ["status"; statusName] with
        | Ok obj => Ok obj
        | Err _ => Ok obj
        | Panic => Panic
        end
      else Ok obj
  | Panic => Panic
  | _ => Ok obj
  end.

Definition TransformManagedCluster obj : outcome string (object * option string) :=
  match NestedField obj ["status"; "conditions"] with
  | Err e => Ok (obj, Some e)
  | Panic => Panic
  | Ok None => Ok (obj, Some "failed to find status.conditions block in cluster")
  | Ok (Some (GSlice conditions)) =>
      match connected conditions with
      | None => Ok (obj, Some "failed to parse a condition as a map")
      | Some connectedStatus =>
          match SetNestedField obj (GBool connectedStatus) ["status"; "connected"] with
          | Err e => Ok (obj, Some e)
          | Panic => Panic
          | Ok obj =>
              obj ← convert_resources obj "requested";
              obj ← convert_resources obj "allocatable";
              Ok (obj, None)
          end
      end
  | Ok (Some _) => Ok (obj, Some "failed to parse status.conditions as array")
  end.
End cluster.

(** ** The transform function of a kind *)
Section transform.
Context `{ObjectData, ObjectEdit, Conditions, NestedFields, Quantities, DateFields.Time}.
Context (SummaryAndRelationship :
  object → option SummaryCache.SummarizedObject * list SummaryCache.Relationship).

Definition converter : Type := object → outcome string (object * option string).
Definition pure_converter (f : object → object) : converter := λ obj, Ok (f obj, None).

Definition GetTransformFunc (now : Z) (gvk : GroupVersionKind)
    (columns : list DateFields.ColumnDefinition) (isCRD : bool) : list converter :=
  (if bool_decide (gvk = mkGVK "" "v1" "Event") then [pure_converter TransformEventObject]
   else if bool_decide (gvk = mkGVK "management.cattle.io" "v3" "Cluster")
   then [TransformManagedCluster] else []) ++
  (DateFields.to_timestamp now <$> List.filter (DateFields.is_date_column gvk isCRD) columns) ++
  [pure_converter (TransformCommon SummaryAndRelationship)].

(** The converters run one after the other, also after an error. *)
Fixpoint run_converters (fs : list converter) (obj : object) : outcome string object :=
  match fs with
  | [] => Ok obj
  | f :: fs => res ← f obj; run_converters fs res.1
  end.

(** What an informer hands over: an object, the mark of a missed deletion, or something else. *)
Inductive raw_object := RawUnstructured (o : object) | RawFinalUnknown | RawOther.
Definition GetUnstructured (raw : raw_object) : outcome string (option object) :=
  match raw with
  | RawUnstructured o => Ok (Some o)
  | RawFinalUnknown => Ok None
  | RawOther => Err "object was not unstructured"
  end.
Definition transform (now : Z) (gvk : GroupVersionKind)
    (columns : list DateFields.ColumnDefinition) (isCRD : bool) (raw : raw_object)
    : outcome string raw_object :=
  obj ← GetUnstructured raw;
  match obj with
  | None => Ok raw
  | Some obj => RawUnstructured <$> run_converters (GetTransformFunc now gvk columns isCRD) obj
  end.
End transform.

(** * Lemmas *)

(** ** Resources that panic *)
Section cluster_lemmas.
Context `{NestedFieldsLaws, Quantities}.
Implicit Types (obj s mapx : object).

(** Memory or processors that are no texts, or processors that cannot be parsed without a
    memory to show in the message. *)
Definition unreadable mapx : bool :=
  match mapx !! "memory", mapx !! "cpu" with
  | Some (GString _), Some (GString _) | Some (GString _), None | None, None => false
  | None, Some (GString cpu) => bool_decide (ParseQuantity cpu = None)
  | _, _ => true
  end.

Lemma convert_memory_cpu mapx :
  if unreadable mapx
  then convert_memory mapx = Panic ∨
    ∃ m b, convert_memory mapx = Ok (m, b) ∧ convert_cpu (mapx !! "memory") m b = Panic
  else ∃ m b m' b', convert_memory mapx = Ok (m, b) ∧
    convert_cpu (mapx !! "memory") m b = Ok (m', b').
Proof.
  unfold convert_memory, convert_cpu, unreadable.
  destruct (mapx !! "memory") as [[| | | | |mem| |]|] eqn:Hmem; cbn; try (by left).
  - destruct (mapx !! "cpu") as [[| | | | |cpu| |]|] eqn:Hcpu;
      try destruct (ParseQuantity cpu) eqn:Hq; destruct (ParseQuantity mem);
      try (right; do 2 eexists; split; [done|];
           rewrite ?lookup_insert_ne, Hcpu by done; reflexivity);
      (do 4 eexists; split; [done|]; rewrite ?lookup_insert_ne, Hcpu by done; cbn;
       rewrite ?Hq; reflexivity).
  - destruct (mapx !! "cpu") as [[| | | | |cpu| |]|] eqn:Hcpu; cbn;
      try (right; do 2 eexists; split; [done|]; rewrite Hcpu; reflexivity).
    + destruct (ParseQuantity cpu) eqn:Hq; cbn.
      * do 4 eexists. split; [done|]. rewrite Hcpu. cbn. by rewrite Hq.
      * right. do 2 eexists. split; [done|]. rewrite Hcpu. cbn. by rewrite Hq.
    + do 4 eexists. split; [done|]. by rewrite Hcpu.
Qed.

Definition resource_unreadable s (name : string) : bool :=
  match s !! name with Some (GMap mapx) => unreadable mapx | _ => false end.

(** Converting the resources of one name changes nothing but them. *)
Lemma convert_resources_spec obj s name : obj !! "status" = Some (GMap s) →
  if resource_unreadable s name then convert_resources obj name = Panic
  else ∃ v, convert_resources obj name = Ok (<["status" := GMap v]> obj) ∧
    ∀ k, k ≠ name → v !! k = s !! k.
Proof.
  intros Hs. pose proof (NestedField_map obj "status" name s Hs) as Hf.
  unfold resource_unreadable, convert_resources.
  assert (∃ v, Ok (E := string) obj = Ok (<["status" := GMap v]> obj) ∧
    ∀ k, k ≠ name → v !! k = s !! k) as Hsame.
  { exists s. by rewrite insert_id. }
  destruct (s !! name) as [[| | | | | | |mapx]|] eqn:Hn.
  1-7: by destruct (NestedMap_other _ _ _ Hf) as [e ->].
  2: { by rewrite (NestedMap_none _ _ Hf). }
  rewrite (NestedMap_found _ _ _ Hf). pose proof (convert_memory_cpu mapx) as Hu.
  destruct (unreadable mapx).
  - destruct Hu as [Hm|(m & b & Hm & Hc)]; rewrite Hm; cbn; [done|]. by rewrite Hc.
  - destruct Hu as (m & b & m' & b' & Hm & Hc). rewrite Hm. cbn. rewrite Hc. cbn.
    destruct b'; [|done]. rewrite (SetNestedField_map _ _ _ _ s Hs).
    eexists. split; [done|]. intros k Hk. by apply lookup_insert_ne.
Qed.
End cluster_lemmas.

(** ** Objects of the cache *)
Section cached.
Context `{ObjectEditLaws, !ObjectDataLaws, !APIServer, !APIServerLaws, MapRange, Conditions,
  !ConditionsLaws}.
Context (SummaryAndRelationship :
  object → option SummaryCache.SummarizedObject * list SummaryCache.Relationship).
Implicit Types (o c m raw : object).

(** The details a condition gets are those the unformatter removes. *)
Lemma kept_normalize raw c : kept_condition (normalize_condition raw c) = kept_condition c.
Proof.
  unfold kept_condition, normalize_condition. destruct (condition_summary raw c) as [e t].
  destruct (bool_decide _).
  - by rewrite delete_insert_eq, (delete_insert_ne _ "lastUpdateTime" "transitioning"), delete_insert_eq,
      (delete_insert_ne _ "lastUpdateTime" "error"), (delete_insert_ne _ "transitioning" "error"), delete_insert_eq by done.
  - by rewrite (delete_insert_ne _ "lastUpdateTime" "transitioning"), delete_insert_eq,
      (delete_insert_ne _ "lastUpdateTime" "error"), (delete_insert_ne _ "transitioning" "error"), delete_insert_eq by done.
Qed.

Lemma kept_normalize_from raw new cs :
  kept_condition <$> normalize_from raw new cs = (kept_condition <$> new) ++ (kept_condition <$> cs).
Proof.
  revert new. induction cs as [|c cs IH]; intros new; cbn [normalize_from]; [by rewrite app_nil_r|].
  rewrite IH, fmap_app, <- app_assoc. cbn. by rewrite kept_normalize.
Qed.

(** Normalising changes nothing but the status, in a way the unformatter takes back. *)
Lemma normalizeConditions_status o raw : map_conditions o → raw !! "status" = o !! "status" →
  (∀ k, k ≠ "status" → normalizeConditions raw !! k = raw !! k) ∧
  ((normalizeConditions raw !! "status" = o !! "status" ∧
    ∀ s, o !! "status" = Some (GMap s) → s !! "conditions" = None) ∨
   (∃ s l l', o !! "status" = Some (GMap s) ∧ s !! "conditions" = Some (GSlice (GMap <$> l)) ∧
     normalizeConditions raw !! "status" = Some (GMap (<["conditions" := GSlice (GMap <$> l')]> s)) ∧
     kept_condition <$> l' = kept_condition <$> l)).
Proof.
  intros Ho Hraw. unfold normalizeConditions. destruct Ho as [Hno|(s & l & Hs & Hc)].
  - rewrite Object_Slice_none by (apply GetValue_two_none; rewrite Hraw; apply Hno).
    split; [done|]. by left.
  - assert (Object_Slice raw ["status"; "conditions"] = l) as ->.
    { apply Object_Slice_maps. rewrite (GetValue_two _ _ _ s) by congruence. done. }
    destruct l as [|c l].
    { split; [done|]. right. exists s, [], []. cbn. rewrite (insert_id s) by done. by rewrite Hraw. }
    rewrite (SetNested_map _ _ _ _ s) by congruence. split.
    { intros k Hk. by apply lookup_insert_ne. }
    right. exists s, (c :: l), (normalize_from raw [] (c :: l)).
    split; [done|]. split; [done|]. split; [by rewrite lookup_insert_eq|].
    by apply (kept_normalize_from raw []).
Qed.

(** What the transform function leaves of an object with columns. *)
Definition with_columns o cells : object := PutValue o cells ["metadata"; "fields"].

Lemma TransformCommon_fields o cells m : o !! "metadata" = Some (GMap m) → map_conditions o →
  let t := TransformCommon SummaryAndRelationship (with_columns o cells) in
  (∃ m', t !! "metadata" = Some (GMap m') ∧
    plain_metadata m' = plain_metadata (<["fields" := cells]> m)) ∧
  ((t !! "status" = o !! "status" ∧
    ∀ s, o !! "status" = Some (GMap s) → s !! "conditions" = None) ∨
   (∃ s l l', o !! "status" = Some (GMap s) ∧ s !! "conditions" = Some (GSlice (GMap <$> l)) ∧
     t !! "status" = Some (GMap (<["conditions" := GSlice (GMap <$> l')]> s)) ∧
     kept_condition <$> l' = kept_condition <$> l)) ∧
  (t !! "_id" = if o !! "id" is Some v then Some v else o !! "_id") ∧
  ∀ k, k ∉ ["metadata"; "status"; "id"; "_id"] → t !! k = o !! k.
Proof.
  intros Hm Hst t. unfold t, TransformCommon, addSummaryFields.
  set (o1 := addIDField (with_columns o cells)).
  assert (o1 !! "metadata" = Some (GMap (<["fields" := cells]> m))) as Hm1.
  { unfold o1, addIDField, with_columns. rewrite (PutValue_map _ _ _ _ _ Hm).
    rewrite lookup_insert_ne by done. destruct (_ !! "id"); rewrite ?lookup_insert_ne by done;
      by rewrite lookup_insert_eq. }
  assert (∀ k, k ∉ ["metadata"; "id"; "_id"] → o1 !! k = o !! k) as Hk1.
  { intros k Hk. unfold o1, addIDField, with_columns. rewrite (PutValue_map _ _ _ _ _ Hm).
    rewrite lookup_insert_ne by set_solver.
    destruct (_ !! "id"); rewrite !lookup_insert_ne by set_solver; done. }
  assert (o1 !! "_id" = if o !! "id" is Some v then Some v else o !! "_id") as Hid1.
  { unfold o1, addIDField, with_columns. rewrite (PutValue_map _ _ _ _ _ Hm).
    rewrite lookup_insert_ne by done. rewrite (lookup_insert_ne _ _ "id") by done.
    destruct (o !! "id"); rewrite ?lookup_insert_eq, ?lookup_insert_ne by done; done. }
  destruct (SummaryAndRelationship o1) as [s rels].
  set (o2 := match s with Some _ => _ | None => _ end).
  assert (∃ m2, o2 !! "metadata" = Some (GMap m2) ∧
    plain_metadata m2 = plain_metadata (<["fields" := cells]> m) ∧
    ∀ k, k ≠ "metadata" → o2 !! k = o1 !! k) as (m2 & Hm2 & Hp2 & Hk2).
  { unfold o2. destruct s as [s|]; [|by eexists].
    rewrite (PutValue_map _ _ _ _ _ Hm1). eexists. rewrite lookup_insert_eq. split; [done|].
    split; [|intros; by rewrite lookup_insert_ne].
    unfold plain_metadata. rewrite !(delete_insert_ne _ _ "state") by done.
    by rewrite delete_insert_eq. }
  rewrite (PutValue_map _ _ _ _ _ Hm2). set (o3 := <["metadata" := _]> o2).
  assert (∀ k, k ≠ "metadata" → o3 !! k = o1 !! k) as Hk3.
  { intros k Hk. unfold o3. rewrite lookup_insert_ne by done. by apply Hk2. }
  destruct (normalizeConditions_status o o3 Hst) as [Hn Hs3].
  { rewrite Hk3, Hk1 by (done || set_solver). done. }
  split; [|split; [done|split]].
  - rewrite Hn by done. unfold o3. rewrite lookup_insert_eq. eexists. split; [done|].
    rewrite <- Hp2. unfold plain_metadata. rewrite (delete_insert_ne _ _ "relationships") by done.
    by rewrite delete_insert_eq.
  - by rewrite Hn, Hk3, Hid1.
  - intros k Hk. rewrite Hn, Hk3, Hk1 by set_solver. done.
Qed.

Lemma sql_reserved k :
  k ∈ range_keys sqlReservedFields ↔ k ≠ "id" ∧ k ∈ range_keys ReservedFields.
Proof.
  rewrite !elem_of_range_keys. unfold sqlReservedFields. split.
  - intros [v (Hne & Hv)%lookup_delete_Some]. split; [done|]. by eexists.
  - intros [Hne Hk]. by rewrite lookup_delete_ne.
Qed.

Lemma moveToUnderscore_sql o j :
  moveToUnderscore o sqlReservedFields !! j =
    if decide (j ∈ range_keys sqlReservedFields) then None
    else if decide (j ∈ String.append "_" <$> range_keys sqlReservedFields)
      then (if o !! (str_drop 1 j) is Some v then Some v else o !! j)
      else o !! j.
Proof.
  apply foldl_to_lookup; [|apply NoDup_range_keys].
  intros k k' [_ Hk]%sql_reserved [_ Hk']%sql_reserved. by apply reserved_plain_keys.
Qed.

Lemma sql_kubernetes o k : k ∈ ["metadata"; "status"; "apiVersion"; "kind"] →
  moveToUnderscore o sqlReservedFields !! k = o !! k.
Proof.
  intros [Hk1 Hk2]%kubernetes_field_not_reserved. rewrite moveToUnderscore_sql, !decide_False; [done| |].
  - intros (k' & -> & [_ Hk']%sql_reserved)%list_elem_of_fmap. apply Hk2.
    apply list_elem_of_fmap. by exists k'.
  - by intros [_ ?]%sql_reserved.
Qed.

(** The item of a list: the cached object, with its id. *)
Definition list_item o cells : object :=
  moveToUnderscore (TransformCommon SummaryAndRelationship (with_columns o cells)) sqlReservedFields.

Lemma four_keys k : k ≠ "metadata" → k ≠ "status" → k ≠ "id" → k ≠ "_id" →
  k ∉ ["metadata"; "status"; "id"; "_id"].
Proof. intros. rewrite !not_elem_of_cons. repeat (split; [done|]). by intros ?%elem_of_nil. Qed.

(** A body with the fields of an item, apart from the reserved ones, is the answer of a read with
    additions. *)
Lemma list_item_decorated `{KindNames} schema o ns cells b :
  stored schema o ns → map_conditions o → is_Some (ReservedFields !! "id") →
  (∀ k, ReservedFields !! k = None → b !! k = list_item o cells !! k) →
  decorated (answered o cells) b.
Proof.
  intros Ho Hst Hid Hb. destruct (stored_metadata _ _ _ Ho) as (m & rv & Hm & _).
  destruct (TransformCommon_fields o cells m Hm Hst) as ((m' & Hm' & Hp) & Hs & Hidt & Hk).
  set (t := TransformCommon SummaryAndRelationship (with_columns o cells)) in *.
  assert (∀ k, k ∈ ["metadata"; "status"] → b !! k = t !! k) as Hbk.
  { intros k Hkin. rewrite Hb.
    - unfold list_item. fold t. apply sql_kubernetes. set_solver.
    - destruct (kubernetes_field_not_reserved k) as [Hno _]; [set_solver|].
      apply eq_None_not_Some. by intros ?%elem_of_range_keys. }
  assert (∀ k, k ≠ "metadata" → with_columns o cells !! k = o !! k) as Hwc.
  { intros k Hne. by apply (answered_lookup o cells m). }
  split.
  - exists (<["fields" := cells]> m), m'. split; [by apply answered_metadata|].
    split; [by rewrite Hbk by set_solver|done].
  - rewrite Hbk by set_solver. unfold answered.
    rewrite moveToUnderscore_kubernetes by set_solver. fold (with_columns o cells).
    by rewrite Hwc.
  - intros k Hkm Hkr. rewrite (Hb k Hkr). unfold list_item, answered. fold (with_columns o cells) t.
    assert (k ∉ range_keys ReservedFields) as Hkr'.
    { intros [v Hv]%elem_of_range_keys. congruence. }
    rewrite moveToUnderscore_sql, moveToUnderscore_lookup.
    rewrite (decide_False (P := k ∈ range_keys sqlReservedFields)) by by intros [_ ?]%sql_reserved.
    rewrite (decide_False (P := k ∈ range_keys ReservedFields)) by done.
    assert (k ≠ "id") as Hnid by (intros ->; destruct Hid; congruence).
    destruct (decide (k ∈ String.append "_" <$> range_keys ReservedFields))
      as [(j & -> & Hj)%list_elem_of_fmap|Hu].
    + cbn [str_drop String.append]. destruct (decide (j = "id")) as [->|Hne].
      * rewrite decide_False.
        2: { intros (j & Hj'%underscore_inj & [Hne _]%sql_reserved)%list_elem_of_fmap. done. }
        change (String "_" "id") with "_id". rewrite Hidt, !Hwc by done. done.
      * rewrite decide_True by (apply list_elem_of_fmap; exists j; split; [done|by apply sql_reserved]).
        apply elem_of_range_keys in Hj. destruct (reserved_kubernetes j Hj) as [Hj1 Hj2].
        cbn in Hj2. rewrite !Hwc by set_solver.
        rewrite (Hk j), (Hk (String "_" j)); [done| |].
        -- apply four_keys; [set_solver..|discriminate|]. intros [= ->]. done.
        -- apply four_keys; [set_solver..|done|]. intros ->.
           by destruct (reserved_plain "_id" "id" Hj Hid).
    + rewrite decide_False.
      2: { intros (j & -> & [_ Hj]%sql_reserved)%list_elem_of_fmap. apply Hu.
           apply list_elem_of_fmap. by exists j. }
      rewrite Hwc by set_solver. apply Hk. apply four_keys; [set_solver..|done|]. intros ->.
      apply Hu. apply list_elem_of_fmap. exists "id". split; [done|]. by apply elem_of_range_keys.
Qed.
End cached.

(** * Theorems *)

(** C28: An object of a type with the common transformation only, without fields of the names the store uses and
    whose conditions, if any, are maps: when a client takes it from a list of the SQL cache and sends it back with PUT, whatever it
    puts into the reserved fields, Kubernetes is sent the object that was
    cached: the id, the state and the relationships the transform
    function added are taken back. Of its conditions the fields error, transitioning and lastUpdateTime are removed; an
    object whose conditions have none of them is sent exactly as it was cached. *)
Theorem cached_object_roundtrip `{ObjectEditLaws, !ObjectDataLaws, !APIServer, !APIServerLaws,
    MapRange, Conditions, !ConditionsLaws, KindNames, Kubernetes, !ClientGetter, JSON}
    SummaryAndRelationship (schema : APISchema) (o b : object) cells ns put data id cl uopts c :
  stored schema o ns → map_conditions o → is_Some (ReservedFields !! "id") →
  AO_Object data = AMap b →
  (∀ k, ReservedFields !! k = None → b !! k = list_item SummaryAndRelationship o cells !! k) →
  Method put ≠ "PATCH" → Client put schema (default "" ns) = Ok cl →
  DecodeParameters (Query put) UpdateV = Ok uopts →
  store_Update put schema data id c =
    translated ('(resp, hs) ← k8s_Update cl (as_written o) (no_options UpdateV);
      mret (answer schema (rowToObject resp, warnings hs))) c ∧
  ((∀ s l c, o !! "status" = Some (GMap s) → s !! "conditions" = Some (GSlice l) → GMap c ∈ l →
      c !! "error" = None ∧ c !! "transitioning" = None ∧ c !! "lastUpdateTime" = None) → as_written o = o).
Proof.
  intros Ho Hst Hid Hdata Hb Hm Hcl Hu.
  pose proof (list_item_decorated _ _ _ _ _ _ Ho Hst Hid Hb) as Hdec.
  destruct (update_keeps _ _ _ _ _ Ho Hdec) as [Hns Hrv].
  rewrite (store_Update_call put schema data id b cl uopts) by (done || by rewrite Hns).
  rewrite (update_sends _ _ _ _ _ Ho Hdec). split; [done|]. by apply as_written_plain.
Qed.

(** Transforming a cluster panics exactly when its requested or allocatable resources have a
    memory or processors that are no text, or processors that cannot be parsed and no memory,
    which the message about them shows. *)
Theorem cluster_transform_panics `{NestedFieldsLaws, Quantities} (obj s : object) conditions ready :
  obj !! "status" = Some (GMap s) → s !! "conditions" = Some (GSlice conditions) →
  connected conditions = Some ready →
  TransformManagedCluster obj = Panic ↔
    resource_unreadable s "requested" = true ∨ resource_unreadable s "allocatable" = true.
Proof.
  intros Hs Hc Hr. unfold TransformManagedCluster.
  rewrite (NestedField_map _ _ _ _ Hs), Hc, Hr, (SetNestedField_map _ _ _ _ s Hs).
  set (s1 := <["connected" := GBool ready]> s).
  pose proof (convert_resources_spec (<["status" := GMap s1]> obj) s1 "requested"
    ltac:(apply lookup_insert_eq)) as Hreq.
  assert (resource_unreadable s1 "requested" = resource_unreadable s "requested") as Hr1.
  { unfold resource_unreadable, s1. by rewrite lookup_insert_ne. }
  rewrite Hr1 in Hreq. destruct (resource_unreadable s "requested").
  { rewrite Hreq. split; [by left|done]. }
  destruct Hreq as (v & -> & Hv). cbn. rewrite insert_insert_eq.
  pose proof (convert_resources_spec (<["status" := GMap v]> obj) v "allocatable"
    ltac:(apply lookup_insert_eq)) as Halloc.
  assert (resource_unreadable v "allocatable" = resource_unreadable s "allocatable") as Hr2.
  { unfold resource_unreadable. rewrite Hv by done. unfold s1. by rewrite lookup_insert_ne. }
  rewrite Hr2 in Halloc. destruct (resource_unreadable s "allocatable").
  - rewrite Halloc. cbn. split; [by right|done].
  - destruct Halloc as (v' & -> & _). cbn. split; [done|by intros [|]].
Qed.

Module VirtualExample.
Import ConcreteData ConcreteEdit ProxyExample.
#[local] Existing Instances canonical_range server server_laws kubernetes getter json.

Definition conditions : Conditions := {|
  Object_Slice := λ o ks, match get_value o ks with Some v => @ToMapSlice simple_edit v | None => [] end;
  condition_summary := λ _ _, (false, true)
|}.
#[local] Existing Instance conditions.
Lemma conditions_laws : ConditionsLaws.
Proof.
  split; cbn.
  - intros o ks l ->. cbn. induction l as [|x l IH]; cbn; [done|]. by rewrite IH.
  - intros o ks ->. done.
Qed.
#[local] Existing Instance conditions_laws.

Definition summary (_ : object) : option SummaryCache.SummarizedObject * list SummaryCache.Relationship :=
  (Some (SummaryCache.mkSummarized "app" "default" "Secret" "v1" "active" false false [] []),
   [SummaryCache.mkRelationship "default/web" "pod" "" "" "" "uses" "" "" "" false false]).

(** A secret with a condition. *)
Definition ready_secret : object :=
  <["status" := GMap {["conditions" := GSlice (GMap <$> [{["type" := GString "Ready"]}])]}]> secret.

Lemma ready_secret_stored : stored schema ready_secret (Some "default").
Proof.
  split; [done|done| |].
  - exists (metadata "7"), "7". by vm_compute.
  - intros k Hk%reserved_field. revert k Hk. apply list.Forall_forall. by repeat constructor.
Qed.

(** What was cached with its state, its relationships and a changed condition is stored as it
    was. *)
Lemma cached_object_roundtrip_witness :
  store_Update (request "PUT" "") schema
    (mkAPIObject "secret" "default/app" (AMap (list_item summary ready_secret (GSlice []))) []) "app" ∅ =
  translated ('(resp, hs) ← k8s_Update "default" ready_secret (no_options UpdateV);
    mret (answer schema (rowToObject resp, warnings hs))) ∅.
Proof.
  assert (as_written ready_secret = ready_secret) as Hsame by (vm_compute; reflexivity).
  rewrite <-Hsame at 2.
  refine (proj1 (cached_object_roundtrip summary schema ready_secret
    (list_item summary ready_secret (GSlice [])) (GSlice []) (Some "default") (request "PUT" "")
    (mkAPIObject "secret" "default/app" (AMap (list_item summary ready_secret (GSlice []))) []) "app"
    "default" false ∅ ready_secret_stored _ _ eq_refl _ _ eq_refl eq_refl)).
  - right. eexists _, [_]. split; [reflexivity|]. split; reflexivity.
  - by eexists.
  - done.
  - discriminate.
Defined.

Definition quantities : Quantities := {|
  ParseQuantity := λ s, if decide (s = "many") then None else Some s |}.
#[local] Existing Instance quantities.

(** A ready cluster whose processors cannot be parsed and that has no memory. *)
Definition cluster_status : object :=
  {["conditions" := GSlice [GMap {["type" := GString "Ready"; "status" := GString "True"]}];
    "requested" := GMap {["cpu" := GString "many"]}]}.
Lemma cluster_transform_panics_witness :
  TransformManagedCluster {["status" := GMap cluster_status]} = Panic.
Proof.
  apply (cluster_transform_panics {["status" := GMap cluster_status]} cluster_status
    [GMap {["type" := GString "Ready"; "status" := GString "True"]}] true);
    [reflexivity..|]. left. vm_compute. reflexivity.
Defined.
End VirtualExample.
