(* ===== verification/IndexFields.v ===== *)
(** * The indexed fields of an object

    [getField], [extractSubFields] and the values of [addIndexFields] of
    pkg/sqlcache/informer/listoption_indexer.go: the texts that are saved in the table of
    fields of a resource. *)
From S2P Require Import Prelude GoLib GoValue SqlQuery SqlProcessor.

(** [fmt.Sprintf("%v", x)]: only the texts of strings, integers and booleans matter. *)
Class GoFmt := { Sprint : goval → string }.
Class GoFmtLaws `{GoFmt} := {
  Sprint_string : ∀ s, Sprint (GString s) = s;
  Sprint_int : ∀ n, Sprint (GInt n) = itoa n ∧ Sprint (GInt64 n) = itoa n;
  Sprint_bool : ∀ b, Sprint (GBool b) = (if b then "true" else "false")
}.

(** [unstructured.NestedFieldNoCopy(obj, field)]: the value of one field, if there is one. *)
Class Nested := { NestedFieldNoCopy : object → string → outcome string (option goval) }.
Class NestedLaws `{Nested} := { NestedFieldNoCopy_one : ∀ o k, NestedFieldNoCopy o k = Ok (o !! k) }.

(** ** The regular expression [([a-zA-Z]+)|(\[[-a-zA-Z./]+])|(\[[0-9]+])] *)
Definition letter (c : ascii) : bool :=
  let n := N_of_ascii c in bool_decide (65 ≤ n ≤ 90)%N || bool_decide (97 ≤ n ≤ 122)%N.
Definition path_char (c : ascii) : bool :=
  letter c || Ascii.eqb c "-" || Ascii.eqb c "." || Ascii.eqb c "/".

(** The longest prefix of bytes that satisfy [f], and the rest. *)
Fixpoint span (f : ascii → bool) (s : string) : string * string :=
  match s with
  | String c r => if f c then let '(a, b) := span f r in (String c a, b) else ("", s)
  | "" => ("", "")
  end.

(** [\[f+]] at the start of what follows an opening bracket: the match and the rest. *)
Definition bracketed (f : ascii → bool) (r : string) : option (string * string) :=
  match span f r with
  | (String c a, String "]" rest) => Some ("[" +:+ String c a +:+ "]", rest)
  | _ => None
  end.

(** The match at the start of a string. *)
Definition subfield_at (s : string) : option (string * string) :=
  match s with
  | "" => None
  | String c r =>
      if letter c then Some (span letter s)
      else if Ascii.eqb c "["
      then match bracketed path_char r with Some m => Some m | None => bracketed is_digit r end
      else None
  end.

(** [FindAllString], by fuel: every step consumes a byte or more. *)
Fixpoint find_subfields (fuel : nat) (s : string) : list string :=
  match fuel, s with
  | 0, _ | _, "" => []
  | S fuel, String _ r =>
      match subfield_at s with
      | Some (m, rest) => m :: find_subfields fuel rest
      | None => find_subfields fuel r
      end
  end.

Definition extractSubFields (fields : string) : list string :=
  trim_suffix_char "." <$> find_subfields (String.length fields) fields.

(** ** getField *)
Inductive field_error :=
  | ErrObjectType                      (* not unstructured.Unstructured *)
  | ErrNested (text : string)          (* an error of NestedFieldNoCopy *)
  | ErrIndex (subField : string)       (* failed to convert subfield to int *)
  | ErrTooLarge (length : nat)         (* given index is too large *)
  | ErrSliceItem (subField : string)   (* failed to get subfield from slice items *)
  | ErrSubfields (subFields : list string)
  | ErrType.                           (* a non-supported type value *)

(** The result: a value, or the strings of a field of the elements of a slice. *)
Inductive field_value := FValue (v : goval) | FStrings (l : list string).

Definition unbracket (subField : string) : string :=
  trim_suffix_char "]" (trim_prefix_char "[" subField).
Definition is_bracketed (subField : string) : bool :=
  match subField with String "[" _ => ends_with "]" subField | _ => false end.

(** The field of an element of a slice. *)
Definition item_field (subField : string) (v : goval) : outcome field_error string :=
  match v with
  | GMap itemVal =>
      match itemVal !! subField with
      | None => Ok ""
      | Some (GString s) => Ok s
      | Some _ => Err (ErrSliceItem subField)
      end
  | _ => Err (ErrSliceItem subField)
  end.

Section getField.
Context `{GoFmt, Nested}.

(** The loop over the subfields; [all] is the list of all of them. *)
Fixpoint get_subfields (all subFields : list string) (obj : goval) : outcome field_error field_value :=
  match subFields with
  | [] => Ok (FValue obj)
  | subField :: rest =>
      match obj with
      | GMap t =>
          match NestedFieldNoCopy t (unbracket subField) with
          | Ok (Some v) => get_subfields all rest v
          | Ok None => Ok (FValue GNil)
          | Err e => Err (ErrNested e)
          | Panic => Panic
          end
      | GSlice t =>
          if is_bracketed subField then
            match parse_int (unbracket subField) with
            | None => Err (ErrIndex subField)
            | Some key =>
                if bool_decide (Z.of_nat (length t) ≤ key)%Z then Err (ErrTooLarge (length t))
                else if bool_decide (key < 0)%Z then Panic
                else get_subfields all rest (GString (Sprint (default GNil (t !! Z.to_nat key))))
            end
          else if bool_decide (rest = []) then FStrings <$> map_outcome (item_field subField) t
          else get_subfields all rest obj
      | _ => Err (ErrSubfields all)
      end
  end.

(** [None] is an object that is not unstructured. *)
Definition getField (a : option object) (field : string) : outcome field_error field_value :=
  match a with
  | None => Err ErrObjectType
  | Some o => let subFields := extractSubFields field in get_subfields subFields subFields (GMap o)
  end.

(** The text of a field in the table. *)
Definition field_text (value : field_value) : outcome field_error string :=
  match value with
  | FValue GNil => Ok ""
  | FValue (GInt _ as v) | FValue (GBool _ as v) | FValue (GString _ as v) | FValue (GInt64 _ as v)
  | FValue (GFloat64 _ as v) => Ok (Sprint v)
  | FStrings l => Ok (join "|" l)
  | FValue (GSlice _) | FValue (GMap _) => Err ErrType
  end.

(** The values [addIndexFields] saves for the indexed fields. *)
Definition index_values (indexedFields : list string) (a : option object)
    : outcome field_error (list string) :=
  map_outcome (λ field, value ← getField a field; field_text value) indexedFields.
End getField.

(** * Lemmas *)
Lemma span_all f s r : all_chars f s = true → (∀ c r', r = String c r' → f c = false) → span f (s +:+ r) = (s, r).
Proof.
  intros Hs Hr. induction s as [|c s IH]; cbn in *.
  - destruct r as [|c r]; [done|]. cbn. by rewrite (Hr c r).
  - apply andb_true_iff in Hs as [-> Hs]. by rewrite IH.
Qed.

Lemma span_length f s : String.length (span f s).2 ≤ String.length s.
Proof. induction s as [|c s IH]; cbn; [lia|]. destruct (f c); cbn; [|lia]. destruct (span f s). cbn in *. lia. Qed.

Lemma span_head f c s : f c = true → String.length (span f (String c s)).2 ≤ String.length s.
Proof. intros Hc. cbn. rewrite Hc. pose proof (span_length f s). by destruct (span f s). Qed.

Lemma bracketed_length f r m rest : bracketed f r = Some (m, rest) → String.length rest ≤ String.length r.
Proof.
  unfold bracketed. pose proof (span_length f r) as Hl. destruct (span f r) as [[|c a] b]; [done|].
  destruct b as [|c' b]; [done|]. cbn in Hl. intros Hm. assert (b = rest) as ->; [|lia].
  destruct c' as [[] [] [] [] [] [] [] []]; congruence.
Qed.

Lemma subfield_at_length s m rest : subfield_at s = Some (m, rest) → String.length rest < String.length s.
Proof.
  destruct s as [|c r]; [done|]. cbn [subfield_at].
  destruct (letter c) eqn:Hc.
  - intros Hm%(inj Some). pose proof (span_head letter c r Hc) as Hl. rewrite Hm in Hl. cbn in *. lia.
  - destruct (Ascii.eqb c "["); [|done].
    destruct (bracketed path_char r) as [[m' r']|] eqn:Hb.
    + intros [= <- <-]. apply bracketed_length in Hb. cbn. lia.
    + intros Hm%bracketed_length. cbn. lia.
Qed.

(** Enough fuel is the length of the string. *)
Lemma find_subfields_fuel n s : String.length s ≤ n → find_subfields n s = find_subfields (String.length s) s.
Proof.
  remember (String.length s) as k eqn:Hk. revert n s Hk. induction k as [k IH] using lt_wf_ind.
  intros n s Hk Hn. destruct s as [|c r]; [subst k; by destruct n|]. cbn [String.length] in Hk.
  destruct n as [|n]; [lia|]. subst k. cbn [find_subfields].
  destruct (subfield_at (String c r)) as [[m rest]|] eqn:Hs.
  - apply subfield_at_length in Hs. cbn in Hs. f_equal.
    rewrite (IH (String.length rest)) by lia. symmetry. apply IH; lia.
  - apply IH; lia.
Qed.

Lemma extract_step s : s ≠ "" → find_subfields (String.length s) s =
  match subfield_at s with
  | Some (m, rest) => m :: find_subfields (String.length rest) rest
  | None => match s with String _ r => find_subfields (String.length r) r | "" => [] end
  end.
Proof.
  destruct s as [|c r]; [done|]. intros _. cbn [String.length find_subfields].
  destruct (subfield_at (String c r)) as [[m rest]|] eqn:Hs; [|done].
  apply subfield_at_length in Hs. cbn in Hs. f_equal. apply find_subfields_fuel. lia.
Qed.

(** A name of letters; a name that is written between brackets. *)
Definition plain_name (s : string) : Prop := s ≠ "" ∧ all_chars letter s = true.
Definition bracket_name (s : string) : Prop :=
  s ≠ "" ∧ all_chars path_char s = true ∧ simpleName_Match s = false.

Definition ends_name (r : string) : Prop := ∀ c r', r = String c r' → letter c = false.

Lemma find_plain s r : plain_name s → ends_name r →
  find_subfields (String.length (s +:+ r)) (s +:+ r) = s :: find_subfields (String.length r) r.
Proof.
  intros [Hne Hs] Hr. rewrite extract_step by by destruct s.
  assert (Hat : subfield_at (s +:+ r) = Some (s, r)).
  { pose proof (span_all letter s r Hs Hr) as Hspan. destruct s as [|c s]; [done|]. cbn in Hs.
    apply andb_true_iff in Hs as [Hc _]. change (String c s +:+ r) with (String c (s +:+ r)) in *.
    cbn [subfield_at]. by rewrite Hc, Hspan. }
  by rewrite Hat.
Qed.

Lemma find_dot r : find_subfields (String.length ("." +:+ r)) ("." +:+ r) = find_subfields (String.length r) r.
Proof. reflexivity. Qed.

Lemma find_bracket s : bracket_name s →
  find_subfields (String.length ("[" +:+ s +:+ "]")) ("[" +:+ s +:+ "]") = ["[" +:+ s +:+ "]"].
Proof.
  intros (Hne & Hs & _). rewrite extract_step by done.
  assert (Hat : subfield_at ("[" +:+ s +:+ "]") = Some ("[" +:+ s +:+ "]", "")); [|by rewrite Hat].
  change ("[" +:+ s +:+ "]") with (String "[" (s +:+ "]")). cbn [subfield_at].
  replace (letter "[") with false by by vm_compute. cbn [Ascii.eqb Bool.eqb].
  unfold bracketed. rewrite span_all; [|done|by intros c r' [= <- _]]. by destruct s.
Qed.

(** The subfields of the column of a path are its names. *)
Definition subfield_of (last : string) : string :=
  if simpleName_Match last then last else "[" +:+ last +:+ "]".

Lemma plain_chars s : plain_name s → has_char "034" s = false ∧ has_char "." s = false ∧ simpleName_Match s = true.
Proof.
  intros [Hne Hs]. split_and!; [by eapply has_char_all_chars; [exact Hs|]..|].
  assert (Himpl : ∀ a, letter a = true → letter_or_underscore a = true).
  { intros a. unfold letter, letter_or_underscore. by intros ->. }
  destruct s as [|c s]; [done|]. cbn in *. apply andb_true_iff in Hs as [Hc Hs].
  rewrite Himpl by done. eapply all_chars_impl; [|exact Hs]. intros a Ha. by rewrite Himpl.
Qed.

Lemma find_path init r : Forall plain_name init → ends_name r →
  find_subfields (String.length (join "." init +:+ r)) (join "." init +:+ r) =
  init ++ find_subfields (String.length r) r.
Proof.
  intros Hinit Hr. induction Hinit as [|x init Hx Hinit IH]; [done|].
  destruct init as [|y init].
  - cbn [join String.concat]. by rewrite find_plain.
  - change (join "." (x :: y :: init)) with (x +:+ "." +:+ join "." (y :: init)).
    rewrite !str_app_assoc, find_plain; [|done|by intros c r' [= <- _]]. by rewrite find_dot, IH.
Qed.

Lemma trim_suffix_char_none c s : has_char c s = false → trim_suffix_char c s = s.
Proof.
  intros Hs. unfold trim_suffix_char. replace (ends_with c s) with false; [done|]. symmetry.
  induction s as [|a s IH]; [done|]. cbn in Hs |- *. apply orb_false_iff in Hs as [Ha Hs].
  destruct s; [done|]. by apply IH.
Qed.

Lemma trim_suffix_char_snoc c s : trim_suffix_char c (s +:+ String c "") = s.
Proof.
  unfold trim_suffix_char. rewrite ends_with_snoc, Ascii.eqb_refl.
  replace (String.length (s +:+ String c "") - 1) with (String.length s) by (rewrite str_length_app; cbn; lia).
  induction s as [|a s IH]; [done|]. cbn. by f_equal.
Qed.

Lemma replace_char_none c rep s : has_char c s = false → replace_char c rep s = s.
Proof.
  induction s as [|a s IH]; [done|]. cbn. intros [Ha Hs]%orb_false_iff. by rewrite Ha, IH.
Qed.

Lemma unbracket_subfield s : plain_name s ∨ bracket_name s → unbracket (subfield_of s) = s.
Proof.
  unfold unbracket, subfield_of. intros [Hp|(Hne & Hs & ->)].
  - destruct (plain_chars s Hp) as (_ & _ & ->). destruct Hp as [_ Hp].
    assert (trim_prefix_char "[" s = s) as ->.
    { destruct s as [|c s]; [done|]. cbn in *. destruct (Ascii.eqb_spec c "["); [by subst|done]. }
    apply trim_suffix_char_none. by eapply has_char_all_chars.
  - change ("[" +:+ s +:+ "]") with (String "[" (s +:+ "]")). cbn [trim_prefix_char Ascii.eqb Bool.eqb].
    apply (trim_suffix_char_snoc "]").
Qed.

Lemma extractSubFields_column init lst : Forall plain_name init → init ≠ [] →
  plain_name lst ∨ bracket_name lst →
  extractSubFields (toColumnName (init ++ [lst])) = init ++ [subfield_of lst].
Proof.
  intros Hinit Hne Hl. unfold toColumnName, Sanitize, dquote. rewrite smartJoin_snoc by done.
  assert (Hq : has_char "034" (join "." init) = false).
  { apply ListProcessor.has_char_join; [done|]. revert Hinit. apply Forall_impl.
    intros x Hx. by apply plain_chars. }
  assert (Htrim : trim_suffix_char "." <$> init ++ [subfield_of lst] = init ++ [subfield_of lst]).
  { rewrite <- (list_fmap_id (init ++ [subfield_of lst])) at 2. apply list_fmap_ext. intros i x Hx.
    apply lookup_app_Some in Hx as [Hx|[_ Hx]].
    - eapply Forall_lookup_1 in Hx; [|exact Hinit]. apply trim_suffix_char_none. by apply plain_chars.
    - apply list_lookup_singleton_Some in Hx as [_ <-]. unfold subfield_of. cbn.
      destruct Hl as [Hl|(_ & Hs & ->)].
      + destruct (plain_chars lst Hl) as (_ & Hd & ->). by apply trim_suffix_char_none.
      + unfold trim_suffix_char.
        change (String "[" (lst +:+ "]")) with (String "[" lst +:+ String "]" ""). by rewrite ends_with_snoc. }
  unfold extractSubFields. rewrite <- Htrim. f_equal. unfold subfield_of.
  destruct Hl as [Hl|Hl].
  - destruct (plain_chars lst Hl) as (Hlq & _ & Hsimple). rewrite Hsimple.
    rewrite replace_char_none by (rewrite !has_char_app, Hq, Hlq; done).
    rewrite find_path; [|done|by intros c r' [= <- _]]. f_equal. rewrite find_dot.
    rewrite <- (str_app_nil_r lst) at 1 2. rewrite find_plain; [done|done|done].
  - rewrite (proj2 (proj2 Hl)). rewrite replace_char_none.
    2:{ rewrite !has_char_app, Hq. destruct Hl as (_ & Hs & _). cbn.
        rewrite (has_char_all_chars "034" path_char lst Hs) by done. done. }
    rewrite find_path; [|done|by intros c r' [= <- _]]. f_equal. by apply find_bracket.
Qed.

(** ** Specification: following a path *)
Fixpoint descend (v : goval) (path : list string) : option goval :=
  match path with
  | [] => Some v
  | k :: ks =>
      match v with
      | GMap o => match o !! k with Some v' => descend v' ks | None => Some GNil end
      | _ => None
      end
  end.

Section getField_lemmas.
Context `{GoFmt, NestedLaws}.

Lemma get_subfields_path all subs path v v' :
  Forall2 (λ sub k, unbracket sub = k) subs path → descend v path = Some v' →
  get_subfields all subs v = Ok (FValue v').
Proof.
  intros Hp. revert v. induction Hp as [|sub k subs path Hk _ IH]; intros v; cbn [descend get_subfields].
  - by intros [= ->].
  - destruct v as [| | | | | | |o]; try done. rewrite NestedFieldNoCopy_one, Hk.
    destruct (o !! k); [apply IH|by intros [= <-]].
Qed.

Lemma get_subfields_slice all subs path sub v t :
  Forall2 (λ sub k, unbracket sub = k) subs path → descend v path = Some (GSlice t) →
  is_bracketed sub = false →
  get_subfields all (subs ++ [sub]) v = FStrings <$> map_outcome (item_field sub) t.
Proof.
  intros Hp. revert v. induction Hp as [|sub' k subs path Hk _ IH]; intros v Hv Hsub; cbn [app].
  - injection Hv as ->. cbn [get_subfields]. by rewrite Hsub, bool_decide_eq_true_2.
  - cbn [descend get_subfields] in *. destruct v as [| | | | | | |o]; try done.
    rewrite NestedFieldNoCopy_one, Hk. destruct (o !! k); [by apply IH|done].
Qed.

Lemma plain_unbracket init : Forall plain_name init → Forall2 (λ sub k, unbracket sub = k) init init.
Proof.
  intros Hinit. induction Hinit as [|x init Hx _ IH]; constructor; [|done].
  pose proof (unbracket_subfield x (or_introl Hx)) as Hu. unfold subfield_of in Hu.
  by rewrite (proj2 (proj2 (plain_chars x Hx))) in Hu.
Qed.
End getField_lemmas.

(** * Theorems *)

(** The column of a path of names finds the value at this path again: the value of a
    path through maps, nothing when a name is missing, and the field of each element when
    the path goes through a slice before its last name; so filters and sorts on the column
    see what the path of the request denotes. *)
Theorem getField_path `{GoFmt, NestedLaws} o init lst :
  Forall plain_name init → init ≠ [] → plain_name lst ∨ bracket_name lst →
  (∀ v, descend (GMap o) (init ++ [lst]) = Some v →
     getField (Some o) (toColumnName (init ++ [lst])) = Ok (FValue v)) ∧
  (∀ t, descend (GMap o) init = Some (GSlice t) → plain_name lst →
     getField (Some o) (toColumnName (init ++ [lst])) =
     FStrings <$> map_outcome (item_field lst) t).
Proof.
  intros Hinit Hne Hl. unfold getField. rewrite extractSubFields_column by done. split.
  - intros v Hv. eapply get_subfields_path; [|exact Hv]. apply Forall2_app; [by apply plain_unbracket|].
    repeat constructor. by apply unbracket_subfield.
  - intros t Ht Hp. unfold subfield_of. rewrite (proj2 (proj2 (plain_chars lst Hp))).
    eapply get_subfields_slice; [by apply plain_unbracket|exact Ht|].
    destruct Hp as [Hn Hp]. destruct lst as [|c lst]; [done|]. cbn in Hp |- *.
    destruct (Ascii.eqb_spec c "[") as [->|Hc]; [done|].
    destruct c as [[] [] [] [] [] [] [] []]; done || by destruct Hc.
Qed.

(** Digits and underscores are not part of a name: these columns read other fields. *)
Example digits_are_dropped :
  extractSubFields "status.ipv4" = ["status"; "ipv"] ∧ extractSubFields "_type" = ["type"].
Proof. by vm_compute. Qed.

(** * A pod *)
Module FieldExample.
#[export] Instance text : GoFmt := {| Sprint := λ v,
  match v with
  | GString s => s | GBool b => if b then "true" else "false" | GInt n | GInt64 n => itoa n | _ => "" end |}.
#[export] Instance nested : Nested := {| NestedFieldNoCopy := λ o k, Ok (o !! k) |}.
#[export] Instance nested_laws : NestedLaws.
Proof. by split. Qed.
Definition container (image : string) : goval := GMap {["image" := GString image]}.
Definition pod : object :=
  {[ "spec" := GMap {["containers" := GSlice [container "nginx"; container "redis"]]};
     "metadata" := GMap {["annotations" := GMap {["field.cattle.io/publicEndpoints" := GString "x"]}]} ]}.

Lemma getField_path_witness :
  getField (Some pod) (toColumnName ["metadata"; "annotations"; "field.cattle.io/publicEndpoints"]) =
    Ok (FValue (GString "x")) ∧
  getField (Some pod) (toColumnName ["spec"; "containers"; "image"]) = Ok (FStrings ["nginx"; "redis"]).
Proof.
  split.
  - apply (getField_path pod ["metadata"; "annotations"] "field.cattle.io/publicEndpoints");
      [by repeat constructor|done|by right; split_and!|reflexivity].
  - apply (proj2 (getField_path pod ["spec"; "containers"] "image" ltac:(by repeat constructor) ltac:(done)
      ltac:(by left; split)) [container "nginx"; container "redis"]); [reflexivity|by split].
Defined.
End FieldExample.
