(* ===== verification/ExternalInfo.v ===== *)
(** * Columns copied between the tables of two resources: pkg/sqlcache/store/store.go

    Some columns of a resource hold a value of another one: the display name of the project of a namespace,
    the state of the node of a machine. After each upsert of one of the two, [updateExternalInfo] finds the rows whose
    copy differs, with a join of the two tables on committed data, and updates them in a transaction of its own. *)
From S2P Require Import Prelude GoLib.

(** The tables of a resource: the names of the columns of its fields, their rows by key, and the labels by key and label. *)
Record resource_tables := mkResourceTables {
  x_columns : list string;
  x_fields : gmap string (gmap string string);
  x_labels : gmap (string * string) string }.
Abbreviation database := (gmap string resource_tables).

(** pkg/sqlcache/sqltypes *)
Record ExternalDependency := mkDependency {
  SourceGVK : string; SourceFieldName : string;
  TargetGVK : string; TargetKeyFieldName : string; TargetFinalFieldName : string }.
Record ExternalLabelDependency := mkLabelDependency {
  l_SourceGVK : string; l_SourceLabelName : string;
  l_TargetGVK : string; l_TargetKeyFieldName : string; l_TargetFinalFieldName : string }.
Record ExternalGVKUpdates := mkUpdates {
  ExternalDependencies : list ExternalDependency;
  ExternalLabelDependencies : list ExternalLabelDependency }.

Section external.
Context `{MapRange}.
Implicit Types (db tx : database).

(** The value of a column of a row. *)
Definition column (row : gmap string string) (name : string) : string := default "" (row !! name).

(** The result of the join: the keys of the rows of the source whose column differs from the one of a row of the target
    that [linked] relates to them; [None] when a table or a column does not exist. *)
Definition select_updates db (source target keyField finalField : string) (sourceColumns : list string)
    (linked : resource_tables → string → gmap string string → option string) : option (list (string * string)) :=
  src ← db !! source;
  tgt ← db !! target;
  if forallb (λ c, bool_decide (c ∈ x_columns src)) (finalField :: sourceColumns) &&
     forallb (λ c, bool_decide (c ∈ x_columns tgt)) [keyField; finalField]
  then Some (remove_dups ('(key, row) ← range_map (x_fields src);
    match linked src key row with
    | None => []
    | Some v =>
        '(_, ex2) ← range_map (x_fields tgt);
        if bool_decide (column ex2 keyField = v) && bool_decide (column row finalField ≠ column ex2 finalField)
        then [(key, column ex2 finalField)] else []
    end))
  else None.
Definition label_link (label : string) (src : resource_tables) (key : string) (_ : gmap string string) : option string :=
  x_labels src !! (key, label).
Definition field_link (field : string) (_ : resource_tables) (_ : string) (row : gmap string string) : option string :=
  Some (column row field).

(** A value that is not empty is not overwritten with the empty string. *)
Definition overrideCheck db (finalFieldName sourceGVK sourceKey finalTargetValue : string) : outcome string bool :=
  match db !! sourceGVK with
  | None => Err "no such table"
  | Some t =>
      if bool_decide (finalFieldName ∈ x_columns t) then
        match x_fields t !! sourceKey with
        | Some row => Ok (bool_decide (0 < String.length (column row finalFieldName)) &&
                          bool_decide (String.length finalTargetValue = 0))
        | None => Ok false
        end
      else Err "no such column"
  end.
(** UPDATE ... SET ... WHERE key = ?. *)
Definition set_column tx (gvk field key value : string) : database :=
  match tx !! gvk with
  | None => tx
  | Some t => <[gvk := mkResourceTables (x_columns t) (alter (λ row, <[field := value]> row) key (x_fields t)) (x_labels t)]> tx
  end.
(** The loop over the rows found; queries read [db], what is committed. *)
Definition apply_update db (gvk field : string) tx (r : string * string) : database :=
  match overrideCheck db field gvk r.1 r.2 with
  | Ok false => set_column tx gvk field r.1 r.2
  | _ => tx
  end.
Definition apply_updates db (gvk field : string) (result : option (list (string * string))) tx : database :=
  match result with
  | None => tx
  | Some result => foldl (apply_update db gvk field) tx result
  end.
Definition update_labelDep db tx (d : ExternalLabelDependency) : database :=
  apply_updates db (l_SourceGVK d) (l_TargetFinalFieldName d)
    (select_updates db (l_SourceGVK d) (l_TargetGVK d) (l_TargetKeyFieldName d) (l_TargetFinalFieldName d) []
       (label_link (l_SourceLabelName d))) tx.
Definition update_nonLabelDep db tx (d : ExternalDependency) : database :=
  apply_updates db (SourceGVK d) (TargetFinalFieldName d)
    (select_updates db (SourceGVK d) (TargetGVK d) (TargetKeyFieldName d) (TargetFinalFieldName d) [SourceFieldName d]
       (field_link (SourceFieldName d))) tx.
Definition updateExternalInfo db (info : ExternalGVKUpdates) tx : database :=
  let tx := foldl (update_labelDep db) tx (ExternalLabelDependencies info) in
  foldl (update_nonLabelDep db) tx (ExternalDependencies info).
(** Two transactions, the second after the first is committed. *)
Definition checkUpdateExternalInfo (externalUpdateInfo selfUpdateInfo : option ExternalGVKUpdates) db : database :=
  foldl (λ db updateBlock, match updateBlock with Some info => updateExternalInfo db info db | None => db end)
    db [externalUpdateInfo; selfUpdateInfo].
End external.

(** ** What a dependency copies *)
Section external_lemmas.
Context `{MapRange}.
Implicit Types (db tx : database) (row : gmap string string).

(** The values found for a key, in order, and what they make of its row. *)
Definition values_of (k : string) (l : list (string * string)) : list string :=
  omap (λ r, if bool_decide (r.1 = k) then Some r.2 else None) l.
Definition blocked (current v : string) : bool :=
  bool_decide (0 < String.length current) && bool_decide (String.length v = 0).
Definition set_values (field current : string) row (vs : list string) : gmap string string :=
  foldl (λ row v, if blocked current v then row else <[field := v]> row) row vs.

Lemma apply_updates_row db gvk field l tx src row0 t k row :
  db !! gvk = Some src → field ∈ x_columns src → x_fields src !! k = Some row0 →
  tx !! gvk = Some t → x_fields t !! k = Some row →
  ∃ t', foldl (apply_update db gvk field) tx l !! gvk = Some t' ∧ x_columns t' = x_columns t ∧ x_labels t' = x_labels t ∧
    x_fields t' !! k = Some (set_values field (column row0 field) row (values_of k l)).
Proof.
  intros Hdb Hcol Hrow0. revert tx t row. induction l as [|[key v] l IH]; intros tx t row Htx Hrow; [by exists t|].
  cbn [foldl]. unfold apply_update at 2, overrideCheck. rewrite Hdb, bool_decide_eq_true_2 by done. cbn [fst snd].
  destruct (decide (key = k)) as [->|Hk].
  - rewrite Hrow0. unfold values_of. cbn. rewrite (bool_decide_eq_true_2 (k = k)) by done. cbn.
    fold (blocked (column row0 field) v). destruct (blocked (column row0 field) v); [by apply IH|].
    apply (IH _ (mkResourceTables (x_columns t) (alter (λ row, <[field := v]> row) k (x_fields t)) (x_labels t))).
    + unfold set_column. rewrite Htx. by rewrite lookup_insert_eq.
    + cbn. by rewrite lookup_alter_eq, Hrow.
  - unfold values_of. cbn. rewrite (bool_decide_eq_false_2 (key = k)) by done. cbn.
    destruct (x_fields src !! key) as [r|].
    + destruct (_ && _); [by apply IH|].
      destruct (IH (set_column tx gvk field key v) (mkResourceTables (x_columns t)
        (alter (λ row, <[field := v]> row) key (x_fields t)) (x_labels t)) row) as (t' & ? & ? & ? & ?).
      * unfold set_column. rewrite Htx. by rewrite lookup_insert_eq.
      * cbn. by rewrite lookup_alter_ne.
      * by exists t'.
    + destruct (IH (set_column tx gvk field key v) (mkResourceTables (x_columns t)
        (alter (λ row, <[field := v]> row) key (x_fields t)) (x_labels t)) row) as (t' & ? & ? & ? & ?).
      * unfold set_column. rewrite Htx. by rewrite lookup_insert_eq.
      * cbn. by rewrite lookup_alter_ne.
      * by exists t'.
Qed.

(** Values that are all the same. *)
Lemma set_values_same field row vs w : (∀ v, v ∈ vs → v = w) →
  (vs = [] → column row field = w) → (vs ≠ [] → column row field ≠ w) →
  let row' := set_values field (column row field) row vs in
  column row' field = (if bool_decide (w = "") then column row field else w) ∧ ∀ c, c ≠ field → row' !! c = row !! c.
Proof.
  intros Hvs Hnil Hcons. cbn zeta. destruct vs as [|v vs].
  - cbn. split; [|done]. rewrite Hnil by done. by case_bool_decide.
  - specialize (Hcons ltac:(done)). unfold set_values. set (cur := column row field) in *.
    assert (∀ (r : gmap string string), foldl (λ row v, if blocked cur v then row else <[field := v]> row) r (v :: vs) =
      if blocked cur w then r else <[field := w]> r) as ->.
    { intros r. revert r Hvs. generalize v. clear. induction vs as [|v' vs IH]; intros v r Hvs; cbn [foldl].
      - by rewrite (Hvs v) by by left.
      - rewrite (Hvs v) by by left. specialize (IH v'). cbn [foldl] in IH. rewrite IH by (intros; apply Hvs; by right).
        destruct (blocked cur w); [done|]. by rewrite insert_insert_eq. }
    unfold blocked. destruct (decide (w = "")) as [->|Hw].
    + rewrite (bool_decide_eq_true_2 (0 < String.length cur)) by (destruct cur; [done|cbn; lia]). cbn. done.
    + rewrite (bool_decide_eq_false_2 (String.length w = 0)) by (destruct w; [done|cbn; lia]). rewrite andb_false_r.
      rewrite bool_decide_eq_false_2 by done. split; [unfold column; by rewrite lookup_insert_eq|].
      intros c Hc. by rewrite lookup_insert_ne.
Qed.

Definition columns_exist (src tgt : resource_tables) (keyField finalField : string) (sourceColumns : list string) : Prop :=
  Forall (.∈ x_columns src) (finalField :: sourceColumns) ∧ Forall (.∈ x_columns tgt) [keyField; finalField].
Lemma select_updates_values db source target keyField finalField sourceColumns linked src tgt k row v :
  db !! source = Some src → db !! target = Some tgt → columns_exist src tgt keyField finalField sourceColumns →
  x_fields src !! k = Some row →
  ∃ l, select_updates db source target keyField finalField sourceColumns linked = Some l ∧
    (v ∈ values_of k l ↔ v ≠ column row finalField ∧ ∃ key2 ex2, x_fields tgt !! key2 = Some ex2 ∧
       linked src k row = Some (column ex2 keyField) ∧ v = column ex2 finalField).
Proof.
  intros Hs Ht [Hsc Htc] Hrow. unfold select_updates. rewrite Hs. cbn. rewrite Ht. cbn.
  assert (∀ (cs ds : list string), Forall (.∈ ds) cs → forallb (λ c, bool_decide (c ∈ ds)) cs = true) as Hall.
  { intros cs ds Hf. apply forallb_forall. intros c Hc%list_elem_of_In. apply bool_decide_eq_true.
    by apply (proj1 (list.Forall_forall _ _) Hf). }
  pose proof (Hall _ _ Hsc) as H1. pose proof (Hall _ _ Htc) as H2. cbn in H1, H2. rewrite H1, H2. cbn [andb].
  eexists. split; [done|]. unfold values_of. rewrite list_elem_of_omap. split.
  - intros ([k' v'] & Hin & Hsel). rewrite elem_of_remove_dups in Hin. cbn in Hsel. case_bool_decide as Hk; [|done].
    injection Hsel as ->. cbn in Hk. subst k'.
    apply list_elem_of_bind in Hin as ([k0 row0] & Hin & Hsrc). apply elem_of_range_map in Hsrc.
    destruct (linked src k0 row0) as [lv|] eqn:Hl; [|by apply elem_of_nil in Hin].
    apply list_elem_of_bind in Hin as ([k2 ex2] & Hin & Htgt). apply elem_of_range_map in Htgt.
    destruct (bool_decide (column ex2 keyField = lv) && _) eqn:Hc; [|by apply elem_of_nil in Hin].
    apply andb_true_iff in Hc as [Hlv%bool_decide_eq_true Hd%bool_decide_eq_true].
    apply list_elem_of_singleton in Hin. injection Hin as -> ->. simplify_eq. split; [done|].
    exists k2, ex2. split_and!; [done|exact Hl|done].
  - intros (Hne & k2 & ex2 & Htgt & Hl & ->). exists (k, column ex2 finalField). split; [|by rewrite bool_decide_eq_true_2].
    apply elem_of_remove_dups, list_elem_of_bind. exists (k, row). split; [|by apply elem_of_range_map]. rewrite Hl.
    apply list_elem_of_bind. exists (k2, ex2). split; [|by apply elem_of_range_map].
    rewrite !bool_decide_eq_true_2 by done. by apply list_elem_of_singleton.
Qed.

(** The copy of a row that is linked to rows of the target which agree on the value becomes that value, unless it is empty;
    a row that is linked to none, and all other columns, stay as they are. *)
Lemma dependency_copies db source target keyField finalField sourceColumns linked src tgt k row w :
  db !! source = Some src → db !! target = Some tgt → columns_exist src tgt keyField finalField sourceColumns →
  x_fields src !! k = Some row →
  (∀ key2 ex2, x_fields tgt !! key2 = Some ex2 → linked src k row = Some (column ex2 keyField) →
     column ex2 finalField = w) →
  (∃ key2 ex2, x_fields tgt !! key2 = Some ex2 ∧ linked src k row = Some (column ex2 keyField)) →
  ∃ src' row', apply_updates db source finalField
      (select_updates db source target keyField finalField sourceColumns linked) db !! source = Some src' ∧
    x_fields src' !! k = Some row' ∧
    column row' finalField = (if bool_decide (w = "") then column row finalField else w) ∧
    ∀ c, c ≠ finalField → row' !! c = row !! c.
Proof.
  intros Hs Ht Hcols Hrow Hagree (key2 & ex2 & Htgt & Hl).
  destruct (select_updates_values db source target keyField finalField sourceColumns linked src tgt k row w Hs Ht Hcols Hrow)
    as (l & Hsel & Hw). rewrite Hsel. cbn [apply_updates].
  assert (∀ v, v ∈ values_of k l → v = w ∧ v ≠ column row finalField) as Hvs.
  { intros v Hv. destruct (select_updates_values db source target keyField finalField sourceColumns linked src tgt k row v Hs Ht Hcols Hrow)
      as (l' & Hsel' & Hv'). rewrite Hsel in Hsel'. injection Hsel' as <-. apply Hv' in Hv as (Hne & k3 & ex3 & H3 & Hl3 & ->).
    split; [|done]. by eapply Hagree. }
  destruct (apply_updates_row db source finalField l db src row src k row) as (t' & Ht' & _ & _ & Hk); try done.
  { destruct Hcols as [Hsc _]. by inversion Hsc. }
  eexists t', _. split; [exact Ht'|]. split; [exact Hk|]. apply set_values_same.
  - intros v Hv. by apply Hvs.
  - intros Hnil. destruct (decide (w = column row finalField)) as [->|Hne]; [done|].
    rewrite Hnil in Hw. exfalso. apply (not_elem_of_nil w), Hw. split; [done|]. exists key2, ex2. split_and!; [done..|].
    symmetry. by eapply Hagree.
  - intros Hne. destruct (values_of k l) as [|v vs] eqn:Hvals; [done|]. destruct (Hvs v) as [<- ?]; [by left|]. congruence.
Qed.
End external_lemmas.

Section external_theorems.
Context `{MapRange}.
Implicit Types (db : database).

(** A column that is copied from another resource by the value of a field: after the update it holds the value of the
    rows of that resource whose key field has the value of the field, when these agree on a value that is not empty; an
    empty value is not copied. *)
Theorem field_dependency_copies db (d : ExternalDependency) src tgt k row w :
  db !! SourceGVK d = Some src → db !! TargetGVK d = Some tgt →
  columns_exist src tgt (TargetKeyFieldName d) (TargetFinalFieldName d) [SourceFieldName d] →
  x_fields src !! k = Some row →
  (∀ key2 ex2, x_fields tgt !! key2 = Some ex2 → column row (SourceFieldName d) = column ex2 (TargetKeyFieldName d) →
     column ex2 (TargetFinalFieldName d) = w) →
  (∃ key2 ex2, x_fields tgt !! key2 = Some ex2 ∧ column row (SourceFieldName d) = column ex2 (TargetKeyFieldName d)) →
  ∃ src' row', update_nonLabelDep db db d !! SourceGVK d = Some src' ∧ x_fields src' !! k = Some row' ∧
    column row' (TargetFinalFieldName d) = (if bool_decide (w = "") then column row (TargetFinalFieldName d) else w) ∧
    ∀ c, c ≠ TargetFinalFieldName d → row' !! c = row !! c.
Proof.
  intros Hs Ht Hcols Hrow Hagree (key2 & ex2 & Htgt & Hl).
  eapply (dependency_copies _ _ _ _ _ _ (field_link (SourceFieldName d))); [exact Hs|exact Ht|exact Hcols|exact Hrow| |].
  - intros key3 ex3 H3 Hl3. eapply Hagree; [exact H3|]. unfold field_link in Hl3. congruence.
  - exists key2, ex2. unfold field_link. by rewrite Hl.
Qed.
(** The same by the value of a label of the object. *)
Theorem label_dependency_copies db (d : ExternalLabelDependency) src tgt k row v w :
  db !! l_SourceGVK d = Some src → db !! l_TargetGVK d = Some tgt →
  columns_exist src tgt (l_TargetKeyFieldName d) (l_TargetFinalFieldName d) [] →
  x_fields src !! k = Some row → x_labels src !! (k, l_SourceLabelName d) = Some v →
  (∀ key2 ex2, x_fields tgt !! key2 = Some ex2 → column ex2 (l_TargetKeyFieldName d) = v →
     column ex2 (l_TargetFinalFieldName d) = w) →
  (∃ key2 ex2, x_fields tgt !! key2 = Some ex2 ∧ column ex2 (l_TargetKeyFieldName d) = v) →
  ∃ src' row', update_labelDep db db d !! l_SourceGVK d = Some src' ∧ x_fields src' !! k = Some row' ∧
    column row' (l_TargetFinalFieldName d) = (if bool_decide (w = "") then column row (l_TargetFinalFieldName d) else w) ∧
    ∀ c, c ≠ l_TargetFinalFieldName d → row' !! c = row !! c.
Proof.
  intros Hs Ht Hcols Hrow Hlabel Hagree (key2 & ex2 & Htgt & Hl).
  eapply (dependency_copies _ _ _ _ _ _ (label_link (l_SourceLabelName d))); [exact Hs|exact Ht|exact Hcols|exact Hrow| |].
  - intros key3 ex3 H3 Hl3. eapply Hagree; [exact H3|]. unfold label_link in Hl3. congruence.
  - exists key2, ex2. unfold label_link. by rewrite Hl.
Qed.
End external_theorems.

(** ** What the updates leave as it is *)

(** The columns of the table of a resource that a list of dependencies copies into. *)
Definition copied_columns (gvk : string) (info : option ExternalGVKUpdates) : list string :=
  match info with
  | None => []
  | Some info =>
      omap (λ d, if bool_decide (l_SourceGVK d = gvk) then Some (l_TargetFinalFieldName d) else None)
        (ExternalLabelDependencies info) ++
      omap (λ d, if bool_decide (SourceGVK d = gvk) then Some (TargetFinalFieldName d) else None)
        (ExternalDependencies info)
  end.
(** Rows that agree but for some columns. *)
Definition agree_but (copied : list string) (row row' : gmap string string) : Prop :=
  ∀ c, c ∉ copied → row' !! c = row !! c.
Definition tables_agree (copied : list string) (t t' : resource_tables) : Prop :=
  x_columns t' = x_columns t ∧ x_labels t' = x_labels t ∧
  ∀ k, option_Forall2 (agree_but copied) (x_fields t !! k) (x_fields t' !! k).

Section frame.
Context `{MapRange} (gvk : string) (copied : list string).
Implicit Types (db tx : database) (t : resource_tables).

Lemma tables_agree_refl t : tables_agree copied t t.
Proof. split_and!; [done..|]. intros k. by destruct (x_fields t !! k); constructor. Qed.
Lemma tables_agree_trans t1 t2 t3 : tables_agree copied t1 t2 → tables_agree copied t2 t3 → tables_agree copied t1 t3.
Proof.
  intros (H1 & H2 & H3) (H4 & H5 & H6). split_and!; [congruence..|]. intros k.
  specialize (H3 k). specialize (H6 k).
  destruct H3 as [r1 r2 Hr|]; inversion H6 as [? r3 Hr'|]; subst; constructor.
  intros c Hc. by rewrite Hr', Hr.
Qed.

(** The table of the resource is there and agrees with [t]. *)
Definition keeps t db : Prop := ∃ t', db !! gvk = Some t' ∧ tables_agree copied t t'.
Lemma set_column_keeps t tx gvk' field key value : (gvk' = gvk → field ∈ copied) → keeps t tx →
  keeps t (set_column tx gvk' field key value).
Proof.
  intros Hin (t' & Ht & Ha). unfold keeps, set_column. destruct (tx !! gvk') as [u|] eqn:Hu; [|by exists t'].
  destruct (decide (gvk' = gvk)) as [->|Hne].
  - rewrite lookup_insert_eq. eexists. split; [done|]. apply (tables_agree_trans _ t'); [done|].
    rewrite Ht in Hu. injection Hu as <-. split_and!; [done..|]. intros k. cbn.
    destruct (decide (k = key)) as [->|Hk]; [rewrite lookup_alter_eq|rewrite lookup_alter_ne by done];
      destruct (x_fields t' !! _); constructor; try done.
    intros c Hc. rewrite lookup_insert_ne; [done|]. intros <-. by destruct Hc; apply Hin.
  - rewrite lookup_insert_ne by done. by exists t'.
Qed.
Lemma apply_updates_keeps t db gvk' field result tx : (gvk' = gvk → field ∈ copied) → keeps t tx →
  keeps t (apply_updates db gvk' field result tx).
Proof.
  intros Hin Ht. destruct result as [l|]; [|done]. cbn. revert tx Ht.
  induction l as [|r l IH]; intros tx Ht; [done|]. cbn. apply IH. unfold apply_update.
  destruct (overrideCheck _ _ _ _ _) as [[]| |]; [done| |done..]. by apply set_column_keeps.
Qed.
Lemma foldl_keeps {B} (f : database → B → database) t l db :
  (∀ d db, d ∈ l → keeps t db → keeps t (f db d)) → keeps t db → keeps t (foldl f db l).
Proof.
  revert db. induction l as [|d l IH]; intros db Hf Ht; [done|]. cbn.
  apply IH; [|apply Hf; [by left|done]]. intros d' db' Hd. apply Hf. by right.
Qed.
Lemma updateExternalInfo_keeps t db info tx : copied_columns gvk (Some info) ⊆ copied → keeps t tx →
  keeps t (updateExternalInfo db info tx).
Proof.
  cbn [copied_columns]. intros Hsub Ht. unfold updateExternalInfo.
  apply foldl_keeps; [|apply foldl_keeps; [|done]]; intros d tx' Hd Htx; apply apply_updates_keeps; try done;
    intros Heq; apply Hsub, elem_of_app; [right|left]; apply list_elem_of_omap; exists d; by rewrite bool_decide_eq_true_2.
Qed.
(** The updates change only the columns they copy into. *)
Lemma checkUpdateExternalInfo_keeps t db externalUpdateInfo selfUpdateInfo :
  copied_columns gvk externalUpdateInfo ⊆ copied → copied_columns gvk selfUpdateInfo ⊆ copied →
  keeps t db → keeps t (checkUpdateExternalInfo externalUpdateInfo selfUpdateInfo db).
Proof.
  intros He Hs Ht. unfold checkUpdateExternalInfo. apply foldl_keeps; [|done].
  intros [info|] db' Hin Hdb; [|done]. apply updateExternalInfo_keeps; [|done].
  apply elem_of_cons in Hin as [<-|Hin]; [done|]. apply list_elem_of_singleton in Hin. by subst.
Qed.
End frame.
