(* ===== verification/SqlStore.v ===== *)
(** * The store of a resource in the SQL cache

    pkg/sqlcache/store/store.go with the tables that pkg/sqlcache/informer/indexer.go and
    pkg/sqlcache/informer/listoption_indexer.go keep beside it: the table of objects, the
    indices, the fields and the labels, whose rows refer to the key of an object and are
    deleted with it (ON DELETE CASCADE), and the events of [WatchEvents]. The hooks run in
    the transaction of the operation; after it [Add] and [Update] copy columns between the tables of resources
    ([ExternalInfo]). Statements on these tables do not fail here. *)
From S2P Require Import Prelude GoLib GoValue SqlQuery IndexFields WatchEvents ExternalInfo.

(** ** The tables *)
Record tables {Ser : Type} := mkTables {
  t_objects : gmap string Ser;
  t_indices : gmap (string * string * string) unit;   (* name, value, key *)
  t_fields : gmap string (list string);               (* the values of the indexed fields *)
  t_labels : gmap (string * string) string;           (* key, label to value *)
  t_events : list (Event (Obj := object))
}.
Arguments tables : clear implicits.
Arguments mkTables {Ser}.

(** The database, with the tables of other resources, and the fields of the list option indexer in memory. *)
Record store_state {Ser : Type} := mkStore {
  st_tables : tables Ser;
  st_latestRV : string;
  st_watchers : gmap nat (WatchFilter * list (Event (Obj := object)));
  st_next : nat;
  st_others : database
}.
Arguments store_state : clear implicits.
Arguments mkStore {Ser}.

Inductive store_error :=
  | ErrKey (text : string)
  | ErrSerialize (text : string)
  | ErrIndexer (text : string)
  | ErrField (e : field_error)
  | ErrEvent (e : watch_error).

Definition immutableFields : list string :=
  ["metadata.creationTimestamp"; "metadata.namespace"; "metadata.name"; "id"; "metadata.state.name"].

(** Rows of the fields table on conflict: all columns but the immutable ones are set. *)
Definition update_fields (indexedFields old new : list string) : list string :=
  zip_with (λ f '(o, n), if bool_decide (f ∈ immutableFields) then o else n) indexedFields (zip old new).

(** Deletes the rows that refer to a key, or all rows. *)
Definition delete_key {Ser} (key : string) (t : tables Ser) : tables Ser :=
  mkTables (delete key (t_objects t)) (filter (λ p, p.1.2 ≠ key) (t_indices t))
    (delete key (t_fields t)) (filter (λ p, p.1.1 ≠ key) (t_labels t)) (t_events t).
Definition delete_all {Ser} (t : tables Ser) : tables Ser :=
  mkTables ∅ ∅ ∅ ∅ (t_events t).

Section store.
Context `{MapRange} `{GoFmt, Nested}.
(* cache.KeyFunc, the codec of the database client, meta.Accessor *)
Context (keyFunc : object → outcome string string).
Context {Ser : Type} (Serialize : object → outcome string Ser) (Deserialize : Ser → outcome string object).
Context (Accessor : object → option Metadata) (GetLabels : object → gmap string string).
(* the index functions by name *)
Context (indexers : gmap string (object → outcome string (list string))) (indexedFields : list string).
(* the name of the table of objects, and the columns that the store copies after an upsert *)
Context (name : string) (externalUpdateInfo selfUpdateInfo : option ExternalGVKUpdates).

Abbreviation state := (store_state Ser).

(** A step of a transaction: the state and the error, if there is one. *)
Definition action : Type := state → state * option store_error.

Definition with_tables (f : tables Ser → tables Ser) (s : state) : state :=
  mkStore (f (st_tables s)) (st_latestRV s) (st_watchers s) (st_next s) (st_others s).

Fixpoint run_all (l : list action) : action := λ s,
  match l with
  | [] => (s, None)
  | a :: l => match a s with (s, None) => run_all l s | r => r end
  end.

(** [WithTransaction]: an error rolls the tables back, not the memory. *)
Definition WithTransaction (f : action) (s : state) : state * option store_error :=
  match f s with
  | (s', None) => (s', None)
  | (s', Some e) => (mkStore (st_tables s) (st_latestRV s') (st_watchers s') (st_next s') (st_others s'), Some e)
  end.

(** ** Hooks *)

(** [AfterUpsert] of the indexer, by the sorted names of the indices. *)
Definition index_rows_of (obj : object) (indexName : string) : outcome string (list (string * string)) :=
  match indexers !! indexName with
  | Some index => values ← index obj; Ok ((λ v : string, (indexName, v)) <$> (values : list string))
  | None => Panic
  end.
Definition index_rows (obj : object) : outcome string (list (string * string)) :=
  rows ← map_outcome (index_rows_of obj) (sort_strings (map_to_list indexers).*1); Ok (List.concat rows).
Definition AfterUpsert (key : string) (obj : object) : action := λ s,
  let deleted := with_tables (λ t, mkTables (t_objects t) (filter (λ p, p.1.2 ≠ key) (t_indices t))
    (t_fields t) (t_labels t) (t_events t)) s in
  match index_rows obj with
  | Ok rows =>
      (* the primary key of the table is name, value and key *)
      if bool_decide (NoDup rows)
      then (with_tables (λ t, mkTables (t_objects t)
        (foldl (λ m '(indexName, value), <[(indexName, value, key) := tt]> m) (t_indices t) rows)
        (t_fields t) (t_labels t) (t_events t)) deleted, None)
      else (deleted, Some (ErrIndexer "UNIQUE constraint failed"))
  | Err e => (deleted, Some (ErrIndexer e))
  | Panic => (deleted, Some (ErrIndexer ""))
  end.

(** INSERT ... ON CONFLICT DO UPDATE. *)
Definition addIndexFields (key : string) (obj : object) : action := λ s,
  match index_values indexedFields (Some obj) with
  | Ok values =>
      (with_tables (λ t, mkTables (t_objects t) (t_indices t)
         (<[key := match t_fields t !! key with
                   | Some old => update_fields indexedFields old values
                   | None => values end]> (t_fields t)) (t_labels t) (t_events t)) s, None)
  | Err e => (s, Some (ErrField e))
  | Panic => (s, Some (ErrField ErrType))
  end.

Definition addLabels (key : string) (obj : object) : action := λ s,
  (with_tables (λ t, mkTables (t_objects t) (t_indices t) (t_fields t)
     (foldl (λ m '(k, v), <[(key, k) := v]> m) (t_labels t) (range_map (GetLabels obj))) (t_events t)) s, None).

(** [notifyEvent] on the indexer's part of the state. *)
Definition as_indexer (s : state) : indexer (Obj := object) :=
  mkIndexer (t_events (st_tables s)) (st_latestRV s) (st_watchers s) (st_next s).
Definition notify (f : indexer (Obj := object) → outcome watch_error (indexer (Obj := object))) : action := λ s,
  match f (as_indexer s) with
  | Ok i => (mkStore (mkTables (t_objects (st_tables s)) (t_indices (st_tables s)) (t_fields (st_tables s))
      (t_labels (st_tables s)) (rows i)) (latestRV i) (watchers i) (next_key i) (st_others s), None)
  | Err e => (s, Some (ErrEvent e))
  | Panic => (s, Some (ErrEvent ErrAccessor))
  end.

(** [GetByKey] reads what is committed. *)
Definition GetByKey (key : string) (committed : state) : outcome string (option object) :=
  match t_objects (st_tables committed) !! key with
  | None => Ok None
  | Some ser => Some <$> Deserialize ser
  end.
Definition old_object (committed : state) (key : string) : option object :=
  match GetByKey key committed with Ok o => o | _ => None end.

(** The hooks in the order of their registration. *)
Definition runAfterAdd (key : string) (obj : object) : action :=
  run_all [AfterUpsert key obj; addIndexFields key obj; addLabels key obj;
           notify (notifyEventAdded Accessor obj)].
Definition runAfterUpdate (committed : state) (key : string) (obj : object) : action :=
  run_all [AfterUpsert key obj; addIndexFields key obj; addLabels key obj;
           notify (notifyEventModified Accessor (old_object committed) key obj)].
Definition runAfterDelete (committed : state) (key : string) (obj : object) : action :=
  notify (notifyEventDeleted Accessor (old_object committed) key obj).

(** ** Columns copied between resources *)

(** A row of fields by the names of its columns; a table of fields and labels as the updates see it. *)
Definition as_row (values : list string) : gmap string string := list_to_map (zip indexedFields values).
Definition of_row (row : gmap string string) : list string := column row <$> indexedFields.
Definition whole_database (s : state) : database :=
  <[name := mkResourceTables indexedFields (as_row <$> t_fields (st_tables s)) (t_labels (st_tables s))]> (st_others s).
(** Transactions of their own, of this store or of that of another resource; errors are only logged. *)
Definition update_columns (infos : option ExternalGVKUpdates * option ExternalGVKUpdates) (s : state) : state :=
  let db := checkUpdateExternalInfo infos.1 infos.2 (whole_database s) in
  let t := st_tables s in
  mkStore (mkTables (t_objects t) (t_indices t)
      (match db !! name with Some r => of_row <$> x_fields r | None => t_fields t end) (t_labels t) (t_events t))
    (st_latestRV s) (st_watchers s) (st_next s) (delete name db).

(** ** Operations *)
Definition Upsert (key : string) (serialized : Ser) : action := λ s,
  (with_tables (λ t, mkTables (<[key := serialized]> (t_objects t)) (t_indices t) (t_fields t)
     (t_labels t) (t_events t)) s, None).

Definition upsert_op (hooks : state → string → object → action) (obj : object) (s : state)
    : state * option store_error :=
  match keyFunc obj with
  | Ok key =>
      match Serialize obj with
      | Ok serialized =>
          match WithTransaction (run_all [Upsert key serialized; hooks s key obj]) s with
          | (s, None) => (update_columns (externalUpdateInfo, selfUpdateInfo) s, None)
          | r => r
          end
      | Err e => (s, Some (ErrSerialize e))
      | Panic => (s, Some (ErrSerialize ""))
      end
  | Err e => (s, Some (ErrKey e))
  | Panic => (s, Some (ErrKey ""))
  end.
Definition Add : object → state → state * option store_error := upsert_op (λ _, runAfterAdd).
Definition Update : object → state → state * option store_error := upsert_op runAfterUpdate.

Definition deleteByKey (key : string) (obj : object) (s : state) : state * option store_error :=
  WithTransaction (run_all [λ s, (with_tables (delete_key key) s, None); runAfterDelete s key obj]) s.
Definition Delete (obj : object) (s : state) : state * option store_error :=
  match keyFunc obj with
  | Ok key => deleteByKey key obj s
  | Err e => (s, Some (ErrKey e))
  | Panic => (s, Some (ErrKey ""))
  end.

(** [Replace]: the objects by key, the last of a key counts. *)
Definition replaceByKey (objects : gmap string object) (s : state) : state * option store_error :=
  match map_outcome (λ kv, ser ← Serialize kv.2; Ok (kv.1, kv.2, ser)) (range_map objects) with
  | Ok l => WithTransaction (run_all ((λ s, (with_tables delete_all s, None)) ::
      (l ≫= λ '(key, obj, ser), [Upsert key ser; runAfterAdd key obj]))) s
  | Err e => (s, Some (ErrSerialize e))
  | Panic => (s, Some (ErrSerialize ""))
  end.
Definition Replace (objects : list object) (s : state) : state * option store_error :=
  match map_outcome (λ obj, key ← keyFunc obj; Ok (key, obj)) objects with
  | Ok l => replaceByKey (foldl (λ m '(key, obj), <[key := obj]> m) ∅ l) s
  | Err e => (s, Some (ErrKey e))
  | Panic => (s, Some (ErrKey ""))
  end.

(** [List] panics on an error. *)
Definition List (s : state) : outcome string (list object) :=
  match map_outcome Deserialize (map_to_list (t_objects (st_tables s))).*2 with
  | Ok l => Ok l
  | _ => Panic
  end.
Definition ListKeys (s : state) : list string := (map_to_list (t_objects (st_tables s))).*1.
End store.

(** * Lemmas *)
Section store_lemmas.
Context `{MapRange} `{GoFmt, Nested}.
Context (keyFunc : object → outcome string string).
Context {Ser : Type} (Serialize : object → outcome string Ser) (Deserialize : Ser → outcome string object).
Context (Accessor : object → option Metadata) (GetLabels : object → gmap string string).
Context (indexers : gmap string (object → outcome string (list string))) (indexedFields : list string).
Context (name : string) (externalUpdateInfo selfUpdateInfo : option ExternalGVKUpdates).
Implicit Types (s : store_state Ser) (t : tables Ser).

Lemma run_all_cons (a : action) l s s' :
  run_all (Ser := Ser) (a :: l) s = (s', None) ↔ ∃ s1, a s = (s1, None) ∧ run_all l s1 = (s', None).
Proof.
  cbn. destruct (a s) as [s1 [e|]]; split; try done.
  - by intros (? & ? & ?).
  - intros Hr. by exists s1.
  - by intros (? & [= <-] & ?).
Qed.

Lemma run_all_app (l l' : list action) s s' :
  run_all (Ser := Ser) (l ++ l') s = (s', None) ↔
  ∃ s1, run_all l s = (s1, None) ∧ run_all l' s1 = (s', None).
Proof.
  revert s. induction l as [|a l IH]; intros s.
  - cbn [app]. split; [intros ?; by exists s|by intros (? & [= <-] & ?)].
  - cbn [app]. rewrite run_all_cons. setoid_rewrite IH. setoid_rewrite run_all_cons. naive_solver.
Qed.

Lemma WithTransaction_ok (f : action) s s' :
  WithTransaction (Ser := Ser) f s = (s', None) → f s = (s', None).
Proof. unfold WithTransaction. by destruct (f s) as [? [?|]]; intros [= <-]. Qed.

Lemma WithTransaction_error (f : action) s s' e :
  WithTransaction (Ser := Ser) f s = (s', Some e) → st_tables s' = st_tables s.
Proof. unfold WithTransaction. by destruct (f s) as [? [?|]]; intros [= <- _]. Qed.

(** The labels of an object are set, one by one. *)
Lemma set_labels_lookup (l : list (string * string)) (m : gmap (string * string) string) key k lb :
  NoDup l.*1 →
  foldl (λ m '(k, v), <[(key, k) := v]> m) m l !! (k, lb) =
  if decide (k = key) then
    match (list_to_map l : gmap string string) !! lb with Some v => Some v | None => m !! (k, lb) end
  else m !! (k, lb).
Proof.
  revert m. induction l as [|[x v] l IH]; intros m Hnd; cbn [foldl]; [by case_decide|].
  apply list.NoDup_cons in Hnd as [Hx Hnd]. rewrite IH by done.
  change (list_to_map ((x, v) :: l)) with (<[x := v]> (list_to_map l) : gmap string string).
  destruct (decide (k = key)) as [->|Hk].
  - destruct (decide (x = lb)) as [->|Hxl].
    + rewrite (not_elem_of_list_to_map_1 (M := gmap string) l lb Hx). by rewrite !lookup_insert_eq.
    + rewrite (lookup_insert_ne _ x lb) by done. case_match; [done|]. rewrite lookup_insert_ne by congruence. done.
  - rewrite lookup_insert_ne by congruence. done.
Qed.

Lemma insert_rows_lookup (rows : list (string * string)) (m : gmap (string * string * string) unit) key n v k :
  is_Some (foldl (λ m '(n, v), <[(n, v, key) := tt]> m) m rows !! (n, v, k)) →
  k = key ∨ is_Some (m !! (n, v, k)).
Proof.
  revert m. induction rows as [|[n' v'] rows IH]; intros m Hr; cbn [foldl] in Hr; [by right|].
  apply IH in Hr as [?|Hr]; [by left|]. rewrite lookup_insert_is_Some in Hr. naive_solver.
Qed.

(** What the hooks of an upsert do to the tables. *)
Lemma hooks_ok key obj f s s' :
  run_all [AfterUpsert indexers key obj; addIndexFields indexedFields key obj; addLabels GetLabels key obj;
           notify f] s = (s', None) →
  let t := st_tables s in let t' := st_tables s' in
  ∃ values, index_values indexedFields (Some obj) = Ok values ∧
    t_objects t' = t_objects t ∧
    t_fields t' = <[key := match t_fields t !! key with
                           | Some old => update_fields indexedFields old values | None => values end]> (t_fields t) ∧
    (∀ k l, t_labels t' !! (k, l) = if decide (k = key) then
       match GetLabels obj !! l with Some v => Some v | None => t_labels t !! (k, l) end else t_labels t !! (k, l)) ∧
    (∀ n v k, is_Some (t_indices t' !! (n, v, k)) → k = key ∨ is_Some (t_indices t !! (n, v, k))).
Proof.
  intros (s1 & Hindex & (s2 & Hfields & (s3 & Hlabels & (s4 & Hnotify & [= <-])%run_all_cons)%run_all_cons)%run_all_cons)%run_all_cons.
  cbn zeta. assert (Ht4 : t_objects (st_tables s4) = t_objects (st_tables s3) ∧
    t_fields (st_tables s4) = t_fields (st_tables s3) ∧ t_labels (st_tables s4) = t_labels (st_tables s3) ∧
    t_indices (st_tables s4) = t_indices (st_tables s3)).
  { unfold notify in Hnotify. by destruct (f _); injection Hnotify as <-. }
  destruct Ht4 as (-> & -> & -> & ->). clear Hnotify. injection Hlabels as <-.
  unfold addIndexFields in Hfields. destruct (index_values indexedFields (Some obj)) as [values| |]; [|done..].
  injection Hfields as <-. exists values. split; [done|].
  unfold AfterUpsert in Hindex. destruct (index_rows indexers obj) as [rows| |]; [|done..].
  case_bool_decide; [|done]. injection Hindex as <-. cbn [st_tables with_tables t_objects t_fields t_labels t_indices].
  split_and!; [done|done| |].
  - intros k l. rewrite set_labels_lookup by apply NoDup_fst_range_map.
    replace (list_to_map (range_map (GetLabels obj)) : gmap string string) with (GetLabels obj); [done|].
    apply list_to_map_flip. by rewrite range_map_perm.
  - intros n v k [?|Hr]%insert_rows_lookup; [by left|right].
    destruct Hr as [u Hr]. apply map_lookup_filter_Some in Hr as [Hr _]. by exists u.
Qed.

(** ** The rows refer to objects *)
Definition store_wf t : Prop :=
  dom (t_fields t) = dom (t_objects t) ∧
  (∀ k l, is_Some (t_labels t !! (k, l)) → k ∈ dom (t_objects t)) ∧
  (∀ n v k, is_Some (t_indices t !! (n, v, k)) → k ∈ dom (t_objects t)).

Lemma upsert_hooks_wf key ser obj f s s' :
  store_wf (st_tables s) →
  run_all [Upsert key ser; run_all [AfterUpsert indexers key obj; addIndexFields indexedFields key obj;
    addLabels GetLabels key obj; notify f]] s = (s', None) →
  store_wf (st_tables s').
Proof.
  intros (Hf & Hl & Hi) (s1 & [= <-] & (s2 & Hhooks & [= <-])%run_all_cons)%run_all_cons.
  apply hooks_ok in Hhooks as (values & _ & Ho & Hf' & Hl' & Hi'). cbn in *.
  unfold store_wf. rewrite Ho, Hf', !dom_insert_L, Hf. split_and!; [done| |].
  - intros k l. rewrite Hl', elem_of_union, elem_of_singleton. case_decide; [by left|].
    intros Hk. right. by eapply Hl.
  - intros n v k Hk. rewrite elem_of_union, elem_of_singleton. apply Hi' in Hk as [->|Hk]; [by left|right].
    by eapply Hi.
Qed.

Lemma delete_key_wf key t : store_wf t → store_wf (delete_key key t).
Proof.
  intros (Hf & Hl & Hi). unfold store_wf, delete_key. cbn. rewrite !dom_delete_L, Hf. split_and!; [done| |].
  - intros k l [v Hk]. apply map_lookup_filter_Some in Hk as [Hk Hne].
    apply elem_of_difference. split; [by eapply Hl|]. cbn in Hne. by rewrite elem_of_singleton.
  - intros n v k [u Hk]. apply map_lookup_filter_Some in Hk as [Hk Hne].
    apply elem_of_difference. split; [by eapply Hi|]. cbn in Hne. by rewrite elem_of_singleton.
Qed.

Lemma delete_all_wf t : store_wf (delete_all t).
Proof. split_and!; cbn; [by rewrite !dom_empty_L| |]; intros *; intros [? Hx]; by rewrite lookup_empty in Hx. Qed.

(** ** Copied columns *)

(** A row keeps its columns but those that are copied. *)
Definition row_agrees (copied : list string) (row row' : list string) : Prop :=
  length row' = length indexedFields ∧
  (length row = length indexedFields → ∀ i f, indexedFields !! i = Some f → f ∉ copied → row' !! i = row !! i).
Lemma of_row_agrees copied row row' : NoDup indexedFields →
  agree_but copied (as_row indexedFields row) row' → row_agrees copied row (of_row indexedFields row').
Proof.
  intros Hnd Ha. unfold of_row. split; [by rewrite length_fmap|]. intros Hlen i f Hi Hf.
  rewrite list_lookup_fmap, Hi. cbn. unfold column. rewrite (Ha f Hf).
  destruct (lookup_lt_is_Some_2 row i) as [v Hv]; [rewrite Hlen; by eapply lookup_lt_Some|]. rewrite Hv. f_equal.
  unfold as_row. rewrite (elem_of_list_to_map_1 _ f v); [done| |].
  - rewrite fst_zip by lia. done.
  - apply (list_elem_of_lookup_2 _ i). rewrite lookup_zip_with, Hi. cbn. by rewrite Hv.
Qed.
Definition copied_by (infos : option ExternalGVKUpdates * option ExternalGVKUpdates) : list string :=
  copied_columns name infos.1 ++ copied_columns name infos.2.
Lemma update_columns_tables copied infos s : copied_by infos ⊆ copied →
  let t := st_tables s in let t' := st_tables (update_columns indexedFields name infos s) in
  t_objects t' = t_objects t ∧ t_indices t' = t_indices t ∧ t_labels t' = t_labels t ∧
  dom (t_fields t') = dom (t_fields t) ∧
  (NoDup indexedFields → ∀ k, option_Forall2 (row_agrees copied) (t_fields t !! k) (t_fields t' !! k)).
Proof.
  intros Hsub. cbn zeta. unfold update_columns, copied_by in *. cbn [st_tables t_objects t_indices t_labels t_fields].
  set (t0 := mkResourceTables indexedFields (as_row indexedFields <$> t_fields (st_tables s)) (t_labels (st_tables s))).
  destruct (checkUpdateExternalInfo_keeps name copied t0 (whole_database indexedFields name s) infos.1 infos.2)
    as (r & -> & _ & _ & Hrows).
  - intros c Hc. apply Hsub, elem_of_app. by left.
  - intros c Hc. apply Hsub, elem_of_app. by right.
  - exists t0. split; [by apply lookup_insert_eq|]. apply tables_agree_refl.
  - cbn [x_fields t0] in Hrows. split_and!; [done..| |].
    + rewrite dom_fmap_L. apply set_eq. intros k. rewrite !elem_of_dom. specialize (Hrows k). rewrite lookup_fmap in Hrows.
      destruct (t_fields (st_tables s) !! k); inversion Hrows; subst; by split; intros ?; eauto.
    + intros Hnd k. specialize (Hrows k). rewrite lookup_fmap in Hrows. rewrite lookup_fmap.
      destruct (t_fields (st_tables s) !! k) as [row|]; inversion Hrows; subst; cbn; constructor. by apply of_row_agrees.
Qed.
Lemma update_columns_wf infos s : store_wf (st_tables s) → store_wf (st_tables (update_columns indexedFields name infos s)).
Proof.
  intros (Hf & Hl & Hi). destruct (update_columns_tables _ infos s (reflexivity _)) as (Ho & Hi' & Hl' & Hd & _).
  unfold store_wf. by rewrite Ho, Hi', Hl', Hd.
Qed.

(** ** Operations *)
Abbreviation Add := (Add keyFunc Serialize Accessor GetLabels indexers indexedFields name externalUpdateInfo selfUpdateInfo).
Abbreviation Update := (Update keyFunc Serialize Deserialize Accessor GetLabels indexers indexedFields
  name externalUpdateInfo selfUpdateInfo).
Abbreviation Delete := (Delete keyFunc Deserialize Accessor).
Abbreviation Replace := (Replace keyFunc Serialize Accessor GetLabels indexers indexedFields).

(** The effect of [Add] and [Update]. *)
Definition upserted obj s s' : Prop :=
  ∃ key ser f s1, keyFunc obj = Ok key ∧ Serialize obj = Ok ser ∧
    run_all [Upsert key ser; run_all [AfterUpsert indexers key obj; addIndexFields indexedFields key obj;
      addLabels GetLabels key obj; notify f]] s = (s1, None) ∧
    s' = update_columns indexedFields name (externalUpdateInfo, selfUpdateInfo) s1.
Lemma upsert_op_ok (hooks : store_state Ser → string → object → action) obj s s' :
  (∀ key, ∃ f, hooks s key obj = run_all [AfterUpsert indexers key obj; addIndexFields indexedFields key obj;
    addLabels GetLabels key obj; notify f]) →
  upsert_op keyFunc Serialize indexedFields name externalUpdateInfo selfUpdateInfo hooks obj s = (s', None) →
  upserted obj s s'.
Proof.
  intros Hhooks. unfold upsert_op. destruct (keyFunc obj) as [key| |] eqn:Hkey; [|done..].
  destruct (Serialize obj) as [ser| |] eqn:Hser; [|done..].
  destruct (WithTransaction _ s) as [s1 [e|]] eqn:Hr; [done|]. apply WithTransaction_ok in Hr. intros [= <-].
  destruct (Hhooks key) as [f Hf]. rewrite Hf in Hr. by exists key, ser, f, s1.
Qed.

Lemma Add_ok obj s s' : Add obj s = (s', None) → upserted obj s s'.
Proof. apply upsert_op_ok. intros key. by eexists. Qed.

Lemma Update_ok obj s s' : Update obj s = (s', None) → upserted obj s s'.
Proof. apply upsert_op_ok. intros key. by eexists. Qed.

Lemma upsert_op_error (hooks : store_state Ser → string → object → action) obj s s' e :
  upsert_op keyFunc Serialize indexedFields name externalUpdateInfo selfUpdateInfo hooks obj s = (s', Some e) →
  st_tables s' = st_tables s.
Proof.
  unfold upsert_op. destruct (keyFunc obj); [|by intros [= <- _]..].
  destruct (Serialize obj); [|by intros [= <- _]..]. destruct (WithTransaction _ s) as [s1 [e'|]] eqn:Hr; [|done].
  intros [= <- <-]. by apply WithTransaction_error in Hr.
Qed.

Lemma Delete_ok obj s s' : Delete obj s = (s', None) →
  ∃ key, keyFunc obj = Ok key ∧ ∃ evs, st_tables s' = let t := delete_key key (st_tables s) in
    mkTables (t_objects t) (t_indices t) (t_fields t) (t_labels t) evs.
Proof.
  unfold Delete. destruct (keyFunc obj) as [key| |]; [|done..].
  intros (s1 & [= <-] & (s2 & Hn & [= <-])%run_all_cons)%WithTransaction_ok%run_all_cons.
  exists key. split; [done|]. unfold runAfterDelete, notify in Hn. destruct (notifyEventDeleted _ _ _ _ _); [|done..].
  injection Hn as <-. by eexists.
Qed.

Lemma Delete_error obj s s' e : Delete obj s = (s', Some e) → st_tables s' = st_tables s.
Proof. unfold Delete. destruct (keyFunc obj); [|by intros [= <- _]..]. apply WithTransaction_error. Qed.

(** The loop of [replaceByKey] keeps invariants of upserts. *)
Lemma replace_loop (P : list (string * object * Ser) → tables Ser → Prop) l0 l s s' :
  (∀ done key obj ser f s1 s2, P done (st_tables s1) →
     run_all [Upsert key ser; run_all [AfterUpsert indexers key obj; addIndexFields indexedFields key obj;
       addLabels GetLabels key obj; notify f]] s1 = (s2, None) → P (done ++ [(key, obj, ser)]) (st_tables s2)) →
  P l0 (st_tables s) →
  run_all (l ≫= λ '(key, obj, ser), [Upsert key ser; runAfterAdd Accessor GetLabels indexers indexedFields key obj]) s
    = (s', None) → P (l0 ++ l) (st_tables s').
Proof.
  intros Hstep. revert l0 s. induction l as [|[[key obj] ser] l IH]; intros l0 s HP.
  - intros [= <-]. by rewrite app_nil_r.
  - intros Hr. change (run_all ([Upsert key ser; runAfterAdd Accessor GetLabels indexers indexedFields key obj] ++
      (l ≫= λ '(key, obj, ser), [Upsert key ser; runAfterAdd Accessor GetLabels indexers indexedFields key obj])) s
      = (s', None)) in Hr. apply run_all_app in Hr as (s1 & Hs1 & Hr).
    rewrite (cons_middle (key, obj, ser) l0 l), app_assoc. eapply IH; [|exact Hr].
    exact (Hstep l0 key obj ser (notifyEventAdded Accessor obj) s s1 HP Hs1).
Qed.

Lemma Replace_ok objs s s' : Replace objs s = (s', None) →
  ∃ keyed l, map_outcome (λ obj, key ← keyFunc obj; Ok (key, obj)) objs = Ok keyed ∧
    map_outcome (λ kv, ser ← Serialize kv.2; Ok (kv.1, kv.2, ser))
      (range_map (foldl (λ m '(key, obj), <[key := obj]> m) ∅ keyed)) = Ok l ∧
    run_all ((λ s, (with_tables delete_all s, None)) ::
      (l ≫= λ '(key, obj, ser), [Upsert key ser; runAfterAdd Accessor GetLabels indexers indexedFields key obj])) s
      = (s', None).
Proof.
  unfold Replace, replaceByKey. destruct (map_outcome _ objs) as [keyed| |]; [|done..].
  destruct (map_outcome _ (range_map _)) as [l| |] eqn:Hl; [|done..]. intros Hr%WithTransaction_ok.
  by exists keyed, l.
Qed.

Lemma Replace_error objs s s' e : Replace objs s = (s', Some e) → st_tables s' = st_tables s.
Proof.
  unfold Replace, replaceByKey. destruct (map_outcome _ objs); [|by intros [= <- _]..].
  destruct (map_outcome _ (range_map _)); [|by intros [= <- _]..]. apply WithTransaction_error.
Qed.
End store_lemmas.

(** ** Sequences of operations and their specification *)

(** [OpOther]: the stores of other resources change their tables, and the columns they copy between all tables. *)
Inductive store_op :=
  | OpAdd (obj : object) | OpUpdate (obj : object) | OpDelete (obj : object) | OpReplace (objs : list object)
  | OpOther (others : database) (infos : option ExternalGVKUpdates * option ExternalGVKUpdates).

Section runs.
Context `{MapRange} `{GoFmt, Nested}.
Context (keyFunc : object → outcome string string).
Context {Ser : Type} (Serialize : object → outcome string Ser) (Deserialize : Ser → outcome string object).
Context (Accessor : object → option Metadata) (GetLabels : object → gmap string string).
Context (indexers : gmap string (object → outcome string (list string))) (indexedFields : list string).
Context (name : string) (externalUpdateInfo selfUpdateInfo : option ExternalGVKUpdates).
Implicit Types (s : store_state Ser) (abs : gmap string object).

Definition run_op (o : store_op) (s : store_state Ser) : store_state Ser * option store_error :=
  match o with
  | OpAdd obj => Add keyFunc Serialize Accessor GetLabels indexers indexedFields name externalUpdateInfo selfUpdateInfo obj s
  | OpUpdate obj =>
      Update keyFunc Serialize Deserialize Accessor GetLabels indexers indexedFields name externalUpdateInfo selfUpdateInfo obj s
  | OpDelete obj => Delete keyFunc Deserialize Accessor obj s
  | OpReplace objs => Replace keyFunc Serialize Accessor GetLabels indexers indexedFields objs s
  | OpOther others infos => (update_columns indexedFields name infos
      (mkStore (st_tables s) (st_latestRV s) (st_watchers s) (st_next s) others), None)
  end.

(** The key of an object, "" when it has none. *)
Definition key_of (obj : object) : string := match keyFunc obj with Ok key => key | _ => "" end.

(** The specification of a store: a map from keys to objects. An operation that fails
    changes nothing. *)
Definition abs_op (o : store_op) abs : gmap string object :=
  match o with
  | OpAdd obj | OpUpdate obj => <[key_of obj := obj]> abs
  | OpDelete obj => delete (key_of obj) abs
  | OpReplace objs => foldl (λ m obj, <[key_of obj := obj]> m) ∅ objs
  | OpOther _ _ => abs
  end.
Definition run_abs (st : store_state Ser * gmap string object) (o : store_op)
    : store_state Ser * gmap string object :=
  let '(s, abs) := st in
  match run_op o s with
  | (s', None) => (s', abs_op o abs)
  | (s', Some _) => (s', abs)
  end.

(** The table holds the serialized objects of the map. *)
Definition objects_match abs (m : gmap string Ser) : Prop :=
  ∀ k, match abs !! k with
       | Some obj => ∃ ser, m !! k = Some ser ∧ Serialize obj = Ok ser
       | None => m !! k = None
       end.

Lemma objects_match_insert abs m key obj ser : Serialize obj = Ok ser →
  objects_match abs m → objects_match (<[key := obj]> abs) (<[key := ser]> m).
Proof.
  intros Hser Hm k. destruct (decide (key = k)) as [<-|Hk].
  - rewrite !lookup_insert_eq. by exists ser.
  - rewrite !lookup_insert_ne by done. apply Hm.
Qed.

Lemma objects_match_delete abs m key : objects_match abs m → objects_match (delete key abs) (delete key m).
Proof.
  intros Hm k. destruct (decide (key = k)) as [<-|Hk].
  - by rewrite !lookup_delete_eq.
  - rewrite !lookup_delete_ne by done. apply Hm.
Qed.

Lemma foldl_insert_map (objects : gmap string object) :
  foldl (λ m kv, <[kv.1 := kv.2]> m) (∅ : gmap string object) (range_map objects) = objects.
Proof.
  assert (Hl : ∀ l (m : gmap string object) k, NoDup l.*1 → foldl (λ m kv, <[kv.1 := kv.2]> m) m l !! k =
    match (list_to_map l : gmap string object) !! k with Some x => Some x | None => m !! k end).
  { induction l as [|[x v] l IH]; intros m k Hnd; [done|]. apply list.NoDup_cons in Hnd as [Hx Hnd].
    cbn [foldl fst snd]. rewrite IH by done.
    change (list_to_map ((x, v) :: l)) with (<[x := v]> (list_to_map l) : gmap string object).
    destruct (decide (x = k)) as [->|Hk].
    - rewrite (not_elem_of_list_to_map_1 (M := gmap string) l k Hx). by rewrite !lookup_insert_eq.
    - by rewrite !lookup_insert_ne. }
  apply map_eq. intros k. rewrite Hl by apply NoDup_fst_range_map.
  replace (list_to_map (range_map objects) : gmap string object) with objects.
  - rewrite lookup_empty. by case_match.
  - apply list_to_map_flip. by rewrite range_map_perm.
Qed.

(** The objects of an upsert. *)
Lemma upsert_objects key ser obj f s s' :
  run_all [Upsert key ser; run_all [AfterUpsert indexers key obj; addIndexFields indexedFields key obj;
    addLabels GetLabels key obj; notify f]] s = (s', None) →
  t_objects (st_tables s') = <[key := ser]> (t_objects (st_tables s)).
Proof.
  intros (s1 & [= <-] & (s2 & Hh & [= <-])%run_all_cons)%run_all_cons.
  by apply hooks_ok in Hh as (_ & _ & -> & _).
Qed.

(** The columns that some store copies from other resources. *)
Definition op_copies (o : store_op) : list string :=
  match o with OpOther _ infos => copied_by name infos | _ => copied_by name (externalUpdateInfo, selfUpdateInfo) end.
Definition copied_in (ops : list store_op) : list string := ops ≫= op_copies.

(** The rows of an object: the columns that may change and are not copied have the values of the object, and its labels
    are in the table of labels. *)
Section rows.
Context (copied : list string).
Definition row_ok (obj : object) (row : list string) : Prop :=
  ∃ values, index_values indexedFields (Some obj) = Ok values ∧
    ∀ i f, indexedFields !! i = Some f → f ∉ immutableFields → f ∉ copied → row !! i = values !! i.
Definition rows_ok abs (t : tables Ser) : Prop :=
  (∀ k row, t_fields t !! k = Some row → length row = length indexedFields) ∧
  ∀ k obj, abs !! k = Some obj →
    (∃ row, t_fields t !! k = Some row ∧ row_ok obj row) ∧
    ∀ l v, GetLabels obj !! l = Some v → t_labels t !! (k, l) = Some v.

Lemma index_values_length obj values :
  index_values indexedFields obj = Ok values → length values = length indexedFields.
Proof. intros Hv%map_outcome_ok. symmetry. by eapply Forall2_length. Qed.

Lemma update_fields_lookup old new i f :
  length old = length indexedFields → length new = length indexedFields → indexedFields !! i = Some f →
  update_fields indexedFields old new !! i = if bool_decide (f ∈ immutableFields) then old !! i else new !! i.
Proof.
  intros Ho Hn Hf. assert (Hi : i < length indexedFields) by by eapply lookup_lt_Some.
  destruct (lookup_lt_is_Some_2 old i) as [o Hio]; [lia|].
  destruct (lookup_lt_is_Some_2 new i) as [n Hin]; [lia|].
  unfold update_fields. rewrite lookup_zip_with, Hf. cbn [mbind option_bind].
  rewrite lookup_zip_with, Hio, Hin. cbn. by case_bool_decide.
Qed.

Lemma update_fields_length old new :
  length old = length indexedFields → length new = length indexedFields →
  length (update_fields indexedFields old new) = length indexedFields.
Proof. intros Ho Hn. unfold update_fields. rewrite !length_zip_with. lia. Qed.

Lemma upsert_rows abs key ser obj f s s' :
  rows_ok abs (st_tables s) →
  run_all [Upsert key ser; run_all [AfterUpsert indexers key obj; addIndexFields indexedFields key obj;
    addLabels GetLabels key obj; notify f]] s = (s', None) →
  rows_ok (<[key := obj]> abs) (st_tables s').
Proof.
  intros [Hlen Hrows] (s1 & [= <-] & (s2 & Hh & [= <-])%run_all_cons)%run_all_cons.
  apply hooks_ok in Hh as (values & Hv & _ & Hf & Hl & _). cbn in *.
  pose proof (index_values_length _ _ Hv) as Hvl. split.
  - intros k row. rewrite Hf. intros [[<- <-]|[_ Hk]]%lookup_insert_Some; [|by eapply Hlen].
    destruct (t_fields (st_tables s) !! key) as [old|] eqn:Hold; [|done].
    apply update_fields_length; [by eapply Hlen|done].
  - intros k obj' [[<- <-]|[Hne Hk]]%lookup_insert_Some.
    + split.
      * rewrite Hf, lookup_insert_eq. eexists. split; [done|]. exists values. split; [done|].
        intros i fld Hi Hm Hc. destruct (t_fields (st_tables s) !! key) as [old|] eqn:Hold; [|done].
        rewrite (update_fields_lookup _ _ _ fld) by (done || by eapply Hlen). by rewrite bool_decide_eq_false_2.
      * intros l v Hlv. by rewrite Hl, decide_True, Hlv.
    + destruct (Hrows k obj' Hk) as [(row & Hrow & Hok) Hlabels]. split.
      * exists row. by rewrite Hf, lookup_insert_ne.
      * intros l v Hlv. rewrite Hl, decide_False by done. by apply Hlabels.
Qed.

Lemma delete_rows abs key t : rows_ok abs t → rows_ok (delete key abs) (delete_key key t).
Proof.
  intros [Hlen Hrows]. split; cbn.
  - intros k row [_ Hk]%lookup_delete_Some. by eapply Hlen.
  - intros k obj [Hne Hk]%lookup_delete_Some. destruct (Hrows k obj Hk) as [(row & Hrow & Hok) Hlabels]. split.
    + exists row. by rewrite lookup_delete_ne.
    + intros l v Hlv. apply map_lookup_filter_Some. split; [by apply Hlabels|done].
Qed.

Lemma delete_all_rows t : rows_ok ∅ (delete_all t).
Proof. by split; cbn; intros *; rewrite lookup_empty. Qed.

Lemma update_columns_rows abs infos s : NoDup indexedFields → copied_by name infos ⊆ copied →
  rows_ok abs (st_tables s) → rows_ok abs (st_tables (update_columns indexedFields name infos s)).
Proof.
  intros Hnd Hsub [Hlen Hrows]. destruct (update_columns_tables indexedFields name copied infos s Hsub) as (_ & _ & Hl & _ & Hr).
  specialize (Hr Hnd). split.
  - intros k row Hk. specialize (Hr k). rewrite Hk in Hr. by inversion Hr as [? ? []|].
  - intros k obj Hk. destruct (Hrows k obj Hk) as [(row & Hrow & values & Hv & Hok) Hlabels]. rewrite Hl. split; [|done].
    specialize (Hr k). rewrite Hrow in Hr. inversion Hr as [? row' [_ Ha] Heq Heq'|]; subst. exists row'. split; [done|].
    exists values. split; [done|]. intros i f Hi Hm Hc. rewrite (Ha (Hlen k row Hrow) i f Hi Hc). by apply (Hok i f).
Qed.
End rows.

Lemma keyed_objects objs keyed :
  map_outcome (λ obj, key ← keyFunc obj; Ok (key, obj)) objs = Ok keyed →
  ∀ m : gmap string object, foldl (λ m '(key, obj), <[key := obj]> m) m keyed = foldl (λ m obj, <[key_of obj := obj]> m) m objs.
Proof.
  intros Hk%map_outcome_ok. induction Hk as [|obj [key obj'] objs keyed Hobj _ IH]; intros m; [done|].
  cbn [foldl]. rewrite IH. unfold key_of. destruct (keyFunc obj) as [k| |]; [|done..].
  by injection Hobj as -> ->.
Qed.

Lemma Replace_objects copied objs s s' : run_op (OpReplace objs) s = (s', None) →
  objects_match (abs_op (OpReplace objs) ∅) (t_objects (st_tables s')) ∧ store_wf (st_tables s') ∧
  rows_ok copied (abs_op (OpReplace objs) ∅) (st_tables s').
Proof.
  intros (keyed & l & Hkeyed & Hl & (s1 & [= <-] & Hr)%run_all_cons)%Replace_ok.
  cbn [abs_op]. rewrite <- (keyed_objects _ _ Hkeyed). set (objects := foldl _ ∅ keyed) in *.
  apply map_outcome_ok in Hl.
  assert (Hser : Forall (λ x, Serialize x.1.2 = Ok x.2) l ∧ l.*1 = range_map objects).
  { clear Hr. induction Hl as [|[k obj] [[k' obj'] ser] kvs l Hx _ [IH1 IH2]]; [done|].
    cbn in Hx. destruct (Serialize obj) as [ser'| |] eqn:Hs; [|done..]. cbn in Hx. simplify_eq.
    split; [by constructor|done]. }
  destruct Hser as [Hser Hfst].
  pose proof (replace_loop Accessor GetLabels indexers indexedFields
    (λ done t, Forall (λ x, Serialize x.1.2 = Ok x.2) done →
       objects_match (foldl (λ m kv, <[kv.1 := kv.2]> m) ∅ done.*1) (t_objects t) ∧ store_wf t ∧
       rows_ok copied (foldl (λ m kv, <[kv.1 := kv.2]> m) ∅ done.*1) t)
    [] l (with_tables delete_all s) s') as Hloop.
  destruct Hloop as (Hm & Hwf & Hrows); [| |exact Hr|exact Hser|].
  - intros don key obj ser f s1 s2 HP Hup [Hd Hx]%Forall_app. destruct (HP Hd) as (Hm & Hwf & Hrows).
    rewrite fmap_app, foldl_app. split_and!.
    + rewrite (upsert_objects _ _ _ _ _ _ Hup). apply objects_match_insert; [|done].
      by apply Forall_inv in Hx.
    + by eapply upsert_hooks_wf.
    + by eapply upsert_rows.
  - intros _. split_and!; [|apply delete_all_wf|apply delete_all_rows]. intros k. cbn. by rewrite lookup_empty.
  - cbn [app] in Hm, Hrows. rewrite Hfst, foldl_insert_map in Hm, Hrows. done.
Qed.

(** An operation implements its specification and keeps the rows consistent. *)
Lemma upserted_ok obj s s' abs : store_wf (st_tables s) → objects_match abs (t_objects (st_tables s)) →
  upserted keyFunc Serialize GetLabels indexers indexedFields name externalUpdateInfo selfUpdateInfo obj s s' →
  store_wf (st_tables s') ∧ objects_match (<[key_of obj := obj]> abs) (t_objects (st_tables s')).
Proof.
  intros Hwf Hm (key & ser & f & s1 & Hkey & Hser & Hr & ->). unfold key_of. rewrite Hkey. split.
  - apply update_columns_wf. by eapply upsert_hooks_wf.
  - destruct (update_columns_tables indexedFields name _ (externalUpdateInfo, selfUpdateInfo) s1 (reflexivity _)) as (-> & _).
    rewrite (upsert_objects _ _ _ _ _ _ Hr). by apply objects_match_insert.
Qed.
Lemma upserted_rows copied obj s s' abs : NoDup indexedFields →
  copied_by name (externalUpdateInfo, selfUpdateInfo) ⊆ copied → rows_ok copied abs (st_tables s) →
  upserted keyFunc Serialize GetLabels indexers indexedFields name externalUpdateInfo selfUpdateInfo obj s s' →
  rows_ok copied (<[key_of obj := obj]> abs) (st_tables s').
Proof.
  intros Hnd Hsub Hrows (key & ser & f & s1 & Hkey & Hser & Hr & ->). unfold key_of. rewrite Hkey.
  apply update_columns_rows; [done..|]. by eapply upsert_rows.
Qed.
Lemma run_op_ok o s s' abs : run_op o s = (s', None) → store_wf (st_tables s) →
  objects_match abs (t_objects (st_tables s)) →
  store_wf (st_tables s') ∧ objects_match (abs_op o abs) (t_objects (st_tables s')).
Proof.
  intros Hrun Hwf Hm. destruct o as [obj|obj|obj|objs|others infos]; cbn [run_op abs_op] in *.
  - apply Add_ok in Hrun. by eapply upserted_ok.
  - apply Update_ok in Hrun. by eapply upserted_ok.
  - apply Delete_ok in Hrun as (key & Hkey & evs & ->). unfold key_of. rewrite Hkey. cbn zeta.
    split; [exact (delete_key_wf key _ Hwf)|by apply objects_match_delete].
  - by destruct (Replace_objects [] objs s s' Hrun) as (Hm' & Hwf' & _).
  - injection Hrun as <-. split; [by apply update_columns_wf|].
    set (s1 := mkStore _ _ _ _ others).
    by destruct (update_columns_tables indexedFields name _ infos s1 (reflexivity _)) as (-> & _).
Qed.
Lemma run_op_rows copied o s s' abs : run_op o s = (s', None) → NoDup indexedFields → op_copies o ⊆ copied →
  rows_ok copied abs (st_tables s) → rows_ok copied (abs_op o abs) (st_tables s').
Proof.
  intros Hrun Hnd Hsub Hrows. destruct o as [obj|obj|obj|objs|others infos]; cbn [run_op abs_op op_copies] in *.
  - apply Add_ok in Hrun. by eapply upserted_rows.
  - apply Update_ok in Hrun. by eapply upserted_rows.
  - apply Delete_ok in Hrun as (key & Hkey & evs & ->). unfold key_of. rewrite Hkey. exact (delete_rows _ _ key _ Hrows).
  - by destruct (Replace_objects copied objs s s' Hrun) as (_ & _ & Hrows').
  - injection Hrun as <-. by apply update_columns_rows.
Qed.

Lemma run_op_error o s s' e : run_op o s = (s', Some e) → st_tables s' = st_tables s.
Proof.
  destruct o; cbn [run_op]; [apply upsert_op_error|apply upsert_op_error|apply Delete_error|apply Replace_error|done].
Qed.

Lemma run_abs_ok ops s abs : store_wf (st_tables s) → objects_match abs (t_objects (st_tables s)) →
  let '(s', abs') := foldl run_abs (s, abs) ops in
  store_wf (st_tables s') ∧ objects_match abs' (t_objects (st_tables s')).
Proof.
  revert s abs. induction ops as [|o ops IH]; intros s abs Hwf Hm; [done|].
  cbn [foldl]. unfold run_abs at 2. destruct (run_op o s) as [s' [e|]] eqn:Hrun.
  - apply run_op_error in Hrun. apply IH; by rewrite Hrun.
  - destruct (run_op_ok o s s' abs Hrun Hwf Hm) as (? & ?). by apply IH.
Qed.
Lemma run_abs_rows copied ops s abs : NoDup indexedFields → copied_in ops ⊆ copied → rows_ok copied abs (st_tables s) →
  let '(s', abs') := foldl run_abs (s, abs) ops in rows_ok copied abs' (st_tables s').
Proof.
  revert s abs. induction ops as [|o ops IH]; intros s abs Hnd Hsub Hrows; [done|].
  unfold copied_in in Hsub. rewrite bind_cons in Hsub.
  cbn [foldl]. unfold run_abs at 2. destruct (run_op o s) as [s' [e|]] eqn:Hrun.
  - apply run_op_error in Hrun. apply IH; [done| |by rewrite Hrun]. intros c Hc. apply Hsub, elem_of_app. by right.
  - apply IH; [done| |].
    + intros c Hc. apply Hsub, elem_of_app. by right.
    + eapply run_op_rows; [done..| |done]. intros c Hc. apply Hsub, elem_of_app. by left.
Qed.

(** The state of a new store, beside the tables of other resources. *)
Definition new_store (others : database) : store_state Ser := mkStore (mkTables ∅ ∅ ∅ ∅ []) "" ∅ 0 others.

Lemma new_store_ok others : store_wf (st_tables (new_store others)) ∧ objects_match ∅ (t_objects (st_tables (new_store others))).
Proof.
  split; [apply (delete_all_wf (mkTables ∅ ∅ ∅ ∅ []))|]. intros k. cbn. by rewrite lookup_empty.
Qed.

(** C33: Whatever operations are run on a new store, while the stores of other resources change their tables and copy columns
    between all of them, it holds the objects of a map on which the operations that did not fail were carried out, when
    what is serialized is read back: it returns them by key, lists them and lists their keys. When the columns of its table have different
    names, the saved columns of a key are those of its object but for the columns that are listed as immutable, which may be those of an
    earlier object of the key, and those that are copied from other resources; and every label of the object is saved, beside
    which labels of earlier objects of the key may stay ([update_keeps_stale_rows]). *)
Theorem store_refines_map ops others :
  (∀ obj ser, Serialize obj = Ok ser → Deserialize ser = Ok obj) →
  let '(s, abs) := foldl run_abs (new_store others, ∅) ops in
  (∀ key, GetByKey Deserialize key s = Ok (abs !! key)) ∧
  (∃ l, List Deserialize s = Ok l ∧ l ≡ₚ (map_to_list abs).*2) ∧
  ListKeys s ≡ₚ (map_to_list abs).*1 ∧
  (NoDup indexedFields → rows_ok (copied_in ops) abs (st_tables s)).
Proof.
  intros Hcodec. destruct (new_store_ok others) as (Hwf & Hm).
  pose proof (run_abs_ok ops (new_store others) ∅ Hwf Hm) as Hrun.
  assert (Hrows : NoDup indexedFields →
    let '(s, abs) := foldl run_abs (new_store others, ∅) ops in rows_ok (copied_in ops) abs (st_tables s)).
  { intros Hnd. apply run_abs_rows; [done..|]. apply (delete_all_rows _ (mkTables ∅ ∅ ∅ ∅ [])). }
  destruct (foldl run_abs (new_store others, ∅) ops) as [s abs]. destruct Hrun as (_ & Hm').
  clear Hwf Hm.
  assert (Hkey : ∀ key, GetByKey Deserialize key s = Ok (abs !! key)).
  { intros key. unfold GetByKey. specialize (Hm' key). destruct (abs !! key) as [obj|]; [|by rewrite Hm'].
    destruct Hm' as (ser & -> & Hser). cbn. by rewrite (Hcodec _ _ Hser). }
  set (decode := λ ser, match Deserialize ser with Ok o => o | _ => ∅ end).
  assert (Hser : ∀ k ser, t_objects (st_tables s) !! k = Some ser → Deserialize ser = Ok (decode ser) ∧
      abs !! k = Some (decode ser)).
  { intros k ser Hk. specialize (Hkey k). unfold GetByKey in Hkey. rewrite Hk in Hkey. unfold decode.
    destruct (Deserialize ser); cbn in Hkey; [|done..]. by injection Hkey as <-. }
  assert (Hmap : abs = decode <$> t_objects (st_tables s)).
  { apply map_eq. intros k. rewrite lookup_fmap. destruct (t_objects (st_tables s) !! k) as [ser|] eqn:Hk; cbn.
    - by apply Hser.
    - specialize (Hkey k). unfold GetByKey in Hkey. rewrite Hk in Hkey. by injection Hkey as <-. }
  assert (Hlist : map_to_list abs ≡ₚ prod_map id decode <$> map_to_list (t_objects (st_tables s)))
    by (by rewrite Hmap, map_to_list_fmap).
  split_and!; [done| | |done].
  - exists (decode <$> (map_to_list (t_objects (st_tables s))).*2). split.
    + unfold List. rewrite (map_outcome_fmap _ decode); [done|].
      intros ser ([k ser'] & -> & Hk%elem_of_map_to_list)%list_elem_of_fmap. by apply (Hser k).
    + rewrite Hlist, <- !list_fmap_compose. done.
  - unfold ListKeys. rewrite Hlist, <- list_fmap_compose. done.
Qed.

(** In every state of a store whose rows of fields, labels and indices all refer to
    stored objects, an operation leaves such a state, also when it fails; a failed
    operation leaves all tables as they were. *)
Theorem store_rows_have_objects o s :
  store_wf (st_tables s) →
  store_wf (st_tables (run_op o s).1) ∧
  (∀ e, (run_op o s).2 = Some e → st_tables (run_op o s).1 = st_tables s).
Proof.
  intros Hwf. destruct (run_op o s) as [s' [e|]] eqn:Hrun; cbn [fst snd].
  - pose proof (run_op_error o s s' e Hrun) as Heq. rewrite Heq. by split.
  - split; [|done]. destruct o as [obj|obj|obj|objs|others infos]; cbn [run_op] in Hrun.
    + apply Add_ok in Hrun as (key & ser & f & s1 & _ & _ & Hr & ->). apply update_columns_wf. by eapply upsert_hooks_wf.
    + apply Update_ok in Hrun as (key & ser & f & s1 & _ & _ & Hr & ->). apply update_columns_wf. by eapply upsert_hooks_wf.
    + apply Delete_ok in Hrun as (key & _ & evs & ->). apply (delete_key_wf key _ Hwf).
    + by apply (Replace_objects [] objs s s').
    + injection Hrun as <-. by apply update_columns_wf.
Qed.

(** An update leaves the rows of labels the object no longer has, and the column of the
    state of the object, which is taken for immutable, at its old value; so filters and
    sorts by them use values the object had before. *)
Theorem update_keeps_stale_rows obj s s' key :
  Update keyFunc Serialize Deserialize Accessor GetLabels indexers indexedFields name externalUpdateInfo selfUpdateInfo obj s
    = (s', None) → keyFunc obj = Ok key →
  (∀ l v, t_labels (st_tables s) !! (key, l) = Some v → GetLabels obj !! l = None →
     t_labels (st_tables s') !! (key, l) = Some v) ∧
  (∀ row i, NoDup indexedFields → "metadata.state.name" ∉ copied_by name (externalUpdateInfo, selfUpdateInfo) →
     t_fields (st_tables s) !! key = Some row → length row = length indexedFields →
     indexedFields !! i = Some "metadata.state.name" →
     ∃ row', t_fields (st_tables s') !! key = Some row' ∧ row' !! i = row !! i).
Proof.
  intros Hu Hkey. apply Update_ok in Hu as (key' & ser & f & s2 & Hkey' & _ & Hr & ->).
  rewrite Hkey in Hkey'. injection Hkey' as <-.
  apply run_all_cons in Hr as (s1 & [= <-] & (s3 & Hh & [= <-])%run_all_cons).
  apply hooks_ok in Hh as (values & Hv & _ & Hf & Hl & _).
  destruct (update_columns_tables indexedFields name _ (externalUpdateInfo, selfUpdateInfo) s3 (reflexivity _)) as (_ & _ & Hl' & _ & Hf').
  cbn in Hf, Hl. split.
  - intros l v Hold Hnew. by rewrite Hl', Hl, decide_True, Hnew by done.
  - intros row i Hnd Hc Hrow Hlen Hi. specialize (Hf' Hnd key). rewrite Hf, lookup_insert_eq, Hrow in Hf'.
    inversion Hf' as [? row' [_ Ha] Heq Heq'|]; subst. exists row'. split; [done|].
    pose proof (index_values_length _ _ Hv) as Hvl.
    rewrite (Ha (update_fields_length _ _ Hlen Hvl) i _ Hi Hc).
    rewrite (update_fields_lookup _ _ _ "metadata.state.name") by done.
    by rewrite bool_decide_eq_true_2 by (by apply (bool_decide_unpack _); vm_compute).
Qed.
(** Without an error before it, updating or deleting an object whose key is not in the
    store fails with the error of its missing old version, and the tables stay as they
    were, although both are to work whether the object exists or not; only the rows of the
    hooks before the event can make the update fail in another way. *)
Theorem missing_object_fails obj s key ser :
  keyFunc obj = Ok key → Serialize obj = Ok ser → t_objects (st_tables s) !! key = None →
  (∃ e, Update keyFunc Serialize Deserialize Accessor GetLabels indexers indexedFields name externalUpdateInfo selfUpdateInfo obj s =
        (s, Some e) ∧
     (e = ErrEvent (ErrOldObject key) ∨ (∃ text, e = ErrIndexer text) ∨ ∃ err, e = ErrField err)) ∧
  Delete keyFunc Deserialize Accessor obj s = (s, Some (ErrEvent (ErrOldObject key))).
Proof.
  intros Hkey Hser Hmissing.
  assert (Hold : old_object Deserialize s key = None).
  { unfold old_object, GetByKey. by rewrite Hmissing. }
  destruct s as [t rv ws nx others] eqn:Hs. cbn [st_tables] in Hmissing. split.
  - unfold Update, upsert_op. rewrite Hkey, Hser.
    unfold runAfterUpdate, notifyEventModified, notify_old, WithTransaction, notify.
    cbn [run_all Upsert]. unfold AfterUpsert. destruct (index_rows indexers obj) as [rows|e|];
      [|eexists; split; [reflexivity|by eauto]..].
    case_bool_decide; [|eexists; split; [reflexivity|by eauto]].
    unfold addIndexFields. destruct (index_values indexedFields (Some obj)) as [values|e|];
      [|eexists; split; [reflexivity|by eauto]..].
    cbn. rewrite Hold. eexists. split; [reflexivity|by left].
  - unfold Delete, deleteByKey. rewrite Hkey. cbn [run_all WithTransaction].
    unfold runAfterDelete, notify, notifyEventDeleted, notify_old, WithTransaction. cbn. by rewrite Hold.
Qed.
End runs.

(** * A store of pods *)
Module StoreExample.
Import Concrete.
Import IndexFields.FieldExample.

Definition string_of (o : object) (k : string) : string :=
  match o !! "metadata" with Some (GMap m) => match m !! k with Some (GString v) => v | _ => "" end | _ => "" end.
Definition labels_of (o : object) : gmap string string :=
  match o !! "labels" with
  | Some (GMap m) => omap (λ v, match v with GString v => Some v | _ => None end) m
  | _ => ∅
  end.
Definition accessor (o : object) : option Metadata :=
  Some (mkMetadata (string_of o "name") (string_of o "namespace") (labels_of o) (string_of o "resourceVersion")).
Definition key (o : object) : outcome string string :=
  let name := string_of o "name" in if String.eqb name "" then Err "object has no name" else Ok name.

Definition pod (name rv state : string) (labels : gmap string goval) : object :=
  {[ "metadata" := GMap {["name" := GString name; "resourceVersion" := GString rv;
                          "state" := GMap {["name" := GString state]}]};
     "labels" := GMap labels ]}.
Definition fields : list string := ["metadata.name"; "metadata.state.name"; "metadata.resourceVersion"].
Definition indexers : gmap string (object → outcome string (list string)) :=
  {["byState" := λ o, Ok [string_of o "resourceVersion"]]}.

(** The state of a pod is copied from the row of its node, which its label names. *)
Definition node_state : ExternalGVKUpdates :=
  mkUpdates [] [mkLabelDependency "_v1_Pod" "node" "_v1_Node" "metadata.name" "metadata.state.name"].
Definition nodes : database :=
  {["_v1_Node" := mkResourceTables ["metadata.name"; "metadata.state.name"]
      {["n" := {["metadata.name" := "n"; "metadata.state.name" := "down"]}]} ∅]}.

Abbreviation run := (run_op key Ok Ok accessor labels_of indexers fields "_v1_Pod" None (Some node_state)).
Abbreviation run_both := (run_abs key Ok Ok accessor labels_of indexers fields "_v1_Pod" None (Some node_state)).
Definition a1 : object := pod "a" "1" "active" {["app" := GString "x"; "tier" := GString "y"]}.
Definition a2 : object := pod "a" "2" "error" {["app" := GString "z"]}.
Definition b3 : object := pod "b" "3" "active" ∅.
Definition ops : list store_op :=
  [OpReplace [a1]; OpAdd b3; OpUpdate a2; OpUpdate (pod "c" "4" "active" ∅); OpDelete b3; OpOther nodes (None, None);
   OpAdd (pod "d" "5" "active" {["node" := GString "n"]})].

(** The store after the first operations. *)
Definition start : store_state object := (run (OpReplace [a1]) (new_store ∅)).1.

Lemma store_refines_map_witness :
  let '(s, abs) := foldl run_both (new_store ∅, ∅) ops in
  (∀ k, GetByKey Ok k s = Ok (abs !! k)) ∧
  (∃ l, List Ok s = Ok l ∧ l ≡ₚ (map_to_list abs).*2) ∧
  ListKeys s ≡ₚ (map_to_list abs).*1 ∧
  rows_ok labels_of fields (copied_in "_v1_Pod" None (Some node_state) ops) abs (st_tables s).
Proof.
  pose proof (store_refines_map key Ok Ok accessor labels_of indexers fields "_v1_Pod" None (Some node_state) ops ∅) as Hr.
  destruct (foldl run_both (new_store ∅, ∅) ops) as [s abs].
  destruct Hr as (Hget & Hlist & Hkeys & Hrows); [intros obj ser Hs; by injection Hs as ->|].
  split_and!; [done..|]. apply Hrows. apply (bool_decide_unpack _). vm_compute. exact I.
Defined.
(** The update of an object the store does not have failed; the state of the last pod is the one of its node. *)
Example ops_result :
  let s := (foldl run_both (new_store ∅, ∅) ops).1 in
  t_fields (st_tables s) = {["a" := ["a"; "active"; "2"]; "d" := ["d"; "down"; "5"]]}.
Proof. by vm_compute. Qed.

Lemma start_wf : store_wf (st_tables start).
Proof.
  split_and!; [by apply (bool_decide_unpack _); vm_compute| |].
  - intros k l Hk. apply elem_of_dom in Hk. revert k l Hk.
    assert (Hall : set_Forall (λ p : string * string, p.1 ∈ dom (t_objects (st_tables start)))
      (dom (t_labels (st_tables start)))) by (by apply (bool_decide_unpack _); vm_compute).
    intros k l Hk. apply (Hall _ Hk).
  - assert (Hall : set_Forall (λ p : string * string * string, p.2 ∈ dom (t_objects (st_tables start)))
      (dom (t_indices (st_tables start)))) by (by apply (bool_decide_unpack _); vm_compute).
    intros n v k Hk%elem_of_dom. apply (Hall _ Hk).
Qed.

Lemma store_rows_have_objects_witness :
  store_wf (st_tables start) ∧
  store_wf (st_tables (run (OpUpdate b3) start).1) ∧
  (∀ e, (run (OpUpdate b3) start).2 = Some e → st_tables (run (OpUpdate b3) start).1 = st_tables start).
Proof.
  split; [exact start_wf|].
  exact (store_rows_have_objects key Ok Ok accessor labels_of indexers fields "_v1_Pod" None (Some node_state) (OpUpdate b3) start start_wf).
Defined.

Lemma missing_object_fails_witness :
  (∃ e, run (OpUpdate b3) start = (start, Some e) ∧
     (e = ErrEvent (ErrOldObject "b") ∨ (∃ text, e = ErrIndexer text) ∨ ∃ err, e = ErrField err)) ∧
  run (OpDelete b3) start = (start, Some (ErrEvent (ErrOldObject "b"))).
Proof.
  apply (missing_object_fails key Ok Ok accessor labels_of indexers fields "_v1_Pod" None (Some node_state) b3 start "b" b3);
    vm_compute; reflexivity.
Defined.

Abbreviation run_alone := (run_op key Ok Ok accessor labels_of indexers fields "_v1_Pod" None None).
Lemma update_keeps_stale_rows_witness :
  let s' := (run_alone (OpUpdate a2) start).1 in
  t_labels (st_tables s') !! ("a", "tier") = Some "y" ∧
  ∃ row', t_fields (st_tables s') !! "a" = Some row' ∧ row' !! 1 = ["a"; "active"; "1"] !! 1.
Proof.
  assert (Hrun : run_alone (OpUpdate a2) start = ((run_alone (OpUpdate a2) start).1, None))
    by (rewrite <- (surjective_pairing (run_alone (OpUpdate a2) start)) at 1; f_equal; vm_compute; reflexivity).
  assert (Hkey : key a2 = Ok "a") by (vm_compute; reflexivity).
  destruct (update_keeps_stale_rows key Ok Ok accessor labels_of indexers fields "_v1_Pod" None None a2 start _ "a" Hrun Hkey)
    as [Hl Hf]. cbv zeta. split.
  - apply Hl; vm_compute; reflexivity.
  - apply Hf; try (vm_compute; reflexivity); apply (bool_decide_unpack _); vm_compute; exact I.
Defined.
End StoreExample.
