(* ===== verification/Encryption.v ===== *)
(** * Encryption with rotating keys: pkg/sqlcache/encryption/encrypt.go

    The manager keeps all keys it has used: what it encrypted can be decrypted as long as
    it lives, and no key is used too often. *)
From S2P Require Import Prelude GoLib.

(** [aes.NewCipher], [cipher.NewGCM], [Seal] and [Open]; a byte string is a string. *)
Class GCM := {
  NewGCM : string → outcome string unit;
  Seal : string → string → string → string;         (* key, nonce, data *)
  Open : string → string → string → outcome string string;
}.
(** A key of 32 bytes is accepted, and opening what was sealed with the same key and nonce
    gives the data. *)
Class GCMLaws `{GCM} := {
  NewGCM_ok : ∀ key, String.length key = 32 → NewGCM key = Ok tt;
  Open_Seal : ∀ key nonce data, Open key nonce (Seal key nonce data) = Ok data
}.

Inductive crypt_error :=
  | ErrRand (text : string)
  | ErrKeyNotFound
  | ErrCipher (text : string).

(** Constants *)
Definition maxWriteCount : Z := Z.shiftl 1 32.
Definition keySize : nat := 32.
Definition uint32 (n : nat) : Z := Z.of_nat n mod 2 ^ 32.

Record Manager := mkManager { dataKeys : list string; activeKeyCounter : Z }.

(** What [rand.Read] does: it fills the bytes asked for, or fails. *)
Definition random : Type := outcome string string.

Section manager.
Context `{GCM}.

Definition newDataEncryptionKey (rand : random) (m : Manager)
    : outcome crypt_error (string * Z) * Manager :=
  match rand with
  | Ok dek =>
      let keys := dataKeys m ++ [dek] in
      (Ok (dek, uint32 (length keys - 1)), mkManager keys 1)
  | Err e => (Err (ErrRand e), m)
  | Panic => (Panic, m)
  end.

(** [NewManager] drops the error of its first key. *)
Definition NewManager (rand : random) : Manager := (newDataEncryptionKey rand (mkManager [] 0)).2.

Definition activeKey (m : Manager) : outcome crypt_error (string * Z) :=
  let nk := length (dataKeys m) in
  if bool_decide (nk = 0) then Err ErrKeyNotFound
  else let keyID := uint32 (nk - 1) in
       match dataKeys m !! Z.to_nat keyID with Some k => Ok (k, keyID) | None => Panic end.

Definition fetchActiveDataKey (rand : random) (m : Manager)
    : outcome crypt_error (string * Z) * Manager :=
  let m := mkManager (dataKeys m) (wrap64 (activeKeyCounter m + 1)) in
  if bool_decide (maxWriteCount ≤ activeKeyCounter m)%Z then newDataEncryptionKey rand m
  else (activeKey m, m).

Definition createGCMCypher (key : string) : outcome crypt_error unit :=
  match NewGCM key with Ok u => Ok u | Err e => Err (ErrCipher e) | Panic => Panic end.

Definition encrypt (key : string) (rand : random) (data : string)
    : outcome crypt_error (string * string) :=
  match rand with
  | Ok nonce => Ok (Seal key nonce data, nonce)
  | Err e => Err (ErrRand e)
  | Panic => Panic
  end.

(** The encrypted data, the nonce and the key ID. *)
Definition Encrypt (keyRand nonceRand : random) (data : string) (m : Manager)
    : outcome crypt_error (string * string * Z) * Manager :=
  let '(r, m') := fetchActiveDataKey keyRand m in
  (kid ← r;
   createGCMCypher kid.1 ≫= λ _,
   en ← encrypt kid.1 nonceRand data;
   Ok (en, kid.2), m').

Definition key (m : Manager) (keyID : Z) : outcome crypt_error string :=
  if bool_decide (Z.of_nat (length (dataKeys m)) ≤ keyID)%Z then Err ErrKeyNotFound
  else match dataKeys m !! Z.to_nat keyID with Some k => Ok k | None => Panic end.

Definition Decrypt (edata nonce : string) (keyID : Z) (m : Manager) : outcome crypt_error string :=
  dek ← key m keyID;
  createGCMCypher dek ≫= λ _,
  match Open dek nonce edata with
  | Ok data => Ok data
  | Err e => Err (ErrCipher e)
  | Panic => Panic
  end.
End manager.

(** ** Sequences of encryptions *)

(** The random bytes and the data of a call of [Encrypt]. *)
Definition call : Type := random * random * string.

Section runs.
Context `{GCM}.

Definition run_call (m : Manager) (c : call) : Manager :=
  let '(keyRand, nonceRand, data) := c in (Encrypt keyRand nonceRand data m).2.
Definition run (m : Manager) (cs : list call) : Manager := foldl run_call m cs.

(** The keys that [fetchActiveDataKey] hands out, by their place in [dataKeys]. *)
Fixpoint keys_used (m : Manager) (cs : list call) : list Z :=
  match cs with
  | [] => []
  | (keyRand, nonceRand, data) :: cs =>
      let '(r, m') := fetchActiveDataKey keyRand m in
      match r with Ok (_, keyID) => [keyID] | _ => [] end ++ keys_used m' cs
  end.

Lemma run_call_manager m c : run_call m c = (fetchActiveDataKey c.1.1 m).2.
Proof.
  destruct c as [[keyRand nonceRand] data]. cbn [run_call fst]. unfold Encrypt.
  by destruct (fetchActiveDataKey keyRand m).
Qed.

(** A call keeps the keys and may add one. *)
Lemma fetch_keys rand m : ∃ more, dataKeys (fetchActiveDataKey rand m).2 = dataKeys m ++ more.
Proof.
  unfold fetchActiveDataKey, newDataEncryptionKey.
  case_bool_decide; [destruct rand as [dek| |]; [by exists [dek]|..]|];
    exists []; symmetry; apply app_nil_r.
Qed.

Lemma run_keys m cs : ∃ more, dataKeys (run m cs) = dataKeys m ++ more.
Proof.
  revert m. induction cs as [|c cs IH]; intros m; [exists []; by rewrite app_nil_r|].
  cbn [run foldl]. destruct (IH (run_call m c)) as [more Hmore]. rewrite run_call_manager in *.
  destruct (fetch_keys c.1.1 m) as [more' Hk]. exists (more' ++ more).
  fold (run (fetchActiveDataKey c.1.1 m).2 cs). by rewrite Hmore, Hk, app_assoc.
Qed.

(** The key of a successful call is the last of the manager after it. *)
Lemma fetch_last rand m dek keyID m' : fetchActiveDataKey rand m = (Ok (dek, keyID), m') →
  (Z.of_nat (length (dataKeys m')) ≤ 2 ^ 32)%Z →
  dataKeys m' !! Z.to_nat keyID = Some dek ∧ Z.to_nat keyID = length (dataKeys m') - 1 ∧ (0 ≤ keyID)%Z.
Proof.
  unfold fetchActiveDataKey, newDataEncryptionKey, activeKey, uint32. intros Hf Hlen.
  assert (Hpos : ∀ n : nat, (0 ≤ Z.of_nat n mod 2 ^ 32)%Z) by (intros; apply Z.mod_pos_bound; lia).
  case_bool_decide.
  - destruct rand as [k| |]; [|done..]. injection Hf as <- <- <-. cbn [dataKeys] in *.
    rewrite length_app in *. cbn [length] in *.
    assert (Hmod : (Z.of_nat (length (dataKeys m) + 1 - 1) mod 2 ^ 32 = Z.of_nat (length (dataKeys m)))%Z)
      by (rewrite Z.mod_small; lia).
    rewrite Hmod, Nat2Z.id. split_and!; [|lia|lia]. by rewrite lookup_app_r, Nat.sub_diag by lia.
  - cbn [dataKeys] in *. case_bool_decide; [done|].
    destruct (dataKeys m !! _) as [k|] eqn:Hk; [|done]. injection Hf as <- <- <-. cbn [dataKeys] in *.
    split_and!; [done| |done]. rewrite Z.mod_small by lia. lia.
Qed.

Lemma run_length m cs : length (dataKeys m) ≤ length (dataKeys (run m cs)).
Proof. destruct (run_keys m cs) as [more ->]. rewrite length_app. lia. Qed.

(** How often a key was used. *)
Definition uses (keyID : Z) (l : list Z) : Z := Z.of_nat (length (filter (λ i, i = keyID) l)).
Definition newest (m : Manager) : Z := Z.of_nat (length (dataKeys m)) - 1.

Lemma uses_app keyID l l' : uses keyID (l ++ l') = (uses keyID l + uses keyID l')%Z.
Proof. unfold uses. rewrite list.filter_app, length_app. lia. Qed.
Lemma uses_one keyID i : uses keyID [i] = if bool_decide (i = keyID) then 1%Z else 0%Z.
Proof. unfold uses. rewrite list.filter_cons. by case_decide; case_bool_decide. Qed.

(** After [n] calls: a rotation takes as many calls as the counter counts, and the counter
    bounds the uses of the newest key. *)
Record counts_ok (n : Z) (used : list Z) (m : Manager) : Prop := {
  counter_pos : (0 ≤ activeKeyCounter m)%Z;
  rotations : (Z.of_nat (length (dataKeys m)) * (maxWriteCount - 1) + activeKeyCounter m ≤ n + maxWriteCount)%Z;
  uses_newest : (uses (newest m) used ≤ activeKeyCounter m)%Z;
  uses_bound : ∀ i, (uses i used ≤ maxWriteCount - 1)%Z;
  uses_future : ∀ i, (newest m < i)%Z → uses i used = 0%Z
}.

Lemma maxWriteCount_eq : maxWriteCount = (2 ^ 32)%Z.
Proof. reflexivity. Qed.

Lemma counts_keys n used m : (n ≤ 2 ^ 62)%Z → counts_ok n used m →
  (Z.of_nat (length (dataKeys m)) < 2 ^ 31)%Z ∧ (activeKeyCounter m < 2 ^ 63 - 1)%Z.
Proof. intros Hn [? Hr _ _ _]. rewrite maxWriteCount_eq in Hr. nia. Qed.

(** The key that a call uses, if it gets one. *)
Definition key_of (r : outcome crypt_error (string * Z)) : list Z :=
  match r with Ok (_, keyID) => [keyID] | _ => [] end.

Lemma fetch_counts n used m rand : (n ≤ 2 ^ 62)%Z → counts_ok n used m →
  let '(r, m') := fetchActiveDataKey rand m in counts_ok (n + 1) (used ++ key_of r) m'.
Proof.
  intros Hn Hok. destruct (counts_keys _ _ _ Hn Hok) as [Hlen Hc].
  destruct Hok as [Hpos Hrot Hnew Hbound Hfut]. pose proof maxWriteCount_eq as Hmax.
  unfold fetchActiveDataKey. cbn [activeKeyCounter dataKeys].
  rewrite wrap64_small by (unfold in_int64, min_int64, max_int64; lia).
  case_bool_decide as Hge; [unfold newDataEncryptionKey; destruct rand as [dek| |]|unfold activeKey];
    cbn [dataKeys activeKeyCounter key_of]; rewrite ?app_nil_r.
  - unfold uint32. rewrite length_app. cbn [length].
    rewrite Z.mod_small by lia.
    assert (Hnewest : newest (mkManager (dataKeys m ++ [dek]) 1) = Z.of_nat (length (dataKeys m) + 1 - 1)).
    { unfold newest. cbn [dataKeys]. rewrite length_app. cbn [length]. lia. }
    assert (Hzero : uses (Z.of_nat (length (dataKeys m) + 1 - 1)) used = 0%Z)
      by (apply Hfut; unfold newest; lia).
    split; cbn [dataKeys activeKeyCounter]; rewrite ?Hnewest.
    + lia.
    + rewrite length_app. cbn [length]. nia.
    + rewrite uses_app, uses_one, bool_decide_eq_true_2 by done. lia.
    + intros i. rewrite uses_app, uses_one. case_bool_decide as Hi; [subst i|specialize (Hbound i)]; lia.
    + intros i Hi. rewrite uses_app, uses_one, bool_decide_eq_false_2 by lia.
      rewrite Hfut by (unfold newest in *; lia). done.
  - split; cbn [dataKeys activeKeyCounter]; unfold newest in *; cbn [dataKeys] in *; try done; lia.
  - split; cbn [dataKeys activeKeyCounter]; unfold newest in *; cbn [dataKeys] in *; try done; lia.
  - case_bool_decide as Hempty; cbn [dataKeys] in *.
    + split; cbn [dataKeys activeKeyCounter key_of]; rewrite ?app_nil_r; unfold newest in *;
        cbn [dataKeys] in *; try done; lia.
    + unfold uint32. rewrite Z.mod_small by lia.
      replace (Z.of_nat (length (dataKeys m) - 1)) with (newest m) by (unfold newest; lia).
      destruct (lookup_lt_is_Some_2 (dataKeys m) (Z.to_nat (newest m))) as [k Hk]; [unfold newest; lia|].
      rewrite Hk. cbn [key_of]. change (newest (mkManager _ _)) with (newest m).
      split; cbn [dataKeys activeKeyCounter]; change (newest (mkManager ?d _)) with (newest m).
      * lia.
      * lia.
      * rewrite uses_app, uses_one, bool_decide_eq_true_2 by done. lia.
      * intros i. rewrite uses_app, uses_one. case_bool_decide as Hi; [subst i|specialize (Hbound i)]; lia.
      * intros i Hi. change (newest (mkManager (dataKeys m) (activeKeyCounter m + 1))) with (newest m) in Hi.
        rewrite uses_app, uses_one, bool_decide_eq_false_2 by lia. rewrite Hfut by lia. done.
Qed.

Lemma run_counts m cs n used : (n + Z.of_nat (length cs) ≤ 2 ^ 62)%Z → counts_ok n used m →
  counts_ok (n + Z.of_nat (length cs)) (used ++ keys_used m cs) (run m cs).
Proof.
  revert m n used. induction cs as [|[[keyRand nonceRand] data] cs IH]; intros m n used Hn Hok.
  - cbn. by rewrite Z.add_0_r, app_nil_r.
  - cbn [run foldl keys_used length] in *. rewrite run_call_manager. cbn [fst].
    pose proof (fetch_counts n used m keyRand ltac:(lia) Hok) as Hf.
    destruct (fetchActiveDataKey keyRand m) as [r m']. cbn [snd].
    fold (run m' cs). rewrite app_assoc, Nat2Z.inj_succ, Z.add_succ_r, <- Z.add_succ_l.
    apply IH; [lia|exact Hf].
Qed.

Lemma NewManager_counts rand : counts_ok 0 [] (NewManager rand).
Proof.
  pose proof maxWriteCount_eq as Hmax.
  destruct rand as [dek| |]; split; cbn [NewManager newDataEncryptionKey snd dataKeys activeKeyCounter length app];
    try done; cbn; lia.
Qed.

Lemma manager_keys rand cs : (Z.of_nat (length cs) ≤ 2 ^ 62)%Z →
  (Z.of_nat (length (dataKeys (run (NewManager rand) cs))) < 2 ^ 31)%Z.
Proof.
  intros Hcs. pose proof (run_counts (NewManager rand) cs 0 [] ltac:(lia) (NewManager_counts rand)) as Hok.
  by apply counts_keys in Hok as [? _].
Qed.
End runs.

(** * Theorems *)

(** A working source of random bytes. *)
Definition key_random (rand : random) : Prop := ∃ k, rand = Ok k ∧ String.length k = keySize.
Definition random_ok (c : call) : Prop := key_random c.1.1 ∧ ∃ nonce, c.1.2 = Ok nonce.

Section theorems.
Context `{GCMLaws}.

(** The keys of a manager whose random bytes do not fail. *)
Definition keys_ok (m : Manager) : Prop :=
  dataKeys m ≠ [] ∧ Forall (λ k, String.length k = keySize) (dataKeys m).

Lemma fetch_keys_ok rand m : key_random rand → keys_ok m →
  keys_ok (fetchActiveDataKey rand m).2 ∧
  ∃ dek id, (fetchActiveDataKey rand m).1 = Ok (dek, id) ∧ String.length dek = keySize.
Proof.
  intros (k & -> & Hk) [Hne Hall]. unfold fetchActiveDataKey, newDataEncryptionKey. case_bool_decide; cbn.
  - split; [|by eauto]. split; cbn; [by destruct (dataKeys m)|].
    apply Forall_app; split; [done|by repeat constructor].
  - split; [done|]. unfold activeKey. cbn [dataKeys].
    destruct (dataKeys m) as [|k0 keys] eqn:Hkeys; [done|]. rewrite bool_decide_eq_false_2 by done.
    set (id := uint32 _). destruct (lookup_lt_is_Some_2 (k0 :: keys) (Z.to_nat id)) as [dek Hdek].
    { unfold id, uint32. cbn [length]. pose proof (Z.mod_le (Z.of_nat (S (length keys) - 1)) (2 ^ 32)).
      pose proof (Z.mod_pos_bound (Z.of_nat (S (length keys) - 1)) (2 ^ 32)). lia. }
    rewrite Hdek. exists dek, id. split; [done|]. by eapply (Forall_lookup_1 _ _ _ _ Hall).
Qed.

Lemma run_keys_ok m cs : Forall random_ok cs → keys_ok m → keys_ok (run m cs).
Proof.
  intros Hcs. revert m. induction Hcs as [|c cs [Hc _] _ IH]; intros m Hm; [done|].
  cbn [run foldl]. apply IH. rewrite run_call_manager. by apply fetch_keys_ok.
Qed.

(** What is encrypted can be decrypted, with the keys the manager then has and with more. *)
Lemma Encrypt_Decrypt keyRand nonceRand data m m' edata nonce id :
  (Z.of_nat (length (dataKeys m')) ≤ 2 ^ 32)%Z →
  Encrypt keyRand nonceRand data m = (Ok (edata, nonce, id), m') →
  Decrypt edata nonce id m' = Ok data ∧ nonceRand = Ok nonce.
Proof.
  intros Hlen. unfold Encrypt. destruct (fetchActiveDataKey keyRand m) as [r m1] eqn:Hf.
  intros [= Hr ->]. destruct r as [[dek id']| |]; [|done..]. cbn in Hr.
  unfold createGCMCypher in Hr. destruct (NewGCM dek) as [u| |] eqn:Hgcm; [|done..]. cbn in Hr.
  destruct nonceRand as [nonce'| |]; [|done..]. injection Hr as <- <- <-. split; [|done].
  destruct (fetch_last _ _ _ _ _ Hf Hlen) as (Hdek & Hid & Hpos).
  assert (Hlt : Z.to_nat id' < length (dataKeys m')) by (by eapply lookup_lt_Some).
  unfold Decrypt, key. rewrite bool_decide_eq_false_2 by lia. rewrite Hdek. cbn.
  unfold createGCMCypher. rewrite Hgcm. cbn. by rewrite Open_Seal.
Qed.
Lemma Decrypt_more_keys edata nonce id m m' data more :
  dataKeys m' = dataKeys m ++ more →
  Decrypt edata nonce id m = Ok data → Decrypt edata nonce id m' = Ok data.
Proof.
  intros Hmore. unfold Decrypt, key. rewrite Hmore, length_app. case_bool_decide; [done|].
  rewrite bool_decide_eq_false_2 by lia. destruct (dataKeys m !! Z.to_nat id) as [dek|] eqn:Hdek; [|done].
  by rewrite (lookup_app_l_Some _ _ _ _ Hdek).
Qed.

(** While the random bytes do not fail every encryption succeeds, and whatever is
    encrypted is given back by every later decryption with the nonce and key ID that came
    with it, however often the key was rotated in between and whichever calls failed. *)
Theorem encrypted_data_readable first before c after :
  (Z.of_nat (length (before ++ c :: after)) ≤ 2 ^ 62)%Z →
  let m := run (NewManager first) before in
  let '(keyRand, nonceRand, data) := c in
  let '(r, m') := Encrypt keyRand nonceRand data m in
  (key_random first → Forall random_ok (before ++ [c]) → ∃ edata nonce id, r = Ok (edata, nonce, id)) ∧
  ∀ edata nonce id, r = Ok (edata, nonce, id) → Decrypt edata nonce id (run m' after) = Ok data.
Proof.
  intros Hlen m. destruct c as [[keyRand nonceRand] data]. subst m.
  rewrite length_app in Hlen. cbn [length] in Hlen.
  pose proof (run_call_manager (run (NewManager first) before) (keyRand, nonceRand, data)) as Hcall.
  pose proof (manager_keys first (before ++ [(keyRand, nonceRand, data)])
    ltac:(rewrite length_app; cbn [length]; lia)) as Hkeys.
  unfold run in Hkeys at 1. rewrite foldl_app in Hkeys. cbn [foldl] in Hkeys. fold run in Hkeys.
  fold (run (NewManager first) before) in Hkeys. cbn [run_call fst] in Hcall. unfold run_call in Hkeys.
  unfold Encrypt in *. destruct (fetchActiveDataKey keyRand _) as [r m'] eqn:Hf. cbn [snd] in *. split.
  - intros (k & -> & Hk) Hok%Forall_app. destruct Hok as [Hb Hc%Forall_inv].
    destruct Hc as [Hkr [nonce Hnr]]. cbn in Hkr, Hnr. subst nonceRand.
    destruct (fetch_keys_ok keyRand (run (NewManager (Ok k)) before) Hkr) as (_ & dek & id & Hr & Hdek).
    { apply run_keys_ok; [done|]. split; [done|]. by repeat constructor. }
    rewrite Hf in Hr. cbn [fst] in Hr. subst r. cbn. unfold createGCMCypher.
    rewrite NewGCM_ok by done. cbn. by eauto.
  - intros edata nonce id Hr. destruct (run_keys m' after) as [more Hmore].
    apply (Decrypt_more_keys _ _ _ m' _ _ more); [done|].
    apply (Encrypt_Decrypt keyRand nonceRand data (run (NewManager first) before)); [lia|].
    unfold Encrypt. by rewrite Hf, Hr.
Qed.
End theorems.

(** No key encrypts more often than [maxWriteCount - 1] times, which is less than the
    2^32 uses after which a key counts as worn out, in a manager that is asked to encrypt up
    to 2^62 times, also when the random bytes for a new key fail; it then has less than 2^31 keys, so key IDs
    are not reused. *)
Theorem key_uses_bounded `{GCM} first cs keyID :
  (Z.of_nat (length cs) ≤ 2 ^ 62)%Z →
  (uses keyID (keys_used (NewManager first) cs) ≤ maxWriteCount - 1)%Z ∧
  (Z.of_nat (length (dataKeys (run (NewManager first) cs))) < 2 ^ 31)%Z.
Proof.
  intros Hcs. split; [|by apply manager_keys].
  pose proof (run_counts (NewManager first) cs 0 [] ltac:(lia) (NewManager_counts first)) as Hok.
  apply (uses_bound _ _ _ Hok).
Qed.

(** * A cipher *)
Module EncryptionExample.
Fixpoint drop_prefix (p s : string) : outcome string string :=
  match p, s with
  | "", _ => Ok s
  | String a p, String b s => if Ascii.eqb a b then drop_prefix p s else Err "cipher: message authentication failed"
  | _, "" => Err "cipher: message authentication failed"
  end.
Lemma drop_prefix_app p s : drop_prefix p (p +:+ s) = Ok s.
Proof. induction p as [|a p IH]; cbn; [done|]. by rewrite Ascii.eqb_refl. Qed.

#[export] Instance toy_gcm : GCM := {|
  NewGCM := λ key, if bool_decide (String.length key = 32) then Ok tt else Err "invalid key size";
  Seal := λ key nonce data, (key +:+ nonce) +:+ data;
  Open := λ key nonce edata, drop_prefix (key +:+ nonce) edata
|}.
#[export] Instance toy_gcm_laws : GCMLaws.
Proof.
  split; [|by intros; apply drop_prefix_app]. intros k Hk. cbn. by rewrite bool_decide_eq_true_2.
Qed.

Definition key1 : string := "0123456789abcdef0123456789abcdef".
Definition call1 (data : string) : call := (Ok key1, Ok "nonce", data).
Definition failing : call := (Err "entropy", Err "entropy", "lost").

Lemma encrypted_data_readable_witness :
  let m := run (NewManager (Ok key1)) [call1 "a"] in
  let '(r, m') := Encrypt (Ok key1) (Ok "nonce") "secret" m in
  (∃ edata nonce id, r = Ok (edata, nonce, id)) ∧
  ∀ edata nonce id, r = Ok (edata, nonce, id) →
    Decrypt edata nonce id (run m' [failing; call1 "b"]) = Ok "secret".
Proof.
  pose proof (encrypted_data_readable (Ok key1) [call1 "a"] (call1 "secret") [failing; call1 "b"]
    ltac:(vm_compute; discriminate)) as [Hok Hread].
  split; [|exact Hread]. apply Hok.
  - exists key1. split; [done|reflexivity].
  - repeat constructor; try (exists key1; split; [done|reflexivity]); by exists "nonce".
Defined.

Lemma key_uses_bounded_witness :
  (uses 0 (keys_used (NewManager (Ok key1)) [call1 "a"; failing; call1 "b"]) ≤ maxWriteCount - 1)%Z ∧
  (Z.of_nat (length (dataKeys (run (NewManager (Ok key1)) [call1 "a"; failing; call1 "b"]))) < 2 ^ 31)%Z.
Proof.
  apply (key_uses_bounded (Ok key1) [call1 "a"; failing; call1 "b"] 0). vm_compute. discriminate.
Defined.
End EncryptionExample.
