(* ===== verification/Schemas.v ===== *)
(** * The schemas of a user: pkg/schema/factory.go, pkg/schema/collection.go

    A collection holds the schemas of all resources of the cluster. What a user may do is
    cut out of them with the user's access set ([schemasForSubject]); the result is cached
    by the ID of the access set ([Schemas]). Requests for a resource are then authorised
    with the schemas of the user (pkg/accesscontrol/access_control.go). The attributes of a
    schema (pkg/attributes/attributes.go) are fields here. *)
From S2P Require Import Prelude GoLib AccessControl.

(** ** Schemas *)
Record GVR := mkGVR { gvr_Group : string; gvr_Version : string; gvr_Resource : string }.
#[export] Instance GVR_eq_dec : EqDecision GVR.
Proof. solve_decision. Defined.
#[export] Instance GVR_countable : Countable GVR.
Proof.
  refine (inj_countable' (λ g, (gvr_Group g, gvr_Version g, gvr_Resource g))
                         (λ '(g, v, r), mkGVR g v r) _). by intros [].
Defined.

Record APISchema := mkSchema {
  S_ID : string;
  S_Group : string; S_Version : string; S_Resource : string; S_Kind : string;
  S_Namespaced : bool;
  S_Verbs : list string;
  S_Disallow : gmap string bool;
  S_Access : option AccessListByVerb;
  ResourceMethods : list string;
  CollectionMethods : list string
}.

Definition GR (s : APISchema) : GroupResource := mkGR (S_Group s) (S_Resource s).
Definition schema_GVR (s : APISchema) : GVR := mkGVR (S_Group s) (S_Version s) (S_Resource s).
Definition schema_GVK (s : APISchema) : GVR := mkGVR (S_Group s) (S_Version s) (S_Kind s).
Definition SetAccess (s : APISchema) (a : AccessListByVerb) : APISchema :=
  mkSchema (S_ID s) (S_Group s) (S_Version s) (S_Resource s) (S_Kind s) (S_Namespaced s) (S_Verbs s)
    (S_Disallow s) (Some a) (ResourceMethods s) (CollectionMethods s).
Definition with_methods (s : APISchema) (resource collection : list string) : APISchema :=
  mkSchema (S_ID s) (S_Group s) (S_Version s) (S_Resource s) (S_Kind s) (S_Namespaced s) (S_Verbs s)
    (S_Disallow s) (S_Access s) resource collection.

(** net/http *)
Definition MethodGet : string := "GET".
Definition MethodPut : string := "PUT".
Definition MethodPost : string := "POST".
Definition MethodPatch : string := "PATCH".
Definition MethodDelete : string := "DELETE".

(** [types.APISchemas] of github.com/rancher/apiserver. *)
Class APISchemas := {
  apischemas : Type;
  newSchemas : outcome string apischemas;            (* with the built-in schemas *)
  AddSchema : APISchema → apischemas → outcome string apischemas;
  AddSchemas : apischemas → apischemas → outcome string apischemas;
  SetAccessSetAttribute : AccessSet → apischemas → apischemas;
  AccessSetAttribute : apischemas → option AccessSet;
  SchemaByID : apischemas → string → option APISchema
}.
Class APISchemasLaws `{APISchemas} := {
  SchemaByID_AddSchema : ∀ s r r' id, AddSchema s r = Ok r' →
    SchemaByID r' id = if decide (id = S_ID s) then Some s else SchemaByID r id;
  SchemaByID_SetAccess : ∀ a r id, SchemaByID (SetAccessSetAttribute a r) id = SchemaByID r id;
  AccessSetAttribute_Set : ∀ a r, AccessSetAttribute (SetAccessSetAttribute a r) = Some a
}.

Section factory.
Context `{MapRange, APISchemas}.

(** The accesses to a resource by verb; accesses in one namespace do not count for a
    resource of the cluster. *)
Definition verb_access (access : AccessSet) (s : APISchema) (verb : string) : AccessList :=
  let a := AccessListFor access verb (GR s) in
  if S_Namespaced s then a
  else List.filter (λ acc, bool_decide (Namespace acc = All)) a.
Definition verbAccess (access : AccessSet) (s : APISchema) : AccessListByVerb :=
  foldl (λ m verb, let a := verb_access access s verb in
           if bool_decide (0 < length a) then <[verb := a]> m else m) ∅ (S_Verbs s).

(** The namespaces a user may see make up for missing access to namespaces. *)
Definition namespace_accesses (access : AccessSet) : AccessList :=
  (λ ns, mkAccess All ns) <$> Namespaces access.
Definition is_namespaces (s : APISchema) : bool :=
  bool_decide (S_Group s = "") && bool_decide (S_Resource s = "namespaces").

(** The access by verb, and the schema of the collection as it is after. *)
Definition subject_access (access : AccessSet) (s : APISchema) : AccessListByVerb * APISchema :=
  let m := verbAccess access s in
  if bool_decide (m = ∅) && is_namespaces s then
    let accessList := namespace_accesses access in
    (<["watch" := accessList]> (<["get" := accessList]> m),
     if bool_decide (length accessList = 0)
     then with_methods s (ResourceMethods s) (CollectionMethods s ++ [MethodGet]) else s)
  else (m, s).

Definition allowed (s : APISchema) (method : string) : string :=
  if default false (S_Disallow s !! method) then "blocked-" +:+ method else method.

(** The methods that the access by verb adds. *)
Definition resource_methods (s : APISchema) (m : AccessListByVerb) : list string :=
  (if AnyVerb m ["list"; "get"] then [allowed s MethodGet] else []) ++
  (if AnyVerb m ["delete"] then [allowed s MethodDelete] else []) ++
  (if AnyVerb m ["update"] then [allowed s MethodPut; allowed s MethodPatch] else []) ++
  (if AnyVerb m ["patch"] then [allowed s MethodPatch] else []).
Definition collection_methods (s : APISchema) (m : AccessListByVerb) : list string :=
  (if AnyVerb m ["list"; "get"] then [allowed s MethodGet] else []) ++
  (if AnyVerb m ["create"] then [allowed s MethodPost] else []).

(** A turn of the loop: the schema to add, if there is one, and the schema of the
    collection as it is after. *)
Definition subject_schema (access : AccessSet) (s : APISchema) : option APISchema * APISchema :=
  if bool_decide (S_Resource s = "") then (Some s, s)
  else
    let '(m, shared) := subject_access access s in
    let copy := SetAccess shared m in
    let copy := with_methods copy (ResourceMethods copy ++ resource_methods s m)
                                  (CollectionMethods copy ++ collection_methods s m) in
    (if bool_decide (length (CollectionMethods copy) = 0) && bool_decide (length (ResourceMethods copy) = 0)
     then None else Some copy, shared).

Fixpoint subject_loop (access : AccessSet) (l : list (string * APISchema)) (result : apischemas)
    (schemas : gmap string APISchema) : outcome string apischemas * gmap string APISchema :=
  match l with
  | [] => (Ok result, schemas)
  | (id, s) :: l =>
      let '(o, shared) := subject_schema access s in
      let schemas := <[id := shared]> schemas in
      match o with
      | None => subject_loop access l result schemas
      | Some s' =>
          match AddSchema s' result with
          | Ok result => subject_loop access l result schemas
          | r => (r, schemas)
          end
      end
  end.

(** The schemas of a subject and the schemas of the collection after the call. *)
Definition schemasForSubject (baseSchema : apischemas) (access : AccessSet) (schemas : gmap string APISchema)
    : outcome string apischemas * gmap string APISchema :=
  match newSchemas ≫= AddSchemas baseSchema with
  | Ok result =>
      let '(r, schemas) := subject_loop access (range_map schemas) result schemas in
      (SetAccessSetAttribute access <$> r, schemas)
  | r => (r, schemas)
  end.
End factory.

(** ** The collection *)

(** [cache.LRUExpireCache] of k8s: entries may disappear at any time but are never
    invented. *)
Class LRUCache := {
  lru : Type → Type;
  lru_Get : ∀ {V}, string → lru V → option V * lru V;
  lru_Add : ∀ {V}, string → V → lru V → lru V;
  lru_Remove : ∀ {V}, string → lru V → lru V;
  lru_Keys : ∀ {V}, lru V → list string
}.
Class LRUCacheLaws `{LRUCache} := {
  lru_contents : ∀ {V}, lru V → gmap string V;
  lru_Get_found : ∀ {V} k (c : lru V) v, (lru_Get k c).1 = Some v → lru_contents c !! k = Some v;
  lru_Get_contents : ∀ {V} k (c : lru V), lru_contents (lru_Get k c).2 ⊆ lru_contents c;
  lru_Add_contents : ∀ {V} k v (c : lru V), lru_contents (lru_Add k v c) ⊆ <[k := v]> (lru_contents c);
  lru_Remove_contents : ∀ {V} k (c : lru V), lru_contents (lru_Remove k c) ⊆ delete k (lru_contents c);
  lru_Keys_contents : ∀ {V} (c : lru V) k, is_Some (lru_contents c !! k) → k ∈ lru_Keys c
}.

(** The interface [AccessSetLookup]. *)
Class AccessSetLookup := {
  as_state : Type;
  as_AccessFor : UserInfo → as_state → AccessSet * as_state;
  as_PurgeUserData : string → as_state → outcome string as_state
}.

Record Collection `{APISchemas, LRUCache, AccessSetLookup} := mkCollection {
  c_baseSchema : apischemas;
  c_schemas : gmap string APISchema;
  c_byGVR : gmap GVR string;
  c_byGVK : gmap GVR string;
  c_cache : lru apischemas;
  c_userCache : lru string;
  c_as : as_state
}.

Section collection.
Context `{MapRange, APISchemas, LRUCache, AccessSetLookup}.

Definition with_caches (cache : lru apischemas) (userCache : lru string) (a : as_state) (c : Collection)
    : Collection :=
  mkCollection _ _ _ (c_baseSchema c) (c_schemas c) (c_byGVR c) (c_byGVK c) cache userCache a.
Definition with_schemas (schemas : gmap string APISchema) (c : Collection) : Collection :=
  mkCollection _ _ _ (c_baseSchema c) schemas (c_byGVR c) (c_byGVK c) (c_cache c) (c_userCache c) (c_as c).

Definition purgeUserRecords (id : string) (c : Collection) : outcome string Collection :=
  a ← as_PurgeUserData id (c_as c);
  Ok (with_caches (lru_Remove id (c_cache c)) (c_userCache c) a c).

Definition removeOldRecords (access : AccessSet) (user : UserInfo) (c : Collection)
    : outcome string Collection :=
  let '(current, userCache) := lru_Get (GetName user) (c_userCache c) in
  let c := with_caches (c_cache c) userCache (c_as c) c in
  match current with
  | Some currentID =>
      if bool_decide (currentID ≠ ID access)
      then c ← purgeUserRecords currentID c;
           Ok (with_caches (c_cache c) (lru_Remove (GetName user) (c_userCache c)) (c_as c) c)
      else Ok c
  | None => Ok c
  end.

Definition addToCache (access : AccessSet) (user : UserInfo) (schemas : apischemas) (c : Collection)
    : Collection :=
  with_caches (lru_Add (ID access) schemas (c_cache c)) (lru_Add (GetName user) (ID access) (c_userCache c))
    (c_as c) c.

(** [Schemas] up to the point where the schemas are known, with a cached result or a new
    one that is to be added to the cache; other requests may run before it is. *)
Inductive lookup := Cached (r : apischemas) | Computed (access : AccessSet) (r : apischemas).
Definition lookup_Schemas (user : UserInfo) (c : Collection) : outcome string lookup * Collection :=
  let '(access, a) := as_AccessFor user (c_as c) in
  let c := with_caches (c_cache c) (c_userCache c) a c in
  match removeOldRecords access user c with
  | Ok c =>
      let '(val, cache) := lru_Get (ID access) (c_cache c) in
      let c := with_caches cache (c_userCache c) (c_as c) c in
      match val with
      | Some schemas => (Ok (Cached schemas), c)
      | None =>
          let '(r, schemas) := schemasForSubject (c_baseSchema c) access (c_schemas c) in
          (Computed access <$> r, with_schemas schemas c)
      end
  | Err e => (Err e, c)
  | Panic => (Panic, c)
  end.
Definition finish_Schemas (user : UserInfo) (l : lookup) (c : Collection) : apischemas * Collection :=
  match l with
  | Cached r => (r, c)
  | Computed access r => (r, addToCache access user r c)
  end.
Definition Schemas (user : UserInfo) (c : Collection) : outcome string apischemas * Collection :=
  match lookup_Schemas user c with
  | (Ok l, c) => let '(r, c) := finish_Schemas user l c in (Ok r, c)
  | (Err e, c) => (Err e, c)
  | (Panic, c) => (Panic, c)
  end.

(** [Reset], without the templates and the notifiers. *)
Definition index_by (key : APISchema → GVR) (l : list (string * APISchema)) : gmap GVR string :=
  foldl (λ m '(_, s), if bool_decide (gvr_Resource (key s) ≠ "") then <[key s := S_ID s]> m else m) ∅ l.
Definition Reset (schemas : gmap string APISchema) (c : Collection) : Collection :=
  mkCollection _ _ _ (c_baseSchema c) schemas
    (index_by schema_GVR (range_map schemas)) (index_by schema_GVK (range_map schemas))
    (foldl (λ cache k, lru_Remove k cache) (c_cache c) (lru_Keys (c_cache c)))
    (c_userCache c) (c_as c).

Definition Schema (id : string) (c : Collection) : option APISchema := c_schemas c !! id.

(** The IDs of the index by resource, each once. *)
Definition IDs (c : Collection) : list string :=
  (foldl (λ '(seen, result) '(_, id),
     if bool_decide (id ∈ (seen : gset string)) then (seen, result) else ({[id]} ∪ seen, result ++ [id]))
   (∅, []) (range_map (c_byGVR c))).2.

(** [name.GuessPluralName(strings.ToLower(r))] is a parameter. *)
Definition ByGVR (GuessPluralName : string → string) (gvr : GVR) (c : Collection) : string :=
  match c_byGVR c !! gvr with
  | Some id => id
  | None => default "" (c_byGVK c !!
      mkGVR (gvr_Group gvr) (gvr_Version gvr) (GuessPluralName (gvr_Resource gvr)))
  end.
Definition ByGVK (gvk : GVR) (c : Collection) : string := default "" (c_byGVK c !! gvk).
End collection.

(** ** Authorisation with the schemas of a user: [AccessControl] *)
Section access_control.
Context `{MapRange, APISchemas}.
(* [LookupSchema] by ID or plural name, [kv.Split], and the embedded SchemaBasedAccess *)
Context (LookupSchema : apischemas → string → option APISchema) (kv_Split : string → string * string).
Context (SchemaBased_CanDo : apischemas → string → string → string → string → bool)
        (SchemaBased_CanWatch : apischemas → APISchema → bool).

Definition GetAccessListMap (s : APISchema) : AccessListByVerb := default ∅ (S_Access s).

Definition CanDo (schemas : apischemas) (resource verb namespace name : string) : bool :=
  match LookupSchema schemas resource with
  | Some apiSchema =>
      bool_decide (S_Kind apiSchema ≠ "") &&
      AccessList_Grants (access_by_verb (GetAccessListMap apiSchema) verb) namespace name
  | None => false
  end ||
  (let '(group, resource) := kv_Split resource in
   match AccessSetAttribute schemas with
   | Some accessSet => AccessSet_Grants accessSet verb (mkGR group resource) namespace name
   | None => false
   end) ||
  (let '(_, resource) := kv_Split resource in SchemaBased_CanDo schemas resource verb namespace name).

Definition CanWatch (schemas : apischemas) (s : APISchema) : bool :=
  bool_decide (S_Kind s ≠ "") && bool_decide (is_Some (GetAccessListMap s !! "watch")) ||
  SchemaBased_CanWatch schemas s.
End access_control.

(** * Lemmas *)
Section factory_lemmas.
Context `{MapRange, APISchemas}.
Implicit Types (s : APISchema) (access : AccessSet).

(** The access to a resource for one of its verbs. *)
Definition may (access : AccessSet) (s : APISchema) (v : string) : Prop :=
  v ∈ S_Verbs s ∧ verb_access access s v ≠ [].

Lemma elem_of_verb_access access s v acc :
  acc ∈ verb_access access s v ↔
  (∃ k, key_applies k v (GR s) ∧ holds access k acc) ∧ (S_Namespaced s = true ∨ Namespace acc = All).
Proof.
  unfold verb_access. rewrite <- elem_of_AccessListFor. destruct (S_Namespaced s); [tauto|].
  rewrite list_elem_of_In, filter_In, <- list_elem_of_In, bool_decide_eq_true. intuition congruence.
Qed.

Lemma length_pos {A} (l : list A) : 0 < length l ↔ l ≠ [].
Proof. destruct l; cbn; [|split; [done|lia]]. split; [lia|done]. Qed.

Lemma lookup_verbAccess access s v :
  verbAccess access s !! v =
  if decide (v ∈ S_Verbs s ∧ verb_access access s v ≠ []) then Some (verb_access access s v) else None.
Proof.
  unfold verbAccess.
  assert (Hl : ∀ l (m : AccessListByVerb), foldl (λ m verb, let a := verb_access access s verb in
      if bool_decide (0 < length a) then <[verb := a]> m else m) m l !! v =
    if decide (v ∈ l ∧ verb_access access s v ≠ []) then Some (verb_access access s v) else m !! v).
  { induction l as [|v' l IH]; intros m; cbn [foldl].
    - rewrite decide_False by (rewrite elem_of_nil; tauto). done.
    - rewrite IH. destruct (decide (v ∈ l ∧ _)) as [Hin|Hin].
      + rewrite decide_True; [done|]. rewrite elem_of_cons. tauto.
      + case_bool_decide as Hlen; rewrite length_pos in Hlen.
        * destruct (decide (v' = v)) as [->|Hne].
          -- rewrite lookup_insert_eq, decide_True; [done|]. rewrite elem_of_cons. tauto.
          -- rewrite lookup_insert_ne by done. rewrite decide_False; [done|].
             rewrite elem_of_cons. intuition congruence.
        * rewrite decide_False; [done|]. rewrite elem_of_cons. intros [[->|?] ?]; tauto. }
  by rewrite Hl, lookup_empty.
Qed.

Lemma access_by_verb_verbAccess access s v acc :
  acc ∈ access_by_verb (verbAccess access s) v ↔ v ∈ S_Verbs s ∧ acc ∈ verb_access access s v.
Proof.
  unfold access_by_verb. rewrite lookup_verbAccess. case_decide as Hd; cbn; [tauto|].
  rewrite elem_of_nil. split; [done|]. intros [Hv Hacc]. destruct Hd. split; [done|].
  intros Hnil. rewrite Hnil in Hacc. by apply elem_of_nil in Hacc.
Qed.

Lemma not_nil_elem {A} (l : list A) : l ≠ [] ↔ ∃ x, x ∈ l.
Proof.
  split; [destruct l as [|x l]; [done|exists x; by left]|].
  intros [x Hx] ->. by apply elem_of_nil in Hx.
Qed.

Lemma AnyVerb_true (m : AccessListByVerb) vs : AnyVerb m vs = true ↔ ∃ v, v ∈ vs ∧ access_by_verb m v ≠ [].
Proof.
  unfold AnyVerb. rewrite existsb_true. setoid_rewrite bool_decide_eq_true. by setoid_rewrite length_pos.
Qed.

Lemma may_access_by_verb access s v : access_by_verb (verbAccess access s) v ≠ [] ↔ may access s v.
Proof.
  unfold may. rewrite !not_nil_elem. setoid_rewrite access_by_verb_verbAccess. naive_solver.
Qed.

Lemma verbAccess_empty access s : verbAccess access s = ∅ ↔ ∀ v, ¬ may access s v.
Proof.
  unfold may. split.
  - intros He v Hv. pose proof (lookup_verbAccess access s v) as Hl.
    rewrite He, lookup_empty, decide_True in Hl by done. done.
  - intros Hno. apply map_empty. intros v. rewrite lookup_verbAccess, decide_False; [done|]. apply Hno.
Qed.

(** A user without access to namespaces who may see something in some. *)
Definition sees_namespaces (access : AccessSet) (s : APISchema) : Prop :=
  is_namespaces s = true ∧ (∀ v, ¬ may access s v) ∧ Namespaces access ≠ [].
(** A user without any namespace: the list is always offered. *)
Definition always_list (access : AccessSet) (s : APISchema) : Prop :=
  is_namespaces s = true ∧ (∀ v, ¬ may access s v) ∧ Namespaces access = [].

(** What is offered for a resource and for its collection. *)
Definition offers_resource (access : AccessSet) (s : APISchema) (method : string) : Prop :=
  (method = MethodGet ∧ (may access s "list" ∨ may access s "get" ∨ sees_namespaces access s)) ∨
  (method = MethodDelete ∧ may access s "delete") ∨
  (method = MethodPut ∧ may access s "update") ∨
  (method = MethodPatch ∧ (may access s "update" ∨ may access s "patch")).
Definition offers_collection (access : AccessSet) (s : APISchema) (method : string) : Prop :=
  (method = MethodGet ∧ (may access s "list" ∨ may access s "get" ∨ sees_namespaces access s)) ∨
  (method = MethodPost ∧ may access s "create").

Lemma elem_of_if {A} (b : bool) (x : A) l : x ∈ (if b then l else []) ↔ b = true ∧ x ∈ l.
Proof. destruct b; rewrite ?elem_of_nil; intuition congruence. Qed.

Lemma default_accesses_any access v :
  access_by_verb (<["watch" := namespace_accesses access]> (<["get" := namespace_accesses access]> (∅ : AccessListByVerb))) v ≠ [] ↔
  (v = "watch" ∨ v = "get") ∧ Namespaces access ≠ [].
Proof.
  unfold access_by_verb, namespace_accesses. destruct (decide (v = "watch")) as [->|Hw].
  - rewrite lookup_insert_eq. cbn. split; [intros Hn; split; [by left|]|].
    + by intros He; rewrite He in Hn.
    + intros [_ Hn]. by destruct (Namespaces access).
  - rewrite lookup_insert_ne by done. destruct (decide (v = "get")) as [->|Hg].
    + rewrite lookup_insert_eq. cbn. split; [intros Hn; split; [by right|]|].
      * by intros He; rewrite He in Hn.
      * intros [_ Hn]. by destruct (Namespaces access).
    + rewrite lookup_insert_ne, lookup_empty by done. cbn. naive_solver.
Qed.

(** Which verbs there is access for once the namespaces made up for them. *)
Lemma subject_access_any access s v :
  access_by_verb (subject_access access s).1 v ≠ [] ↔
  may access s v ∨ ((v = "watch" ∨ v = "get") ∧ sees_namespaces access s).
Proof.
  unfold subject_access, sees_namespaces. case_bool_decide as He; cbn [andb].
  - rewrite He. pose proof He as Hno. rewrite verbAccess_empty in Hno.
    destruct (is_namespaces s); cbn [fst].
    + rewrite default_accesses_any. specialize (Hno v) as Hnov. naive_solver.
    + unfold access_by_verb. rewrite lookup_empty. cbn. naive_solver.
  - cbn [fst]. rewrite may_access_by_verb. rewrite verbAccess_empty in He. naive_solver.
Qed.

(** The list of namespaces is offered by adding it to the schema of the collection. *)
Lemma subject_access_shared access s :
  (subject_access access s).2 = s ∧ ¬ always_list access s ∨
  (subject_access access s).2 = with_methods s (ResourceMethods s) (CollectionMethods s ++ [MethodGet]) ∧
    always_list access s.
Proof.
  unfold subject_access, always_list, namespace_accesses. rewrite length_fmap.
  setoid_rewrite <- verbAccess_empty.
  case_bool_decide as He; cbn [andb]; [|left; split; [done|tauto]].
  destruct (is_namespaces s) eqn:Hns; [|left; split; [done|naive_solver]]. cbn [snd].
  destruct (Namespaces access) as [|ns l]; [by right|left]. split; [done|]. naive_solver.
Qed.

(** The methods of the schema a user gets for the resource. *)
Definition has_resource_method (access : AccessSet) (s : APISchema) (m : string) : Prop :=
  m ∈ ResourceMethods s ∨ ∃ m0, offers_resource access s m0 ∧ m = allowed s m0.
Definition has_collection_method (access : AccessSet) (s : APISchema) (m : string) : Prop :=
  m ∈ CollectionMethods s ∨ (∃ m0, offers_collection access s m0 ∧ m = allowed s m0) ∨
  (m = MethodGet ∧ always_list access s).

Lemma AnyVerb_subject access s v : v ≠ "watch" → v ≠ "get" →
  AnyVerb (subject_access access s).1 [v] = true ↔ may access s v.
Proof.
  intros Hw Hg. rewrite AnyVerb_true. setoid_rewrite list_elem_of_singleton.
  setoid_rewrite subject_access_any. naive_solver.
Qed.
Lemma AnyVerb_subject_get access s :
  AnyVerb (subject_access access s).1 ["list"; "get"] = true ↔
  may access s "list" ∨ may access s "get" ∨ sees_namespaces access s.
Proof.
  rewrite AnyVerb_true. setoid_rewrite elem_of_cons. setoid_rewrite list_elem_of_singleton.
  setoid_rewrite subject_access_any. naive_solver.
Qed.

Lemma elem_of_resource_methods access s m :
  m ∈ resource_methods s (subject_access access s).1 ↔
  ∃ m0, offers_resource access s m0 ∧ m = allowed s m0.
Proof.
  unfold resource_methods, offers_resource. rewrite !elem_of_app, !elem_of_if, AnyVerb_subject_get.
  rewrite !AnyVerb_subject by done. rewrite !list_elem_of_singleton, elem_of_cons, list_elem_of_singleton. split.
  - intros [[? ->]|[[? ->]|[[? [->| ->]]|[? ->]]]];
      [exists MethodGet|exists MethodDelete|exists MethodPut|exists MethodPatch|exists MethodPatch]; auto 10.
  - intros (m0 & [[-> ?]|[[-> ?]|[[-> ?]|[-> [?|?]]]]] & ->); auto 10.
Qed.

Lemma elem_of_collection_methods access s m :
  m ∈ collection_methods s (subject_access access s).1 ↔
  ∃ m0, offers_collection access s m0 ∧ m = allowed s m0.
Proof.
  unfold collection_methods, offers_collection. rewrite !elem_of_app, !elem_of_if, AnyVerb_subject_get.
  rewrite !AnyVerb_subject by done. rewrite !list_elem_of_singleton. split.
  - intros [[? ->]|[? ->]]; [exists MethodGet|exists MethodPost]; auto 10.
  - intros (m0 & [[-> ?]|[-> ?]] & ->); auto 10.
Qed.

(** The schema that the loop adds. *)
Lemma subject_schema_spec access s : S_Resource s ≠ "" →
  match (subject_schema access s).1 with
  | Some s' =>
      s' = with_methods (SetAccess s (subject_access access s).1) (ResourceMethods s') (CollectionMethods s') ∧
      (∀ m, m ∈ ResourceMethods s' ↔ has_resource_method access s m) ∧
      (∀ m, m ∈ CollectionMethods s' ↔ has_collection_method access s m)
  | None => ∀ m, ¬ has_resource_method access s m ∧ ¬ has_collection_method access s m
  end.
Proof.
  intros Hr. unfold subject_schema. rewrite bool_decide_eq_false_2 by done.
  pose proof (subject_access_shared access s) as Hshared.
  pose proof (elem_of_resource_methods access s) as Hrm. pose proof (elem_of_collection_methods access s) as Hcm.
  destruct (subject_access access s) as [m shared] eqn:Hsub. cbn [fst snd] in *.
  assert (Hres : ∀ x, x ∈ ResourceMethods shared ++ resource_methods s m ↔ has_resource_method access s x).
  { intros x. unfold has_resource_method. rewrite elem_of_app, <- Hrm.
    by destruct Hshared as [[-> _]|[-> _]]. }
  assert (Hcol : ∀ x, x ∈ CollectionMethods shared ++ collection_methods s m ↔
      has_collection_method access s x).
  { intros x. unfold has_collection_method. rewrite elem_of_app, <- Hcm.
    destruct Hshared as [[-> Hno]|[-> Hal]]; [tauto|].
    cbn [CollectionMethods with_methods].
    rewrite elem_of_app, list_elem_of_singleton. tauto. }
  cbn [ResourceMethods CollectionMethods with_methods SetAccess].
  destruct (bool_decide _ && bool_decide _) eqn:Hempty; cbn [fst ResourceMethods CollectionMethods with_methods].
  - apply andb_true_iff in Hempty as [Hc Hr']. rewrite bool_decide_eq_true in Hc, Hr'.
    apply nil_length_inv in Hc, Hr'. intros x. rewrite <- Hres, <- Hcol, Hc, Hr', elem_of_nil. tauto.
  - split_and!; [|done|done].
    destruct Hshared as [[-> _]|[-> _]]; reflexivity.
Qed.

(** The schema of the collection changes by the method of the list of namespaces only. *)
Definition polluted (s s' : APISchema) : Prop :=
  ∃ n, s' = with_methods s (ResourceMethods s) (CollectionMethods s ++ replicate n MethodGet) ∧
       (n ≠ 0 → is_namespaces s = true).
Lemma polluted_refl s : polluted s s.
Proof. exists 0. cbn. rewrite app_nil_r. by destruct s. Qed.
Lemma subject_schema_shared access s : polluted s (subject_schema access s).2.
Proof.
  unfold subject_schema. case_bool_decide; [apply polluted_refl|].
  pose proof (subject_access_shared access s) as Hs. destruct (subject_access access s) as [m shared].
  cbn [snd] in *. destruct Hs as [[-> _]|[-> (Hns & _)]]; [apply polluted_refl|]. by exists 1.
Qed.
Lemma polluted_trans s1 s2 s3 : polluted s1 s2 → polluted s2 s3 → polluted s1 s3.
Proof.
  intros (n & -> & Hn) (k & -> & Hk). exists (n + k). cbn in *.
  rewrite replicate_add, app_assoc. split; [done|]. intros. destruct n; [|auto]. apply Hk. lia.
Qed.
End factory_lemmas.

Section subject_lemmas.
Context `{MapRange, APISchemasLaws}.
Implicit Types (s : APISchema) (access : AccessSet).

(** The schemas of a collection are stored under their IDs. *)
Definition ids_ok (schemas : gmap string APISchema) : Prop :=
  ∀ id s, schemas !! id = Some s → S_ID s = id.

Lemma fst_in {A B} (l : list (A * B)) x y : (x, y) ∈ l → x ∈ l.*1.
Proof. intros Hin. apply list_elem_of_fmap. by exists (x, y). Qed.

Lemma subject_schema_ID access s s' : (subject_schema access s).1 = Some s' → S_ID s' = S_ID s.
Proof.
  intros Hs. destruct (decide (S_Resource s = "")) as [Hr|Hr].
  - unfold subject_schema in Hs. rewrite bool_decide_eq_true_2 in Hs by done. by injection Hs as ->.
  - pose proof (subject_schema_spec access s Hr) as Hspec. rewrite Hs in Hspec.
    destruct Hspec as [-> _]. done.
Qed.

Lemma subject_loop_spec access l result schemas r schemas' :
  (∀ id s, (id, s) ∈ l → S_ID s = id) → NoDup l.*1 →
  subject_loop access l result schemas = (Ok r, schemas') →
  (∀ id s, (id, s) ∈ l → SchemaByID r id = match (subject_schema access s).1 with
                                           | Some s' => Some s' | None => SchemaByID result id end) ∧
  (∀ id, id ∉ l.*1 → SchemaByID r id = SchemaByID result id).
Proof.
  revert result schemas. induction l as [|[id s] l IH]; intros result schemas Hids Hnd; cbn [subject_loop].
  - intros [= <- <-]. split; [|done]. by intros ?? ?%elem_of_nil.
  - apply list.NoDup_cons in Hnd as [Hnot Hnd].
    assert (Hids' : ∀ id s, (id, s) ∈ l → S_ID s = id) by (intros; apply Hids; by right).
    pose proof (Hids id s (list_elem_of_here _ _)) as Hid.
    destruct (subject_schema access s) as [[s'|] shared] eqn:Hsub.
    + assert (Hid' : S_ID s' = id) by (rewrite <- Hid; apply (subject_schema_ID access); by rewrite Hsub).
      destruct (AddSchema s' result) as [result'| |] eqn:Hadd; [|done..]. intros Hl.
      destruct (IH _ _ Hids' Hnd Hl) as [Hin Hout].
      pose proof (λ id, SchemaByID_AddSchema s' result result' id Hadd) as Hlook. split.
      * intros id0 s0 [Heq|Hin0]%elem_of_cons.
        -- injection Heq as -> ->. rewrite Hsub. cbn. by rewrite Hout, Hlook, decide_True.
        -- rewrite (Hin _ _ Hin0). case_match; [done|]. rewrite Hlook, decide_False; [done|].
           intros ->. apply Hnot. rewrite <- Hid'. by eapply fst_in.
      * intros id0 Hid0. cbn in Hid0. rewrite not_elem_of_cons in Hid0. destruct Hid0 as [Hne Hid0].
        rewrite Hout, Hlook, decide_False; [done..|congruence|done].
    + intros Hl. destruct (IH _ _ Hids' Hnd Hl) as [Hin Hout]. split.
      * intros id0 s0 [Heq|Hin0]%elem_of_cons; [|by apply Hin].
        injection Heq as -> ->. rewrite Hsub. cbn. by apply Hout.
      * intros id0 Hid0. cbn in Hid0. apply not_elem_of_cons in Hid0 as [_ Hid0]. by apply Hout.
Qed.

Lemma subject_loop_schemas access l result schemas :
  (∀ id s, (id, s) ∈ l → schemas !! id = Some s) → NoDup l.*1 →
  ∀ id, match schemas !! id with
        | Some s => ∃ s', (subject_loop access l result schemas).2 !! id = Some s' ∧ polluted s s'
        | None => (subject_loop access l result schemas).2 !! id = None
        end.
Proof.
  revert result schemas. induction l as [|[id s] l IH]; intros result schemas Hl Hnd id0; cbn [subject_loop].
  - cbn. destruct (schemas !! id0) as [s0|]; [|done]. exists s0. split; [done|apply polluted_refl].
  - apply list.NoDup_cons in Hnd as [Hnot Hnd].
    pose proof (subject_schema_shared access s) as Hpol. destruct (subject_schema access s) as [o shared].
    cbn [snd] in Hpol. pose proof (Hl id s (list_elem_of_here _ _)) as Hid.
    assert (Hstep : match schemas !! id0 with
        | Some s => ∃ s', <[id := shared]> schemas !! id0 = Some s' ∧ polluted s s'
        | None => <[id := shared]> schemas !! id0 = None end).
    { destruct (decide (id = id0)) as [->|Hne].
      - rewrite Hid, lookup_insert_eq. by exists shared.
      - rewrite lookup_insert_ne by done. destruct (schemas !! id0) as [s0|]; [|done].
        exists s0. split; [done|apply polluted_refl]. }
    assert (Hrest : ∀ result', match schemas !! id0 with
        | Some s => ∃ s', (subject_loop access l result' (<[id := shared]> schemas)).2 !! id0 = Some s' ∧ polluted s s'
        | None => (subject_loop access l result' (<[id := shared]> schemas)).2 !! id0 = None end).
    { intros result'. specialize (IH result' (<[id := shared]> schemas)).
      specialize (IH ltac:(intros id1 s1 Hin; rewrite lookup_insert_ne;
        [by apply Hl; right|intros ->; apply Hnot; by eapply fst_in]) Hnd id0).
      destruct (schemas !! id0) as [s0|].
      - destruct Hstep as (s1 & Hs1 & Hp1). rewrite Hs1 in IH. destruct IH as (s2 & Hs2 & Hp2).
        exists s2. split; [done|by eapply polluted_trans].
      - by rewrite Hstep in IH. }
    destruct o as [s'|]; [|apply Hrest]. destruct (AddSchema s' result) as [result'| |]; [apply Hrest|..];
      cbn [snd]; exact Hstep.
Qed.

(** A request of a user without any namespace adds the list to the collection. *)
Lemma subject_loop_other access l result schemas id :
  id ∉ l.*1 → (subject_loop access l result schemas).2 !! id = schemas !! id.
Proof.
  revert result schemas. induction l as [|[id' s] l IH]; intros result schemas Hid; cbn [subject_loop]; [done|].
  apply not_elem_of_cons in Hid as [Hne Hid]. destruct (subject_schema access s) as [[s'|] shared].
  - assert (Hsk : <[id' := shared]> schemas !! id = schemas !! id) by (by apply lookup_insert_ne).
    destruct (AddSchema s' result); [by rewrite IH|done..].
  - rewrite IH by done. by apply lookup_insert_ne.
Qed.

Lemma subject_loop_get access l result schemas r schemas' id s :
  (id, s) ∈ l → NoDup l.*1 → S_Resource s ≠ "" → always_list access s →
  subject_loop access l result schemas = (Ok r, schemas') →
  ∃ s1, schemas' !! id = Some s1 ∧ S_Resource s1 ≠ "" ∧ MethodGet ∈ CollectionMethods s1.
Proof.
  intros Hin Hnd Hres Hal. revert result schemas Hin Hnd.
  induction l as [|[id' s'] l IH]; intros result schemas Hin Hnd; [by apply elem_of_nil in Hin|].
  apply list.NoDup_cons in Hnd as [Hnot Hnd]. cbn [subject_loop].
  apply elem_of_cons in Hin as [Heq|Hin].
  - injection Heq as <- <-. assert (Hsh : (subject_schema access s).2 =
        with_methods s (ResourceMethods s) (CollectionMethods s ++ [MethodGet])).
    { unfold subject_schema. rewrite bool_decide_eq_false_2 by done.
      pose proof (subject_access_shared access s) as Hsub. destruct (subject_access access s). cbn [snd] in *.
      by destruct Hsub as [[_ ?]|[-> _]]. }
    destruct (subject_schema access s) as [o shared]. cbn [snd] in Hsh. subst shared.
    assert (Hdone : ∀ result', (subject_loop access l result' (<[id := with_methods s (ResourceMethods s)
        (CollectionMethods s ++ [MethodGet])]> schemas)) = (Ok r, schemas') →
      ∃ s1, schemas' !! id = Some s1 ∧ S_Resource s1 ≠ "" ∧ MethodGet ∈ CollectionMethods s1).
    { intros result' Hl. pose proof (subject_loop_other access l result' (<[id := with_methods s (ResourceMethods s)
        (CollectionMethods s ++ [MethodGet])]> schemas) id Hnot) as Ho. rewrite Hl, lookup_insert_eq in Ho.
      cbn [snd] in Ho. eexists. split_and!; [exact Ho|done|]. cbn. apply elem_of_app. right. by left. }
    destruct o as [s0|]; [|apply Hdone]. destruct (AddSchema s0 result); [apply Hdone|done..].
  - destruct (subject_schema access s') as [[s0|] shared]; [|by apply IH].
    destruct (AddSchema s0 result); [by apply IH|done..].
Qed.

(** The built-in schemas and those of the base. *)
Definition base_schemas (base : apischemas) : outcome string apischemas := newSchemas ≫= AddSchemas base.

Lemma schemasForSubject_ok base access schemas r schemas' :
  schemasForSubject base access schemas = (Ok r, schemas') →
  ∃ b r', base_schemas base = Ok b ∧ r = SetAccessSetAttribute access r' ∧
    subject_loop access (range_map schemas) b schemas = (Ok r', schemas').
Proof.
  unfold schemasForSubject, base_schemas. destruct (newSchemas ≫= AddSchemas base) as [b| |]; [|done..].
  destruct (subject_loop _ _ _ _) as [[r'| |] q] eqn:Hl; [|done..]. intros [= <- <-]. by exists b, r'.
Qed.

(** What a user gets for a resource of the cluster. *)
Lemma schemasForSubject_spec base access schemas r schemas' b id s :
  ids_ok schemas → base_schemas base = Ok b →
  schemasForSubject base access schemas = (Ok r, schemas') → schemas !! id = Some s →
  SchemaByID r id = match (subject_schema access s).1 with Some s' => Some s' | None => SchemaByID b id end.
Proof.
  intros Hids Hb (b' & r' & Hb' & -> & Hl)%schemasForSubject_ok Hs.
  rewrite Hb in Hb'. injection Hb' as <-. rewrite SchemaByID_SetAccess.
  apply subject_loop_spec in Hl as [Hin _]; [|by intros ??; rewrite elem_of_range_map; apply Hids|apply NoDup_fst_range_map].
  apply Hin. by apply elem_of_range_map.
Qed.

Lemma schemasForSubject_schemas base access schemas id :
  match schemas !! id with
  | Some s => ∃ s', (schemasForSubject base access schemas).2 !! id = Some s' ∧ polluted s s'
  | None => (schemasForSubject base access schemas).2 !! id = None
  end.
Proof.
  unfold schemasForSubject. destruct (newSchemas ≫= AddSchemas base) as [b| |].
  - pose proof (subject_loop_schemas access (range_map schemas) b schemas) as Hl.
    destruct (subject_loop access (range_map schemas) b schemas) as [r q]. cbn [snd] in *.
    apply Hl; [|apply NoDup_fst_range_map]. by intros ??; rewrite elem_of_range_map.
  - cbn [snd]. destruct (schemas !! id) as [s|]; [|done]. exists s. split; [done|apply polluted_refl].
  - cbn [snd]. destruct (schemas !! id) as [s|]; [|done]. exists s. split; [done|apply polluted_refl].
Qed.
End subject_lemmas.

(** ** Methods and RBAC *)


Section rbac_lemmas.
Context `{MapRange}.
Implicit Types (s : APISchema) (access : AccessSet).



End rbac_lemmas.

(** * Theorems *)
Section user_schemas.
Context `{MapRange, APISchemasLaws, K8sRBAC, SliceSort}.
Context (sha256_hex : string → string) (C : accessStoreCache) (empty : cache_state C).
Context (c : RBACCaches) (crbs : list ClusterRoleBinding) (rbs : list RoleBinding).
Context `{!RBACCachesOK c crbs rbs}.

(** The access set of a user. *)
Definition access_of (user : UserInfo) : AccessSet :=
  (AccessFor sha256_hex (NewAccessStore C empty false c) user).1.

Lemma access_of_rbac user v g ns n :
  AccessSet_Grants (access_of user) v g ns n = true ↔ rbac_allows c crbs rbs user v g ns n.
Proof.
  unfold access_of, AccessFor, NewAccessStore. cbn [cache usersPolicyRules groupsPolicyRules fst].
  rewrite Grants_newAccessSet. by apply grants_allow_rbac.
Qed.







(** A schema of the result comes from the base or from the loop. *)
Lemma schemasForSubject_origin base access schemas r schemas' b id s' :
  ids_ok schemas → base_schemas base = Ok b →
  schemasForSubject base access schemas = (Ok r, schemas') → SchemaByID r id = Some s' →
  SchemaByID b id = Some s' ∨ ∃ s, schemas !! id = Some s ∧ (subject_schema access s).1 = Some s'.
Proof.
  intros Hids Hb Hsub Hs'. destruct (schemas !! id) as [s|] eqn:Hs.
  - rewrite (schemasForSubject_spec _ _ _ _ _ _ _ _ Hids Hb Hsub Hs) in Hs'.
    destruct (subject_schema access s).1 as [s0|] eqn:Hs0; [|by left].
    right. exists s. by rewrite Hs0, <- Hs'.
  - left. apply schemasForSubject_ok in Hsub as (b' & r' & Hb' & -> & Hl).
    rewrite Hb in Hb'. injection Hb' as <-. rewrite SchemaByID_SetAccess in Hs'.
    apply subject_loop_spec in Hl as [_ Hout];
      [|by intros ??; rewrite elem_of_range_map; apply Hids|apply NoDup_fst_range_map].
    rewrite <- Hout; [done|]. intros ([id' s0] & -> & Hin)%list_elem_of_fmap.
    apply elem_of_range_map in Hin. cbn in Hs. congruence.
Qed.

(** The access of a schema of the loop. *)
Lemma subject_schema_access user s s' v ns n :
  (subject_schema (access_of user) s).1 = Some s' → S_Access s = None →
  AccessList_Grants (access_by_verb (GetAccessListMap s') v) ns n = true →
  GR s' = GR s ∧
  (rbac_allows c crbs rbs user v (GR s) ns n ∨
   is_namespaces s = true ∧ (v = "get" ∨ v = "watch") ∧ n ∈ Namespaces (access_of user)).
Proof.
  intros Hs' Hnone Hg. destruct (decide (S_Resource s = "")) as [Hr|Hr].
  { unfold subject_schema in Hs'. rewrite bool_decide_eq_true_2 in Hs' by done. injection Hs' as <-.
    unfold GetAccessListMap in Hg. rewrite Hnone in Hg. unfold access_by_verb in Hg. cbn in Hg.
    by rewrite lookup_empty in Hg. }
  pose proof (subject_schema_spec (access_of user) s Hr) as Hspec. rewrite Hs' in Hspec.
  destruct Hspec as (Heq & _). rewrite Heq in Hg |- *. split; [done|].
  unfold GetAccessListMap in Hg. cbn [S_Access with_methods SetAccess default from_option id] in Hg.
  apply AccessList_Grants_true in Hg as (acc & Hacc & Hg).
  unfold subject_access in Hacc. destruct (bool_decide (verbAccess (access_of user) s = ∅)) eqn:He.
  - apply bool_decide_eq_true in He. destruct (is_namespaces s); cbn [andb fst] in Hacc.
    + right. split; [done|]. unfold access_by_verb in Hacc. rewrite He in Hacc.
      assert (Hin : (v = "get" ∨ v = "watch") ∧ acc ∈ namespace_accesses (access_of user)).
      { destruct (decide (v = "watch")) as [->|Hw]; [rewrite lookup_insert_eq in Hacc; cbn in Hacc; auto|].
        rewrite lookup_insert_ne in Hacc by done.
        destruct (decide (v = "get")) as [->|Hget]; [rewrite lookup_insert_eq in Hacc; cbn in Hacc; auto|].
        rewrite lookup_insert_ne, lookup_empty in Hacc by done. cbn in Hacc. by apply elem_of_nil in Hacc. }
      destruct Hin as [Hv (name & -> & Hname)%list_elem_of_fmap]. split; [done|].
      apply Access_Grants_true in Hg as [_ Hn]. cbn in Hn. destruct Hn as [->| <-]; [|done].
      by apply Namespaces_spec in Hname as [? _].
    + left. rewrite He in Hacc. unfold access_by_verb in Hacc. rewrite lookup_empty in Hacc. cbn in Hacc.
      by apply elem_of_nil in Hacc.
  - left. cbn [andb fst] in Hacc. rewrite access_by_verb_verbAccess, elem_of_verb_access in Hacc.
    rewrite <- access_of_rbac, AccessSet_Grants_true. naive_solver.
Qed.

(** C23: With the schemas of a user, a request is authorised only if RBAC allows it for the
    resource of the schema looked up or for the resource named, if the library's own
    schema-based access allows it, or, as the one exception, if it reads a namespace in
    which the user may get or list something. *)
Theorem CanDo_rbac LookupSchema kv_Split SchemaBased_CanDo user base b schemas r schemas' resource v ns n :
  ids_ok schemas → base_schemas base = Ok b →
  (∀ id s, SchemaByID b id = Some s → S_Access s = None) →
  (∀ id s, schemas !! id = Some s → S_Access s = None) →
  schemasForSubject base (access_of user) schemas = (Ok r, schemas') →
  (∀ name s', LookupSchema r name = Some s' → ∃ id, SchemaByID r id = Some s') →
  CanDo LookupSchema kv_Split SchemaBased_CanDo r resource v ns n = true →
  (∃ s', LookupSchema r resource = Some s' ∧ rbac_allows c crbs rbs user v (GR s') ns n) ∨
  rbac_allows c crbs rbs user v (mkGR (kv_Split resource).1 (kv_Split resource).2) ns n ∨
  SchemaBased_CanDo r (kv_Split resource).2 v ns n = true ∨
  (∃ s', LookupSchema r resource = Some s' ∧ is_namespaces s' = true ∧ (v = "get" ∨ v = "watch") ∧
     n ∈ Namespaces (access_of user)).
Proof.
  intros Hids Hb Hbase Hfresh Hsub Hlook Hcan. unfold CanDo in Hcan.
  rewrite !orb_true_iff in Hcan. destruct Hcan as [[Hcan|Hcan]|Hcan].
  - destruct (LookupSchema r resource) as [s'|] eqn:Hs'; [|done].
    apply andb_true_iff in Hcan as [_ Hg]. destruct (Hlook _ _ Hs') as [id Hid].
    destruct (schemasForSubject_origin _ _ _ _ _ _ _ _ Hids Hb Hsub Hid) as [Hb'|(s & Hs & Hloop)].
    + unfold GetAccessListMap in Hg. rewrite (Hbase _ _ Hb') in Hg. unfold access_by_verb in Hg. cbn in Hg.
      by rewrite lookup_empty in Hg.
    + destruct (subject_schema_access user s s' v ns n Hloop (Hfresh _ _ Hs) Hg) as [Hgr [Hall|(Hns & Hv & Hn)]].
      * left. exists s'. by rewrite Hgr.
      * right; right; right. exists s'. split_and!; [done| |done..].
        unfold is_namespaces, GR in *. injection Hgr as -> ->. done.
  - right; left. apply schemasForSubject_ok in Hsub as (b' & r' & _ & -> & _).
    destruct (kv_Split resource) as [group res]. rewrite AccessSetAttribute_Set in Hcan.
    by apply access_of_rbac in Hcan.
  - right; right; left. by destruct (kv_Split resource).
Qed.
End user_schemas.

(** ** Sequences of requests *)

(** Between requests the schemas of the cluster and the RBAC objects change. *)
Inductive coll_op `{AccessSetLookup} :=
  | OpSchemas (user : UserInfo)
  | OpReset (schemas : gmap string APISchema)
  | OpAccess (a : as_state).

Section requests.
Context `{MapRange, APISchemas, LRUCache, !LRUCacheLaws, AccessSetLookup}.
Implicit Types (c : Collection) (p q : gmap string APISchema).

(** The requests with the access set of the user and the schemas of the cluster at the
    time, and what they are answered. *)
Fixpoint responses (ops : list coll_op) (p : gmap string APISchema) (c : Collection)
    : list (AccessSet * gmap string APISchema * outcome string apischemas) :=
  match ops with
  | [] => []
  | OpSchemas user :: ops =>
      let '(r, c') := Schemas user c in ((as_AccessFor user (c_as c)).1, p, r) :: responses ops p c'
  | OpReset q :: ops => responses ops q (Reset q c)
  | OpAccess a :: ops => responses ops p (with_caches (c_cache c) (c_userCache c) a c)
  end.

(** The schemas of a collection up to the list of namespaces that requests add. *)
Definition polluted_map (p q : gmap string APISchema) : Prop :=
  ∀ id, match p !! id with
        | Some s => ∃ s', q !! id = Some s' ∧ polluted s s'
        | None => q !! id = None
        end.
Lemma polluted_map_refl p : polluted_map p p.
Proof. intros id. destruct (p !! id) as [s|]; [|done]. exists s. split; [done|apply polluted_refl]. Qed.
Lemma polluted_map_subject base access p q :
  polluted_map p q → polluted_map p (schemasForSubject base access q).2.
Proof.
  intros Hpq id. specialize (Hpq id). pose proof (schemasForSubject_schemas base access q id) as Hq.
  destruct (p !! id) as [s|].
  - destruct Hpq as (s1 & Hs1 & Hp1). rewrite Hs1 in Hq. destruct Hq as (s2 & Hs2 & Hp2).
    exists s2. split; [done|by eapply polluted_trans].
  - by rewrite Hpq in Hq.
Qed.

(** What a request without a cache answers. *)
Definition fresh_answer (base : apischemas) (access : AccessSet) p (r : apischemas) : Prop :=
  ∃ q q', polluted_map p q ∧ schemasForSubject base access q = (Ok r, q').

(** The cache holds answers for the access sets of [U]. *)
Definition coll_ok (U : AccessSet → Prop) base p c : Prop :=
  c_baseSchema c = base ∧ polluted_map p (c_schemas c) ∧
  ∀ id r, lru_contents (c_cache c) !! id = Some r →
    ∃ a, U a ∧ ID a = id ∧ fresh_answer base a p r.

Lemma coll_ok_caches U base p c cache userCache a :
  lru_contents cache ⊆ lru_contents (c_cache c) → coll_ok U base p c →
  coll_ok U base p (with_caches cache userCache a c).
Proof.
  intros Hsub (Hb & Hp & Hc). split_and!; [done..|]. intros id r Hid. apply Hc. by eapply lookup_weaken.
Qed.

Lemma removeOldRecords_ok U base p access user c c' :
  removeOldRecords access user c = Ok c' → coll_ok U base p c → coll_ok U base p c'.
Proof.
  unfold removeOldRecords. destruct (lru_Get (GetName user) (c_userCache c)) as [current uc].
  intros Hr Hok. destruct current as [currentID|]; [|injection Hr as <-; by apply coll_ok_caches].
  case_bool_decide; [|injection Hr as <-; by apply coll_ok_caches].
  unfold purgeUserRecords in Hr. cbn [c_as with_caches] in Hr.
  destruct (as_PurgeUserData currentID (c_as c)) as [a| |]; [|done..]. injection Hr as <-.
  cbn [with_caches c_cache c_userCache c_as]. apply (coll_ok_caches U base p (with_caches _ _ _ _)).
  - done.
  - apply (coll_ok_caches U base p (with_caches _ _ _ _)); [|by apply coll_ok_caches].
    cbn [c_cache with_caches]. etrans; [apply lru_Remove_contents|apply delete_subseteq].
Qed.

Lemma Reset_ok U base p c q : coll_ok U base p c → coll_ok U base q (Reset q c).
Proof.
  intros (Hb & _ & _). split_and!; [done|apply polluted_map_refl|].
  intros id r Hid. exfalso. cbn [c_cache Reset] in Hid.
  assert (Hl : ∀ (l : list string) (k : lru apischemas),
    lru_contents (foldl (λ cache k, lru_Remove k cache) k l) !! id = Some r →
    (id ∉ l) ∧ lru_contents k !! id = Some r).
  { induction l as [|x l IH]; intros k Hk; cbn [foldl] in Hk; [split; [apply not_elem_of_nil|done]|].
    apply IH in Hk as [Hin Hk]. eapply lookup_weaken in Hk; [|apply lru_Remove_contents].
    apply lookup_delete_Some in Hk as [Hne Hk]. split; [|done]. rewrite not_elem_of_cons. by split. }
  apply Hl in Hid as [Hnot Hid]. apply Hnot, lru_Keys_contents. by eexists.
Qed.

(** A request is answered from the current state and keeps the cache in order. *)
Lemma Schemas_ok (U : AccessSet → Prop) base p user c r c' :
  (∀ a1 a2, U a1 → U a2 → ID a1 = ID a2 → a1 = a2) → U (as_AccessFor user (c_as c)).1 →
  coll_ok U base p c → Schemas user c = (r, c') →
  coll_ok U base p c' ∧ ∀ r', r = Ok r' → fresh_answer base (as_AccessFor user (c_as c)).1 p r'.
Proof.
  intros Hinj HU Hok. unfold Schemas, lookup_Schemas.
  destruct (as_AccessFor user (c_as c)) as [access a]. cbn [fst] in *.
  assert (Hok1 : coll_ok U base p (with_caches (c_cache c) (c_userCache c) a c)) by (by apply coll_ok_caches).
  destruct (removeOldRecords access user _) as [c2|e|] eqn:Hrem; [|by intros [= <- <-]..].
  apply (removeOldRecords_ok U base p) in Hrem; [|done]. clear Hok Hok1.
  pose proof (lru_Get_found (ID access) (c_cache c2)) as Hfound.
  pose proof (lru_Get_contents (ID access) (c_cache c2)) as Hsub.
  destruct (lru_Get (ID access) (c_cache c2)) as [val cache]. cbn [fst snd] in Hfound, Hsub.
  assert (Hok3 : coll_ok U base p (with_caches cache (c_userCache c2) (c_as c2) c2)) by (by apply coll_ok_caches).
  destruct val as [schemas|].
  - cbn [finish_Schemas]. intros [= <- <-]. split; [done|]. intros r' [= <-].
    destruct Hrem as (_ & _ & Hc). destruct (Hc _ _ (Hfound _ eq_refl)) as (a' & HU' & Hid & Hans).
    by rewrite (Hinj access a').
  - destruct Hok3 as (Hb & Hp & Hc). cbn [c_baseSchema c_schemas c_cache with_caches] in *.
    pose proof (polluted_map_subject (c_baseSchema c2) access p (c_schemas c2) Hp) as Hp'.
    destruct (schemasForSubject (c_baseSchema c2) access (c_schemas c2)) as [[r2|e|] q] eqn:Hs;
      cbn [finish_Schemas fmap outcome_fmap snd] in *.
    + intros [= <- <-].
      assert (Hans : fresh_answer base access p r2).
      { exists (c_schemas c2), q. split; [done|]. by rewrite <- Hb. }
      split; [|by intros r' [= <-]]. split_and!; [done..|].
      intros id r' Hid. cbn [addToCache with_caches with_schemas c_cache] in Hid.
      eapply lookup_weaken in Hid; [|apply lru_Add_contents].
      apply lookup_insert_Some in Hid as [[<- <-]|[_ Hid]]; [by exists access|by apply Hc].
    + intros [= <- <-]. by split; [|done].
    + intros [= <- <-]. by split; [|done].
Qed.

Lemma responses_ok (U : AccessSet → Prop) base ops p c :
  (∀ a1 a2, U a1 → U a2 → ID a1 = ID a2 → a1 = a2) →
  (∀ x, x ∈ responses ops p c → U x.1.1) → coll_ok U base p c →
  ∀ a q r, (a, q, Ok r) ∈ responses ops p c → fresh_answer base a q r.
Proof.
  intros Hinj. revert p c. induction ops as [|[user|q|a] ops IH]; intros p c HU Hok a0 q0 r0 Hin;
    cbn [responses] in *; [by apply elem_of_nil in Hin| | |].
  - destruct (Schemas user c) as [r c'] eqn:Hs.
    destruct (Schemas_ok U base p user c r c' Hinj) as [Hok' Hr]; [|done..|].
    { by apply (HU ((as_AccessFor user (c_as c)).1, p, r)); left. }
    apply elem_of_cons in Hin as [Heq|Hin]; [injection Heq as -> -> <-; by apply Hr|].
    eapply IH; [|done..]. intros x Hx. apply HU. by right.
  - eapply IH; [exact HU|by eapply Reset_ok|done].
  - eapply IH; [exact HU|by apply coll_ok_caches|done].
Qed.
End requests.

Section request_theorems.
Context `{MapRange, APISchemasLaws, LRUCache, AccessSetLookup}.
Implicit Types (c : Collection).

Lemma removeOldRecords_schemas access user c c' : removeOldRecords access user c = Ok c' →
  c_schemas c' = c_schemas c ∧ c_baseSchema c' = c_baseSchema c.
Proof.
  unfold removeOldRecords, purgeUserRecords. destruct (lru_Get (GetName user) (c_userCache c)) as [[id|] uc];
    [case_bool_decide|]; cbn [c_as with_caches].
  - destruct (as_PurgeUserData id (c_as c)); [|done..]. by intros [= <-].
  - by intros [= <-].
  - by intros [= <-].
Qed.

Lemma lookup_Schemas_computed user access r c c1 :
  lookup_Schemas user c = (Ok (Computed access r), c1) →
  (schemasForSubject (c_baseSchema c) access (c_schemas c)).1 = Ok r.
Proof.
  unfold lookup_Schemas. destruct (as_AccessFor user (c_as c)) as [access' a].
  destruct (removeOldRecords access' user _) as [c2| |] eqn:Hrem; [|done..].
  apply removeOldRecords_schemas in Hrem as [Hs Hb]. cbn in Hs, Hb.
  destruct (lru_Get (ID access') (c_cache c2)) as [[v|] cache]; [done|].
  cbn [c_baseSchema c_schemas with_caches]. rewrite Hs, Hb.
  destruct (schemasForSubject (c_baseSchema c) access' (c_schemas c)) as [[r'| |] q] eqn:Hsub; [|done..].
  intros [= <- <- _]. by rewrite Hsub.
Qed.

(** Whatever requests, changes of the schemas and changes of the access rules follow
    one another, each answer is the one that a request without a cache computes from the
    access set the user has now and the schemas there are now, but for the list of
    namespaces other requests may have added, provided that IDs tell the access sets that
    occur apart. *)
Theorem cached_schemas_refine_fresh `{!LRUCacheLaws} ops c :
  lru_contents (c_cache c) = ∅ →
  let log := responses ops (c_schemas c) c in
  (∀ x y, x ∈ log → y ∈ log → ID x.1.1 = ID y.1.1 → x.1.1 = y.1.1) →
  ∀ access p r, (access, p, Ok r) ∈ log → fresh_answer (c_baseSchema c) access p r.
Proof.
  intros Hempty log Hinj access p r.
  apply (responses_ok (λ a, ∃ x, x ∈ log ∧ x.1.1 = a) (c_baseSchema c)).
  - intros a1 a2 (x & Hx & <-) (y & Hy & <-). by apply Hinj.
  - intros x Hx. by exists x.
  - split_and!; [done|apply polluted_map_refl|]. intros id r'. by rewrite Hempty, lookup_empty.
Qed.

(** Schemas computed for a request before a change of the schemas of the cluster and
    added to the cache after it are served after it, although the change has emptied the
    cache: the answer of the next request of the user is the old one. *)
Theorem reset_race_serves_old user access r c c1 new :
  (∀ a, (as_AccessFor user a).1 = access) →
  (∀ V k (v : V) cache, (lru_Get k (lru_Add k v cache)).1 = Some v) →
  lookup_Schemas user c = (Ok (Computed access r), c1) →
  let c2 := (finish_Schemas user (Computed access r) (Reset new c1)).2 in
  (schemasForSubject (c_baseSchema c) access (c_schemas c)).1 = Ok r ∧
  c_schemas c2 = new ∧ (Schemas user c2).1 = Ok r.
Proof.
  intros Haccess Hkeep Hlookup c2. split; [by eapply lookup_Schemas_computed|].
  split; [done|]. unfold Schemas, lookup_Schemas.
  specialize (Haccess (c_as c2)). destruct (as_AccessFor user (c_as c2)) as [access' a]. cbn [fst] in Haccess.
  subst access'. unfold removeOldRecords. subst c2.
  cbn [finish_Schemas snd addToCache with_caches c_userCache c_cache c_as].
  match goal with |- context [lru_Get (GetName user) ?uc] => pose proof (Hkeep string (GetName user) (ID access)
    (c_userCache (Reset new c1))) as Huser; destruct (lru_Get (GetName user) uc) as [current uc'] eqn:Huc end.
  cbn [fst] in Huser. subst current. rewrite bool_decide_eq_false_2 by (intros Hne; by apply Hne).
  cbn [with_caches c_cache c_userCache c_as].
  pose proof (Hkeep apischemas (ID access) r (c_cache (Reset new c1))) as Hr.
  destruct (lru_Get (ID access) _) as [val cache']. cbn [fst] in Hr. by subst val.
Qed.

(** After a request of a user without any namespace the schema of namespaces offers its
    list to every user, also to those for whom neither RBAC nor the rule that always offers
    the list says so. *)
Theorem namespaces_list_sticks base access1 access2 schemas r1 schemas1 r2 schemas2 b id s :
  ids_ok schemas → schemas !! id = Some s → always_list access1 s → base_schemas base = Ok b →
  schemasForSubject base access1 schemas = (Ok r1, schemas1) →
  schemasForSubject base access2 schemas1 = (Ok r2, schemas2) →
  ∃ s', SchemaByID r2 id = Some s' ∧ MethodGet ∈ CollectionMethods s'.
Proof.
  intros Hids Hs Halways Hb Hfirst Hsecond. pose proof Halways as (Hns & _ & _).
  assert (Hres : S_Resource s ≠ "").
  { unfold is_namespaces in Hns. apply andb_true_iff in Hns as [_ Hr%bool_decide_eq_true]. by rewrite Hr. }
  pose proof (schemasForSubject_schemas base access1 schemas) as Hpol. rewrite Hfirst in Hpol. cbn [snd] in Hpol.
  assert (Hids1 : ids_ok schemas1).
  { intros id' s1 Hs1. specialize (Hpol id'). destruct (schemas !! id') as [s'|] eqn:Hs'; [|congruence].
    destruct Hpol as (s1' & Hs1' & n & -> & _). rewrite Hs1 in Hs1'. injection Hs1' as ->. cbn. by apply Hids. }
  assert (Hs1 : ∃ s1, schemas1 !! id = Some s1 ∧ S_Resource s1 ≠ "" ∧ MethodGet ∈ CollectionMethods s1).
  { apply schemasForSubject_ok in Hfirst as (b' & r' & Hb' & -> & Hl).
    pose proof (subject_loop_get access1 (range_map schemas) b' schemas r' schemas1 id s
      ltac:(by apply elem_of_range_map) ltac:(apply NoDup_fst_range_map) Hres Halways Hl) as Hget. done. }
  destruct Hs1 as (s1 & Hs1 & Hres1 & Hget).
  pose proof (schemasForSubject_spec _ _ _ _ _ _ _ _ Hids1 Hb Hsecond Hs1) as Hlook.
  pose proof (subject_schema_spec access2 s1 Hres1) as Hspec.
  destruct (subject_schema access2 s1).1 as [s'|].
  - exists s'. split; [done|]. destruct Hspec as (_ & _ & Hcm). apply Hcm. by left.
  - destruct (Hspec MethodGet) as [_ []]. by left.
Qed.
End request_theorems.

(** * A cluster with pods and namespaces *)
Module SchemasExample.
Import Concrete AccessControl.Example.

#[export] Instance schemas_by_id : APISchemas := {|
  apischemas := gmap string APISchema * option AccessSet;
  newSchemas := Ok (∅, None);
  AddSchema := λ s r, Ok (<[S_ID s := s]> r.1, r.2);
  AddSchemas := λ a r, Ok (a.1 ∪ r.1, r.2);
  SetAccessSetAttribute := λ a r, (r.1, Some a);
  AccessSetAttribute := λ r, r.2;
  SchemaByID := λ r id, r.1 !! id
|}.
#[export] Instance schemas_by_id_laws : APISchemasLaws.
Proof.
  split; [|done..]. intros s r r' id [= <-]. cbn. case_decide as Hid.
  - subst. apply lookup_insert_eq.
  - by apply lookup_insert_ne.
Qed.
#[export] Instance map_lru : LRUCache := {|
  lru := λ V, gmap string V;
  lru_Get := λ V k c, (c !! k, c);
  lru_Add := λ V k v c, <[k := v]> c;
  lru_Remove := λ V k c, delete k c;
  lru_Keys := λ V c, (map_to_list c).*1
|}.
#[export] Instance map_lru_laws : LRUCacheLaws.
Proof.
  refine {| lru_contents := λ V (c : lru V), c |}; try done.
  intros V c k [v Hk]. apply list_elem_of_fmap. exists (k, v). by rewrite elem_of_map_to_list.
Defined.

(** The access store of [AccessControl] implements the interface. *)
#[export] Instance access_lookup : AccessSetLookup := {|
  as_state := RBACCaches * gmap string AccessSet;
  as_AccessFor := λ user st,
    let '(a, l) := AccessFor (λ s, s) (store_with st.1 (Some (st.2 : cache_state gmap_cache))) user in
    (a, (st.1, match cache l with Some c => c | None => st.2 end));
  as_PurgeUserData := λ id st, Ok (st.1, delete id st.2)
|}.

Definition pods_schema : APISchema :=
  mkSchema "pod" "" "v1" "pods" "Pod" true ["get"; "list"; "delete"] ∅ None [] [].
Definition namespaces_schema : APISchema :=
  mkSchema "namespace" "" "v1" "namespaces" "Namespace" false ["get"; "list"; "delete"] ∅ None [] [].
Definition cluster : gmap string APISchema := {["pod" := pods_schema; "namespace" := namespaces_schema]}.
Definition no_base : apischemas := (∅, None).
Abbreviation alice_access := (access_of (λ s, s) gmap_cache ∅ caches alice).
Definition carol : UserInfo := mkUser "carol" [].
Definition result (access : AccessSet) (schemas : gmap string APISchema) : apischemas :=
  match (schemasForSubject no_base access schemas).1 with Ok r => r | _ => no_base end.
Definition after (access : AccessSet) (schemas : gmap string APISchema) : gmap string APISchema :=
  (schemasForSubject no_base access schemas).2.

(** The call does not fail with these instances. *)
Lemma schemasForSubject_result access schemas :
  schemasForSubject no_base access schemas = (Ok (result access schemas), after access schemas).
Proof.
  unfold result, after, schemasForSubject.
  destruct (newSchemas ≫= AddSchemas no_base) as [b| |] eqn:Hb; [|done..].
  assert (Hl : ∀ l (b : apischemas) q, ∃ r, (subject_loop access l b q).1 = Ok r).
  { induction l as [|[id s] l IH]; intros b' q; cbn [subject_loop]; [by eexists|].
    destruct (subject_schema access s) as [[s'|] shared]; apply IH. }
  destruct (Hl (range_map schemas) b schemas) as [r Hr].
  destruct (subject_loop access (range_map schemas) b schemas) as [r' q]. cbn [fst] in Hr. by subst r'.
Qed.

Lemma cluster_cases id s : cluster !! id = Some s →
  id = "pod" ∧ s = pods_schema ∨ id = "namespace" ∧ s = namespaces_schema.
Proof.
  unfold cluster. intros [[<- <-]|[_ Hs]]%lookup_insert_Some; [by left|right].
  by apply lookup_singleton_Some in Hs as [<- <-].
Qed.
Lemma cluster_ids : ids_ok cluster.
Proof. by intros id s [[-> ->]|[-> ->]]%cluster_cases. Qed.
Lemma cluster_access id s : cluster !! id = Some s → S_Access s = None.
Proof. by intros [[-> ->]|[-> ->]]%cluster_cases. Qed.


Lemma CanDo_rbac_witness :
  let r := result alice_access cluster in
  CanDo SchemaByID (λ s, ("", s)) (λ _ _ _ _ _, false) r "pod" "get" "team" "web" = true ∧
  rbac_allows caches [] rbs alice "get" (GR pods_schema) "team" "web".
Proof.
  assert (Hcan : CanDo SchemaByID (λ s, ("", s)) (λ _ _ _ _ _, false) (result alice_access cluster)
    "pod" "get" "team" "web" = true) by (vm_compute; reflexivity).
  split; [exact Hcan|].
  assert (Hgr : GR <$> SchemaByID (result alice_access cluster) "pod" = Some (GR pods_schema))
    by (vm_compute; reflexivity).
  destruct (CanDo_rbac (λ s, s) gmap_cache ∅ caches [] rbs SchemaByID (λ s, ("", s)) (λ _ _ _ _ _, false)
    alice no_base no_base cluster (result alice_access cluster) (after alice_access cluster)
    "pod" "get" "team" "web" cluster_ids eq_refl
    ltac:(intros id s Hid; cbn in Hid; by rewrite lookup_empty in Hid) cluster_access
    (schemasForSubject_result _ _) ltac:(intros name s' Hs'; by exists name) Hcan)
    as [(s' & Hs' & Hall)|[Hall|[Hno|(s' & Hs' & Hns & _)]]].
  all: clear Hcan.
  - rewrite Hs' in Hgr. apply (inj Some) in Hgr. rewrite <- Hgr. exact Hall.
  - exfalso. revert Hall. rewrite <- (access_of_rbac (λ s, s) gmap_cache ∅ caches [] rbs). vm_compute. discriminate.
  - discriminate Hno.
  - exfalso. rewrite Hs' in Hgr. apply (inj Some) in Hgr. revert Hns.
    change (is_namespaces s') with (bool_decide (Group (GR s') = "") && bool_decide (Resource (GR s') = "namespaces")).
    rewrite Hgr. discriminate.
Defined.

(** Alice and carol one after the other, with a change of the schemas. *)
Definition start : Collection :=
  mkCollection _ _ _ no_base cluster ∅ ∅ ∅ ∅ (caches, ∅).
Definition requests : list coll_op :=
  [OpSchemas alice; OpSchemas carol; OpReset {["pod" := pods_schema]}; OpSchemas alice].

Abbreviation looked_up u := (as_AccessFor u (caches, ∅)).1.
Lemma requests_access :
  (λ x, x.1.1) <$> responses requests cluster start = [looked_up alice; looked_up carol; looked_up alice].
Proof. vm_compute. reflexivity. Qed.
Lemma access_ids : ID (looked_up alice) ≠ ID (looked_up carol).
Proof. vm_compute. discriminate. Qed.

Lemma cached_schemas_refine_fresh_witness :
  Forall (λ x, match x.2 with Ok r => fresh_answer no_base x.1.1 x.1.2 r | _ => True end)
         (responses requests cluster start).
Proof.
  apply List.Forall_forall. intros [[access p] [r| |]] Hin%list_elem_of_In; [|done..]. revert Hin.
  apply (cached_schemas_refine_fresh requests start); [reflexivity|]. clear access p r. intros x y Hx Hy.
  apply (list_elem_of_fmap_2 (λ x, x.1.1)) in Hx, Hy. cbv beta in Hx, Hy.
  change (c_schemas start) with cluster in Hx, Hy. rewrite requests_access in Hx, Hy.
  pose proof access_ids as Hne. revert Hx Hy.
  generalize (x.1.1) (y.1.1). clear x y. intros x y Hx Hy Hid.
  rewrite !elem_of_cons, elem_of_nil in Hx, Hy.
  destruct Hx as [->|[->|[->|[]]]]; destruct Hy as [->|[->|[->|[]]]]; congruence.
Defined.

(** Dave may delete namespaces, and nothing else. *)
Definition dave_access : AccessSet :=
  AccessSet_Add empty_AccessSet "delete" (mkGR "" "namespaces") (mkAccess All All).

Lemma namespaces_list_sticks_witness :
  (∀ s', SchemaByID (result dave_access cluster) "namespace" = Some s' → MethodGet ∉ CollectionMethods s') ∧
  ∃ s', SchemaByID (result dave_access (after empty_AccessSet cluster)) "namespace" = Some s' ∧
        MethodGet ∈ CollectionMethods s'.
Proof.
  split.
  - assert (Hm : CollectionMethods <$> SchemaByID (result dave_access cluster) "namespace" = Some [])
      by (vm_compute; reflexivity).
    intros s' Hs'. rewrite Hs' in Hm. apply (inj Some) in Hm. rewrite Hm. apply not_elem_of_nil.
  - apply (namespaces_list_sticks no_base empty_AccessSet dave_access cluster
      (result empty_AccessSet cluster) (after empty_AccessSet cluster) _
      (after dave_access (after empty_AccessSet cluster)) no_base "namespace" namespaces_schema);
      [exact cluster_ids|reflexivity| |reflexivity|apply schemasForSubject_result..].
    split; [reflexivity|]. split; [|reflexivity]. intros v [_ (acc & Hacc)%not_nil_elem].
    apply elem_of_verb_access in Hacc as [(k & _ & Hh) _]. by apply holds_empty in Hh.
Defined.
End SchemasExample.

(** A lookup that gives every user the access set of alice. *)
Module RaceExample.
Import Concrete AccessControl.Example SchemasExample.
Definition alice_set : AccessSet := (as_AccessFor alice (caches, ∅)).1.
#[local] Instance alice_lookup : AccessSetLookup := {|
  as_state := unit;
  as_AccessFor := λ _ st, (alice_set, st);
  as_PurgeUserData := λ _ st, Ok st
|}.
Definition start : Collection := mkCollection _ _ alice_lookup no_base cluster ∅ ∅ ∅ ∅ tt.

(** After all schemas are gone alice is still served her schema of pods. *)
Lemma reset_race_serves_old_witness :
  let l := lookup_Schemas alice start in
  let r := result alice_set cluster in
  let c2 := (finish_Schemas alice (Computed alice_set r) (Reset ∅ l.2)).2 in
  c_schemas c2 = ∅ ∧ (Schemas alice c2).1 = Ok r ∧ is_Some (SchemaByID r "pod").
Proof.
  intros l r c2.
  assert (Hl : lookup_Schemas alice start = (Ok (Computed alice_set r), l.2)).
  { subst l. unfold lookup_Schemas. cbn -[schemasForSubject alice_set result cluster].
    rewrite !lookup_empty. cbn [c_cache c_baseSchema c_schemas with_caches start]. rewrite !lookup_empty.
    by rewrite schemasForSubject_result. }
  destruct (reset_race_serves_old alice alice_set r start l.2 ∅
    ltac:(done) ltac:(intros; cbn; apply lookup_insert_eq) Hl) as (_ & Hnew & Hold).
  split; [exact Hnew|]. split; [exact Hold|]. vm_compute. eexists. reflexivity.
Defined.
End RaceExample.
