(* ===== verification/OpenApi.v ===== *)
(** * OpenAPI models and the names of schemas

    The models of k8s.io/kube-openapi/pkg/util/proto, which the discovery of schemas and their
    definitions read: trees that refer to one another by name; and the names that
    pkg/schema/converter/k8stonorman.go gives to kinds and resources. Paths of the library are a
    parameter. *)
From S2P Require Import Prelude GoLib GoValue KubeTypes QueryParser Schemas.

(** k8s.io/kube-openapi/pkg/util/proto.Path. *)
Class Paths := {
  Path : Type;
  NewPath : string → Path;
  FieldPath : Path → string → Path;
  Path_String : Path → string
}.

(** ** The models of package proto *)
(** An element of the list in an extension: a map[any]any, or anything else. *)
Inductive extension := ExtMap (m : gmap string goval) | ExtOther.
(** [b_Extensions]: the extensions; [None] for a value that is not a list. *)
Record BaseSchema `{Paths} := mkBase {
  b_Description : string;
  b_Extensions : gmap string (option (list extension));
  b_Path : Path
}.
Arguments mkBase {_}.
Inductive Schema `{Paths} :=
  | Array (b : BaseSchema) (SubType : Schema)
  | Map_ (b : BaseSchema) (SubType : Schema)
  | Primitive (b : BaseSchema) (Type_ : string)
  | Kind_ (b : BaseSchema) (Fields : gmap string Schema) (RequiredFields : list string)
  | Reference (b : BaseSchema) (reference : string)
  | Arbitrary (b : BaseSchema).
Arguments Array {_}.
Arguments Map_ {_}.
Arguments Primitive {_}.
Arguments Kind_ {_}.
Arguments Reference {_}.
Arguments Arbitrary {_}.
(** proto.Models. The schema a reference stands for is the model of that name: so it is for
    references of the library, and [mapToKind] makes its own reference that way. *)
Record Models `{Paths} := mkModels { LookupModel : string → option Schema; ListModels : list string }.
Arguments mkModels {_}.

Definition base `{Paths} (t : Schema) : BaseSchema :=
  match t with
  | Array b _ | Map_ b _ | Primitive b _ | Kind_ b _ _ | Reference b _ | Arbitrary b => b
  end.
Definition path_of `{Paths} (t : Schema) : string := Path_String (b_Path (base t)).

Definition type_name `{Paths} (t : Schema) : string :=
  match t with
  | Array _ _ => "*proto.Array" | Map_ _ _ => "*proto.Map" | Primitive _ _ => "*proto.Primitive"
  | Kind_ _ _ _ => "*proto.Kind" | Reference _ _ => "*proto.Ref" | Arbitrary _ => "*proto.Arbitrary"
  end.

(** ** The schema in a CRD

    k8s.io/apiextensions-apiserver/pkg/apis/apiextensions/v1.JSONSchemaProps. [p_Items]: nil, or a schema or a list of schemas; [p_AdditionalProperties]: nil, or a schema
    that may be nil. *)
Inductive JSONSchemaProps := mkProps {
  p_Type : string; p_Description : string;
  p_Properties : gmap string JSONSchemaProps; p_Required : list string;
  p_Items : option (option JSONSchemaProps * list JSONSchemaProps);
  p_AdditionalProperties : option (option JSONSchemaProps) }.

(** ** Names, and the kind of a model

    Names of kinds, groups and versions are ASCII, for which [ToLower] is strings.ToLower. *)
Definition GVKToVersionedSchemaID (gvk : GroupVersionKind) : string :=
  if bool_decide (Group gvk = "") then ToLower ("core." +:+ Version gvk +:+ "." +:+ Kind gvk)
  else ToLower (Group gvk +:+ "." +:+ Version gvk +:+ "." +:+ Kind gvk).

Definition gvrToPluralName (gvr : GVR) : string :=
  if bool_decide (gvr_Group gvr = "") then "core." +:+ gvr_Version gvr +:+ "." +:+ gvr_Resource gvr
  else gvr_Group gvr +:+ "." +:+ gvr_Version gvr +:+ "." +:+ gvr_Resource gvr.

Definition GVKToSchemaID (gvk : GroupVersionKind) : string :=
  if bool_decide (Group gvk = "") then ToLower (Kind gvk)
  else ToLower (Group gvk +:+ "." +:+ Kind gvk).

Definition GVRToPluralName (gvr : GVR) : string :=
  if bool_decide (gvr_Group gvr = "") then gvr_Resource gvr
  else gvr_Group gvr +:+ "." +:+ gvr_Resource gvr.

Definition gvkExtensionName : string := "x-kubernetes-group-version-kind".

(** github.com/rancher/norman/types/convert.ToString, [None] for nil. *)
Class Convert := { convert_ToString : option goval → string }.

(** The first element that is a map gives the kind. *)
Fixpoint first_gvk `{Convert} (extensions : list extension) : option GroupVersionKind :=
  match extensions with
  | [] => None
  | ExtMap m :: _ => Some (mkGVK (convert_ToString (m !! "group")) (convert_ToString (m !! "version"))
      (convert_ToString (m !! "kind")))
  | ExtOther :: extensions => first_gvk extensions
  end.
Definition GetGVKForProtoSchema `{Paths, Convert} (protoSchema : Schema) : option GroupVersionKind :=
  match b_Extensions (base protoSchema) !! gvkExtensionName with
  | Some (Some extensions) => first_gvk extensions
  | _ => None
  end.

