(* ===== verification/Definitions.v ===== *)
(** * Definitions of schemas

    pkg/schema/definitions: what the fields of a resource are, from the OpenAPI models of the
    API server (converter.go, visitor.go), from its CRD, and from both ([buildSchemaDefinitionForModel]
    of handler.go); the cache of models, its refresh and the handler of requests.

    A field of Go's map type [map[string]definitionField] that is
    nil is an empty map: [Merge] makes the map where it would write to nil. *)
From S2P Require Import Prelude GoLib GoValue KubeTypes OpenApi.

(** ** Definitions *)
Record definitionField := mkField {
  f_Type : string; f_SubType : string; f_Description : string; f_Required : bool }.
Record definition := mkDefinition {
  ResourceFields : gmap string definitionField; d_Type : string; d_Description : string }.
Record schemaDefinition := mkSchemaDefinition {
  DefinitionType : string; Definitions : gmap string definition }.

Definition with_description (d : string) (f : definitionField) : definitionField :=
  mkField (f_Type f) (f_SubType f) d (f_Required f).
Definition with_required (r : bool) (f : definitionField) : definitionField :=
  mkField (f_Type f) (f_SubType f) (f_Description f) r.

(** The zero value of a definition. *)
Definition no_definition : definition := mkDefinition ∅ "" "".

(** [Merge]: what it makes of [s]. *)
Definition merge_definition (mergedDef value : definition) : definition :=
  mkDefinition (ResourceFields value ∪ ResourceFields mergedDef) (d_Type value) (d_Description value).
Definition Merge (s schema : schemaDefinition) : outcome string schemaDefinition :=
  if bool_decide (DefinitionType s ≠ DefinitionType schema) then
    Err ("invalid definition type: " +:+ DefinitionType s +:+ " != " +:+ DefinitionType schema)
  else Ok (mkSchemaDefinition (DefinitionType s)
    (map_imap (λ key value, Some (merge_definition (default no_definition (Definitions s !! key)) value))
       (Definitions schema) ∪ Definitions s)).

Definition getPrimitiveType (typ : string) : string :=
  if bool_decide (typ = "integer" ∨ typ = "number") then "int" else typ.

(** ** The visitor of models *)
Record schemaFieldVisitor := mkVisitor {
  v_field : definitionField; v_definitions : gmap string definition }.

Section visitor.
Context `{MapRange, Paths} (models : Models).
Abbreviation visit := (schemaFieldVisitor → option schemaFieldVisitor).

Section methods.
Context (Accept : Schema → visit).

Definition VisitArray (b : BaseSchema) (SubType : Schema) : visit := λ s,
  s ← Accept SubType s;
  Some (mkVisitor (mkField "array" (f_Type (v_field s)) (b_Description b) false) (v_definitions s)).

Definition VisitMap (b : BaseSchema) (SubType : Schema) : visit := λ s,
  s ← Accept SubType s;
  Some (mkVisitor (mkField "map" (f_Type (v_field s)) (b_Description b) false) (v_definitions s)).

Definition VisitPrimitive (b : BaseSchema) (Type_ : string) : visit := λ s,
  Some (mkVisitor (mkField (getPrimitiveType Type_) "" (b_Description b) false) (v_definitions s)).

Definition VisitArbitrary (b : BaseSchema) : visit := λ s,
  Some (mkVisitor (mkField "string" "" (b_Description b) false) (v_definitions s)).

Definition VisitReference (b : BaseSchema) (reference : string) : visit := λ s,
  match LookupModel models reference with
  | None => Some (mkVisitor (mkField reference "" (b_Description b) false) (v_definitions s))
  | Some sub =>
      s ← Accept sub s;
      Some (mkVisitor (with_description (b_Description b) (v_field s)) (v_definitions s))
  end.

Fixpoint visit_fields (fields : list (string * Schema)) (s : schemaFieldVisitor)
    (resourceFields : gmap string definitionField)
    : option (schemaFieldVisitor * gmap string definitionField) :=
  match fields with
  | [] => Some (s, resourceFields)
  | (fieldName, schemaField) :: fields =>
      s ← Accept schemaField s;
      visit_fields fields s (<[fieldName := v_field s]> resourceFields)
  end.
Definition set_required (fields : gmap string definitionField) (field : string) : gmap string definitionField :=
  match fields !! field with
  | None => fields
  | Some current => <[field := with_required true current]> fields
  end.
Definition VisitKind (b : BaseSchema) (Fields : gmap string Schema) (RequiredFields : list string) : visit := λ s,
  let path := Path_String (b_Path b) in
  let field := mkField path "" (b_Description b) false in
  if bool_decide (is_Some (v_definitions s !! path)) then Some (mkVisitor field (v_definitions s)) else
  '(s, resourceFields) ← visit_fields (range_map Fields)
    (mkVisitor (v_field s) (<[path := no_definition]> (v_definitions s))) ∅;
  Some (mkVisitor field (<[path := mkDefinition (foldl set_required resourceFields RequiredFields)
    path (b_Description b)]> (v_definitions s))).
End methods.

Fixpoint Accept (fuel : nat) (t : Schema) : visit := λ s,
  match fuel with
  | O => None
  | S fuel =>
      match t with
      | Array b sub => VisitArray (Accept fuel) b sub s
      | Map_ b sub => VisitMap (Accept fuel) b sub s
      | Primitive b typ => VisitPrimitive b typ s
      | Kind_ b fields required => VisitKind (Accept fuel) b fields required s
      | Reference b reference => VisitReference (Accept fuel) b reference s
      | Arbitrary b => VisitArbitrary b s
      end
  end.

Definition objectMetaPath : string := "io.k8s.apimachinery.pkg.apis.meta.v1.ObjectMeta".
Definition apiVersion_description : string := "APIVersion defines the versioned schema of this representation of an object. Servers should convert recognized schemas to the latest internal value, and may reject unrecognized values. More info: https://git.k8s.io/community/contributors/devel/sig-architecture/api-conventions.md#resources".
Definition kind_description : string := "Kind is a string value representing the REST resource this object represents. Servers may infer this from the endpoint the client submits requests to. Cannot be updated. In CamelCase. More info: https://git.k8s.io/community/contributors/devel/sig-architecture/api-conventions.md#types-kinds".
Definition metadata_description : string := "Standard object's metadata. More info: https://git.k8s.io/community/contributors/devel/sig-architecture/api-conventions.md#metadata".

Definition mapToKind (b : BaseSchema) : outcome string Schema :=
  let at_field description name := mkBase description ∅ (FieldPath (b_Path b) name) in
  match LookupModel models objectMetaPath with
  | None => Err ("OpenAPI V2 model " +:+ dq +:+ objectMetaPath +:+ dq +:+ " not found")
  | Some _ => Ok (Kind_ b (list_to_map [
      ("apiVersion", Primitive (at_field apiVersion_description "apiVersion") "string");
      ("kind", Primitive (at_field kind_description "kind") "string");
      ("metadata", Reference (at_field metadata_description "metadata") objectMetaPath)]) [])
  end.

(** The kind that is visited: the first part of [openAPIV2ToDefinition]. *)
Definition top_kind (protoSchema : Schema) (modelName : string) : outcome string Schema :=
  match protoSchema with
  | Map_ b _ => match mapToKind b with
      | Err e => Err ("convert map to kind: " +:+ e) | r => r end
  | Kind_ _ _ _ => Ok protoSchema
  | _ => Err ("model for " +:+ modelName +:+ " was type " +:+ type_name protoSchema +:+
      ", not a *proto.Kind nor *proto.Map")
  end.

Definition openAPIV2ToDefinition (fuel : nat) (protoSchema : Schema) (modelName : string)
    : option (outcome string schemaDefinition) :=
  match top_kind protoSchema modelName with
  | Ok kind =>
      visitor ← Accept fuel kind (mkVisitor (mkField "" "" "" false) ∅);
      Some (Ok (mkSchemaDefinition modelName (v_definitions visitor)))
  | Err e => Some (Err e)
  | Panic => Some Panic
  end.
End visitor.

(** ** CRDs *)
(** A result of a function that may run out of fuel or return an error. *)
Definition fueled (A : Type) : Type := option (outcome string A).
#[export] Instance fueled_ret : MRet fueled := λ A a, Some (Ok a).
#[export] Instance fueled_bind : MBind fueled := λ A B k m,
  match m with None => None | Some (Ok a) => k a | Some (Err e) => Some (Err e) | Some Panic => Some Panic end.

Definition getItemsSchema (props : JSONSchemaProps) : option JSONSchemaProps :=
  match p_Items props with
  | None => None
  | Some (Some schema, _) => Some schema
  | Some (None, schemas) => head schemas
  end.

Section crds.
Context `{MapRange, Paths}.
Abbreviation definitions := (gmap string definition).
Abbreviation conversion := (JSONSchemaProps → Path → definitions → fueled (definitionField * definitions)).

Section methods.
Context (convertJSONSchemaProps : conversion).

Fixpoint convert_properties (requiredSet : list string) (properties : list (string * JSONSchemaProps)) (path : Path)
    (defs : definitions) (fields : gmap string definitionField)
    : fueled (gmap string definitionField * definitions) :=
  match properties with
  | [] => mret (fields, defs)
  | (name, prop) :: properties =>
      '(subField, defs) ← convertJSONSchemaProps prop (FieldPath path name) defs;
      convert_properties requiredSet properties path defs
        (<[name := with_required (bool_decide (name ∈ requiredSet)) subField]> fields)
  end.
Definition convertJSONSchemaPropsObject : conversion := λ props path defs,
  let field := mkField (Path_String path) "" (p_Description props) false in
  if bool_decide (is_Some (defs !! Path_String path)) then mret (field, defs) else
  '(fields, defs) ← convert_properties (p_Required props) (range_map (p_Properties props)) path defs ∅;
  mret (field, <[Path_String path := mkDefinition fields (Path_String path) (p_Description props)]> defs).

Definition convertJSONSchemaPropsPrimitive (props : JSONSchemaProps) : definitionField :=
  mkField (getPrimitiveType (p_Type props)) "" (p_Description props) false.

Definition convertJSONSchemaPropsArray : conversion := λ props path defs,
  match getItemsSchema props with
  | None => Some (Err ("array " +:+ dq +:+ Path_String path +:+ dq +:+ " must have at least one item"))
  | Some item =>
      '(subField, defs) ← convertJSONSchemaProps item path defs;
      mret (mkField "array" (f_Type subField) (p_Description props) false, defs)
  end.

Definition convertJSONSchemaPropsMap : conversion := λ props path defs,
  '(subField, defs) ← match p_AdditionalProperties props with
    | Some (Some schema) => convertJSONSchemaProps schema path defs
    | _ => convertJSONSchemaPropsObject props path defs
    end;
  mret (mkField "map" (f_Type subField) (p_Description props) false, defs).
End methods.

Fixpoint convertJSONSchemaProps (fuel : nat) : conversion := λ props path defs,
  match fuel with
  | O => None
  | S fuel =>
      let convert := convertJSONSchemaProps fuel in
      if bool_decide (p_Type props ≠ "object") && bool_decide (p_Type props ≠ "array") then
        mret (convertJSONSchemaPropsPrimitive props, defs)
      else if bool_decide (p_Type props = "array") then convertJSONSchemaPropsArray convert props path defs
      else if bool_decide (p_Properties props ≠ ∅) then convertJSONSchemaPropsObject convert props path defs
      else convertJSONSchemaPropsMap convert props path defs
  end.

Definition convertJSONSchemaPropsToDefinition (fuel : nat) (props : JSONSchemaProps) (path : Path)
    : fueled definitions :=
  '(_, defs) ← convertJSONSchemaPropsObject (convertJSONSchemaProps fuel) props path ∅;
  mret defs.

Definition crdToDefinition (fuel : nat) (props : JSONSchemaProps) (modelName : string) : fueled schemaDefinition :=
  defs ← convertJSONSchemaPropsToDefinition fuel props (NewPath modelName);
  mret (mkSchemaDefinition modelName defs).
End crds.

(** ** Both *)
Record gvkModel `{Paths} := mkGvkModel { ModelName : string; model_Schema : Schema; CRD : option JSONSchemaProps }.
Arguments mkGvkModel {_}.

(** The copy of a CRD without the fields that every resource has. *)
Definition without_standard_fields (props : JSONSchemaProps) : JSONSchemaProps :=
  mkProps (p_Type props) (p_Description props)
    (delete "metadata" (delete "kind" (delete "apiVersion" (p_Properties props))))
    (p_Required props) (p_Items props) (p_AdditionalProperties props).

Definition prefix_error {A} (text : string) (m : fueled A) : fueled A :=
  match m with Some (Err e) => Some (Err (text +:+ e)) | m => m end.

Definition buildSchemaDefinitionForModel `{MapRange, Paths} (fuel : nat) (models : Models) (gvk : gvkModel)
    : fueled schemaDefinition :=
  definitions ← prefix_error "OpenAPI V2 to definition error: "
    (openAPIV2ToDefinition models fuel (model_Schema gvk) (ModelName gvk));
  match CRD gvk with
  | None => mret definitions
  | Some crd =>
      crdDefinitions ← prefix_error "failed converting CRD to schema definition: "
        (crdToDefinition fuel (without_standard_fields crd) (ModelName gvk));
      prefix_error "merging V2 and CRD definition: " (Some (Merge definitions crdDefinitions))
  end.

(** ** The models of all schemas *)
(** metav1.APIGroup: its name and preferred version; a CustomResourceDefinition, with the
    names of its versions and their schemas: nil, or one whose OpenAPIV3Schema may be nil. *)
Record APIGroup := mkGroup { g_Name : string; g_PreferredVersion : string }.
Record CustomResource := mkCRD {
  c_Group : string; c_Kind : string; c_Versions : list (string * option (option JSONSchemaProps)) }.

Section list_models.
Context `{Paths, Convert}.

Definition preferred_versions (groups : list APIGroup) : gmap string string :=
  foldl (λ versions group, <[g_Name group := g_PreferredVersion group]> versions) ∅ groups.

Definition crds_by_gvk (crds : list CustomResource) : gmap GroupVersionKind (option JSONSchemaProps) :=
  foldl (λ gvkToCRD crd, foldl (λ gvkToCRD version, match version.2 with
      | Some schema => <[mkGVK (c_Group crd) version.1 (c_Kind crd) := schema]> gvkToCRD
      | None => gvkToCRD
      end) gvkToCRD (c_Versions crd)) ∅ crds.

(** One model: a kind or a map that stands for a kind is added unless another version is there
    already and this one is not preferred. *)
Definition add_model (models : Models) (groupToPreferredVersion : gmap string string)
    (gvkToCRD : gmap GroupVersionKind (option JSONSchemaProps))
    (schemaToGVKModel : gmap string gvkModel) (modelName : string) : gmap string gvkModel :=
  match LookupModel models modelName with
  | Some (Map_ _ _ as protoSchema) | Some (Kind_ _ _ _ as protoSchema) =>
      match GetGVKForProtoSchema protoSchema with
      | None => schemaToGVKModel
      | Some gvk =>
          let schemaID := GVKToSchemaID gvk in
          let prefVersion := default "" (groupToPreferredVersion !! Group gvk) in
          if bool_decide (schemaToGVKModel !! schemaID = None) || bool_decide (prefVersion = Version gvk) then
            <[schemaID := mkGvkModel modelName protoSchema (mjoin (gvkToCRD !! gvk))]> schemaToGVKModel
          else schemaToGVKModel
      end
  | _ => schemaToGVKModel
  end.

(** [groups] is the list of groups, empty for nil; [crds] what the cache of CRDs answers. *)
Definition listGVKModels (models : Models) (groups : list APIGroup) (crds : outcome string (list CustomResource))
    : outcome string (gmap string gvkModel) :=
  crds ← crds;
  Ok (foldl (add_model models (preferred_versions groups) (crds_by_gvk crds)) ∅ (ListModels models)).
End list_models.

(** ** Base schemas *)
(** A schema of the server: its fields with type, description and whether they are required. *)
Record base_field := mkBaseField { bf_Type : string; bf_Description : string; bf_Required : bool }.
Record APISchema := mkSchema {
  S_ID : string; S_Description : string; S_ResourceFields : gmap string base_field }.

(** github.com/rancher/wrangler/v3/pkg/schemas/definition. *)
Class FieldTypes := {
  SubType_ : string → string; IsMapType : string → bool; IsArrayType : string → bool; IsReferenceType : string → bool }.

Definition parseFieldType `{FieldTypes} (fieldType : string) : string * string :=
  let subType := SubType_ fieldType in
  if IsMapType fieldType then ("map", subType)
  else if IsArrayType fieldType then ("array", subType)
  else if IsReferenceType fieldType then ("reference", subType)
  else (fieldType, "").

Definition baseSchemaToDefinition `{FieldTypes} (schema : APISchema) : gmap string definition :=
  {[S_ID schema := mkDefinition ((λ field,
      let '(fieldType, subType) := parseFieldType (bf_Type field) in
      mkField fieldType subType (bf_Description field) (bf_Required field)) <$> S_ResourceFields schema)
    (S_ID schema) (S_Description schema)]}.

(** ** The handler *)
(** [gvkModels] and [models], nil before the first refresh; [baseSchema]: the schemas of the server
    by ID (its LookupSchema is a parameter of the library, given here as its map). *)
Record SchemaDefinitionHandler `{Paths} := mkHandler {
  gvkModels : option (gmap string gvkModel);
  handler_models : option Models;
  baseSchema : string → option APISchema
}.
Arguments mkHandler {_}.

(** What the API server and the cache of CRDs answer: the models of the OpenAPI document (an
    error to fetch it, or one to parse it), the groups, the CRDs. *)
Record api_answers `{Paths} := mkAnswers {
  OpenAPISchema : outcome string (outcome string Models);
  ServerGroups : outcome string (list APIGroup);
  crd_List : outcome string (list CustomResource)
}.
Arguments mkAnswers {_}.

Definition wrap_text {A} (text : string) (m : outcome string A) : outcome string A :=
  match m with Err e => Err (text +:+ e) | m => m end.

Definition Refresh `{Paths, Convert} (api : api_answers) (s : SchemaDefinitionHandler)
    : option string * SchemaDefinitionHandler :=
  match (openapi ← wrap_text "unable to fetch openapi v2 definition: " (OpenAPISchema api);
         models ← wrap_text "unable to parse openapi definition into models: " openapi;
         groups ← wrap_text "unable to retrieve groups: " (ServerGroups api);
         gvkModels ← listGVKModels models groups (crd_List api);
         Ok (models, gvkModels)) with
  | Ok (models, gvkModels) => (None, mkHandler (Some gvkModels) (Some models) (baseSchema s))
  | Err e => (Some e, s)
  | Panic => (Some "", s)
  end.

(** validation.ErrorCode: its status and name. *)
Definition internalServerErrorCode : Z * string := (500%Z, "InternalServerError").
Definition notRefreshedErrorCode : Z * string := (503%Z, "SchemasNotRefreshed").

Section handler.
Context `{MapRange, Paths, FieldTypes} (NotFound : Z * string).

(** [LookupSchema]: the schemas of the request. The answer is an error with its code and text, or
    a types.APIObject: its ID, type and object. *)
Definition byIDHandler (fuel : nat) (s : SchemaDefinitionHandler) (LookupSchema : string → option APISchema)
    (request_Name : string) : option (outcome ((Z * string) * string) (string * string * schemaDefinition)) :=
  let answer schemaDef := (request_Name, "schemaDefinition", schemaDef) in
  match LookupSchema request_Name with
  | None => Some (Err (NotFound, "no such schema"))
  | Some requestSchema =>
      match baseSchema s (S_ID requestSchema) with
      | Some _ => Some (Ok (answer (mkSchemaDefinition (S_ID requestSchema) (baseSchemaToDefinition requestSchema))))
      | None =>
          match gvkModels s, handler_models s with
          | Some gvkModels, Some protoModels =>
              match gvkModels !! S_ID requestSchema with
              | None => Some (Err (notRefreshedErrorCode, "no model found for schema, try again after refresh"))
              | Some model =>
                  match buildSchemaDefinitionForModel fuel protoModels model with
                  | Some (Ok schemaDef) => Some (Ok (answer schemaDef))
                  | Some (Err _) => Some (Err (internalServerErrorCode, "failed building schema definition"))
                  | Some Panic => Some Panic
                  | None => None
                  end
              end
          | _, _ => Some (Err (notRefreshedErrorCode, "schema definitions not yet refreshed"))
          end
      end
  end.
End handler.
