(* ===== verification/VisitorSpec.v ===== *)
(** * The visitor of OpenAPI models

    What the definitions of a resource are without a traversal, that the visitor of [Definitions]
    computes exactly them, and that it ends. *)
From S2P Require Import Prelude GoLib GoValue KubeTypes OpenApi Definitions.

(** ** What a definition says, without a traversal *)
Section spec.
Context `{Paths} (models : Models).

(** The field that stands for a schema. *)
Inductive has_field : Schema → definitionField → Prop :=
  | field_array b sub f : has_field sub f →
      has_field (Array b sub) (mkField "array" (f_Type f) (b_Description b) false)
  | field_map b sub f : has_field sub f →
      has_field (Map_ b sub) (mkField "map" (f_Type f) (b_Description b) false)
  | field_primitive b typ :
      has_field (Primitive b typ) (mkField (getPrimitiveType typ) "" (b_Description b) false)
  | field_kind b fields required :
      has_field (Kind_ b fields required) (mkField (Path_String (b_Path b)) "" (b_Description b) false)
  | field_missing b name : LookupModel models name = None →
      has_field (Reference b name) (mkField name "" (b_Description b) false)
  | field_reference b name sub f : LookupModel models name = Some sub → has_field sub f →
      has_field (Reference b name) (with_description (b_Description b) f)
  | field_arbitrary b : has_field (Arbitrary b) (mkField "string" "" (b_Description b) false).

(** The kind that a schema is made of: under arrays, maps and references. *)
Inductive meets : Schema → Schema → Prop :=
  | meets_array b sub k : meets sub k → meets (Array b sub) k
  | meets_map b sub k : meets sub k → meets (Map_ b sub) k
  | meets_kind b fields required : meets (Kind_ b fields required) (Kind_ b fields required)
  | meets_reference b name sub k : LookupModel models name = Some sub → meets sub k → meets (Reference b name) k.

(** The kinds that [root] and its fields are made of, and theirs. *)
Inductive reachable (root : Schema) : Schema → Prop :=
  | reach_now k : meets root k → reachable root k
  | reach_field b fields required name t k : reachable root (Kind_ b fields required) →
      fields !! name = Some t → meets t k → reachable root k.

Definition fields_of (k : Schema) : gmap string Schema :=
  match k with Kind_ _ fields _ => fields | _ => ∅ end.
Definition describes (k : Schema) (d : definition) : Prop :=
  match k with
  | Kind_ b fields required =>
      d_Type d = Path_String (b_Path b) ∧ d_Description d = b_Description b ∧
      ∀ name f, ResourceFields d !! name = Some f ↔
        ∃ t f0, fields !! name = Some t ∧ has_field t f0 ∧ f = with_required (bool_decide (name ∈ required)) f0
  | _ => False
  end.

(** Following references through arrays and maps comes to an end or to a kind. *)
Inductive ends : Schema → Prop :=
  | ends_array b sub : ends sub → ends (Array b sub)
  | ends_map b sub : ends sub → ends (Map_ b sub)
  | ends_primitive b typ : ends (Primitive b typ)
  | ends_kind b fields required : ends (Kind_ b fields required)
  | ends_missing b name : LookupModel models name = None → ends (Reference b name)
  | ends_reference b name sub : LookupModel models name = Some sub → ends sub → ends (Reference b name)
  | ends_arbitrary b : ends (Arbitrary b).

Hint Constructors has_field meets reachable ends : core.

Lemma has_field_fun t f1 f2 : has_field t f1 → has_field t f2 → f1 = f2.
Proof.
  intros H1. revert f2. induction H1 as [| | | | |b name sub f Hsub Hf IH|]; intros f2 H2;
    inversion H2; subst; try congruence; try (by erewrite IHhas_field).
  simplify_eq. by erewrite IH.
Qed.
Lemma has_field_optional t f : has_field t f → f_Required f = false.
Proof. by induction 1. Qed.

Lemma describes_fun k d1 d2 : describes k d1 → describes k d2 → d1 = d2.
Proof.
  destruct k; try done. intros (H1 & H2 & H3) (H1' & H2' & H3').
  destruct d1 as [r1 ? ?], d2 as [r2 ? ?]; cbn in *. subst. f_equal.
  apply map_eq. intros name. apply option_eq. intros f. by rewrite H3, H3'.
Qed.

Lemma all_end : (∀ n t, LookupModel models n = Some t → ends t) → ∀ t, ends t.
Proof.
  intros Hm t. induction t; auto. destruct (LookupModel models reference) as [sub|] eqn:Hr; eauto.
Qed.

(** ** The visitor computes it *)
Context `{MapRange} (root : Schema).
Hypothesis paths_unique : ∀ k k', reachable root k → reachable root k' → path_of k = path_of k' → k = k'.
Definition known (k : Schema) (defs : gmap string definition) : Prop := is_Some (defs !! path_of k).

(** Every definition describes a reachable kind, and the kinds it refers to have one, but for
    those in [open], whose fields are being visited. *)
Definition sound (open : gset string) (defs : gmap string definition) : Prop :=
  ∀ p d, defs !! p = Some d → ∃ k, reachable root k ∧ path_of k = p ∧
    (p ∈ open ∨ describes k d ∧
      ∀ name t k', fields_of k !! name = Some t → meets t k' → known k' defs).
Definition visited (t : Schema) (open : gset string) (defs : gmap string definition) (s : schemaFieldVisitor) : Prop :=
  sound open (v_definitions s) ∧ dom defs ⊆ dom (v_definitions s) ∧ has_field t (v_field s) ∧
  ∀ k, meets t k → known k (v_definitions s).
Definition visits_well (visit : Schema → schemaFieldVisitor → option schemaFieldVisitor) : Prop :=
  ∀ t s s' open, visit t s = Some s' → (∀ k, meets t k → reachable root k) →
    sound open (v_definitions s) → visited t open (v_definitions s) s'.

Lemma known_mono k defs defs' : dom defs ⊆ dom defs' → known k defs → known k defs'.
Proof. unfold known. rewrite <-!elem_of_dom. set_solver. Qed.

Lemma set_required_lookup l fields name :
  foldl set_required fields l !! name =
  (λ f, if decide (name ∈ l) then with_required true f else f) <$> fields !! name.
Proof.
  revert fields. induction l as [|n l IH]; intros fields; cbn.
  { by destruct (fields !! name). }
  rewrite IH. unfold set_required. destruct (decide (name = n)) as [->|Hn].
  - destruct (fields !! n) as [f|] eqn:Hf; rewrite ?lookup_insert_eq, ?Hf; cbn; [|done].
    rewrite (decide_True (P := n ∈ n :: l)) by set_solver. by destruct (decide (n ∈ l)).
  - assert (Hl : (if decide (name ∈ l) then true else false) = if decide (name ∈ n :: l) then true else false).
    { destruct (decide (name ∈ l)), (decide (name ∈ n :: l)); set_solver. }
    destruct (fields !! n) as [f|]; rewrite ?lookup_insert_ne by done; (destruct (fields !! name); cbn; [|done]);
      by destruct (decide (name ∈ l)), (decide (name ∈ n :: l)).
Qed.

Lemma visit_fields_spec visit open fields s rf s' rf' :
  visits_well visit → NoDup fields.*1 →
  (∀ name t k, (name, t) ∈ fields → meets t k → reachable root k) →
  visit_fields visit fields s rf = Some (s', rf') → sound open (v_definitions s) →
  sound open (v_definitions s') ∧ dom (v_definitions s) ⊆ dom (v_definitions s') ∧
  (∀ name t k, (name, t) ∈ fields → meets t k → known k (v_definitions s')) ∧
  ∀ name f, rf' !! name = Some f ↔
    (∃ t, (name, t) ∈ fields ∧ has_field t f) ∨ ((name ∉ fields.*1) ∧ rf !! name = Some f).
Proof.
  intros Hv. revert s rf. induction fields as [|[n t] fields IH]; cbn; intros s rf Hnd Hr.
  { intros [= <- <-] Hs. split_and!; [done..|set_solver|set_solver]. }
  apply list.NoDup_cons in Hnd as [Hn Hnd].
  destruct (visit t s) as [s1|] eqn:Ht; [|done]. cbn. intros Hf Hs.
  destruct (Hv _ _ _ open Ht) as (Hs1 & Hd1 & Hf1 & Hk1); [intros k; apply (Hr n); set_solver|done|].
  apply IH in Hf as (Hs2 & Hd2 & Hk2 & Hrf); [|done|intros m u k Hin; apply (Hr m); by right|done].
  split_and!; [done|set_solver| |].
  - intros name u k [[= -> ->]|Hin]%elem_of_cons Hm; [|by eapply Hk2]. eapply known_mono; eauto.
  - intros name f. rewrite Hrf. destruct (decide (name = n)) as [->|Hne].
    + rewrite lookup_insert_eq. split.
      * intros [(u & Hu & Hfu)|[_ [= <-]]]; left; [exists u|exists t]; set_solver.
      * intros [(u & [[= <-]|Hu]%elem_of_cons & Hfu)|[Hnot _]].
        -- right. split; [done|]. by rewrite (has_field_fun _ _ _ Hf1 Hfu).
        -- destruct Hn. apply list_elem_of_fmap. by exists (n, u).
        -- set_solver.
    + rewrite lookup_insert_ne by done. set_unfold. naive_solver.
Qed.

Lemma VisitKind_spec visit b fields required :
  visits_well visit → ∀ s s' open, VisitKind visit b fields required s = Some s' →
  reachable root (Kind_ b fields required) → sound open (v_definitions s) →
  visited (Kind_ b fields required) open (v_definitions s) s'.
Proof.
  intros Hv s s' open Hs' Hr Hs. unfold VisitKind in Hs'. set (p := Path_String (b_Path b)) in *.
  case_bool_decide as Hp.
  { simplify_eq. split_and!; [done..|by constructor|]. intros k Hk. inversion Hk; subst. done. }
  destruct (visit_fields _ _ _ _) as [[s1 rf]|] eqn:Hf; [|done]. cbn in Hs'. simplify_eq.
  eapply (visit_fields_spec _ ({[p]} ∪ open)) in Hf as (Hs1 & Hd1 & Hk1 & Hrf); [|done|auto with steve| |].
  2: { intros name t k Hin%elem_of_range_map. by eapply reach_field. }
  2: { cbn. intros q d. destruct (decide (q = p)) as [->|Hne].
       - rewrite lookup_insert_eq. intros _. exists (Kind_ b fields required). split_and!; [done..|]. set_solver.
       - rewrite lookup_insert_ne by done. intros (k & ? & ? & [?|[? Hkn]])%Hs; exists k; (split_and!; [done..|]);
           [left; set_solver|].
         right. split; [done|]. intros name t k' Ht Hm. eapply known_mono; [|by eapply Hkn]. set_solver. }
  cbn in Hd1. split_and!; cbn; [|set_solver|by constructor|].
  - intros q d. destruct (decide (q = p)) as [->|Hne].
    + rewrite lookup_insert_eq. intros [= <-]. exists (Kind_ b fields required). split_and!; [done..|].
      right. split.
      * split_and!; [done..|]. cbn. intros name f. rewrite set_required_lookup. split.
        -- intros (f0 & [(t & Hin%elem_of_range_map & Hf0)|[_ Hno]]%Hrf & ->)%fmap_Some; [|by rewrite lookup_empty in Hno].
           exists t, f0. split_and!; [done..|]. apply has_field_optional in Hf0 as Ho. destruct f0; cbn in Ho; subst.
           case_bool_decide; case_decide; done.
        -- intros (t & f0 & Hin%elem_of_range_map & Hf0 & ->). apply fmap_Some. exists f0. split.
           ++ apply Hrf. eauto.
           ++ apply has_field_optional in Hf0 as Ho. destruct f0; cbn in Ho; subst. case_bool_decide; case_decide; done.
      * cbn. intros name t k' Hin%elem_of_range_map Hm. eapply known_mono; [|by eapply Hk1]. set_solver.
    + rewrite lookup_insert_ne by done. intros (k & ? & <- & [?|[? Hkn]])%Hs1; exists k; (split_and!; [done..|]);
        [left; set_solver|].
      right. split; [done|]. intros name t k' Ht Hm. eapply known_mono; [|by eapply Hkn]. set_solver.
  - intros k Hk. inversion Hk; subst. unfold known. cbn. rewrite lookup_insert_eq. eauto.
Qed.

Lemma Accept_spec fuel : visits_well (Accept models fuel).
Proof.
  induction fuel as [|fuel IH]; intros t s s' open Hs' Hr Hs; [done|]. cbn in Hs'.
  destruct t as [b sub|b sub|b typ|b fields required|b name|b].
  - unfold VisitArray in Hs'. destruct (Accept _ _ _ _) as [s1|] eqn:Ht; [|done]. cbn in Hs'. simplify_eq.
    destruct (IH _ _ _ open Ht) as (? & ? & ? & Hk); [by eauto|done|].
    split_and!; [done..|by constructor|]. intros k Hk'. inversion Hk'; subst. by apply Hk.
  - unfold VisitMap in Hs'. destruct (Accept _ _ _ _) as [s1|] eqn:Ht; [|done]. cbn in Hs'. simplify_eq.
    destruct (IH _ _ _ open Ht) as (? & ? & ? & Hk); [by eauto|done|].
    split_and!; [done..|by constructor|]. intros k Hk'. inversion Hk'; subst. by apply Hk.
  - unfold VisitPrimitive in Hs'. simplify_eq. split_and!; [done..|by constructor|]. intros k Hk. inversion Hk.
  - eapply VisitKind_spec; eauto.
  - unfold VisitReference in Hs'. destruct (LookupModel models name) as [sub|] eqn:Hn.
    + destruct (Accept _ _ _ _) as [s1|] eqn:Ht; [|done]. cbn in Hs'. simplify_eq.
      destruct (IH _ _ _ open Ht) as (? & ? & ? & Hk); [by eauto|done|].
      split_and!; [done..|by eapply field_reference|]. intros k Hk'. inversion Hk'; subst. apply Hk. by simplify_eq.
    + simplify_eq. split_and!; [done..|by constructor|]. intros k Hk. inversion Hk; subst. congruence.
  - unfold VisitArbitrary in Hs'. simplify_eq. split_and!; [done..|by constructor|]. intros k Hk. inversion Hk.
Qed.

Lemma Accept_exact fuel s p d :
  Accept models fuel root (mkVisitor (mkField "" "" "" false) ∅) = Some s →
  v_definitions s !! p = Some d ↔ ∃ k, reachable root k ∧ path_of k = p ∧ describes k d.
Proof.
  intros Hs. destruct (Accept_spec _ _ _ _ ∅ Hs) as (Hsound & _ & _ & Hk); [auto|by intros ??|].
  assert (Hall : ∀ k, reachable root k → known k (v_definitions s)).
  { induction 1 as [k Hm|b fields required name t k Hr [d' Hd'] Ht Hm]; [by apply Hk|].
    destruct (Hsound _ _ Hd') as (k' & Hr' & Hp & [?|[_ Hkn]]); [set_solver|].
    apply paths_unique in Hp as ->; [|done..]. by eapply Hkn. }
  split.
  - intros (k & ? & ? & [?|[? _]])%Hsound; [set_solver|eauto].
  - intros (k & Hr & <- & Hd). destruct (Hall k Hr) as [d' Hd']. rewrite Hd'. f_equal.
    destruct (Hsound _ _ Hd') as (k' & Hr' & Hp & [?|[Hd2 _]]); [set_solver|].
    apply paths_unique in Hp as ->; [|done..]. by eapply describes_fun.
Qed.
End spec.

(** ** The visitor comes to an end *)
Section termination.
Context `{Paths} (models : Models).

(** The kinds in a tree, itself included, without following references. *)
Fixpoint kinds (t : Schema) : list Schema :=
  match t with
  | Array _ sub | Map_ _ sub => kinds sub
  | Kind_ _ fields _ => t :: map_fold (λ _ u acc, kinds u ++ acc) [] fields
  | _ => []
  end.
Fixpoint schema_size (t : Schema) : nat :=
  match t with
  | Array _ sub | Map_ _ sub => S (schema_size sub)
  | Kind_ _ fields _ => S (map_fold (λ _ u acc, schema_size u + acc) 0 fields)
  | _ => 1
  end.

Lemma kinds_field (fields : gmap string Schema) k : k ∈ map_fold (λ _ u acc, kinds u ++ acc) [] fields ↔
  ∃ name u, fields !! name = Some u ∧ k ∈ kinds u.
Proof.
  apply (map_fold_weak_ind (λ r m, k ∈ r ↔ ∃ name u, m !! name = Some u ∧ k ∈ kinds u)).
  - set_solver.
  - intros name u m r Hn IH. rewrite elem_of_app, IH. split.
    + intros [Hk|(n' & u' & Hu' & Hk)].
      * exists name, u. by rewrite lookup_insert_eq.
      * exists n', u'. rewrite lookup_insert_ne by congruence. done.
    + intros (n' & u' & Hu' & Hk). destruct (decide (n' = name)) as [->|Hne].
      * rewrite lookup_insert_eq in Hu'. simplify_eq. by left.
      * rewrite lookup_insert_ne in Hu' by done. eauto.
Qed.
Lemma schema_size_field (fields : gmap string Schema) name u : fields !! name = Some u →
  schema_size u ≤ map_fold (λ _ u acc, schema_size u + acc) 0 fields.
Proof.
  intros Hu. rewrite <-(insert_delete_id fields name u Hu).
  rewrite map_fold_insert_L; [lia|intros; lia|apply lookup_delete_eq].
Qed.

Lemma kinds_trans t b fields required name u k :
  Kind_ b fields required ∈ kinds t → fields !! name = Some u → k ∈ kinds u → k ∈ kinds t.
Proof.
  induction t as [t IH] using (induction_ltof1 _ schema_size). unfold ltof in IH.
  destruct t as [b' sub|b' sub|b' typ|b' fields' required'|b' r|b']; cbn [kinds]; intros Ht Hu Hk;
    try (by apply (IH sub); [cbn; lia|..]); try set_solver.
  apply elem_of_cons in Ht as [[= -> -> ->]|Ht]; apply elem_of_cons; right; apply kinds_field; [by exists name, u|].
  apply kinds_field in Ht as (n' & u' & Hu' & Ht). exists n', u'. split; [done|].
  apply (IH u'); [|done..]. cbn. apply schema_size_field in Hu'. lia.
Qed.

Context (all_listed : ∀ name t, LookupModel models name = Some t → name ∈ ListModels models).

(** The kinds of the models and of [root]: every kind that is reachable. *)
Definition all_kinds (root : Schema) : list Schema :=
  kinds root ++ (ListModels models ≫= λ name, from_option kinds [] (LookupModel models name)).

Lemma meets_kinds root t k : (∀ k, k ∈ kinds t → k ∈ all_kinds root) → meets models t k → k ∈ all_kinds root.
Proof.
  intros Ht Hm. induction Hm as [b sub k Hm IH|b sub k Hm IH|b fields required|b name sub k Hs Hm IH].
  - by apply IH.
  - by apply IH.
  - apply Ht. by left.
  - apply IH. intros k' Hk'. unfold all_kinds. apply elem_of_app. right. apply list_elem_of_bind.
    exists name. rewrite Hs. split; [done|by eapply all_listed].
Qed.
Lemma in_all_kinds root b fields required name u k : Kind_ b fields required ∈ all_kinds root →
  fields !! name = Some u → k ∈ kinds u → k ∈ all_kinds root.
Proof.
  unfold all_kinds. rewrite !elem_of_app, !list_elem_of_bind. intros [Hk|(n' & Hk & Hn')] Hu Hk'.
  - left. by eapply kinds_trans.
  - right. exists n'. split; [|done]. destruct (LookupModel models n'); [|set_solver]. cbn in *.
    by eapply kinds_trans.
Qed.
Lemma reachable_kinds root k : reachable models root k → k ∈ all_kinds root.
Proof.
  induction 1 as [k Hm|b fields required name t k Hr IH Ht Hm].
  - apply (meets_kinds root root); [|done]. intros k' Hk'. apply elem_of_app. by left.
  - apply (meets_kinds root t); [|done]. intros k' Hk'. by eapply in_all_kinds.
Qed.

Context (all_models_end : ∀ name t, LookupModel models name = Some t → ends models t).
Context `{MapRange} (root : Schema).
(** The kinds that have no definition yet. *)
Definition unvisited (defs : gmap string definition) : gset string :=
  list_to_set (path_of <$> all_kinds root) ∖ dom defs.

(** A visit with enough fuel ends; what it makes does not depend on the fuel. *)
Definition finishes (t : Schema) (s : schemaFieldVisitor) : Prop :=
  ∃ fuel s', dom (v_definitions s) ⊆ dom (v_definitions s') ∧
    ∀ fuel', fuel ≤ fuel' → Accept models fuel' t s = Some s'.

Lemma visit_fields_finish fields n s rf :
  (∀ name t s, (name, t) ∈ fields → size (unvisited (v_definitions s)) ≤ n → finishes t s) →
  size (unvisited (v_definitions s)) ≤ n →
  ∃ fuel s' rf', dom (v_definitions s) ⊆ dom (v_definitions s') ∧
    ∀ fuel', fuel ≤ fuel' → visit_fields (Accept models fuel') fields s rf = Some (s', rf').
Proof.
  revert s rf. induction fields as [|[name t] fields IH]; intros s rf Hf Hn.
  { exists 0, s, rf. done. }
  destruct (Hf name t s) as (fuel1 & s1 & Hd1 & Hs1); [by left|done|].
  destruct (IH s1 (<[name := v_field s1]> rf)) as (fuel2 & s2 & rf' & Hd2 & Hs2).
  { intros n' t' s' Hin. apply (Hf n'). by right. }
  { etrans; [|done]. apply subseteq_size. unfold unvisited. set_solver. }
  exists (fuel1 `max` fuel2), s2, rf'. split; [set_solver|]. intros fuel' Hle. cbn.
  rewrite Hs1 by lia. cbn. apply Hs2. lia.
Qed.

Lemma VisitKind_finishes b fields required n s :
  (∀ m t s, m < n → (∀ k, meets models t k → reachable models root k) →
    size (unvisited (v_definitions s)) ≤ m → finishes t s) →
  reachable models root (Kind_ b fields required) →
  size (unvisited (v_definitions s)) ≤ n → finishes (Kind_ b fields required) s.
Proof.
  intros IH Hr Hn. set (p := Path_String (b_Path b)).
  destruct (decide (is_Some (v_definitions s !! p))) as [Hp|Hp].
  { exists 1, (mkVisitor (mkField p "" (b_Description b) false) (v_definitions s)). split; [done|].
    intros [|fuel] Hf; [lia|]. cbn. unfold VisitKind. by rewrite bool_decide_eq_true_2. }
  set (s1 := mkVisitor (v_field s) (<[p := no_definition]> (v_definitions s))).
  assert (Hlt : size (unvisited (v_definitions s1)) < n).
  { eapply Nat.lt_le_trans; [|done]. apply subset_size. unfold unvisited. cbn. rewrite dom_insert_L.
    rewrite <-elem_of_dom in Hp. split; [set_solver|]. intros Hsub.
    assert (p ∈ ({[p]} ∪ dom (v_definitions s))) by set_solver.
    assert (Hin : p ∈ list_to_set (C := gset string) (path_of <$> all_kinds root)); [|set_solver].
    apply elem_of_list_to_set, list_elem_of_fmap. exists (Kind_ b fields required).
    split; [done|by apply reachable_kinds]. }
  destruct (visit_fields_finish (range_map fields) (size (unvisited (v_definitions s1))) s1 ∅)
    as (fuel & s2 & rf & Hd & Hs2); [|done|].
  { intros name t s' Hin%elem_of_range_map Hs'. eapply IH; [done|intros k Hm; by eapply reach_field|done]. }
  exists (S fuel), (mkVisitor (mkField p "" (b_Description b) false)
    (<[p := mkDefinition (foldl set_required rf required) p (b_Description b)]> (v_definitions s2))).
  split; [cbn in *; set_solver|]. intros [|fuel'] Hf; [lia|]. cbn. unfold VisitKind.
  rewrite bool_decide_eq_false_2 by done. unfold s1 in Hs2. rewrite Hs2 by lia. done.
Qed.

Lemma finishes_under (f : Schema → Schema) visit t s :
  (∀ fuel s, Accept models (S fuel) (f t) s = s' ← Accept models fuel t s; Some (visit s')) →
  (∀ s, v_definitions (visit s) = v_definitions s) → finishes t s → finishes (f t) s.
Proof.
  intros Hf Hv (fuel & s' & Hd & Hs'). exists (S fuel), (visit s'). rewrite Hv. split; [done|].
  intros [|fuel'] Hle; [lia|]. rewrite Hf, Hs' by lia. done.
Qed.
Lemma finishes_now t s field :
  (∀ fuel, Accept models (S fuel) t s = Some (mkVisitor field (v_definitions s))) → finishes t s.
Proof. intros Hs. exists 1, (mkVisitor field (v_definitions s)). split; [done|]. intros [|fuel] Hle; [lia|done]. Qed.

Lemma Accept_finishes n t s : (∀ k, meets models t k → reachable models root k) →
  size (unvisited (v_definitions s)) ≤ n → finishes t s.
Proof.
  revert t s. induction n as [n IHn] using lt_wf_ind. intros t s.
  induction (all_end models all_models_end t) as
    [b sub He IH|b sub He IH|b typ|b fields required|b name Hn|b name sub Hs He IH|b]; intros Hr Hn'.
  - eapply (finishes_under (Array b)); [done|done|]. apply IH; [|done]. intros k Hm. apply Hr. by constructor.
  - eapply (finishes_under (Map_ b)); [done|done|]. apply IH; [|done]. intros k Hm. apply Hr. by constructor.
  - by eapply finishes_now.
  - eapply VisitKind_finishes; [|apply Hr; constructor|done]. intros m t' s' Hm. by apply IHn.
  - eapply finishes_now. intros fuel. cbn. unfold VisitReference. by rewrite Hn.
  - eapply (finishes_under (λ _, Reference b name) (λ s, mkVisitor (with_description (b_Description b) (v_field s)) (v_definitions s)) sub);
      [intros fuel s'; cbn; unfold VisitReference; by rewrite Hs|done|].
    apply IH; [|done]. intros k Hm. apply Hr. by econstructor.
  - by eapply finishes_now.
Qed.
End termination.
