(* ===== verification/CrdSpec.v ===== *)
(** * The definitions of a CRD

    What the schema of a CRD defines without a traversal, that the conversion of [Definitions]
    computes exactly that, how much fuel it takes and when it fails. *)
From S2P Require Import Prelude GoLib GoValue KubeTypes OpenApi Definitions.

(** ** What a CRD defines *)
Section crd_spec.
Context `{Paths}.

(** An object: it has properties, or no schema for its values. *)
Definition is_object (props : JSONSchemaProps) : Prop :=
  p_Type props = "object" ∧
  (p_Properties props ≠ ∅ ∨ ∀ schema, p_AdditionalProperties props ≠ Some (Some schema)).

Inductive crd_field : Path → JSONSchemaProps → definitionField → Prop :=
  | crd_primitive path props : p_Type props ≠ "object" → p_Type props ≠ "array" →
      crd_field path props (mkField (getPrimitiveType (p_Type props)) "" (p_Description props) false)
  | crd_array path props item f : p_Type props = "array" → getItemsSchema props = Some item →
      crd_field path item f → crd_field path props (mkField "array" (f_Type f) (p_Description props) false)
  | crd_object path props : p_Type props = "object" → p_Properties props ≠ ∅ →
      crd_field path props (mkField (Path_String path) "" (p_Description props) false)
  | crd_values path props schema f : p_Type props = "object" → p_Properties props = ∅ →
      p_AdditionalProperties props = Some (Some schema) → crd_field path schema f →
      crd_field path props (mkField "map" (f_Type f) (p_Description props) false)
  | crd_any path props : p_Type props = "object" → p_Properties props = ∅ →
      (∀ schema, p_AdditionalProperties props ≠ Some (Some schema)) →
      crd_field path props (mkField "map" (Path_String path) (p_Description props) false).

(** [props] at [path] has the object [o] at [p] in it. *)
Inductive holds : Path → JSONSchemaProps → Path → JSONSchemaProps → Prop :=
  | holds_item path props item p o : p_Type props = "array" → getItemsSchema props = Some item →
      holds path item p o → holds path props p o
  | holds_value path props schema p o : p_Type props = "object" → p_Properties props = ∅ →
      p_AdditionalProperties props = Some (Some schema) → holds path schema p o → holds path props p o
  | holds_here path props : is_object props → holds path props path props
  | holds_field path props name prop p o : is_object props → p_Properties props !! name = Some prop →
      holds (FieldPath path name) prop p o → holds path props p o.
(** The same for a whole CRD, which is an object whatever its type. *)
Definition crd_holds (path : Path) (props : JSONSchemaProps) (p : Path) (o : JSONSchemaProps) : Prop :=
  p = path ∧ o = props ∨
  ∃ name prop, p_Properties props !! name = Some prop ∧ holds (FieldPath path name) prop p o.

(** An array without items somewhere in it. *)
Inductive lacks_items : JSONSchemaProps → Prop :=
  | lacks_here props : p_Type props = "array" → getItemsSchema props = None → lacks_items props
  | lacks_item props item : p_Type props = "array" → getItemsSchema props = Some item →
      lacks_items item → lacks_items props
  | lacks_value props schema : p_Type props = "object" → p_Properties props = ∅ →
      p_AdditionalProperties props = Some (Some schema) → lacks_items schema → lacks_items props
  | lacks_field props name prop : p_Type props = "object" → p_Properties props !! name = Some prop →
      lacks_items prop → lacks_items props.

Definition describes_object (p : Path) (o : JSONSchemaProps) (d : definition) : Prop :=
  d_Type d = Path_String p ∧ d_Description d = p_Description o ∧
  ∀ name f, ResourceFields d !! name = Some f ↔ ∃ prop f0, p_Properties o !! name = Some prop ∧
    crd_field (FieldPath p name) prop f0 ∧ f = with_required (bool_decide (name ∈ p_Required o)) f0.

Lemma crd_field_fun path props f1 f2 : crd_field path props f1 → crd_field path props f2 → f1 = f2.
Proof.
  intros Hf1. revert f2. induction Hf1 as [|? ? ? ? ? ? ? IH| |? ? ? ? ? ? ? ? IH|]; intros f2 Hf2;
    inversion Hf2; subst; simplify_eq; try congruence; try (by erewrite IH); naive_solver.
Qed.
Lemma describes_object_fun p o d1 d2 : describes_object p o d1 → describes_object p o d2 → d1 = d2.
Proof.
  intros (H1 & H2 & H3) (H1' & H2' & H3'). destruct d1, d2; cbn in *. subst. f_equal.
  apply map_eq. intros name. apply option_eq. intros f. by rewrite H3, H3'.
Qed.

Context `{MapRange} (top : Path) (crd : JSONSchemaProps).
Hypothesis crd_paths_unique : ∀ p o p' o', crd_holds top crd p o → crd_holds top crd p' o' →
  Path_String p = Path_String p' → p = p' ∧ o = o'.
Definition defined (p : Path) (defs : gmap string definition) : Prop := is_Some (defs !! Path_String p).

(** What is known of the fields of an object with a definition. *)
Definition fields_defined (p : Path) (o : JSONSchemaProps) (defs : gmap string definition) : Prop :=
  ∀ name prop, p_Properties o !! name = Some prop →
    ¬ lacks_items prop ∧ ∀ p' o', holds (FieldPath p name) prop p' o' → defined p' defs.
Definition crd_sound (defs : gmap string definition) : Prop :=
  ∀ q d, defs !! q = Some d → ∃ p o, crd_holds top crd p o ∧ Path_String p = q ∧
    describes_object p o d ∧ fields_defined p o defs.
Definition converted (path : Path) (props : JSONSchemaProps) (defs : gmap string definition)
    (f : definitionField) (defs' : gmap string definition) : Prop :=
  crd_sound defs' ∧ dom defs ⊆ dom defs' ∧ crd_field path props f ∧ ¬ lacks_items props ∧
  ∀ p o, holds path props p o → defined p defs'.
Abbreviation conversion := (JSONSchemaProps → Path → gmap string definition →
  fueled (definitionField * gmap string definition)).
Definition converts_well (convert : conversion) : Prop :=
  ∀ props path defs, crd_sound defs → (∀ p o, holds path props p o → crd_holds top crd p o) →
    match convert props path defs with
    | Some (Ok (f, defs')) => converted path props defs f defs'
    | Some (Err _) => lacks_items props
    | Some Panic => False
    | None => True
    end.

Lemma defined_mono p defs defs' : dom defs ⊆ dom defs' → defined p defs → defined p defs'.
Proof. unfold defined. rewrite <-!elem_of_dom. set_solver. Qed.
Lemma fields_defined_mono p o defs defs' : dom defs ⊆ dom defs' → fields_defined p o defs → fields_defined p o defs'.
Proof.
  intros Hd Hf name prop Hn. destruct (Hf name prop Hn) as [? Hk]. split; [done|].
  intros p' o' Hh. eapply defined_mono; eauto.
Qed.

Lemma convert_properties_spec convert path (required : list string) properties defs fields :
  converts_well convert → NoDup properties.*1 → crd_sound defs →
  (∀ name prop p o, (name, prop) ∈ properties → holds (FieldPath path name) prop p o → crd_holds top crd p o) →
  match convert_properties convert required properties path defs fields with
  | Some (Ok (fields', defs')) => crd_sound defs' ∧ dom defs ⊆ dom defs' ∧
      (∀ name prop, (name, prop) ∈ properties → ¬ lacks_items prop ∧
        ∀ p o, holds (FieldPath path name) prop p o → defined p defs') ∧
      ∀ name f, fields' !! name = Some f ↔
        (∃ prop f0, (name, prop) ∈ properties ∧ crd_field (FieldPath path name) prop f0 ∧
          f = with_required (bool_decide (name ∈ required)) f0) ∨
        ((name ∉ properties.*1) ∧ fields !! name = Some f)
  | Some (Err _) => ∃ name prop, (name, prop) ∈ properties ∧ lacks_items prop
  | Some Panic => False
  | None => True
  end.
Proof.
  intros Hc. revert defs fields. induction properties as [|[n prop] properties IH]; cbn; intros defs fields Hnd Hs Hr.
  { split_and!; [done..|set_solver|set_solver]. }
  apply list.NoDup_cons in Hnd as [Hn Hnd].
  specialize (Hc prop (FieldPath path n) defs Hs). destruct (convert prop (FieldPath path n) defs) as [[[f1 defs1]|e|]|];
    cbn; [|exists n, prop; split; [by left|apply Hc; intros p o; apply Hr; by left]
          |apply Hc; intros p o; apply Hr; by left|done].
  destruct Hc as (Hs1 & Hd1 & Hf1 & Hl1 & Hk1); [intros p o; apply Hr; by left|].
  specialize (IH defs1 (<[n := with_required (bool_decide (n ∈ required)) f1]> fields) Hnd Hs1).
  destruct (convert_properties _ _ _ _ _ _) as [[[fields2 defs2]|e|]|]; [| | |done].
  3: { apply IH. intros m q p o Hin. apply Hr. by right. }
  2: { destruct IH as (m & q & Hin & Hl); [intros m q p o Hin; apply Hr; by right|]. exists m, q. split; [by right|done]. }
  destruct IH as (Hs2 & Hd2 & Hk2 & Hf2); [intros m q p o Hin; apply Hr; by right|].
  split_and!; [done|set_solver| |].
  - intros m q [[= -> ->]|Hin]%elem_of_cons; [|by apply Hk2]. split; [done|]. intros p o Hh.
    eapply defined_mono; eauto.
  - intros name f. rewrite Hf2. destruct (decide (name = n)) as [->|Hne].
    + rewrite lookup_insert_eq. split.
      * intros [(q & f0 & Hq & Hf0)|[_ [= <-]]]; left; [exists q, f0|exists prop, f1]; split; [by right|done|by left|done].
      * intros [(q & f0 & [[= <-]|Hq]%elem_of_cons & Hf0 & ->)|[Hnot _]].
        -- right. split; [done|]. by rewrite (crd_field_fun _ _ _ _ Hf1 Hf0).
        -- destruct Hn. apply list_elem_of_fmap. by exists (n, q).
        -- set_solver.
    + rewrite lookup_insert_ne by done. set_unfold. naive_solver.
Qed.

Lemma object_converted convert path o defs :
  converts_well convert → crd_sound defs → crd_holds top crd path o →
  (∀ name prop p o', p_Properties o !! name = Some prop → holds (FieldPath path name) prop p o' → crd_holds top crd p o') →
  match convertJSONSchemaPropsObject convert o path defs with
  | Some (Ok (f, defs')) => crd_sound defs' ∧ dom defs ⊆ dom defs' ∧ defined path defs' ∧
      f = mkField (Path_String path) "" (p_Description o) false ∧ fields_defined path o defs'
  | Some (Err _) => ∃ name prop, p_Properties o !! name = Some prop ∧ lacks_items prop
  | Some Panic => False
  | None => True
  end.
Proof.
  intros Hc Hs Ho Hr. unfold convertJSONSchemaPropsObject. case_bool_decide as Hp; cbn.
  - split_and!; [done..|]. destruct Hp as [d Hd]. destruct (Hs _ _ Hd) as (p & o' & Ho' & Hp & _ & Hf).
    by destruct (crd_paths_unique _ _ _ _ Ho' Ho Hp) as [-> ->].
  - pose proof (convert_properties_spec convert path (p_Required o) (range_map (p_Properties o)) defs ∅ Hc) as Hps.
    destruct (convert_properties _ _ _ _ _ _) as [[[fields defs1]|e|]|]; cbn; [| | |done].
    3: { apply Hps; [auto with steve|done|]. intros name prop p o' Hin%elem_of_range_map. by apply Hr. }
    2: { destruct Hps as (name & prop & Hin%elem_of_range_map & Hl); [auto with steve|done| |by eauto].
         intros name prop p o' Hin%elem_of_range_map. by apply Hr. }
    destruct Hps as (Hs1 & Hd1 & Hk1 & Hf1); [auto with steve|done| |].
    { intros name prop p o' Hin%elem_of_range_map. by apply Hr. }
    assert (Hfields : fields_defined path o defs1).
    { intros name prop Hn. apply Hk1. by apply elem_of_range_map. }
    assert (Hd2 : ∀ d : definition, dom defs1 ⊆ dom (<[Path_String path := d]> defs1)) by set_solver.
    split_and!; [|set_solver| |done|eauto using fields_defined_mono].
    + intros q d. destruct (decide (q = Path_String path)) as [->|Hne].
      * rewrite lookup_insert_eq. intros [= <-]. exists path, o. split_and!; [done..| |eauto using fields_defined_mono].
        split_and!; [done..|]. cbn. intros name f. rewrite Hf1, lookup_empty. split.
        -- intros [(prop & f0 & Hin%elem_of_range_map & ?)|[_ [=]]]. eauto.
        -- intros (prop & f0 & Hin%elem_of_range_map & ?). left. eauto.
      * rewrite lookup_insert_ne by done. intros (p & o' & ? & ? & ? & ?)%Hs1. exists p, o'. split_and!; [done..|].
        eauto using fields_defined_mono.
    + unfold defined. by rewrite lookup_insert_eq.
Qed.

Lemma holds_object path props p o : is_object props →
  holds path props p o ↔ p = path ∧ o = props ∨
    ∃ name prop, p_Properties props !! name = Some prop ∧ holds (FieldPath path name) prop p o.
Proof.
  intros [Ht Ho]. split.
  - intros Hh. inversion Hh; subst; simplify_eq; try congruence; eauto.
    exfalso. destruct Ho as [?|Hn]; [done|by eapply Hn].
  - intros [[-> ->]|(name & prop & Hn & Hh)]; [by apply holds_here|by eapply holds_field].
Qed.
Lemma lacks_object props : is_object props → lacks_items props →
  ∃ name prop, p_Properties props !! name = Some prop ∧ lacks_items prop.
Proof.
  intros [Ht Ho] Hl. inversion Hl; subst; simplify_eq; try congruence; eauto.
  exfalso. destruct Ho as [?|Hn]; [done|by eapply Hn].
Qed.
Lemma fields_hold path props defs : is_object props → fields_defined path props defs → defined path defs →
  ¬ lacks_items props ∧ ∀ p o, holds path props p o → defined p defs.
Proof.
  intros Ho Hf Hd. split.
  - intros (name & prop & Hn & Hl)%lacks_object; [|done]. by destruct (Hf name prop Hn).
  - intros p o [[-> ->]|(name & prop & Hn & Hh)]%holds_object; [done| |done].
    destruct (Hf name prop Hn) as [_ Hk]. by eapply Hk.
Qed.

(** An object that is met as a field. *)
Lemma object_field convert props path defs : converts_well convert → crd_sound defs → is_object props →
  (∀ p o, holds path props p o → crd_holds top crd p o) →
  match convertJSONSchemaPropsObject convert props path defs with
  | Some (Ok (f, defs')) => f = mkField (Path_String path) "" (p_Description props) false ∧
      crd_sound defs' ∧ dom defs ⊆ dom defs' ∧ ¬ lacks_items props ∧ ∀ p o, holds path props p o → defined p defs'
  | Some (Err _) => lacks_items props
  | Some Panic => False
  | None => True
  end.
Proof.
  intros Hc Hs Ho Hr. pose proof (object_converted convert path props defs Hc Hs) as Hx.
  destruct (convertJSONSchemaPropsObject _ _ _ _) as [[[f defs']|e|]|]; [| | |done].
  - destruct Hx as (? & ? & ? & -> & Hf); [apply Hr; by apply holds_here| |].
    { intros name prop p o' Hn Hh. apply Hr. by eapply holds_field. }
    destruct (fields_hold path props defs' Ho) as [? ?]; [done..|]. done.
  - destruct Hx as (name & prop & Hn & Hl); [apply Hr; by apply holds_here| |].
    { intros name prop p o' Hn Hh. apply Hr. by eapply holds_field. }
    eapply lacks_field; [apply Ho|done..].
  - apply Hx; [apply Hr; by apply holds_here|]. intros name prop p o' Hn Hh. apply Hr. by eapply holds_field.
Qed.

Ltac invert_crd H := inversion H; subst; unfold is_object in *; destruct_and?; simplify_map_eq; try congruence; eauto;
  exfalso; match goal with
    | Ho : _ ∨ _ |- _ => destruct Ho as [?|Hno]; [done|by eapply Hno]
    | Hp : p_Properties ?x = ∅, Hl : p_Properties ?x !! _ = Some _ |- _ => by rewrite Hp in Hl
    | _ => by eauto
    end.
Lemma holds_values path props schema p o : p_Type props = "object" → p_Properties props = ∅ →
  p_AdditionalProperties props = Some (Some schema) → holds path props p o → holds path schema p o.
Proof. intros Ht Hp Ha Hh. invert_crd Hh. Qed.
Lemma lacks_values props schema : p_Type props = "object" → p_Properties props = ∅ →
  p_AdditionalProperties props = Some (Some schema) → lacks_items props → lacks_items schema.
Proof. intros Ht Hp Ha Hl. invert_crd Hl. Qed.
Lemma holds_items path props item p o : p_Type props = "array" → getItemsSchema props = Some item →
  holds path props p o → holds path item p o.
Proof. intros Ht Hp Hh. invert_crd Hh. Qed.
Lemma lacks_of_items props item : p_Type props = "array" → getItemsSchema props = Some item →
  lacks_items props → lacks_items item.
Proof. intros Ht Hp Hl. invert_crd Hl. Qed.
Lemma nothing_held path props p o : p_Type props ≠ "object" → p_Type props ≠ "array" → ¬ holds path props p o.
Proof. intros Ho Ha Hh. invert_crd Hh. Qed.
Lemma nothing_lacked props : p_Type props ≠ "object" → p_Type props ≠ "array" → ¬ lacks_items props.
Proof. intros Ho Ha Hl. invert_crd Hl. Qed.

Lemma array_well convert props path defs : converts_well convert → p_Type props = "array" → crd_sound defs →
  (∀ p o, holds path props p o → crd_holds top crd p o) →
  match convertJSONSchemaPropsArray convert props path defs with
  | Some (Ok (f, defs')) => converted path props defs f defs'
  | Some (Err _) => lacks_items props
  | Some Panic => False
  | None => True
  end.
Proof.
  intros Hc Ht Hs Hr. unfold convertJSONSchemaPropsArray. destruct (getItemsSchema props) as [item|] eqn:Hi.
  2: { by apply lacks_here. }
  specialize (Hc item path defs Hs). destruct (convert item path defs) as [[[f defs']|e|]|]; cbn; [| | |done].
  - destruct Hc as (? & ? & ? & ? & Hk); [intros p o Hh; apply Hr; by eapply holds_item|].
    split_and!; [done..|by eapply crd_array| |].
    + by intros Hl%(lacks_of_items _ item).
    + intros p o Hh%(holds_items _ _ item); [|done..]. by eapply Hk.
  - eapply lacks_item; [done..|]. apply Hc. intros p o Hh. apply Hr. by eapply holds_item.
  - apply Hc. intros p o Hh. apply Hr. by eapply holds_item.
Qed.

Lemma map_well convert props path defs : converts_well convert → p_Type props = "object" →
  p_Properties props = ∅ → crd_sound defs → (∀ p o, holds path props p o → crd_holds top crd p o) →
  match convertJSONSchemaPropsMap convert props path defs with
  | Some (Ok (f, defs')) => converted path props defs f defs'
  | Some (Err _) => lacks_items props
  | Some Panic => False
  | None => True
  end.
Proof.
  intros Hc Ht Hp Hs Hr. unfold convertJSONSchemaPropsMap.
  assert (Hcases : (∃ schema, p_AdditionalProperties props = Some (Some schema)) ∨
    ∀ schema, p_AdditionalProperties props ≠ Some (Some schema)).
  { destruct (p_AdditionalProperties props) as [[schema|]|]; [left; eauto|by right..]. }
  destruct Hcases as [[schema Ha]|Ha].
  - rewrite Ha. specialize (Hc schema path defs Hs). destruct (convert schema path defs) as [[[f defs']|e|]|]; cbn; [| | |done].
    + destruct Hc as (? & ? & ? & ? & Hk); [intros p o Hh; apply Hr; by eapply holds_value|].
      split_and!; [done..|by eapply crd_values| |].
      * by intros Hl%(lacks_values _ schema).
      * intros p o Hh%(holds_values _ _ schema); [|done..]. by eapply Hk.
    + eapply lacks_value; [done..|]. apply Hc. intros p o Hh. apply Hr. by eapply holds_value.
    + apply Hc. intros p o Hh. apply Hr. by eapply holds_value.
  - assert (Ho : is_object props) by (split; [done|by right]).
    assert (Hplain : (match p_AdditionalProperties props with
      | Some (Some schema) => convert schema path defs
      | _ => convertJSONSchemaPropsObject convert props path defs
      end) = convertJSONSchemaPropsObject convert props path defs).
    { destruct (p_AdditionalProperties props) as [[schema|]|]; [|done..]. by destruct (Ha schema). }
    rewrite Hplain. pose proof (object_field convert props path defs Hc Hs Ho Hr) as Hx.
    destruct (convertJSONSchemaPropsObject _ _ _ _) as [[[f defs']|e|]|]; cbn; [|done..].
    destruct Hx as (-> & ? & ? & ? & ?). split_and!; [done..|by apply crd_any|done|done].
Qed.

Lemma convert_well fuel : converts_well (convertJSONSchemaProps fuel).
Proof.
  induction fuel as [|fuel IH]; intros props path defs Hs Hr; [done|]. cbn [convertJSONSchemaProps].
  destruct (decide (p_Type props = "object")) as [Ho|Ho]; [|destruct (decide (p_Type props = "array")) as [Ha|Ha]].
  - rewrite (bool_decide_eq_false_2 (p_Type props ≠ "object")) by naive_solver.
    rewrite (bool_decide_eq_false_2 (p_Type props = "array")) by congruence. cbn.
    destruct (decide (p_Properties props = ∅)) as [Hp|Hp].
    { rewrite bool_decide_eq_false_2 by naive_solver. by apply map_well. }
    rewrite bool_decide_eq_true_2 by done.
    pose proof (object_field _ props path defs IH Hs) as Hx.
    destruct (convertJSONSchemaPropsObject _ _ _ _) as [[[f defs']|e|]|]; cbn; [| | |done].
    + destruct Hx as (-> & ? & ? & ? & ?); [by split; [|left]|done|]. split_and!; [done..|by apply crd_object|done|done].
    + apply Hx; [by split; [|left]|done].
    + apply Hx; [by split; [|left]|done].
  - rewrite (bool_decide_eq_false_2 (p_Type props ≠ "array")) by naive_solver.
    rewrite (bool_decide_eq_true_2 (p_Type props = "array")) by done. rewrite andb_false_r. by apply array_well.
  - rewrite !bool_decide_eq_true_2 by done. cbn. split_and!; [done|done|by apply crd_primitive|by apply nothing_lacked|].
    intros p o Hh. by destruct (nothing_held path props p o).
Qed.

(** The definitions of a CRD: those of its objects. There is an error exactly when an array
    lacks items. *)
Lemma crd_exact fuel :
  match convertJSONSchemaPropsToDefinition fuel crd top with
  | Some (Ok defs) => (∀ name prop, p_Properties crd !! name = Some prop → ¬ lacks_items prop) ∧
      ∀ q d, defs !! q = Some d ↔ ∃ p o, crd_holds top crd p o ∧ Path_String p = q ∧ describes_object p o d
  | Some (Err _) => ∃ name prop, p_Properties crd !! name = Some prop ∧ lacks_items prop
  | Some Panic => False
  | None => True
  end.
Proof.
  unfold convertJSONSchemaPropsToDefinition.
  pose proof (object_converted _ top crd ∅ (convert_well fuel)) as Hx.
  destruct (convertJSONSchemaPropsObject _ _ _ _) as [[[f defs]|e|]|]; cbn; [| | |done].
  2: { apply Hx; [by intros ??|by left|]. intros name prop p o Hn Hh. right. eauto. }
  2: { apply Hx; [by intros ??|by left|]. intros name prop p o Hn Hh. right. eauto. }
  destruct Hx as (Hs & _ & Hd & -> & Hf); [by intros ??|by left| |].
  { intros name prop p o Hn Hh. right. eauto. }
  split; [intros name prop Hn; by destruct (Hf name prop Hn)|]. intros q d. split.
  - intros (p & o & ? & ? & ? & _)%Hs. eauto.
  - intros (p & o & Hh & <- & Hdesc).
    assert (Hk : defined p defs).
    { destruct Hh as [[-> ->]|(name & prop & Hn & Hh)]; [done|]. destruct (Hf name prop Hn) as [_ Hk]. by eapply Hk. }
    destruct Hk as [d' Hd']. rewrite Hd'. f_equal. destruct (Hs _ _ Hd') as (p' & o' & Hh' & Hp & Hdesc' & _).
    destruct (crd_paths_unique _ _ _ _ Hh' Hh Hp) as [-> ->]. by eapply describes_object_fun.
Qed.
End crd_spec.

(** ** Fuel for a CRD *)
Fixpoint props_size (props : JSONSchemaProps) : nat :=
  S (map_fold (λ _ p n, props_size p + n) 0 (p_Properties props) +
     match p_Items props with
     | Some (Some schema, _) => props_size schema
     | Some (None, schema :: _) => props_size schema
     | _ => 0
     end +
     match p_AdditionalProperties props with Some (Some schema) => props_size schema | _ => 0 end).

Section crd_total.
Context `{MapRange, Paths}.

Lemma props_size_field (props prop : JSONSchemaProps) name :
  p_Properties props !! name = Some prop → props_size prop < props_size props.
Proof.
  intros Hn. destruct props as [typ desc props req items add]. cbn in *.
  rewrite <-(insert_delete_id props name prop Hn).
  rewrite map_fold_insert_L; [lia|intros; lia|apply lookup_delete_eq].
Qed.
Lemma props_size_item props item : getItemsSchema props = Some item → props_size item < props_size props.
Proof.
  destruct props as [typ desc props req [[[schema|] [|schemas]]|] add]; cbn; intros [= ->]; lia.
Qed.
Lemma props_size_value props schema :
  p_AdditionalProperties props = Some (Some schema) → props_size schema < props_size props.
Proof. destruct props as [typ desc props req items add]. cbn. intros ->. lia. Qed.

Abbreviation conversion := (JSONSchemaProps → Path → gmap string definition →
  fueled (definitionField * gmap string definition)).
Definition converts_below (n : nat) (convert : conversion) : Prop :=
  ∀ props path defs, props_size props < n → is_Some (convert props path defs).

Lemma bind_some {A B} (m : fueled A) (k : A → fueled B) : is_Some m → (∀ a, is_Some (k a)) → is_Some (m ≫= k).
Proof. intros [[a|e|] ->] Hk; cbn; eauto. Qed.

Lemma convert_properties_total convert required properties path defs fields :
  (∀ name prop path defs, (name, prop) ∈ properties → is_Some (convert prop path defs)) →
  is_Some (convert_properties convert required properties path defs fields).
Proof.
  revert defs fields. induction properties as [|[name prop] properties IH]; intros defs fields Hc; cbn; [eauto|].
  apply bind_some; [apply (Hc name); by left|]. intros [f defs']. apply IH. intros n p ? ? Hin. apply (Hc n). by right.
Qed.
Lemma object_total convert props path defs :
  converts_below (props_size props) convert → is_Some (convertJSONSchemaPropsObject convert props path defs).
Proof.
  intros Hc. unfold convertJSONSchemaPropsObject. case_bool_decide; [eauto|].
  apply bind_some; [|intros []; eauto]. apply convert_properties_total.
  intros name prop p d Hin%elem_of_range_map. apply Hc. by eapply props_size_field.
Qed.
Lemma convert_total fuel : converts_below fuel (convertJSONSchemaProps fuel).
Proof.
  induction fuel as [|fuel IH]; intros props path defs Hsize; [lia|]. cbn [convertJSONSchemaProps].
  assert (Hb : converts_below (props_size props) (convertJSONSchemaProps fuel)).
  { intros p q d Hp. apply IH. lia. }
  destruct (_ && _); [eauto|]. case_bool_decide; [|case_bool_decide].
  - unfold convertJSONSchemaPropsArray. destruct (getItemsSchema props) as [item|] eqn:Hi; [|eauto].
    apply bind_some; [|intros []; eauto]. apply Hb. by apply props_size_item.
  - by apply object_total.
  - unfold convertJSONSchemaPropsMap. apply bind_some; [|intros []; eauto].
    destruct (p_AdditionalProperties props) as [[schema|]|] eqn:Ha; [|by apply object_total..].
    apply Hb. by apply props_size_value.
Qed.
Lemma crd_total fuel props path : props_size props ≤ fuel → is_Some (convertJSONSchemaPropsToDefinition fuel props path).
Proof.
  intros Hf. apply bind_some; [|intros []; eauto]. apply object_total. intros p q d Hp. apply convert_total. lia.
Qed.
End crd_total.
