(* ===== verification/DefinitionsExact.v ===== *)
(** * The definitions served are the ones meant

    The theorems of pkg/schema/definitions: the definitions of a resource from its OpenAPI model,
    merged with those of its CRD, and the model chosen for a schema. *)
From S2P Require Import Prelude GoLib GoValue KubeTypes OpenApi Definitions VisitorSpec CrdSpec.

(** ** Theorems *)
Section theorems.
Context `{Paths, Convert}.

(** What a definition of the OpenAPI models, and one of a CRD, stand for. *)
Definition openapi_defines (models : Models) (root : Schema) (q : string) (d : definition) : Prop :=
  ∃ k, reachable models root k ∧ path_of k = q ∧ describes models k d.
Definition crd_defines (top : Path) (crd : JSONSchemaProps) (q : string) (d : definition) : Prop :=
  ∃ p o, crd_holds top crd p o ∧ Path_String p = q ∧ describes_object p o d.

(** Models whose names are listed, and in which references come to an end or to a kind. *)
Definition well_formed_models (models : Models) : Prop :=
  (∀ name t, LookupModel models name = Some t → name ∈ ListModels models) ∧
  (∀ name t, LookupModel models name = Some t → ends models t).
(** A path belongs to one kind. *)
Definition distinct_paths (models : Models) (root : Schema) : Prop :=
  ∀ k k', reachable models root k → reachable models root k' → path_of k = path_of k' → k = k'.
Definition distinct_crd_paths (top : Path) (crd : JSONSchemaProps) : Prop :=
  ∀ p o p' o', crd_holds top crd p o → crd_holds top crd p' o' → Path_String p = Path_String p' → p = p' ∧ o = o'.

Lemma top_kind_meets models protoSchema modelName root :
  top_kind models protoSchema modelName = Ok root → meets models root root.
Proof.
  unfold top_kind, mapToKind. destruct protoSchema; try done.
  - destruct (LookupModel models objectMetaPath); [|done]. intros [= <-]. constructor.
  - intros [= <-]. constructor.
Qed.

Lemma definitions_in_order `{MapRange} models protoSchema modelName root :
  well_formed_models models → top_kind models protoSchema modelName = Ok root → distinct_paths models root →
  ∃ defs fuel, (∀ q d, defs !! q = Some d ↔ openapi_defines models root q d) ∧
    ∀ fuel', fuel ≤ fuel' →
      openAPIV2ToDefinition models fuel' protoSchema modelName = Some (Ok (mkSchemaDefinition modelName defs)).
Proof.
  intros [Hl He] Hroot Hu. set (s := mkVisitor (mkField "" "" "" false) ∅).
  destruct (Accept_finishes models Hl He root (size (unvisited models root (v_definitions s))) root s)
    as (fuel & s' & _ & Hs'); [intros k Hk; by constructor|done|].
  exists (v_definitions s'), fuel. split.
  - intros q d. apply (Accept_exact models root Hu fuel). by apply Hs'.
  - intros fuel' Hf. unfold openAPIV2ToDefinition. rewrite Hroot, Hs' by done. done.
Qed.

(** C25: When every model of the document is listed, the references of each model lead, through arrays and maps, to a type in
    finitely many steps, and no two kinds that can be reached have the same path, the definitions of a resource are those of the
    kinds that can be reached from its model, each described by its own fields alone; the traversal ends although kinds refer to
    one another, and its result does not depend on the order in which Go ranges over the fields. *)
Theorem openapi_definitions_exact models protoSchema modelName root :
  well_formed_models models → top_kind models protoSchema modelName = Ok root → distinct_paths models root →
  ∃ defs, (∀ q d, defs !! q = Some d ↔ openapi_defines models root q d) ∧
    ∀ (order : MapRange), ∃ fuel, ∀ fuel', fuel ≤ fuel' →
      openAPIV2ToDefinition models fuel' protoSchema modelName = Some (Ok (mkSchemaDefinition modelName defs)).
Proof.
  intros Hm Hroot Hu.
  destruct (definitions_in_order (H1 := canonical_range) models protoSchema modelName root) as (defs & _ & Hd & _); [done..|].
  exists defs. split; [done|]. intros order.
  destruct (definitions_in_order models protoSchema modelName root) as (defs' & fuel & Hd' & Hf); [done..|].
  exists fuel. intros fuel' Hle. rewrite Hf by done. do 3 f_equal.
  apply map_eq. intros q. apply option_eq. intros d. by rewrite Hd, Hd'.
Qed.

Lemma crd_in_order `{MapRange} props modelName :
  distinct_crd_paths (NewPath modelName) props → (∀ name prop, p_Properties props !! name = Some prop → ¬ lacks_items prop) →
  ∃ defs, (∀ q d, defs !! q = Some d ↔ crd_defines (NewPath modelName) props q d) ∧
    ∀ fuel, props_size props ≤ fuel → crdToDefinition fuel props modelName = Some (Ok (mkSchemaDefinition modelName defs)).
Proof.
  intros Hu Hl.
  assert (Hfuel : ∀ fuel, props_size props ≤ fuel → ∃ defs,
    (∀ q d, defs !! q = Some d ↔ crd_defines (NewPath modelName) props q d) ∧
    crdToDefinition fuel props modelName = Some (Ok (mkSchemaDefinition modelName defs))).
  { intros fuel Hf. pose proof (crd_exact (NewPath modelName) props Hu fuel) as Hx. unfold crdToDefinition.
    destruct (crd_total fuel props (NewPath modelName) Hf) as [[defs|e|] Hr]; rewrite Hr in *.
    - exists defs. split; [apply Hx|done].
    - destruct Hx as (name & prop & Hn & Hk). by destruct (Hl name prop Hn).
    - done. }
  destruct (Hfuel (props_size props)) as (defs & Hd & _); [done|]. exists defs. split; [done|].
  intros fuel Hf. destruct (Hfuel fuel Hf) as (defs' & Hd' & ->). do 3 f_equal.
  apply map_eq. intros q. apply option_eq. intros d. by rewrite Hd, Hd'.
Qed.

Lemma Merge_lookup s schema : DefinitionType s = DefinitionType schema → ∃ merged,
  Merge s schema = Ok merged ∧ DefinitionType merged = DefinitionType s ∧
  ∀ q, Definitions merged !! q = match Definitions schema !! q with
    | Some value => Some (merge_definition (default no_definition (Definitions s !! q)) value)
    | None => Definitions s !! q
    end.
Proof.
  intros Ht. unfold Merge. rewrite bool_decide_eq_false_2 by naive_solver.
  eexists. split_and!; [done..|]. intros q. cbn. rewrite lookup_union, map_lookup_imap.
  by destruct (Definitions schema !! q), (Definitions s !! q).
Qed.

Lemma merge_no_definition d : merge_definition no_definition d = d.
Proof. destruct d. unfold merge_definition. cbn. by rewrite map_union_empty. Qed.

(** What [buildSchemaDefinitionForModel] makes of both: the CRD decides the type, the
    description and its own fields. *)
Definition overrides (d1 d2 d : definition) : Prop :=
  d_Type d = d_Type d2 ∧ d_Description d = d_Description d2 ∧
  ∀ name, ResourceFields d !! name = match ResourceFields d2 !! name with
    | Some f => Some f
    | None => ResourceFields d1 !! name
    end.
Definition merged_defines (models : Models) (root : Schema) (top : Path) (crd : JSONSchemaProps)
    (q : string) (d : definition) : Prop :=
  (∃ d2, crd_defines top crd q d2 ∧
    ((∃ d1, openapi_defines models root q d1 ∧ overrides d1 d2 d) ∨
     (∀ d1, ¬ openapi_defines models root q d1) ∧ d = d2)) ∨
  (∀ d2, ¬ crd_defines top crd q d2) ∧ openapi_defines models root q d.

Lemma overrides_merge d1 d2 d : overrides d1 d2 d ↔ d = merge_definition d1 d2.
Proof.
  assert (Hm : overrides d1 d2 (merge_definition d1 d2)).
  { split_and!; [done..|]. intros name. cbn. rewrite lookup_union.
    by destruct (ResourceFields d2 !! name), (ResourceFields d1 !! name). }
  split; [|by intros ->]. intros (Ht & Hd & Hf). destruct Hm as (Ht' & Hd' & Hf'). destruct d as [r ? ?].
  cbn in *. subst. unfold merge_definition. f_equal. apply map_eq. intros name. by rewrite Hf, Hf'.
Qed.
Lemma lookup_defined {A} (m : gmap string A) (P : string → A → Prop) q :
  (∀ q d, m !! q = Some d ↔ P q d) → (∃ d, m !! q = Some d ∧ P q d) ∨ m !! q = None ∧ ∀ d, ¬ P q d.
Proof.
  intros Hd. destruct (m !! q) as [d|] eqn:Hq; [left|right].
  - exists d. by rewrite <-Hd.
  - split; [done|]. intros d Hp%Hd. congruence.
Qed.

Lemma Merge_defines models root top crd s schema merged :
  (∀ q d, Definitions s !! q = Some d ↔ openapi_defines models root q d) →
  (∀ q d, Definitions schema !! q = Some d ↔ crd_defines top crd q d) →
  (∀ q, Definitions merged !! q = match Definitions schema !! q with
    | Some value => Some (merge_definition (default no_definition (Definitions s !! q)) value)
    | None => Definitions s !! q
    end) →
  ∀ q d, Definitions merged !! q = Some d ↔ merged_defines models root top crd q d.
Proof.
  intros Ho Hc Hm q d. rewrite Hm. unfold merged_defines. setoid_rewrite overrides_merge.
  destruct (lookup_defined _ _ q Hc) as [(d2 & Hd2 & Hp2)|[Hn2 Hp2]].
  - rewrite Hd2. assert (Hun : ∀ d', crd_defines top crd q d' → d' = d2) by (intros d' Hd'%Hc; congruence).
    destruct (lookup_defined _ _ q Ho) as [(d1 & Hd1 & Hp1)|[Hn1 Hp1]].
    + rewrite Hd1. cbn. assert (Hun1 : ∀ d', openapi_defines models root q d' → d' = d1) by (intros d' Hd'%Ho; congruence).
      split; [intros [= <-]; left; eauto 10|]. intros [(d2' & ->%Hun & [(d1' & ->%Hun1 & ->)|[Hno _]])|[Hno _]]; [done|..].
      * by destruct (Hno d1).
      * by destruct (Hno d2).
    + rewrite Hn1. cbn. rewrite merge_no_definition. split; [intros [= <-]; left; eauto 10|].
      intros [(d2' & ->%Hun & [(d1' & Hd1' & _)|[_ ->]])|[Hno _]]; [by destruct (Hp1 d1')|done|by destruct (Hno d2)].
  - rewrite Hn2, Ho. split; [eauto|]. intros [(d2 & Hd2 & _)|[_ Hd]]; [by destruct (Hp2 d2)|done].
Qed.

(** The definition of a resource with a CRD merges the definitions of its OpenAPI
    model with those of the CRD without the three standard fields: where both define a type the
    type, the description and the fields of the CRD win, the fields apiVersion, kind and metadata of
    the resource are those of OpenAPI. With enough fuel it is always made, in every order of
    iteration, when no array of the CRD lacks its items. *)
Theorem resource_definition models gvk root crd :
  let props := without_standard_fields crd in let top := NewPath (ModelName gvk) in
  well_formed_models models → top_kind models (model_Schema gvk) (ModelName gvk) = Ok root →
  distinct_paths models root → CRD gvk = Some crd → distinct_crd_paths top props →
  (∀ name prop, p_Properties props !! name = Some prop → ¬ lacks_items prop) →
  ∃ def, DefinitionType def = ModelName gvk ∧
    (∀ q d, Definitions def !! q = Some d ↔ merged_defines models root top props q d) ∧
    (∀ name d d1, name ∈ ["apiVersion"; "kind"; "metadata"] → Definitions def !! Path_String top = Some d →
      openapi_defines models root (Path_String top) d1 → ResourceFields d !! name = ResourceFields d1 !! name) ∧
    ∀ (order : MapRange), ∃ fuel, ∀ fuel', fuel ≤ fuel' → buildSchemaDefinitionForModel fuel' models gvk = Some (Ok def).
Proof.
  intros props top Hm Hroot Hu Hcrd Hcu Hl.
  destruct (definitions_in_order (H1 := canonical_range) models (model_Schema gvk) (ModelName gvk) root)
    as (odefs & _ & Ho & _); [done..|].
  destruct (crd_in_order (H1 := canonical_range) props (ModelName gvk)) as (cdefs & Hc & _); [done..|].
  destruct (Merge_lookup (mkSchemaDefinition (ModelName gvk) odefs) (mkSchemaDefinition (ModelName gvk) cdefs))
    as (def & Hmerge & Ht & Hlookup); [done|]. cbn in Hlookup.
  pose proof (Merge_defines models root top props (mkSchemaDefinition (ModelName gvk) odefs)
    (mkSchemaDefinition (ModelName gvk) cdefs) def Ho Hc Hlookup) as Hdef.
  exists def. split_and!; [done|done| |].
  - intros name d d1 Hname Hd Hd1. apply Hdef in Hd as [(d2 & Hd2 & Hcase)|[_ Hd]].
    + assert (Hnone : ResourceFields d2 !! name = None).
      { destruct Hd2 as (p & o & Hh & Hp & _ & _ & Hf).
        destruct (Hcu p o top props Hh) as [-> ->]; [by left|done|]. apply eq_None_not_Some. intros [f Hf'].
        apply Hf in Hf' as (prop & f0 & Hprop & _). cbn in Hprop. revert Hprop.
        rewrite !lookup_delete_Some. set_solver. }
      destruct Hcase as [(d1' & Hd1' & _ & _ & Hf)|[Hno _]]; [|by destruct (Hno d1)].
      rewrite Hf, Hnone. apply Ho in Hd1, Hd1'. congruence.
    + apply Ho in Hd, Hd1. congruence.
  - intros order.
    destruct (definitions_in_order models (model_Schema gvk) (ModelName gvk) root) as (odefs' & fuel & Ho' & Hf); [done..|].
    destruct (crd_in_order props (ModelName gvk)) as (cdefs' & Hc' & Hcf); [done..|].
    assert (odefs' = odefs) as -> by (apply map_eq; intros q; apply option_eq; intros d; by rewrite Ho, Ho').
    assert (cdefs' = cdefs) as -> by (apply map_eq; intros q; apply option_eq; intros d; by rewrite Hc, Hc').
    exists (fuel `max` props_size props). intros fuel' Hle. unfold buildSchemaDefinitionForModel.
    rewrite Hf by lia. cbn. rewrite Hcrd. fold props. rewrite Hcf by lia. cbn. by rewrite Hmerge.
Qed.

Lemma array_without_items_fails `{MapRange} fuel models gvk crd definitions :
  CRD gvk = Some crd → distinct_crd_paths (NewPath (ModelName gvk)) (without_standard_fields crd) →
  (∃ name prop, p_Properties (without_standard_fields crd) !! name = Some prop ∧ lacks_items prop) →
  openAPIV2ToDefinition models fuel (model_Schema gvk) (ModelName gvk) = Some (Ok definitions) →
  props_size (without_standard_fields crd) ≤ fuel →
  ∃ e, buildSchemaDefinitionForModel fuel models gvk = Some (Err e).
Proof.
  intros Hcrd Hu (name & prop & Hn & Hl) Ho Hf. unfold buildSchemaDefinitionForModel. rewrite Ho. cbn. rewrite Hcrd.
  pose proof (crd_exact _ _ Hu fuel) as Hx. unfold crdToDefinition.
  destruct (crd_total fuel _ (NewPath (ModelName gvk)) Hf) as [[defs|e|] Hr]; rewrite Hr in *; [|by eexists|done].
  destruct Hx as [Hno _]. by destruct (Hno name prop Hn).
Qed.

(** ** The model of a schema *)
(** A model that stands for a kind. *)
Definition stands_for (models : Models) (name : string) (t : Schema) (gvk : GroupVersionKind) : Prop :=
  LookupModel models name = Some t ∧ GetGVKForProtoSchema t = Some gvk ∧
  match t with Map_ _ _ | Kind_ _ _ _ => True | _ => False end.
Definition preferred (versions : gmap string string) (gvk : GroupVersionKind) : Prop :=
  default "" (versions !! Group gvk) = Version gvk.
#[local] Instance preferred_dec versions gvk : Decision (preferred versions gvk).
Proof. unfold preferred. apply _. Defined.
Definition chosen (models : Models) versions (crds : gmap GroupVersionKind (option JSONSchemaProps))
    (names : list string) (result : gmap string gvkModel) : Prop :=
  (∀ id m, result !! id = Some m → ∃ gvk, ModelName m ∈ names ∧
    stands_for models (ModelName m) (model_Schema m) gvk ∧ GVKToSchemaID gvk = id ∧ CRD m = mjoin (crds !! gvk) ∧
    (preferred versions gvk ∨ ∀ name t gvk', name ∈ names → stands_for models name t gvk' →
       GVKToSchemaID gvk' = id → ¬ preferred versions gvk')) ∧
  (∀ name t gvk, name ∈ names → stands_for models name t gvk → is_Some (result !! GVKToSchemaID gvk)).

Lemma stands_for_fun models name t1 t2 gvk1 gvk2 :
  stands_for models name t1 gvk1 → stands_for models name t2 gvk2 → t1 = t2 ∧ gvk1 = gvk2.
Proof. intros (H1 & H2 & _) (H1' & H2' & _). split; congruence. Qed.

Lemma add_model_cases models versions crds result name :
  (∃ t gvk, stands_for models name t gvk ∧ add_model models versions crds result name =
    if bool_decide (result !! GVKToSchemaID gvk = None) || bool_decide (preferred versions gvk)
    then <[GVKToSchemaID gvk := mkGvkModel name t (mjoin (crds !! gvk))]> result else result) ∨
  (∀ t gvk, ¬ stands_for models name t gvk) ∧ add_model models versions crds result name = result.
Proof.
  unfold add_model, stands_for, preferred. destruct (LookupModel models name) as [t|] eqn:Ht.
  2: { right. split; [naive_solver|done]. }
  destruct (GetGVKForProtoSchema t) as [gvk|] eqn:Hg.
  - destruct t; try (right; split; [naive_solver|done]).
    + left. by eexists _, gvk.
    + left. by eexists _, gvk.
  - right. split; [naive_solver|]. by destruct t.
Qed.

Lemma add_model_chosen models versions crds names result name :
  chosen models versions crds names result →
  chosen models versions crds (names ++ [name]) (add_model models versions crds result name).
Proof.
  intros [Hc Hs].
  destruct (add_model_cases models versions crds result name) as [(t & gvk & Hst & ->)|[Hno ->]].
  - assert (Hlast : ∀ t' gvk', stands_for models name t' gvk' → t' = t ∧ gvk' = gvk)
      by (intros t' gvk' Hst'; by eapply stands_for_fun).
    destruct (_ || _) eqn:Hb.
    + split.
      * intros id m. destruct (decide (id = GVKToSchemaID gvk)) as [->|Hne].
        -- rewrite lookup_insert_eq. intros [= <-]. exists gvk. cbn. split_and!; [set_solver|done..|].
           apply orb_true_iff in Hb as [Hb|Hb]; apply bool_decide_eq_true in Hb; [|by left].
           destruct (decide (preferred versions gvk)) as [?|Hp]; [by left|right].
           intros n t' gvk' [Hn|Hn]%elem_of_app Hst' Hid.
           ++ destruct (Hs n t' gvk' Hn Hst') as [m' Hm']. congruence.
           ++ apply list_elem_of_singleton in Hn as ->. by destruct (Hlast t' gvk' Hst') as [_ ->].
        -- rewrite lookup_insert_ne by done. intros (g & ? & ? & ? & ? & Hp)%Hc. exists g. split_and!; [set_solver|done..|].
           destruct Hp as [?|Hp]; [by left|right]. intros n t' gvk' [Hn|Hn]%elem_of_app Hst' Hid; [by eapply Hp|].
           apply list_elem_of_singleton in Hn as ->. destruct (Hlast t' gvk' Hst') as [_ ->]. congruence.
      * intros n t' gvk' [Hn|Hn]%elem_of_app Hst'; rewrite lookup_insert_is_Some.
        -- destruct (decide (GVKToSchemaID gvk = GVKToSchemaID gvk')); [by left|right]. split; [done|by eapply Hs].
        -- apply list_elem_of_singleton in Hn as ->. destruct (Hlast t' gvk' Hst') as [_ ->]. by left.
    + apply orb_false_iff in Hb as [Hb1 Hb2]. apply bool_decide_eq_false in Hb1, Hb2. split.
      * intros id m (g & ? & ? & ? & ? & Hp)%Hc. exists g. split_and!; [set_solver|done..|].
        destruct Hp as [?|Hp]; [by left|right]. intros n t' gvk' [Hn|Hn]%elem_of_app Hst' Hid; [by eapply Hp|].
        apply list_elem_of_singleton in Hn as ->. by destruct (Hlast t' gvk' Hst') as [_ ->].
      * intros n t' gvk' [Hn|Hn]%elem_of_app Hst'; [by eapply Hs|].
        apply list_elem_of_singleton in Hn as ->. destruct (Hlast t' gvk' Hst') as [_ ->].
        by apply not_eq_None_Some.
  - split.
    + intros id m (g & ? & ? & ? & ? & Hp)%Hc. exists g. split_and!; [set_solver|done..|].
      destruct Hp as [?|Hp]; [by left|right]. intros n t' gvk' [Hn|Hn]%elem_of_app Hst' Hid; [by eapply Hp|].
      apply list_elem_of_singleton in Hn as ->. by destruct (Hno t' gvk').
    + intros n t' gvk' [Hn|Hn]%elem_of_app Hst'; [by eapply Hs|].
      apply list_elem_of_singleton in Hn as ->. by destruct (Hno t' gvk').
Qed.

(** Every schema that some listed model stands for gets a model, one of the preferred
    version of its group if there is one, together with the schema of the CRD for the version of
    that model. *)
Theorem listGVKModels_preferred models groups crds result :
  listGVKModels models groups (Ok crds) = Ok result →
  chosen models (preferred_versions groups) (crds_by_gvk crds) (ListModels models) result.
Proof.
  intros [= <-]. induction (ListModels models) as [|name names IH] using rev_ind.
  - split; [intros id m Hm; cbn in Hm; by rewrite lookup_empty in Hm|set_solver].
  - rewrite foldl_app. by apply add_model_chosen.
Qed.
End theorems.

(** ** A reference that goes round *)
Section loops.
Context `{MapRange, Paths}.

(** The visitor stops at kinds it has seen, and nowhere else: a model that is a list of itself
    is followed for ever. *)
Lemma self_reference_diverges models b b' name s fuel :
  LookupModel models name = Some (Array b (Reference b' name)) →
  Accept models fuel (Reference b' name) s = None.
Proof.
  intros Hn. revert s. induction fuel as [fuel IH] using lt_wf_ind. intros s. destruct fuel as [|[|fuel]]; [done|..].
  - cbn. unfold VisitReference. by rewrite Hn.
  - cbn. unfold VisitReference. rewrite Hn. cbn. unfold VisitArray. by rewrite IH by lia.
Qed.
End loops.

(** ** Examples *)
Section finite_models.
Context `{Paths}.

(** The models of a finite map. *)
Definition models_of (m : gmap string Schema) : Models := mkModels (λ name, m !! name) (map_to_list m).*1.

Lemma models_of_listed m name t : LookupModel (models_of m) name = Some t → name ∈ ListModels (models_of m).
Proof.
  intros Hn. cbn in *. apply list_elem_of_fmap. exists (name, t). split; [done|by apply elem_of_map_to_list].
Qed.

(** Paths are distinct when those of the listed kinds are. *)
Definition listed_kinds (models : Models) : list Schema :=
  ListModels models ≫= λ name, from_option kinds [] (LookupModel models name).
Lemma listed_paths_distinct models name root :
  (∀ name t, LookupModel models name = Some t → name ∈ ListModels models) →
  LookupModel models name = Some root → NoDup (path_of <$> listed_kinds models) → distinct_paths models root.
Proof.
  intros Hl Hroot Hnd.
  assert (Hin : ∀ k, reachable models root k → k ∈ listed_kinds models).
  { intros k Hk. apply (reachable_kinds models Hl) in Hk. apply elem_of_app in Hk as [Hk|Hk]; [|done].
    apply list_elem_of_bind. exists name. rewrite Hroot. split; [done|by eapply Hl]. }
  intros k k' Hk%Hin Hk'%Hin Hp. apply list_elem_of_lookup in Hk as [i Hi], Hk' as [j Hj].
  assert (i = j) as ->.
  { apply (NoDup_lookup _ i j (path_of k) Hnd);
      [by rewrite list_lookup_fmap, Hi|by rewrite list_lookup_fmap, Hj, Hp]. }
  congruence.
Qed.
End finite_models.

Module DefinitionsExample.
(** Paths as their text. *)
#[local] Instance text_paths : Paths := {|
  Path := string; NewPath := λ n, n; FieldPath := λ p f, p +:+ "." +:+ f; Path_String := λ p, p |}.
#[local] Instance text_convert : Convert := {|
  convert_ToString := λ v, match v with Some (GString s) => s | _ => "" end |}.

Definition doc (path description : string) : BaseSchema := mkBase description ∅ path.
(** The base of a model with a kind. *)
Definition top (path description group version kind : string) : BaseSchema :=
  mkBase description {[gvkExtensionName := Some [ExtMap (list_to_map [
    ("group", GString group); ("version", GString version); ("kind", GString kind)])]]} path.

(** A kind whose children are of the same kind. *)
Definition widget : Schema := Kind_ (top "io.example.Widget" "A widget." "example.io" "v1" "Widget") (list_to_map [
  ("kind", Primitive (doc "io.example.Widget.kind" "Its kind.") "string");
  ("metadata", Reference (doc "io.example.Widget.metadata" "Its metadata.") objectMetaPath);
  ("size", Primitive (doc "io.example.Widget.size" "Its size.") "integer");
  ("children", Array (doc "io.example.Widget.children" "Its parts.")
    (Reference (doc "io.example.Widget.children" "") "io.example.Widget"))]) ["size"; "nothing"].
Definition object_meta : Schema := Kind_ (doc objectMetaPath "Metadata.") (list_to_map [
  ("labels", Map_ (doc (objectMetaPath +:+ ".labels") "Labels.")
    (Primitive (doc (objectMetaPath +:+ ".labels") "") "string"))]) [].
Definition model_map : gmap string Schema :=
  {[ "io.example.Widget" := widget; objectMetaPath := object_meta ]}.
Definition models : Models := models_of model_map.

Lemma models_cases name t : LookupModel models name = Some t →
  name = "io.example.Widget" ∧ t = widget ∨ name = objectMetaPath ∧ t = object_meta.
Proof.
  intros Hn. change (model_map !! name = Some t) in Hn. unfold model_map in Hn.
  apply lookup_insert_Some in Hn as [[<- <-]|[_ [<- <-]%lookup_singleton_Some]]; [by left|by right].
Qed.
Lemma models_well_formed : well_formed_models models.
Proof.
  split; [apply models_of_listed|]. intros name t [[_ ->]|[_ ->]]%models_cases; constructor.
Qed.
Lemma widget_paths : distinct_paths models widget.
Proof.
  apply (listed_paths_distinct models "io.example.Widget"); [apply models_of_listed|reflexivity|].
  apply (bool_decide_unpack _). vm_compute. exact I.
Qed.

(** The definitions refer to one another in a circle. *)
Lemma openapi_definitions_exact_witness :
  (∃ defs, (∀ q d, defs !! q = Some d ↔ openapi_defines models widget q d) ∧
    ∀ (order : MapRange), ∃ fuel, ∀ fuel', fuel ≤ fuel' →
      openAPIV2ToDefinition models fuel' widget "io.example.Widget" = Some (Ok (mkSchemaDefinition "io.example.Widget" defs))) ∧
  openAPIV2ToDefinition (H := canonical_range) models 5 widget "io.example.Widget" =
    Some (Ok (mkSchemaDefinition "io.example.Widget" {[
      "io.example.Widget" := mkDefinition {[
        "kind" := mkField "string" "" "Its kind." false;
        "metadata" := mkField objectMetaPath "" "Its metadata." false;
        "size" := mkField "int" "" "Its size." true;
        "children" := mkField "array" "io.example.Widget" "Its parts." false ]} "io.example.Widget" "A widget.";
      objectMetaPath := mkDefinition {[ "labels" := mkField "map" "string" "Labels." false ]} objectMetaPath "Metadata." ]})).
Proof.
  split; [|vm_compute; reflexivity].
  apply (openapi_definitions_exact models widget "io.example.Widget" widget);
    [apply models_well_formed|reflexivity|apply widget_paths].
Defined.

(** The CRD of the widgets: it has no children, and an object that the model lacks. *)
Definition text (typ description : string) : JSONSchemaProps := mkProps typ description ∅ [] None None.
Definition widget_crd : JSONSchemaProps := mkProps "object" "A widget of the CRD." (list_to_map [
  ("kind", text "string" "The kind of the CRD.");
  ("size", text "integer" "The size of the CRD.");
  ("spec", mkProps "object" "What is wanted." {["color" := text "string" "Its color."]} ["color"] None None)]) [] None None.
Definition widget_model : gvkModel := mkGvkModel "io.example.Widget" widget (Some widget_crd).

Lemma text_holds path typ description p o : typ ≠ "object" → typ ≠ "array" → ¬ holds path (text typ description) p o.
Proof. intros. by apply nothing_held. Qed.
Definition wanted : JSONSchemaProps :=
  mkProps "object" "What is wanted." {["color" := text "string" "Its color."]} ["color"] None None.
Lemma widget_properties name prop : p_Properties (without_standard_fields widget_crd) !! name = Some prop →
  name = "size" ∧ prop = text "integer" "The size of the CRD." ∨ name = "spec" ∧ prop = wanted.
Proof.
  replace (p_Properties (without_standard_fields widget_crd)) with
    ({["size" := text "integer" "The size of the CRD."; "spec" := wanted]} : gmap string JSONSchemaProps)
    by (vm_compute; reflexivity).
  intros [[<- <-]|[_ [<- <-]%lookup_singleton_Some]]%lookup_insert_Some; [by left|by right].
Qed.
Lemma widget_crd_holds p o : crd_holds "io.example.Widget" (without_standard_fields widget_crd) p o →
  p = "io.example.Widget" ∧ o = without_standard_fields widget_crd ∨ p = "io.example.Widget.spec" ∧ o = wanted.
Proof.
  intros [?|(name & prop & [[-> ->]|[-> ->]]%widget_properties & Hh)]; [by left| |right].
  - by apply text_holds in Hh.
  - apply holds_object in Hh as [[-> ->]|(n & q & Hq & Hh)]; [done| |by split; [|left]].
    cbn in Hq. apply lookup_singleton_Some in Hq as [<- <-]. by apply text_holds in Hh.
Qed.
Lemma widget_items name prop : p_Properties (without_standard_fields widget_crd) !! name = Some prop → ¬ lacks_items prop.
Proof.
  intros [[-> ->]|[-> ->]]%widget_properties; [by apply nothing_lacked|].
  intros (n & q & Hq & Hl)%lacks_object; [|by split; [|left]].
  cbn in Hq. apply lookup_singleton_Some in Hq as [<- <-]. by apply nothing_lacked in Hl.
Qed.

Lemma resource_definition_witness :
  (∃ def, DefinitionType def = "io.example.Widget" ∧
    (∀ q d, Definitions def !! q = Some d ↔
      merged_defines models widget "io.example.Widget" (without_standard_fields widget_crd) q d) ∧
    (∀ name d d1, name ∈ ["apiVersion"; "kind"; "metadata"] → Definitions def !! "io.example.Widget" = Some d →
      openapi_defines models widget "io.example.Widget" d1 → ResourceFields d !! name = ResourceFields d1 !! name) ∧
    ∀ (order : MapRange), ∃ fuel, ∀ fuel', fuel ≤ fuel' → buildSchemaDefinitionForModel fuel' models widget_model = Some (Ok def)) ∧
  (∃ def d, buildSchemaDefinitionForModel (H := canonical_range) 9 models widget_model = Some (Ok def) ∧
    Definitions def !! "io.example.Widget" = Some d ∧
    ResourceFields d = {[
      "kind" := mkField "string" "" "Its kind." false;
      "metadata" := mkField objectMetaPath "" "Its metadata." false;
      "size" := mkField "int" "" "The size of the CRD." false;
      "children" := mkField "array" "io.example.Widget" "Its parts." false;
      "spec" := mkField "io.example.Widget.spec" "" "What is wanted." false ]}).
Proof.
  split; [|do 2 eexists; split_and!; vm_compute; reflexivity].
  apply (resource_definition models widget_model widget widget_crd);
    [apply models_well_formed|reflexivity|apply widget_paths|reflexivity| |].
  - by intros p o p' o' [[-> ->]|[-> ->]]%widget_crd_holds [[-> ->]|[-> ->]]%widget_crd_holds.
  - apply widget_items.
Defined.

(** Two versions of a kind: the preferred one is chosen, although it is listed first. *)
Definition versions_map : gmap string Schema := {[
  "io.example.v1.Widget" := Kind_ (top "io.example.v1.Widget" "" "example.io" "v1" "Widget") ∅ [];
  "io.example.v2.Widget" := Kind_ (top "io.example.v2.Widget" "" "example.io" "v2" "Widget") ∅ [] ]}.
Lemma listGVKModels_preferred_witness :
  let two := mkModels (λ name, versions_map !! name) ["io.example.v1.Widget"; "io.example.v2.Widget"] in
  let groups := [mkGroup "example.io" "v1"] in
  let crds := [mkCRD "example.io" "Widget" [("v1", Some (Some widget_crd)); ("v2", None)]] in
  ∃ result, listGVKModels two groups (Ok crds) = Ok result ∧
    chosen two (preferred_versions groups) (crds_by_gvk crds) (ListModels two) result ∧
    (λ m, (ModelName m, CRD m)) <$> result !! "example.io.widget" = Some ("io.example.v1.Widget", Some widget_crd).
Proof.
  intros two groups crds. destruct (listGVKModels two groups (Ok crds)) as [result|e|] eqn:Hr; [|by vm_compute in Hr..].
  exists result. split_and!; [done|by apply listGVKModels_preferred|].
  injection Hr as <-. vm_compute. reflexivity.
Defined.

(** A property whose name has a dot shares its path with the property of another object: which
    definition is served depends on the order of iteration. *)
Definition dotted_crd : JSONSchemaProps := mkProps "object" "" (list_to_map [
  ("a", mkProps "object" "" {["b" := mkProps "object" "Inner." {["x" := text "string" ""]} [] None None]} [] None None);
  ("a.b", mkProps "object" "Dotted." {["y" := text "string" ""]} [] None None)]) [] None None.
Definition reversed_range : MapRange := {|
  range_map := λ K eqK cntK V m, rev (map_to_list m);
  range_map_perm := λ K eqK cntK V m, symmetry (Permutation_rev _) |}.
Definition description_of (order : MapRange) : option string :=
  match crdToDefinition 9 dotted_crd "d" with
  | Some (Ok def) => d_Description <$> Definitions def !! "d.a.b"
  | _ => None
  end.
Example dotted_property : Some "Inner." ≠ Some "Dotted." ∧
  {[ description_of canonical_range; description_of reversed_range ]} =
    ({[ Some "Inner."; Some "Dotted." ]} : gset (option string)).
Proof. split; [done|]. vm_compute. reflexivity. Qed.
End DefinitionsExample.
