(* ===== verification/Debounce.v ===== *)
(** * Debounced refreshes

    pkg/debounce/refresher.go, which pkg/schema/definitions/refresh.go calls for every change of a
    CRD or an APIService and at every tick: each request cancels the goroutine of the one
    before and starts its own, which refreshes when its timer fires. A refresh reads the API server
    ([Refresh] of handler.go, its calls as one step) and then installs what it has read. *)
From S2P Require Import Prelude.

(** A goroutine of [RefreshAfter]: at its select, with its context cancelled or not; in [Refresh] before
    and after it has read; at its end, having installed something, after an error, or cancelled. *)
Inductive goroutine (Cluster : Type) :=
  | Waiting (cancelled : bool)
  | Started
  | Fetched (c : Cluster)
  | Refreshed (c : Cluster)
  | RefreshFailed
  | Cancelled.
Arguments Waiting {_}.
Arguments Started {_}.
Arguments Fetched {_}.
Arguments Refreshed {_}.
Arguments RefreshFailed {_}.
Arguments Cancelled {_}.

(** [current]: the goroutine whose context the stored function cancels. [installed]: the server the
    installed models were read from. *)
Record DebounceableRefresher (Cluster : Type) := mkRefresher {
  cluster : Cluster;
  current : option nat;
  goroutines : list (goroutine Cluster);
  installed : option Cluster }.
Arguments mkRefresher {_}.
Arguments cluster {_}.
Arguments current {_}.
Arguments goroutines {_}.
Arguments installed {_}.

Section debounce.
Context {Cluster : Type}.
Implicit Types (d : DebounceableRefresher Cluster) (g : goroutine Cluster).

Definition set_goroutine (i : nat) g d : DebounceableRefresher Cluster :=
  mkRefresher (cluster d) (current d) (<[i := g]> (goroutines d)) (installed d).

(** Calling a cancel function: only a goroutine that still waits is affected. *)
Definition cancel (g : goroutine Cluster) : goroutine Cluster :=
  match g with Waiting _ => Waiting true | g => g end.
(** [RefreshAfter], under its lock. *)
Definition RefreshAfter d : DebounceableRefresher Cluster :=
  let gs := match current d with Some i => alter cancel i (goroutines d) | None => goroutines d end in
  mkRefresher (cluster d) (Some (length (goroutines d))) (gs ++ [Waiting false]) (installed d).

Inductive debounce_step d : DebounceableRefresher Cluster → Prop :=
  | debounce_change c : debounce_step d (mkRefresher c (current d) (goroutines d) (installed d))
  | debounce_request : debounce_step d (RefreshAfter d)
  | debounce_timer i b : goroutines d !! i = Some (Waiting b) → debounce_step d (set_goroutine i Started d)
  | debounce_cancelled i : goroutines d !! i = Some (Waiting true) → debounce_step d (set_goroutine i Cancelled d)
  | debounce_fetch i : goroutines d !! i = Some Started → debounce_step d (set_goroutine i (Fetched (cluster d)) d)
  | debounce_error i : goroutines d !! i = Some Started → debounce_step d (set_goroutine i RefreshFailed d)
  | debounce_install i c : goroutines d !! i = Some (Fetched c) →
      debounce_step d (mkRefresher (cluster d) (current d) (<[i := Refreshed c]> (goroutines d)) (Some c)).
Inductive debounced d : DebounceableRefresher Cluster → Prop :=
  | debounced_refl : debounced d d
  | debounced_step d' d'' : debounced d d' → debounce_step d' d'' → debounced d d''.
Definition new_refresher (c : Cluster) : DebounceableRefresher Cluster := mkRefresher c None [] None.

(** The goroutine of the last request is the current one, and is not cancelled. *)
Definition last_active d : Prop :=
  match list.last (goroutines d) with
  | None => current d = None
  | Some g => current d = Some (length (goroutines d) - 1) ∧ g ≠ Waiting true ∧ g ≠ Cancelled
  end.

Lemma last_insert (gs : list (goroutine Cluster)) i g g' : gs !! i = Some g →
  list.last (<[i := g']> gs) = if decide (i = length gs - 1) then Some g' else list.last gs.
Proof.
  intros Hi. rewrite !last_lookup, length_insert. pose proof (lookup_lt_Some _ _ _ Hi) as Hlt.
  replace (pred (length gs)) with (length gs - 1) by lia. destruct (decide _) as [->|Hne].
  - rewrite list_lookup_insert_eq; [done|lia].
  - by rewrite list_lookup_insert_ne by done.
Qed.
Lemma set_goroutine_active d i g g' inst : last_active d → goroutines d !! i = Some g →
  (g = Waiting true ∨ (g' ≠ Waiting true ∧ g' ≠ Cancelled)) →
  last_active (mkRefresher (cluster d) (current d) (<[i := g']> (goroutines d)) inst).
Proof.
  unfold last_active. cbn. intros Hl Hi Hg. rewrite (last_insert _ _ _ _ Hi), length_insert.
  destruct (decide _) as [->|Hne].
  - rewrite last_lookup in Hl. replace (pred (length (goroutines d))) with (length (goroutines d) - 1) in Hl by lia.
    rewrite Hi in Hl. naive_solver.
  - destruct (list.last (goroutines d)) as [g0|]; [done|]. done.
Qed.
Lemma debounce_active d d' : last_active d → debounce_step d d' → last_active d'.
Proof.
  intros Hl Hs. destruct Hs as [c| |i b Hi|i Hi|i Hi|i Hi|i c Hi].
  - done.
  - unfold last_active, RefreshAfter. cbn. rewrite last_snoc, length_app. cbn.
    split_and!; [|done..]. f_equal. destruct (current d); rewrite ?length_alter; lia.
  - eapply set_goroutine_active; [done..|]. by right.
  - eapply set_goroutine_active; [done..|]. by left.
  - eapply set_goroutine_active; [done..|]. by right.
  - eapply set_goroutine_active; [done..|]. by right.
  - eapply set_goroutine_active; [done..|]. by right.
Qed.
Lemma debounced_active c d : debounced (new_refresher c) d → last_active d.
Proof. induction 1 as [|d d' _ IH Hs]; [done|]. by eapply debounce_active. Qed.

(** The goroutine of the last request always refreshes: once all have ended, it has installed what it has read
    or failed, but was not cancelled. *)
Theorem last_request_refreshes c d g :
  debounced (new_refresher c) d → list.last (goroutines d) = Some g →
  (∀ g, g ∈ goroutines d → (∃ c, g = Refreshed c) ∨ g = RefreshFailed ∨ g = Cancelled) →
  (∃ c, g = Refreshed c) ∨ g = RefreshFailed.
Proof.
  intros Hd%debounced_active Hl Hend. unfold last_active in Hd. rewrite Hl in Hd. destruct Hd as (_ & _ & Hc).
  destruct (Hend g) as [?|[?|?]]; [|by left|by right|done]. rewrite last_lookup in Hl. by eapply list_elem_of_lookup_2.
Qed.
End debounce.

(** Refreshes overlap: one that has read the old server may install it after a later one has installed
    the new. *)
Example stale_refresh_wins : ∃ d : DebounceableRefresher bool,
  debounced (new_refresher false) d ∧ cluster d = true ∧ installed d = Some false ∧
  goroutines d = [Refreshed false; Refreshed true].
Proof.
  pose proof (debounced_refl (new_refresher false)) as Hd.
  eapply debounced_step in Hd; [|apply debounce_request].
  eapply debounced_step in Hd; [|by apply (debounce_timer _ 0 false)].
  eapply debounced_step in Hd; [|by apply (debounce_fetch _ 0)].
  eapply debounced_step in Hd; [|apply (debounce_change _ true)].
  eapply debounced_step in Hd; [|apply debounce_request].
  eapply debounced_step in Hd; [|by apply (debounce_timer _ 1 false)].
  eapply debounced_step in Hd; [|by apply (debounce_fetch _ 1)].
  eapply debounced_step in Hd; [|by apply (debounce_install _ 1 true)].
  eapply debounced_step in Hd; [|by apply (debounce_install _ 0 false)].
  eexists. split; [exact Hd|done].
Qed.
