(* ===== verification/Formatter.v ===== *)
(** * What a client is told about an object: pkg/resources/common/formatter.go

    Before an object is written to a response, the formatter drops the links of requests the
    user may not make, adds the state and the relationships, selects fields, turns points in
    time into ages and, on request, lists what the user may do with resources in the
    namespace of the object. *)
From S2P Require Import Prelude GoLib GoValue KubeTypes ListProcessor AccessControl Schemas.
From S2P Require ProxyStore DateFields VirtualFields SummaryCache.

(** The attributes of a schema the formatter reads. *)
Record schema_attributes := mkAttributes {
  a_schema : APISchema;
  a_crd : bool;                                   (* attributes.IsCRD *)
  a_columns : list DateFields.ColumnDefinition    (* GetColumnDefinitions *)
}.

Record APIRequest := mkRequest {
  r_UserInfo : option UserInfo;
  r_AccessSet : option AccessSet;     (* the attribute of the schemas of the request *)
  r_Query : Values;
  r_Schema : option schema_attributes;
  r_LookupSchema : string → option APISchema;
  r_RelativeToRoot : string → string  (* of the URL builder *)
}.

(** types.RawResource; [None]: the nil map. *)
Record RawResource := mkRaw {
  rr_Schema : option schema_attributes;
  rr_APIObject : ProxyStore.APIObject;
  rr_Links : option (gmap string string)
}.
Record TemplateOptions := mkOptions { InSQLMode : bool }.

(** ** Paths *)
Definition buildBasePath (gvr : GVR) (namespace includeName : string) : string :=
  (if bool_decide (gvr_Group gvr = "management.cattle.io") && bool_decide (gvr_Version gvr = "v3")
   then "/v1/" +:+ gvr_Group gvr +:+ "." +:+ gvr_Resource gvr +:+
     (if bool_decide (namespace ≠ "") then "/" +:+ namespace else "")
   else
     (if bool_decide (gvr_Group gvr = "") then "/api/v1/"
      else "/apis/" +:+ gvr_Group gvr +:+ "/" +:+ gvr_Version gvr +:+ "/") +:+
     (if bool_decide (namespace ≠ "") then "namespaces/" +:+ namespace +:+ "/" else "") +:+
     gvr_Resource gvr) +:+
  (if bool_decide (includeName ≠ "") then "/" +:+ includeName else "").

(** [strings.Replace(s, "/", "-", 1)]: the first one only. *)
Fixpoint replace_first_slash (s : string) : string :=
  match s with
  | String c r => if Ascii.eqb c "/" then String "-" r else String c (replace_first_slash r)
  | "" => ""
  end.

Definition getNamespaceFromResource (obj : ProxyStore.APIObject) : string :=
  match ProxyStore.AO_Object obj with
  | ProxyStore.ARuntime (ProxyStore.RUnstructured o) =>
      match o !! "status" with
      | Some (GMap statusMap) =>
          match statusMap !! "backingNamespace" with
          | Some (GString backingNamespace) =>
              if bool_decide (backingNamespace ≠ "") then backingNamespace
              else replace_first_slash (ProxyStore.AO_ID obj)
          | _ => replace_first_slash (ProxyStore.AO_ID obj)
          end
      | _ => replace_first_slash (ProxyStore.AO_ID obj)
      end
  | _ => ""
  end.

(** ** Links *)
Definition disallowed (s : APISchema) (method : string) : bool := default false (S_Disallow s !! method).

(** A link stays, is blocked or goes. *)
Definition set_link (s : APISchema) (granted : bool) (link method : string)
    (links : gmap string string) : gmap string string :=
  if granted then if disallowed s method then <[link := "blocked"]> links else links
  else delete link links.

Section formatter.
Context `{MapRange, ObjectData, ObjectEdit, NestedFields, DateFields.Time, ProxyStore.APIServer}.
(* wrangler: the value at a path, nil when there is none, and the conditions of a summary *)
Context (GetValueN : object → list string → goval) (NormalizeConditions : object → object).
(* the name and namespace of an API object *)
Context (APIObject_Name APIObject_Namespace : ProxyStore.APIObject → string).
Context (SummaryAndRelationship :
  object → option SummaryCache.SummarizedObject * list SummaryCache.Relationship).
Context (asl_AccessFor : UserInfo → option AccessSet) (now : Z) (opts : TemplateOptions).
Implicit Types (o : object) (s : schema_attributes) (request : APIRequest).

Definition selfLink (gvr : GVR) (meta : string * string * string) : string :=
  buildBasePath gvr meta.1.2 meta.1.1.

(** meta.Accessor: a map has no metadata interface. *)
Definition meta_Accessor (x : ProxyStore.any_object) : option (string * string * string) :=
  match x with ProxyStore.AMap _ => None | ProxyStore.ARuntime o => ProxyStore.Accessor o end.

(** The access set of a request, or else that of its user. *)
Definition access_set request (user : UserInfo) : option AccessSet :=
  match r_AccessSet request with Some a => Some a | None => asl_AccessFor user end.

Definition format_links request (s : APISchema) (accessSet : AccessSet) (obj : ProxyStore.APIObject)
    (meta : string * string * string) (links : gmap string string) : gmap string string :=
  let granted v :=
    AccessSet_Grants accessSet v (GR s) (APIObject_Namespace obj) (APIObject_Name obj) in
  let links := <["view" := r_RelativeToRoot request (selfLink (schema_GVR s) meta)]> links in
  let links := set_link s (granted "get") "view" MethodGet links in
  let links := set_link s (granted "update") "update" MethodPut links in
  let links := set_link s (granted "delete") "remove" MethodDelete links in
  set_link s (granted "patch") "patch" MethodPatch links.

(** ** Fields *)
Definition includeFields request o : object :=
  match r_Query request !! "include" with
  | Some fields =>
      foldl (λ newObj f, let fieldParts := split_on "." f in
        match GetValue o fieldParts with
        | Some val => PutValue newObj val fieldParts
        | None => newObj
        end) ∅ fields
  | None => o
  end.

Definition excludeFields request o : object :=
  match r_Query request !! "exclude" with
  | Some fields => foldl (λ o f, RemoveValue o (split_on "." f)) o fields
  | None => o
  end.

Definition excludeValues request o : object :=
  match r_Query request !! "excludeValues" with
  | Some values =>
      foldl (λ o f, let fieldParts := split_on "." f in
        match GetValueN o fieldParts with
        | GMap obj => foldl (λ o k, PutValue o (GString "") (fieldParts ++ [k])) o (range_keys obj)
        | _ => o
        end) o values
  | None => o
  end.

Definition selected request o : object :=
  excludeValues request (excludeFields request (includeFields request o)).

(** The state and the relationships: no summary is a nil dereference. *)
Definition with_summary o : outcome string object :=
  let '(summary, rel) := SummaryAndRelationship o in
  match summary with
  | None => Panic
  | Some summary =>
      let o := PutValue o (GMap (VirtualFields.state_map summary)) ["metadata"; "state"] in
      let o := PutValue o (GSlice ((λ r, GMap (VirtualFields.toMap r)) <$> rel))
                 ["metadata"; "relationships"] in
      Ok (NormalizeConditions o)
  end.

Definition schema_kind (s : APISchema) : GroupVersionKind :=
  mkGVK (S_Group s) (S_Version s) (S_Kind s).

Definition format_object request s o : outcome string object :=
  o ← with_summary o;
  let o := selected request o in
  if InSQLMode opts then
    match r_Schema request with
    | Some rs => DateFields.convertMetadataTimestampFields now (schema_kind (a_schema s)) (a_crd s)
                   (a_columns rs) o
    | None => Ok o
    end
  else Ok o.

(** ** Permissions *)
Definition permission_verbs : list string :=
  ["create"; "update"; "delete"; "list"; "get"; "watch"; "patch"].

Definition verb_permissions request (accessSet : AccessSet) (ns : string) (s : APISchema)
    : gmap string string :=
  foldl (λ perms verb,
    if AccessSet_Grants accessSet verb (GR s) ns ""
    then <[verb := r_RelativeToRoot request (buildBasePath (schema_GVR s) ns "")]> perms
    else perms) ∅ permission_verbs.

Definition permissions request (accessSet : AccessSet) (ns permsQuery : string)
    : gmap string (gmap string string) :=
  foldl (λ permissions res,
    match r_LookupSchema request res with
    | None => permissions
    | Some s =>
        let perms := verb_permissions request accessSet ns s in
        if bool_decide (perms = ∅) then permissions else <[res := perms]> permissions
    end) ∅ (split_on "," permsQuery).

Definition permissions_value (p : gmap string (gmap string string)) : goval :=
  GMap ((λ perms : gmap string string, GMap (GString <$> perms)) <$> p).

Definition set_object (obj : ProxyStore.APIObject) (o : object) : ProxyStore.APIObject :=
  ProxyStore.mkAPIObject (ProxyStore.AO_Type obj) (ProxyStore.AO_ID obj)
    (ProxyStore.ARuntime (ProxyStore.RUnstructured o)) (ProxyStore.AO_Warnings obj).

Definition unstructured (obj : ProxyStore.APIObject) : option object :=
  match ProxyStore.AO_Object obj with
  | ProxyStore.ARuntime (ProxyStore.RUnstructured o) => Some o
  | _ => None
  end.

Definition add_permissions request (accessSet : AccessSet) (obj : ProxyStore.APIObject)
    : ProxyStore.APIObject :=
  let permsQuery := Values_Get (r_Query request) "checkPermissions" in
  if bool_decide (permsQuery = "") then obj
  else
    let p := permissions request accessSet (getNamespaceFromResource obj) permsQuery in
    match unstructured obj with
    | Some o => set_object obj (PutValue o (permissions_value p) ["resourcePermissions"])
    | None => obj
    end.

(** ** The formatter *)
Definition formatter request (resource : RawResource) : outcome string RawResource :=
  match rr_Schema resource with
  | None => Ok resource
  | Some s =>
      if bool_decide (S_Version (a_schema s) = "") then Ok resource
      else match meta_Accessor (ProxyStore.AO_Object (rr_APIObject resource)) with
      | None => Ok resource
      | Some meta =>
          match user ← r_UserInfo request; access_set request user with
          | None => Ok resource
          | Some accessSet =>
              match rr_Links resource with
              | None => Panic
              | Some links =>
                  let obj := rr_APIObject resource in
                  let links := format_links request (a_schema s) accessSet obj meta links in
                  obj ← match unstructured obj with
                    | Some o => o ← format_object request s o; Ok (set_object obj o)
                    | None => Ok obj
                    end;
                  Ok (mkRaw (rr_Schema resource) (add_permissions request accessSet obj)
                        (Some links))
              end
          end
      end
  end.
End formatter.

#[local] Arguments verb_permissions : simpl never.

(** * Lemmas *)
Lemma set_link_lookup s granted link method links k :
  set_link s granted link method links !! k =
  if decide (k = link)
  then if granted then if disallowed s method then Some "blocked" else links !! k else None
  else links !! k.
Proof.
  unfold set_link. destruct granted, (disallowed s method); case_decide as Hk; try done;
    subst; by rewrite ?lookup_insert_eq, ?lookup_delete_eq, ?lookup_insert_ne, ?lookup_delete_ne.
Qed.

(** A map filled in a loop whose entry for a key depends on the key alone. *)
Lemma foldl_insert_key {V} (f : string → option V) l (m : gmap string V) k :
  foldl (λ m k, match f k with Some v => <[k := v]> m | None => m end) m l !! k =
  if decide (k ∈ l ∧ is_Some (f k)) then f k else m !! k.
Proof.
  revert m. induction l as [|a l IH]; intros m; cbn [foldl].
  { by rewrite decide_False by (intros [Hin _]; by apply elem_of_nil in Hin). }
  rewrite IH. destruct (decide (k = a)) as [->|Hk].
  - destruct (f a) as [v|] eqn:Ha.
    + rewrite lookup_insert_eq. rewrite (decide_True (P := a ∈ a :: l ∧ _)) by (split; [by left|done]).
      by case_decide.
    + rewrite !decide_False by (by intros [_ []]). done.
  - replace (match f a with Some v => <[a := v]> m | None => m end !! k) with (m !! k)
      by (destruct (f a); [by rewrite lookup_insert_ne|done]).
    assert (Hin : k ∈ l ∧ is_Some (f k) ↔ k ∈ a :: l ∧ is_Some (f k)) by (rewrite elem_of_cons; naive_solver).
    by rewrite (decide_ext _ _ _ _ Hin).
Qed.

(** What a link shows when [before] was there: [allowed] is whether the user may use it. *)
Definition link_shown (allowed : Prop) (blocked : bool) (before after : option string) : Prop :=
  (allowed → after = if blocked then Some "blocked" else before) ∧ (¬ allowed → after = None).

Lemma link_shown_granted (allowed : Prop) (granted blocked : bool) (before after : option string) :
  (granted = true ↔ allowed) →
  after = (if granted then if blocked then Some "blocked" else before else None) →
  link_shown allowed blocked before after.
Proof. intros Hg ->. unfold link_shown. destruct granted, blocked; naive_solver. Qed.

Section access_lemmas.
Context `{MapRange, ObjectData, ObjectEdit, !ObjectEditLaws, K8sRBAC, SliceSort}.
Context (sha256_hex : string → string) (C : accessStoreCache) (empty : cache_state C).
Context (c : RBACCaches) (crbs : list ClusterRoleBinding) (rbs : list RoleBinding).
Context `{!RBACCachesOK c crbs rbs}.
Context (user : UserInfo) (request : APIRequest).
Abbreviation accessSet := (access_of sha256_hex C empty c user).

(** What the list of permissions says: the user may use the verb on every object of the
    resource [id] in the namespace, under the given path. *)
Definition permission (ns id v url : string) : Prop :=
  ∃ s, r_LookupSchema request id = Some s ∧ v ∈ permission_verbs ∧
    rbac_allows c crbs rbs user v (GR s) ns "" ∧
    url = r_RelativeToRoot request (buildBasePath (schema_GVR s) ns "").

Lemma verb_permissions_lookup ns s v url :
  verb_permissions request accessSet ns s !! v = Some url ↔
  v ∈ permission_verbs ∧ rbac_allows c crbs rbs user v (GR s) ns "" ∧
  url = r_RelativeToRoot request (buildBasePath (schema_GVR s) ns "").
Proof.
  set (u := r_RelativeToRoot request (buildBasePath (schema_GVR s) ns "")).
  set (f v := if AccessSet_Grants accessSet v (GR s) ns "" then Some u else None).
  assert (verb_permissions request accessSet ns s = foldl (λ m k,
    match f k with Some v => <[k := v]> m | None => m end) ∅ permission_verbs) as ->.
  { apply foldl_ext. intros m a. subst f. cbn beta. by destruct (AccessSet_Grants _ _ _ _ _). }
  rewrite foldl_insert_key, lookup_empty.
  rewrite <- (access_of_rbac sha256_hex C empty c crbs rbs user v (GR s) ns "").
  subst f. cbn beta. destruct (AccessSet_Grants _ v _ ns ""); case_decide as Hd; naive_solver.
Qed.

Lemma permissions_lookup ns q id v url :
  (∃ perms, permissions request accessSet ns q !! id = Some perms ∧ perms !! v = Some url) ↔
  id ∈ split_on "," q ∧ permission ns id v url.
Proof.
  set (f res := s ← r_LookupSchema request res;
    let perms := verb_permissions request accessSet ns s in
    if bool_decide (perms = ∅) then None else Some perms).
  assert (permissions request accessSet ns q = foldl (λ m k,
    match f k with Some v => <[k := v]> m | None => m end) ∅ (split_on "," q)) as ->.
  { apply foldl_ext. intros m a. subst f. cbn beta.
    destruct (r_LookupSchema request a); cbn; [|done]. by destruct (bool_decide _). }
  rewrite foldl_insert_key, lookup_empty. unfold permission.
  setoid_rewrite <- verb_permissions_lookup.
  assert (Hf : (∃ perms, f id = Some perms ∧ perms !! v = Some url) ↔
    ∃ s, r_LookupSchema request id = Some s ∧ verb_permissions request accessSet ns s !! v = Some url).
  { subst f. cbn beta. destruct (r_LookupSchema request id) as [s|]; cbn.
    - case_bool_decide as He; split.
      + intros (? & Hn & _); discriminate Hn.
      + intros (? & [= <-] & Hv). rewrite He, lookup_empty in Hv. discriminate Hv.
      + intros (? & [= <-] & Hv). by eexists.
      + intros (? & [= <-] & Hv). by eexists.
    - split; intros (? & Hn & _); discriminate Hn. }
  rewrite <- Hf. clear Hf. destruct (f id) as [perms|]; case_decide as Hd; split.
  - intros (? & [= <-] & Hv). split; [by destruct Hd|by eexists].
  - intros [_ (? & [= <-] & Hv)]. by eexists.
  - intros (? & Hn & _); discriminate Hn.
  - intros [Hin _]. destruct Hd. split; [exact Hin|by eexists].
  - intros (? & Hn & _); discriminate Hn.
  - intros [_ (? & Hn & _)]; discriminate Hn.
  - intros (? & Hn & _); discriminate Hn.
  - intros [_ (? & Hn & _)]; discriminate Hn.
Qed.

Lemma namespace_add_permissions obj a :
  getNamespaceFromResource (add_permissions request a obj) = getNamespaceFromResource obj.
Proof.
  unfold add_permissions. case_bool_decide; [done|].
  unfold unstructured. destruct (ProxyStore.AO_Object obj) as [|[]] eqn:Ho; try done.
  unfold getNamespaceFromResource at 1, set_object. cbn [ProxyStore.AO_Object ProxyStore.AO_ID].
  rewrite PutValue_one, lookup_insert_ne by done. unfold getNamespaceFromResource. by rewrite Ho.
Qed.
End access_lemmas.

Section links.
Context `{MapRange, K8sRBAC, SliceSort, !ProxyStore.APIServer}.
Context (sha256_hex : string → string) (C : accessStoreCache) (empty : cache_state C).
Context (c : RBACCaches) (crbs : list ClusterRoleBinding) (rbs : list RoleBinding).
Context `{!RBACCachesOK c crbs rbs}.
Context (APIObject_Name APIObject_Namespace : ProxyStore.APIObject → string).
Context (user : UserInfo) (request : APIRequest) (s : APISchema) (obj : ProxyStore.APIObject).

(** The links after formatting: the view of the object, the other requests as far as they
    were offered before, each only if RBAC allows it on the object. *)
Definition links_follow_rbac (meta : string * string * string)
    (links links' : gmap string string) : Prop :=
  let may v := rbac_allows c crbs rbs user v (GR s) (APIObject_Namespace obj) (APIObject_Name obj) in
  link_shown (may "get") (disallowed s MethodGet)
    (Some (r_RelativeToRoot request (selfLink (schema_GVR s) meta))) (links' !! "view") ∧
  link_shown (may "update") (disallowed s MethodPut) (links !! "update") (links' !! "update") ∧
  link_shown (may "delete") (disallowed s MethodDelete) (links !! "remove") (links' !! "remove") ∧
  link_shown (may "patch") (disallowed s MethodPatch) (links !! "patch") (links' !! "patch") ∧
  ∀ k, k ∉ ["view"; "update"; "remove"; "patch"] → links' !! k = links !! k.

Lemma format_links_rbac meta links :
  links_follow_rbac meta links
    (format_links APIObject_Name APIObject_Namespace request s (access_of sha256_hex C empty c user)
       obj meta links).
Proof.
  unfold links_follow_rbac, format_links. split_and!.
  1-4: eapply link_shown_granted; [by apply (access_of_rbac sha256_hex C empty)|].
  1-4: rewrite !set_link_lookup; cbn; try done.
  - by rewrite lookup_insert_eq.
  - by rewrite lookup_insert_ne.
  - by rewrite lookup_insert_ne.
  - by rewrite lookup_insert_ne.
  - intros k Hk. rewrite !not_elem_of_cons in Hk. destruct Hk as (? & ? & ? & ? & _).
    rewrite !set_link_lookup, !decide_False by done. by apply lookup_insert_ne.
Qed.
End links.

(** * Theorems *)

(** C22: A formatted object tells the user what RBAC lets them do: it keeps the links of exactly
    those requests that RBAC allows on the object, blocked when the schema disallows the
    method, and its list of permissions has exactly the verbs that RBAC allows on every object
    of a requested resource in the namespace the shown object names. Formatting succeeds
    whenever the fields of the object can be formatted. *)
Theorem formatter_shows_access `{MapRange, ObjectEditLaws, !NestedFields, !DateFields.Time,
    !ProxyStore.APIServer, K8sRBAC, SliceSort}
    GetValueN NormalizeConditions APIObject_Name APIObject_Namespace SummaryAndRelationship
    asl_AccessFor now opts sha256_hex C empty c crbs rbs `{!RBACCachesOK c crbs rbs}
    user request resource s meta links o o' :
  let obj := rr_APIObject resource in
  let q := Values_Get (r_Query request) "checkPermissions" in
  rr_Schema resource = Some s → S_Version (a_schema s) ≠ "" →
  meta_Accessor (ProxyStore.AO_Object obj) = Some meta → rr_Links resource = Some links →
  r_UserInfo request = Some user →
  access_set asl_AccessFor request user = Some (access_of sha256_hex C empty c user) →
  unstructured obj = Some o →
  format_object GetValueN NormalizeConditions SummaryAndRelationship now opts request s o = Ok o' →
  ∃ out links' p,
    formatter GetValueN NormalizeConditions APIObject_Name APIObject_Namespace
      SummaryAndRelationship asl_AccessFor now opts request resource = Ok out ∧
    rr_Links out = Some links' ∧
    links_follow_rbac c crbs rbs APIObject_Name APIObject_Namespace user request (a_schema s) obj
      meta links links' ∧
    unstructured (rr_APIObject out) =
      Some (if bool_decide (q = "") then o' else <["resourcePermissions" := permissions_value p]> o') ∧
    ∀ id v url, (∃ perms, p !! id = Some perms ∧ perms !! v = Some url) ↔
      id ∈ split_on "," q ∧ permission c crbs rbs user request
        (getNamespaceFromResource (rr_APIObject out)) id v url.
Proof.
  intros obj q Hs Hv Hm Hl Hu Ha Ho Hf. unfold formatter. rewrite Hs, bool_decide_eq_false_2 by done.
  fold obj. rewrite Hm, Hu. cbn [mbind option_bind]. rewrite Ha, Hl, Ho, Hf. cbn [mbind outcome_bind].
  set (shown := set_object obj o').
  set (out := add_permissions request (access_of sha256_hex C empty c user) shown).
  eexists _, _, (permissions request (access_of sha256_hex C empty c user)
    (getNamespaceFromResource shown) q). split; [done|]. split; [done|]. split.
  { by apply format_links_rbac. }
  cbn [rr_APIObject]. split.
  - subst out. unfold add_permissions. fold q. case_bool_decide; [done|].
    cbn. by rewrite PutValue_one.
  - intros id v url. subst out. rewrite namespace_add_permissions. by apply permissions_lookup.
Qed.

(** * A project whose namespace has another name, to evaluate the formatter *)
Module FormatterExample.
Import Concrete AccessControl.Example ConcreteData ConcreteEdit.

Definition project_schema : APISchema :=
  mkSchema "management.cattle.io.project" "management.cattle.io" "v3" "projects" "Project" true
    ["get"; "update"] {["PUT" := true]} None [] [].
Definition pod_schema : APISchema :=
  mkSchema "pod" "" "v1" "pods" "Pod" true ["get"; "create"] ∅ None [] [].

(** Alice may read and update projects in [c1], and create pods in [p-123]. *)
Definition project_rbs : list RoleBinding := [
  mkRB "u1" "c1" (mkRoleRef "Role" "owner") [user_subject "alice"];
  mkRB "u2" "p-123" (mkRoleRef "Role" "dev") [user_subject "alice"]].
Definition project_caches : RBACCaches := caches_of ∅ {[
  ("c1", "owner") := mkRole [mkRule ["get"; "update"] ["management.cattle.io"] ["projects"] [] []] "1";
  ("p-123", "dev") := mkRole [mkRule ["create"] [""] ["pods"] [] []] "1" ]} [] project_rbs.
Abbreviation alice_set := (access_of (λ s, s) gmap_cache ∅ project_caches alice).

Definition time : DateFields.Time :=
  {| DateFields.ParseRFC3339 := λ _, None; DateFields.HumanDuration := λ _, "1s" |}.
#[local] Existing Instance time.
#[local] Existing Instance ProxyStore.ProxyExample.server.

Definition value_at (o : object) (ks : list string) : goval := default GNil (get_value o ks).
Definition active : SummaryCache.SummarizedObject :=
  SummaryCache.mkSummarized "p1" "c1" "Project" "management.cattle.io/v3" "active" false false [] [].
Definition summary (_ : object)
    : option SummaryCache.SummarizedObject * list SummaryCache.Relationship :=
  (Some active, []).
Definition name_of (obj : ProxyStore.APIObject) : string :=
  match unstructured obj with Some o => Obj_GetName o | None => "" end.
Definition namespace_of (obj : ProxyStore.APIObject) : string :=
  match unstructured obj with Some o => Obj_GetNamespace o | None => "" end.

Definition project : object :=
  {["metadata" := GMap {["name" := GString "p1"; "namespace" := GString "c1"]};
    "status" := GMap {["backingNamespace" := GString "p-123"]}]}.
Definition api_project : ProxyStore.APIObject :=
  ProxyStore.mkAPIObject "management.cattle.io.project" "c1/p1"
    (ProxyStore.ARuntime (ProxyStore.RUnstructured project)) [].
Definition attributes : schema_attributes := mkAttributes project_schema false [].
Definition raw_project : RawResource := mkRaw (Some attributes) api_project
  (Some {["self" := "/p1"; "update" := "/p1"; "remove" := "/p1"]}).
Definition request (query : list (string * string)) : APIRequest :=
  mkRequest (Some alice) None (list_to_map ((λ p, (p.1, [p.2])) <$> query)) (Some attributes)
    (λ id, if decide (id = "pod") then Some pod_schema else None) (λ p, "https://host" +:+ p).

Abbreviation asl := (λ _ : UserInfo, Some alice_set).
Abbreviation run_formatter := (formatter value_at (λ o, o) name_of namespace_of summary asl 0%Z
  (mkOptions false)).
Definition check_pods : list (string * string) := [("checkPermissions", "pod,unknown")].
Definition formatted_project : object :=
  PutValue (PutValue project (GMap (VirtualFields.state_map active)) ["metadata"; "state"])
    (GSlice []) ["metadata"; "relationships"].
Definition create_url : string := "https://host/api/v1/namespaces/p-123/pods".

(** The links and permissions of an answer. *)
Definition answer_of (r : outcome string RawResource)
    : option (list (string * string)) * option goval :=
  match r with
  | Ok out => (map_to_list <$> rr_Links out,
      o ← unstructured (rr_APIObject out); o !! "resourcePermissions")
  | _ => (None, None)
  end.
(** The permissions of the formatted project say that Alice may create pods in [p-123]. *)
Lemma formatter_shows_access_witness :
  ∃ out links',
    run_formatter (request check_pods) raw_project = Ok out ∧ rr_Links out = Some links' ∧
    links' !! "remove" = None ∧ links' !! "update" = Some "blocked" ∧
    ∃ o, unstructured (rr_APIObject out) = Some o ∧
      is_Some (o !! "resourcePermissions").
Proof.
  destruct (formatter_shows_access value_at (λ o, o) name_of namespace_of summary asl 0%Z
    (mkOptions false) (λ s, s) gmap_cache ∅ project_caches [] project_rbs alice (request check_pods)
    raw_project attributes ("p1", "c1", "") {["self" := "/p1"; "update" := "/p1"; "remove" := "/p1"]}
    project formatted_project) as (out & links' & p & Hout & Hl & Hlinks & Ho & Hp).
  1-8: by vm_compute.
  exists out, links'. split; [exact Hout|]. split; [exact Hl|].
  destruct Hlinks as (_ & Hupdate & Hremove & _). cbn in Hupdate, Hremove.
  split; [|split].
  - apply Hremove. rewrite <- (access_of_rbac (λ s, s) gmap_cache ∅ project_caches [] project_rbs).
    vm_compute. discriminate.
  - apply Hupdate. apply (access_of_rbac (λ s, s) gmap_cache ∅ project_caches [] project_rbs).
    vm_compute. reflexivity.
  - exists (<["resourcePermissions" := permissions_value p]> formatted_project).
    split; [exact Ho|]. rewrite lookup_insert_eq. by eexists.
Defined.

(** Leaving the status out of the answer changes the namespace whose permissions are listed:
    the same project shows that Alice may not create pods. *)
Example permissions_of_excluded_status :
  (answer_of (run_formatter (request check_pods) raw_project)).2 =
    Some (permissions_value {["pod" := {["create" := create_url]}]}) ∧
  (answer_of (run_formatter (request (("exclude", "status") :: check_pods)) raw_project)).2 =
    Some (permissions_value ∅).
Proof. split; vm_compute; reflexivity. Qed.
End FormatterExample.
