(* ===== verification/ClientFactory.v ===== *)
(** * The clients of the Kubernetes API: pkg/client/factory.go

    A factory keeps four configurations that all its clients are made from. A client for a
    request gets a copy that names the user of the request; a client of the administrator is
    made from the shared configuration itself, into which the handler of its warnings has been
    written. Goroutines that make clients at the same time take turns at each step. *)
From S2P Require Import Prelude GoLib ListProcessor AccessControl Schemas.

(** What a configuration only stores: float32, the handlers of warnings (rest.WarningHandler)
    and the fields of rest.Config the factory does not touch. *)
Class RestTypes := {
  float32 : Type;
  float32_of_Z : Z → float32;
  WarningHandler : Type;
  rest : Type
}.

(** user.Info of k8s.io/apiserver. *)
Record User := mkUserInfo { u_info : UserInfo; u_extra : gmap string (list string) }.
Record Impersonation := mkImpersonation {
  UserName : string; Groups : list string; Extra : gmap string (list string) }.
Definition no_impersonation : Impersonation := mkImpersonation "" [] ∅.

(** ** Queries for tables: [addQuery] *)
Record addQuery := mkAddQuery { values : gmap string string }.
Record http_request := mkHTTP { h_query : Values; h_header : gmap string string }.

Definition table_types : string :=
  "application/json;as=Table;v=v1;g=meta.k8s.io,application/json;as=Table;v=v1beta1;g=meta.k8s.io".

(** [RoundTrip]: the request that is passed on. *)
Definition RoundTrip `{MapRange} (a : addQuery) (req : http_request) : http_request :=
  let q := foldl (λ (q : Values) '(k, v), <[k := [v]]> q) (h_query req) (range_map (values a)) in
  mkHTTP q (<["Accept" := table_types]> (h_header req)).

(** ** Configurations: the fields of rest.Config the factory touches, and the others *)
Section factory.
Context `{RestTypes}.

Record Config := mkConfig {
  Impersonate : Impersonation;
  cfg_WarningHandler : option WarningHandler;
  QPS : float32;
  Burst : Z;
  Timeout : Z;
  AcceptContentTypes : string;
  Wrappers : list addQuery;      (* the transports added by Wrap, the last one outermost *)
  cfg_rest : rest
}.
Implicit Types (cfg : Config) (h : option WarningHandler).

Definition impersonating cfg (i : Impersonation) : Config :=
  mkConfig i (cfg_WarningHandler cfg) (QPS cfg) (Burst cfg) (Timeout cfg) (AcceptContentTypes cfg)
    (Wrappers cfg) (cfg_rest cfg).
Definition handling cfg h : Config :=
  mkConfig (Impersonate cfg) h (QPS cfg) (Burst cfg) (Timeout cfg) (AcceptContentTypes cfg)
    (Wrappers cfg) (cfg_rest cfg).
Definition with_options cfg (qps : float32) (burst : Z) : Config :=
  mkConfig (Impersonate cfg) (cfg_WarningHandler cfg) qps burst (Timeout cfg)
    (AcceptContentTypes cfg) (Wrappers cfg) (cfg_rest cfg).
Definition with_timeout cfg (t : Z) : Config :=
  mkConfig (Impersonate cfg) (cfg_WarningHandler cfg) (QPS cfg) (Burst cfg) t
    (AcceptContentTypes cfg) (Wrappers cfg) (cfg_rest cfg).
Definition for_tables cfg : Config :=
  mkConfig (Impersonate cfg) (cfg_WarningHandler cfg) (QPS cfg) (Burst cfg) (Timeout cfg)
    table_types (Wrappers cfg ++ [mkAddQuery {["includeObject" := "Object"]}]) (cfg_rest cfg).

(** ** Options *)
Record factoryOptions := mkOptions { qps : float32; burst : Z }.
Definition FactoryOption : Type := factoryOptions → factoryOptions.
Definition defaultFactoryOptions : factoryOptions := mkOptions (float32_of_Z 10000) 100.
Definition WithQPSAndBurst (q : float32) (b : Z) : FactoryOption := λ _, mkOptions q b.

(** ** The factory *)
Inductive which := TableClientCfg | TableWatchClientCfg | ClientCfg | WatchClientCfg.
#[export] Instance which_eq_dec : EqDecision which.
Proof. solve_decision. Defined.

(** The shared configurations: [Config] of the Go struct is that of watches. *)
Record Factory := mkFactory { impersonate : bool; configs : which → Config }.

Definition minute : Z := 60 * 1000000000.

(** The constructors of client-go: [None], or the error of a configuration. *)
Class Constructors := {
  metadata_NewForConfig : Config → option string;
  dynamic_NewForConfig : Config → option string;
  kubernetes_NewForConfig : Config → option string
}.
Context `{Constructors}.

Definition NewFactory cfg (imp : bool) (opts : list FactoryOption) : outcome string Factory :=
  let options := foldl (λ o (opt : FactoryOption), opt o) defaultFactoryOptions opts in
  let clientCfg := with_options cfg (qps options) (burst options) in
  let watchClientCfg := with_timeout clientCfg (30 * minute) in
  match metadata_NewForConfig cfg, dynamic_NewForConfig cfg with
  | Some e, _ => Err e
  | _, Some e => Err e
  | _, _ => Ok (mkFactory imp (λ w, match w with
      | TableClientCfg => for_tables clientCfg
      | TableWatchClientCfg => for_tables watchClientCfg
      | ClientCfg => clientCfg
      | WatchClientCfg => watchClientCfg
      end))
  end.

(** ** Making a client *)

(** What a goroutine holds: the shared configuration, or a copy of its own. *)
Inductive pointer := Shared (w : which) | Copied (cfg : Config).

Definition setupConfig (ctx : option User) (configs : which → Config) (w : which) (imp : bool)
    : outcome string pointer :=
  if imp then
    match ctx with
    | None => Err "user not found for impersonation"
    | Some user => Ok (Copied (impersonating (configs w)
        (mkImpersonation (GetName (u_info user)) (GetGroups (u_info user)) (u_extra user))))
    end
  else Ok (Shared w).

(** The schema of a resource, with the attribute [table]. *)
Record client_schema := mkClientSchema { cs_GVR : GVR; cs_table : string }.
Definition Table (s : client_schema) : bool := bool_decide (cs_table s ≠ "false").

(** The kinds of clients: [K8sInterface] leaves the handler of warnings as it is. *)
Inductive kind := KK8s | KDynamic (h : option WarningHandler)
  | KResource (h : option WarningHandler) (gvr : GVR) (namespace : string).

(** A call of [newClient], [newDynamicClient] or [K8sInterface]. *)
Record call := mkCall {
  c_ctx : option User; c_cfg : which; c_impersonate : bool; c_kind : kind }.

(** A client works with the configuration it was made from; clients copy it. *)
Record client := mkClient { cl_config : Config; cl_resource : option (GVR * string) }.

Definition newClient (ctx : option User) (w : which) (s : client_schema) (namespace : string)
    (imp : bool) h : call := mkCall ctx w imp (KResource h (cs_GVR s) namespace).

Section methods.
Context (p : Factory) (ctx : option User) (s : client_schema) (namespace : string)
  (warningHandler : option WarningHandler).
Definition K8sInterface : call := mkCall ctx ClientCfg (impersonate p) KK8s.
Definition AdminK8sInterface : call := mkCall None ClientCfg false KK8s.
Definition DynamicClient : call := mkCall ctx ClientCfg (impersonate p) (KDynamic warningHandler).
Definition Client : call := newClient ctx ClientCfg s namespace (impersonate p) warningHandler.
Definition AdminClient : call := newClient ctx ClientCfg s namespace false warningHandler.
Definition ClientForWatch : call :=
  newClient ctx WatchClientCfg s namespace (impersonate p) warningHandler.
Definition AdminClientForWatch : call :=
  newClient ctx WatchClientCfg s namespace false warningHandler.
Definition TableClient : call :=
  if Table s then newClient ctx TableClientCfg s namespace (impersonate p) warningHandler else Client.
Definition TableAdminClient : call :=
  if Table s then newClient ctx TableClientCfg s namespace false warningHandler else AdminClient.
Definition TableClientForWatch : call :=
  if Table s then newClient ctx TableWatchClientCfg s namespace (impersonate p) warningHandler
  else ClientForWatch.
Definition TableAdminClientForWatch : call :=
  if Table s then newClient ctx TableWatchClientCfg s namespace false warningHandler
  else AdminClientForWatch.
End methods.

(** Where a goroutine is: before a call, after [setupConfig], after the handler is set, and
    at the end. *)
Inductive progress :=
  | Starting
  | Configured (cfg : outcome string pointer)
  | Ready (cfg : pointer)
  | Finished (r : outcome string client).

Definition deref (configs : which → Config) (p : pointer) : Config :=
  match p with Shared w => configs w | Copied cfg => cfg end.
Definition set_config (configs : which → Config) (w : which) cfg : which → Config :=
  λ w', if decide (w' = w) then cfg else configs w'.

Definition construct (k : kind) cfg : outcome string client :=
  match k with
  | KK8s => match kubernetes_NewForConfig cfg with Some e => Err e | None => Ok (mkClient cfg None) end
  | KDynamic _ => match dynamic_NewForConfig cfg with Some e => Err e | None => Ok (mkClient cfg None) end
  | KResource _ gvr ns => match dynamic_NewForConfig cfg with
      | Some e => Err e | None => Ok (mkClient cfg (Some (gvr, ns))) end
  end.

(** [cfg.WarningHandler = warningHandler], before the error is looked at: without a
    configuration this is a nil dereference. *)
Definition set_handler h (configs : which → Config) (cfg : outcome string pointer)
    : progress * (which → Config) :=
  match cfg with
  | Ok (Shared w) => (Ready (Shared w), set_config configs w (handling (configs w) h))
  | Ok (Copied cfg) => (Ready (Copied (handling cfg h)), configs)
  | Err _ | Panic => (Finished Panic, configs)
  end.

(** The next step of a goroutine. *)
Definition advance (c : call) (configs : which → Config) (p : progress)
    : progress * (which → Config) :=
  match p with
  | Starting => (Configured (setupConfig (c_ctx c) configs (c_cfg c) (c_impersonate c)), configs)
  | Configured cfg =>
      match c_kind c with
      | KK8s => (match cfg with
          | Ok cfg => Ready cfg | Err e => Finished (Err e) | Panic => Finished Panic end, configs)
      | KDynamic h | KResource h _ _ => set_handler h configs cfg
      end
  | Ready cfg => (Finished (construct (c_kind c) (deref configs cfg)), configs)
  | Finished r => (Finished r, configs)
  end.

(** A call on its own. *)
Definition run_call (c : call) (configs : which → Config) : outcome string client * (which → Config) :=
  let '(p, configs) := advance c configs Starting in
  let '(p, configs) := advance c configs p in
  let '(p, configs) := advance c configs p in
  match p with Finished r => (r, configs) | _ => (Panic, configs) end.

(** ** Calls of many goroutines *)
Record system := mkSystem { s_configs : which → Config; s_calls : gmap nat (call * progress) }.
Definition start (f : Factory) (calls : gmap nat call) : system :=
  mkSystem (configs f) ((λ c, (c, Starting)) <$> calls).
Definition exec (t : nat) (s : system) : option system :=
  '(c, p) ← s_calls s !! t;
  let '(p, configs) := advance c (s_configs s) p in
  Some (mkSystem configs (<[t := (c, p)]> (s_calls s))).
Definition step (s s' : system) : Prop := ∃ t, exec t s = Some s'.
Fixpoint exec_all (ts : list nat) (s : system) : option system :=
  match ts with [] => Some s | t :: ts => s ← exec t s; exec_all ts s end.
End factory.

(** * Lemmas *)
Section clients.
Context `{RestTypes, !Constructors}.
Implicit Types (cfg : Config) (c : call) (h : option WarningHandler).

(** The identity of a user, and the handler a kind of client asks for. *)
Definition identity (u : User) : Impersonation :=
  mkImpersonation (GetName (u_info u)) (GetGroups (u_info u)) (u_extra u).
Definition handler_of (k : kind) : option (option WarningHandler) :=
  match k with KK8s => None | KDynamic h | KResource h _ _ => Some h end.

(** The configuration [cfg] up to its handler of warnings. *)
Definition same_config cfg cfg' : Prop := ∃ h, cfg' = handling cfg h.

(** The identity of the clients of a call; none without a user to impersonate. *)
Definition call_identity (f : Factory) c : option Impersonation :=
  if c_impersonate c then identity <$> c_ctx c else Some (Impersonate (configs f (c_cfg c))).

(** A result made from the configuration of the call as [id]: with the call's own handler of
    warnings when [own] holds. *)
Definition made_as (f : Factory) c (id : Impersonation) (own : Prop)
    (r : outcome string (client)) : Prop :=
  ∃ h, r = construct (c_kind c) (handling (impersonating (configs f (c_cfg c)) id) h) ∧
    (own → ∀ h', handler_of (c_kind c) = Some h' → h = h').

(** A call without a user to impersonate. *)
Definition refused c
    (r : outcome string (client)) : Prop :=
  r = match c_kind c with KK8s => Err "user not found for impersonation" | _ => Panic end.

Definition pointer_ok f c (id : Impersonation) (p : pointer) : Prop :=
  match p with
  | Shared w => w = c_cfg c ∧ c_impersonate c = false
  | Copied cfg => same_config (impersonating (configs f (c_cfg c)) id) cfg ∧ c_impersonate c = true
  end.
Definition ready_ok f c (id : Impersonation) (p : pointer) : Prop :=
  pointer_ok f c id p ∧
  match p with
  | Shared _ => True
  | Copied cfg => ∀ h, handler_of (c_kind c) = Some h → cfg_WarningHandler cfg = h
  end.

Definition progress_ok f c (p : progress) : Prop :=
  match call_identity f c with
  | None => match p with
      | Starting => True
      | Configured cfg => cfg = Err "user not found for impersonation"
      | Ready _ => False
      | Finished r => refused c r
      end
  | Some id => match p with
      | Starting => True
      | Configured cfg => ∃ ptr, cfg = Ok ptr ∧ pointer_ok f c id ptr
      | Ready ptr => ready_ok f c id ptr
      | Finished r => made_as f c id (c_impersonate c = true) r
      end
  end.

Definition configs_ok (f : Factory) (cfgs : which → Config) : Prop :=
  ∀ w, same_config (configs f w) (cfgs w).

Lemma same_config_refl cfg : same_config cfg cfg.
Proof. exists (cfg_WarningHandler cfg). by destruct cfg. Qed.
Lemma same_config_handling cfg cfg' h : same_config cfg cfg' → same_config cfg (handling cfg' h).
Proof. intros [h' ->]. by exists h. Qed.
Lemma handling_same cfg cfg' h : same_config cfg cfg' → handling cfg' h = handling cfg h.
Proof. by intros [h' ->]. Qed.
Lemma same_config_impersonating cfg cfg' i :
  same_config cfg cfg' → same_config (impersonating cfg i) (impersonating cfg' i).
Proof. intros [h ->]. by exists h. Qed.
Lemma impersonating_id cfg : impersonating cfg (Impersonate cfg) = cfg.
Proof. by destruct cfg. Qed.

Lemma set_config_ok f cfgs w h : configs_ok f cfgs →
  configs_ok f (set_config cfgs w (handling (cfgs w) h)).
Proof.
  intros Hok w'. unfold set_config. case_decide as Hw; [subst|apply Hok].
  by apply same_config_handling.
Qed.

Lemma setupConfig_ok f c cfgs : configs_ok f cfgs →
  progress_ok f c (Configured (setupConfig (c_ctx c) cfgs (c_cfg c) (c_impersonate c))).
Proof.
  intros Hok. unfold progress_ok, call_identity, setupConfig.
  destruct (c_impersonate c) eqn:Hi; [destruct (c_ctx c) as [u|]; cbn; [|done]|].
  - eexists. split; [done|]. split; [|done]. by apply same_config_impersonating.
  - eexists. split; [done|]. by split.
Qed.

Lemma set_handler_ok f c cfgs h (cfg : outcome string pointer) :
  handler_of (c_kind c) = Some h → configs_ok f cfgs → progress_ok f c (Configured cfg) →
  progress_ok f c (set_handler h cfgs cfg).1 ∧ configs_ok f (set_handler h cfgs cfg).2.
Proof.
  intros Hh Hok Hp. unfold progress_ok in *. destruct (call_identity f c) as [id|].
  - destruct Hp as (ptr & -> & Hptr). destruct ptr as [w|cfg']; cbn.
    + split; [by split|]. by apply set_config_ok.
    + split; [|done]. destruct Hptr as [Hs Hi]. split; [split; [|done]|].
      * by apply same_config_handling.
      * intros h' Hh'. cbn. congruence.
  - rewrite Hp. cbn. split; [|done]. unfold refused. by destruct (c_kind c).
Qed.

Lemma construct_ok f c cfgs ptr : configs_ok f cfgs → progress_ok f c (Ready ptr) →
  progress_ok f c (Finished (construct (c_kind c) (deref cfgs ptr))).
Proof.
  intros Hok Hp. unfold progress_ok in *. destruct (call_identity f c) as [id|] eqn:Hid; [|done].
  destruct Hp as [Hptr Hown]. unfold call_identity in Hid. destruct ptr as [w|cfg']; cbn.
  - destruct Hptr as [-> Hi]. rewrite Hi in Hid. injection Hid as <-.
    destruct (Hok (c_cfg c)) as [h Hh]. rewrite Hh.
    exists h. split; [by rewrite impersonating_id|]. by rewrite Hi.
  - destruct Hptr as [[h ->] Hi]. exists h. split; [done|]. intros _ h' Hh'.
    by apply Hown in Hh'.
Qed.

Lemma advance_ok f c cfgs p : configs_ok f cfgs → progress_ok f c p →
  progress_ok f c (advance c cfgs p).1 ∧ configs_ok f (advance c cfgs p).2.
Proof.
  intros Hok Hp. destruct p as [|cfg|ptr|r]; cbn.
  - split; [by apply setupConfig_ok|done].
  - destruct (c_kind c) as [|h|h gvr ns] eqn:Hk;
      [|by apply set_handler_ok; rewrite ?Hk..]. split; [|done].
    unfold progress_ok in *. destruct (call_identity f c) as [id|].
    + destruct Hp as (ptr & -> & Hptr). split; [done|]. destruct ptr; [done|]. by rewrite Hk.
    + rewrite Hp. unfold refused. cbn. by rewrite Hk.
  - split; [by apply construct_ok|done].
  - by split.
Qed.

Definition system_ok (f : Factory) (s : system) : Prop :=
  configs_ok f (s_configs s) ∧ map_Forall (λ _ cp, progress_ok f cp.1 cp.2) (s_calls s).

Lemma start_ok f calls : system_ok f (start f calls).
Proof.
  split; [intros w; apply same_config_refl|].
  intros t cp Ht. cbn in Ht. rewrite lookup_fmap in Ht.
  destruct (calls !! t) as [c|]; [|done]. injection Ht as <-. unfold progress_ok. by case_match.
Qed.

Lemma call_step_ok f s s' : step s s' → system_ok f s → system_ok f s'.
Proof.
  intros [t Ht] [Hok Hc]. unfold exec in Ht.
  destruct (s_calls s !! t) as [[c p]|] eqn:Hp; [|done]. cbn in Ht.
  destruct (advance_ok f c (s_configs s) p Hok (Hc _ _ Hp)) as [Hp' Hok'].
  destruct (advance c (s_configs s) p) as [p' cfgs]. injection Ht as <-. split; [done|].
  by apply map_Forall_insert_2.
Qed.

Lemma call_steps_ok f s s' : rtc step s s' → system_ok f s → system_ok f s'.
Proof. induction 1; [done|]. intros Hs. by eapply IHrtc, call_step_ok. Qed.

Lemma NewFactory_configs cfg imp opts f w : NewFactory cfg imp opts = Ok f →
  impersonate f = imp ∧ Impersonate (configs f w) = Impersonate cfg.
Proof. unfold NewFactory. intros Hf. repeat case_match; simplify_eq. by destruct w. Qed.

(** The methods of the factory, for a request and for the administrator. *)
Definition user_calls (f : Factory) ctx s ns h : list call :=
  [K8sInterface f ctx; DynamicClient f ctx h; Client f ctx s ns h; ClientForWatch f ctx s ns h;
   TableClient f ctx s ns h; TableClientForWatch f ctx s ns h].
Definition admin_calls ctx s ns h : list call :=
  [AdminK8sInterface; AdminClient ctx s ns h; AdminClientForWatch ctx s ns h;
   TableAdminClient ctx s ns h; TableAdminClientForWatch ctx s ns h].

Lemma user_calls_impersonate f ctx s ns h c : c ∈ user_calls f ctx s ns h →
  c_impersonate c = impersonate f ∧ c_ctx c = ctx.
Proof.
  revert c. apply list.Forall_forall. unfold user_calls, TableClient, TableClientForWatch.
  destruct (Table s); repeat constructor.
Qed.
Lemma admin_calls_impersonate ctx s ns h c : c ∈ admin_calls ctx s ns h → c_impersonate c = false.
Proof.
  revert c. apply list.Forall_forall. unfold admin_calls, TableAdminClient, TableAdminClientForWatch.
  destruct (Table s); repeat constructor.
Qed.
End clients.

(** * Theorems *)

(** C8: However the calls of a factory interleave, a client made for a request of a factory that
    impersonates acts as the user of that request and reports its warnings to that request, a
    client of the administrator acts as the factory, and both are otherwise configured as the
    factory was. Without a user no client is made: [K8sInterface] returns an error, the other
    methods dereference a configuration that is nil. *)
Theorem clients_act_as_user `{RestTypes, !Constructors} (cfg : Config) imp opts f calls s t c r :
  NewFactory cfg imp opts = Ok f → rtc step (start f calls) s → s_calls s !! t = Some (c, Finished r) →
  (∀ ctx sch ns h, c ∈ user_calls f ctx sch ns h →
    if imp then match ctx with
      | Some user => made_as f c (identity user) True r
      | None => refused c r
      end
    else made_as f c (Impersonate cfg) False r) ∧
  (∀ ctx sch ns h, c ∈ admin_calls ctx sch ns h → made_as f c (Impersonate cfg) False r).
Proof.
  intros Hf Hs Ht. apply (call_steps_ok f) in Hs as [_ Hc]; [|apply start_ok].
  specialize (Hc _ _ Ht). cbn in Hc. unfold progress_ok, call_identity in Hc.
  destruct (NewFactory_configs _ _ _ _ (c_cfg c) Hf) as [Himp Hid].
  split; intros ctx sch ns h Hin.
  - apply user_calls_impersonate in Hin as [Hi Hctx]. rewrite Hi, Himp, Hctx in Hc.
    destruct imp; [destruct ctx as [user|]; cbn in Hc|].
    + destruct Hc as (h' & -> & Hown). exists h'. split; [done|]. intros _. by apply Hown.
    + done.
    + rewrite Hid in Hc. destruct Hc as (h' & -> & _). by exists h'.
  - apply admin_calls_impersonate in Hin as Hi. rewrite Hi, Hid in Hc.
    destruct Hc as (h' & -> & _). by exists h'.
Qed.

(** * Two requests, to evaluate the factory *)
Module FactoryExample.

Definition types : RestTypes :=
  {| float32 := Z; float32_of_Z := λ z, z; WarningHandler := string; rest := unit |}.
#[local] Existing Instance types.
Definition constructors : Constructors := {|
  metadata_NewForConfig := λ _, None; dynamic_NewForConfig := λ _, None;
  kubernetes_NewForConfig := λ _, None |}.
#[local] Existing Instance constructors.

Definition base : Config := mkConfig no_impersonation None 5%Z 10%Z 0%Z "" [] tt.
Definition alice : User := mkUserInfo (mkUser "alice" ["devs"]) ∅.
Definition pods : client_schema := mkClientSchema (mkGVR "" "v1" "pods") "".

Definition factory : Factory :=
  match NewFactory base true [] with Ok f => f | _ => mkFactory true (λ _, base) end.
(** One request of Alice and one of the administrator. *)
Definition user_call : call := TableClient factory (Some alice) pods "team" (Some "alice's warnings").
Definition admin_call (h : string) : call := TableAdminClient None pods "" (Some h).
Definition both : gmap nat call := {[0 := user_call; 1 := admin_call "admin's warnings"]}.
Definition after (ts : list nat) (calls : gmap nat call) : system :=
  default (start factory calls) (exec_all ts (start factory calls)).
Definition result_of (s : system) (t : nat) : outcome string client :=
  match s_calls s !! t with Some (_, Finished r) => r | _ => Err "not finished" end.

Lemma exec_all_steps `{RestTypes, !Constructors} ts s s' :
  exec_all ts s = Some s' → rtc step s s'.
Proof.
  revert s. induction ts as [|t ts IH]; intros s; cbn; [by intros [= <-]|].
  destruct (exec t s) as [s1|] eqn:He; cbn; [|done]. intros Hs.
  eapply rtc_l; [by exists t|by apply IH].
Qed.

Lemma clients_act_as_user_witness :
  ∃ cl, result_of (after [1; 0; 1; 0; 0; 1] both) 0 = Ok cl ∧
    Impersonate (cl_config cl) = mkImpersonation "alice" ["devs"] ∅ ∧
    cfg_WarningHandler (cl_config cl) = Some "alice's warnings".
Proof.
  destruct (clients_act_as_user base true [] factory both (after [1; 0; 1; 0; 0; 1] both) 0 user_call
    (result_of (after [1; 0; 1; 0; 0; 1] both) 0)) as [Huser _].
  - reflexivity.
  - apply (exec_all_steps [1; 0; 1; 0; 0; 1]). reflexivity.
  - reflexivity.
  - destruct (Huser (Some alice) pods "team" (Some "alice's warnings")) as (h & Hr & Hown).
    { do 4 apply list_elem_of_further. by left. }
    rewrite (Hown Logic.I _ eq_refl) in Hr.
    eexists. split; [exact Hr|by split].
Defined.

(** Two clients of the administrator made at the same time: the warnings of the first request
    go to the second. *)
Example warnings_cross :
  let s := after [0; 0; 1; 1; 0; 1] {[0 := admin_call "first"; 1 := admin_call "second"]} in
  ∃ cl, result_of s 0 = Ok cl ∧ cfg_WarningHandler (cl_config cl) = Some "second".
Proof. eexists. split; reflexivity. Qed.

(** The handler of an earlier request stays in the shared configuration. *)
Example warnings_stay :
  let s := after [0; 0; 0; 1; 1; 1]
    {[0 := AdminClient None pods "" (Some "first"); 1 := AdminK8sInterface]} in
  ∃ cl, result_of s 1 = Ok cl ∧ cfg_WarningHandler (cl_config cl) = Some "first".
Proof. eexists. split; reflexivity. Qed.

(** A request without a user. *)
Example no_user_panics :
  (run_call (Client factory None pods "team" None) (configs factory)).1 = Panic ∧
  (run_call (K8sInterface factory None) (configs factory)).1 =
    Err "user not found for impersonation".
Proof. by split. Qed.
End FactoryExample.
