(* ===== verification/WatchRefresh.v ===== *)
(** * Watches and changes of access: pkg/stores/proxy/watch_refresh.go

    A watch of the proxy store computes the access set of its user every two seconds and ends
    when its ID is another one than at the start. The ID is the hash under which
    [AccessControl] caches access sets. *)
From S2P Require Import Prelude GoLib AccessControl.

Section refresh.
Context `{MapRange, K8sRBAC, SliceSort} (sha256_hex : string → string) (C : accessStoreCache).

(** The access store when the goroutine looks: the RBAC objects, and the cache as other requests
    have left it, [None] for a store that does not cache. *)
Record moment := mkMoment { m_rbac : RBACCaches; m_cache : option (cache_state C) }.
Implicit Types (t : moment) (user : UserInfo).

Definition AccessFor_ID t user : string :=
  ID (AccessFor sha256_hex (store_with (m_rbac t) (m_cache t)) user).1.

(** What ends the wait of the goroutine: the context is done, or two seconds have passed. *)
Inductive wake := CtxDone | After (t : moment).

(** The number of the wait after which the goroutine cancels the context of the watch. *)
Fixpoint refresh_loop (as_ID : string) user (waits : list wake) : option nat :=
  match waits with
  | [] | CtxDone :: _ => None
  | After t :: waits =>
      if bool_decide (as_ID ≠ AccessFor_ID t user) then Some 0
      else S <$> refresh_loop as_ID user waits
  end.

(** A request without a user is passed on. *)
Definition Watch (user : option UserInfo) t (waits : list wake) : option nat :=
  match user with
  | None => None
  | Some user => refresh_loop (AccessFor_ID t user) user waits
  end.

(** The watch runs until the end of the wait [i]. *)
Definition running (cancelled : option nat) (i : nat) : Prop :=
  match cancelled with Some k => i < k | None => True end.

(** * Lemmas *)

(** Entries are cached under their ID. *)
Definition keyed `{!CacheLaws C} (c : cache_state C) : Prop :=
  ∀ k a, cache_contents c !! k = Some a → ID a = k.
Definition moment_ok `{!CacheLaws C} t : Prop := ∃ c, m_cache t = Some c ∧ keyed c.

Lemma keyed_empty `{!CacheLaws C} (c : cache_state C) : cache_contents c = ∅ → keyed c.
Proof. intros He k a Hk. by rewrite He in Hk. Qed.

(** Lookups and purges keep it so: every cache of a store that starts empty is keyed. *)
Lemma keyed_AccessFor `{!CacheLaws C} rbac user (c : cache_state C) : keyed c →
  ∃ a c', AccessFor sha256_hex (store_with rbac (Some c)) user = (a, store_with rbac (Some c')) ∧
    ID a = userGrants_hash sha256_hex (grants_now rbac user) ∧ keyed c'.
Proof.
  intros Hk. unfold AccessFor. cbn [cache store_with usersPolicyRules groupsPolicyRules].
  fold (grants_now rbac user). set (h := userGrants_hash sha256_hex (grants_now rbac user)).
  pose proof (cache_Get_found h c) as Hfound. pose proof (cache_Get_contents h c) as Hsub.
  destruct (cache_Get C h c) as [[a|] c']; cbn in Hfound, Hsub.
  - exists a, c'. split_and!; [done|by apply Hk, Hfound|].
    intros k b Hb. apply Hk. by eapply lookup_weaken.
  - eexists _, _. split_and!; [done|done|]. intros k b Hb.
    eapply lookup_weaken in Hb; [|apply cache_Add_contents].
    apply lookup_insert_Some in Hb as [[<- <-]|[_ Hb]]; [done|]. apply Hk. by eapply lookup_weaken.
Qed.
Lemma keyed_Purge `{!CacheLaws C} id (c : cache_state C) : keyed c → keyed (cache_Remove C id c).
Proof.
  intros Hk k a Ha. eapply lookup_weaken in Ha; [|apply cache_Remove_contents].
  apply lookup_delete_Some in Ha as [_ Ha]. by apply Hk.
Qed.

Lemma AccessFor_ID_hash `{!CacheLaws C} t user : moment_ok t →
  AccessFor_ID t user = userGrants_hash sha256_hex (grants_now (m_rbac t) user).
Proof.
  intros (c & Hc & Hk). unfold AccessFor_ID. rewrite Hc.
  destruct (keyed_AccessFor (m_rbac t) user c Hk) as (a & c' & -> & Ha & _). done.
Qed.

Lemma refresh_loop_same as_ID user ts i t :
  ts !! i = Some t → running (refresh_loop as_ID user (After <$> ts)) i →
  AccessFor_ID t user = as_ID.
Proof.
  revert i. induction ts as [|t' ts IH]; intros i Hi Hr; [done|]. cbn in Hr.
  case_bool_decide as Hd; cbn in Hr; [lia|].
  assert (Hid : AccessFor_ID t' user = as_ID) by (destruct (decide (as_ID = AccessFor_ID t' user)); [done|tauto]).
  destruct i as [|i]; [by injection Hi as <-|]. apply (IH i Hi).
  destruct (refresh_loop as_ID user (After <$> ts)); cbn in *; [lia|done].
Qed.

Lemma refresh_loop_changed as_ID user ts k :
  refresh_loop as_ID user (After <$> ts) = Some k →
  ∃ t, ts !! k = Some t ∧ AccessFor_ID t user ≠ as_ID.
Proof.
  revert k. induction ts as [|t ts IH]; intros k Hk; cbn in Hk; [done|].
  case_bool_decide as Hd.
  - injection Hk as <-. by exists t.
  - destruct (refresh_loop as_ID user (After <$> ts)) as [k'|]; [|done]. injection Hk as <-.
    by apply IH.
Qed.

(** No operation on access sets changes the ID. *)
Lemma foldl_ID {B} (f : AccessSet → B → AccessSet) a l :
  (∀ a x, ID (f a x) = ID a) → ID (foldl f a l) = ID a.
Proof. intros Hf. revert a. induction l as [|x l IH]; intros a; cbn; [done|]. by rewrite IH. Qed.

Lemma addAccess_ID a ns r : ID (addAccess a ns r) = ID a.
Proof.
  unfold addAccess. apply foldl_ID. intros a' rule. case_bool_decide; [|case_bool_decide; [|done]].
  - unfold addResourceAccess. do 4 (apply foldl_ID; intros). unfold AccessSet_Add. by case_match.
  - unfold AddNonResourceURLs. by destruct (_ || _).
Qed.

Lemma uncached_ID t user : m_cache t = None → AccessFor_ID t user = "".
Proof.
  intros Ht. unfold AccessFor_ID. rewrite Ht. cbn. unfold newAccessSet.
  rewrite foldl_ID by done. unfold toAccessSet.
  rewrite foldl_ID by (intros; apply addAccess_ID). by rewrite foldl_ID by (intros; apply addAccess_ID).
Qed.

(** The rights of a user are those of the grants. *)
Lemma same_grants_rbac c crbs rbs c' crbs' rbs' user v g ns n :
  RBACCachesOK c crbs rbs → RBACCachesOK c' crbs' rbs' → grants_now c user = grants_now c' user →
  rbac_allows c crbs rbs user v g ns n ↔ rbac_allows c' crbs' rbs' user v g ns n.
Proof.
  intros Hok Hok' Heq. rewrite <- (grants_allow_rbac c crbs rbs), <- (grants_allow_rbac c' crbs' rbs').
  unfold grants_now in Heq. by rewrite Heq.
Qed.
End refresh.
Arguments mkMoment {C}.
Arguments m_rbac {C}.
Arguments m_cache {C}.
Arguments After {C}.
Arguments CtxDone {C}.

(** * Theorems *)

(** C10: With an access store that caches, when the hash of the text of grants tells the grants apart that occur while
    the goroutine looks, a watch is ended by the first look after which the grants of its user are others than when it began, and
    only then; so as long as it runs, at every look the user may do exactly what they might do at the beginning. Without a
    cache no watch is ever ended ([uncached_never_ends]), and grants with the same text are not told apart
    ([RefreshExample.moved_role_unnoticed]). *)
Theorem watch_ends_with_access `{MapRange, K8sRBAC, SliceSort} sha256_hex C `{!CacheLaws C}
    user (t0 : moment C) ts crbs0 rbs0 :
  moment_ok C t0 → Forall (moment_ok C) ts → RBACCachesOK (m_rbac t0) crbs0 rbs0 →
  (∀ t, t ∈ ts → userGrants_hash sha256_hex (grants_now (m_rbac t) user) =
    userGrants_hash sha256_hex (grants_now (m_rbac t0) user) →
    grants_now (m_rbac t) user = grants_now (m_rbac t0) user) →
  let cancelled := Watch sha256_hex C (Some user) t0 (After <$> ts) in
  (∀ k, cancelled = Some k ↔
    (∃ t, ts !! k = Some t ∧ grants_now (m_rbac t) user ≠ grants_now (m_rbac t0) user) ∧
    ∀ i t, i < k → ts !! i = Some t → grants_now (m_rbac t) user = grants_now (m_rbac t0) user) ∧
  (∀ i t crbs rbs, ts !! i = Some t → running cancelled i → RBACCachesOK (m_rbac t) crbs rbs →
    ∀ v g ns n, rbac_allows (m_rbac t) crbs rbs user v g ns n ↔
                rbac_allows (m_rbac t0) crbs0 rbs0 user v g ns n).
Proof.
  intros Ht0 Hts Hok0 Hinj cancelled. rewrite list.Forall_forall in Hts.
  assert (∀ i t, ts !! i = Some t → running cancelled i → grants_now (m_rbac t) user = grants_now (m_rbac t0) user) as Hsame.
  { intros i t Hi Hr. assert (Hin : t ∈ ts) by by eapply list_elem_of_lookup_2.
    eapply refresh_loop_same in Hr; [|exact Hi].
    rewrite (AccessFor_ID_hash _ C t), (AccessFor_ID_hash _ C t0) in Hr by auto. by apply Hinj. }
  assert (∀ k, cancelled = Some k →
    ∃ t, ts !! k = Some t ∧ grants_now (m_rbac t) user ≠ grants_now (m_rbac t0) user) as Hchanged.
  { intros k (t & Hk & Hne)%refresh_loop_changed. exists t. split; [done|]. intros Heq. apply Hne.
    assert (Hin : t ∈ ts) by by eapply list_elem_of_lookup_2.
    rewrite (AccessFor_ID_hash _ C t), (AccessFor_ID_hash _ C t0) by auto. by rewrite Heq. }
  split.
  - intros k. split.
    + intros Hk. split; [by apply Hchanged|]. intros i t Hlt Hi. apply (Hsame i); [done|]. by rewrite Hk.
    + intros [(t & Hk & Hne) Hbefore]. destruct cancelled as [k'|] eqn:Hc.
      * destruct (Hchanged k' eq_refl) as (t' & Hk' & Hne'). f_equal.
        destruct (lt_eq_lt_dec k' k) as [[Hlt|?]|Hlt]; [|done|].
        -- destruct Hne'. by eapply Hbefore.
        -- destruct Hne. eapply Hsame; [done|]. exact Hlt.
      * destruct Hne. by eapply Hsame.
  - intros i t crbs rbs Hi Hr Hok v g ns n. apply same_grants_rbac; [done..|]. by eapply Hsame.
Qed.

(** Without a cache every access set has the same ID, and no watch is ended. *)
Lemma uncached_never_ends `{MapRange, K8sRBAC, SliceSort} sha256_hex C user (t0 : moment C) ts :
  (∀ t, t ∈ t0 :: ts → m_cache t = None) → Watch sha256_hex C user t0 (After <$> ts) = None.
Proof.
  intros Hn. destruct user as [user|]; [|done]. cbn.
  rewrite uncached_ID by (apply Hn; by left).
  assert (Hts : ∀ t, t ∈ ts → m_cache t = None) by (intros; apply Hn; by right). clear Hn.
  induction ts as [|t ts IH]; [done|]. cbn. rewrite uncached_ID by (apply Hts; by left).
  rewrite bool_decide_eq_false_2 by auto. rewrite IH; [done|]. intros. apply Hts. by right.
Qed.

(** * Alice loses her role while she watches *)
Module RefreshExample.
Import Concrete AccessControl.Example.

Definition at_moment (rbac : RBACCaches) (c : gmap string AccessSet) : moment gmap_cache :=
  mkMoment rbac (Some (c : cache_state gmap_cache)).
Definition revoked : RBACCaches := caches_of ∅ ∅ [] [].

Lemma watch_ends_with_access_witness :
  Watch (λ s, s) gmap_cache (Some alice) (at_moment caches ∅) (After <$> [at_moment caches ∅; at_moment revoked ∅]) = Some 1 ↔
  (∃ t, [at_moment caches ∅; at_moment revoked ∅] !! 1 = Some t ∧
    grants_now (m_rbac t) alice ≠ grants_now caches alice) ∧
  ∀ i t, i < 1 → [at_moment caches ∅; at_moment revoked ∅] !! i = Some t → grants_now (m_rbac t) alice = grants_now caches alice.
Proof.
  refine (proj1 (watch_ends_with_access (λ s, s) gmap_cache alice (at_moment caches ∅)
    [at_moment caches ∅; at_moment revoked ∅] [] rbs _ _ _ _) 1).
  - by eexists.
  - constructor; [by eexists|]. constructor; [by eexists|constructor].
  - intros t Ht. apply elem_of_cons in Ht as [Ht|Ht%list_elem_of_singleton]; subst t; [done|].
    vm_compute. discriminate.
Defined.

(** The role of Alice is moved to another namespace; the text that is hashed stays the same, and
    her watch of "team" goes on. *)
Definition moved : RBACCaches := caches_of ∅ {[("team1", "reader") := read_pods "1"]} []
  [mkRB "u1" "team1" (mkRoleRef "Role" "reader") [user_subject "alice"]].
Example moved_role_unnoticed (sha : string → string) :
  Watch sha gmap_cache (Some alice) (at_moment caches ∅) [After (at_moment moved ∅)] = None ∧
  AccessSet_Grants (newAccessSet (grants_now caches alice)) "get" pods "team" "web" = true ∧
  AccessSet_Grants (newAccessSet (grants_now moved alice)) "get" pods "team" "web" = false.
Proof.
  split_and!; [|by vm_compute..]. cbn.
  rewrite (AccessFor_ID_hash sha gmap_cache (at_moment caches ∅)),
    (AccessFor_ID_hash sha gmap_cache (at_moment moved ∅)) by by eexists. cbn [at_moment m_rbac].
  assert (userGrants_hash sha (grants_now caches alice) = userGrants_hash sha (grants_now moved alice))
    as -> by (vm_compute; reflexivity).
  by rewrite bool_decide_eq_false_2 by auto.
Qed.
End RefreshExample.
