(* ===== verification/ApiTrace.v ===== *)
(** * Programs that talk to an API, and their traces

    A program is an interaction tree whose events are calls and whose results may be errors.
    Its traces are the calls it makes, each with the answer it gets; a program that waits for
    ever has traces that never end. *)
From Stdlib Require Import Program.Equality.
From ITree Require Import Core.ITreeDefinition.
From S2P Require Import Prelude GoLib.

Section traces.
Context {E : Type → Type}.

(** A call and its answer. *)
Record event := mkEvent { ev_type : Type; ev_call : E ev_type; ev_answer : ev_type }.
Arguments mkEvent {ev_type}.

(** The trace of a run up to some point: with the result, or [None] while it goes on. *)
Inductive trace {R} (t : itree E R) : list event → option R → Prop :=
  | trace_now : trace t [] None
  | trace_ret r : observe t = RetF r → trace t [] (Some r)
  | trace_tau t' l r : observe t = TauF t' → trace t' l r → trace t l r
  | trace_vis X (e : E X) k x l r : observe t = VisF e k → trace (k x) l r →
      trace t (mkEvent e x :: l) r.

Lemma observe_bind {R S} (t : itree E R) (k : R → itree E S) :
  observe (ITree.bind t k) = match observe t with
    | RetF r => observe (k r)
    | TauF t => TauF (ITree.bind t k)
    | VisF e h => VisF e (λ x, ITree.bind (h x) k)
    end.
Proof.
  change (observe (ITree.bind t k)) with (observe (match observe t with
    | RetF r => k r
    | TauF t => Tau (ITree.bind t k)
    | VisF e h => Vis e (λ x, ITree.bind (h x) k)
    end)). by destruct (observe t).
Qed.

Lemma trace_bind {R S} (t : itree E R) (k : R → itree E S) l s :
  trace (ITree.bind t k) l s →
  (trace t l None ∧ s = None) ∨
  ∃ l1 r l2, l = l1 ++ l2 ∧ trace t l1 (Some r) ∧ trace (k r) l2 s.
Proof.
  intros Hl. remember (ITree.bind t k) as u eqn:Hu. revert t Hu.
  induction Hl as [u|u s Hs|u u' l s Hs Hl IH|u X e k' x l s Hs Hl IH]; intros t ->.
  - left. split; [apply trace_now|done].
  - rewrite observe_bind in Hs. destruct (observe t) as [r|t'|X e k'] eqn:Ht; [|done..].
    right. exists [], r, []. split_and!; [done|by apply trace_ret|by apply trace_ret].
  - rewrite observe_bind in Hs. destruct (observe t) as [r|t'|X e k'] eqn:Ht; [| |done].
    + right. exists [], r, l. split_and!; [done|by apply trace_ret|by apply (trace_tau _ u')].
    + injection Hs as <-. destruct (IH t' eq_refl) as [[Ht' ->]|(l1 & r & l2 & -> & Ht' & Hk)].
      * left. split; [by apply (trace_tau _ t')|done].
      * right. exists l1, r, l2. split_and!; [done|by apply (trace_tau _ t')|done].
  - rewrite observe_bind in Hs. destruct (observe t) as [r|t'|Y e' k''] eqn:Ht; [|done|].
    + right. exists [], r, (mkEvent e x :: l). split_and!; [done|by apply trace_ret|by apply (trace_vis _ _ e k')].
    + dependent destruction Hs.
      destruct (IH (k'' x) eq_refl) as [[Ht' ->]|(l1 & r & l2 & -> & Ht' & Hk)].
      * left. split; [by apply (trace_vis _ _ e k'')|done].
      * right. exists (mkEvent e x :: l1), r, l2. split_and!; [done|by apply (trace_vis _ _ e k'')|done].
Qed.

Lemma trace_observe {R} (t u : itree E R) l r : observe t = observe u → trace t l r → trace u l r.
Proof.
  intros Ho Ht. destruct Ht as [|r Hr|t' l r Hr Ht|X e k x l r Hr Ht].
  - apply trace_now.
  - apply trace_ret. congruence.
  - apply (trace_tau _ t'); congruence.
  - apply (trace_vis _ _ e k); congruence.
Qed.

Lemma observe_iter {I R} (body : I → itree E (I + R)) i :
  observe (ITree.iter body i) = observe (ITree.bind (body i) (λ lr, match lr with
    | inl i => Tau (ITree.iter body i)
    | inr r => Ret r
    end)).
Proof. reflexivity. Qed.

(** ** Properties of every call *)
Section all.
Context (P : event → Prop).

(** Every call of every run satisfies [P]. *)
Definition all {R} (t : itree E R) : Prop := ∀ l r, trace t l r → Forall P l.

Lemma all_ret {R} (r : R) : all (Ret r).
Proof. intros l s Hl. by inversion Hl. Qed.

Lemma all_tau {R} (t t' : itree E R) : observe t = TauF t' → all t → all t'.
Proof. intros Ho Ht l r Hl. apply (Ht l r). by apply (trace_tau _ t'). Qed.

Lemma all_vis {R} (t : itree E R) X (e : E X) k x :
  observe t = VisF e k → all t → P (mkEvent e x) ∧ all (k x).
Proof.
  intros Ho Ht. split.
  - apply (Forall_inv (P := P) (l := [])). apply (Ht _ None).
    apply (trace_vis _ _ e k); [done|apply trace_now].
  - intros l r Hl. apply (Forall_inv_tail (P := P) (a := mkEvent e x)). apply (Ht _ r).
    by apply (trace_vis _ _ e k).
Qed.

Lemma all_trigger X (e : E X) : (∀ x, P (mkEvent e x)) → all (ITree.trigger e).
Proof.
  intros Hp l r Hl. inversion Hl as [|? Ho|? ? ? Ho|Y e' k x l' r' Ho Hl']; subst; [constructor..| |].
  - done.
  - cbn in Ho. dependent destruction Ho. constructor; [apply Hp|]. by apply (all_ret x l' r).
Qed.

Lemma all_bind {R S} (t : itree E R) (k : R → itree E S) :
  all t → (∀ r, all (k r)) → all (ITree.bind t k).
Proof.
  intros Ht Hk l s [[Hl _]|(l1 & r & l2 & -> & Hl1 & Hl2)]%trace_bind; [by eapply Ht|].
  apply list.Forall_app. split; [by eapply Ht|by eapply Hk].
Qed.

Lemma all_iter {I R} (body : I → itree E (I + R)) i : (∀ i, all (body i)) → all (ITree.iter body i).
Proof.
  intros Hbody l r. pose (k := λ lr : I + R, match lr with
    | inl i => Tau (ITree.iter body i) | inr r => Ret r end).
  assert (Hgen : ∀ u, trace u l r → ∀ t, all t → observe u = observe (ITree.bind t k) → Forall P l).
  { intros u Hl. induction Hl as [u|u r Hr|u u' l r Hr Hl IH|u X e k' x l r Hr Hl IH]; intros t Ht Ho;
      [constructor..| |]; rewrite observe_bind in Ho; rewrite Hr in Ho;
      destruct (observe t) as [[j|s]|t'|Y e' h] eqn:Htt; cbn in Ho; try done.
    - injection Ho as ->. by apply (IH (body j)); [|apply observe_iter].
    - injection Ho as ->. by apply (IH t'); [eapply all_tau|].
    - dependent destruction Ho. destruct (all_vis t _ e' h x Htt Ht) as [Hp Hall].
      constructor; [done|]. by apply (IH (h x)). }
  intros Hl. apply (Hgen _ Hl (body i)); [done|]. apply observe_iter.
Qed.
End all.
End traces.
Arguments mkEvent {E ev_type}.
Arguments event : clear implicits.

Lemma trace_Ret {E : Type → Type} {R} (r : R) (l : list (event E)) s :
  trace (Ret r) l s → l = [] ∧ (s = None ∨ s = Some r).
Proof.
  intros Hl. inversion Hl as [|? Ho|? ? ? Ho|? ? ? ? ? ? Ho]; subst; try done; [by auto|].
  injection Ho as <-. auto.
Qed.

Lemma trace_trigger {E : Type → Type} {X} (e : E X) l r :
  trace (ITree.trigger e) l r → (l = [] ∧ r = None) ∨ ∃ x, l = [mkEvent e x] ∧ (r = None ∨ r = Some x).
Proof.
  intros Hl. inversion Hl as [|? Ho|? ? ? Ho|Y e' k x l' r' Ho Hl']; subst; [by left|done..|].
  right. cbn in Ho. dependent destruction Ho. apply trace_Ret in Hl' as [-> Hr]. by exists x.
Qed.

(** ** Programs that may fail, in the style of the other files *)
Definition prog (E : Type → Type) (X A : Type) : Type := itree E (outcome X A).
#[export] Instance prog_ret {E X} : MRet (prog E X) := λ A a, Ret (Ok a).
#[export] Instance prog_bind {E X} : MBind (prog E X) := λ A B k m,
  ITree.bind m (λ r, match r with Ok a => k a | Err e => Ret (Err e) | Panic => Ret Panic end).
(** A call whose answer may be an error. *)
Definition call {E X A} (e : E (outcome X A)) : prog E X A := ITree.trigger e.
Definition fail {E X A} (e : X) : prog E X A := Ret (Err e).

Lemma all_prog_bind {E X A B} (P : event E → Prop) (m : prog E X A) (k : A → prog E X B) :
  all P m → (∀ a, all P (k a)) → all P (m ≫= k).
Proof.
  intros Hm Hk. apply all_bind; [done|]. intros [a|e|]; [done|apply all_ret..].
Qed.

(** Every result of the program satisfies [Q]. *)
Definition returns {E X A} (Q : A → Prop) (m : prog E X A) : Prop :=
  ∀ l a, trace m l (Some (Ok a)) → Q a.

(** A run of a sequence fails or goes on in the first part, or gets to the second. *)
Lemma trace_prog_bind {E X A B} (m : prog E X A) (k : A → prog E X B) l r :
  trace (m ≫= k) l r →
  (trace m l None ∧ r = None) ∨
  (∃ e, trace m l (Some (Err e)) ∧ (r = None ∨ r = Some (Err e))) ∨
  (trace m l (Some Panic) ∧ (r = None ∨ r = Some Panic)) ∨
  ∃ l1 a l2, l = l1 ++ l2 ∧ trace m l1 (Some (Ok a)) ∧ trace (k a) l2 r.
Proof.
  intros [Hl|(l1 & [a|e|] & l2 & -> & Hl1 & Hl2)]%trace_bind; [by left| | |].
  - right; right; right. by exists l1, a, l2.
  - right; left. exists e. apply trace_Ret in Hl2 as [-> Hs]. by rewrite app_nil_r.
  - right; right; left. apply trace_Ret in Hl2 as [-> Hs]. by rewrite app_nil_r.
Qed.

Lemma returns_ret {E X A} (Q : A → Prop) (a : A) : Q a → returns Q (mret a : prog E X A).
Proof. intros Ha l b [_ [[=]|[= ->]]]%trace_Ret. done. Qed.
Lemma returns_bind {E X A B} (Q : B → Prop) (m : prog E X A) (k : A → prog E X B) :
  (∀ a, returns Q (k a)) → returns Q (m ≫= k).
Proof.
  intros Hk l b [[_ ?]|[(e & _ & [?|?])|[[_ [?|?]]|(l1 & a & l2 & _ & _ & Hl)]]]%trace_prog_bind;
    try done. by eapply Hk.
Qed.

Lemma all_prog_bind_returns {E X A B} (P : event E → Prop) (Q : A → Prop) (m : prog E X A)
    (k : A → prog E X B) :
  all P m → returns Q m → (∀ a, Q a → all P (k a)) → all P (m ≫= k).
Proof.
  intros Hm Hq Hk l r [[Hl _]|[(e & Hl & _)|[[Hl _]|(l1 & a & l2 & -> & Hl1 & Hl2)]]]%trace_prog_bind;
    [by eapply Hm..|].
  apply list.Forall_app. split; [by eapply Hm|]. eapply Hk; [by eapply Hq|done].
Qed.

(** ** Runs that follow a machine *)
Section hoare.
Context {E : Type → Type} {S : Type} (step : S → event E → option S).

(** What a state becomes by the events, when the machine allows each of them. *)
Fixpoint steps (s : S) (l : list (event E)) : option S :=
  match l with [] => Some s | e :: l => s' ← step s e; steps s' l end.

Lemma steps_app s l1 l2 : steps s (l1 ++ l2) = s' ← steps s l1; steps s' l2.
Proof. revert s. induction l1 as [|e l1 IH]; intros s; [done|]. cbn. by destruct (step s e); cbn. Qed.

(** Every run from a state of [P] keeps to the machine, and its result and its state are in [Q]. *)
Definition hoare {R} (P : S → Prop) (t : itree E R) (Q : R → S → Prop) : Prop :=
  ∀ s l r, P s → trace t l r → ∃ s', steps s l = Some s' ∧ ∀ a, r = Some a → Q a s'.

Lemma hoare_weaken {R} (P P' : S → Prop) (t : itree E R) (Q Q' : R → S → Prop) :
  hoare P t Q → (∀ s, P' s → P s) → (∀ a s, Q a s → Q' a s) → hoare P' t Q'.
Proof. intros Ht HP HQ s l r Hs Hl. destruct (Ht s l r) as (s' & ? & ?); [auto..|]. exists s'. auto. Qed.

Lemma hoare_ret {R} (P : S → Prop) (a : R) Q : (∀ s, P s → Q a s) → hoare P (Ret a) Q.
Proof.
  intros HQ s l r Hs Hl. exists s. inversion Hl as [|b Ho|? ? ? Ho|? ? ? ? ? ? Ho]; subst; try done.
  injection Ho as <-. split; [done|]. intros ? [= <-]. auto.
Qed.

Lemma hoare_bind {R R'} (P : S → Prop) (t : itree E R) Q (k : R → itree E R') Q' :
  hoare P t Q → (∀ a, hoare (Q a) (k a) Q') → hoare P (ITree.bind t k) Q'.
Proof.
  intros Ht Hk s l r Hs [[Hl ->]|(l1 & a & l2 & -> & Hl1 & Hl2)]%trace_bind.
  - destruct (Ht s l None) as (s' & ? & _); [done..|]. by exists s'.
  - destruct (Ht s l1 (Some a)) as (s1 & Hs1 & HQ); [done..|].
    destruct (Hk a s1 l2 r) as (s2 & Hs2 & ?); [auto..|]. exists s2. by rewrite steps_app, Hs1.
Qed.

Lemma hoare_trigger {X} (P : S → Prop) (e : E X) (Q : X → S → Prop) :
  (∀ s x, P s → ∃ s', step s (mkEvent e x) = Some s' ∧ Q x s') → hoare P (ITree.trigger e) Q.
Proof.
  intros He s l r Hs [[-> ->]|(x & -> & Hr)]%trace_trigger; [by exists s|].
  destruct (He s x Hs) as (s' & Hs' & HQ). exists s'. cbn. rewrite Hs'. split; [done|].
  intros a ->. by destruct Hr as [?|[= ->]].
Qed.

(** In a sequence of steps that may fail, [Q] holds of the first result that is an error. *)
Lemma hoare_prog_bind {X A B} (P : S → Prop) (m : prog E X A) Q (k : A → prog E X B)
    (Q' : outcome X B → S → Prop) :
  hoare P m Q → (∀ a, hoare (Q (Ok a)) (k a) Q') →
  (∀ e s, Q (Err e) s → Q' (Err e) s) → (∀ s, Q Panic s → Q' Panic s) → hoare P (m ≫= k) Q'.
Proof.
  intros Hm Hk He Hp. apply hoare_bind with Q; [done|]. intros [a|e|]; [done|by apply hoare_ret; auto..].
Qed.
End hoare.

(** ** Running a program with given answers *)
Section run.
Context {E : Type → Type} (answer : ∀ X, E X → list (event E) → X).
Fixpoint run {R} (fuel : nat) (t : itree E R) (l : list (event E)) : list (event E) * option R :=
  match fuel with
  | O => ([], None)
  | S fuel => match observe t with
    | RetF r => ([], Some r)
    | TauF t => run fuel t l
    | VisF e k =>
        let x := answer _ e l in
        let '(l', r) := run fuel (k x) (l ++ [mkEvent e x]) in (mkEvent e x :: l', r)
    end
  end.
Lemma run_trace {R} fuel (t : itree E R) l : trace t (run fuel t l).1 (run fuel t l).2.
Proof.
  revert t l. induction fuel as [|fuel IH]; intros t l; cbn; [apply trace_now|].
  destruct (observe t) as [r|t'|X e k] eqn:Ho; cbn.
  - by apply trace_ret.
  - apply (trace_tau _ t'); [done|apply IH].
  - specialize (IH (k (answer _ e l)) (l ++ [mkEvent e (answer _ e l)])).
    destruct (run fuel _ _) as [l' r]. cbn in *. by apply (trace_vis _ _ e k).
Qed.
End run.
