(* ===== verification/Discovery.v ===== *)
(** * Discovery of schemas

    pkg/schema/converter (discovery.go, crd.go, description.go, k8stonorman.go) and the refresh of
    pkg/controllers/schema/schemas.go: the schemas of an API server from its discovery documents,
    CRDs and OpenAPI models, which of them are served and under which names. What calls an API is
    a program; its calls are the events.

    The maps of schemas hold values where the program has pointers. The one schema that outlives a
    refresh is [apigroups.BaseSchema] ([base]); no API server lists a resource of its kind. *)
From ITree Require Import Core.ITreeDefinition.
From S2P Require Import Prelude GoLib GoValue KubeTypes Schemas OpenApi ApiTrace.
From S2P Require DateFields.

(** ** Schemas *)
(** Columns of a CRD (table.Column), or those of a table of the server. *)
Record Column := mkColumn {
  col_Name : string; col_Field : string; col_Type : string; col_Format : string;
  col_Description : string; col_Priority : Z }.
Inductive columns := CRDColumns (l : list Column) | TableColumns (l : list DateFields.ColumnDefinition).

(** An APISchema with its attributes (pkg/attributes); [""] for one that is not set. *)
Record APISchema := mkSchema {
  S_ID : string; S_PluralName : string; S_Description : string;
  S_GVK : GroupVersionKind; S_Resource : string; S_Verbs : list string; S_Namespaced : bool;
  S_PreferredVersion : string; S_PreferredGroup : string;
  S_CRD : bool; S_Columns : option columns; S_Table : bool; S_HasObservedGeneration : bool }.

Definition schema_resource (s : APISchema) : GVR := mkGVR (Group (S_GVK s)) (Version (S_GVK s)) (S_Resource s).
Definition with_names (id plural : string) (s : APISchema) : APISchema :=
  mkSchema id plural (S_Description s) (S_GVK s) (S_Resource s) (S_Verbs s) (S_Namespaced s)
    (S_PreferredVersion s) (S_PreferredGroup s) (S_CRD s) (S_Columns s) (S_Table s) (S_HasObservedGeneration s).
Definition SetDescription (description : string) (s : APISchema) : APISchema :=
  mkSchema (S_ID s) (S_PluralName s) description (S_GVK s) (S_Resource s) (S_Verbs s) (S_Namespaced s)
    (S_PreferredVersion s) (S_PreferredGroup s) (S_CRD s) (S_Columns s) (S_Table s) (S_HasObservedGeneration s).
Definition SetPreferredVersion (ver : string) (s : APISchema) : APISchema :=
  mkSchema (S_ID s) (S_PluralName s) (S_Description s) (S_GVK s) (S_Resource s) (S_Verbs s) (S_Namespaced s)
    ver (S_PreferredGroup s) (S_CRD s) (S_Columns s) (S_Table s) (S_HasObservedGeneration s).
Definition SetPreferredGroup (group : string) (s : APISchema) : APISchema :=
  mkSchema (S_ID s) (S_PluralName s) (S_Description s) (S_GVK s) (S_Resource s) (S_Verbs s) (S_Namespaced s)
    (S_PreferredVersion s) group (S_CRD s) (S_Columns s) (S_Table s) (S_HasObservedGeneration s).
Definition MarkCRD (s : APISchema) : APISchema :=
  mkSchema (S_ID s) (S_PluralName s) (S_Description s) (S_GVK s) (S_Resource s) (S_Verbs s) (S_Namespaced s)
    (S_PreferredVersion s) (S_PreferredGroup s) true (S_Columns s) (S_Table s) (S_HasObservedGeneration s).
Definition SetColumns (cols : columns) (s : APISchema) : APISchema :=
  mkSchema (S_ID s) (S_PluralName s) (S_Description s) (S_GVK s) (S_Resource s) (S_Verbs s) (S_Namespaced s)
    (S_PreferredVersion s) (S_PreferredGroup s) (S_CRD s) (Some cols) (S_Table s) (S_HasObservedGeneration s).
Definition SetTable (value : bool) (s : APISchema) : APISchema :=
  mkSchema (S_ID s) (S_PluralName s) (S_Description s) (S_GVK s) (S_Resource s) (S_Verbs s) (S_Namespaced s)
    (S_PreferredVersion s) (S_PreferredGroup s) (S_CRD s) (S_Columns s) value (S_HasObservedGeneration s).
Definition SetHasObservedGeneration (s : APISchema) : APISchema :=
  mkSchema (S_ID s) (S_PluralName s) (S_Description s) (S_GVK s) (S_Resource s) (S_Verbs s) (S_Namespaced s)
    (S_PreferredVersion s) (S_PreferredGroup s) (S_CRD s) (S_Columns s) (S_Table s) true.

(** ** Discovery documents *)
(** metav1.APIResource, APIResourceList and APIGroup. *)
Record APIResource := mkResource { r_Name : string; r_Kind : string; r_Namespaced : bool; r_Verbs : list string }.
Record APIResourceList := mkResourceList { GroupVersion : string; APIResources : list APIResource }.
Record APIGroup := mkGroup { g_Name : string; g_PreferredVersion : string; g_Versions : list string }.

Definition SetAPIResource (resource : APIResource) (s : APISchema) : APISchema :=
  mkSchema (S_ID s) (S_PluralName s) (S_Description s) (S_GVK s) (r_Name resource) (r_Verbs resource)
    (r_Namespaced resource) (S_PreferredVersion s) (S_PreferredGroup s) (S_CRD s) (S_Columns s) (S_Table s)
    (S_HasObservedGeneration s).

(** Errors: a text, or those merr.NewErrors collects. *)
Inductive error := EText (text : string) | EMany (l : list error).
(** What ServerGroupsAndResources answers with: no error, discovery.ErrGroupDiscoveryFailed, or
    another error. *)
Inductive discovery_error := NoError | GroupDiscoveryFailed | DiscoveryFailed (e : error).
(** schema.ParseGroupVersion of k8s.io/apimachinery. *)
Class GroupVersions := { ParseGroupVersion : string → outcome string (string * string) }.

Definition preferredGroups : gmap string string := {["extensions" := "apps"]}.
Definition preferredVersionOverride : gmap string string := {["autoscaling/v1" := "v2beta2"]}.

Definition index_group (result : gmap string string) (group : APIGroup) : gmap string string :=
  let result := <[g_Name group := g_PreferredVersion group]> result in
  match preferredVersionOverride !! (g_Name group +:+ "/" +:+ g_PreferredVersion group) with
  | Some override => if bool_decide (override ∈ g_Versions group) then <[g_Name group := override]> result else result
  | None => result
  end.
Definition indexVersions (groups : list APIGroup) : gmap string string := foldl index_group ∅ groups.

Section discovery.
Context `{GroupVersions}.
Abbreviation schemas := (gmap string APISchema).

Definition new_schema (gvk : GroupVersionKind) : APISchema :=
  mkSchema (GVKToVersionedSchemaID gvk) "" "" gvk "" [] false "" "" false None true false.

Definition refresh_resource (gv : string * string) (groupToPreferredVersion : gmap string string)
    (schemasMap : schemas) (resource : APIResource) : schemas :=
  if contains "/" (r_Name resource) then schemasMap else
  let gvk := mkGVK gv.1 gv.2 (r_Kind resource) in
  let schema := default (new_schema gvk) (schemasMap !! GVKToVersionedSchemaID gvk) in
  let schema := with_names (S_ID schema) (gvrToPluralName (mkGVR gv.1 gv.2 (r_Name resource))) schema in
  let schema := SetAPIResource resource schema in
  let preferredVersion := default "" (groupToPreferredVersion !! gv.1) in
  let schema := if bool_decide (preferredVersion ≠ "") && bool_decide (preferredVersion ≠ gv.2)
                then SetPreferredVersion preferredVersion schema else schema in
  let schema := match preferredGroups !! gv.1 with Some group => SetPreferredGroup group schema | None => schema end in
  <[S_ID schema := schema]> schemasMap.
Definition refresh (gv : string * string) (groupToPreferredVersion : gmap string string)
    (resources : APIResourceList) (schemasMap : schemas) : schemas :=
  foldl (refresh_resource gv groupToPreferredVersion) schemasMap (APIResources resources).

(** One list of resources; a group version that cannot be parsed is the empty one. *)
Definition add_list (versions : gmap string string) (acc : schemas * list error) (resourceList : APIResourceList)
    : schemas * list error :=
  match ParseGroupVersion (GroupVersion resourceList) with
  | Ok gv => (refresh gv versions resourceList acc.1, acc.2)
  | Err err => (refresh ("", "") versions resourceList acc.1, acc.2 ++ [EText err])
  | Panic => acc
  end.
Definition NewErrors (errs : list error) : option error :=
  match errs with [] => None | errs => Some (EMany errs) end.
Definition addDiscovery (answer : list APIGroup * list APIResourceList * discovery_error) (schemasMap : schemas)
    : outcome error schemas :=
  let '(groups, resourceLists, err) := answer in
  match err with
  | DiscoveryFailed e => Err e
  | _ =>
      let '(schemasMap, errs) := foldl (add_list (indexVersions groups)) (schemasMap, []) resourceLists in
      match NewErrors errs with None => Ok schemasMap | Some e => Err e end
  end.

(** ** CRDs *)
(** A printer column; a version with its schema (nil, or one that may be nil); a CRD. *)
Record PrinterColumn := mkPrinterColumn { pc_Name : string; pc_JSONPath : string; pc_Type : string; pc_Format : string }.
Record CRDVersion := mkCRDVersion {
  cv_Name : string; AdditionalPrinterColumns : list PrinterColumn; cv_Schema : option (option JSONSchemaProps) }.
Record CustomResourceDefinition := mkCRD {
  crd_Group : string; AcceptedPlural : string; AcceptedKind : string; crd_Versions : list CRDVersion }.

Definition hasObservedGeneration (schema : option JSONSchemaProps) : bool :=
  match schema with
  | None => false
  | Some schema =>
      match p_Properties schema !! "status" with
      | None => false
      | Some status => bool_decide (is_Some (p_Properties status !! "observedGeneration"))
      end
  end.

Definition forVersion (group kind : string) (schemasMap : schemas) (version : CRDVersion) : schemas :=
  let versionColumns := (λ col, mkColumn (pc_Name col) (pc_JSONPath col) (pc_Type col) (pc_Format col) "" 0)
    <$> AdditionalPrinterColumns version in
  let id := GVKToVersionedSchemaID (mkGVK group (cv_Name version) kind) in
  match schemasMap !! id with
  | None => schemasMap
  | Some schema =>
      let schema := MarkCRD schema in
      let schema := match versionColumns with [] => schema | _ => SetColumns (CRDColumns versionColumns) schema end in
      let schema := match cv_Schema version with
        | Some (Some props) =>
            let schema := SetDescription (p_Description props) schema in
            if hasObservedGeneration (Some props) then SetHasObservedGeneration schema else schema
        | _ => schema
        end in
      <[id := schema]> schemasMap
  end.
Definition add_crd (schemasMap : schemas) (crd : CustomResourceDefinition) : schemas :=
  if bool_decide (AcceptedPlural crd = "") then schemasMap
  else foldl (forVersion (crd_Group crd) (AcceptedKind crd)) schemasMap (crd_Versions crd).
(** [crds]: what List answers. Its error is dropped. *)
Definition addCustomResources (crds : outcome string (list CustomResourceDefinition)) (schemasMap : schemas) : schemas :=
  match crds with Ok crds => foldl add_crd schemasMap crds | _ => schemasMap end.

(** ** Descriptions *)
Context `{Paths, Convert}.
Definition GetGVKForKind (kind : Schema) : option GroupVersionKind := GetGVKForProtoSchema kind.

Definition describe (models : Models) (schemas : schemas) (modelName : string) : gmap string APISchema :=
  match LookupModel models modelName with
  | Some (Kind_ b fields required as k) =>
      match GetGVKForKind k with
      | None => schemas
      | Some gvk =>
          match schemas !! GVKToVersionedSchemaID gvk with
          | None => schemas
          | Some schema => <[GVKToVersionedSchemaID gvk := SetDescription (b_Description b) schema]> schemas
          end
      end
  | _ => schemas
  end.
Definition addDescription (openapi : outcome string (outcome string Models)) (schemasMap : schemas)
    : outcome error schemas :=
  match openapi with
  | Ok (Ok models) => Ok (foldl (describe models) schemasMap (ListModels models))
  | Ok (Err e) | Err e => Err (EText e)
  | Ok Panic | Panic => Panic
  end.

Definition addTemplateBased (base : APISchema) (schemasMap : schemas) : schemas :=
  <[GVKToVersionedSchemaID (S_GVK base) := base]> schemasMap.
End discovery.

(** ** Calls *)
(** What a table request answers: an error, a table with the names and types of its columns, or
    another object. *)
Inductive table_answer := TableError | TableColumnsOf (cols : list (string * string)) | OtherObject.

(** The calls of a refresh: the three documents; the review of a permission to list (the status
    fields Allowed and Denied); the semaphore of getColumns; a table request; the flag toSync;
    [Reset] of the collection; [OnSchemas] of the handler, when there is one. *)
Variant refreshE `{Paths} : Type → Type :=
  | ServerGroupsAndResources : refreshE (list APIGroup * list APIResourceList * discovery_error)
  | crd_List : refreshE (outcome string (list CustomResourceDefinition))
  | OpenAPISchema : refreshE (outcome string (outcome string Models))
  | CreateReview (gvr : GVR) : refreshE (outcome error (bool * bool))
  | Acquire : refreshE (outcome error unit)
  | GetTable (gvr : GVR) : refreshE table_answer
  | SwapToSync : refreshE bool
  | Reset (schemas : gmap string APISchema) : refreshE unit
  | OnSchemas : refreshE (outcome error unit).

Section refresh_all.
Context `{GroupVersions, Paths, Convert, MapRange}.
Abbreviation schemas := (gmap string APISchema).
Abbreviation program := (prog refreshE error).
Definition lift {A} (m : outcome error A) : program A := Ret m.
(** A call without an error. *)
Definition perform {A} (e : refreshE A) : program A := ITree.bind (ITree.trigger e) (λ a, Ret (Ok a)).

Definition ToSchemas (base : APISchema) : program schemas :=
  let result := addTemplateBased base ∅ in
  answer ← perform ServerGroupsAndResources;
  result ← lift (addDiscovery answer result);
  crds ← perform crd_List;
  let result := addCustomResources crds result in
  openapi ← perform OpenAPISchema;
  lift (addDescription openapi result).

(** ** Which schemas are served *)
Definition typeNameChanges : gmap string string :=
  {["extensions.v1beta1.ingress" := "networking.k8s.io.v1beta1.ingress"]}.

Definition isListOrGetable (schema : APISchema) : bool :=
  existsb (λ verb, bool_decide (verb = "list" ∨ verb = "get")) (S_Verbs schema).
Definition IsListWatchable (schema : APISchema) : bool :=
  existsb (λ verb, bool_decide (verb = "list")) (S_Verbs schema) &&
  existsb (λ verb, bool_decide (verb = "watch")) (S_Verbs schema).

Definition preferredTypeExists (schema : APISchema) (schemas : schemas) : bool :=
  match typeNameChanges !! S_ID schema with
  | Some replacement => bool_decide (is_Some (schemas !! replacement))
  | None => false
  end ||
  let pg := S_PreferredGroup schema in
  let pv := S_PreferredVersion schema in
  if bool_decide (pg = "") && bool_decide (pv = "") then false else
  let gvk := S_GVK schema in
  let gvk := if bool_decide (pg ≠ "") then mkGVK pg (Version gvk) (Kind gvk) else gvk in
  let gvk := if bool_decide (pv ≠ "") then mkGVK (Group gvk) pv (Kind gvk) else gvk in
  bool_decide (is_Some (schemas !! GVKToVersionedSchemaID gvk)).

Definition allowed (schema : APISchema) : program bool :=
  call (CreateReview (schema_resource schema)) ≫= λ ssar : bool * bool, mret (ssar.1 && negb ssar.2).

(** The names without a version. *)
Definition unversioned (schema : APISchema) : APISchema :=
  let gvk := S_GVK schema in
  if bool_decide (Kind gvk ≠ "") then
    with_names (GVKToSchemaID gvk) (GVRToPluralName (schema_resource schema)) schema
  else schema.

Fixpoint filter_schemas (all : schemas) (schemas_left : list (string * APISchema)) (filtered : schemas)
    : program schemas :=
  match schemas_left with
  | [] => mret filtered
  | (_, schema) :: schemas_left =>
      let keep := let schema := unversioned schema in
                  filter_schemas all schemas_left (<[S_ID schema := schema]> filtered) in
      if IsListWatchable schema then
        if preferredTypeExists schema all then filter_schemas all schemas_left filtered
        else allowed schema ≫= λ ok : bool, if ok then keep else filter_schemas all schemas_left filtered
      else keep
  end.

(** ** Columns *)
(** DynamicColumns.SetColumns of pkg/resources/common; it returns no error. *)
Definition SetTableColumns (schema : APISchema) : program APISchema :=
  if bool_decide (is_Some (option_map (λ _, ()) (S_Columns schema))) then mret schema else
  if bool_decide (S_Resource schema = "") then mret schema else
  obj ← perform (GetTable (schema_resource schema));
  mret match obj with
    | TableError => SetTable false schema
    | TableColumnsOf [] | OtherObject => schema
    | TableColumnsOf cols => SetColumns (TableColumns (DateFields.SetColumns cols)) schema
    end.

(** The schemas of a map, each by its own goroutine, which are run here one after the other. *)
Fixpoint getColumns (schemas_left : list (string * APISchema)) (result : schemas) : program schemas :=
  match schemas_left with
  | [] => mret result
  | (id, schema) :: schemas_left =>
      if isListOrGetable schema then
        _ ← (call Acquire : program unit);
        schema ← SetTableColumns schema;
        getColumns schemas_left (<[id := schema]> result)
      else getColumns schemas_left result
  end.

(** ** A refresh *)
(** [has_handler]: whether there is a handler to call. *)
Definition refresh_schemas (base : APISchema) (has_handler : bool) : program unit :=
  schemas ← ToSchemas base;
  filteredSchemas ← filter_schemas schemas (range_map schemas) ∅;
  filteredSchemas ← getColumns (range_map filteredSchemas) filteredSchemas;
  _ ← perform (Reset filteredSchemas);
  if has_handler then call OnSchemas else mret ().
Definition needToSync : program bool := perform SwapToSync.
(** [refreshAll] between its Lock and Unlock. *)
Definition refreshAll (base : APISchema) (has_handler : bool) : program unit :=
  needToSync ≫= λ need : bool, if need then refresh_schemas base has_handler else mret ().
End refresh_all.

(** apigroups.BaseSchema. *)
Definition BaseSchema : APISchema :=
  mkSchema "apigroup" "" "" (mkGVK "" "v1" "APIGroup") "" [] false "" "" false None true false.
