(* ===== verification/DiscoverySpec.v ===== *)
(** * What a discovery serves

    The documents of an API server as lists of resources, what the program of [Discovery] does when
    the answers do not change, and which schemas it installs. *)
From ITree Require Import Core.ITreeDefinition.
From S2P Require Import Prelude GoLib GoValue KubeTypes Schemas OpenApi ApiTrace Discovery.

(** ** What the documents hold *)
Section documents.
Context `{GroupVersions}.

(** The resources of the lists that are not subresources, each with its group and version. *)
Definition discovered (resourceLists : list APIResourceList) : list ((string * string) * APIResource) :=
  resourceLists ≫= λ l, match ParseGroupVersion (GroupVersion l) with
    | Ok gv => pair gv <$> List.filter (λ r, negb (contains "/" (r_Name r))) (APIResources l)
    | _ => []
    end.
Definition gvk_of (x : (string * string) * APIResource) : GroupVersionKind := mkGVK x.1.1 x.1.2 (r_Kind x.2).
Definition id_of (x : (string * string) * APIResource) : string := GVKToVersionedSchemaID (gvk_of x).

(** The version and the group that are preferred to those of a resource; empty for none. *)
Definition preferred_version (versions : gmap string string) (gv : string * string) : string :=
  let preferredVersion := default "" (versions !! gv.1) in
  if bool_decide (preferredVersion ≠ gv.2) then preferredVersion else "".
Definition preferred_group (gv : string * string) : string := default "" (preferredGroups !! gv.1).

(** A schema made for a resource, up to what CRDs and models add to it. *)
Definition made_for (versions : gmap string string) (x : (string * string) * APIResource) (s : APISchema) : Prop :=
  S_ID s = id_of x ∧ S_GVK s = gvk_of x ∧ S_Resource s = r_Name x.2 ∧ S_Verbs s = r_Verbs x.2 ∧
  S_Namespaced s = r_Namespaced x.2 ∧ S_PreferredVersion s = preferred_version versions x.1 ∧
  S_PreferredGroup s = preferred_group x.1.

(** Equal but for the description and the columns. *)
Definition same_type (s s' : APISchema) : Prop :=
  S_ID s = S_ID s' ∧ S_PluralName s = S_PluralName s' ∧ S_GVK s = S_GVK s' ∧ S_Resource s = S_Resource s' ∧ S_Verbs s = S_Verbs s' ∧
  S_Namespaced s = S_Namespaced s' ∧ S_PreferredVersion s = S_PreferredVersion s' ∧
  S_PreferredGroup s = S_PreferredGroup s'.
#[export] Instance same_type_preorder : PreOrder same_type.
Proof. split; [by intros s|]. intros s1 s2 s3 (?&?&?&?&?&?&?&?) (?&?&?&?&?&?&?&?). split_and!; congruence. Qed.
Definition same_types (m m' : gmap string APISchema) : Prop :=
  ∀ id, option_Forall2 same_type (m !! id) (m' !! id).
#[export] Instance same_types_preorder : PreOrder same_types.
Proof.
  split; [intros m id; by destruct (m !! id); constructor|].
  intros m1 m2 m3 H12 H23 id. pose proof (H12 id) as Ha. pose proof (H23 id) as Hb.
  destruct (m1 !! id), (m2 !! id), (m3 !! id); inversion Ha; inversion Hb; subst; constructor. by etrans.
Qed.

Lemma same_types_insert m id s s' : m !! id = Some s → same_type s s' → same_types m (<[id := s']> m).
Proof.
  intros Hs Hss id'. destruct (decide (id' = id)) as [->|Hne].
  - rewrite lookup_insert_eq, Hs. by constructor.
  - rewrite lookup_insert_ne by done. destruct (m !! id'); constructor. done.
Qed.
Lemma foldl_same_types {A} (f : gmap string APISchema → A → gmap string APISchema) l m :
  (∀ m x, same_types m (f m x)) → same_types m (foldl f m l).
Proof. intros Hf. revert m. induction l as [|x l IH]; intros m; [done|]. cbn. etrans; [apply Hf|apply IH]. Qed.

Lemma forVersion_same_types group kind m version : same_types m (forVersion group kind m version).
Proof.
  unfold forVersion. destruct (m !! _) as [s|] eqn:Hs; [|done]. apply (same_types_insert _ _ _ _ Hs).
  destruct (_ <$> _), (cv_Schema version) as [[props|]|]; try done; by destruct (hasObservedGeneration _).
Qed.
Lemma addCustomResources_same_types crds m : same_types m (addCustomResources crds m).
Proof.
  destruct crds as [crds|e|]; [|done..]. apply foldl_same_types. intros m' crd. unfold add_crd.
  case_bool_decide; [done|]. apply foldl_same_types. intros. apply forVersion_same_types.
Qed.
Lemma addDescription_same_types `{Paths, Convert} openapi m m' :
  addDescription openapi m = Ok m' → same_types m m'.
Proof.
  destruct openapi as [[models|e|]|e|]; try done. intros [= <-]. apply foldl_same_types. intros m' name.
  unfold describe. destruct (LookupModel models name) as [[]|]; try done.
  destruct (GetGVKForKind _) as [gvk|]; [|done]. destruct (m' !! _) as [s|] eqn:Hs; [|done].
  by apply (same_types_insert _ _ _ _ Hs).
Qed.

(** Errors of the lists are kept. *)
Lemma add_lists_errors versions resourceLists acc :
  (foldl (add_list versions) acc resourceLists).2 = [] → acc.2 = [] ∧
  (foldl (add_list versions) acc resourceLists).1 =
    foldl (λ m x, refresh_resource x.1 versions m x.2) acc.1 (discovered resourceLists).
Proof.
  revert acc. induction resourceLists as [|l ls IH]; intros acc; [done|]. cbn [foldl]. intros He.
  apply IH in He as [He ->]. unfold discovered in *. cbn [mbind list_bind]. rewrite foldl_app. unfold add_list in *.
  destruct (ParseGroupVersion (GroupVersion l)) as [gv|e|]; [|by apply app_nil in He as [_ ?]|].
  - split; [done|]. f_equal. cbn. unfold refresh. generalize acc.1. clear.
    induction (APIResources l) as [|r rs IH]; intros m; [done|]. cbn.
    destruct (contains "/" (r_Name r)) eqn:Hr; cbn; [|apply IH].
    assert (refresh_resource gv versions m r = m) as -> by (unfold refresh_resource; by rewrite Hr). apply IH.
  - done.
Qed.
Lemma addDiscovery_ok groups resourceLists err m m' :
  addDiscovery (groups, resourceLists, err) m = Ok m' →
  m' = foldl (λ m x, refresh_resource x.1 (indexVersions groups) m x.2) m (discovered resourceLists).
Proof.
  unfold addDiscovery. intros Hm.
  pose proof (add_lists_errors (indexVersions groups) resourceLists (m, [])) as He.
  destruct (foldl (add_list (indexVersions groups)) (m, []) resourceLists) as [m1 errs].
  destruct err as [| |err], errs as [|e errs]; cbn in Hm; try done; simplify_eq; by destruct (He eq_refl) as [_ He'].
Qed.

Context (base : APISchema).
Definition base_id : string := GVKToVersionedSchemaID (S_GVK base).

(** The map holds the base schema and a schema for each resource of [l]. *)
Definition holds_all (versions : gmap string string) (l : list ((string * string) * APIResource))
    (m : gmap string APISchema) : Prop :=
  (∀ id s, m !! id = Some s → id = base_id ∧ s = base ∨ ∃ x, x ∈ l ∧ id = id_of x ∧ made_for versions x s) ∧
  (∀ x, x ∈ l → ∃ s, m !! id_of x = Some s ∧ made_for versions x s) ∧ m !! base_id = Some base.

Lemma refresh_resource_new versions m x :
  contains "/" (r_Name x.2) = false → m !! id_of x = None →
  ∃ s, refresh_resource x.1 versions m x.2 = <[id_of x := s]> m ∧ made_for versions x s.
Proof.
  intros Hs Hn. unfold refresh_resource. rewrite Hs. fold (gvk_of x). unfold id_of in Hn. rewrite Hn. cbn [default].
  eexists. split; [|].
  { assert (Hid : ∀ s, S_ID s = id_of x → <[S_ID s := s]> m = <[id_of x := s]> m) by (by intros s ->).
    apply Hid. unfold id_of. destruct (preferredGroups !! x.1.1), (_ && _); done. }
  unfold made_for, preferred_version, preferred_group.
  destruct (preferredGroups !! x.1.1) as [group|]; cbn;
    (case_bool_decide as Hp; case_bool_decide as Hv; cbn; split_and!; try done; apply dec_stable in Hp; by rewrite Hp).
Qed.
Lemma discovered_plain resourceLists x : x ∈ discovered resourceLists → contains "/" (r_Name x.2) = false.
Proof.
  unfold discovered. rewrite list_elem_of_bind. intros (l & Hx & _). destruct (ParseGroupVersion _); [|set_solver..].
  apply list_elem_of_fmap in Hx as (r & -> & Hr). apply elem_of_list_filter in Hr as [_ Hr]. cbn.
  by destruct (contains "/" (r_Name r)).
Qed.
Lemma holds_all_discovered versions l :
  (∀ x, x ∈ l → contains "/" (r_Name x.2) = false) → NoDup (base_id :: (id_of <$> l)) →
  holds_all versions l (foldl (λ m x, refresh_resource x.1 versions m x.2) (addTemplateBased base ∅) l).
Proof.
  induction l as [|x l IH] using rev_ind; intros Hl Hnd.
  { unfold addTemplateBased. split_and!; [|set_solver|apply lookup_insert_eq]. cbn. intros id s.
    intros [[<- <-]|[_ Hn]]%lookup_insert_Some; [by left|]. by rewrite lookup_empty in Hn. }
  rewrite foldl_snoc. rewrite fmap_app in Hnd. cbn in Hnd.
  assert (Hnd' : NoDup (base_id :: (id_of <$> l)) ∧ id_of x ≠ base_id ∧ id_of x ∉ id_of <$> l).
  { rewrite app_comm_cons in Hnd. apply list.NoDup_app in Hnd as (? & Hx & _). split; [done|].
    split; [intros Heq; apply (Hx base_id); rewrite ?Heq; set_solver|]. intros Hin. apply (Hx (id_of x)); set_solver. }
  destruct Hnd' as (Hnd' & Hxb & Hxl).
  destruct IH as (Hc & Hs & Hb); [set_solver|done|]. set (m := foldl _ _ l) in *.
  destruct (refresh_resource_new versions m x) as (s & -> & Hmade); [apply Hl; set_solver| |].
  { apply eq_None_not_Some. intros [s Hm]. apply Hc in Hm as [[? _]|(y & Hy & Hid & _)]; [done|].
    apply Hxl. rewrite Hid. by apply list_elem_of_fmap_2. }
  split_and!.
  - intros id s'. destruct (decide (id = id_of x)) as [->|Hne].
    + rewrite lookup_insert_eq. intros [= <-]. right. exists x. set_solver.
    + rewrite lookup_insert_ne by done. intros [?|(y & ? & ?)]%Hc; [by left|right; exists y; set_solver].
  - intros y [Hy|Hy]%elem_of_app; [|apply list_elem_of_singleton in Hy as ->].
    + rewrite lookup_insert_ne; [by apply Hs|]. intros Heq. apply Hxl. rewrite Heq. by apply list_elem_of_fmap_2.
    + rewrite lookup_insert_eq. eauto.
  - by rewrite lookup_insert_ne.
Qed.
End documents.

(** ** Answers of an API server that does not change *)
Section oracle.
Context `{GroupVersions, Paths, Convert, MapRange} (ans : ∀ X, refreshE X → X).
Abbreviation program := (prog refreshE error).
Definition answered (e : event refreshE) : Prop := ev_answer e = ans _ (ev_call e).
Definition evals {R} (t : itree refreshE R) (r : R) : Prop := ∃ l, trace t l (Some r) ∧ Forall answered l.

Lemma evals_ret {R} (a r : R) : evals (Ret a) r → r = a.
Proof. intros (l & [_ [?|[= ?]]]%trace_Ret & _); [done|congruence]. Qed.
Lemma evals_prog_bind {A B} (m : program A) (k : A → program B) b :
  evals (m ≫= k) (Ok b) → ∃ a, evals m (Ok a) ∧ evals (k a) (Ok b).
Proof.
  intros (l & [[_ ?]|[(e & _ & [?|?])|[[_ [?|?]]|(l1 & a & l2 & -> & Hm & Hk)]]]%trace_prog_bind & Ha); try done.
  apply list.Forall_app in Ha as [Ha1 Ha2]. exists a. split; [by exists l1|by exists l2].
Qed.
Lemma evals_call {A} (e : refreshE (outcome error A)) a : evals (call e) (Ok a) → ans _ e = Ok a.
Proof.
  intros (l & [[_ ?]|(x & -> & [?|?])]%trace_trigger & Ha); [done|done|]. simplify_eq.
  by apply list.Forall_cons in Ha as [Ha _].
Qed.
Lemma evals_perform {A} (e : refreshE A) a : evals (perform e) (Ok a) → a = ans _ e.
Proof.
  intros (l & [[_ ?]|(l1 & x & l2 & -> & Hx & [-> [?|?]]%trace_Ret)]%trace_bind & Ha); [done|done|].
  simplify_eq. apply trace_trigger in Hx as [[_ ?]|(y & -> & [?|?])]; [done|done|]. simplify_eq.
  by apply list.Forall_cons in Ha as [Ha _].
Qed.

(** Whether the server lets the program list a resource. *)
Definition may_list (gvr : GVR) : bool :=
  match ans _ (CreateReview gvr) with Ok (allowed, denied) => allowed && negb denied | _ => false end.
Definition kept (all : gmap string APISchema) (s : APISchema) : bool :=
  if IsListWatchable s then negb (preferredTypeExists s all) && may_list (schema_resource s) else true.
Definition filtered (all : gmap string APISchema) (l : list (string * APISchema)) (F : gmap string APISchema) :=
  foldl (λ F x, if kept all x.2 then <[S_ID (unversioned x.2) := unversioned x.2]> F else F) F l.

Lemma filter_evals all l F0 F : evals (filter_schemas all l F0) (Ok F) → F = filtered all l F0.
Proof.
  revert F0. induction l as [|[id s] l IH]; intros F0 HF; cbn [filter_schemas] in HF.
  { by apply evals_ret in HF as [= ->]. }
  cbn [filtered foldl]. cbn. unfold kept. destruct (IsListWatchable s) eqn:Hw; [|by apply IH].
  destruct (preferredTypeExists s all); [by apply IH|].
  apply evals_prog_bind in HF as (ok & Hok & HF). apply evals_prog_bind in Hok as ([a d] & Hr & Hok).
  apply evals_call in Hr. apply evals_ret in Hok as [= ->]. unfold may_list. rewrite Hr.
  cbn [fst snd] in *. cbn. destruct (a && negb d); by apply IH.
Qed.
Lemma filtered_spec all l F0 :
  (∀ id s, filtered all l F0 !! id = Some s → F0 !! id = Some s ∨
    ∃ x, x ∈ l ∧ kept all x.2 = true ∧ s = unversioned x.2 ∧ id = S_ID s) ∧
  (∀ x, x ∈ l → kept all x.2 = true → is_Some (filtered all l F0 !! S_ID (unversioned x.2))).
Proof.
  induction l as [|x l [IH1 IH2]] using rev_ind; [split; [by left|set_solver]|].
  unfold filtered in *. rewrite foldl_snoc. destruct (kept all x.2) eqn:Hk; split.
  - intros id s. destruct (decide (id = S_ID (unversioned x.2))) as [->|Hne].
    + rewrite lookup_insert_eq. intros [= <-]. right. exists x. set_solver.
    + rewrite lookup_insert_ne by done. intros [?|(y & ? & ?)]%IH1; [by left|right; exists y; set_solver].
  - intros y [Hy|Hy]%elem_of_app Hky; rewrite lookup_insert_is_Some.
    + destruct (decide (S_ID (unversioned x.2) = S_ID (unversioned y.2))); [by left|right; eauto].
    + apply list_elem_of_singleton in Hy as ->. by left.
  - intros id s [?|(y & ? & ?)]%IH1; [by left|right; exists y; set_solver].
  - intros y [Hy|Hy]%elem_of_app Hky; [eauto|]. apply list_elem_of_singleton in Hy as ->. congruence.
Qed.

Lemma SetTableColumns_evals s s' : evals (SetTableColumns s) (Ok s') → same_type s s'.
Proof.
  unfold SetTableColumns. destruct (bool_decide _); [by intros [= ->]%evals_ret|].
  destruct (bool_decide _); [by intros [= ->]%evals_ret|].
  intros (obj & _ & [= ->]%evals_ret)%evals_prog_bind. by destruct obj as [|[]|].
Qed.
Lemma getColumns_evals l F0 acc F : (∀ x, x ∈ l → F0 !! x.1 = Some x.2) → same_types F0 acc →
  evals (getColumns l acc) (Ok F) → same_types F0 F.
Proof.
  revert acc. induction l as [|[id s] l IH]; intros acc Hl Hacc HF; cbn [getColumns] in HF.
  { by apply evals_ret in HF as [= ->]. }
  destruct (isListOrGetable s); [|apply (IH acc); [set_solver|done..]].
  apply evals_prog_bind in HF as (u & _ & HF). apply evals_prog_bind in HF as (s' & Hs' & HF).
  apply SetTableColumns_evals in Hs'. apply (IH (<[id := s']> acc)); [set_solver| |done].
  intros id'. destruct (decide (id' = id)) as [->|Hne]; [|rewrite lookup_insert_ne by done; apply Hacc].
  specialize (Hl (id, s)). cbn in Hl. rewrite lookup_insert_eq, Hl by set_solver. by constructor.
Qed.
Lemma ToSchemas_evals base D : evals (ToSchemas base) (Ok D) → ∃ D0,
  addDiscovery (ans _ ServerGroupsAndResources) (addTemplateBased base ∅) = Ok D0 ∧ same_types D0 D.
Proof.
  unfold ToSchemas. intros (a & ->%evals_perform & HD)%evals_prog_bind.
  apply evals_prog_bind in HD as (D0 & [= HD0]%evals_ret & HD).
  apply evals_prog_bind in HD as (c & ->%evals_perform & HD).
  apply evals_prog_bind in HD as (o & ->%evals_perform & [= HD]%evals_ret).
  exists D0. split; [done|]. etrans; [apply addCustomResources_same_types|by eapply addDescription_same_types].
Qed.
End oracle.

(** ** What a refresh installs *)
Section installs.
Context `{GroupVersions, Paths, Convert, MapRange}.
Abbreviation program := (prog refreshE error).

(** The call that installs the schemas [F]. *)
Definition resets (F : gmap string APISchema) (e : event refreshE) : Prop :=
  match ev_call e with Reset F' => F' = F | _ => False end.

(** A call that reads the API. *)
Definition reads (e : event refreshE) : Prop :=
  match ev_call e with SwapToSync | Reset _ => False | _ => True end.

Lemma perform_reads {A} (e : refreshE A) : (∀ x, reads (mkEvent e x)) → all reads (perform e).
Proof. intros He. apply all_bind; [by apply all_trigger|]. intros a. apply all_ret. Qed.
Lemma ToSchemas_reads base : all reads (ToSchemas base).
Proof.
  unfold ToSchemas. repeat (apply all_prog_bind; [first [apply all_ret|by apply perform_reads]|intros ?]). apply all_ret.
Qed.
Lemma filter_reads D l F0 : all reads (filter_schemas D l F0).
Proof.
  revert F0. induction l as [|[id s] l IH]; intros F0; cbn [filter_schemas]; [apply all_ret|].
  destruct (IsListWatchable s); [|apply IH]. destruct (preferredTypeExists s D); [apply IH|].
  apply all_prog_bind; [|intros ok; destruct ok; apply IH]. apply all_prog_bind; [by apply all_trigger|].
  intros a. apply all_ret.
Qed.
Lemma getColumns_reads l F0 : all reads (getColumns l F0).
Proof.
  revert F0. induction l as [|[id s] l IH]; intros F0; cbn [getColumns]; [apply all_ret|].
  destruct (isListOrGetable s); [|apply IH]. apply all_prog_bind; [by apply all_trigger|intros u].
  apply all_prog_bind; [|intros s'; apply IH]. unfold SetTableColumns.
  destruct (bool_decide _); [apply all_ret|]. destruct (bool_decide _); [apply all_ret|].
  apply all_prog_bind; [by apply perform_reads|]. intros obj. apply all_ret.
Qed.
Lemma handler_reads (has_handler : bool) : all reads (if has_handler then call OnSchemas else mret () : program unit).
Proof. destruct has_handler; [by apply all_trigger|apply all_ret]. Qed.
Lemma reads_no_reset F e : reads e → ¬ resets F e.
Proof. destruct e as [X c x]. unfold reads, resets. cbn. destruct c; cbn; tauto. Qed.
Lemma all_weaken {R} (P Q : event refreshE → Prop) (t : itree refreshE R) : (∀ e, P e → Q e) → all P t → all Q t.
Proof. intros HPQ Ht l r Hl. eapply list.Forall_impl; [exact (Ht l r Hl)|done]. Qed.

(** Before it is installed nothing is: the part of a run before a result. *)
Lemma reset_after {A B} (F : gmap string APISchema) (m : program A) (k : A → program B) l r :
  all reads m → trace (m ≫= k) l r → Exists (resets F) l →
  ∃ l1 a l2, l = l1 ++ l2 ∧ trace m l1 (Some (Ok a)) ∧ trace (k a) l2 r ∧ Exists (resets F) l2.
Proof.
  intros Hm Hl He.
  assert (Hno : ∀ l r, trace m l r → ¬ Exists (resets F) l).
  { intros l' r' Hl'. intros Hx. apply list.Exists_exists in Hx as (e & Hin & Hx).
    specialize (Hm l' r' Hl'). rewrite list.Forall_forall in Hm. by apply (reads_no_reset F e); [apply Hm|]. }
  apply trace_prog_bind in Hl as [[Hl _]|[(e & Hl & _)|[[Hl _]|(l1 & a & l2 & -> & Hl1 & Hl2)]]];
    [by destruct (Hno _ _ Hl)..|].
  exists l1, a, l2. split_and!; [done..|]. apply list.Exists_app in He as [He|He]; [by destruct (Hno _ _ Hl1)|done].
Qed.

Lemma reset_first (F F' : gmap string APISchema) (k : unit → program unit) l r :
  (∀ a, all reads (k a)) → trace (perform (Reset F') ≫= k) l r → Exists (resets F) l → F' = F.
Proof.
  intros Hk Hl He.
  assert (Hall : all (λ e, resets F e → F' = F) (perform (Reset F') ≫= k)).
  { apply all_prog_bind; [apply all_bind; [apply all_trigger; by intros x|intros; apply all_ret]|].
    intros a l' r' Hl'. eapply list.Forall_impl; [exact (Hk a _ _ Hl')|].
    intros e He' Hr. by destruct (reads_no_reset F e). }
  apply list.Exists_exists in He as (e & Hin & He). specialize (Hall l r Hl). rewrite list.Forall_forall in Hall.
  by apply (Hall e).
Qed.

Section answers.
Context (ans : ∀ X, refreshE X → X).
Lemma refresh_installs base has_handler F l r :
  trace (refresh_schemas base has_handler) l r → Forall (answered ans) l → Exists (resets F) l →
  ∃ D, evals ans (ToSchemas base) (Ok D) ∧ same_types (filtered ans D (range_map D) ∅) F.
Proof.
  intros Hl Ha He. unfold refresh_schemas in Hl.
  destruct (reset_after F _ _ _ _ (ToSchemas_reads base) Hl He) as (l1 & D & l1' & -> & HD & Hl1 & He1).
  destruct (reset_after F _ _ _ _ (filter_reads _ _ _) Hl1 He1) as (l2 & F1 & l2' & -> & HF1 & Hl2 & He2).
  destruct (reset_after F _ _ _ _ (getColumns_reads _ _) Hl2 He2) as (l3 & F2 & l3' & -> & HF2 & Hl3 & He3).
  rewrite !list.Forall_app in Ha. destruct Ha as (Ha1 & Ha2 & Ha3 & _).
  assert (F2 = F) as ->.
  { eapply reset_first; [|done..]. intros _u. apply handler_reads. }
  exists D. split; [by exists l1|].
  assert (F1 = filtered ans D (range_map D) ∅) as <- by (apply filter_evals; by exists l2).
  apply (getColumns_evals ans (range_map F1) F1 F1); [|done|by exists l3].
  intros [id s] Hin. by apply elem_of_range_map in Hin.
Qed.

(** ** The schemas of the documents *)
Context (groups : list APIGroup) (resourceLists : list APIResourceList) (err : discovery_error).
Hypothesis documents : ans _ ServerGroupsAndResources = (groups, resourceLists, err).
Context (base : APISchema).
Abbreviation resource := ((string * string) * APIResource)%type.
Implicit Types (x : resource) (s : APISchema).

Definition list_watchable (verbs : list string) : bool := bool_decide ("list" ∈ verbs ∧ "watch" ∈ verbs).
Definition resource_of x : GVR := mkGVR x.1.1 x.1.2 (r_Name x.2).
(** The name of the kind that is preferred to the one of a resource, if any. *)
Definition preferred_id x : option string :=
  let pv := preferred_version (indexVersions groups) x.1 in let pg := preferred_group x.1 in
  if bool_decide (pg = "" ∧ pv = "") then None
  else Some (GVKToVersionedSchemaID (mkGVK (if bool_decide (pg = "") then x.1.1 else pg)
    (if bool_decide (pv = "") then x.1.2 else pv) (r_Kind x.2))).
(** The preferred kind, or the one that replaces it, is there as well. *)
Definition superseded x : Prop :=
  ∃ id, (typeNameChanges !! id_of x = Some id ∨ preferred_id x = Some id) ∧
    id ∈ base_id base :: (id_of <$> discovered resourceLists).
(** What the server lets the program see: a kind that can be watched only when it is not superseded
    and can be listed. *)
Definition may_serve x : Prop :=
  list_watchable (r_Verbs x.2) = true → ¬ superseded x ∧ may_list ans (resource_of x) = true.
(** [s] describes [x] under the names without version. *)
Definition shows x s : Prop :=
  S_ID s = GVKToSchemaID (gvk_of x) ∧ S_PluralName s = GVRToPluralName (resource_of x) ∧ S_GVK s = gvk_of x ∧
  S_Resource s = r_Name x.2 ∧ S_Verbs s = r_Verbs x.2 ∧ S_Namespaced s = r_Namespaced x.2.

Lemma IsListWatchable_verbs s : IsListWatchable s = list_watchable (S_Verbs s).
Proof.
  unfold IsListWatchable, list_watchable. apply eq_iff_eq_true. rewrite andb_true_iff, !existsb_true, bool_decide_eq_true.
  setoid_rewrite bool_decide_eq_true. naive_solver.
Qed.

Lemma preferredTypeExists_superseded D x s :
  made_for (indexVersions groups) x s → (∀ id, is_Some (D !! id) ↔ id ∈ base_id base :: (id_of <$> discovered resourceLists)) →
  preferredTypeExists s D = true ↔ superseded x.
Proof.
  intros (Hid & Hgvk & _ & _ & _ & Hpv & Hpg) HD. unfold preferredTypeExists, superseded, preferred_id.
  rewrite Hid, Hgvk, Hpv, Hpg. rewrite orb_true_iff.
  set (pv := preferred_version (indexVersions groups) x.1). set (pg := preferred_group x.1).
  assert (Hchange : match typeNameChanges !! id_of x with
      | Some replacement => bool_decide (is_Some (D !! replacement)) | None => false end = true ↔
    ∃ id, typeNameChanges !! id_of x = Some id ∧ id ∈ base_id base :: (id_of <$> discovered resourceLists)).
  { destruct (typeNameChanges !! id_of x) as [id|]; [|naive_solver]. rewrite bool_decide_eq_true, HD. naive_solver. }
  rewrite Hchange. clear Hchange. unfold gvk_of; cbn.
  destruct (decide (pg = "")) as [->|Hpg0], (decide (pv = "")) as [->|Hpv0]; cbn; repeat case_bool_decide; try naive_solver.
Qed.

(** Names tell the kinds of the server apart, and none is empty. *)
Definition distinct_kinds : Prop :=
  NoDup (base_id base :: (id_of <$> discovered resourceLists)) ∧
  Kind (S_GVK base) ≠ "" ∧ ∀ x, x ∈ discovered resourceLists → r_Kind x.2 ≠ "".

Lemma discovered_schemas D : distinct_kinds → evals ans (ToSchemas base) (Ok D) →
  (∀ id, is_Some (D !! id) ↔ id ∈ base_id base :: (id_of <$> discovered resourceLists)) ∧
  (∀ id s, D !! id = Some s → id = base_id base ∧ same_type base s ∨
    ∃ x, x ∈ discovered resourceLists ∧ id = id_of x ∧ made_for (indexVersions groups) x s) ∧
  (∀ x, x ∈ discovered resourceLists → ∃ s, D !! id_of x = Some s ∧ made_for (indexVersions groups) x s).
Proof.
  intros (Hnd & _ & _) (D0 & HD0 & HD)%ToSchemas_evals. rewrite documents in HD0. apply addDiscovery_ok in HD0.
  destruct (holds_all_discovered base (indexVersions groups) (discovered resourceLists)) as (Hc & Hs & Hb);
    [intros x; apply discovered_plain|done|]. rewrite <-HD0 in *.
  assert (Hmade : ∀ x s s', made_for (indexVersions groups) x s → same_type s s' → made_for (indexVersions groups) x s').
  { intros x s s' (?&?&?&?&?&?&?) (?&?&?&?&?&?&?&?). split_and!; congruence. }
  split_and!.
  - intros id. pose proof (HD id) as Hid. split.
    + intros [s Hd]. rewrite Hd in Hid. inversion Hid as [s0 ? ? Hs0|]; subst.
      destruct (Hc id s0) as [[-> _]|(x & Hx & -> & _)]; [done|by left|]. right. by apply list_elem_of_fmap_2.
    + intros [->|(x & -> & Hx)%list_elem_of_fmap]%elem_of_cons.
      * pose proof (HD (base_id base)) as Hid'. rewrite Hb in Hid'. inversion Hid'. eauto.
      * destruct (Hs x Hx) as (s & Hd & _). pose proof (HD (id_of x)) as Hid'. rewrite Hd in Hid'. inversion Hid'. eauto.
  - intros id s Hd. pose proof (HD id) as Hid. rewrite Hd in Hid. inversion Hid as [s0 ? Hss Hs0|]; subst.
    destruct (Hc id s0) as [[-> ->]|(x & Hx & -> & Hm)]; [done|by left|right; eauto].
  - intros x Hx. destruct (Hs x Hx) as (s0 & Hd & Hm). pose proof (HD (id_of x)) as Hid. rewrite Hd in Hid.
    inversion Hid as [? s Hss|]; subst. eauto.
Qed.

Lemma kept_may_serve D x s : made_for (indexVersions groups) x s →
  (∀ id, is_Some (D !! id) ↔ id ∈ base_id base :: (id_of <$> discovered resourceLists)) →
  kept ans D s = true ↔ may_serve x.
Proof.
  intros Hm HD. pose proof (preferredTypeExists_superseded D x s Hm HD) as Hp.
  destruct Hm as (_ & Hg & Hr & Hv & _). unfold kept, may_serve. rewrite IsListWatchable_verbs, Hv.
  assert (schema_resource s = resource_of x) as ->.
  { unfold schema_resource, resource_of. by rewrite Hg, Hr. }
  destruct (list_watchable (r_Verbs x.2)); [|by split]. rewrite andb_true_iff, negb_true_iff, <-not_true_iff_false, Hp.
  naive_solver.
Qed.

(** C17: While the answers of the API server do not change during a refresh, and when no two kinds of the discovery documents
    have the same name with group and version and none is empty, what a refresh installs beside the base schema are schemas of
    kinds that may be served, under names without version, with the resource, the verbs and the scope that were discovered;
    and every kind that may be served has a schema under its name without version, which for a kind of several versions that may be
    served is that of one of them ([create_only_version_varies]). A kind may be served unless it can be listed and watched and is
    superseded by a preferred version or group that the server has as well, or may not be listed. *)
Theorem refresh_serves_discovered has_handler F l r :
  distinct_kinds → trace (refresh_schemas base has_handler) l r → Forall (answered ans) l → Exists (resets F) l →
  (∀ id s, F !! id = Some s → S_ID s = id ∧
    (S_GVK s = S_GVK base ∨ ∃ x, x ∈ discovered resourceLists ∧ may_serve x ∧ shows x s)) ∧
  (∀ x, x ∈ discovered resourceLists → may_serve x → is_Some (F !! GVKToSchemaID (gvk_of x))).
Proof.
  intros Hk Hl Ha He. destruct (refresh_installs base has_handler F l r Hl Ha He) as (D & HD & HF).
  destruct (discovered_schemas D Hk HD) as (Hdom & Hin & Hall). destruct Hk as (Hnd & Hkb & Hkx).
  destruct (filtered_spec ans D (range_map D) ∅) as [Hf1 Hf2]. split.
  - intros id s Hs. pose proof (HF id) as Hid. rewrite Hs in Hid. inversion Hid as [s1 ? Hss Hs1|]; subst.
    symmetry in Hs1. apply Hf1 in Hs1 as [Hno|([id0 s0] & Hx%elem_of_range_map & Hkept & -> & ->)];
      [by rewrite lookup_empty in Hno|]. cbn in *.
    destruct Hss as (Hid1 & Hpl & Hg & Hr & Hv & Hn & _). split; [done|].
    destruct (Hin _ _ Hx) as [[_ (_ & _ & Hb & _)]|(x & Hx' & _ & Hm)].
    + left. rewrite <-Hg, Hb. unfold unversioned. by case_bool_decide.
    + right. exists x. apply (kept_may_serve D x s0) in Hkept; [|done..]. split_and!; [done..|].
      destruct Hm as (_ & Hgm & Hrm & Hvm & Hnm & _ & _). unfold shows. rewrite <-Hid1, <-Hpl, <-Hg, <-Hr, <-Hv, <-Hn.
      unfold unversioned, schema_resource, resource_of. rewrite bool_decide_eq_true_2; [|rewrite Hgm; by apply Hkx]. cbn.
      rewrite Hgm, Hrm. done.
  - intros x Hx Hm. destruct (Hall x Hx) as (s & Hs & Hmade).
    assert (Hkept : kept ans D s = true) by (by apply (kept_may_serve D x s)).
    destruct (Hf2 (id_of x, s)) as [s1 Hs1]; [by apply elem_of_range_map|done|]. cbn in Hs1.
    assert (S_ID (unversioned s) = GVKToSchemaID (gvk_of x)) as Hsid.
    { destruct Hmade as (_ & Hg & _). unfold unversioned. rewrite Hg, bool_decide_eq_true_2; [done|by apply Hkx]. }
    rewrite Hsid in Hs1. pose proof (HF (GVKToSchemaID (gvk_of x))) as Hid. rewrite Hs1 in Hid. inversion Hid. eauto.
Qed.

(** A kind of the preferred version supersedes those of the other versions of its group. *)
Lemma superseded_by_preferred x y : x ∈ discovered resourceLists → y ∈ discovered resourceLists →
  y.1.1 = x.1.1 → r_Kind y.2 = r_Kind x.2 → indexVersions groups !! x.1.1 = Some y.1.2 →
  y.1.2 ≠ "" → y.1.2 ≠ x.1.2 → preferred_group x.1 = "" → superseded x.
Proof.
  intros Hx Hy Hg Hkind Hpref Hne Hv Hpg. exists (id_of y). split.
  - right. unfold preferred_id, preferred_version. rewrite Hpref, Hpg. cbn.
    rewrite (bool_decide_eq_true_2 (y.1.2 ≠ x.1.2)) by done.
    rewrite (bool_decide_eq_false_2 (_ ∧ _)) by naive_solver.
    rewrite (bool_decide_eq_false_2 (y.1.2 = "")) by done.
    unfold id_of, gvk_of. by rewrite Hg, Hkind.
  - right. by apply list_elem_of_fmap_2.
Qed.
End answers.
End installs.

(** ** Examples *)
Module DiscoveryExample.
#[local] Instance text_paths : Paths := {|
  Path := string; NewPath := λ n, n; FieldPath := λ p f, p +:+ "." +:+ f; Path_String := λ p, p |}.
#[local] Instance text_convert : Convert := {|
  convert_ToString := λ v, match v with Some (GString s) => s | _ => "" end |}.
#[local] Instance slash_versions : GroupVersions := {|
  ParseGroupVersion := λ text, match split_on "/" text with
    | [version] => Ok ("", version) | [group; version] => Ok (group, version)
    | _ => Err ("unexpected GroupVersion string: " +:+ text) end |}.

Definition watched : list string := ["create"; "get"; "list"; "watch"].
(** Two versions of deployments and of access reviews; secrets that may not be listed. *)
Definition groups : list APIGroup :=
  [mkGroup "" "v1" ["v1"]; mkGroup "apps" "v1" ["v1"; "v1beta1"];
   mkGroup "authorization.k8s.io" "v1" ["v1"; "v1beta1"]].
Definition resourceLists : list APIResourceList :=
  [mkResourceList "v1" [mkResource "pods" "Pod" true watched; mkResource "pods/log" "Pod" true ["get"];
     mkResource "secrets" "Secret" true watched];
   mkResourceList "apps/v1" [mkResource "deployments" "Deployment" true watched];
   mkResourceList "apps/v1beta1" [mkResource "deployments" "Deployment" true watched];
   mkResourceList "authorization.k8s.io/v1" [mkResource "subjectaccessreviews" "SubjectAccessReview" false ["create"]];
   mkResourceList "authorization.k8s.io/v1beta1" [mkResource "subjectaccessreviews" "SubjectAccessReview" false ["create"]]].
Definition server X (e : refreshE X) : X :=
  match e with
  | ServerGroupsAndResources => (groups, resourceLists, GroupDiscoveryFailed)
  | crd_List => Err "no CRDs"
  | OpenAPISchema => Ok (Ok (mkModels (λ _, None) []))
  | CreateReview gvr => Ok (bool_decide (gvr_Resource gvr ≠ "secrets"), false)
  | Acquire => Ok ()
  | GetTable gvr => if bool_decide (gvr_Resource gvr = "pods") then TableColumnsOf [("Name", "string")] else TableError
  | SwapToSync => true
  | Reset _ => ()
  | OnSchemas => Ok ()
  end.

Definition refresh_run (order : MapRange) : list (event refreshE) * option (outcome error unit) :=
  run (λ X e _, server X e) 60 (refresh_schemas (H2 := order) BaseSchema false) [].
(** The schemas that are installed: ID, version and plural name. *)
Definition installed (l : list (event refreshE)) : list (gmap string APISchema) :=
  omap (λ e, match ev_call e with Reset F => Some F | _ => None end) l.
Definition names (F : gmap string APISchema) : gmap string (string * string) :=
  (λ s, (Version (S_GVK s), S_PluralName s)) <$> F.

Definition reversed_range : MapRange := {|
  range_map := λ K eqK cntK V m, rev (map_to_list m);
  range_map_perm := λ K eqK cntK V m, symmetry (Permutation_rev _) |}.
Definition served (version : string) : list (gmap string (string * string)) := [{[
  "apigroup" := ("v1", ""); "pod" := ("v1", "pods"); "apps.deployment" := ("v1", "apps.deployments");
  "authorization.k8s.io.subjectaccessreview" := (version, "authorization.k8s.io.subjectaccessreviews") ]}].

(** A kind that can only be created is not filtered by version: which version is served
    depends on the order in which Go ranges over the schemas. *)
Example create_only_version_varies :
  names <$> installed (refresh_run canonical_range).1 = served "v1beta1" ∧
  names <$> installed (refresh_run reversed_range).1 = served "v1".
Proof. split; vm_compute; reflexivity. Qed.

Lemma run_answered {R} fuel (t : itree refreshE R) l :
  Forall (answered server) (run (λ X e _, server X e) fuel t l).1.
Proof.
  revert t l. induction fuel as [|fuel IH]; intros t l; cbn; [constructor|].
  destruct (observe t) as [r|t'|X e k]; cbn; [constructor|apply IH|].
  specialize (IH (k (server X e)) (l ++ [mkEvent e (server X e)])).
  destruct (run _ _ _ _) as [l' r]. by constructor.
Qed.
Lemma installed_resets F l : F ∈ installed l → Exists (resets F) l.
Proof.
  induction l as [|[X e x] l IH]; cbn; [set_solver|]. destruct e; cbn; try (intros Hin; right; by apply IH).
  intros [->|Hin]%elem_of_cons; [by left|right; by apply IH].
Qed.

Lemma refresh_serves_discovered_witness :
  let l := (refresh_run canonical_range).1 in let F := default ∅ (head (installed l)) in
  (∀ id s, F !! id = Some s → S_ID s = id ∧ (S_GVK s = S_GVK BaseSchema ∨
    ∃ x, x ∈ discovered resourceLists ∧ may_serve server groups resourceLists BaseSchema x ∧ shows x s)) ∧
  (∀ x, x ∈ discovered resourceLists → may_serve server groups resourceLists BaseSchema x →
    is_Some (F !! GVKToSchemaID (gvk_of x))) ∧
  "pod" ∈ dom F ∧ "secret" ∉ dom F.
Proof.
  intros l F.
  assert (Hdom : "pod" ∈ dom F ∧ "secret" ∉ dom F) by (apply (bool_decide_unpack _); vm_compute; exact I).
  assert (Hone : is_Some (head (installed l))) by (apply (bool_decide_unpack _); vm_compute; exact I).
  destruct (refresh_serves_discovered (H2 := canonical_range) server groups resourceLists GroupDiscoveryFailed eq_refl BaseSchema false F l
    (refresh_run canonical_range).2) as [H1 H2]; [| | | |done].
  - split; [|split; [done|]].
    + apply (bool_decide_unpack _). vm_compute. exact I.
    + apply list.Forall_forall, (bool_decide_unpack _). vm_compute. exact I.
  - apply run_trace.
  - apply run_answered.
  - apply installed_resets. unfold F. destruct Hone as [F' HF]. rewrite HF. cbn. destruct (installed l); [done|].
    injection HF as ->. by left.
Defined.
End DiscoveryExample.
