(* ===== verification/SchemaRefresh.v ===== *)
(** * When schemas are refreshed

    pkg/controllers/schema/schemas.go: every change of a CRD or an APIService sets the flag toSync
    and starts a goroutine that sleeps and refreshes ([queueRefresh]); refreshes exclude one
    another by the mutex of the handler, take the flag, and put it back when they fail. The
    goroutines are threads that run the program [refreshAll]; the API server may change between
    any two of their calls. *)
From Stdlib Require Import Program.Equality.
From ITree Require Import Core.ITreeDefinition.
From S2P Require Import Prelude GoLib GoValue KubeTypes Schemas OpenApi ApiTrace Discovery DiscoverySpec.

(** A call of [queueRefresh] that has stored the flag, and the goroutine it starts then: in its sleep, or waiting
    for the mutex; in [refreshAll], with the calls it has made and the rest of its program; with an error; at its end. *)
Inductive thread `{Paths} :=
  | Stored
  | Sleeping
  | Refreshing (calls : list (event refreshE)) (rest : itree refreshE (outcome error unit))
  | Failed
  | Finished.

(** [unnoticed]: how many changes of the API server the handler has not been told of. [collection]: what
    [Reset] installed last. *)
Record state (Cluster : Type) `{Paths} := mkState {
  cluster : Cluster;
  unnoticed : nat;
  toSync : bool;
  collection : option (gmap string APISchema);
  mutex : option nat;
  threads : list thread }.
Arguments mkState {_ _}.
Arguments cluster {_ _}.
Arguments unnoticed {_ _}.
Arguments toSync {_ _}.
Arguments collection {_ _}.
Arguments mutex {_ _}.
Arguments threads {_ _}.

Section threads.
Context `{GroupVersions, Paths, Convert, MapRange} {Cluster : Type}.
(** What an API server may answer to a call; a call may fail. *)
Context (answers : Cluster → event refreshE → Prop) (base : APISchema) (has_handler : bool).
Implicit Types (s : state Cluster) (t : thread) (e : event refreshE).

Definition set_sync (b : bool) s : state Cluster :=
  mkState (cluster s) (unnoticed s) b (collection s) (mutex s) (threads s).
Definition set_collection (F : gmap string APISchema) s : state Cluster :=
  mkState (cluster s) (unnoticed s) (toSync s) (Some F) (mutex s) (threads s).
Definition set_thread (i : nat) t s : state Cluster :=
  mkState (cluster s) (unnoticed s) (toSync s) (collection s) (mutex s) (<[i := t]> (threads s)).
Definition set_mutex (m : option nat) s : state Cluster :=
  mkState (cluster s) (unnoticed s) (toSync s) (collection s) m (threads s).

(** The server changes. *)
Definition change (c : Cluster) s : state Cluster :=
  mkState c (S (unnoticed s)) (toSync s) (collection s) (mutex s) (threads s).
(** [OnChangeCRD] and [OnChangeAPIService] call [queueRefresh], which stores the flag; it starts the goroutine in
    a step of its own ([step_go]). *)
Definition queueRefresh (n : nat) s : state Cluster :=
  mkState (cluster s) n true (collection s) (mutex s) (threads s ++ [Stored]).

(** A call with its answer: the swap takes the flag, [Reset] installs the schemas, the rest ask
    the server. *)
Definition performs s e (s' : state Cluster) : Prop :=
  match ev_call e in refreshE X return X → Prop with
  | SwapToSync => λ old, old = toSync s ∧ s' = set_sync false s
  | Reset F => λ _, s' = set_collection F s
  | _ => λ _, answers (cluster s) e ∧ s' = s
  end (ev_answer e).

Inductive step s : state Cluster → Prop :=
  | step_change c : step s (change c s)
  | step_notify n : unnoticed s = S n → step s (queueRefresh n s)
  | step_go i : threads s !! i = Some Stored → step s (set_thread i Sleeping s)
  | step_lock i : threads s !! i = Some Sleeping → mutex s = None →
      step s (set_mutex (Some i) (set_thread i (Refreshing [] (refreshAll base has_handler)) s))
  | step_tau i calls p p' : threads s !! i = Some (Refreshing calls p) → observe p = TauF p' →
      step s (set_thread i (Refreshing calls p') s)
  | step_call i calls p X (c : refreshE X) k x s' : threads s !! i = Some (Refreshing calls p) →
      observe p = VisF c k → performs s (mkEvent c x) s' →
      step s (set_thread i (Refreshing (calls ++ [mkEvent c x]) (k x)) s')
  | step_return i calls p : threads s !! i = Some (Refreshing calls p) → observe p = RetF (Ok ()) →
      step s (set_mutex None (set_thread i Finished s))
  | step_error i calls p err : threads s !! i = Some (Refreshing calls p) → observe p = RetF (Err err) →
      step s (set_mutex None (set_thread i Failed s))
  | step_fail i : threads s !! i = Some Failed → step s (set_sync true (set_thread i Finished s)).
Inductive steps_from s : state Cluster → Prop :=
  | steps_refl : steps_from s s
  | steps_step s' s'' : steps_from s s' → step s' s'' → steps_from s s''.

(** A refresh fails in this step. *)
Definition fails s (s' : state Cluster) : Prop :=
  ∃ i calls p err, threads s !! i = Some (Refreshing calls p) ∧ observe p = RetF (Err err) ∧
    s' = set_mutex None (set_thread i Failed s).
(** Steps of which none is a failure. *)
Inductive unfailing_from s : state Cluster → Prop :=
  | unfailing_refl : unfailing_from s s
  | unfailing_step s' s'' : unfailing_from s s' → step s' s'' → ¬ fails s' s'' → unfailing_from s s''.

(** At the start nothing is known to the handler. *)
Definition start (c : Cluster) : state Cluster := mkState c 1 false None None [].

(** ** Runs of a refresh *)
Definition calls_of (p : itree refreshE (outcome error unit)) (calls : list (event refreshE)) rest : Prop :=
  ∀ l r, trace rest l r → trace p (calls ++ l) r.
Lemma calls_trace p calls rest : calls_of p calls rest → trace p calls None.
Proof. intros Hc. rewrite <-(app_nil_r calls). apply Hc, trace_now. Qed.
Lemma calls_tau p calls rest rest' : calls_of p calls rest → observe rest = TauF rest' → calls_of p calls rest'.
Proof. intros Hc Ho l r Hl. apply Hc. by apply (trace_tau _ rest'). Qed.
Lemma calls_vis p calls rest X (c : refreshE X) k x :
  calls_of p calls rest → observe rest = VisF c k → calls_of p (calls ++ [mkEvent c x]) (k x).
Proof. intros Hc Ho l r Hl. rewrite <-app_assoc. apply Hc. by apply (trace_vis _ _ c k). Qed.
Lemma calls_ret p calls rest r : calls_of p calls rest → observe rest = RetF r → trace p calls (Some r).
Proof. intros Hc Ho. rewrite <-(app_nil_r calls). apply Hc. by apply trace_ret. Qed.

(** A refresh takes the flag, and refreshes when it was set. *)
Lemma refreshAll_calls e l r : trace (refreshAll base has_handler) (e :: l) r →
  (e = mkEvent SwapToSync true ∧ trace (refresh_schemas base has_handler) l r) ∨
  (e = mkEvent SwapToSync false ∧ l = []).
Proof.
  intros Hl. unfold refreshAll, needToSync, perform in Hl. inversion Hl as [| |? ? ? Ho|X c k x l' r' Ho Hk]; subst; [done|].
  cbn in Ho. dependent destruction Ho. destruct x; [left|right].
  - split; [done|]. eapply trace_observe; [|exact Hk]. done.
  - split; [done|]. eapply (trace_observe _ (Ret (Ok ()))) in Hk; [|done]. by apply trace_Ret in Hk as [-> _].
Qed.
Definition took e : bool :=
  match ev_call e in refreshE X return X → bool with SwapToSync => λ b, b | _ => λ _, false end (ev_answer e).
Lemma took_flag calls r : trace (refreshAll base has_handler) (mkEvent SwapToSync true :: calls) r →
  trace (refresh_schemas base has_handler) calls r.
Proof. intros [[_ Hl]|[Hf _]]%refreshAll_calls; [done|]. by apply (f_equal took) in Hf. Qed.
Definition not_swap e : Prop := match ev_call e with SwapToSync => False | _ => True end.
Lemma reads_not_swap e : reads e → not_swap e.
Proof. destruct e as [X c x]. unfold reads, not_swap. cbn. destruct c; cbn; tauto. Qed.
Lemma refresh_no_swap : all not_swap (refresh_schemas base has_handler).
Proof.
  apply all_prog_bind; [eapply all_weaken; [apply reads_not_swap|apply ToSchemas_reads]|intros D].
  apply all_prog_bind; [eapply all_weaken; [apply reads_not_swap|apply filter_reads]|intros F1].
  apply all_prog_bind; [eapply all_weaken; [apply reads_not_swap|apply getColumns_reads]|intros F].
  apply all_prog_bind; [apply all_bind; [by apply all_trigger|intros; apply all_ret]|intros _u].
  eapply all_weaken; [apply reads_not_swap|apply handler_reads].
Qed.
Lemma refresh_ok_resets l u : trace (refresh_schemas base has_handler) l (Some (Ok u)) → ∃ F, Exists (resets F) l.
Proof.
  unfold refresh_schemas. intros Hl.
  apply trace_prog_bind in Hl as [[_ ?]|[(? & _ & [?|?])|[[_ [?|?]]|(l1 & D & l1' & -> & _ & Hl)]]]; try done.
  apply trace_prog_bind in Hl as [[_ ?]|[(? & _ & [?|?])|[[_ [?|?]]|(l2 & F1 & l2' & -> & _ & Hl)]]]; try done.
  apply trace_prog_bind in Hl as [[_ ?]|[(? & _ & [?|?])|[[_ [?|?]]|(l3 & F & l3' & -> & _ & Hl)]]]; try done.
  apply trace_prog_bind in Hl as [[_ ?]|[(? & _ & [?|?])|[[_ [?|?]]|(l4 & v & l4' & -> & Hr & _)]]]; try done.
  exists F. rewrite !list.Exists_app. right; right; right; left.
  apply trace_bind in Hr as [[_ ?]|(l5 & w & l6 & -> & Hr & _)]; [done|].
  apply trace_trigger in Hr as [[_ ?]|(y & -> & _)]; [done|]. by left.
Qed.

(** A thread that makes a call besides the swap has taken the flag. *)
Lemma taken calls rest X (c : refreshE X) k x :
  calls_of (refreshAll base has_handler) calls rest → observe rest = VisF c k →
  (calls = [] ∧ ¬ not_swap (mkEvent c x)) ∨
  not_swap (mkEvent c x) ∧ ∃ calls', calls = mkEvent SwapToSync true :: calls' ∧
    trace (refresh_schemas base has_handler) (calls' ++ [mkEvent c x]) None.
Proof.
  intros Hc Ho. apply (calls_vis _ _ _ _ c k x Hc), calls_trace in Ho. destruct calls as [|e calls]; cbn in Ho.
  - left. split; [done|]. by apply refreshAll_calls in Ho as [[-> _]|[-> _]]; intros [].
  - right. apply refreshAll_calls in Ho as [[-> Hl]|[_ ?]]; [|by destruct calls].
    pose proof (refresh_no_swap _ _ Hl) as Hn. apply list.Forall_app in Hn as [_ Hn].
    apply list.Forall_cons in Hn as [Hn _]. eauto.
Qed.

(** ** What holds of every state *)
Definition answered_by (c : Cluster) e : Prop :=
  match ev_call e with SwapToSync | Reset _ => True | _ => answers c e end.
(** [F] is what a refresh installs when the server [c] answers all its calls. *)
Definition refreshed (c : Cluster) (F : gmap string APISchema) : Prop :=
  ∃ l, trace (refresh_schemas base has_handler) l None ∧ Forall (answered_by c) l ∧ Exists (resets F) l.

Record refresh_ok s : Prop := {
  ok_mutex : ∀ i calls p, threads s !! i = Some (Refreshing calls p) → mutex s = Some i;
  ok_calls : ∀ i calls p, threads s !! i = Some (Refreshing calls p) →
    calls_of (refreshAll base has_handler) calls p;
  ok_fresh : unnoticed s = 0 → toSync s = false → ∀ i calls p,
    threads s !! i = Some (Refreshing (mkEvent SwapToSync true :: calls) p) → Forall (answered_by (cluster s)) calls;
  ok_settled : unnoticed s = 0 → toSync s = false →
    (∃ i, threads s !! i = Some Failed) ∨ (∃ F, collection s = Some F ∧ refreshed (cluster s) F) ∨
    (∃ i calls p, threads s !! i = Some (Refreshing (mkEvent SwapToSync true :: calls) p) ∧
       ∀ F, ¬ Exists (resets F) calls)
}.

Lemma start_settled c : refresh_ok (start c).
Proof. split; cbn; try done; intros i calls p Hi; by rewrite lookup_nil in Hi. Qed.

Lemma lookup_notified s n i calls p :
  threads (queueRefresh n s) !! i = Some (Refreshing calls p) → threads s !! i = Some (Refreshing calls p).
Proof.
  cbn. intros [?|[_ Hi]]%lookup_app_Some; [done|]. by apply list_lookup_singleton_Some in Hi as [_ ?].
Qed.
Lemma lookup_set s i j t t' : threads (set_thread i t s) !! j = Some t' →
  (j = i ∧ t' = t) ∨ (j ≠ i ∧ threads s !! j = Some t').
Proof.
  cbn. destruct (decide (j = i)) as [->|Hne].
  - intros Hj. left. split; [done|]. apply list_lookup_insert_Some in Hj as [(_ & ? & _)|[? _]]; [done|done].
  - rewrite list_lookup_insert_ne by done. by right.
Qed.
Lemma lookup_set_same s i t t' : threads s !! i = Some t → threads (set_thread i t' s) !! i = Some t'.
Proof. intros Hi. cbn. apply list_lookup_insert_eq. by eapply lookup_lt_Some. Qed.
Lemma lookup_set_other s i j t t' u : threads s !! i = Some t → threads s !! j = Some u → t ≠ u →
  threads (set_thread i t' s) !! j = Some u.
Proof. intros Hi Hj Hne. cbn. rewrite list_lookup_insert_ne; [done|]. intros ->. congruence. Qed.

Lemma only_refresh s i j calls calls' p p' : refresh_ok s → threads s !! i = Some (Refreshing calls p) →
  threads s !! j = Some (Refreshing calls' p') → j = i.
Proof. intros [Hm _ _ _] Hi%Hm Hj%Hm. congruence. Qed.
Lemma lock_ok s i : refresh_ok s → threads s !! i = Some Sleeping → mutex s = None →
  refresh_ok (set_mutex (Some i) (set_thread i (Refreshing [] (refreshAll base has_handler)) s)).
Proof.
  intros [Hm Hc Hf Hs] Hi Hfree.
  assert (Hno : ∀ j calls p, threads s !! j ≠ Some (Refreshing calls p)) by (intros j calls p Hj%Hm; congruence).
  split; cbn.
  - by intros j calls p [[-> _]|[_ Hj%Hno]]%lookup_set.
  - intros j calls p [[-> [= -> ->]]|[_ Hj%Hno]]%lookup_set; [by intros l r|done].
  - by intros _ _ j calls p [[_ ?]|[_ Hj%Hno]]%lookup_set.
  - intros Hu Ht. destruct (Hs Hu Ht) as [[j Hj]|[?|(j & calls & p & Hj%Hno & _)]]; [left|by right; left|done].
    exists j. by eapply lookup_set_other.
Qed.
Lemma go_ok s i : refresh_ok s → threads s !! i = Some Stored → refresh_ok (set_thread i Sleeping s).
Proof.
  intros [Hm Hc Hf Hs] Hi. split; cbn.
  - intros j calls p [[_ ?]|[_ Hj]]%lookup_set; [done|exact (Hm _ _ _ Hj)].
  - intros j calls p [[_ ?]|[_ Hj]]%lookup_set; [done|exact (Hc _ _ _ Hj)].
  - intros Hu Ht j calls p [[_ ?]|[_ Hj]]%lookup_set; [done|by eapply Hf].
  - intros Hu Ht. destruct (Hs Hu Ht) as [[j Hj]|[?|(j & calls & p & Hj & Hno)]].
    + left. exists j. by eapply lookup_set_other.
    + by right; left.
    + right; right. exists j, calls, p. split; [by eapply lookup_set_other|done].
Qed.
Lemma tau_ok s i calls p p' : refresh_ok s → threads s !! i = Some (Refreshing calls p) → observe p = TauF p' →
  refresh_ok (set_thread i (Refreshing calls p') s).
Proof.
  intros Hok Hi Ho. pose proof Hok as [Hm Hc Hf Hs]. split; cbn.
  - intros j calls' q [[-> _]|[_ Hj]]%lookup_set; [exact (Hm _ _ _ Hi)|exact (Hm _ _ _ Hj)].
  - intros j calls' q [[-> [= -> ->]]|[_ Hj]]%lookup_set; [|exact (Hc _ _ _ Hj)]. eapply calls_tau; [exact (Hc _ _ _ Hi)|done].
  - intros Hu Ht j calls' q [[-> [= Heq ->]]|[_ Hj]]%lookup_set; [|by eapply Hf]. eapply Hf; [done..|]. by rewrite Heq.
  - intros Hu Ht. destruct (Hs Hu Ht) as [[j Hj]|[?|(j & calls' & q & Hj & Hno)]].
    + left. exists j. by eapply lookup_set_other.
    + by right; left.
    + right; right. assert (j = i) as -> by (by eapply (only_refresh s)). rewrite Hi in Hj. injection Hj as -> ->.
      exists i, calls', p'. split; [by eapply lookup_set_same|done].
Qed.
(** A thread ends, with the error that it records if there is one. *)
Lemma end_ok s i calls p r t : refresh_ok s → threads s !! i = Some (Refreshing calls p) → observe p = RetF r →
  (r = Ok () ∧ t = Finished ∨ t = Failed) → refresh_ok (set_mutex None (set_thread i t s)).
Proof.
  intros Hok Hi Ho Hr. pose proof Hok as [Hm Hc Hf Hs].
  assert (Hno : ∀ j calls p, threads (set_thread i t s) !! j ≠ Some (Refreshing calls p)).
  { intros j calls' q [[_ ?]|[Hne Hj]]%lookup_set; [by destruct Hr as [[_ ?]|?]; subst|].
    destruct Hne. by eapply (only_refresh s). }
  split; cbn; [by intros j calls' q ?%Hno..| |].
  { by intros _ _ j calls' q ?%Hno. }
  intros Hu Ht. destruct (Hs Hu Ht) as [[j Hj]|[?|(j & calls' & q & Hj & Hnr)]].
  - left. exists j. by eapply lookup_set_other.
  - by right; left.
  - assert (j = i) as -> by (by eapply (only_refresh s)). rewrite Hi in Hj. injection Hj as -> ->.
    destruct Hr as [[-> _]| ->]; [|left; exists i; by eapply lookup_set_same].
    apply Hc in Hi. apply (calls_ret _ _ _ _ Hi), took_flag, refresh_ok_resets in Ho as [F HF]. by destruct (Hnr F).
Qed.
Lemma fail_ok s i : refresh_ok s → threads s !! i = Some Failed → refresh_ok (set_sync true (set_thread i Finished s)).
Proof.
  intros [Hm Hc _ _] Hi. split; cbn; try done.
  - intros j calls p [[_ ?]|[_ Hj]]%lookup_set; [done|by eapply Hm].
  - intros j calls p [[_ ?]|[_ Hj]]%lookup_set; [done|exact (Hc _ _ _ Hj)].
Qed.

Lemma swap_ok s i p k : refresh_ok s → threads s !! i = Some (Refreshing [] p) → observe p = VisF SwapToSync k →
  refresh_ok (set_thread i (Refreshing [mkEvent SwapToSync (toSync s)] (k (toSync s))) (set_sync false s)).
Proof.
  intros Hok Hi Ho. pose proof Hok as [Hm Hc Hf Hs].
  assert (Honly : ∀ j calls q, threads s !! j = Some (Refreshing calls q) → j = i)
    by (intros j calls q Hj; by eapply (only_refresh s)).
  split; cbn.
  - intros j calls q [[-> _]|[_ Hj]]%(lookup_set s); first [exact (Hm _ _ _ Hi)|exact (Hm _ _ _ Hj)].
  - intros j calls q [[-> [= -> ->]]|[_ Hj]]%(lookup_set s); [|exact (Hc _ _ _ Hj)].
    eapply (calls_vis _ [] _ _ SwapToSync); [exact (Hc _ _ _ Hi)|done].
  - intros _ _ j calls q [[-> [= _ -> _]]|[Hne Hj%Honly]]%(lookup_set s); done.
  - intros Hu _. destruct (toSync s) eqn:Ht.
    + right; right. exists i, [], (k true). split; [by eapply (lookup_set_same s)|]. intros F HF. by inversion HF.
    + destruct (Hs Hu eq_refl) as [[j Hj]|[?|(j & calls & q & Hj & _)]].
      * left. exists j. by eapply (lookup_set_other s).
      * by right; left.
      * apply Honly in Hj as Hji. subst j. congruence.
Qed.

Lemma reset_ok s i calls p F k x : refresh_ok s → threads s !! i = Some (Refreshing calls p) →
  observe p = VisF (Reset F) k →
  refresh_ok (set_thread i (Refreshing (calls ++ [mkEvent (Reset F) x]) (k x)) (set_collection F s)).
Proof.
  intros Hok Hi Ho. pose proof Hok as [Hm Hc Hf Hs].
  assert (Honly : ∀ j calls q, threads s !! j = Some (Refreshing calls q) → j = i)
    by (intros j calls' q Hj; by eapply (only_refresh s)).
  destruct (taken _ _ _ _ _ x (Hc _ _ _ Hi) Ho) as [[_ Hn]|(_ & calls' & -> & Hl)]; [by destruct Hn|].
  split; cbn.
  - intros j calls q [[-> _]|[_ Hj]]%(lookup_set s); first [exact (Hm _ _ _ Hi)|exact (Hm _ _ _ Hj)].
  - intros j calls q [[-> [= -> ->]]|[_ Hj]]%(lookup_set s); [|exact (Hc _ _ _ Hj)]. eapply (calls_vis _ (_ :: _)); [exact (Hc _ _ _ Hi)|done].
  - intros Hu Ht j calls q [[-> [= -> _]]|[Hne Hj%Honly]]%(lookup_set s); [|done].
    apply list.Forall_app. split; [by eapply Hf|]. by repeat constructor.
  - intros Hu Ht. right; left. exists F. split; [done|]. exists (calls' ++ [mkEvent (Reset F) x]). split_and!; [done| |].
    + apply list.Forall_app. split; [by eapply Hf|]. by repeat constructor.
    + apply list.Exists_app. right. by left.
Qed.

Lemma read_ok s i calls p X (c : refreshE X) k x : refresh_ok s → threads s !! i = Some (Refreshing calls p) →
  observe p = VisF c k → reads (mkEvent c x) → answered_by (cluster s) (mkEvent c x) →
  refresh_ok (set_thread i (Refreshing (calls ++ [mkEvent c x]) (k x)) s).
Proof.
  intros Hok Hi Ho Hreads Ha. pose proof Hok as [Hm Hc Hf Hs].
  destruct (taken _ _ _ _ _ x (Hc _ _ _ Hi) Ho) as [[_ Hn]|(_ & calls' & -> & Hl)]; [by destruct Hn; apply reads_not_swap|].
  split; cbn.
  - intros j calls q [[-> _]|[_ Hj]]%lookup_set; first [exact (Hm _ _ _ Hi)|exact (Hm _ _ _ Hj)].
  - intros j calls q [[-> [= -> ->]]|[_ Hj]]%lookup_set; [|exact (Hc _ _ _ Hj)].
    eapply (calls_vis _ (_ :: _)); [exact (Hc _ _ _ Hi)|done].
  - intros Hu Ht j calls q [[-> [= -> _]]|[Hne Hj]]%lookup_set; [|by eapply Hf].
    apply list.Forall_app. split; [by eapply Hf|]. by constructor.
  - intros Hu Ht. destruct (Hs Hu Ht) as [[j Hj]|[?|(j & calls & q & Hj & Hno)]].
    + left. exists j. by eapply lookup_set_other.
    + by right; left.
    + right; right. assert (j = i) as -> by (by eapply (only_refresh s)). rewrite Hi in Hj. injection Hj as <- <-.
      exists i, (calls' ++ [mkEvent c x]), (k x). split; [by eapply lookup_set_same|].
      intros F [HF|HF]%list.Exists_app; [by apply (Hno F)|]. apply List.Exists_cons in HF as [HF|HF]; [|by inversion HF].
      by eapply reads_no_reset.
Qed.

Lemma step_ok s s' : refresh_ok s → step s s' → refresh_ok s'.
Proof.
  intros Hok Hs. destruct Hs as [c|n Hn|i Hi|i Hi Hfree|i calls p p' Hi Ho|i calls p X c k x s' Hi Ho Hp|i calls p Hi Ho|i calls p err Hi Ho|i Hi].
  - destruct Hok as [Hm Hc Hf Hss]. by split.
  - destruct Hok as [Hm Hc Hf Hss]. split; try done.
    + intros i calls p Hi%lookup_notified. exact (Hm _ _ _ Hi).
    + intros i calls p Hi%lookup_notified. exact (Hc _ _ _ Hi).
  - by apply go_ok.
  - by apply lock_ok.
  - by eapply tau_ok.
  - destruct c; unfold performs in Hp; cbn in Hp;
      try (destruct Hp; subst; by eapply read_ok).
    + destruct Hp as [-> ->].
      destruct (taken _ _ _ _ _ true (ok_calls s Hok _ _ _ Hi) Ho) as [[-> _]|[[] _]].
      by eapply swap_ok.
    + subst s'. by eapply reset_ok.
  - eapply end_ok; [done..|]. by left.
  - eapply end_ok; [done..|]. by right.
  - by apply fail_ok.
Qed.
Lemma refresh_steps_ok s s' : refresh_ok s → steps_from s s' → refresh_ok s'.
Proof. intros Hok. induction 1 as [|s' s'' _ IH Hs]; [done|]. by eapply step_ok. Qed.

(** ** What holds while no refresh fails *)

(** A thread will still take the flag. *)
Definition about_to_take t : Prop :=
  match t with Stored | Sleeping | Refreshing [] _ => True | _ => False end.
(** Every change has been notified, and its refresh is over, under way or still to come. *)
Definition covered s : Prop :=
  (∃ F, collection s = Some F ∧ refreshed (cluster s) F ∧ ∀ i calls p,
     threads s !! i = Some (Refreshing (mkEvent SwapToSync true :: calls) p) → Forall (answered_by (cluster s)) calls) ∨
  (∃ i calls p, threads s !! i = Some (Refreshing (mkEvent SwapToSync true :: calls) p) ∧
     Forall (answered_by (cluster s)) calls ∧ ∀ F, ¬ Exists (resets F) calls) ∨
  (toSync s = true ∧ ∃ i t, threads s !! i = Some t ∧ about_to_take t).

(** A step of a thread that neither swaps nor resets. *)
Lemma covered_set s i t t' : covered s → threads s !! i = Some t →
  (∀ calls p, t' = Refreshing (mkEvent SwapToSync true :: calls) p → ∃ calls0 p0,
     t = Refreshing (mkEvent SwapToSync true :: calls0) p0 ∧
     (Forall (answered_by (cluster s)) calls0 → Forall (answered_by (cluster s)) calls)) →
  (∀ calls p, t = Refreshing (mkEvent SwapToSync true :: calls) p → (∀ F, ¬ Exists (resets F) calls) →
     ∃ calls' p', t' = Refreshing (mkEvent SwapToSync true :: calls') p' ∧ ∀ F, ¬ Exists (resets F) calls') →
  (about_to_take t → about_to_take t') → covered (set_thread i t' s).
Proof.
  intros [(F & HF & Hr & Ha)|[(j & calls & p & Hj & Ha & Hno)|(Ht & j & u & Hj & Hu)]] Hi Hnew Hold Htake.
  - left. exists F. split_and!; [done..|]. intros j calls p [[-> Heq]|[_ Hj]]%lookup_set; [|by eapply Ha].
    destruct (Hnew _ _ (eq_sym Heq)) as (calls0 & p0 & -> & Hc). by eapply Hc, Ha.
  - right; left. destruct (decide (j = i)) as [->|Hne].
    + rewrite Hi in Hj. injection Hj as ->. destruct (Hold _ _ eq_refl Hno) as (calls' & p' & -> & Hno').
      destruct (Hnew _ _ eq_refl) as (calls0 & p0 & [= <- <-] & Hc).
      exists i, calls', p'. split_and!; [by eapply lookup_set_same|by apply Hc|done].
    + exists j, calls, p. split_and!; [cbn; by rewrite list_lookup_insert_ne by done|done..].
  - right; right. split; [done|]. destruct (decide (j = i)) as [->|Hne].
    + rewrite Hi in Hj. injection Hj as ->. exists i, t'. split; [by eapply lookup_set_same|by apply Htake].
    + exists j, u. split; [cbn; by rewrite list_lookup_insert_ne by done|done].
Qed.
Lemma no_resets_nil F : ¬ Exists (resets F) [].
Proof. intros HF. by inversion HF. Qed.
Lemma queueRefresh_covered n s : covered (queueRefresh n s).
Proof.
  right; right. split; [done|]. exists (length (threads s)), Stored. split; [|done].
  cbn. by rewrite lookup_app_r, Nat.sub_diag.
Qed.
Lemma covered_swap s i p k : refresh_ok s → covered s → threads s !! i = Some (Refreshing [] p) →
  covered (set_thread i (Refreshing [mkEvent SwapToSync (toSync s)] (k (toSync s))) (set_sync false s)).
Proof.
  intros Hok Hcov Hi. destruct (toSync s) eqn:Ht.
  - right; left. exists i, [], (k true). split_and!; [by eapply (lookup_set_same s)|by constructor|apply no_resets_nil].
  - destruct Hcov as [(F & HF & Hr & Ha)|[(j & calls & q & Hj & _)|[? _]]]; [left| |congruence].
    + exists F. split_and!; [done..|]. intros j calls q [[_ Heq]|[_ Hj]]%(lookup_set s); [|by eapply Ha].
      apply (f_equal (λ t, match t with Refreshing (_ :: l) _ => l | _ => [] end)) in Heq. cbn in Heq. subst. by constructor.
    + assert (j = i) as -> by (by eapply (only_refresh s)). congruence.
Qed.
Lemma covered_reset s i calls p F x q : refresh_ok s → covered s →
  threads s !! i = Some (Refreshing (mkEvent SwapToSync true :: calls) p) →
  trace (refresh_schemas base has_handler) (calls ++ [mkEvent (Reset F) x]) None →
  covered (set_thread i (Refreshing (mkEvent SwapToSync true :: calls ++ [mkEvent (Reset F) x]) q) (set_collection F s)).
Proof.
  intros Hok Hcov Hi Hl. assert (Hgo : Forall (answered_by (cluster s)) calls → covered (set_thread i
    (Refreshing (mkEvent SwapToSync true :: calls ++ [mkEvent (Reset F) x]) q) (set_collection F s))).
  { intros Ha. assert (Hall : Forall (answered_by (cluster s)) (calls ++ [mkEvent (Reset F) x])).
    { apply list.Forall_app. split; [done|]. by repeat constructor. }
    left. exists F. split_and!; [done| |].
    - exists (calls ++ [mkEvent (Reset F) x]). split_and!; [done..|]. apply list.Exists_app. right. by left.
    - intros j calls' q' [[-> [= -> _]]|[Hne Hj]]%(lookup_set s); [done|].
      destruct Hne. by eapply (only_refresh s). }
  destruct Hcov as [(F' & HF & Hr & Ha)|[(j & calls' & q' & Hj & Ha & _)|(Ht & j & u & Hj & Hu)]].
  - by eapply Hgo, Ha.
  - assert (j = i) as -> by (by eapply (only_refresh s)). rewrite Hi in Hj. injection Hj as <- <-. by apply Hgo.
  - right; right. split; [done|]. exists j, u. split; [|done]. cbn. rewrite list_lookup_insert_ne; [done|].
    intros <-. rewrite Hi in Hj. by injection Hj as <-.
Qed.
Lemma covered_read s i calls p X (c : refreshE X) k x : refresh_ok s → covered s →
  threads s !! i = Some (Refreshing calls p) → observe p = VisF c k → reads (mkEvent c x) →
  answered_by (cluster s) (mkEvent c x) → covered (set_thread i (Refreshing (calls ++ [mkEvent c x]) (k x)) s).
Proof.
  intros Hok Hcov Hi Ho Hreads Ha.
  destruct (taken _ _ _ _ _ x (ok_calls s Hok _ _ _ Hi) Ho) as [[_ Hn]|(_ & calls' & -> & Hl)];
    [by destruct Hn; apply reads_not_swap|].
  eapply covered_set; [done..| | |done].
  - intros calls q [= <- <-]. exists calls', p. split; [done|]. intros ?. apply list.Forall_app. split; [done|]. by constructor.
  - intros calls q [= <- <-] Hno. exists (calls' ++ [mkEvent c x]), (k x). split; [done|].
    intros F [HF|HF]%list.Exists_app; [by apply (Hno F)|]. apply List.Exists_cons in HF as [HF|HF]; [|by inversion HF].
    by eapply reads_no_reset.
Qed.
(** A refresh that ends without an error has asked for the flag, and has installed its schemas if it took it. *)
Lemma covered_return s i calls p : refresh_ok s → covered s → threads s !! i = Some (Refreshing calls p) →
  observe p = RetF (Ok ()) → covered (set_mutex None (set_thread i Finished s)).
Proof.
  intros Hok Hcov Hi Ho. pose proof (calls_ret _ _ _ _ (ok_calls s Hok _ _ _ Hi) Ho) as Hl.
  enough (covered (set_thread i Finished s)) by done. eapply covered_set; [done..| |].
  - intros calls' q [= -> <-] Hno. apply took_flag, refresh_ok_resets in Hl as [F HF]. by destruct (Hno F).
  - intros Htake. destruct calls as [|e calls]; [|done].
    unfold refreshAll, needToSync, perform in Hl. inversion Hl as [|? ? Hr|? ? ? ? Hr|]; subst; by cbn in Hr.
Qed.

Lemma step_covered s s' : refresh_ok s → (unnoticed s = 0 → covered s) → step s s' → ¬ fails s s' →
  unnoticed s' = 0 → covered s'.
Proof.
  intros Hok Hcov Hs Hnf.
  destruct Hs as [c|n Hn|i Hi|i Hi Hfree|i calls p p' Hi Ho|i calls p X c k x s' Hi Ho Hp|i calls p Hi Ho|i calls p err Hi Ho|i Hi].
  - done.
  - intros _. apply queueRefresh_covered.
  - intros Hu. by eapply covered_set; [by apply Hcov|done|..].
  - intros Hu. enough (covered (set_thread i (Refreshing [] (refreshAll base has_handler)) s)) by done.
    by eapply covered_set; [by apply Hcov|done|..].
  - intros Hu. eapply covered_set; [by apply Hcov|done|..].
    + intros calls' q [= -> <-]. by eauto.
    + intros calls' q [= -> _] Hno. by eauto.
    + done.
  - destruct c; unfold performs in Hp; cbn in Hp;
      try (destruct Hp; subst; intros Hu; by eapply covered_read; [|by apply Hcov|..]).
    + destruct Hp as [-> ->]. intros Hu.
      destruct (taken _ _ _ _ _ true (ok_calls s Hok _ _ _ Hi) Ho) as [[-> _]|[[] _]].
      eapply covered_swap; [done|by apply Hcov|done].
    + subst s'. intros Hu.
      destruct (taken _ _ _ _ _ x (ok_calls s Hok _ _ _ Hi) Ho) as [[_ Hn]|(_ & calls' & -> & Hl)]; [by destruct Hn|].
      eapply covered_reset; [done|by apply Hcov|done..].
  - intros Hu. eapply covered_return; [done|by apply Hcov|done..].
  - destruct Hnf. by exists i, calls, p, err.
  - intros Hu. destruct (Hcov Hu) as [Hc|[Hc|[_ (j & u & Hj & Hu')]]].
    + enough (covered (set_thread i Finished s)) as [?|[?|[? ?]]]; [by left|by right; left|by right; right|].
      by eapply covered_set; [by left|done|..].
    + enough (covered (set_thread i Finished s)) as [?|[?|[? ?]]]; [by left|by right; left|by right; right|].
      by eapply covered_set; [by right; left|done|..].
    + right; right. split; [done|]. exists j, u. split; [|done]. cbn. rewrite list_lookup_insert_ne; [done|].
      intros <-. rewrite Hi in Hj. by injection Hj as <-.
Qed.
Lemma unfailing_covered s0 s : refresh_ok s0 → unnoticed s0 ≠ 0 → unfailing_from s0 s →
  refresh_ok s ∧ (unnoticed s = 0 → covered s).
Proof.
  intros Hok Hu. induction 1 as [|s' s'' _ [Hok' Hc] Hs Hf]; [done|].
  split; [by eapply step_ok|]. by eapply step_covered.
Qed.

(** C18: However changes of the API server, notifications and the goroutines of the handler interleave: take a state in
    which the handler has not been told of a change yet. When from there on every change has been notified, every
    goroutine has ended and no refresh has failed in between, the schemas that are installed are those of a refresh
    whose calls were all answered by the server as it is now. The same holds, whatever has failed before, when toSync is
    not set in the end. *)
Theorem no_change_lost c s0 s :
  steps_from (start c) s0 → unnoticed s0 ≠ 0 → steps_from s0 s →
  unnoticed s = 0 → Forall (λ t, t = Finished) (threads s) →
  unfailing_from s0 s ∨ toSync s = false → ∃ F, collection s = Some F ∧ refreshed (cluster s) F.
Proof.
  intros Hs0 Hu0 Hs Hu Hend Hor. apply (refresh_steps_ok _ _ (start_settled c)) in Hs0.
  assert (Hno : ∀ i t, threads s !! i = Some t → t = Finished).
  { rewrite list.Forall_forall in Hend. intros i t Hi. apply Hend. by eapply list_elem_of_lookup_2. }
  destruct Hor as [Hq|Ht].
  - destruct (unfailing_covered s0 s Hs0 Hu0 Hq) as [_ Hc].
    destruct (Hc Hu) as [(F & HF & Hr & _)|[(i & calls & p & Hi%Hno & _)|(_ & i & t & ->%Hno & [])]]; [by exists F|done].
  - apply (refresh_steps_ok s0) in Hs; [|done].
    destruct (ok_settled s Hs Hu Ht) as [[i Hi%Hno]|[?|(i & calls & p & Hi%Hno & _)]]; done.
Qed.
End threads.

(** ** Examples *)
Module RefreshExample.
#[local] Instance text_paths : Paths := {|
  Path := string; NewPath := λ n, n; FieldPath := λ p f, p +:+ "." +:+ f; Path_String := λ p, p |}.
#[local] Instance text_convert : Convert := {|
  convert_ToString := λ v, match v with Some (GString s) => s | _ => "" end |}.
#[local] Instance core_versions : GroupVersions := {| ParseGroupVersion := λ text, Ok ("", text) |}.
#[local] Existing Instance canonical_range.

(** A server with one kind; it is up or down. *)
Definition server (up : bool) X (c : refreshE X) : X :=
  match c with
  | ServerGroupsAndResources => if up
      then ([mkGroup "" "v1" ["v1"]], [mkResourceList "v1" [mkResource "bindings" "Binding" true ["create"]]], NoError)
      else ([], [], DiscoveryFailed (EText "down"))
  | crd_List => Ok []
  | OpenAPISchema => Ok (Ok (mkModels (λ _, None) []))
  | CreateReview gvr => Ok (true, false)
  | Acquire => Ok ()
  | GetTable gvr => TableError
  | SwapToSync => true
  | Reset _ => ()
  | OnSchemas => Ok ()
  end.
Definition server_answers (up : bool) (e : event refreshE) : Prop := ev_answer e = server up _ (ev_call e).

(** The next step of a thread. *)
Definition call_effect (s : state bool) X (c : refreshE X) : X * state bool :=
  match c in refreshE X return X * state bool with
  | SwapToSync => (toSync s, set_sync false s)
  | Reset F => ((), set_collection F s)
  | ServerGroupsAndResources => (server (cluster s) _ ServerGroupsAndResources, s)
  | crd_List => (server (cluster s) _ crd_List, s)
  | OpenAPISchema => (server (cluster s) _ OpenAPISchema, s)
  | CreateReview gvr => (server (cluster s) _ (CreateReview gvr), s)
  | Acquire => (server (cluster s) _ Acquire, s)
  | GetTable gvr => (server (cluster s) _ (GetTable gvr), s)
  | OnSchemas => (server (cluster s) _ OnSchemas, s)
  end.
Definition run_thread (i : nat) (s : state bool) : state bool :=
  match threads s !! i with
  | Some Stored => set_thread i Sleeping s
  | Some Sleeping => match mutex s with
      | None => set_mutex (Some i) (set_thread i (Refreshing [] (refreshAll BaseSchema false)) s)
      | Some _ => s
      end
  | Some (Refreshing calls p) => match observe p with
      | RetF (Ok _) => set_mutex None (set_thread i Finished s)
      | RetF (Err _) => set_mutex None (set_thread i Failed s)
      | RetF Panic => s
      | TauF p' => set_thread i (Refreshing calls p') s
      | VisF c k => let '(x, s') := call_effect s _ c in
          set_thread i (Refreshing (calls ++ [mkEvent c x]) (k x)) s'
      end
  | Some Failed => set_sync true (set_thread i Finished s)
  | _ => s
  end.
Abbreviation reaches := (steps_from server_answers BaseSchema false).

Lemma run_thread_step i s : run_thread i s = s ∨ step server_answers BaseSchema false s (run_thread i s).
Proof.
  unfold run_thread. destruct (threads s !! i) as [[| |calls p| |]|] eqn:Hi; try by left.
  - right. by apply step_go.
  - destruct (mutex s) eqn:Hm; [by left|right]. by apply step_lock.
  - destruct (observe p) as [[[]|err|]|p'|X c k] eqn:Ho; [right|right|by left|right|right].
    + by eapply step_return.
    + by eapply step_error.
    + by eapply step_tau.
    + destruct (call_effect s X c) as [x s'] eqn:Hc. eapply step_call; [done..|].
      destruct c; cbn in Hc; injection Hc as <- <-; done.
  - right. by apply step_fail.
Qed.
Lemma run_threads s0 i n s : reaches s0 s → reaches s0 (Nat.iter n (run_thread i) s).
Proof.
  intros Hs. induction n as [|n IH]; [done|]. rewrite Nat.iter_succ.
  destruct (run_thread_step i (Nat.iter n (run_thread i) s)) as [->|Hstep]; [done|by eapply steps_step].
Qed.
Definition none_failed (s : state bool) : bool := forallb (λ t, match t with Failed => false | _ => true end) (threads s).
Lemma fails_failed s s' : fails s s' → none_failed s' = false.
Proof.
  intros (i & calls & p & err & Hi & _ & ->). apply not_true_is_false. intros Hn.
  unfold none_failed in Hn. rewrite forallb_forall in Hn. specialize (Hn Failed). cbn in Hn.
  enough (false = true) by done. apply Hn, list_elem_of_In. eapply list_elem_of_lookup_2.
  apply list_lookup_insert_eq. by eapply lookup_lt_Some.
Qed.
Lemma run_unfailing s0 i n s : unfailing_from server_answers BaseSchema false s0 s →
  forallb (λ k, none_failed (Nat.iter (S k) (run_thread i) s)) (seq 0 n) = true →
  unfailing_from server_answers BaseSchema false s0 (Nat.iter n (run_thread i) s).
Proof.
  intros Hs. induction n as [|n IH]; [done|]. rewrite seq_S, forallb_app, andb_true_iff. intros [Hn Hl].
  cbn [forallb Nat.add] in Hl. rewrite andb_true_r, Nat.iter_succ in Hl. rewrite Nat.iter_succ. destruct (run_thread_step i (Nat.iter n (run_thread i) s)) as [Heq|Hstep].
  - rewrite Heq. by apply IH.
  - eapply unfailing_step; [by apply IH|done|]. intros Hf%fails_failed. congruence.
Qed.
Definition notified (up : bool) : state bool := queueRefresh 0 (start up).
Lemma notified_reached up : reaches (start up) (notified up).
Proof. eapply steps_step; [apply steps_refl|by apply step_notify]. Qed.

Lemma no_change_lost_witness :
  let s := Nat.iter 20 (run_thread 0) (notified true) in
  (∃ F, collection s = Some F ∧ refreshed server_answers BaseSchema false (cluster s) F) ∧
  (dom <$> collection s) = Some {["apigroup"; "binding"]}.
Proof.
  intros s. split; [|vm_compute; reflexivity].
  apply (no_change_lost server_answers BaseSchema false true (start true) s).
  - apply steps_refl.
  - done.
  - apply run_threads, notified_reached.
  - vm_compute; reflexivity.
  - replace (threads s) with [@Finished text_paths] by (vm_compute; reflexivity). by repeat constructor.
  - left. apply run_unfailing; [|vm_compute; reflexivity].
    eapply unfailing_step; [apply unfailing_refl|by apply step_notify|]. by intros Hf%fails_failed.
Defined.

(** A refresh that fails puts the flag back, but nothing refreshes until the next change. *)
Example failed_refresh_not_retried : ∃ s, reaches (start false) s ∧ unnoticed s = 0 ∧ threads s = [Finished] ∧
  toSync s = true ∧ collection s = None.
Proof.
  exists (Nat.iter 20 (run_thread 0) (notified false)).
  split; [apply run_threads, notified_reached|]. split_and!; vm_compute; reflexivity.
Qed.
End RefreshExample.
