(* ===== verification/PodImpersonation.v ===== *)
(** * Pods that act as a user: pkg/podimpersonation/podimpersonation.go

    [CreatePod] makes a pod with a kubeconfig that impersonates a user: a cluster role that
    allows the impersonation, a service account bound to it with a token, config maps and
    secrets, and the pod itself, all owned by the role, so that they go when it is deleted. The
    calls of the Kubernetes API are the events of interaction trees ([ApiTrace]). Fields of
    Kubernetes' objects that the code does not touch are left out. *)
From S2P Require Import Prelude GoLib KubeTypes AccessControl ApiTrace.
From Stdlib Require Import Program.Equality.
From ITree Require Import Core.ITreeDefinition.

Definition roleLabel : string := "pod-impersonation.cattle.io/cluster-role".
Definition keyLabel : string := "pod-impersonation.cattle.io/key".
Definition TokenLabel : string := "pod-impersonation.cattle.io/token".

(** ** Objects of Kubernetes *)
Record OwnerReference := mkOwner { o_APIVersion : string; o_Kind : string; o_Name : string; o_UID : string }.
Record ObjectMeta := mkMeta {
  m_Name : string; m_GenerateName : string; m_Namespace : string; m_UID : string;
  m_ResourceVersion : string; m_Labels : gmap string string; m_Annotations : gmap string string;
  m_Owners : list OwnerReference
}.
Definition meta_named (name generateName namespace : string) (owners : list OwnerReference) : ObjectMeta :=
  mkMeta name generateName namespace "" "" ∅ ∅ owners.
Definition with_owners (m : ObjectMeta) (owners : list OwnerReference) : ObjectMeta :=
  mkMeta (m_Name m) (m_GenerateName m) (m_Namespace m) (m_UID m) (m_ResourceVersion m) (m_Labels m)
    (m_Annotations m) owners.
Definition with_annotation (m : ObjectMeta) (k v : string) : ObjectMeta :=
  mkMeta (m_Name m) (m_GenerateName m) (m_Namespace m) (m_UID m) (m_ResourceVersion m) (m_Labels m)
    (<[k := v]> (m_Annotations m)) (m_Owners m).
Definition with_label (m : ObjectMeta) (k v : string) : ObjectMeta :=
  mkMeta (m_Name m) (m_GenerateName m) (m_Namespace m) (m_UID m) (m_ResourceVersion m)
    (<[k := v]> (m_Labels m)) (m_Annotations m) (m_Owners m).

Record ClusterRole := mkRole { r_Meta : ObjectMeta; r_Rules : list PolicyRule }.
Record RoleBinding := mkBinding {
  b_Meta : ObjectMeta; b_Subjects : list Subject; b_RoleAPIGroup : string; b_RoleRef : RoleRef }.
Record ServiceAccount := mkServiceAccount { sa_Meta : ObjectMeta }.
Record Secret := mkSecret { s_Meta : ObjectMeta; s_Type : string; s_Data : gmap string string }.
Record ConfigMap := mkConfigMap { cm_Meta : ObjectMeta; cm_Data : gmap string string }.

Inductive VolumeSource :=
  | VConfigMap (name : string) (mode : option Z)
  | VSecret (name : string) (mode : option Z)
  | VEmptyDir
  | VOther.
Record Volume := mkVolume { v_Name : string; v_Source : VolumeSource }.
Record VolumeMount := mkMount {
  vm_Name : string; vm_MountPath : string; vm_SubPath : string; vm_ReadOnly : bool }.
Record SecurityContext := mkSecurity {
  sc_RunAsUser : option Z; sc_RunAsGroup : option Z; sc_ReadOnlyRoot : option bool }.
Record Container := mkContainer {
  c_Name : string; c_Image : string; c_Command : list string; c_PullPolicy : string;
  c_Env : list (string * string); c_Security : option SecurityContext; c_Mounts : list VolumeMount
}.
Record Pod := mkPod {
  p_Meta : ObjectMeta;
  p_ServiceAccountName : string; p_Automount : option bool;
  p_Volumes : list Volume; p_InitContainers : list Container; p_Containers : list Container
}.
Definition with_meta (p : Pod) (m : ObjectMeta) : Pod :=
  mkPod m (p_ServiceAccountName p) (p_Automount p) (p_Volumes p) (p_InitContainers p) (p_Containers p).
Definition with_volumes (p : Pod) (vs : list Volume) : Pod :=
  mkPod (p_Meta p) (p_ServiceAccountName p) (p_Automount p) vs (p_InitContainers p) (p_Containers p).

Record PodOptions := mkPodOptions {
  ConfigMapsToCreate : list ConfigMap; SecretsToCreate : list Secret; Wait : bool;
  ImageOverride : string }.
Definition no_options : PodOptions := mkPodOptions [] [] false "".

(** ** The calls: those of the client of the administrator, the random token and the sleep *)
Abbreviation answer := (outcome api_error).
Inductive kubeE : Type → Type :=
  | GetNamespace (name : string) : kubeE (answer unit)
  | CreateNamespace (name : string) : kubeE (answer unit)
  | CreateClusterRole (role : ClusterRole) : kubeE (answer ClusterRole)
  | DeleteClusterRole (name : string) : kubeE (answer unit)
  | CreateClusterRoleBinding (b : RoleBinding) : kubeE (answer unit)
  | CreateServiceAccount (namespace : string) (sa : ServiceAccount) : kubeE (answer ServiceAccount)
  | GetServiceAccount (namespace name : string) : kubeE (answer ServiceAccount)
  | UpdateServiceAccount (namespace : string) (sa : ServiceAccount) : kubeE (answer unit)
  | CreateSecret (namespace : string) (s : Secret) : kubeE (answer Secret)
  | GetSecret (namespace name : string) : kubeE (answer Secret)
  | CreateConfigMap (namespace : string) (cm : ConfigMap) : kubeE (answer ConfigMap)
  | CreatePodE (namespace : string) (p : Pod) : kubeE (answer Pod)
  | WatchPods (namespace name resourceVersion : string) : kubeE (answer (list (option Pod)))
  | GenerateToken : kubeE (answer string)                        (* randomtoken.Generate *)
  | Sleep (seconds : Z) : kubeE (answer unit).
Abbreviation program := (prog kubeE api_error).

(** A kubeconfig: its server, the authority of a cluster, and the user of an administrator. *)
Record AuthInfo := mkAuthInfo { TokenFile : string; a_Impersonate : string; ImpersonateGroups : list string }.
Record kubeconfig := mkKubeconfig {
  k_Server : string; k_CertificateAuthority : string; k_AuthInfo : option AuthInfo }.

Section pods.
Context `{MapRange}.
(* errors.IsNotFound, clientcmd.Write, and whether the condition "Ready" of a pod holds *)
Context (IsNotFound : api_error → bool) (Write : kubeconfig → answer string) (IsReady : Pod → bool).
(* constants of Kubernetes: the API group and version of RBAC, the type and the key of tokens, a
   pull policy *)
Context (GroupName RBACVersion SecretTypeServiceAccountToken ServiceAccountTokenKey PullIfNotPresent : string).
(* a PodImpersonation: its key, the name of its image, and the error of AdminK8sInterface *)
Context (key : string) (imageName : string) (admin_error : option api_error).

Definition adminConfigName : string := "impersonation-" +:+ key +:+ "-admin-kubeconfig-".
Definition userConfigName : string := "impersonation-" +:+ key +:+ "-user-kubeconfig-".
Definition generated : string := "pod-impersonation-" +:+ key +:+ "-".

Definition ref (role : ClusterRole) : list OwnerReference :=
  [mkOwner RBACVersion "ClusterRole" (m_Name (r_Meta role)) (m_UID (r_Meta role))].

(** ** The role *)
Definition createNamespace (namespace : string) : program unit :=
  ITree.bind (ITree.trigger (GetNamespace namespace)) (λ ns,
    match ns with
    | Err e => if IsNotFound e then call (CreateNamespace namespace) else Ret ns
    | _ => Ret ns
    end).

(** What the role allows: to impersonate the user, or every service account when the user is
    one, and the groups of the user. *)
Definition user_rule (user : UserInfo) : PolicyRule :=
  if String.prefix "system:serviceaccount:" (GetName user)
  then mkRule ["impersonate"] [""] ["serviceaccounts"] [] []
  else mkRule ["impersonate"] [""] ["users"] [GetName user] [].
Definition role_rules (user : UserInfo) : list PolicyRule :=
  [user_rule user; mkRule ["impersonate"] [""] ["groups"] (GetGroups user) []].
Definition role_of (user : UserInfo) : ClusterRole :=
  mkRole (mkMeta "" generated "" "" "" {[roleLabel := "true"]} ∅ []) (role_rules user).

Definition createRole (user : UserInfo) (namespace : string) : program ClusterRole :=
  _ ← createNamespace namespace;
  call (CreateClusterRole (role_of user)).

Definition createRoleBinding (role : ClusterRole) (sa : ServiceAccount) : program unit :=
  call (CreateClusterRoleBinding (mkBinding (meta_named "" generated "" (ref role))
    [mkSubject "ServiceAccount" "" (m_Name (sa_Meta sa)) (m_Namespace (sa_Meta sa))]
    GroupName (mkRoleRef "ClusterRole" (m_Name (r_Meta role))))).

Definition createServiceAccount (role : ClusterRole) (namespace : string) : program ServiceAccount :=
  call (CreateServiceAccount namespace (mkServiceAccount (meta_named "" generated "" (ref role)))).

Definition updateServiceAccount (pod : Pod) (sa : ServiceAccount) : program unit :=
  sa ← call (GetServiceAccount (m_Namespace (sa_Meta sa)) (m_Name (sa_Meta sa)));
  let sa := mkServiceAccount (with_owners (sa_Meta sa)
    [mkOwner "v1" "Pod" (m_Name (p_Meta pod)) (m_UID (p_Meta pod))]) in
  call (UpdateServiceAccount (m_Namespace (sa_Meta sa)) sa).

(** ** The pod *)
Definition kubeconfig_mount (c : Container) (path : string) : Container :=
  mkContainer (c_Name c) (c_Image c) (c_Command c) (c_PullPolicy c) (c_Env c) (c_Security c)
    (c_Mounts c ++ [mkMount "user-kubeconfig" path "config" false]).
Definition root : SecurityContext := mkSecurity (Some 0%Z) (Some 0%Z) None.
Definition init_container (image : string) : Container :=
  mkContainer "init-kubeconfig-volume" image
    ["sh"; "-c"; "cp /home/.kube/config /tmp/.kube && chown 1000 /tmp/.kube/config"] PullIfNotPresent []
    (Some root) [mkMount "user-kube-configmap" "/home/.kube/config" "config" false;
                 mkMount "user-kubeconfig" "/tmp/.kube" "" false].

(** The path of a container's kubeconfig: its first variable of that name. *)
Definition kubeconfig_env (c : Container) : option string :=
  match list_find (λ e : string * string, e.1 = "KUBECONFIG") (c_Env c) with
  | Some (_, envvar) => Some envvar.2
  | None => None
  end.

(** The containers in order: those with a kubeconfig mount it, and an init container each
    prepares it. *)
Fixpoint mount_kubeconfigs (image : string) (inits cs : list Container)
    : list Container * list Container :=
  match cs with
  | [] => (inits, [])
  | c :: cs =>
      match kubeconfig_env c with
      | Some path =>
          let '(inits, cs) := mount_kubeconfigs image (inits ++ [init_container image]) cs in
          (inits, kubeconfig_mount c path :: cs)
      | None => let '(inits, cs) := mount_kubeconfigs image inits cs in (inits, c :: cs)
      end
  end.

Definition proxy_container (image secretName : string) : Container :=
  mkContainer "proxy" image ["sh"; "-c"; "kubectl proxy --disable-filter || true"] PullIfNotPresent
    [("KUBECONFIG", "/root/.kube/config")]
    (Some (mkSecurity (Some 0%Z) (Some 0%Z) (Some true)))
    [mkMount "admin-kubeconfig" "/root/.kube/config" "config" true;
     mkMount secretName "/var/run/secrets/kubernetes.io/serviceaccount" "" true].

Definition augmentPod (pod : Pod) (secret : Secret) (imageOverride : string) : Pod :=
  let secretName := m_Name (s_Meta secret) in
  let volumes := p_Volumes pod ++
    [mkVolume "admin-kubeconfig" (VConfigMap adminConfigName None);
     mkVolume "user-kubeconfig" VEmptyDir;
     mkVolume "user-kube-configmap" (VConfigMap userConfigName (Some 384%Z));   (* 0o600 *)
     mkVolume secretName (VSecret secretName (Some 420%Z))] in                  (* 0o644 *)
  let image := if bool_decide (imageOverride = "") then imageName else imageOverride in
  let '(inits, cs) := mount_kubeconfigs image (p_InitContainers pod) (p_Containers pod) in
  mkPod (p_Meta pod) "" (Some false) volumes inits (cs ++ [proxy_container image secretName]).

(** ** Config maps and secrets *)
Definition userKubeConfig (role : ClusterRole) (namespace : string) : answer ConfigMap :=
  cfgData ← Write (mkKubeconfig "http://127.0.0.1:8001" "" None);
  Ok (mkConfigMap (meta_named "" userConfigName namespace (ref role)) {["config" := cfgData]}).
Definition adminKubeConfig (user : UserInfo) (role : ClusterRole) (namespace : string)
    : answer ConfigMap :=
  cfgData ← Write (mkKubeconfig "https://kubernetes.default"
    "/run/secrets/kubernetes.io/serviceaccount/ca.crt"
    (Some (mkAuthInfo "/run/secrets/kubernetes.io/serviceaccount/token" (GetName user)
      (GetGroups user))));
  Ok (mkConfigMap (meta_named "" adminConfigName namespace (ref role)) {["config" := cfgData]}).

(** The objects are created in order, owned by the role; the names generated for them are noted. *)
Definition note_name (oldName newName : string) (names : gmap string string) : gmap string string :=
  if bool_decide (oldName = "") then names else <[oldName := newName]> names.
Fixpoint create_config_maps (role : ClusterRole) (cms : list ConfigMap) (names : gmap string string)
    : program (gmap string string) :=
  match cms with
  | [] => mret names
  | cm :: cms =>
      let meta := with_owners (cm_Meta cm) (ref role) in
      cm' ← call (CreateConfigMap (m_Namespace (cm_Meta cm)) (mkConfigMap meta (cm_Data cm)));
      create_config_maps role cms
        (note_name (m_GenerateName (cm_Meta cm)) (m_Name (cm_Meta cm')) names)
  end.
Fixpoint create_secrets (role : ClusterRole) (ss : list Secret) (names : gmap string string)
    : program (gmap string string) :=
  match ss with
  | [] => mret names
  | s :: ss =>
      let meta := with_owners (s_Meta s) (ref role) in
      s' ← call (CreateSecret (m_Namespace (s_Meta s)) (mkSecret meta (s_Type s) (s_Data s)));
      create_secrets role ss (note_name (m_GenerateName (s_Meta s)) (m_Name (s_Meta s')) names)
  end.

(** A volume of the old name gets the new one. *)
Definition rename_config_map (oldName newName : string) (v : Volume) : Volume :=
  match v_Source v with
  | VConfigMap name mode =>
      mkVolume (v_Name v) (VConfigMap (if bool_decide (name = oldName) then newName else name) mode)
  | _ => v
  end.
Definition rename_secret (oldName newName : string) (v : Volume) : Volume :=
  match v_Source v with
  | VSecret name mode =>
      mkVolume (v_Name v) (VSecret (if bool_decide (name = oldName) then newName else name) mode)
  | _ => v
  end.
Definition rename_volumes (rename : string → string → Volume → Volume) (names : gmap string string)
    (pod : Pod) : Pod :=
  with_volumes pod (foldl (λ vs '(oldName, newName), rename oldName newName <$> vs) (p_Volumes pod)
    (range_map names)).

Definition lift {A} (m : answer A) : program A := Ret m.

Definition createConfigMaps (user : UserInfo) (role : ClusterRole) (pod : Pod) (opts : PodOptions)
    : program Pod :=
  userConfig ← lift (userKubeConfig role (m_Namespace (p_Meta pod)));
  adminConfig ← lift (adminKubeConfig user role (m_Namespace (p_Meta pod)));
  names ← create_config_maps role (ConfigMapsToCreate opts ++ [userConfig; adminConfig]) ∅;
  mret (rename_volumes rename_config_map names pod).
Definition createSecrets (role : ClusterRole) (pod : Pod) (opts : PodOptions) : program Pod :=
  names ← create_secrets role (SecretsToCreate opts) ∅;
  mret (rename_volumes rename_secret names pod).

(** ** The token of the service account *)
Definition token_secret (role : ClusterRole) (sa : ServiceAccount) : Secret :=
  mkSecret (mkMeta (m_Name (sa_Meta sa) +:+ "-token") "" "" "" "" ∅
      {["kubernetes.io/service-account.name" := m_Name (sa_Meta sa)]} (ref role))
    SecretTypeServiceAccountToken ∅.
Definition has_token (s : Secret) : bool := bool_decide (is_Some (s_Data s !! ServiceAccountTokenKey)).

(** One round of the loop that waits for it: sleep, and read the secret. *)
Definition poll_token (namespace name : string) (_ : unit) : itree kubeE (unit + answer Secret) :=
  ITree.bind (ITree.trigger (Sleep 2)) (λ _,
  ITree.bind (ITree.trigger (GetSecret namespace name)) (λ s,
    match s with
    | Ok s => if has_token s then Ret (inr (Ok s)) else Ret (inl tt)
    | r => Ret (inr r)
    end)).
Definition wait_token (namespace name : string) (s : Secret) : program Secret :=
  if has_token s then mret s else ITree.iter (poll_token namespace name) tt.

(** ** Creating the pod *)
Definition labelled (role : ClusterRole) (token : string) (pod : Pod) : Pod :=
  with_meta pod (with_label (with_annotation (with_owners (p_Meta pod) (ref role)) roleLabel
    (m_Name (r_Meta role))) TokenLabel token).

Definition wait_ready (pod : Pod) : program Pod :=
  events ← call (WatchPods (m_Namespace (p_Meta pod)) (m_Name (p_Meta pod))
    (m_ResourceVersion (p_Meta pod)));
  match List.find IsReady (omap (λ p, p) (events : list (option Pod))) with
  | Some newPod => mret newPod
  | None => fail (EText ("failed to create pod: " +:+ m_Namespace (p_Meta pod) +:+ "/" +:+ m_Name (p_Meta pod)))
  end.

Definition createPod (user : UserInfo) (role : ClusterRole) (pod : Pod) (opts : PodOptions)
    : program Pod :=
  sa ← createServiceAccount role (m_Namespace (p_Meta pod));
  _ ← createRoleBinding role sa;
  let sc := token_secret role sa in
  tokenSecret ← call (CreateSecret (m_Namespace (sa_Meta sa)) sc);
  tokenSecret ← wait_token (m_Namespace (sa_Meta sa)) (m_Name (s_Meta sc)) tokenSecret;
  pod ← createConfigMaps user role (augmentPod pod tokenSecret (ImageOverride opts)) opts;
  pod ← createSecrets role pod opts;
  token ← call GenerateToken;
  pod ← call (CreatePodE (m_Namespace (p_Meta pod)) (labelled role token pod));
  (* the error is only logged *)
  ITree.bind (updateServiceAccount pod sa) (λ _, if Wait opts then wait_ready pod else Ret (Ok pod)).

(** The role is deleted when the pod cannot be created; the error of that is not looked at. *)
Definition CreatePod (user : UserInfo) (pod : Pod) (podOptions : option PodOptions) : program Pod :=
  match admin_error with
  | Some e => fail e
  | None =>
      let opts := default no_options podOptions in
      role ← createRole user (m_Namespace (p_Meta pod));
      ITree.bind (createPod user role pod opts) (λ pod,
        match pod with
        | Err e => ITree.bind (ITree.trigger (DeleteClusterRole (m_Name (r_Meta role)))) (λ _, fail e)
        | _ => Ret pod
        end)
  end.

Definition DeleteRole (pod : Pod) : program unit :=
  match admin_error with
  | Some e => fail e
  | None => call (DeleteClusterRole (default "" (m_Annotations (p_Meta pod) !! roleLabel)))
  end.

(** ** Old roles *)

(** What a handler of an event does with a role: nothing, delete it, or delete it later. *)
Inductive purge := PurgeNothing | PurgeNow (name : string) | PurgeAfter (wait : Z) (name : string).

(** [obj]: the metadata and the time of creation, [None] without metadata; [roleTimeout]: how long
    roles are kept. *)
Definition PurgeOldRoles (roleTimeout now : Z) (gvk : GroupVersionKind)
    (obj : option (ObjectMeta * Z)) (pending : gset string) : purge * gset string :=
  match obj with
  | None => (PurgeNothing, pending)
  | Some (meta, created) =>
      if bool_decide (Version gvk ≠ "v1" ∨ KubeTypes.Group gvk ≠ GroupName ∨ Kind gvk ≠ "ClusterRole")
      then (PurgeNothing, pending)
      else if bool_decide (default "" (m_Labels meta !! roleLabel) ≠ "true" ∧
                           default "" (m_Labels meta !! keyLabel) ≠ key)
      then (PurgeNothing, pending)
      else match admin_error with
      | Some _ => (PurgeNothing, pending)
      | None =>
          if bool_decide (created + roleTimeout < now)%Z then (PurgeNow (m_Name meta), pending)
          else if bool_decide (m_Name meta ∈ pending) then (PurgeNothing, pending)
          else (PurgeAfter (created + roleTimeout - now) (m_Name meta), {[m_Name meta]} ∪ pending)
      end
  end.

(** The end of a goroutine that waited: the role has been deleted. *)
Definition purged (name : string) (pending : gset string) : gset string := pending ∖ {[name]}.
End pods.

(** * Specification *)

(** A role of the cluster allows a verb on an object. *)
Definition role_allows (role : ClusterRole) (v : string) (g : GroupResource) (ns n : string) : Prop :=
  ∃ rule, rule ∈ r_Rules role ∧ rule_allows All rule v g ns n.

Definition is_service_account (user : UserInfo) : bool :=
  String.prefix "system:serviceaccount:" (GetName user).

(** A call before there is a role: for the namespace of the pod, or one that fails to create the role. *)
Definition before_role (key : string) (user : UserInfo) (namespace : string) (e : event kubeE) : Prop :=
  match e with
  | mkEvent (GetNamespace n) _ | mkEvent (CreateNamespace n) _ => n = namespace
  | mkEvent (CreateClusterRole role) r => role = role_of key user ∧ ∀ role, r ≠ Ok role
  | _ => False
  end.

(** The service accounts and the pods that Kubernetes has created. *)
Definition created_account (l : list (event kubeE)) (sa : ServiceAccount) : Prop :=
  ∃ ns sa0, mkEvent (CreateServiceAccount ns sa0) (Ok sa) ∈ l.
Definition created_pod (l : list (event kubeE)) (p : Pod) : Prop := ∃ ns p0, mkEvent (CreatePodE ns p0) (Ok p) ∈ l.

(** A call after it: what it creates is owned by the role, only the role is bound, and only to an account of
    [accounts]; an account that is updated is then owned by a pod of [pods]. *)
Definition owned_by (GroupName RBACVersion : string) (role : ClusterRole) (accounts : ServiceAccount → Prop)
    (pods : Pod → Prop) (e : event kubeE) : Prop :=
  let owners := [mkOwner RBACVersion "ClusterRole" (m_Name (r_Meta role)) (m_UID (r_Meta role))] in
  match e with
  | mkEvent (CreateClusterRoleBinding b) _ =>
      m_Owners (b_Meta b) = owners ∧ b_RoleAPIGroup b = GroupName ∧
      b_RoleRef b = mkRoleRef "ClusterRole" (m_Name (r_Meta role)) ∧
      ∃ sa, accounts sa ∧ b_Subjects b = [mkSubject "ServiceAccount" "" (m_Name (sa_Meta sa)) (m_Namespace (sa_Meta sa))]
  | mkEvent (CreateServiceAccount _ sa) _ => m_Owners (sa_Meta sa) = owners
  | mkEvent (UpdateServiceAccount _ sa) _ =>
      ∃ p, pods p ∧ m_Owners (sa_Meta sa) = [mkOwner "v1" "Pod" (m_Name (p_Meta p)) (m_UID (p_Meta p))]
  | mkEvent (CreateSecret _ s) _ => m_Owners (s_Meta s) = owners
  | mkEvent (CreateConfigMap _ cm) _ => m_Owners (cm_Meta cm) = owners
  | mkEvent (CreatePodE _ p) _ =>
      m_Owners (p_Meta p) = owners ∧
      m_Annotations (p_Meta p) !! roleLabel = Some (m_Name (r_Meta role)) ∧
      p_ServiceAccountName p = "" ∧ p_Automount p = Some false
  | mkEvent (GetNamespace _) _ | mkEvent (CreateNamespace _) _
  | mkEvent (CreateClusterRole _) _ | mkEvent (DeleteClusterRole _) _ => False
  | _ => True
  end.
(** A run after the role was created, in which only accounts and pods of the run itself are used. *)
Definition owned_run (GroupName RBACVersion : string) (role : ClusterRole) (l : list (event kubeE)) : Prop :=
  Forall (owned_by GroupName RBACVersion role (created_account l) (created_pod l)) l.

(** * Lemmas *)
Lemma rule_names_spec (names : list string) v n :
  (∃ name, name ∈ rule_names (mkRule v [""] [] names []) ∧ (name = All ∨ name = n)) ↔
  names = [] ∨ n ∈ names ∨ All ∈ names.
Proof.
  unfold rule_names. cbn. destruct names as [|a l].
  - split; [by left|]. intros _. exists All. split; [left|by left].
  - split; [|intros [?|[?|?]]; [done|by exists n; auto|by exists All; auto]].
    intros (name & Hn & [->| ->]); auto.
Qed.

(** A rule of one verb and one resource of the core group, bound to the whole cluster. *)
Lemma single_rule_allows r names v g ns n : r ≠ All →
  rule_allows All (mkRule ["impersonate"] [""] [r] names []) v g ns n ↔
  v = "impersonate" ∧ Group g = "" ∧ Resource g = r ∧ (names = [] ∨ n ∈ names ∨ All ∈ names).
Proof.
  intros Hr. rewrite <- (rule_names_spec names ["impersonate"] n). unfold rule_allows, rule_applies, key_applies.
  cbn. split.
  - intros (v' & group & resource & name & Hv' & Hgroup & Hresource & Hname & (Hv & Hg & Hres) &
      [(? & _)|(_ & _ & Hn)]); [done|].
    apply list_elem_of_singleton in Hv', Hgroup, Hresource. subst v' group resource. destruct Hv as [?|<-]; [done|]. destruct Hg as [?|<-]; [done|]. destruct Hres as [?|<-]; [done|].
    split_and!; [done..|]. by exists name.
  - intros (-> & Hg & Hres & name & Hname & Hn). exists "impersonate", "", r, name.
    split_and!; [by left..|done|by right|by right|by right|]. right.
    split_and!; [by intros (? & _)|by left|done].
Qed.

Section pod_lemmas.
Context `{MapRange}.
Context (IsNotFound : api_error → bool) (Write : kubeconfig → answer string) (IsReady : Pod → bool).
Context (GroupName RBACVersion SecretType TokenKey PullIfNotPresent key imageName : string).
Abbreviation owned := (owned_by GroupName RBACVersion).
Abbreviation none := (λ _, False).

Lemma owned_mono role (A A' : ServiceAccount → Prop) (B B' : Pod → Prop) l :
  (∀ sa, A sa → A' sa) → (∀ p, B p → B' p) → Forall (owned role A B) l → Forall (owned role A' B') l.
Proof.
  intros HA HB. apply Forall_impl. intros [X [] x]; cbn; try done; [|naive_solver].
  intros (? & ? & ? & sa & ? & ?). split_and!; [done..|]. eauto.
Qed.

(** A first part that uses no pod, before a run. *)
Lemma owned_after {A B} role accounts (R : A → Prop) (m : program A) (k : A → program B) l r :
  all (owned role accounts none) m → returns R m →
  (∀ a l r, R a → trace (k a) l r → Forall (owned role accounts (created_pod l)) l) →
  trace (m ≫= k) l r → Forall (owned role accounts (created_pod l)) l.
Proof.
  intros Hm HR Hk [[Hl _]|[(e & Hl & _)|[[Hl _]|(l1 & a & l2 & -> & Hl1 & Hl2)]]]%trace_prog_bind.
  1-3: by eapply owned_mono, Hm.
  apply list.Forall_app. split; [by eapply owned_mono, Hm|].
  eapply owned_mono, Hk; [done| |by eapply HR|done].
  intros p (ns & p0 & Hp). exists ns, p0. apply elem_of_app. by right.
Qed.
Lemma returns_any {A} (m : program A) : returns (λ _, True) m.
Proof. by intros ???. Qed.

Lemma all_lift (P : event kubeE → Prop) {A} (m : answer A) : all P (lift m).
Proof. apply all_ret. Qed.

Lemma create_config_maps_owned role accounts cms names :
  all (owned role accounts none) (create_config_maps RBACVersion role cms names).
Proof.
  revert names. induction cms as [|cm cms IH]; intros names; [apply all_ret|].
  apply all_prog_bind; [by apply all_trigger|]. intros cm'. apply IH.
Qed.
Lemma create_secrets_owned role accounts ss names : all (owned role accounts none) (create_secrets RBACVersion role ss names).
Proof.
  revert names. induction ss as [|s ss IH]; intros names; [apply all_ret|].
  apply all_prog_bind; [by apply all_trigger|]. intros s'. apply IH.
Qed.

Lemma wait_token_owned role accounts ns name s : all (owned role accounts none) (wait_token TokenKey ns name s).
Proof.
  unfold wait_token. case_match; [apply all_ret|]. apply all_iter. intros i.
  apply all_bind; [by apply all_trigger|]. intros _. apply all_bind; [by apply all_trigger|].
  intros [s'|e|]; [|apply all_ret..]. case_match; apply all_ret.
Qed.

Lemma updateServiceAccount_owned role accounts pod sa : all (owned role accounts (eq pod)) (updateServiceAccount pod sa).
Proof. apply all_prog_bind; [by apply all_trigger|]. intros sa'. apply all_trigger. intros x. by exists pod. Qed.

Lemma wait_ready_owned role accounts pods pod : all (owned role accounts pods) (wait_ready IsReady pod).
Proof. apply all_prog_bind; [by apply all_trigger|]. intros es. case_match; apply all_ret. Qed.

(** The pod does not get the token of a service account by itself. *)
Definition without_account (pod : Pod) : Prop :=
  p_ServiceAccountName pod = "" ∧ p_Automount pod = Some false.
Lemma augmentPod_account pod s image :
  without_account (augmentPod PullIfNotPresent key imageName pod s image).
Proof. unfold augmentPod. by destruct (mount_kubeconfigs _ _ _ _). Qed.

Lemma createConfigMaps_account user role pod opts : without_account pod →
  returns without_account (createConfigMaps Write RBACVersion key user role pod opts).
Proof.
  intros Hp. unfold createConfigMaps. do 3 (apply returns_bind; intros ?). by apply returns_ret.
Qed.
Lemma createSecrets_account role pod opts : without_account pod →
  returns without_account (createSecrets RBACVersion role pod opts).
Proof. intros Hp. apply returns_bind. intros names. by apply returns_ret. Qed.

Lemma createPod_owned user role pod opts l r :
  trace (createPod Write IsReady GroupName RBACVersion SecretType TokenKey PullIfNotPresent
    key imageName user role pod opts) l r → owned_run GroupName RBACVersion role l.
Proof.
  unfold createPod, owned_run.
  assert (∀ pods, all (owned role none pods) (createServiceAccount RBACVersion key role (m_Namespace (p_Meta pod)))) as Hsa.
  { intros pods. by apply all_trigger. }
  intros [[Hl _]|[(e & Hl & _)|[[Hl _]|(l1 & sa & l2 & -> & Hl1 & Hl2)]]]%trace_prog_bind.
  1-3: by eapply owned_mono, (Hsa none).
  apply trace_trigger in Hl1 as [[_ ?]|(sa' & -> & [?|[= <-]])]; [done..|]. cbn [app].
  constructor; [done|]. eapply (owned_mono role (eq sa) _ (created_pod l2)).
  { intros ? <-. eexists _, _. left. }
  { intros p (ns & p0 & Hp). exists ns, p0. by right. }
  revert Hl2. apply (owned_after _ _ (λ _, True)); [|apply returns_any|].
  { apply all_trigger. intros x. split_and!; [done..|]. by exists sa. }
  clear l2 r. intros _ l2 r _. apply (owned_after _ _ (λ _, True)); [by apply all_trigger|apply returns_any|].
  clear l2 r. intros secret l2 r _. apply (owned_after _ _ (λ _, True)); [apply wait_token_owned|apply returns_any|].
  clear l2 r. intros secret' l2 r _. apply (owned_after _ _ without_account).
  { do 2 (apply all_prog_bind; [apply all_lift|]; intros ?).
    apply all_prog_bind; [apply create_config_maps_owned|]. intros ?. apply all_ret. }
  { apply createConfigMaps_account, augmentPod_account. }
  clear l2 r. intros pod1 l2 r Hpod1. apply (owned_after _ _ without_account).
  { apply all_prog_bind; [apply create_secrets_owned|]. intros ?. apply all_ret. }
  { by apply createSecrets_account. }
  clear l2 r. intros pod2 l2 r Hpod2. apply (owned_after _ _ (λ _, True)); [by apply all_trigger|apply returns_any|].
  clear l2 r. intros token l2 r _.
  assert (∀ pods x, owned role (eq sa) pods
    (mkEvent (CreatePodE (m_Namespace (p_Meta pod2)) (labelled RBACVersion role token pod2)) x)) as Hpod.
  { intros pods x. cbn. rewrite lookup_insert_eq. by destruct Hpod2. }
  intros [[Hl _]|[(e & Hl & _)|[[Hl _]|(l1 & pod3 & l3 & -> & Hl1 & Hl2)]]]%trace_prog_bind.
  1-3: apply (owned_mono role (eq sa) _ none); [done..|];
    apply (all_trigger _ _ (CreatePodE _ _) (Hpod none)) in Hl; exact Hl.
  apply trace_trigger in Hl1 as [[_ ?]|(pod3' & -> & [?|[= <-]])]; [done..|]. cbn [app].
  constructor; [apply Hpod|]. eapply (owned_mono role (eq sa) _ (eq pod3)); [done| |].
  { intros ? <-. eexists _, _. left. }
  revert Hl2. apply all_bind; [apply updateServiceAccount_owned|]. intros _.
  destruct (Wait opts); [apply wait_ready_owned|apply all_ret].
Qed.

Lemma createRole_trace user ns l r :
  trace (createRole IsNotFound key user ns) l r →
  (Forall (before_role key user ns) l ∧ ∀ role, r ≠ Some (Ok role)) ∨
  ∃ l0 role, l = l0 ++ [mkEvent (CreateClusterRole (role_of key user)) (Ok role)] ∧
    Forall (before_role key user ns) l0 ∧ (r = None ∨ r = Some (Ok role)).
Proof.
  assert (Hns : all (before_role key user ns) (createNamespace IsNotFound ns)).
  { apply all_bind; [by apply all_trigger|]. intros [u|e|]; [apply all_ret| |apply all_ret].
    case_match; [by apply all_trigger|apply all_ret]. }
  unfold createRole. intros [[Hl ->]|[(e & Hl & [->| ->])|[[Hl [->| ->]]|
    (l1 & u & l2 & -> & Hl1 & Hl2)]]]%trace_prog_bind; try (left; split; [by eapply Hns|done]).
  apply Hns in Hl1. apply trace_trigger in Hl2 as [[-> ->]|(role & -> & Hr)].
  - left. by rewrite app_nil_r.
  - destruct role as [role|e|].
    + right. exists l1, role. split_and!; [done..|]. destruct Hr; auto.
    + left. split; [|naive_solver]. apply list.Forall_app. split; [done|]. by repeat constructor.
    + left. split; [|naive_solver]. apply list.Forall_app. split; [done|]. by repeat constructor.
Qed.
End pod_lemmas.

(** * Theorems *)

(** C11: The role made for a user allows exactly to impersonate: the user, or every service
    account when the user is a service account; and the groups of the user, or every group when
    the user has none. *)
Theorem role_allows_impersonation key user v g ns n :
  role_allows (role_of key user) v g ns n ↔
  v = "impersonate" ∧ Group g = "" ∧
  ((Resource g = "users" ∧ is_service_account user = false ∧ (n = GetName user ∨ GetName user = All)) ∨
   (Resource g = "serviceaccounts" ∧ is_service_account user = true) ∨
   (Resource g = "groups" ∧ (GetGroups user = [] ∨ n ∈ GetGroups user ∨ All ∈ GetGroups user))).
Proof.
  unfold role_allows, role_of, role_rules, user_rule. cbn [r_Rules]. fold (is_service_account user).
  setoid_rewrite elem_of_cons. setoid_rewrite list_elem_of_singleton. split.
  - intros (rule & [->| ->] & Hr).
    + destruct (is_service_account user); apply single_rule_allows in Hr as (? & ? & ? & Hn); try done.
      * split_and!; auto.
      * split_and!; [done..|]. left. split_and!; [done..|].
        destruct Hn as [?|[Hn%list_elem_of_singleton|Hn%list_elem_of_singleton]]; [done|by left|by right].
    + apply single_rule_allows in Hr as (? & ? & ? & Hn); [|done]. split_and!; auto.
  - intros (-> & Hg & [(Hr & Hs & Hn)|[[Hr Hs]|[Hr Hn]]]); rewrite ?Hs.
    + eexists. split; [by left|]. apply single_rule_allows; [done|]. split_and!; [done..|].
      right. rewrite !list_elem_of_singleton. destruct Hn; [by left|by right].
    + eexists. split; [by left|]. apply single_rule_allows; [done|]. split_and!; [done..|by left].
    + eexists. split; [by right|]. by apply single_rule_allows.
Qed.

(** C12: Whatever Kubernetes answers, and at every moment of a run: before the role is created
    [CreatePod] looks up and creates only the namespace of the pod, and a run without a role makes no pod; after it,
    the service account, the binding, the secrets, the config maps and the pod it creates are owned by the role, the role and
    no other is bound, to an account it has created, the account is given at most to the pod that was created, and the
    pod gets no token of a service account by itself; and when the pod cannot be created the last call deletes
    the role. A run that returns a pod has not deleted it. *)
Theorem CreatePod_owned `{MapRange} IsNotFound Write IsReady GroupName RBACVersion SecretType TokenKey
    PullIfNotPresent key imageName admin_error user pod podOptions l r :
  trace (CreatePod IsNotFound Write IsReady GroupName RBACVersion SecretType TokenKey PullIfNotPresent
    key imageName admin_error user pod podOptions) l r →
  let before := before_role key user (m_Namespace (p_Meta pod)) in
  (Forall before l ∧ ∀ p, r ≠ Some (Ok p)) ∨
  ∃ l0 role l1, l = l0 ++ mkEvent (CreateClusterRole (role_of key user)) (Ok role) :: l1 ∧
    Forall before l0 ∧
    ((owned_run GroupName RBACVersion role l1 ∧ ∀ e, r ≠ Some (Err e)) ∨
     ∃ l2 a e, l1 = l2 ++ [mkEvent (DeleteClusterRole (m_Name (r_Meta role))) a] ∧
       owned_run GroupName RBACVersion role l2 ∧ (r = None ∨ r = Some (Err e))).
Proof.
  intros Hl before. revert Hl. unfold CreatePod. destruct admin_error as [e|].
  { intros [-> Hr]%trace_Ret. left. split; [constructor|]. naive_solver. }
  intros [[Hl ->]|[(e & Hl & Hr)|[[Hl Hr]|(l1 & role & l2 & -> & Hl1 & Hl2)]]]%trace_prog_bind.
  - apply createRole_trace in Hl as [[Hl _]|(l0 & role & -> & Hl & _)]; [by left|].
    right. exists l0, role, []. split_and!; [done..|]. left. by split; [constructor|].
  - apply createRole_trace in Hl as [[Hl _]|(l0 & role & _ & _ & [?|?])]; [|done..].
    left. split; [done|]. naive_solver.
  - apply createRole_trace in Hl as [[Hl _]|(l0 & role & _ & _ & [?|?])]; [|done..].
    left. split; [done|]. naive_solver.
  - apply createRole_trace in Hl1 as [[_ Hne]|(l0 & role' & -> & Hl0 & [?|[= <-]])]; [by destruct (Hne role)|done|].
    right. exists l0, role, l2. rewrite <- app_assoc. split_and!; [done..|].
    apply trace_bind in Hl2 as [[Hl ->]|(l3 & res & l4 & -> & Hl3 & Hl4)].
    + left. split; [by eapply createPod_owned|done].
    + apply createPod_owned in Hl3. destruct res as [p|e|].
      * apply trace_Ret in Hl4 as [-> Hr]. rewrite app_nil_r. left. split; [done|]. naive_solver.
      * apply trace_bind in Hl4 as [[Hl ->]|(l5 & a & l6 & -> & Hl5 & Hl6)].
        -- apply trace_trigger in Hl as [[-> _]|(a & -> & _)].
           ++ left. rewrite app_nil_r. by split.
           ++ right. exists l3, a, e. split_and!; [done..|]. by left.
        -- apply trace_trigger in Hl5 as [[_ ?]|(a' & -> & _)]; [done|].
           apply trace_Ret in Hl6 as [-> Hr]. rewrite app_nil_r.
           right. exists l3, a', e. split_and!; [done..|]. destruct Hr; auto.
      * apply trace_Ret in Hl4 as [-> Hr]. rewrite app_nil_r. left. split; [done|]. naive_solver.
Qed.

(** As long as the secret has no token, the wait goes on: for every number of reads there is a
    run that has made them and has not ended. *)
Lemma wait_token_unbounded TokenKey namespace name (s : Secret) n :
  has_token TokenKey s = false →
  trace (wait_token TokenKey namespace name s)
    (Nat.iter n (λ l, mkEvent (Sleep 2) (Ok tt) :: mkEvent (GetSecret namespace name) (Ok s) :: l) []) None.
Proof.
  intros Hs. unfold wait_token. rewrite Hs. induction n as [|n IH]; [apply trace_now|]. cbn.
  eapply trace_vis.
  { rewrite observe_iter, observe_bind. unfold poll_token at 1. rewrite observe_bind. reflexivity. }
  eapply trace_vis.
  { rewrite !observe_bind. reflexivity. }
  eapply trace_tau; [|exact IH]. cbn [ITree.bind]. rewrite observe_bind. cbn. rewrite observe_bind.
  cbn. by rewrite Hs.
Qed.

(** A role is purged when it has the label of roles, whoever made it, or the key. *)
Lemma purge_any_role GroupName key roleTimeout now gvk meta created pending :
  Version gvk = "v1" → KubeTypes.Group gvk = GroupName → Kind gvk = "ClusterRole" →
  m_Labels meta !! roleLabel = Some "true" → (created + roleTimeout < now)%Z →
  PurgeOldRoles GroupName key None roleTimeout now gvk (Some (meta, created)) pending =
    (PurgeNow (m_Name meta), pending).
Proof.
  intros Hv Hg Hk Hl Ht. unfold PurgeOldRoles. rewrite Hl. cbn.
  rewrite bool_decide_eq_false_2 by tauto. rewrite bool_decide_eq_false_2 by tauto.
  by rewrite bool_decide_eq_true_2.
Qed.

(** * A shell for Alice *)
Module PodExample.
Import Concrete.
#[local] Existing Instance canonical_range.

Definition alice : UserInfo := mkUser "alice" ["devs"].
Definition pod : Pod := mkPod (meta_named "" "shell-" "shells" []) "" None [] []
  [mkContainer "shell" "" [] "" [("KUBECONFIG", "/home/shell/.kube/config")] None []].

(** The server names an object after its generated name and fills in the token at the second
    read; [refuse] makes it refuse the pod. *)
Definition named (m : ObjectMeta) : ObjectMeta :=
  mkMeta (if decide (m_Name m = "") then m_GenerateName m +:+ "x7" else m_Name m) (m_GenerateName m)
    (m_Namespace m) "uid" "1" (m_Labels m) (m_Annotations m) (m_Owners m).
Definition in_namespace (ns : string) (m : ObjectMeta) : ObjectMeta :=
  mkMeta (m_Name m) (m_GenerateName m) ns (m_UID m) (m_ResourceVersion m) (m_Labels m)
    (m_Annotations m) (m_Owners m).
Definition reads (l : list (event kubeE)) : nat :=
  length (List.filter (λ e, match e with mkEvent (GetSecret _ _) _ => true | _ => false end) l).
Definition server (refuse : bool) (X : Type) (e : kubeE X) (l : list (event kubeE)) : X :=
  match e in kubeE X return X with
  | GetNamespace _ => Err (EText "not found")
  | CreateNamespace _ | DeleteClusterRole _ | CreateClusterRoleBinding _
  | UpdateServiceAccount _ _ | Sleep _ => Ok tt
  | CreateClusterRole r => Ok (mkRole (named (r_Meta r)) (r_Rules r))
  | CreateServiceAccount ns sa => Ok (mkServiceAccount (named (in_namespace ns (sa_Meta sa))))
  | GetServiceAccount ns n => Ok (mkServiceAccount (meta_named n "" ns []))
  | CreateSecret ns s => Ok (mkSecret (named (in_namespace ns (s_Meta s))) (s_Type s) (s_Data s))
  | GetSecret ns n => Ok (mkSecret (meta_named n "" ns []) ""
      (if decide (0 < reads l) then {["token" := "t"]} else ∅))
  | CreateConfigMap ns cm => Ok (mkConfigMap (named (cm_Meta cm)) (cm_Data cm))
  | CreatePodE _ p => if refuse then Err (EText "forbidden") else Ok (with_meta p (named (p_Meta p)))
  | WatchPods _ _ _ => Ok []
  | GenerateToken => Ok "abc"
  end.

Definition create : program Pod :=
  CreatePod (λ _, true) (λ _, Ok "kubeconfig") (λ _, true) "rbac.authorization.k8s.io"
    "rbac.authorization.k8s.io/v1" "kubernetes.io/service-account-token" "token" "IfNotPresent" "shell"
    "rancher/shell" None alice pod None.
Definition run_of (refuse : bool) : list (event kubeE) * option (answer Pod) :=
  run (server refuse) 60 create [].

(** The pod mounts the config map of the administrator by the name the server gave it. *)
Example shell_created :
  (λ p, v_Source <$> p_Volumes p) <$> match (run_of false).2 with Some (Ok p) => Some p | _ => None end =
  Some [VConfigMap "impersonation-shell-admin-kubeconfig-x7" None; VEmptyDir;
        VConfigMap "impersonation-shell-user-kubeconfig-x7" (Some 384%Z);
        VSecret "pod-impersonation-shell-x7-token" (Some 420%Z)].
Proof. vm_compute. reflexivity. Qed.

(** When the server refuses the pod, the role is deleted at the end. *)
Lemma CreatePod_owned_witness :
  (run_of true).2 = Some (Err (EText "forbidden")) ∧
  ∃ role l2 a, list.last (run_of true).1 = Some (mkEvent (DeleteClusterRole (m_Name (r_Meta role))) a) ∧
    owned_run "rbac.authorization.k8s.io" "rbac.authorization.k8s.io/v1" role l2.
Proof.
  split; [vm_compute; reflexivity|].
  destruct (CreatePod_owned (λ _, true) (λ _, Ok "kubeconfig") (λ _, true) "rbac.authorization.k8s.io"
    "rbac.authorization.k8s.io/v1" "kubernetes.io/service-account-token" "token" "IfNotPresent" "shell"
    "rancher/shell" None alice pod None (run_of true).1 (run_of true).2) as
    [[Hl _]|(l0 & role & l1 & Hl & _ & [[_ Hr]|(l2 & a & e & -> & Ho & _)])].
  - apply (run_trace (server true) 60 create []).
  - exfalso. revert Hl. vm_compute. intros Hl.
    apply Forall_inv_tail, Forall_inv_tail, Forall_inv in Hl as [_ Hl]. by eapply Hl.
  - exfalso. apply (Hr (EText "forbidden")). vm_compute. reflexivity.
  - exists role, l2, a. split; [|exact Ho]. rewrite Hl.
    replace (l0 ++ mkEvent (CreateClusterRole (role_of "shell" alice)) (Ok role) ::
      l2 ++ [mkEvent (DeleteClusterRole (m_Name (r_Meta role))) a])
      with ((l0 ++ mkEvent (CreateClusterRole (role_of "shell" alice)) (Ok role) :: l2) ++
        [mkEvent (DeleteClusterRole (m_Name (r_Meta role))) a]) by (by rewrite <- app_assoc).
    apply last_snoc.
Defined.

(** Without groups, the role of a user allows to act as any group. *)
Example no_groups_any_group key :
  role_allows (role_of key (mkUser "bob" [])) "impersonate" (mkGR "" "groups") "" "system:masters".
Proof.
  exists (mkRule ["impersonate"] [""] ["groups"] [] []). split; [right; left|].
  apply single_rule_allows; [done|]. split_and!; [done..|by left].
Qed.
End PodExample.
