(* ===== verification/DbClient.v ===== *)
(** * The database client: pkg/sqlcache/db/client.go, pkg/sqlcache/db/encoding.go

    Objects are stored as bytes: an encoding (gob, JSON, either of them compressed) turns them
    into bytes, which may be encrypted ([Encryption]); reading a table gives them back. gob keeps
    state: its encoder writes the definition of a type only once, and its decoder must have read
    it before it can read a value of the type. Transactions are in [SqlStore]. *)
From S2P Require Import Prelude GoLib.
From S2P Require Encryption.

(** What an encoding promises: it has a state; what it encodes stays readable, however much is
    encoded and decoded in between. [plain]: the values it may be used for in a state. *)
Class Encoding (value : Type) := {
  enc_state : Type;
  enc_start : enc_state;
  Encode : value → enc_state → outcome string string * enc_state;
  Decode : string → enc_state → outcome string value * enc_state
}.
Class EncodingSpec (value : Type) `{Encoding value} := {
  enc_inv : enc_state → Prop;
  readable : enc_state → string → value → Prop;
  plain : enc_state → value → Prop;
  enc_start_inv : enc_inv enc_start;
  Encode_spec : ∀ st v, enc_inv st → plain st v →
    let '(r, st') := Encode v st in
    enc_inv st' ∧ (∀ b w, readable st b w → readable st' b w) ∧ (∀ b, r = Ok b → readable st' b v);
  Decode_spec : ∀ st b v, enc_inv st → readable st b v →
    let '(r, st') := Decode b st in
    r = Ok v ∧ enc_inv st' ∧ ∀ b w, readable st b w → readable st' b w
}.

(** ** gob: [gobEncoding] *)

(** encoding/gob: an encoder, a decoder, and reflect.TypeOf. *)
Class Gob (value : Type) := {
  gtype : Type; gtype_eq :: EqDecision gtype; gtype_countable :: Countable gtype;
  encoder : Type; decoder : Type; NewEncoder : encoder; NewDecoder : decoder;
  Encoder_Encode : value → encoder → outcome string string * encoder;
  Decoder_Decode : string → decoder → outcome string value * decoder;
  TypeOf : value → gtype
}.
(** A stream of gobs defines a type the first time it sends a value of it, the types of nested
    values included; a value can be decoded when its types have been defined, before or with it. *)
Class GobLaws (value : Type) `{Gob value} := {
  types : value → gset gtype; sent : encoder → gset gtype; known : decoder → gset gtype;
  defines : string → gset gtype;
  sent_new : sent NewEncoder = ∅;
  known_new : known NewDecoder = ∅;
  encode_types : ∀ v e b e', Encoder_Encode v e = (Ok b, e') →
    sent e' = sent e ∪ types v ∧ defines b = types v ∖ sent e;
  decode_value : ∀ v e b e' d, Encoder_Encode v e = (Ok b, e') →
    defines b ## known d → types v ⊆ known d ∪ defines b →
    ∃ d', Decoder_Decode b d = (Ok v, d') ∧ known d' = known d ∪ defines b;
  decode_unknown : ∀ v e b e' d, Encoder_Encode v e = (Ok b, e') →
    ¬ types v ⊆ known d ∪ defines b → is_ok (Decoder_Decode b d).1 = false
}.

Section gob.
Context {value : Type} `{Gob value}.

(** The buffers are empty between calls. *)
Record gobEncoding := mkGob {
  g_encoder : option encoder; g_decoder : option decoder; seenTypes : gset gtype }.
Definition with_encoder (e : encoder) (g : gobEncoding) : gobEncoding :=
  mkGob (Some e) (g_decoder g) (seenTypes g).

Definition gob_Decode (b : string) (g : gobEncoding) : outcome string value * gobEncoding :=
  let '(r, d) := Decoder_Decode b (default NewDecoder (g_decoder g)) in
  (r, mkGob (g_encoder g) (Some d) (seenTypes g)).

(** The bytes to write, which are those of [b] or of a second encoding. *)
Definition registerTypeIfNeeded (obj : value) (b : string) (e : encoder) (g : gobEncoding)
    : outcome string string * gobEncoding :=
  if bool_decide (TypeOf obj ∈ seenTypes g) then (Ok b, g)
  else
    let g := mkGob (g_encoder g) (g_decoder g) ({[TypeOf obj]} ∪ seenTypes g) in
    let '(r, g) := gob_Decode b g in
    match r with
    | Ok _ => let '(r, e) := Encoder_Encode obj e in (r, with_encoder e g)
    | Err err => (Err ("could not decode: " +:+ err), g)
    | Panic => (Panic, g)
    end.

Definition gob_Encode (obj : value) (g : gobEncoding) : outcome string string * gobEncoding :=
  let '(r, e) := Encoder_Encode obj (default NewEncoder (g_encoder g)) in
  let g := with_encoder e g in
  match r with
  | Ok b => registerTypeIfNeeded obj b e g
  | Err err => (Err err, g)
  | Panic => (Panic, g)
  end.

#[export] Instance gob_encoding : Encoding value := {|
  enc_state := gobEncoding; enc_start := mkGob None None ∅; Encode := gob_Encode; Decode := gob_Decode |}.
End gob.
Arguments gobEncoding value {_}.

(** ** JSON: [jsonEncoding] *)
(** encoding/json: the bytes of a value, and the value of the first document of the bytes. *)
Class JSONCodec (value : Type) := {
  json_Encode : value → outcome string string;
  json_Decode : string → outcome string value
}.
Definition json_encoding {value} `{JSONCodec value} : Encoding value := {|
  enc_state := unit; enc_start := tt;
  Encode v st := (json_Encode v, st);
  Decode b st := (json_Decode b, st)
|}.

(** ** Compression: [gzipEncoding] *)
(** compress/gzip: what a writer that is closed has written, and what a reader reads to its end. *)
Class Gzip := { gzip : string → outcome string string; gunzip : string → outcome string string }.
Definition gzip_encoding {value} (E : Encoding value) `{Gzip} : Encoding value := {|
  enc_state := enc_state; enc_start := enc_start;
  Encode v st := let '(r, st) := Encode v st in (r ≫= gzip, st);
  Decode b st := match gunzip b with
    | Ok b => Decode b st
    | Err e => (Err e, st)
    | Panic => (Panic, st)
    end
|}.

(** The encodings of [WithEncoding]. *)
Inductive encoding_name := GobEncoding | JSONEncoding | GzippedGobEncoding | GzippedJSONEncoding.
Definition WithEncoding {value} `{Gob value, JSONCodec value, Gzip} (n : encoding_name) : Encoding value :=
  match n with
  | GobEncoding => gob_encoding
  | JSONEncoding => json_encoding
  | GzippedGobEncoding => gzip_encoding gob_encoding
  | GzippedJSONEncoding => gzip_encoding json_encoding
  end.

(** ** Serialized objects: client.go *)
Inductive error := ECodec (text : string) | ECrypt (e : Encryption.crypt_error) | EText (text : string).

Record SerializedObject := mkSerialized { Bytes : string; Nonce : string; KeyID : Z }.
Definition encrypted (s : SerializedObject) : bool := bool_decide (Nonce s ≠ "").

Section client.
Context {value : Type} {E : Encoding value} `{Encryption.GCM}.

(** The manager of keys, with whether the client has it as encryptor and as decryptor, and the
    state of the encoding. *)
Record client := mkClient {
  c_encryptor : bool; c_decryptor : bool; c_manager : Encryption.Manager; c_encoding : enc_state }.
Definition with_encoding (st : enc_state) (c : client) : client :=
  mkClient (c_encryptor c) (c_decryptor c) (c_manager c) st.

Definition codec {A} (m : outcome string A) : outcome error A :=
  match m with Ok a => Ok a | Err e => Err (ECodec e) | Panic => Panic end.
Definition crypt {A} (m : outcome Encryption.crypt_error A) : outcome error A :=
  match m with Ok a => Ok a | Err e => Err (ECrypt e) | Panic => Panic end.

(** [keyRand], [nonceRand]: the random bytes the encryption may draw. *)
Definition Serialize (obj : value) (encrypt : bool) (keyRand nonceRand : Encryption.random) (c : client)
    : outcome error SerializedObject * client :=
  let '(r, st) := Encode obj (c_encoding c) in
  let c := with_encoding st c in
  match codec r with
  | Ok b =>
      if negb encrypt then (Ok (mkSerialized b "" 0), c)
      else if negb (c_encryptor c) then
        (Err (EText "cannot encrypt object object without encryptor"), c)
      else
        let '(r, m) := Encryption.Encrypt keyRand nonceRand b (c_manager c) in
        (crypt r ≫= (λ '(data, nonce, kid), Ok (mkSerialized data nonce kid)),
         mkClient (c_encryptor c) (c_decryptor c) m (c_encoding c))
  | Err e => (Err e, c)
  | Panic => (Panic, c)
  end.

(** The check looks at the encryptor; a client without decryptor panics. *)
Definition Deserialize (serialized : SerializedObject) (c : client) : outcome error value * client :=
  if negb (encrypted serialized) then
    let '(r, st) := Decode (Bytes serialized) (c_encoding c) in (codec r, with_encoding st c)
  else if negb (c_encryptor c) then
    (Err (EText "cannot deserialize encrypted object without decryptor"), c)
  else if negb (c_decryptor c) then (Panic, c)
  else
    match crypt (Encryption.Decrypt (Bytes serialized) (Nonce serialized) (KeyID serialized) (c_manager c)) with
    | Ok data => let '(r, st) := Decode data (c_encoding c) in (codec r, with_encoding st c)
    | Err e => (Err e, c)
    | Panic => (Panic, c)
    end.
End client.

(** ** Rows

    [sql.Rows]: what scanning each row gives, the error after the last one, and what closing
    gives; [closed] counts how often they are closed. *)
Record Rows (A : Type) := mkRows {
  r_rows : list (outcome string A); r_Err : option string; r_Close : option string; r_closed : nat }.
Arguments mkRows {A}.
Arguments r_rows {A}.
Arguments r_Err {A}.
Arguments r_Close {A}.
Arguments r_closed {A}.

Section rows.
Context {A B : Type}.
Definition Close (rows : Rows A) : option string * Rows A :=
  (r_Close rows, mkRows (r_rows rows) (r_Err rows) (r_Close rows) (S (r_closed rows))).

Definition closeRowsOnError (rows : Rows A) (err : string) : string * Rows A :=
  let '(ce, rows) := Close rows in
  (match ce with
   | Some ce => "error in closing rows while handling " +:+ err +:+ ": " +:+ ce
   | None => err
   end, rows).

(** The end of every reader: the error of the rows, and closing them. *)
Definition finish_rows (rows : Rows A) (result : B) : outcome string B * Rows A :=
  match r_Err rows with
  | Some err => let '(err, rows) := closeRowsOnError rows err in (Err err, rows)
  | None =>
      let '(err, rows) := Close rows in
      (match err with Some err => Err err | None => Ok result end, rows)
  end.
Definition fail_rows (rows : Rows A) (err : string) : outcome string B * Rows A :=
  let '(err, rows) := closeRowsOnError rows err in (Err err, rows).
End rows.

(** [ReadStrings] and [ReadStrings2] have this loop, for one string and for two. *)
Fixpoint read_rows {A} (l : list (outcome string A)) (result : list A) (rows : Rows A)
    : outcome string (list A) * Rows A :=
  match l with
  | [] => finish_rows rows result
  | Ok a :: l => read_rows l (result ++ [a]) rows
  | Err err :: _ => fail_rows rows err
  | Panic :: _ => (Panic, rows)
  end.
Definition ReadStrings (rows : Rows string) : outcome string (list string) * Rows string :=
  read_rows (r_rows rows) [] rows.
Definition ReadStrings2 (rows : Rows (string * string)) : outcome string (list (string * string)) * Rows (string * string) :=
  read_rows (r_rows rows) [] rows.

(** [sql.ErrNoRows] when there is no row. *)
Definition ReadInt (rows : Rows Z) : outcome string Z * Rows Z :=
  match r_rows rows with
  | [] => fail_rows rows "sql: no rows in result set"
  | Ok z :: _ => finish_rows rows z
  | Err err :: _ => fail_rows rows err
  | Panic :: _ => (Panic, rows)
  end.

Section read_objects.
Context {value : Type} {E : Encoding value} `{Encryption.GCM}.
(* the text of an error *)
Context (error_text : error → string).
Fixpoint read_objects (l : list (outcome string SerializedObject)) (result : list value)
    (rows : Rows SerializedObject) (c : client)
    : outcome string (list value) * Rows SerializedObject * client :=
  match l with
  | [] => (finish_rows rows result, c)
  | Ok row :: l =>
      let '(r, c) := Deserialize row c in
      match r with
      | Ok dest => read_objects l (result ++ [dest]) rows c
      | Err err => (fail_rows rows (error_text err), c)
      | Panic => (Panic, rows, c)
      end
  | Err err :: _ => (fail_rows rows err, c)
  | Panic :: _ => (Panic, rows, c)
  end.
Definition ReadObjects (rows : Rows SerializedObject) (c : client)
    : outcome string (list value) * Rows SerializedObject * client :=
  read_objects (r_rows rows) [] rows c.
End read_objects.

(** * The encodings keep their promise *)
Section gob_spec.
Context {value : Type} `{GobLaws value}.

Definition g_sent (g : gobEncoding value) : gset gtype := sent (default NewEncoder (g_encoder g)).
Definition g_known (g : gobEncoding value) : gset gtype := known (default NewDecoder (g_decoder g)).

(** Between calls the decoder knows what the encoder has sent. *)
Definition gob_inv (g : gobEncoding value) : Prop := g_sent g = g_known g.
(** Bytes that define nothing, of a value whose types the decoder knows. *)
Definition gob_readable (g : gobEncoding value) (b : string) (v : value) : Prop :=
  (∃ e e', Encoder_Encode v e = (Ok b, e')) ∧ defines b = ∅ ∧ types v ⊆ g_known g.
(** gob can encode the value, and if its type was seen before, its nested types were too. *)
Definition gob_plain (g : gobEncoding value) (v : value) : Prop :=
  (∀ e, ∃ b e', Encoder_Encode v e = (Ok b, e')) ∧ (TypeOf v ∈ seenTypes g → types v ⊆ g_sent g).

Lemma gob_Decode_readable g b v : gob_readable g b v →
  ∃ g', gob_Decode b g = (Ok v, g') ∧ g_known g' = g_known g ∧ g_encoder g' = g_encoder g ∧ seenTypes g' = seenTypes g.
Proof.
  intros [(e & e' & He) [Hd Ht]]. unfold gob_Decode.
  destruct (decode_value _ _ _ _ (default NewDecoder (g_decoder g)) He) as (d & Hr & Hk).
  - rewrite Hd. set_solver.
  - unfold g_known in Ht. set_solver.
  - rewrite Hr. eexists. split; [done|]. unfold g_known at 1. cbn. rewrite Hk, Hd. split; [|done].
    unfold g_known. set_solver.
Qed.

(** After an encoding the encoder has sent, and the decoder knows, the types of the value, and the
    bytes define nothing. *)
Lemma gob_Encode_plain g v : gob_inv g → gob_plain g v →
  ∃ b g', gob_Encode v g = (Ok b, g') ∧ gob_inv g' ∧ g_known g ⊆ g_known g' ∧ gob_readable g' b v.
Proof.
  intros Hi [Hok Hseen]. unfold gob_inv, g_sent in Hi. unfold gob_Encode, registerTypeIfNeeded.
  destruct (Hok (default NewEncoder (g_encoder g))) as (b & e & He). rewrite He.
  destruct (encode_types _ _ _ _ He) as [Hs Hd]. cbn [seenTypes with_encoder].
  case_bool_decide as Ht.
  - specialize (Hseen Ht). unfold g_sent in Hseen. eexists _, _. split; [done|].
    assert (Hsent : sent e = g_known g) by (rewrite <- Hi; set_solver).
    split; [exact Hsent|]. split; [done|]. split; [by eauto|]. split; [set_solver|].
    change (g_known (with_encoder e g)) with (g_known g). rewrite <- Hi. exact Hseen.
  - unfold gob_Decode. cbn [g_decoder g_encoder seenTypes with_encoder].
    destruct (decode_value _ _ _ _ (default NewDecoder (g_decoder g)) He) as (d & Hr & Hk).
    { unfold g_known in Hi. rewrite Hd, <- Hi. set_solver. }
    { unfold g_known in Hi. rewrite Hd, <- Hi. intros x Hx. destruct (decide (x ∈ sent (default NewEncoder (g_encoder g)))); set_solver. }
    rewrite Hr. destruct (Hok e) as (b2 & e2 & He2). rewrite He2.
    destruct (encode_types _ _ _ _ He2) as [Hs2 Hd2]. eexists _, _. split; [done|].
    assert (Hknown : known d = g_known g ∪ types v).
    { rewrite Hk, Hd, Hi. unfold g_known. apply leibniz_equiv. intros x.
      destruct (decide (x ∈ known (default NewDecoder (g_decoder g)))); set_solver. }
    unfold gob_inv, gob_readable, g_sent, g_known. cbn. rewrite Hs2, Hs, Hi, Hknown. unfold g_known.
    split_and!; [set_solver|set_solver|by eauto|set_solver|set_solver].
Qed.

#[export] Instance gob_spec : EncodingSpec value (H := gob_encoding).
Proof.
  refine {| enc_inv := (gob_inv : enc_state → Prop); readable := gob_readable : enc_state → _; plain := gob_plain : enc_state → _ |}.
  - unfold gob_inv, g_sent, g_known. cbn. by rewrite sent_new, known_new.
  - intros g v Hi Hp. destruct (gob_Encode_plain g v Hi Hp) as (b & g' & He & Hi' & Hk & Hr).
    change (Encode v g) with (gob_Encode v g). rewrite He. split; [done|]. split; [|by intros ? [= <-]].
    intros b' w (? & ? & ?). split; [done|]. split; [done|]. set_solver.
  - intros g b v Hi Hr. destruct (gob_Decode_readable g b v Hr) as (g' & Hd & Hk & He & Hs).
    change (Decode b g) with (gob_Decode b g). rewrite Hd. split; [done|]. split.
    + unfold gob_inv, g_sent in *. by rewrite He, Hk.
    + intros b' w (? & ? & ?). split; [done|]. split; [done|]. by rewrite Hk.
Defined.
End gob_spec.

(** JSON reads what it wrote, of the values for which it does. *)
Definition json_spec {value} `{JSONCodec value} : EncodingSpec value (H := json_encoding).
Proof.
  refine (@Build_EncodingSpec value json_encoding (λ _, True) (λ _ b v, json_Decode b = Ok v)
    (λ _ v, ∀ b, json_Encode v = Ok b → json_Decode b = Ok v) I _ _).
  - intros st v _ Hp. done.
  - intros st b v _ Hr. done.
Defined.

(** Compression keeps the promise of the encoding under it. *)
Definition gzip_spec {value} (E : Encoding value) (ES : EncodingSpec value) `{Gzip}
    (gunzip_gzip : ∀ b c, gzip b = Ok c → gunzip c = Ok b) : EncodingSpec value (H := gzip_encoding E).
Proof.
  refine (@Build_EncodingSpec value (gzip_encoding E) (@enc_inv value E ES)
    (λ (st : @enc_state value E) c v, ∃ b, gunzip c = Ok b ∧ @readable value E ES st b v)
    (@plain value E ES) (@enc_start_inv value E ES) _ _).
  - intros st v Hi Hp. pose proof (@Encode_spec value E ES st v Hi Hp) as Hs.
    change (Encode v st) with (let '(r, st) := Encode (Encoding := E) v st in (r ≫= gzip, st)).
    destruct (Encode (Encoding := E) v st) as [r st']. destruct Hs as (Hi' & Hmono & Hr).
    split; [done|]. split; [intros c w (b & Hb & Hw); eauto|].
    intros c Hc. destruct r as [b| |]; [|done..]. exists b. eauto.
  - intros st c v Hi (b & Hb & Hr). pose proof (@Decode_spec value E ES st b v Hi Hr) as Hs.
    change (Decode c st) with (match gunzip c with Ok b => Decode (Encoding := E) b st
      | Err e => (Err e, st) | Panic => (Panic, st) end). rewrite Hb.
    destruct (Decode (Encoding := E) b st) as [r st']. destruct Hs as (-> & Hi' & Hmono).
    split; [done|]. split; [done|]. intros c' w (b' & Hb' & Hw). eauto.
Defined.

(** * Histories of a client *)
Section history.
Context {value : Type} {E : Encoding value} {ES : EncodingSpec value} `{Encryption.GCMLaws}.

(** Objects are serialized, and the ones that have been are deserialized, in any order. *)
Inductive op :=
  | OSerialize (v : value) (encrypt : bool) (keyRand nonceRand : Encryption.random)
  | ODeserialize (k : nat).
Abbreviation state := (client (E := E) * list (SerializedObject * value))%type.

Definition run_op (s : state) (o : op) : state :=
  match o with
  | OSerialize v encrypt keyRand nonceRand =>
      let '(r, c) := Serialize v encrypt keyRand nonceRand s.1 in
      (c, match r with Ok o => s.2 ++ [(o, v)] | _ => s.2 end)
  | ODeserialize k =>
      match s.2 !! k with Some (o, _) => ((Deserialize o s.1).2, s.2) | None => s end
  end.
(** A client as [NewCacheFactory] makes it: one manager encrypts and decrypts. *)
Definition new_client (first : Encryption.random) : state :=
  (mkClient true true (Encryption.NewManager first) enc_start, []).
(** The encoding is used for values it is made for, and a nonce is never empty. *)
Fixpoint plain_ops (s : state) (ops : list op) : Prop :=
  match ops with
  | [] => True
  | o :: ops => match o with
      | OSerialize v _ _ nonceRand => plain (c_encoding s.1) v ∧ nonceRand ≠ Ok ""
      | ODeserialize _ => True
      end ∧ plain_ops (run_op s o) ops
  end.

Definition object_ok (c : client (E := E)) (o : SerializedObject) (v : value) : Prop :=
  if encrypted o
  then ∃ data, Encryption.Decrypt (Bytes o) (Nonce o) (KeyID o) (c_manager c) = Ok data ∧
         readable (c_encoding c) data v
  else readable (c_encoding c) (Bytes o) v.

Record client_ok (first : Encryption.random) (n : nat) (s : state) : Prop := {
  ok_crypt : c_encryptor s.1 = true ∧ c_decryptor s.1 = true;
  ok_encoding : enc_inv (c_encoding s.1);
  ok_manager : ∃ cs, c_manager s.1 = Encryption.run (Encryption.NewManager first) cs ∧ length cs ≤ n;
  ok_objects : ∀ o v, (o, v) ∈ s.2 → object_ok s.1 o v
}.

Lemma Deserialize_ok first n s o v : client_ok first n s → object_ok s.1 o v →
  (Deserialize o s.1).1 = Ok v ∧ client_ok first n ((Deserialize o s.1).2, s.2).
Proof.
  destruct s as [c objs]. intros [[He Hd] Hi Hm Hobjs] Ho. cbn in *. unfold object_ok in Ho. unfold Deserialize.
  assert (Hdec : ∀ b, readable (c_encoding c) b v →
    let '(r, st) := Decode b (c_encoding c) in
    codec r = Ok v ∧ client_ok first n (with_encoding st c, objs)).
  { intros b Hb. pose proof (Decode_spec _ _ _ Hi Hb) as Hs. destruct (Decode b (c_encoding c)) as [r st].
    destruct Hs as (-> & Hi' & Hmono). split; [done|]. split; [done|done|done|].
    intros o' w Hw%Hobjs. unfold object_ok in *. cbn. destruct (encrypted o'); [|auto].
    destruct Hw as (data & ? & ?). eauto. }
  destruct (encrypted o); cbn [negb].
  - rewrite He, Hd. cbn [negb]. destruct Ho as (data & -> & Hb). cbn. specialize (Hdec _ Hb).
    by destruct (Decode data (c_encoding c)).
  - specialize (Hdec _ Ho). by destruct (Decode (Bytes o) (c_encoding c)).
Qed.

Lemma Serialize_ok first n s v encrypt keyRand nonceRand : (Z.of_nat (S n) ≤ 2 ^ 62)%Z →
  client_ok first n s → plain (c_encoding s.1) v → nonceRand ≠ Ok "" →
  client_ok first (S n) (run_op s (OSerialize v encrypt keyRand nonceRand)).
Proof.
  destruct s as [c objs]. intros Hn [[He Hd] Hi (cs & Hm & Hcs) Hobjs] Hp Hnonce. cbn in *. unfold Serialize.
  pose proof (Encode_spec _ _ Hi Hp) as Hs. destruct (Encode v (c_encoding c)) as [r st].
  destruct Hs as (Hi' & Hmono & Hr).
  assert (Hold : ∀ m', (∃ more, Encryption.dataKeys m' = Encryption.dataKeys (c_manager c) ++ more) →
    ∀ o w, (o, w) ∈ objs → object_ok (mkClient (c_encryptor c) (c_decryptor c) m' st) o w).
  { intros m' [more Hmore] o w Hw%Hobjs. unfold object_ok in *. cbn in *. destruct (encrypted o); [|auto].
    destruct Hw as (data & Hdec & ?). exists data. split; [|auto]. by eapply Encryption.Decrypt_more_keys. }
  assert (Hsame : ∀ o w, (o, w) ∈ objs → object_ok (with_encoding st c) o w).
  { apply Hold. exists []. by rewrite app_nil_r. }
  assert (Hm' : ∃ cs, c_manager c = Encryption.run (Encryption.NewManager first) cs ∧ length cs ≤ S n) by eauto.
  destruct r as [b|e|]; cbn [codec]; [|by split..].
  destruct encrypt; cbn [negb c_encryptor with_encoding].
  - rewrite He. cbn [negb c_manager c_decryptor c_encoding with_encoding].
    destruct (Encryption.Encrypt keyRand nonceRand b (c_manager c)) as [r m'] eqn:Henc.
    assert (Hm2 : m' = Encryption.run (Encryption.NewManager first) (cs ++ [(keyRand, nonceRand, b)])).
    { unfold Encryption.run in *. rewrite foldl_app, <- Hm. cbn. by rewrite Henc. }
    assert (Hlen : length (cs ++ [(keyRand, nonceRand, b)]) ≤ S n) by (rewrite length_app; cbn; lia).
    assert (Hkeys : ∃ more, Encryption.dataKeys m' = Encryption.dataKeys (c_manager c) ++ more).
    { destruct (Encryption.run_keys (c_manager c) [(keyRand, nonceRand, b)]) as [more Hmore].
      exists more. cbn in Hmore. by rewrite Henc in Hmore. }
    split; cbn; [done|done|by exists (cs ++ [(keyRand, nonceRand, b)])|]. intros o w Hw.
    destruct r as [[[data nonce] kid]|e|]; cbn in Hw; [|by apply Hold..].
    apply elem_of_app in Hw as [Hw|[= -> ->]%list_elem_of_singleton]; [by apply Hold|].
    destruct (Encryption.Encrypt_Decrypt keyRand nonceRand b (c_manager c) m' data nonce kid) as [Hdec ->]; [|done|].
    { pose proof (Encryption.manager_keys first (cs ++ [(keyRand, nonceRand, b)]) ltac:(lia)). rewrite Hm2. lia. }
    unfold object_ok, encrypted. cbn. rewrite bool_decide_eq_true_2 by (intros ->; done). eauto.
  - split; cbn; [done|done|done|]. intros o w [Hw|[= -> ->]%list_elem_of_singleton]%elem_of_app; [by apply Hsame|].
    unfold object_ok, encrypted. cbn. rewrite bool_decide_eq_false_2 by (by intros ?). auto.
Qed.

Lemma run_ops_ok first ops n s : (Z.of_nat (n + length ops) ≤ 2 ^ 62)%Z →
  client_ok first n s → plain_ops s ops → ∃ n', client_ok first n' (foldl run_op s ops).
Proof.
  revert n s. induction ops as [|o ops IH]; intros n s Hn Hs Hp; [by exists n|].
  destruct Hp as [Ho Hops]. cbn [length foldl] in *. apply (IH (S n)); [lia| |done].
  destruct o as [v encrypt keyRand nonceRand|k].
  - destruct Ho. apply Serialize_ok; [lia|done..].
  - assert (Hk : client_ok first n (run_op s (ODeserialize k))).
    { cbn. destruct (s.2 !! k) as [[o v]|] eqn:Ho'; [|done].
      apply (Deserialize_ok first n s o v Hs). apply Hs. by eapply list_elem_of_lookup_2. }
    destruct Hk as [? ? (cs & ? & ?) ?]. split; [done|done| |done]. exists cs. split; [done|lia].
Qed.

(** Whatever was serialized is read back, with every encoding that keeps its promise. *)
Lemma objects_stay_readable first ops : (Z.of_nat (length ops) ≤ 2 ^ 62)%Z → plain_ops (new_client first) ops →
  let '(c, objs) := foldl run_op (new_client first) ops in
  ∀ o v, (o, v) ∈ objs → (Deserialize o c).1 = Ok v.
Proof.
  intros Hn Hp. destruct (run_ops_ok first ops 0 (new_client first)) as [n Hok]; [done| |done|].
  - split; cbn; [done|apply enc_start_inv|by exists []|]. intros o v Ho. by apply not_elem_of_nil in Ho.
  - destruct (foldl run_op (new_client first) ops) as [c objs]. intros o v Ho.
    apply (Deserialize_ok first n (c, objs) o v Hok). by apply Hok.
Qed.
End history.
Arguments op value : clear implicits.

(** ** Rows *)
(** The first error of the rows, or all of them. *)
Fixpoint all_rows {A} (l : list (outcome string A)) : outcome string (list A) :=
  match l with
  | [] => Ok []
  | Ok a :: l => l ← all_rows l; Ok (a :: l)
  | Err e :: _ => Err e
  | Panic :: _ => Panic
  end.
Lemma read_rows_spec {A} l (result : list A) rows :
  ∃ r closed, read_rows l result rows = (r, mkRows (r_rows rows) (r_Err rows) (r_Close rows) closed) ∧
    (r ≠ Panic → closed = S (r_closed rows)) ∧
    match all_rows l, r_Err rows, r_Close rows with
    | Ok l, None, None => r = Ok (result ++ l)
    | Panic, _, _ => r = Panic
    | _, _, _ => ∃ e, r = Err e
    end.
Proof.
  revert result. induction l as [|[a|e|] l IH]; intros result; cbn.
  - unfold finish_rows, closeRowsOnError, Close. destruct (r_Err rows) as [e|], (r_Close rows) as [ce|];
      eexists _, _; (split; [done|split; [done|]]); eauto. by rewrite app_nil_r.
  - destruct (IH (result ++ [a])) as (r & closed & Hread & Hc & Hr). exists r, closed. split; [done|]. split; [done|].
    destruct (all_rows l); cbn; [|done..]. rewrite <- app_assoc in Hr. exact Hr.
  - unfold fail_rows, closeRowsOnError, Close. destruct (r_Close rows); eexists _, _; (split; [done|split; [done|]]); eauto.
  - exists Panic, (r_closed rows). split; [by destruct rows|done].
Qed.

(** * Theorems *)

(** C40: A client that stores objects with gob reads back every object it has serialized, encrypted or not, at any later time
    and any number of times, whatever it serializes and deserializes in between and however often the key changes; as long as gob
    encodes every object that is serialized, no object whose type was seen before has a nested value of a type that was not, and
    nonces are not empty. *)
Theorem stored_objects_readable {value} `{GobLaws value, Encryption.GCMLaws} first (ops : list (op value)) :
  (Z.of_nat (length ops) ≤ 2 ^ 62)%Z →
  plain_ops (E := gob_encoding) (new_client first) ops →
  let '(c, objs) := foldl (run_op (E := gob_encoding)) (new_client first) ops in
  ∀ o v, (o, v) ∈ objs → (Deserialize o c).1 = Ok v.
Proof. apply objects_stay_readable. Qed.

(** An object of a type seen before with a nested value of a new type carries the definition of
    that type; those encoded after it do not, and cannot be read before it is. *)
Lemma late_type_unreadable {value} `{GobLaws value} g v w b b' g1 g2 :
  TypeOf v ∈ seenTypes g → TypeOf w ∈ seenTypes g →
  gob_Encode v g = (Ok b, g1) → gob_Encode w g1 = (Ok b', g2) →
  types w ⊆ g_sent g ∪ types v → ¬ types w ⊆ g_known g →
  is_ok (gob_Decode b' g2).1 = false.
Proof.
  intros Hv Hw He1 He2 Hs Hk. unfold gob_Encode, registerTypeIfNeeded in *.
  destruct (Encoder_Encode v (default NewEncoder (g_encoder g))) as [[c| |] e1] eqn:E1; [|done..].
  cbn [seenTypes with_encoder] in He1. rewrite bool_decide_eq_true_2 in He1 by done. injection He1 as -> <-.
  cbn [g_encoder with_encoder default from_option] in He2. unfold id in He2.
  destruct (Encoder_Encode w e1) as [[c| |] e2] eqn:E2; [|done..].
  cbn [seenTypes with_encoder] in He2. rewrite bool_decide_eq_true_2 in He2 by done. injection He2 as -> <-.
  destruct (encode_types _ _ _ _ E1) as [Hs1 _]. destruct (encode_types _ _ _ _ E2) as [_ Hd2].
  unfold gob_Decode. cbn [g_decoder with_encoder].
  pose proof (decode_unknown w e1 b' e2 (default NewDecoder (g_decoder g)) E2) as Hu.
  destruct (Decoder_Decode b' _) as [r d]. apply Hu. rewrite Hd2, Hs1. unfold g_known, g_sent in *. set_solver.
Qed.

(** Reading strings closes the rows once, and gives all of them or an error. *)
Lemma ReadStrings_closes (rows : Rows string) :
  ∃ r closed, ReadStrings rows = (r, mkRows (r_rows rows) (r_Err rows) (r_Close rows) closed) ∧
    (r ≠ Panic → closed = S (r_closed rows)) ∧
    (∀ l, r = Ok l → all_rows (r_rows rows) = Ok l ∧ r_Err rows = None ∧ r_Close rows = None).
Proof.
  destruct (read_rows_spec (r_rows rows) [] rows) as (r & closed & Hr & Hc & Hres). exists r, closed.
  split; [done|]. split; [done|]. intros l ->.
  destruct (all_rows (r_rows rows)), (r_Err rows), (r_Close rows); try (by destruct Hres); try done.
Qed.

(** * Objects with and without a list *)
Module ClientExample.
Import Encryption.EncryptionExample.

(** An object has the type "obj"; [true]: it has a nested list, of the type "list". Its bytes are
    the types they define and a digit. *)
Definition v_types (v : bool) : gset string := if v then {["obj"; "list"]} else {["obj"]}.
Definition v_bytes (v : bool) (e : gset string) : string :=
  (if bool_decide ("obj" ∈ e) then "" else "O") +:+
  (if v && negb (bool_decide ("list" ∈ e)) then "L" else "") +:+ (if v then "1" else "0").
Definition b_value (b : string) : bool := has_char "1" b.
Definition b_defines (b : string) : gset string :=
  (if has_char "O" b then {["obj"]} else ∅) ∪ (if has_char "L" b then {["list"]} else ∅).
#[export] Instance bool_gob : Gob bool := {|
  gtype := string; encoder := gset string; decoder := gset string; NewEncoder := ∅; NewDecoder := ∅;
  Encoder_Encode v e := (Ok (v_bytes v e), e ∪ v_types v);
  Decoder_Decode b d :=
    if bool_decide (v_types (b_value b) ⊆ d ∪ b_defines b) then (Ok (b_value b), d ∪ b_defines b)
    else (Err "gob: type not defined", d);
  TypeOf _ := "obj"
|}.
Lemma v_bytes_value v e : b_value (v_bytes v e) = v.
Proof. unfold v_bytes. by destruct v; repeat case_bool_decide. Qed.
Lemma v_bytes_defines v e : b_defines (v_bytes v e) = v_types v ∖ e.
Proof. unfold v_bytes, b_defines. destruct v; repeat case_bool_decide; cbn; set_solver. Qed.
#[export] Instance bool_gob_laws : GobLaws bool.
Proof.
  refine {| types := v_types; sent := (λ e, e) : encoder → gset gtype;
            known := (λ d, d) : decoder → gset gtype; defines := b_defines |}.
  - done.
  - done.
  - intros v e b e' [= <- <-]. split; [done|]. apply v_bytes_defines.
  - intros v e b e' d [= <- <-] _ Ht. exists (d ∪ b_defines (v_bytes v e)). split; [|done].
    cbn. rewrite v_bytes_value. by rewrite bool_decide_eq_true_2.
  - intros v e b e' d [= <- <-] Ht. cbn. rewrite v_bytes_value. by rewrite bool_decide_eq_false_2.
Defined.

Definition history : list (op bool) :=
  [OSerialize true false (Ok key1) (Ok "nonce"); OSerialize false true (Ok key1) (Ok "nonce");
   ODeserialize 1; OSerialize true true (Ok key1) (Ok "nonce")].
Definition after : client (E := gob_encoding) * list (SerializedObject * bool) :=
  foldl (run_op (E := gob_encoding)) (new_client (Ok key1)) history.

Lemma stored_objects_readable_witness :
  (snd <$> after.2) = [true; false; true] ∧
  ∀ o v, (o, v) ∈ after.2 → (Deserialize o after.1).1 = Ok v.
Proof.
  split; [vm_compute; reflexivity|].
  pose proof (stored_objects_readable (Ok key1) history) as Hread. unfold after.
  destruct (foldl run_op (new_client (Ok key1)) history) as [c objs]. apply Hread.
  - vm_compute. discriminate.
  - split; [split; [|done]; split; [intros e; by eexists _, _|intros []%not_elem_of_empty]|].
    split; [split; [|done]; split; [intros e; by eexists _, _|intros _; apply (bool_decide_unpack _); vm_compute; reflexivity]|].
    split; [done|].
    split; [split; [|done]; split; [intros e; by eexists _, _|intros _; apply (bool_decide_unpack _); vm_compute; reflexivity]|done].
Defined.

(** Without a list first: the second object with one cannot be read. *)
Definition late : list (op bool) :=
  [OSerialize false false (Ok key1) (Ok "nonce"); OSerialize true false (Ok key1) (Ok "nonce");
   OSerialize true false (Ok key1) (Ok "nonce")].
Example late_list :
  let '(c, objs) := foldl (run_op (E := gob_encoding)) (new_client (Ok key1)) late in
  (λ '(o, _), is_ok (Deserialize o c).1) <$> objs = [true; true; false].
Proof. vm_compute. reflexivity. Qed.

(** A client with an encryptor and no decryptor panics on an encrypted object. *)
Example no_decryptor (st : enc_state (Encoding := gob_encoding)) :
  (Deserialize (E := gob_encoding) (mkSerialized "data" "nonce" 0)
    (mkClient true false (Encryption.NewManager (Ok key1)) st)).1 = Panic.
Proof. reflexivity. Qed.
End ClientExample.
