(* ===== verification/DbConnection.v ===== *)
(** * Opening the database: pkg/sqlcache/db/client.go

    [NewClient] and [NewConnection] close an open database, remove its files, make the new file
    with permissions for its owner only, and open it. The calls of packages os and
    database/sql are the events of interaction trees ([ApiTrace]); an answer is an error or none. *)
From S2P Require Import Prelude GoLib ApiTrace.
From ITree Require Import Core.ITreeDefinition.

Definition InformerObjectCacheDBPathRoot : string := "informer_object_cache".
Definition InformerObjectCacheDBPath : string := InformerObjectCacheDBPathRoot +:+ ".db".
Definition informerObjectCachePerms : Z := 384.   (* 0o600 *)

Inductive fileE : Type → Type :=
  | CloseConn : fileE (option string)
  | RemoveAll (name : string) : fileE (option string)
  | CreateTemp (dir pattern : string) : fileE (outcome string string)   (* the name of the file *)
  | CloseFile (name : string) : fileE (option string)
  | Remove (name : string) : fileE (option string)
  | OpenFile (name : string) (perms : Z) : fileE (option string)        (* O_RDWR|O_CREATE *)
  | Chmod (name : string) (perms : Z) : fileE (option string)
  | Open (dsn : string) : fileE (option string)                         (* sql.Open of "sqlite" *)
  | RegisterFunction (name : string) (args : Z) : fileE unit
  | StartQueryLogger : fileE (option string).
Abbreviation program := (itree fileE).

Definition on_error {R} (e : fileE (option string)) (h : string → program R) (k : program R) : program R :=
  ITree.bind (ITree.trigger e) (λ err, match err with Some err => h err | None => k end).
Definition ignoring {R X} (e : fileE X) (k : program R) : program R :=
  ITree.bind (ITree.trigger e) (λ _, k).

Section connection.
(* os.TempDir *)
Context (TempDir : string).

Definition touchFile (filename : string) (perms : Z) : program (option string) :=
  on_error (OpenFile filename perms) (λ err, Ret (Some err))
    (on_error (CloseFile filename) (λ err, Ret (Some err))
       (ITree.trigger (Chmod filename perms))).

Definition dsn (dbPath : string) : string :=
  "file:" +:+ dbPath +:+ "?" +:+ "mode=rwc&" +:+ "_pragma=journal_mode=wal&" +:+
  "_pragma=synchronous=off&" +:+ "_pragma=foreign_keys=on&" +:+ "_pragma=busy_timeout=120000&" +:+
  "_pragma=temp_store=2&" +:+ "_txlock=immediate".

(** The path, the error, and whether the client has a new connection. *)
Record result := mkResult { dbPath : string; err : option string; connected : bool }.

Definition open_path (path : string) : program result :=
  ITree.bind (touchFile path informerObjectCachePerms) (λ e,
    match e with
    | Some _ => Ret (mkResult path None false)
    | None =>
        on_error (Open (dsn path)) (λ e, Ret (mkResult path (Some e) false))
          (ignoring (RegisterFunction "extractBarredValue" 2)
             (ignoring (RegisterFunction "inet_aton" 1)
                (ignoring (RegisterFunction "memoryInBytes" 1) (Ret (mkResult path None true)))))
    end).

Definition remove_files {R} (k : program R) : program R :=
  foldr (λ suffix k, ignoring (RemoveAll (InformerObjectCacheDBPath +:+ suffix)) k) k [""; "-shm"; "-wal"].

Definition choose_path (useTempDir : bool) : program result :=
  if useTempDir then
    ITree.bind (ITree.trigger (CreateTemp TempDir InformerObjectCacheDBPathRoot)) (λ f,
      match f with
      | Ok path => ignoring (CloseFile path) (ignoring (Remove path) (open_path (path +:+ ".db")))
      | Err e => Ret (mkResult "" (Some e) false)
      | Panic => Ret (mkResult "" (Some "") false)
      end)
  else remove_files (open_path InformerObjectCacheDBPath).

(** [conn]: whether there is a connection to close. *)
Definition NewConnection (useTempDir conn : bool) : program result :=
  if conn then on_error CloseConn (λ e, Ret (mkResult "" (Some e) false)) (choose_path useTempDir)
  else choose_path useTempDir.

(** [given]: whether the caller has a connection. *)
Definition NewClient (given useTempDir : bool) : program result :=
  if given then Ret (mkResult "" None true)
  else ITree.bind (NewConnection useTempDir false) (λ r,
    match err r with
    | Some e => Ret (mkResult "" (Some e) false)
    | None => on_error StartQueryLogger (λ e, Ret (mkResult "" (Some ("starting query logger: " +:+ e)) false)) (Ret r)
    end).

(** * Specification *)

(** The file made last with permissions for its owner only, and the database that is open. *)
Record files := mkFiles { f_private : option string; f_open : option string }.
Definition files_step (s : files) (e : event fileE) : option files :=
  match e with
  | mkEvent (Chmod name perms) None => Some (if bool_decide (perms = informerObjectCachePerms)
                                              then mkFiles (Some name) (f_open s) else s)
  | mkEvent (Remove name) _ | mkEvent (RemoveAll name) _ => Some s
  | mkEvent (Open d) r =>
      match f_private s with
      | Some name => if bool_decide (d = dsn name)
          then Some (match r with None => mkFiles (Some name) (Some name) | Some _ => s end) else None
      | None => None
      end
  | _ => Some s
  end.

(** * Lemmas *)
Abbreviation none := (mkFiles None None).

Lemma keeps_files {X} (s : files) (e : fileE X) :
  (∀ x, files_step s (mkEvent e x) = Some s) → hoare files_step (eq s) (ITree.trigger e) (λ _, eq s).
Proof. intros He. apply hoare_trigger. intros s' x <-. eauto. Qed.

Lemma ignoring_holds {R X} (s : files) (e : fileE X) (k : program R) Q :
  (∀ x, files_step s (mkEvent e x) = Some s) → hoare files_step (eq s) k Q →
  hoare files_step (eq s) (ignoring e k) Q.
Proof. intros He Hk. apply hoare_bind with (λ _, eq s); [by apply keeps_files|done]. Qed.

Lemma on_error_holds {R} (s : files) e (h : string → program R) k Q :
  (∀ x, files_step s (mkEvent e x) = Some s) → (∀ err, hoare files_step (eq s) (h err) Q) →
  hoare files_step (eq s) k Q → hoare files_step (eq s) (on_error e h k) Q.
Proof.
  intros He Hh Hk. apply hoare_bind with (λ _, eq s); [by apply keeps_files|]. intros [err|]; auto.
Qed.

Lemma touchFile_holds path :
  hoare files_step (eq none) (touchFile path informerObjectCachePerms) (λ r s,
    s = mkFiles (match r with None => Some path | Some _ => None end) None).
Proof.
  apply on_error_holds; [done|by intros e; apply hoare_ret; intros ? <-|].
  apply on_error_holds; [done|by intros e; apply hoare_ret; intros ? <-|].
  apply hoare_trigger. intros s [e|] <-; eexists; (split; [reflexivity|]); done.
Qed.

(** What a call leaves behind: a connection to a database in a private file, or none. *)
Definition left_behind (r : result) (s : files) : Prop :=
  if connected r then err r = None ∧ f_open s = Some (dbPath r) ∧ f_private s = Some (dbPath r)
  else f_open s = None ∧ (err r = None → f_private s = None).

Lemma open_path_holds path : hoare files_step (eq none) (open_path path) left_behind.
Proof.
  apply hoare_bind with (λ r s, s = mkFiles (match r with None => Some path | Some _ => None end) None);
    [apply touchFile_holds|]. intros [e|].
  { apply hoare_ret. by intros s ->. }
  apply hoare_bind with (λ e s, s = mkFiles (Some path) (match e with None => Some path | Some _ => None end)).
  { apply hoare_trigger. intros s e ->. cbn. rewrite bool_decide_eq_true_2 by done. by destruct e; eexists. }
  intros [e|]; [by apply hoare_ret; intros s ->|].
  eapply hoare_weaken with (P := eq (mkFiles (Some path) (Some path))); [|by intros s ->|done].
  do 3 (apply ignoring_holds; [done|]). apply hoare_ret. by intros s <-.
Qed.

Lemma choose_path_holds useTempDir : hoare files_step (eq none) (choose_path useTempDir) left_behind.
Proof.
  unfold choose_path. destruct useTempDir.
  - apply hoare_bind with (λ _, eq none); [by apply keeps_files|]. intros [path|e|]; [|by apply hoare_ret; intros s <-..].
    do 2 (apply ignoring_holds; [done|]). apply open_path_holds.
  - cbn. do 3 (apply ignoring_holds; [done|]). apply open_path_holds.
Qed.

(** * Theorem *)

(** A database is opened only after its file was made with permissions for its owner only, and
    it is that file; a call that returns with a connection has no error and has opened it, one
    without a connection has opened nothing, and has an error unless it could not make the file. *)
Theorem NewConnection_private useTempDir conn l r :
  trace (NewConnection useTempDir conn) l (Some r) →
  ∃ s, steps files_step none l = Some s ∧ left_behind r s.
Proof.
  intros Hl. assert (Hh : hoare files_step (eq none) (NewConnection useTempDir conn) left_behind).
  { unfold NewConnection. destruct conn; [|apply choose_path_holds].
    apply on_error_holds; [done|by intros e; apply hoare_ret; intros s <-|apply choose_path_holds]. }
  destruct (Hh _ _ _ eq_refl Hl) as (s & Hs & Hr). eauto.
Qed.
End connection.

(** * A disk *)
Module ConnectionExample.
(** [full]: files cannot be made. *)
Definition disk (full : bool) (X : Type) (e : fileE X) (l : list (event fileE)) : X :=
  match e in fileE X return X with
  | CreateTemp dir pattern => Ok (dir +:+ "/" +:+ pattern +:+ "123")
  | RegisterFunction _ _ => tt
  | OpenFile _ _ => if full then Some "no space left on device" else None
  | CloseConn | RemoveAll _ | CloseFile _ | Remove _ | Chmod _ _ | Open _ | StartQueryLogger => None
  end.
Definition connect (full : bool) : list (event fileE) * option result :=
  run (disk full) 40 (NewConnection "/tmp" false false) [].

Lemma NewConnection_private_witness :
  ∃ s, steps files_step (mkFiles None None) (connect false).1 = Some s ∧
    left_behind (mkResult "informer_object_cache.db" None true) s.
Proof.
  apply (NewConnection_private "/tmp" false false (connect false).1).
  exact (run_trace (disk false) 40 (NewConnection "/tmp" false false) []).
Defined.

(** On a full disk the call succeeds, and the client has no database. *)
Example full_disk : (connect true).2 = Some (mkResult "informer_object_cache.db" None false).
Proof. vm_compute. reflexivity. Qed.
End ConnectionExample.
