(* ===== verification/SqlFunctions.v ===== *)
(** * SQL functions: pkg/sqlcache/db/client.go

    The client registers three functions with SQLite: [extractBarredValue] takes a part of a list
    of values that is stored as one text, [inet_aton] turns an address into a number to sort by,
    and [memoryInBytes] an amount of memory. Addresses are parsed as package net does. *)
From S2P Require Import Prelude GoLib.

(** [driver.Value], as SQLite hands it over. *)
Inductive driver_value :=
  | DNil | DInt64 (z : Z) | DFloat64 | DBool (b : bool) | DBytes (s : string) | DString (s : string) | DTime.
Definition text_value (v : driver_value) : option string :=
  match v with DString s | DBytes s => Some s | _ => None end.

Inductive function_error :=
  | EArg1 | EArg2                         (* an argument of another type *)
  | EAtoi (text : string)                 (* package strconv *)
  | EParse (text : string)                (* not a numeric value *)
  | ESuffix (text suffix : string).       (* an unknown suffix *)

(** ** [extractBarredValue] *)
(** The type int is never one of SQLite's values. *)
Definition extractBarredValue (arg1 arg2 : driver_value) : outcome function_error string :=
  match text_value arg1 with
  | None => Err EArg1
  | Some arg1 =>
      match text_value arg2 with
      | None => Err EArg2
      | Some text =>
          match parse_int text with
          | None => Err (EAtoi text)
          | Some arg2 =>
              let parts := split_on "|" arg1 in
              if bool_decide (Z.of_nat (length parts) ≤ arg2)%Z || bool_decide (arg2 < 0)%Z then Ok ""
              else Ok (default "" (parts !! Z.to_nat arg2))
          end
      end
  end.

(** ** [net.ParseIP]: an address of 16 bytes *)
Definition byte_list : Type := list Z.

(** A field of an IPv4 address: digits without a leading zero, up to 255. *)
Definition parse_octet (s : string) : option Z :=
  match s with
  | "" => None
  | String "0" "" => Some 0%Z
  | String "0" _ => None
  | _ => z ← parse_digits 0 s; if bool_decide (z ≤ 255)%Z then Some z else None
  end.
Definition parseIPv4 (s : string) : option byte_list :=
  match split_on "." s with
  | [a; b; c; d] =>
      a ← parse_octet a; b ← parse_octet b; c ← parse_octet c; d ← parse_octet d; Some [a; b; c; d]
  | _ => None
  end.
(** The 16 bytes of an IPv4 address. *)
Definition mapped (v4 : byte_list) : byte_list := replicate 10 0%Z ++ [255; 255]%Z ++ v4.

Definition hex_val (c : ascii) : option Z :=
  let n := Z.of_N (N_of_ascii c) in
  if decide (48 ≤ n ≤ 57)%Z then Some (n - 48)%Z
  else if decide (97 ≤ n ≤ 102)%Z then Some (n - 87)%Z
  else if decide (65 ≤ n ≤ 70)%Z then Some (n - 55)%Z
  else None.
(** The digits at the start of a text: their value, their number and what follows. *)
Fixpoint hex_group (acc : Z) (digits : nat) (s : string) : Z * nat * string :=
  match s with
  | String c r =>
      match hex_val c with
      | Some d => hex_group (Z.shiftl acc 4 + d) (S digits) r
      | None => (acc, digits, s)
      end
  | "" => (acc, digits, "")
  end.

(** The groups of an IPv6 address: the bytes so far, and where the ellipsis is. [fuel] is the
    number of groups there may still be. *)
Fixpoint parse_groups (fuel : nat) (s : string) (ip : byte_list) (ellipsis : option nat)
    : option (byte_list * option nat) :=
  match fuel with
  | O => None   (* trailing garbage after address *)
  | S fuel =>
      let '(acc, digits, rest) := hex_group 0 0 s in
      if bool_decide (digits = 0 ∨ 4 < digits) then None else
      match rest with
      | "" => Some (ip ++ [Z.shiftr acc 8; Z.land acc 255], ellipsis)
      | String "." _ =>
          if bool_decide (ellipsis = None ∧ length ip ≠ 12) || bool_decide (16 < length ip + 4) then None
          else v4 ← parseIPv4 s; Some (ip ++ v4, ellipsis)
      | String ":" rest =>
          let ip := ip ++ [Z.shiftr acc 8; Z.land acc 255] in
          match rest with
          | "" => None
          | String ":" rest =>
              match ellipsis with
              | Some _ => None
              | None => match rest with
                | "" => Some (ip, Some (length ip))
                | _ => parse_groups fuel rest ip (Some (length ip))
                end
              end
          | _ => parse_groups fuel rest ip ellipsis
          end
      | _ => None
      end
  end.
Definition expand (ip : byte_list) (ellipsis : option nat) : option byte_list :=
  match ellipsis with
  | None => if bool_decide (length ip = 16) then Some ip else None
  | Some e => if bool_decide (length ip < 16)
              then Some (take e ip ++ replicate (16 - length ip) 0%Z ++ drop e ip) else None
  end.
Definition parseIPv6 (s : string) : option byte_list :=
  match s with
  | String ":" (String ":" "") => Some (replicate 16 0%Z)
  | String ":" (String ":" s) => r ← parse_groups 8 s [] (Some 0); expand r.1 r.2
  | _ => r ← parse_groups 8 s [] None; expand r.1 r.2
  end.

(** The first dot, colon or percent sign tells what an address is; one with a zone is refused. *)
Fixpoint address_kind (s : string) : option ascii :=
  match s with
  | "" => None
  | String c r => if (Ascii.eqb c "." || Ascii.eqb c ":" || Ascii.eqb c "%")%char then Some c else address_kind r
  end.
Definition ParseIP (s : string) : option byte_list :=
  if has_char "%" s then None
  else match address_kind s with
  | Some "."%char => mapped <$> parseIPv4 s
  | Some ":"%char => parseIPv6 s
  | _ => None
  end.
Definition To4 (ip : byte_list) : option byte_list :=
  if bool_decide (take 12 ip = replicate 10 0%Z ++ [255; 255]%Z) then Some (drop 12 ip) else None.

(** [binary.BigEndian]: the number of the bytes. *)
Definition big_endian (l : byte_list) : Z := foldl (λ n b, n * 256 + b)%Z 0%Z l.

(** ** [inet_aton]: an error is logged, and the number is 0 *)
Definition inetAtoN (arg : driver_value) : Z :=
  match text_value arg with
  | None => 0
  | Some arg1 =>
      match ParseIP arg1 with
      | None => 0
      | Some ip =>
          match To4 ip with
          | Some ipAs4 => big_endian ipAs4
          | None => wrap64 (big_endian (take 8 ip))
          end
      end
  end.

(** ** [memoryInBytes]

    The numbers are whole, of type float64: rounded to 53 binary digits, halves to even. *)
Definition round_half_even (a b : Z) : Z :=
  let '(q, r) := (a / b, a mod b)%Z in
  if bool_decide (2 * r < b)%Z || (bool_decide (2 * r = b)%Z && Z.even q) then q else (q + 1)%Z.
Definition float64_of (z : Z) : Z :=
  if bool_decide (z < 2 ^ 53)%Z then z
  else let e := (Z.log2 z - 52)%Z in (round_half_even z (2 ^ e) * 2 ^ e)%Z.
Definition float_mul (a b : Z) : Z := float64_of (a * b).

Definition word_char (c : ascii) : bool :=
  let n := N_of_ascii c in
  is_digit c || bool_decide (65 ≤ n ≤ 90)%N || bool_decide (97 ≤ n ≤ 122)%N || bool_decide (n = 95)%N.
Fixpoint split_digits (s : string) : string * string :=
  match s with
  | String c r => if is_digit c then let '(d, rest) := split_digits r in (String c d, rest) else ("", s)
  | "" => ("", "")
  end.
(** The regular expression [^([0-9]+)(\w{0,2})$]: as no letter follows a digit in the second
    group, the first takes all digits. *)
Definition memory_match (s : string) : option (string * string) :=
  let '(digits, suffix) := split_digits s in
  if bool_decide (digits ≠ "" ∧ String.length suffix ≤ 2) && all_chars word_char suffix
  then Some (digits, suffix) else None.

Definition to_upper (c : ascii) : ascii :=
  if bool_decide (97 ≤ N_of_ascii c ≤ 122)%N then ascii_of_N (N_of_ascii c - 32) else c.
(** [tbl], with 0 for what it does not have. *)
Definition factor_of (c : ascii) : Z :=
  match to_upper c with
  | "K"%char => 1 | "M"%char => 2 | "G"%char => 3 | "T"%char => 4 | "E"%char => 5
  | _ => 0
  end.

(** The value, and an error or none. *)
Definition memoryInBytes (arg : driver_value) : Z * option function_error :=
  match text_value arg with
  | None => (0%Z, Some EArg1)
  | Some arg1 =>
      match memory_match arg1 with
      | None => (0%Z, Some (EParse arg1))
      | Some (digits, suffix) =>
          match parse_int digits with
          | None => (0%Z, Some (EAtoi arg1))
          | Some size =>
              let '(factor, base, finalError) := match suffix with
                | "" => (0, 1024, None)%Z
                | String c "" => (factor_of c, 1024, None)%Z
                | String c (String d _) =>
                    if Ascii.eqb (to_upper d) "I" then (factor_of c, 1000, None)%Z
                    else (factor_of c, 1024, Some (ESuffix arg1 suffix))%Z
                end in
              (float_mul (float64_of size) (base ^ factor), finalError)
          end
      end
  end.

(** * Lemmas *)
Lemma parse_octet_itoa z : (0 ≤ z ≤ 255)%Z → parse_octet (itoa z) = Some z.
Proof.
  intros Hz. assert (Hall : forallb (λ n, bool_decide (parse_octet (itoa (Z.of_nat n)) = Some (Z.of_nat n))) (seq 0 256) = true)
    by (vm_compute; reflexivity).
  rewrite forallb_forall in Hall. specialize (Hall (Z.to_nat z)).
  rewrite Z2Nat.id in Hall by lia. apply (bool_decide_eq_true_1 _), Hall, in_seq. lia.
Qed.

Definition dotted (octets : byte_list) : string := join "." (itoa <$> octets).
Definition octets_ok (octets : byte_list) : Prop := length octets = 4 ∧ Forall (λ z, 0 ≤ z ≤ 255)%Z octets.

Lemma octets_four octets : octets_ok octets → ∃ a b c d, octets = [a; b; c; d] ∧
  (0 ≤ a ≤ 255 ∧ 0 ≤ b ≤ 255 ∧ 0 ≤ c ≤ 255 ∧ 0 ≤ d ≤ 255)%Z.
Proof.
  intros [Hlen Ho]. destruct octets as [|a [|b [|c [|d [|]]]]]; try done.
  exists a, b, c, d. split; [done|]. by repeat match goal with H : Forall _ (_ :: _) |- _ => inversion H; clear H; subst end.
Qed.

Lemma digits_no_char c z : (0 ≤ z)%Z → is_digit c = false → has_char c (itoa z) = false.
Proof. intros Hz Hc. apply has_char_all_chars with is_digit; [by apply itoa_digits|done]. Qed.

Lemma address_kind_digits s r : all_chars is_digit s = true → address_kind (s +:+ String "." r) = Some "."%char.
Proof.
  induction s as [|c s IH]; [done|]. cbn. intros [Hc Hs]%andb_true_iff.
  assert ((Ascii.eqb c "." || Ascii.eqb c ":" || Ascii.eqb c "%")%char = false) as -> by
    by destruct c as [[] [] [] [] [] [] [] []].
  by apply IH.
Qed.

Lemma ParseIP_dotted octets : octets_ok octets → ParseIP (dotted octets) = Some (mapped octets).
Proof.
  intros (a & b & c & d & -> & Ha & Hb & Hc & Hd)%octets_four. unfold ParseIP, dotted. cbn [fmap list_fmap].
  assert (Hno : ∀ ch, is_digit ch = false → Forall (λ p, has_char ch p = false) [itoa a; itoa b; itoa c; itoa d]).
  { intros ch Hch. repeat constructor; apply digits_no_char; lia || done. }
  assert (has_char "%" (join "." [itoa a; itoa b; itoa c; itoa d]) = false) as ->.
  { unfold join. cbn [String.concat]. rewrite !has_char_app, !digits_no_char by (lia || done). done. }
  assert (address_kind (join "." [itoa a; itoa b; itoa c; itoa d]) = Some "."%char) as ->.
  { apply address_kind_digits, itoa_digits. lia. }
  cbn match. unfold parseIPv4. rewrite split_on_join by (done || by apply Hno).
  by rewrite !parse_octet_itoa by lia.
Qed.

Lemma inetAtoN_dotted a b c d : octets_ok [a; b; c; d] →
  inetAtoN (DString (dotted [a; b; c; d])) = (((a * 256 + b) * 256 + c) * 256 + d)%Z.
Proof.
  intros Ho. unfold inetAtoN. cbn [text_value]. rewrite ParseIP_dotted by done.
  change (To4 (mapped [a; b; c; d])) with (Some [a; b; c; d]). reflexivity.
Qed.

(** Digits end where something else follows. *)
Lemma split_digits_app s r : all_chars is_digit s = true →
  (∀ c t, r = String c t → is_digit c = false) → split_digits (s +:+ r) = (s, r).
Proof.
  intros Hs Hr. induction s as [|c s IH]; cbn in *.
  - destruct r as [|c t]; [done|]. cbn. by rewrite (Hr c t).
  - apply andb_true_iff in Hs as [-> Hs]. by rewrite IH.
Qed.

Lemma float64_small z : (z < 2 ^ 53)%Z → float64_of z = z.
Proof. intros Hz. unfold float64_of. by rewrite bool_decide_eq_true_2. Qed.

(** * Theorems *)

(** Addresses in the order of their numbers are in the order of their octets. *)
Fixpoint octets_lt (l l' : byte_list) : Prop :=
  match l, l' with
  | x :: l, y :: l' => (x < y)%Z ∨ (x = y ∧ octets_lt l l')
  | _, _ => False
  end.

(** The number of an IPv4 address fits in 32 bits, and addresses are sorted by it as by their
    octets from the left, so that different addresses have different numbers; what is not an
    address has the number of 0.0.0.0. *)
Theorem inet_aton_sorts l l' : octets_ok l → octets_ok l' →
  (0 ≤ inetAtoN (DString (dotted l)) < 2 ^ 32)%Z ∧
  (inetAtoN (DString (dotted l)) < inetAtoN (DString (dotted l')) ↔ octets_lt l l')%Z ∧
  (inetAtoN (DString (dotted l)) = inetAtoN (DString (dotted l')) ↔ l = l') ∧
  (∀ v, match text_value v with Some s => ParseIP s = None | None => True end →
     inetAtoN v = inetAtoN (DString (dotted [0; 0; 0; 0]%Z))).
Proof.
  intros Hl Hl'. pose proof (octets_four _ Hl) as (a & b & c & d & -> & ?).
  pose proof (octets_four _ Hl') as (a' & b' & c' & d' & -> & ?).
  rewrite !inetAtoN_dotted by done. split_and!; [lia|lia|cbn; lia| |].
  - split; [|by intros [= -> -> -> ->]]. intros Heq. repeat f_equal; lia.
  - intros v Hv. unfold inetAtoN. destruct (text_value v) as [s|]; [rewrite Hv|]; by vm_compute.
Qed.

(** A suffix that is one letter counts by 1024, and one that ends in I by 1000, where it is exact. *)
Lemma memory_value (n : Z) c d : (0 ≤ n ≤ max_int64)%Z → word_char c = true → is_digit c = false →
  ((n * 1024 ^ factor_of c < 2 ^ 53)%Z → (n < 2 ^ 53)%Z →
     memoryInBytes (DString (itoa n +:+ String c "")) = ((n * 1024 ^ factor_of c)%Z, None)) ∧
  (to_upper d = "I"%char → word_char d = true → (n * 1000 ^ factor_of c < 2 ^ 53)%Z → (n < 2 ^ 53)%Z →
     memoryInBytes (DString (itoa n +:+ String c (String d ""))) = ((n * 1000 ^ factor_of c)%Z, None)).
Proof.
  intros Hn Hw Hd.
  assert (Hm : ∀ r, String.length r ≤ 1 → all_chars word_char r = true →
    memory_match (itoa n +:+ String c r) = Some (itoa n, String c r)).
  { intros r Hr Hwr. unfold memory_match. rewrite split_digits_app.
    - rewrite bool_decide_eq_true_2 by (split; [apply itoa_nonempty|cbn; lia]). cbn. by rewrite Hw, Hwr.
    - apply itoa_digits. lia.
    - by intros ? ? [= -> ->]. }
  split.
  - intros Hlt Hlt'. unfold memoryInBytes. cbn [text_value]. rewrite Hm by (done || (cbn; lia)).
    rewrite parse_int_itoa by lia. unfold float_mul. by rewrite (float64_small n), float64_small.
  - intros HI Hwd Hlt Hlt'. unfold memoryInBytes. cbn [text_value]. rewrite Hm by (done || (cbn; lia) || (cbn; by rewrite Hwd)).
    rewrite parse_int_itoa by lia. rewrite HI. cbn. unfold float_mul. by rewrite (float64_small n), float64_small.
Qed.

(** * Concrete addresses and amounts *)
Module FunctionsExample.
Lemma inet_aton_sorts_witness :
  (inetAtoN (DString "10.0.0.9") < inetAtoN (DString "10.0.0.10"))%Z.
Proof.
  apply (inet_aton_sorts [10; 0; 0; 9]%Z [10; 0; 0; 10]%Z); [by repeat constructor|by repeat constructor|].
  cbn. lia.
Defined.

(** An IPv6 address may have a negative number, the same as its neighbours; a mapped one is the
    IPv4 address. *)
Example ipv6_numbers :
  (inetAtoN (DString "fe80::1") < inetAtoN (DString "0.0.0.0"))%Z ∧
  inetAtoN (DString "2001:db8::1") = inetAtoN (DString "2001:db8::ffff") ∧
  inetAtoN (DString "::ffff:10.0.0.1") = inetAtoN (DString "10.0.0.1") ∧
  inetAtoN DNil = inetAtoN (DString "0.0.0.0").
Proof. split_and!; vm_compute; reflexivity. Qed.

(** Binary suffixes count by 1000 and decimal ones by 1024; P is unknown and E counts as the fifth;
    a thousandth is a million. *)
Example suffixes :
  memoryInBytes (DString "1Ki") = (1000%Z, None) ∧ memoryInBytes (DString "1k") = (1024%Z, None) ∧
  memoryInBytes (DString "1P") = (1%Z, None) ∧ memoryInBytes (DString "1E") = ((1024 ^ 5)%Z, None) ∧
  memoryInBytes (DString "1m") = ((1024 ^ 2)%Z, None).
Proof. split_and!; vm_compute; reflexivity. Qed.

Example barred :
  extractBarredValue (DString "nginx|redis") (DString "1") = Ok "redis" ∧
  extractBarredValue (DString "nginx|redis") (DString "2") = Ok "" ∧
  extractBarredValue (DString "nginx|redis") (DInt64 1) = Err EArg2.
Proof. split_and!; vm_compute; reflexivity. Qed.
End FunctionsExample.
