(* ===== verification/TableConvert.v ===== *)
(** * The client of the caches: pkg/stores/sqlproxy/tablelistconvert/client.go

    Caches list and watch with a client whose answers are tables; this one turns them into the
    objects of their rows. A watch has a goroutine that takes the events of the watch of
    Kubernetes, converts them and hands them on over a channel without a buffer. *)
From S2P Require Import Prelude GoLib GoValue KubeTypes ListProcessor Partitions ProxyStore.

Record watch_event := mkEvent { e_Type : event_type; e_Object : runtime_object }.

Section client.
Context `{ObjectData, ObjectEdit, APIServer, MapRange}.

(** ** Lists *)
(** An [UnstructuredList]: its own fields and its items. *)
Record unstructured_list := mkList { l_Object : object; l_Items : list object }.

Definition tableToList (obj : unstructured_list) : unstructured_list :=
  if is_table (l_Object obj) then mkList (l_Object obj) (tableToObjects (l_Object obj)) else obj.

(** [list]: what the client gives. *)
Definition Client_List (list : outcome api_error unstructured_list) : outcome api_error unstructured_list :=
  tableToList <$> list.

(** ** Watches *)
(** An event whose object is not an [*unstructured.Unstructured] is not sent. *)
Definition convert (e : watch_event) : option watch_event :=
  match e_Object e with
  | RUnstructured unstr => Some (mkEvent (e_Type e) (RUnstructured (rowToObject unstr)))
  | _ => None
  end.

(** Where the goroutine is: at its select, sending an event, or returned with [events] closed. *)
Inductive feeder := Selecting | Sending (e : watch_event) | Returned.

(** [w_source]: the events the watch of Kubernetes has yet to send and whether it closes its
    channel after them; [w_done]: whether [done] is closed; [w_received], [w_delivered]: what the
    goroutine has taken and the caller has got. *)
Record tableConvertWatch := mkWatch {
  w_source : list watch_event;
  w_closes : bool;
  w_done : bool;
  w_feeder : feeder;
  w_received : list watch_event;
  w_delivered : list watch_event;
  w_panicked : bool
}.
Definition start (source : list watch_event) (closes : bool) : tableConvertWatch :=
  mkWatch source closes false Selecting [] [] false.

(** [Stop] closes [done]; closing a closed channel panics. *)
Definition Stop (w : tableConvertWatch) : tableConvertWatch :=
  mkWatch (w_source w) (w_closes w) true (w_feeder w) (w_received w) (w_delivered w) (w_done w).

(** The steps: the select takes an event, finds the channel closed, or finds [done] closed; the
    caller takes an event from [events], or calls [Stop]. *)
Inductive action := ATake | AClosed | ADone | AReceive | AStop.
Definition exec (a : action) (w : tableConvertWatch) : option tableConvertWatch :=
  if w_panicked w then None else
  match a, w_feeder w, w_source w with
  | ATake, Selecting, e :: source =>
      Some (mkWatch source (w_closes w) (w_done w)
        (match convert e with Some e => Sending e | None => Selecting end)
        (w_received w ++ [e]) (w_delivered w) false)
  | AClosed, Selecting, [] =>
      if w_closes w then Some (mkWatch [] true (w_done w) Returned (w_received w) (w_delivered w) false)
      else None
  | ADone, Selecting, source =>
      if w_done w then Some (mkWatch source (w_closes w) true Returned (w_received w) (w_delivered w) false)
      else None
  | AReceive, Sending e, source =>
      Some (mkWatch source (w_closes w) (w_done w) Selecting (w_received w) (w_delivered w ++ [e]) false)
  | AStop, _, _ => Some (Stop w)
  | _, _, _ => None
  end.
Definition step (w w' : tableConvertWatch) : Prop := ∃ a, exec a w = Some w'.
Fixpoint exec_all (l : list action) (w : tableConvertWatch) : option tableConvertWatch :=
  match l with [] => Some w | a :: l => w' ← exec a w; exec_all l w' end.

Lemma converting_exec l w w' : exec_all l w = Some w' → rtc step w w'.
Proof.
  revert w. induction l as [|a l IH]; intros w; cbn; [intros [= ->]; done|].
  destruct (exec a w) as [w1|] eqn:Ha; [|done]. cbn. intros Hl.
  eapply rtc_l; [by exists a|by apply IH].
Qed.

(** * Lemmas *)
Definition in_hand (f : feeder) : list watch_event := match f with Sending e => [e] | _ => [] end.

(** The events taken are those of the source in order, and what is delivered and in hand are the
    converted ones. *)
Record watch_ok (source : list watch_event) (w : tableConvertWatch) : Prop := {
  ok_received : w_received w ++ w_source w = source;
  ok_delivered : w_delivered w ++ in_hand (w_feeder w) = omap convert (w_received w);
  ok_returned : w_feeder w = Returned → w_done w = true ∨ (w_source w = [] ∧ w_closes w = true)
}.

Lemma converting_step source w w' : step w w' → watch_ok source w → watch_ok source w'.
Proof.
  intros [a Ha] [Hr Hd He]. unfold exec in Ha. destruct (w_panicked w); [done|].
  destruct w as [src closes dn f rec del pan]; cbn in *.
  destruct a, f as [|e|], src as [|e' src]; try done; try (destruct closes; [|done]);
    try (destruct dn; [|done]); injection Ha as <-; split; cbn in *; auto; try done.
  all: try by rewrite <- app_assoc.
  all: try by rewrite app_nil_r.
  - rewrite omap_app, <- Hd. cbn. destruct (convert e'); cbn; by rewrite ?app_nil_r.
  - by destruct (convert e').
Qed.
Lemma converting_steps source w w' : rtc step w w' → watch_ok source w → watch_ok source w'.
Proof. induction 1; eauto using converting_step. Qed.
Lemma converting_start source closes : watch_ok source (start source closes).
Proof. by split. Qed.

(** Sending does not look at [done]: without a caller that receives, the goroutine stays. *)
Lemma sending_stays e l w w' :
  w_feeder w = Sending e → AReceive ∉ l → exec_all l w = Some w' → w_feeder w' = Sending e.
Proof.
  revert w. induction l as [|a l IH]; intros w Hw Hl; cbn; [by intros [= <-]|].
  destruct (exec a w) as [w1|] eqn:Ha; [|done]. cbn. apply IH; [|set_solver].
  unfold exec in Ha. rewrite Hw in Ha. destruct (w_panicked w); [done|].
  destruct a; try done; [set_solver|]. by injection Ha as <-.
Qed.

(** * Theorem *)

(** What the caller of a watch of tables gets are, in order and each once, the objects of the
    rows of a first part of the events of Kubernetes, without the events that have no object,
    such as errors; when the channel is closed the watch was stopped or these are all of them;
    and while the goroutine has an event to send, it goes on only when that is received, whether
    or not the watch is stopped. *)
Theorem converted_watch source closes w :
  rtc step (start source closes) w →
  (∃ n, w_delivered w = omap convert (take n source)) ∧
  (w_feeder w = Returned → w_done w = false → w_delivered w = omap convert source) ∧
  (∀ e l w', w_feeder w = Sending e → AReceive ∉ l → exec_all l w = Some w' → w_feeder w' = Sending e).
Proof.
  intros Hw. destruct (converting_steps source _ _ Hw (converting_start source closes)) as [Hr Hd He]. split_and!.
  - destruct (w_feeder w) as [|e|] eqn:Hf; cbn in Hd.
    1, 3: exists (length (w_received w)); rewrite <- Hr, take_app_length, <- Hd; by rewrite app_nil_r.
    (* the event in hand is the last one taken *)
    assert (Hlast : ∃ n, w_delivered w = omap convert (take n (w_received w))).
    { clear -Hd. revert Hd. generalize (w_delivered w) as del. induction (w_received w) as [|x rec IH] using rev_ind; intros del Hd.
      { by destruct del. }
      rewrite omap_app in Hd. cbn in Hd. destruct (convert x) as [x'|] eqn:Hx; cbn in Hd.
      - apply app_inj_tail in Hd as [-> _]. exists (length rec). by rewrite take_app_length.
      - rewrite app_nil_r in Hd. destruct (IH del Hd) as [n Hn]. exists (n `min` length rec).
        rewrite take_app_le by lia. by rewrite <- (take_take rec), (take_ge rec) by lia. }
    destruct Hlast as [n Hn]. exists (n `min` length (w_received w)). rewrite Hn, <- Hr, take_app_le by lia.
    by rewrite <- (take_take (w_received w)), (take_ge (w_received w) (length (w_received w))) by lia.
  - intros Hf Hdn. rewrite Hf, app_nil_r in Hd. destruct (He Hf) as [?|[Hs _]]; [congruence|].
    by rewrite Hd, <- Hr, Hs, app_nil_r.
  - intros e l w'. apply sending_stays.
Qed.
End client.

(** * A watch of pods *)
Module TableExample.
Import ConcreteData ConcreteEdit.
#[local] Existing Instance canonical_range.
#[local] Existing Instance ProxyExample.server.

Definition table (name : string) : object :=
  {["kind" := GString "Table"; "apiVersion" := GString "meta.k8s.io/v1";
    "rows" := GSlice [GMap {["cells" := GSlice [GString name]; "object" := GMap {["name" := GString name]}]}]]}.
Definition pod (name : string) : object :=
  {["name" := GString name; "metadata" := GMap {["fields" := GSlice [GString name]]}]}.
Definition events : list watch_event :=
  [mkEvent AddedE (RUnstructured (table "web")); mkEvent ErrorE (RStatus "too old resource version")].

(** The error is dropped: the caller gets the pod, and a channel that closes. *)
Definition schedule : list action := [ATake; AReceive; ATake; AClosed].
Definition finished : tableConvertWatch := default (start [] false) (exec_all schedule (start events true)).
Lemma converted_watch_witness :
  w_feeder finished = Returned ∧ w_delivered finished = [mkEvent AddedE (RUnstructured (pod "web"))].
Proof.
  split; [vm_compute; reflexivity|].
  destruct (converted_watch events true finished) as (_ & Hall & _).
  - apply (converting_exec schedule). vm_compute. reflexivity.
  - rewrite Hall; [vm_compute; reflexivity|vm_compute; reflexivity|vm_compute; reflexivity].
Defined.

(** Stopping twice panics. *)
Example stop_twice :
  w_panicked <$> exec_all [AStop; AStop] (start [] false) = Some true.
Proof. reflexivity. Qed.
End TableExample.
