(* ===== verification/SqlProxyStore.v ===== *)
(** * Caches of the SQL proxy store: pkg/stores/sqlproxy/proxy_store.go

    A list or watch takes the cache of its type from the factory, with the fields that are
    indexed and the types of their columns, and gives it back when it is done; the store keeps
    the cache of namespaces for itself and takes it anew when the type is reset. The calls of
    the factory, of the clients and of the caches are the events of interaction trees
    ([ApiTrace]). The watch that reads the events of a cache is in [WatchPartitions]. *)
From S2P Require Import Prelude GoLib AccessControl SqlQuery SqlProcessor KubeTypes ApiTrace.
From S2P Require ListProcessor SqlResults IndexFields SqlAccess.
From ITree Require Import Core.ITreeDefinition.

(** ** Schemas and columns *)
Record ColumnDefinition := mkColumn {
  cd_Name : string; cd_Type : string; cd_Format : string; cd_Description : string; cd_Field : string }.
(** The attributes of a schema the store reads; no columns when they have another type. *)
Record APISchema := mkSchema {
  S_ID : string; S_GVK : GroupVersionKind; S_Resource : string; S_Namespaced : bool; S_CRD : bool;
  S_Verbs : list string; S_Columns : option (list ColumnDefinition) }.

Definition gvkKey (group version kind : string) : string := group +:+ "_" +:+ version +:+ "_" +:+ kind.

Definition typeSpecificIndexedFields : gmap string (list (list string)) := list_to_map [
  (gvkKey "" "v1" "Event", [["_type"]; ["involvedObject"; "kind"]; ["involvedObject"; "uid"];
    ["message"]; ["reason"]]);
  (gvkKey "" "v1" "Namespace", [["spec"; "displayName"]]);
  (gvkKey "" "v1" "Node", [["status"; "nodeInfo"; "kubeletVersion"];
    ["status"; "nodeInfo"; "operatingSystem"]]);
  (gvkKey "" "v1" "PersistentVolume", [["status"; "reason"];
    ["spec"; "persistentVolumeReclaimPolicy"]]);
  (gvkKey "" "v1" "PersistentVolumeClaim", [["spec"; "volumeName"]]);
  (gvkKey "" "v1" "Pod", [["spec"; "containers"; "image"]; ["spec"; "nodeName"]; ["status"; "podIP"]]);
  (gvkKey "" "v1" "ReplicationController", [["spec"; "template"; "spec"; "containers"; "image"]]);
  (gvkKey "" "v1" "Secret", [
    ["metadata"; "annotations"; "management.cattle.io/project-scoped-secret-copy"]]);
  (gvkKey "" "v1" "Service", [["spec"; "clusterIP"]; ["spec"; "type"]]);
  (gvkKey "apps" "v1" "DaemonSet", [["metadata"; "annotations"; "field.cattle.io/publicEndpoints"];
    ["spec"; "template"; "spec"; "containers"; "image"]]);
  (gvkKey "apps" "v1" "Deployment", [
    ["metadata"; "annotations"; "field.cattle.io/publicEndpoints"];
    ["spec"; "template"; "spec"; "containers"; "image"]]);
  (gvkKey "apps" "v1" "ReplicaSet", [["spec"; "template"; "spec"; "containers"; "image"]]);
  (gvkKey "apps" "v1" "StatefulSet", [
    ["metadata"; "annotations"; "field.cattle.io/publicEndpoints"];
    ["spec"; "template"; "spec"; "containers"; "image"]]);
  (gvkKey "autoscaling" "v2" "HorizontalPodAutoscaler", [["spec"; "scaleTargetRef"; "name"];
    ["spec"; "minReplicas"]; ["spec"; "maxReplicas"]; ["status"; "currentReplicas"]]);
  (gvkKey "batch" "v1" "CronJob", [["metadata"; "annotations"; "field.cattle.io/publicEndpoints"];
    ["spec"; "jobTemplate"; "spec"; "template"; "spec"; "containers"; "image"];
    ["status"; "lastScheduleTime"]; ["status"; "lastSuccessfulTime"]]);
  (gvkKey "batch" "v1" "Job", [["metadata"; "annotations"; "field.cattle.io/publicEndpoints"];
    ["spec"; "template"; "spec"; "containers"; "image"]]);
  (gvkKey "catalog.cattle.io" "v1" "App", [["spec"; "chart"; "metadata"; "name"]]);
  (gvkKey "catalog.cattle.io" "v1" "ClusterRepo", [
    ["metadata"; "annotations"; "clusterrepo.cattle.io/hidden"]; ["spec"; "gitBranch"];
    ["spec"; "gitRepo"]]);
  (gvkKey "catalog.cattle.io" "v1" "Operation", [["status"; "action"]; ["status"; "namespace"];
    ["status"; "releaseName"]]);
  (gvkKey "cluster.x-k8s.io" "v1beta1" "Machine", [["spec"; "clusterName"]]);
  (gvkKey "cluster.x-k8s.io" "v1beta1" "MachineDeployment", [["spec"; "clusterName"]]);
  (gvkKey "management.cattle.io" "v3" "Cluster", [["spec"; "internal"]; ["spec"; "displayName"];
    ["status"; "allocatable"; "cpu"]; ["status"; "allocatable"; "cpuRaw"];
    ["status"; "allocatable"; "memory"]; ["status"; "allocatable"; "memoryRaw"];
    ["status"; "allocatable"; "pods"]; ["status"; "requested"; "cpu"];
    ["status"; "requested"; "cpuRaw"]; ["status"; "requested"; "memory"];
    ["status"; "requested"; "memoryRaw"]; ["status"; "requested"; "pods"]; ["status"; "connected"];
    ["status"; "provider"]]);
  (gvkKey "management.cattle.io" "v3" "ClusterRoleTemplateBinding", [["clusterName"]; ["userName"];
    ["userPrincipalName"]]);
  (gvkKey "management.cattle.io" "v3" "GlobalRoleBinding", [["userName"]; ["userPrincipalName"]]);
  (gvkKey "management.cattle.io" "v3" "Node", [["status"; "nodeName"]]);
  (gvkKey "management.cattle.io" "v3" "NodePool", [["spec"; "clusterName"]]);
  (gvkKey "management.cattle.io" "v3" "NodeTemplate", [["spec"; "clusterName"]]);
  (gvkKey "management.cattle.io" "v3" "Project", [["spec"; "clusterName"]; ["spec"; "displayName"]]);
  (gvkKey "management.cattle.io" "v3" "ProjectRoleTemplateBinding", [["userName"];
    ["userPrincipalName"]]);
  (gvkKey "management.cattle.io" "v3" "RoleTemplate", [["context"]]);
  (gvkKey "networking.k8s.io" "v1" "Ingress", [["spec"; "rules"; "host"];
    ["spec"; "ingressClassName"]]);
  (gvkKey "provisioning.cattle.io" "v1" "Cluster", [
    ["metadata"; "annotations"; "provisioning.cattle.io/management-cluster-display-name"];
    ["status"; "allocatable"; "cpu"]; ["status"; "allocatable"; "cpuRaw"];
    ["status"; "allocatable"; "memory"]; ["status"; "allocatable"; "memoryRaw"];
    ["status"; "allocatable"; "pods"]; ["status"; "clusterName"]; ["status"; "provider"];
    ["status"; "requested"; "cpu"]; ["status"; "requested"; "cpuRaw"];
    ["status"; "requested"; "memory"]; ["status"; "requested"; "memoryRaw"];
    ["status"; "requested"; "pods"]]);
  (gvkKey "rke.cattle.io" "v1" "ETCDSnapshot", [["snapshotFile"; "createdAt"];
    ["spec"; "clusterName"]]);
  (gvkKey "storage.k8s.io" "v1" "StorageClass", [["provisioner"];
    ["metadata"; "annotations"; "storageclass.kubernetes.io/is-default-class"]])
].
Definition commonIndexFields : list (list string) := [["id"]; ["metadata"; "state"; "name"]].

Definition baseNSSchema : APISchema :=
  mkSchema "" (mkGVK "" "v1" "Namespace") "namespaces" false false [] None.
Definition mgmtClusterSchema : APISchema :=
  mkSchema "" (mkGVK "management.cattle.io" "v3" "Cluster") "clusters" false false [] None.
Definition namespaceGVK : GroupVersionKind := mkGVK "" "v1" "Namespace".
Definition mcioProjectGvk : GroupVersionKind := mkGVK "management.cattle.io" "v3" "Project".
Definition pcioClusterGvk : GroupVersionKind := mkGVK "provisioning.cattle.io" "v1" "Cluster".

(** ** Columns of one table that are copied from another: pkg/sqlcache/sqltypes/types.go *)
Record ExternalDependency := mkDependency {
  SourceGVK : string; SourceFieldName : string; TargetGVK : string; TargetKeyFieldName : string;
  TargetFinalFieldName : string }.
Record ExternalLabelDependency := mkLabelDependency {
  l_SourceGVK : string; SourceLabelName : string; l_TargetGVK : string; l_TargetKeyFieldName : string;
  l_TargetFinalFieldName : string }.
Record ExternalGVKUpdates := mkUpdates {
  AffectedGVK : GroupVersionKind; ExternalDependencies : list ExternalDependency;
  ExternalLabelDependencies : list ExternalLabelDependency }.

Definition namespaceProjectLabelDep : ExternalLabelDependency :=
  mkLabelDependency (gvkKey "" "v1" "Namespace") "field.cattle.io/projectId"
    (gvkKey "management.cattle.io" "v3" "Project") "metadata.name" "spec.displayName".
Definition namespaceUpdates : ExternalGVKUpdates := mkUpdates namespaceGVK [] [namespaceProjectLabelDep].
Definition provisionedClusterDependencies : list ExternalDependency :=
  (λ field, mkDependency (gvkKey "provisioning.cattle.io" "v1" "Cluster") "status.clusterName"
     (gvkKey "management.cattle.io" "v3" "Cluster") "id" field) <$>
  ["status.allocatable.cpu"; "status.allocatable.memory"; "status.allocatable.pods";
   "status.requested.cpu"; "status.requested.memory"; "status.requested.pods"].
Definition pcioClusterUpdates : ExternalGVKUpdates :=
  mkUpdates pcioClusterGvk provisionedClusterDependencies [].
Definition externalGVKDependencies : gmap GroupVersionKind ExternalGVKUpdates :=
  {[mcioProjectGvk := namespaceUpdates; pcioClusterGvk := pcioClusterUpdates]}.
Definition selfGVKDependencies : gmap GroupVersionKind ExternalGVKUpdates :=
  {[namespaceGVK := namespaceUpdates; pcioClusterGvk := pcioClusterUpdates]}.

(** ** Fields and the types of their columns *)
Definition getFieldForGVK (gvk : GroupVersionKind) : list (list string) :=
  commonIndexFields ++
  default [] (typeSpecificIndexedFields !! gvkKey (Group gvk) (Version gvk) (Kind gvk)).

Definition tableColsToCommonCols (tableDefs : list ColumnDefinition) : list ColumnDefinition :=
  imap (λ i td, mkColumn (cd_Name td) (cd_Type td) (cd_Format td) (cd_Description td)
    ("$.metadata.fields[" +:+ itoa (Z.of_nat i) +:+ "]")) tableDefs.

Definition typeGuidanceTable : gmap GroupVersionKind (gmap string string) :=
  {[mkGVK "management.cattle.io" "v3" "Cluster" := {[
      "status.allocatable.cpuRaw" := "REAL"; "status.allocatable.memoryRaw" := "REAL";
      "status.allocatable.pods" := "INT"; "status.requested.cpuRaw" := "REAL";
      "status.requested.memoryRaw" := "REAL"; "status.requested.pods" := "INT"]};
    mkGVK "" "v1" "Secret" := {["metadata.fields[2]" := "INT"]};
    mkGVK "" "v1" "ServiceAccount" := {["metadata.fields[1]" := "INT"]};
    mkGVK "" "v1" "ConfigMap" := {["metadata.fields[1]" := "INT"]}]}.

(** [strings.TrimPrefix], for a prefix of one character. *)
Definition trimmed_field (field : string) : string := trim_prefix_char "." (trim_prefix_char "$" field).

(** The regular expression [(?i)\bnumber of\b]. *)
Definition word_char (c : ascii) : bool := letter_or_underscore c || is_digit c.
Definition word_boundary (s : string) : bool :=
  match s with "" => true | String c _ => negb (word_char c) end.
Definition phrase : string := "number of".
(** [s] is in lower case. *)
Fixpoint has_phrase (after_word : bool) (s : string) : bool :=
  (negb after_word && String.prefix phrase s && word_boundary (str_drop (String.length phrase) s)) ||
  match s with "" => false | String c s => has_phrase (word_char c) s end.
Definition number_of_Match (s : string) : bool := has_phrase false (SqlResults.lower s).

Definition col_type (col : ColumnDefinition) : string :=
  if bool_decide (cd_Type col = "integer") || bool_decide (cd_Type col = "boolean") ||
     number_of_Match (cd_Description col)
  then "INT" else cd_Type col.

Definition add_guidance (guidance : gmap string string) (col : ColumnDefinition) : gmap string string :=
  if bool_decide (col_type col = "string") then guidance
  else <[trimmed_field (cd_Field col) := col_type col]> guidance.
(** The table overrides the columns. *)
Definition getTypeGuidance (cols : list ColumnDefinition) (gvk : GroupVersionKind) : gmap string string :=
  default ∅ (typeGuidanceTable !! gvk) ∪ foldl add_guidance ∅ cols.

Definition getFieldAndColInfo (schema : APISchema) (gvk : GroupVersionKind)
    : outcome string (list (list string) * option (list ColumnDefinition) * gmap string string) :=
  match S_Columns schema with
  | None => Ok ([], None, ∅)
  | Some colDefs =>
      fields ← map_outcome (λ col, ListProcessor.SafeSplit (trimmed_field (cd_Field col))) colDefs;
      Ok (fields, Some colDefs, getTypeGuidance colDefs gvk)
  end.

(** [controllerschema.IsListWatchable] *)
Definition IsListWatchable (schema : APISchema) : bool :=
  bool_decide ("list" ∈ S_Verbs schema) && bool_decide ("watch" ∈ S_Verbs schema).

(** ** Errors *)
Inductive error :=
  | EK8s (e : api_error)                 (* of a client, of the factory *)
  | EQuery (e : query_error)             (* of the parameters of the request *)
  | EInvalidColumn (text : string)       (* informer.ErrInvalidColumn, wrapped *)
  | EUnknownRevision (text : string)     (* informer.ErrUnknownRevision, wrapped *)
  | EAPIError (status : Z) (code message : string)   (* apierror.APIError *)
  | EMessage (text : string)             (* any other error *)
  | EWrapped (text : string) (e : error).            (* fmt.Errorf with %w *)
Fixpoint Is_InvalidColumn (e : error) : option string :=
  match e with EInvalidColumn text => Some text | EWrapped _ e => Is_InvalidColumn e | _ => None end.
Fixpoint Is_UnknownRevision (e : error) : option string :=
  match e with EUnknownRevision text => Some text | EWrapped _ e => Is_UnknownRevision e | _ => None end.
(** [errors.As] for an apierror.APIError: its status. *)
Fixpoint As_APIError (e : error) : option Z :=
  match e with
  | EAPIError status _ _ | EK8s (EAPI status _ _) => Some status
  | EQuery (ErrInvalidRevision _) => Some 400%Z
  | EWrapped _ e => As_APIError e
  | _ => None
  end.
Definition StatusNoContent : Z := 204.
Definition StatusBadRequest : Z := 400.

Section caches.
(* clients of Kubernetes, caches of the factory, and the items of a list *)
Context {Client Cache Item : Type} `{EqDecision Cache}.

(** ** What the store calls *)

(** The arguments of [CacheFor]; the transformation is made from the type, the columns and
    whether it is a CRD. *)
Record cache_spec := mkSpec {
  sp_Fields : list (list string); sp_External : option ExternalGVKUpdates;
  sp_Self : option ExternalGVKUpdates; sp_Columns : option (list ColumnDefinition); sp_CRD : bool;
  sp_Client : Client; sp_GVK : GroupVersionKind; sp_TypeGuidance : gmap string string;
  sp_Namespaced : bool; sp_Watchable : bool }.
Record WatchOptions := mkWatchOptions {
  ResourceVersion : string; w_ID : string; w_Namespace : string; w_Selector : option string }.
Record list_result := mkListing { li_Items : list Item; li_Revision : option string; li_Total : Z; li_Continue : string }.

Inductive storeE : Type → Type :=
  | SetColumns (schema : APISchema) : storeE (outcome error APISchema)
  | TableAdminClient (schema : APISchema) : storeE (outcome error Client)
  | TableAdminClientForWatch (schema : APISchema) : storeE (outcome error Client)
  | CacheFor (spec : cache_spec) : storeE (outcome error Cache)
  | DoneWithCache (c : Cache) : storeE unit
  | Stop (gvk : GroupVersionKind) : storeE (outcome error unit)
  | GetLatestResourceVersion (c : Cache) : storeE (list string)
  | ListByOptions (c : Cache) (lo : sqltypes.ListOptions) (partitions : list partition.Partition)
      (namespace : string) : storeE (outcome error list_result)
  (* a goroutine that watches the cache from now on *)
  | GoWatch (c : Cache) (opts : WatchOptions) : storeE unit.
Abbreviation program := (prog storeE error).

Definition lift {A} (m : outcome error A) : program A := Ret m.
Definition wrap {E' A} (f : E' → error) (m : outcome E' A) : outcome error A := in_error f m.
(** Whatever [m] gives, [after] runs in the end, as a deferred call does. *)
Definition deferred {A} (m : program A) (after : itree storeE unit) : program A :=
  ITree.bind m (λ r, ITree.bind after (λ _, Ret r)).

(** ** Taking a cache *)
Definition gvk_String (gvk : GroupVersionKind) : string :=
  Group gvk +:+ "/" +:+ Version gvk +:+ ", Kind=" +:+ Kind gvk.

Definition spec_of (schema : APISchema) (client : Client) (namespaced watchable : bool)
    : outcome error cache_spec :=
  let gvk := S_GVK schema in
  '(fields, cols, typeGuidance) ← wrap EMessage (getFieldAndColInfo schema gvk);
  Ok (mkSpec (fields ++ getFieldForGVK gvk) (externalGVKDependencies !! gvk)
        (selfGVKDependencies !! gvk) cols (S_CRD schema) client gvk typeGuidance namespaced watchable).

Definition cacheFor (apiSchema : APISchema) : program Cache :=
  client ← call (TableAdminClient apiSchema);
  spec ← lift (spec_of apiSchema client (S_Namespaced apiSchema) (IsListWatchable apiSchema));
  ITree.bind (ITree.trigger (CacheFor spec)) (λ inf,
    Ret (wrap (EWrapped ("cachefor " +:+ gvk_String (S_GVK apiSchema))) inf)).

(** [doneCache]: the caches are given back, the last one first. *)
Fixpoint done_caches (taken : list Cache) : itree storeE unit :=
  match taken with
  | [] => Ret tt
  | c :: taken => ITree.bind (ITree.trigger (DoneWithCache c)) (λ _, done_caches taken)
  end.

(** The cache of a schema and, for provisioning clusters, the one of management clusters
    before it; with the caches taken, the last one first. *)
Definition cacheForWithDeps (apiSchema : APISchema) : program (Cache * list Cache) :=
  deps ← (if bool_decide (S_GVK apiSchema = pcioClusterGvk)
          then c ← cacheFor mgmtClusterSchema; mret [c] else mret [] : program (list Cache));
  ITree.bind (cacheFor apiSchema) (λ inf,
    match inf with
    | Err e => ITree.bind (done_caches deps) (λ _, fail e)
    | Ok inf => Ret (Ok (inf, inf :: deps))
    | Panic => Ret Panic
    end).

(** ** Listing *)
Record APIRequest := mkRequest {
  apiOp_Query : ListProcessor.Values; apiOp_Namespace : string;
  AccessSetFromAPIRequest : option AccessSet; UserFrom : option string }.

(** The filter on the tokens of a user. *)
Definition user_filter (name : string) : sqltypes.OrFilter :=
  sqltypes.mkOrFilter [sqltypes.mkFilter ["metadata"; "labels"; "cattle.io/user-id"] [name] sqltypes.Eq false].
Definition is_token (gvk : GroupVersionKind) : bool :=
  bool_decide (Group gvk = "ext.cattle.io") &&
  (bool_decide (Kind gvk = "Token") || bool_decide (Kind gvk = "Kubeconfig")).
Definition lists_all `{MapRange} (accessSet : option AccessSet) : bool :=
  match accessSet with
  | Some a => AccessSet_Grants a "list" (mkGR "" "*") "" ""
  | None => false
  end.
Definition add_filter (f : sqltypes.OrFilter) (lo : sqltypes.ListOptions) : sqltypes.ListOptions :=
  sqltypes.mkListOptions (sqltypes.lo_Filters lo ++ [f]) (sqltypes.ProjectsOrNamespaces lo)
    (sqltypes.lo_SortList lo) (sqltypes.lo_Pagination lo) (sqltypes.Revision lo).
(* validation.MissingRequired, and the code of an invalid body, of github.com/rancher/wrangler *)
Context (MissingRequired InvalidBodyContent : Z * string).
Definition own_tokens `{MapRange} (apiOp : APIRequest) (gvk : GroupVersionKind) (lo : sqltypes.ListOptions)
    : outcome error sqltypes.ListOptions :=
  if is_token gvk && negb (lists_all (AccessSetFromAPIRequest apiOp)) then
    match UserFrom apiOp with
    | None => Err (EAPIError MissingRequired.1 MissingRequired.2
        "failed to get user info from the request.Context object")
    | Some name => Ok (add_filter (user_filter name) lo)
    end
  else Ok lo.

Definition list_error (gvk : GroupVersionKind) (e : error) : error :=
  match Is_InvalidColumn e, Is_UnknownRevision e with
  | Some text, _ => EAPIError InvalidBodyContent.1 InvalidBodyContent.2 text
  | None, Some text => EAPIError StatusBadRequest text text
  | None, None => EWrapped ("listbyoptions " +:+ gvk_String gvk) e
  end.

Definition list_cache `{MapRange} (apiOp : APIRequest) (gvk : GroupVersionKind)
    (partitions : list partition.Partition) (inf : Cache) : program list_result :=
  match wrap EQuery (ParseQuery (apiOp_Query apiOp) (Kind gvk)) with
  | Panic => Ret Panic
  | Err e =>
      if bool_decide (As_APIError e = Some StatusNoContent) then
        ITree.bind (ITree.trigger (GetLatestResourceVersion inf)) (λ resourceVersion,
          Ret (Ok (mkListing [] (head resourceVersion) 0 "")))
      else fail e
  | Ok opts =>
      opts ← lift (own_tokens apiOp gvk opts);
      ITree.bind (ITree.trigger (ListByOptions inf opts partitions (apiOp_Namespace apiOp))) (λ r,
        Ret (wrap (list_error gvk) r))
  end.

Definition ListByPartitions `{MapRange} (apiOp : APIRequest) (apiSchema : APISchema)
    (partitions : list partition.Partition) : program list_result :=
  '(inf, taken) ← cacheForWithDeps apiSchema;
  deferred (list_cache apiOp (S_GVK apiSchema) partitions inf) (done_caches taken).

(** ** Watching *)
(* labels.Parse of k8s.io/apimachinery, and kv.RSplit of github.com/rancher/wrangler *)
Context (labels_Parse : string → outcome string ()) (RSplit : string → string → string * string).

Record WatchRequest := mkWatchRequest { wr_Revision : string; wr_ID : string; wr_Selector : string }.

Definition watch_options (apiOp : APIRequest) (w : WatchRequest) (selector : option string) : WatchOptions :=
  let idNamespace := (RSplit (wr_ID w) "/").1 in
  mkWatchOptions (wr_Revision w) (wr_ID w)
    (if bool_decide (idNamespace = "") then apiOp_Namespace apiOp else idNamespace) selector.

(** The cache is given back when the goroutine of the watch ([GoWatch]) has been started, which reads the cache later. *)
Definition watch (apiOp : APIRequest) (schema : APISchema) (w : WatchRequest) : program Cache :=
  '(inf, taken) ← cacheForWithDeps schema;
  deferred
    (selector ← lift (if bool_decide (wr_Selector w = "") then Ok None
       else _ ← wrap (λ e, EWrapped "invalid selector" (EMessage e)) (labels_Parse (wr_Selector w));
            Ok (Some (wr_Selector w)));
     ITree.bind (ITree.trigger (GoWatch inf (watch_options apiOp w selector))) (λ _, Ret (Ok inf)))
    (done_caches taken).

(** The same for [WatchNames], which then filters the events ([WatchPartitions]). *)
Definition Watch (apiOp : APIRequest) (schema : APISchema) (w : WatchRequest) : program Cache :=
  _ ← call (TableAdminClientForWatch schema); watch apiOp schema w.

(** ** The cache of namespaces *)

(** The columns are set in the attributes the schema shares with [baseNSSchema]. *)
Definition initializeNamespaceCache (nsSchema : APISchema) : program Cache :=
  nsSchema ← ITree.bind (ITree.trigger (SetColumns nsSchema)) (λ r, lift (wrap
    (EWrapped "failed to set columns for proxy stores namespace informer") r));
  client ← call (TableAdminClient nsSchema);
  spec ← lift (spec_of nsSchema client false true);
  call (CacheFor spec).

(** The result of [Reset], and the cache of namespaces of the store. *)
Definition Reset (namespaceCache : option Cache) (gvk : GroupVersionKind)
    : itree storeE (outcome error unit * option Cache) :=
  ITree.bind (match namespaceCache with
    | Some c => if bool_decide (gvk = namespaceGVK) then ITree.trigger (DoneWithCache c) else Ret tt
    | None => Ret tt
    end) (λ _,
  ITree.bind (ITree.trigger (Stop gvk)) (λ r,
    match r with
    | Err e => Ret (Err (EWrapped "reset" e), namespaceCache)
    | Panic => Ret (Panic, namespaceCache)
    | Ok _ =>
        if bool_decide (gvk = namespaceGVK) then
          ITree.bind (initializeNamespaceCache baseNSSchema) (λ r,
            match r with
            | Ok c => Ret (Ok tt, Some c)
            | Err e => Ret (Err e, namespaceCache)
            | Panic => Ret (Panic, namespaceCache)
            end)
        else Ret (Ok tt, namespaceCache)
    end)).

(** The store [NewProxyStore] makes: an error of the first initialization is only logged.
    [factory]: the factory given, or what making the default one gives. *)
Definition NewProxyStore (factory : outcome error unit) (needToInitNamespaceCache : bool)
    : program (option Cache) :=
  _ ← lift factory;
  if needToInitNamespaceCache then
    ITree.bind (initializeNamespaceCache baseNSSchema) (λ r,
      match r with Ok c => Ret (Ok (Some c)) | Err _ => Ret (Ok None) | Panic => Ret Panic end)
  else mret None.
End caches.
Arguments storeE : clear implicits.

(** * Specification *)
Section spec.
Context {Client Cache Item : Type} `{EqDecision Cache}.
Abbreviation event := (event (storeE Client Cache Item)).

(** The caches taken and not given back, the last one first: a cache is given back before those
    taken earlier, and only what is held is read, or handed to a goroutine that will read it. *)
Definition holding (s : list Cache) (e : event) : option (list Cache) :=
  match e with
  | mkEvent (CacheFor _) (Ok c) => Some (c :: s)
  | mkEvent (DoneWithCache c) _ =>
      match s with
      | c' :: s => if decide (c = c') then Some s else None
      | [] => None
      end
  | mkEvent (GetLatestResourceVersion c) _ | mkEvent (ListByOptions c _ _ _) _
  | mkEvent (GoWatch c _) _ => if decide (c ∈ s) then Some s else None
  | _ => Some s
  end.

(** However it ends, short of a panic, a program has given back what it has taken. *)
Definition gives_back {A} (m : prog (storeE Client Cache Item) error A) : Prop :=
  ∀ s l r, trace m l r → ∃ s', steps holding s l = Some s' ∧ ∀ a, r = Some a → a ≠ Panic → s' = s.

(** The lists of a run demand the label with the name of the user of the request. *)
Definition own_lists `{MapRange} `{FloatParser} (apiOp : APIRequest) (e : event) : Prop :=
  match e with
  | mkEvent (ListByOptions _ lo _ _) _ => ∃ name fs, UserFrom apiOp = Some name ∧
      sqltypes.lo_Filters lo = fs ++ [sqltypes.mkOrFilter
        [sqltypes.mkFilter ["metadata"; "labels"; "cattle.io/user-id"] [name] sqltypes.Eq false]] ∧
      SqlAccess.label_demanded "cattle.io/user-id" name lo
  | _ => True
  end.
End spec.

(** * Lemmas *)
Section lemmas.
Context {Client Cache Item : Type} `{EqDecision Cache, MapRange}.
Abbreviation program := (prog (storeE Client Cache Item) error).

Lemma hoare_lift {A} (P : list Cache → Prop) (m : outcome error A) Q :
  (∀ s, P s → Q m s) → hoare holding P (lift (Client := Client) (Item := Item) m) Q.
Proof. apply hoare_ret. Qed.

Lemma cacheFor_holds (s : list Cache) (schema : APISchema) :
  hoare holding (eq s) (cacheFor (Client := Client) (Item := Item) schema)
    (λ r s', s' = match r with Ok c => c :: s | _ => s end).
Proof.
  unfold cacheFor. apply hoare_prog_bind with (λ _ s', s' = s); [|intros client|by intros; subst..].
  { apply hoare_trigger. intros s' r <-. by exists s. }
  apply hoare_prog_bind with (λ _ s', s' = s); [|intros spec|by intros; subst..].
  { by apply hoare_lift. }
  apply hoare_bind with (λ r s', s' = match r with Ok c => c :: s | _ => s end).
  { apply hoare_trigger. intros s' r ->. destruct r as [c|e|]; by eexists. }
  intros r. apply hoare_ret. intros s' ->. by destruct r.
Qed.

Lemma done_caches_holds (s : list Cache) (taken : list Cache) :
  hoare holding (eq (taken ++ s)) (done_caches (Client := Client) (Item := Item) taken) (λ _ s', s' = s).
Proof.
  induction taken as [|c taken IH]; [by apply hoare_ret|].
  apply hoare_bind with (λ _ s', taken ++ s = s'); [|done].
  apply hoare_trigger. intros s' x <-. cbn. exists (taken ++ s). by rewrite decide_True.
Qed.

(** What it takes, it takes together: the caches it returns, or none after an error. *)
Lemma cacheForWithDeps_holds (s : list Cache) (schema : APISchema) :
  hoare holding (eq s) (cacheForWithDeps (Client := Client) (Item := Item) schema)
    (λ r s', match r with
             | Ok (inf, taken) => s' = taken ++ s ∧ inf ∈ taken
             | Err _ => s' = s
             | Panic => True
             end).
Proof.
  unfold cacheForWithDeps.
  apply hoare_prog_bind with (λ r s', match r with Ok deps => s' = deps ++ s | _ => s' = s end);
    [|intros deps|done..].
  { case_bool_decide; [|by apply hoare_ret; intros; subst].
    eapply hoare_prog_bind; [apply cacheFor_holds|intros c; by apply hoare_ret|done..]. }
  apply hoare_bind with (λ r s', s' = match r with Ok c => c :: deps ++ s | _ => deps ++ s end).
  { intros s' l r ->. by apply cacheFor_holds. }
  intros [inf|e|].
  - apply hoare_ret. intros s' ->. split; [done|left].
  - apply hoare_bind with (λ _ s', s' = s); [|intros _; by apply hoare_ret].
    eapply hoare_weaken; [apply (done_caches_holds s deps)|by intros|done].
  - by apply hoare_ret.
Qed.

(** With what [cacheForWithDeps] has taken, [m] runs, and it is given back. *)
Lemma with_caches_gives_back {A} (schema : APISchema) (m : Cache → program A) :
  (∀ inf s, inf ∈ s → hoare holding (eq s) (m inf) (λ _ s', s' = s)) →
  gives_back ('(inf, taken) ← cacheForWithDeps schema; deferred (m inf) (done_caches taken)).
Proof.
  intros Hm s l r Hl.
  assert (Hh : hoare holding (eq s) ('(inf, taken) ← cacheForWithDeps schema; deferred (m inf) (done_caches taken))
    (λ r s', r ≠ Panic → s' = s)).
  { eapply hoare_prog_bind; [apply cacheForWithDeps_holds| |done..].
    intros [inf taken]. intros s1 l1 r1 [-> Hin] Hl1.
    assert (Hd : hoare holding (eq (taken ++ s)) (deferred (m inf) (done_caches taken)) (λ _ s', s' = s)).
    { apply hoare_bind with (λ _ s', taken ++ s = s').
      - eapply hoare_weaken; [apply (Hm inf (taken ++ s))|done|done]. apply elem_of_app. by left.
      - intros a. apply hoare_bind with (λ _ s', s' = s); [apply done_caches_holds|].
        intros _. by apply hoare_ret. }
    destruct (Hd _ l1 r1 eq_refl Hl1) as (s' & Hs' & Ha). exists s'. split; [done|]. intros a Hr _. eauto. }
  destruct (Hh s l r eq_refl Hl) as (s' & Hs' & Ha). by exists s'.
Qed.

Lemma reads_holds {X} (s : list Cache) (e : storeE Client Cache Item X) :
  (∀ x, holding s (mkEvent e x) = Some s) →
  hoare holding (eq s) (ITree.trigger e) (λ _ s', s' = s).
Proof. intros He. apply hoare_trigger. intros s' x <-. by exists s. Qed.

Lemma list_cache_holds MissingRequired InvalidBodyContent apiOp gvk partitions (inf : Cache) s :
  inf ∈ s →
  hoare holding (eq s) (list_cache (Client := Client) (Item := Item) MissingRequired InvalidBodyContent
    apiOp gvk partitions inf) (λ _ s', s' = s).
Proof.
  intros Hin. unfold list_cache. destruct (wrap _ _) as [opts|e|]; [| |by apply hoare_ret].
  - apply hoare_prog_bind with (λ _ s', s' = s); [by apply hoare_lift|intros opts'|done..].
    apply hoare_bind with (λ _ s', s' = s).
    + eapply hoare_weaken; [apply (reads_holds s)|by intros|done]. intros x. cbn. by rewrite decide_True.
    + intros r. by apply hoare_ret.
  - case_bool_decide; [|by apply hoare_ret]. apply hoare_bind with (λ _ s', s' = s).
    + apply reads_holds. intros x. cbn. by rewrite decide_True.
    + intros r. by apply hoare_ret.
Qed.
End lemmas.

(** The lists of a program are those of its parts. *)
Section own.
Context {Client Cache Item : Type} `{EqDecision Cache, MapRange} `{FloatParser}.
Variable apiOp : APIRequest.
Abbreviation own := (own_lists (Client := Client) (Cache := Cache) (Item := Item) apiOp).

Lemma own_done (taken : list Cache) : all own (done_caches taken).
Proof.
  induction taken as [|c taken IH]; [apply all_ret|].
  apply all_bind; [by apply all_trigger|done].
Qed.
Lemma own_cacheFor (schema : APISchema) : all own (cacheFor schema).
Proof.
  apply all_prog_bind; [by apply all_trigger|]. intros client. apply all_prog_bind; [apply all_ret|].
  intros spec. apply all_bind; [by apply all_trigger|]. intros c. apply all_ret.
Qed.
Lemma own_cacheForWithDeps (schema : APISchema) : all own (cacheForWithDeps schema).
Proof.
  apply all_prog_bind.
  { case_bool_decide; [|apply all_ret]. apply all_prog_bind; [apply own_cacheFor|]. intros c. apply all_ret. }
  intros deps. apply all_bind; [apply own_cacheFor|]. intros [inf|e|]; [apply all_ret| |apply all_ret].
  apply all_bind; [apply own_done|]. intros _. apply all_ret.
Qed.
End own.

(** ** Fields *)
Lemma trimmed_column i :
  trimmed_field ("$.metadata.fields[" +:+ itoa i +:+ "]") = "metadata.fields[" +:+ itoa i +:+ "]".
Proof. reflexivity. Qed.

Lemma itoa_no_char c (i : nat) : is_digit c = false → has_char c (itoa (Z.of_nat i)) = false.
Proof. intros Hc. apply has_char_all_chars with is_digit; [|done]. apply itoa_digits. lia. Qed.

Lemma itoa_not_simple (i : nat) : simpleName_Match (itoa (Z.of_nat i)) = false.
Proof.
  pose proof (itoa_digits (Z.of_nat i) ltac:(lia)) as Hd.
  pose proof (itoa_nonempty (Z.of_nat i)) as Hn. destruct (itoa (Z.of_nat i)) as [|c r]; [done|].
  cbn in Hd. apply andb_true_iff in Hd as [Hd _]. cbn.
  enough (letter_or_underscore c = false) as -> by done. clear Hn.
  by destruct c as [[] [] [] [] [] [] [] []].
Qed.

(** The field of a numbered column and its name in the table. *)
Lemma numbered_split (i : nat) :
  ListProcessor.SafeSplit ("metadata.fields[" +:+ itoa (Z.of_nat i) +:+ "]") =
    Ok ["metadata"; "fields"; itoa (Z.of_nat i)].
Proof.
  change ("metadata.fields[" +:+ itoa (Z.of_nat i) +:+ "]")
    with ("metadata.fields" +:+ "[" +:+ itoa (Z.of_nat i) +:+ "]").
  by rewrite ListProcessor.SafeSplit_bracket.
Qed.
Lemma numbered_name (i : nat) :
  toColumnName ["metadata"; "fields"; itoa (Z.of_nat i)] = "metadata.fields[" +:+ itoa (Z.of_nat i) +:+ "]".
Proof.
  unfold toColumnName, smartJoin, Sanitize. cbn [list.last default from_option]. unfold id.
  rewrite itoa_not_simple. cbn [removelast join]. unfold join. cbn [String.concat].
  change ("metadata" +:+ "." +:+ "fields") with "metadata.fields".
  apply IndexFields.replace_char_none. rewrite !has_char_app, itoa_no_char by done. done.
Qed.

(** The guidance of the columns is the one of the last column of each name. *)
Lemma foldl_guidance (cols : list ColumnDefinition) g i col name :
  (∀ j c, cols !! j = Some c → trimmed_field (cd_Field c) = name → j = i) →
  cols !! i = Some col → trimmed_field (cd_Field col) = name → g !! name = None →
  foldl add_guidance g cols !! name =
    if bool_decide (col_type col = "string") then None else Some (col_type col).
Proof.
  revert g i. induction cols as [|c cols IH]; intros g i Huniq Hcol Hname Hg; [done|].
  assert (Hrest : ∀ g, (∀ j c, cols !! j = Some c → trimmed_field (cd_Field c) ≠ name) →
    foldl add_guidance g cols !! name = g !! name).
  { clear. induction cols as [|c cols IH]; intros g Hne; [done|]. cbn. rewrite IH.
    - unfold add_guidance. case_bool_decide; [done|]. apply lookup_insert_ne. by apply (Hne 0 c).
    - intros j c' Hc'. by apply (Hne (S j) c'). }
  cbn [foldl]. destruct i as [|i].
  - injection Hcol as ->. rewrite Hrest.
    + unfold add_guidance. case_bool_decide; [done|]. by rewrite Hname, lookup_insert_eq.
    + intros j c' Hc' Hn. specialize (Huniq (S j) c' Hc' Hn). lia.
  - apply (IH _ i); [|done..|].
    + intros j c' Hc' Hn. specialize (Huniq (S j) c' Hc' Hn). lia.
    + unfold add_guidance. destruct (bool_decide (col_type c = "string")); [done|].
      rewrite lookup_insert_ne; [done|].
      intros Hn. specialize (Huniq 0 c eq_refl Hn). lia.
Qed.

Lemma numbered_inj (i j : nat) :
  "metadata.fields[" +:+ itoa (Z.of_nat i) +:+ "]" = "metadata.fields[" +:+ itoa (Z.of_nat j) +:+ "]" → i = j.
Proof.
  intros Heq. apply (f_equal ListProcessor.SafeSplit) in Heq. rewrite !numbered_split in Heq.
  injection Heq as Heq%(inj _). lia.
Qed.

(** * Theorems *)

(** The goroutine of a watch is started with a cache that is given back next. *)
Lemma watch_unheld {Client Cache Item : Type} labels_Parse RSplit apiOp schema w l (inf : Cache) :
  trace (Watch (Client := Client) (Item := Item) labels_Parse RSplit apiOp schema w) l (Some (Ok inf)) →
  ∃ l1 opts x y l2, l = l1 ++ mkEvent (GoWatch inf opts) x :: mkEvent (DoneWithCache inf) y :: l2.
Proof.
  unfold Watch. intros [[_ ?]|[(e & _ & [?|?])|[[_ [?|?]]|(l1 & cl & l2 & -> & _ & Hl)]]]%trace_prog_bind; try done.
  unfold watch in Hl.
  apply trace_prog_bind in Hl as [[_ ?]|[(e & _ & [?|?])|[[_ [?|?]]|(l3 & [c taken] & l4 & -> & Hc & Hl)]]]; try done.
  assert (∃ deps, taken = c :: deps) as [deps ->].
  { unfold cacheForWithDeps in Hc.
    apply trace_prog_bind in Hc as [[_ ?]|[(e & _ & [?|?])|[[_ [?|?]]|(l5 & deps & l6 & -> & _ & Hc)]]]; try done.
    apply trace_bind in Hc as [[_ ?]|(l7 & [c'|e|] & l8 & -> & _ & Hc)]; [done|..].
    - apply trace_Ret in Hc as [_ [?|Hr]]; [done|]. simplify_eq. by exists deps.
    - apply trace_bind in Hc as [[_ ?]|(l9 & u & l10 & -> & _ & Hc)]; [done|].
      by apply trace_Ret in Hc as [_ [?|?]].
    - by apply trace_Ret in Hc as [_ [?|?]]. }
  unfold deferred in Hl. apply trace_bind in Hl as [[_ ?]|(l5 & a & l6 & -> & Ha & Hl)]; [done|].
  apply trace_bind in Hl as [[_ ?]|(l7 & u & l8 & -> & Hd & Hl)]; [done|].
  apply trace_Ret in Hl as [-> [?|[= <-]]]; [done|].
  apply trace_prog_bind in Ha as [[_ ?]|[(e & _ & [?|?])|[[_ [?|?]]|(l9 & sel & l10 & -> & _ & Ha)]]]; try done.
  apply trace_bind in Ha as [[_ ?]|(l11 & x & l12 & -> & Hg & Ha)]; [done|].
  apply trace_Ret in Ha as [-> [?|[= <-]]]; [done|].
  apply trace_trigger in Hg as [[_ ?]|(x' & -> & _)]; [done|].
  cbn in Hd. apply trace_bind in Hd as [[_ ?]|(l13 & y & l14 & -> & Hy & _)]; [done|].
  apply trace_trigger in Hy as [[_ ?]|(y' & -> & _)]; [done|].
  eexists (l1 ++ l3 ++ l9), _, x', y', l14. rewrite <-!app_assoc. cbn. by rewrite ?app_nil_r.
Qed.

(** C16: A list, and the start of a watch, give back every cache they take, the cache of a type it depends on after the cache
    of the type, whatever fails on the way; a list reads a cache only while it holds it, and a watch holds the cache
    when it starts the goroutine that will read it. But it gives the cache back at once: a watch that was started no
    longer holds the cache that its goroutine reads from then on. *)
Theorem requests_give_back_caches {Client Cache Item : Type} `{EqDecision Cache, MapRange}
    MissingRequired InvalidBodyContent labels_Parse RSplit apiOp schema partitions w :
  gives_back (ListByPartitions (Client := Client) (Cache := Cache) (Item := Item)
    MissingRequired InvalidBodyContent apiOp schema partitions) ∧
  gives_back (Watch (Client := Client) (Cache := Cache) (Item := Item) labels_Parse RSplit apiOp schema w) ∧
  ∀ l inf, trace (Watch (Client := Client) (Cache := Cache) (Item := Item) labels_Parse RSplit apiOp schema w)
      l (Some (Ok inf)) →
    ∃ l1 opts x y l2, l = l1 ++ mkEvent (GoWatch inf opts) x :: mkEvent (DoneWithCache inf) y :: l2.
Proof.
  split; [|split; [|apply watch_unheld]].
  - apply with_caches_gives_back. intros inf s. apply list_cache_holds.
  - assert (Hw : gives_back (watch (Client := Client) (Cache := Cache) (Item := Item) labels_Parse RSplit apiOp schema w)).
    { apply (with_caches_gives_back schema (λ inf, _)). intros inf s Hin.
      apply hoare_prog_bind with (λ _ s', s' = s); [by apply hoare_lift|intros selector|done..].
      apply hoare_bind with (λ _ s', s' = s); [|intros _; by apply hoare_ret].
      eapply hoare_weaken; [apply (reads_holds s)|by intros|done]. intros x. cbn. by rewrite decide_True. }
    intros s l r Hl. unfold Watch in Hl.
    assert (Hh : hoare holding (eq s) (call (TableAdminClientForWatch schema) ≫= λ _ : Client,
        watch (Client := Client) (Cache := Cache) (Item := Item) labels_Parse RSplit apiOp schema w)
      (λ r s', r ≠ Panic → s' = s)).
    { apply hoare_prog_bind with (λ _ s', s' = s); [|intros _|done..].
      - apply hoare_trigger. intros s' x <-. by exists s.
      - intros s1 l1 r1 -> Hl1. destruct (Hw s _ _ Hl1) as (s2 & ? & ?). by exists s2; eauto. }
    destruct (Hh s l r eq_refl Hl) as (s' & Hs' & Ha). by exists s'.
Qed.

(** C15: A list of the tokens or kubeconfigs of a cluster, unless the access set of the user grants to list every resource
    of the core group, asks the cache only with options that demand the label cattle.io/user-id with the name of the user
    (escaped as for a pattern): in every query for them the WHERE clause tests it. Without a user nothing is listed. *)
Theorem tokens_of_user {Client Cache Item : Type} `{EqDecision Cache, MapRange} `{FloatParser}
    MissingRequired InvalidBodyContent apiOp schema partitions l r :
  Group (S_GVK schema) = "ext.cattle.io" → Kind (S_GVK schema) = "Token" ∨ Kind (S_GVK schema) = "Kubeconfig" →
  (∀ a, AccessSetFromAPIRequest apiOp = Some a → AccessSet_Grants a "list" (mkGR "" "*") "" "" = false) →
  trace (ListByPartitions (Client := Client) (Cache := Cache) (Item := Item)
    MissingRequired InvalidBodyContent apiOp schema partitions) l r →
  Forall (own_lists apiOp) l.
Proof.
  intros Hg Hk Hacc. revert l r.
  change (all (own_lists apiOp) (ListByPartitions (Client := Client) (Cache := Cache) (Item := Item)
    MissingRequired InvalidBodyContent apiOp schema partitions)).
  assert (is_token (S_GVK schema) = true) as Ht.
  { unfold is_token. rewrite andb_true_iff, orb_true_iff, !bool_decide_eq_true. done. }
  assert (lists_all (AccessSetFromAPIRequest apiOp) = false) as Ha.
  { unfold lists_all. destruct (AccessSetFromAPIRequest apiOp); [by apply Hacc|done]. }
  apply all_prog_bind; [apply own_cacheForWithDeps|]. intros [inf taken].
  apply all_bind; [|intros a; apply all_bind; [apply own_done|intros _; apply all_ret]].
  unfold list_cache. destruct (wrap _ _) as [opts|e|]; [| |apply all_ret].
  - unfold own_tokens. rewrite Ht, Ha. cbn. destruct (UserFrom apiOp) as [name|] eqn:Hu.
    + apply (all_prog_bind_returns _ (λ lo, sqltypes.lo_Filters lo = sqltypes.lo_Filters opts ++ [user_filter name])).
      * apply all_ret.
      * by apply returns_ret.
      * intros lo Hlo. apply all_bind; [|intros x; apply all_ret].
        apply all_trigger. intros x. exists name, (sqltypes.lo_Filters opts). split_and!; [done..|].
        by eapply SqlAccess.last_label_filter.
    + apply (all_prog_bind_returns _ (λ _, False)); [apply all_ret| |done].
      by intros l a [_ [?|?]]%trace_Ret.
  - case_bool_decide; [|apply all_ret]. apply all_bind; [by apply all_trigger|]. intros x. apply all_ret.
Qed.

(** Every numbered column of a schema is a column of its table, with the type the guidance gives
    for its name: an integer for numbers, for booleans and for what the description calls a
    number of things; the types the store knows come first. *)
Theorem guidance_of_columns schema cols i col :
  S_Columns schema = Some cols → cols !! i = Some col →
  (∀ j c, cols !! j = Some c → cd_Field c = "$.metadata.fields[" +:+ itoa (Z.of_nat j) +:+ "]") →
  ∃ fields guidance,
    getFieldAndColInfo schema (S_GVK schema) = Ok (fields, Some cols, guidance) ∧
    (toColumnName <$> fields) !! i = Some (trimmed_field (cd_Field col)) ∧
    guidance !! trimmed_field (cd_Field col) =
      match default ∅ (typeGuidanceTable !! S_GVK schema) !! trimmed_field (cd_Field col) with
      | Some t => Some t
      | None => if bool_decide (col_type col = "string") then None else Some (col_type col)
      end.
Proof.
  intros Hcols Hcol Hnum. unfold getFieldAndColInfo. rewrite Hcols.
  assert (Hfields : map_outcome (λ col, ListProcessor.SafeSplit (trimmed_field (cd_Field col))) cols =
    Ok (imap (λ j _, ["metadata"; "fields"; itoa (Z.of_nat j)]) cols)).
  { clear Hcol Hcols. assert (Hgen : ∀ n cols, (∀ j c, cols !! j = Some c →
        cd_Field c = "$.metadata.fields[" +:+ itoa (Z.of_nat (n + j)) +:+ "]") →
      map_outcome (λ col, ListProcessor.SafeSplit (trimmed_field (cd_Field col))) cols =
      Ok (imap (λ j _, ["metadata"; "fields"; itoa (Z.of_nat (n + j))]) cols)); [|by apply (Hgen 0)].
    clear. intros n cols. revert n. induction cols as [|c cols IH]; intros n Hnum; [done|].
    cbn [map_outcome imap]. rewrite (Hnum 0 c eq_refl), trimmed_column, numbered_split. cbn [mbind outcome_bind].
    rewrite (IH (S n)).
    - cbn. do 2 f_equal. apply imap_ext. intros j x _. unfold compose. repeat f_equal. lia.
    - intros j c' Hc'. rewrite (Hnum (S j) c' Hc'). by rewrite Nat.add_succ_r. }
  rewrite Hfields. eexists _, _. split; [done|].
  rewrite (Hnum i col Hcol), trimmed_column. split.
  - rewrite list_lookup_fmap, list_lookup_imap, Hcol. exact (f_equal Some (numbered_name i)).
  - unfold getTypeGuidance. rewrite lookup_union.
    rewrite (foldl_guidance cols ∅ i col).
    2: { intros j c Hc. rewrite (Hnum j c Hc), trimmed_column. apply numbered_inj. }
    2: done. 2: { by rewrite (Hnum i col Hcol). } 2: done.
    destruct (default ∅ (typeGuidanceTable !! S_GVK schema) !! _) as [t|]; cbn; [by case_bool_decide|].
    by case_bool_decide.
Qed.

Section reset.
Context {Client Cache Item : Type} `{EqDecision Cache}.
Abbreviation ResetS := (Reset (Client := Client) (Cache := Cache) (Item := Item)).

Lemma initialize_holds (s : list Cache) nsSchema :
  hoare holding (eq s) (initializeNamespaceCache (Client := Client) (Cache := Cache) (Item := Item) nsSchema)
    (λ r s', s' = match r with Ok c => c :: s | _ => s end).
Proof.
  unfold initializeNamespaceCache. 
  apply hoare_prog_bind with (λ _ s', s' = s); [|intros schema|by intros; subst..].
  { apply hoare_bind with (λ _ s', s' = s); [|intros r; by apply hoare_lift].
    apply hoare_trigger. intros s' r <-. by exists s. }
  apply hoare_prog_bind with (λ _ s', s' = s); [|intros client|by intros; subst..].
  { apply hoare_trigger. intros s' r ->. by exists s. }
  apply hoare_prog_bind with (λ _ s', s' = s); [by apply hoare_lift|intros spec|by intros; subst..].
  apply hoare_trigger. intros s' r ->. destruct r as [c|e|]; by eexists.
Qed.

Definition kept (namespaceCache : option Cache) : list Cache := option_list namespaceCache.

Lemma Reset_holds namespaceCache gvk :
  hoare holding (eq (kept namespaceCache)) (ResetS namespaceCache gvk) (λ r s',
    match r with
    | (Ok _, namespaceCache') => s' = kept namespaceCache' ∧ (gvk = namespaceGVK → is_Some namespaceCache') ∧
        (gvk ≠ namespaceGVK → namespaceCache' = namespaceCache)
    | (_, namespaceCache') => namespaceCache' = namespaceCache ∧
        s' = if bool_decide (gvk = namespaceGVK) then [] else kept namespaceCache
    end).
Proof.
  unfold Reset. apply hoare_bind with (λ _ s', s' = if bool_decide (gvk = namespaceGVK) then [] else kept namespaceCache).
  { destruct namespaceCache as [c|]; [case_bool_decide|].
    - apply hoare_trigger. intros s' x <-. cbn. exists []. by rewrite decide_True.
    - apply hoare_ret. by intros s' <-.
    - apply hoare_ret. intros s' <-. by case_bool_decide. }
  intros _. apply hoare_bind with (λ _ s', s' = if bool_decide (gvk = namespaceGVK) then [] else kept namespaceCache).
  { apply hoare_trigger. intros s' x ->. by eexists. }
  intros [u|e|]; [|by apply hoare_ret..]. case_bool_decide as Hgvk; [|by apply hoare_ret; auto].
  apply hoare_bind with (λ r s', s' = match r with Ok c => [c] | _ => [] end).
  { eapply hoare_weaken; [apply (initialize_holds [])|by intros|done]. }
  intros [c|e|]; apply hoare_ret; intros s' ->; [|by split..].
  by split_and!.
Qed.

(** A run of a call that goes on makes the call first. *)
Lemma trace_call {E : Type → Type} {X R} (e : E X) (k : X → itree E R) l r :
  trace (ITree.bind (ITree.trigger e) k) l r → l ≠ [] → ∃ x l', l = mkEvent e x :: l'.
Proof.
  intros [[Hl ->]|(l1 & x & l2 & -> & Hl1 & _)]%trace_bind Hne.
  - apply trace_trigger in Hl as [[-> _]|(x & -> & _)]; [done|eauto].
  - apply trace_trigger in Hl1 as [[_ ?]|(y & -> & _)]; [done|]. eexists _, _. reflexivity.
Qed.

(** A reset that finds a cache the store does not hold gives it back all the same. *)
Lemma Reset_again c l r : l ≠ [] → trace (ResetS (Some c) namespaceGVK) l r → steps holding [] l = None.
Proof.
  intros Hne Hl. unfold Reset in Hl. rewrite bool_decide_eq_true_2 in Hl by done.
  by apply trace_call in Hl as (x & l' & ->).
Qed.
End reset.

(** A reset of the type of namespaces that succeeds gives back the cache of namespaces the store
    held and leaves it with exactly one new one, and a reset of another type leaves it alone; but
    after one that fails the store keeps the cache it has given back, and the next reset gives it
    back once more. *)
Theorem Reset_namespace_cache {Client Cache Item : Type} `{EqDecision Cache} (namespaceCache : option Cache) gvk l r c' :
  trace (Reset (Client := Client) (Item := Item) namespaceCache gvk) l (Some (r, c')) →
  (r = Ok tt → steps holding (kept namespaceCache) l = Some (kept c') ∧
    (gvk = namespaceGVK → is_Some c') ∧ (gvk ≠ namespaceGVK → c' = namespaceCache)) ∧
  (r ≠ Ok tt → c' = namespaceCache ∧
    (gvk ≠ namespaceGVK → steps holding (kept namespaceCache) l = Some (kept c')) ∧
    (gvk = namespaceGVK → steps holding (kept namespaceCache) l = Some [] ∧
      ∀ l' r', is_Some c' → l' ≠ [] →
        trace (Reset (Client := Client) (Item := Item) c' namespaceGVK) l' r' → steps holding [] l' = None)).
Proof.
  intros Hl. destruct (Reset_holds (Client := Client) (Item := Item) namespaceCache gvk _ l _ eq_refl Hl) as (s' & Hs' & Hq).
  specialize (Hq _ eq_refl). cbn in Hq. split.
  - intros ->. by destruct Hq as (-> & Hsome & Hsame).
  - intros Hr. assert (c' = namespaceCache ∧
      s' = if bool_decide (gvk = namespaceGVK) then [] else kept namespaceCache) as [-> ->].
    { destruct r as [[]|e|]; [done|exact Hq..]. }
    split; [done|]. case_bool_decide as Hgvk; [|done]. split; [done|]. intros _. split; [done|].
    intros l' r' [c ->] Hne Hl'. by eapply Reset_again.
Qed.

(** * A store with numbered caches *)
Module ProxyExample.
Import GoLib.Concrete SqlExample.
#[local] Existing Instance canonical_range.
Abbreviation storeN := (storeE unit nat string).

(** Every cache is new; [fails] tells which resets of the factory fail. *)
Definition taken (l : list (event storeN)) : nat :=
  length (List.filter (λ e, match e with mkEvent (CacheFor _) _ => true | _ => false end) l).
Definition server (stop_fails : bool) (X : Type) (e : storeN X) (l : list (event storeN)) : X :=
  match e in storeE _ _ _ X return X with
  | SetColumns schema => Ok schema
  | TableAdminClient _ | TableAdminClientForWatch _ => Ok tt
  | CacheFor _ => Ok (taken l)
  | DoneWithCache _ | GoWatch _ _ => tt
  | Stop _ => if stop_fails then Err (EMessage "database is locked") else Ok tt
  | GetLatestResourceVersion _ => ["17"]
  | ListByOptions _ _ _ _ => Ok (mkListing ["obj"] (Some "17") 1 "")
  end.

Definition token_schema : APISchema :=
  mkSchema "ext.cattle.io.token" (mkGVK "ext.cattle.io" "v1" "Token") "tokens" false false ["list"; "watch"] None.
Definition alice : APIRequest := mkRequest ∅ "" (Some empty_AccessSet) (Some "u-alice").
Definition list_tokens (apiOp : APIRequest) : list (event storeN) * option (outcome error (list_result (Item := string))) :=
  run (server false) 40 (ListByPartitions (422, "MissingRequired")%Z (422, "InvalidBodyContent")%Z apiOp
    token_schema []) [].

Lemma tokens_of_user_witness :
  (list_tokens alice).2 = Some (Ok (mkListing ["obj"] (Some "17") 1 "")) ∧
  Forall (own_lists alice) (list_tokens alice).1.
Proof.
  split; [vm_compute; reflexivity|].
  apply (tokens_of_user (422, "MissingRequired")%Z (422, "InvalidBodyContent")%Z alice token_schema []
    (list_tokens alice).1 (list_tokens alice).2).
  - reflexivity.
  - by left.
  - intros a Ha. injection Ha as <-. vm_compute. reflexivity.
  - apply (run_trace (server false)).
Defined.

(** A user who may list every resource of the core group lists the tokens of everyone. *)
Definition core_reader : AccessSet := AccessSet_Add empty_AccessSet "list" (mkGR "" "*") (mkAccess "*" "*").
Example core_reader_lists_all :
  lists_all (Some core_reader) = true ∧
  AccessSet_Grants core_reader "list" (mkGR "ext.cattle.io" "tokens") "" "" = false.
Proof. split; vm_compute; reflexivity. Qed.

(** The exact filter escapes the name: a user with an underscore has no tokens. *)
Example underscore_escaped :
  getLabelFilter 1 (sqltypes.mkFilter ["metadata"; "labels"; "cattle.io/user-id"] ["u_1"] sqltypes.Eq false) "db" =
  Ok ("lt1.label = ? AND lt1.value = ?", [PString "cattle.io/user-id"; PString "u\_1"]).
Proof. reflexivity. Qed.

(** A watch of tokens has no such filter. *)
Example watch_unfiltered :
  (run (server false) 40 (Watch (λ _, Ok ()) (λ s _, ("", s)) alice token_schema
     (mkWatchRequest "" "" "")) []).1 !! 3 =
  Some (mkEvent (GoWatch 0 (mkWatchOptions "" "" "" None) : storeN unit) tt).
Proof. vm_compute. reflexivity. Qed.

(** The cache of management clusters that a list of provisioning clusters takes has no columns,
    and is polled instead of watched. *)
Example management_clusters_polled :
  ∃ fields external self client guidance namespaced,
    (run (server false) 40 (cacheForWithDeps (mkSchema "provisioning.cattle.io.cluster" pcioClusterGvk "clusters"
       true true ["list"; "watch"] None)) []).1 !! 1 =
    Some (mkEvent (CacheFor (mkSpec fields external self None false client
      (mkGVK "management.cattle.io" "v3" "Cluster") guidance namespaced false) : storeN _) (Ok 0)).
Proof. do 6 eexists. vm_compute. reflexivity. Qed.

(** The columns of secrets: the number of data entries is a number. *)
Definition secret_columns : list ColumnDefinition :=
  [mkColumn "Name" "string" "" "Name must be unique" "$.metadata.fields[0]";
   mkColumn "Type" "string" "" "Used to facilitate programmatic handling" "$.metadata.fields[1]";
   mkColumn "Data" "string" "" "Data contains the secret data" "$.metadata.fields[2]"].
Definition secrets : APISchema :=
  mkSchema "secret" (mkGVK "" "v1" "Secret") "secrets" true false ["list"; "watch"] (Some secret_columns).
Lemma guidance_of_columns_witness :
  ∃ fields guidance, getFieldAndColInfo secrets (S_GVK secrets) = Ok (fields, Some secret_columns, guidance) ∧
    (toColumnName <$> fields) !! 2 = Some "metadata.fields[2]" ∧ guidance !! "metadata.fields[2]" = Some "INT".
Proof.
  apply (guidance_of_columns secrets secret_columns 2
    (mkColumn "Data" "string" "" "Data contains the secret data" "$.metadata.fields[2]")).
  - reflexivity.
  - reflexivity.
  - intros [|[|[|j]]] c Hc; [injection Hc as <-; reflexivity..|]. discriminate Hc.
Defined.

(** Every type the store knows is the one of an indexed field or of a numbered column. *)
Example known_types_indexed :
  forallb (λ '(gvk, types), forallb (λ name,
      existsb (String.eqb name) (toColumnName <$> getFieldForGVK gvk) ||
      String.prefix "metadata.fields[" name) (map_to_list types).*1) (map_to_list typeGuidanceTable) = true.
Proof. vm_compute. reflexivity. Qed.

(** A reset that fails, and the next one: the same cache is given back twice. *)
Definition reset (stop_fails : bool) (c : option nat) : list (event storeN) * option (outcome error () * option nat) :=
  run (server stop_fails) 40 (Reset c namespaceGVK) [].
Lemma Reset_namespace_cache_witness :
  (reset true (Some 7)).2 = Some (Err (EWrapped "reset" (EMessage "database is locked")), Some 7) ∧
  steps holding [7] (reset true (Some 7)).1 = Some [] ∧ steps holding [] (reset false (Some 7)).1 = None.
Proof.
  destruct (Reset_namespace_cache (Some 7) namespaceGVK (reset true (Some 7)).1
    (Err (EWrapped "reset" (EMessage "database is locked"))) (Some 7)) as (_ & Hr).
  - exact (run_trace (server true) 40 (Reset (Some 7) namespaceGVK) []).
  - destruct Hr as (_ & _ & Hns); [done|]. destruct (Hns eq_refl) as (Hs & Hagain).
    split_and!; [vm_compute; reflexivity|exact Hs|].
    apply (Hagain (reset false (Some 7)).1 (reset false (Some 7)).2); [by eexists|by vm_compute|].
    exact (run_trace (server false) 40 (Reset (Some 7) namespaceGVK) []).
Defined.
End ProxyExample.
