(* ===== verification/SchemaTracker.v ===== *)
(** * Resetting informers when schemas change: pkg/sqlcache/schematracker/schema.go

    The tracker remembers the columns of every type of the last collection of schemas it
    was given, and resets the informers of the types that are new, gone or have other
    columns now. *)
From S2P Require Import Prelude GoLib AccessControl Schemas.

Section tracker.
Context `{MapRange, APISchemas, LRUCache, AccessSetLookup}.
(* [ColumnDefinition] with Go's equality, and [common.GetColumnDefinitions] *)
Context {Column : Type} `{EqDecision Column} (GetColumnDefinitions : APISchema → list Column).
(* [Resetter.Reset]: its error, if there is one *)
Context (Resetter_Reset : GVR → option string).

Abbreviation known_schemas := (gmap GVR (list Column)).

Record tracking := mkTracking {
  tr_known : known_schemas;       (* of the new schemas *)
  tr_needsReset : gmap GVR ();
  tr_deleted : gmap GVR ()
}.

(** A turn of the loop over the IDs. *)
Definition track (known : known_schemas) (schemas : Collection) (st : tracking) (id : string) : tracking :=
  match Schema id schemas with
  | None => st
  | Some theSchema =>
      let gvk := schema_GVK theSchema in
      let cols := GetColumnDefinitions theSchema in
      let needsReset :=
        match known !! gvk with
        | Some oldCols => if bool_decide (cols = oldCols) then tr_needsReset st
                          else <[gvk := ()]> (tr_needsReset st)
        | None => <[gvk := ()]> (tr_needsReset st)
        end in
      mkTracking (<[gvk := cols]> (tr_known st)) needsReset (delete gvk (tr_deleted st))
  end.

(** The types that are reset, in their order, the errors and the new state. *)
Definition OnSchemas (schemas : Collection) (known : known_schemas)
    : list GVR * list string * known_schemas :=
  let deletedSchemas := foldl (λ m gvk, <[gvk := ()]> m) ∅ (range_keys known) in
  let st := foldl (track known schemas) (mkTracking ∅ ∅ deletedSchemas) (IDs schemas) in
  let needsReset := foldl (λ m gvk, <[gvk := ()]> m) (tr_needsReset st) (range_keys (tr_deleted st)) in
  let resets := range_keys needsReset in
  (resets, omap Resetter_Reset resets, tr_known st).

(** * Lemmas *)

(** The schemas that the loop finds. *)
Definition tracked (schemas : Collection) (ids : list string) : list APISchema :=
  omap (λ id, Schema id schemas) ids.

Lemma foldl_insert_unit (l : list GVR) (m : gmap GVR ()) gvk :
  is_Some (foldl (λ m gvk, <[gvk := ()]> m) m l !! gvk) ↔ is_Some (m !! gvk) ∨ gvk ∈ l.
Proof.
  rewrite (foldl_or (λ m : gmap GVR (), is_Some (m !! gvk)) (λ x, x = gvk)).
  - f_equiv. naive_solver.
  - intros m' x _. rewrite lookup_insert_is_Some'. tauto.
Qed.

Lemma track_loop known schemas ids st gvk :
  let st' := foldl (track known schemas) st ids in
  let found := tracked schemas ids in
  (is_Some (tr_needsReset st' !! gvk) ↔ is_Some (tr_needsReset st !! gvk) ∨
     ∃ s, s ∈ found ∧ schema_GVK s = gvk ∧ known !! gvk ≠ Some (GetColumnDefinitions s)) ∧
  (is_Some (tr_deleted st' !! gvk) ↔ is_Some (tr_deleted st !! gvk) ∧ gvk ∉ (schema_GVK <$> found)) ∧
  (tr_known st' !! gvk = match list.last (filter (λ s, schema_GVK s = gvk) found) with
                         | Some s => Some (GetColumnDefinitions s) | None => tr_known st !! gvk end).
Proof.
  revert st. induction ids as [|id ids IH]; intros st; cbn [foldl].
  - cbn. rewrite elem_of_nil. setoid_rewrite elem_of_nil. split_and!; [naive_solver|naive_solver|done].
  - cbn zeta in IH |- *. destruct (IH (track known schemas st id)) as (Hn & Hd & Hk). rewrite Hn, Hd, Hk.
    clear Hn Hd Hk IH. unfold track, tracked. cbn [omap list_omap].
    destruct (Schema id schemas) as [s|] eqn:Hs; [|done]. cbn [tr_needsReset tr_deleted tr_known].
    fold (tracked schemas ids). set (found := tracked schemas ids). split_and!.
    + setoid_rewrite elem_of_cons.
      assert (Hstep : is_Some (match known !! schema_GVK s with
        | Some oldCols => if bool_decide (GetColumnDefinitions s = oldCols) then tr_needsReset st
                          else <[schema_GVK s := ()]> (tr_needsReset st)
        | None => <[schema_GVK s := ()]> (tr_needsReset st) end !! gvk) ↔
        is_Some (tr_needsReset st !! gvk) ∨ schema_GVK s = gvk ∧ known !! gvk ≠ Some (GetColumnDefinitions s)).
      { destruct (known !! schema_GVK s) as [old|] eqn:Hold; [case_bool_decide|]; rewrite ?lookup_insert_is_Some';
          naive_solver. }
      rewrite Hstep. naive_solver.
    + rewrite lookup_delete_is_Some, fmap_cons, not_elem_of_cons. naive_solver.
    + rewrite list.filter_cons. case_decide as Hg.
      * rewrite list.last_cons. destruct (list.last (filter _ found)); [done|]. by rewrite <- Hg, lookup_insert_eq.
      * destruct (list.last (filter _ found)); [done|]. by rewrite lookup_insert_ne.
Qed.

(** The schemas of a collection that an index by resource leads to. *)
Definition indexed (schemas : Collection) (s : APISchema) : Prop :=
  ∃ gvr id, c_byGVR schemas !! gvr = Some id ∧ Schema id schemas = Some s.

Lemma elem_of_IDs schemas id : id ∈ IDs schemas ↔ ∃ gvr, c_byGVR schemas !! gvr = Some id.
Proof.
  unfold IDs.
  assert (Hl : ∀ (l : list (GVR * string)) (seen : gset string) result, (∀ x, x ∈ seen ↔ x ∈ result) →
    id ∈ (foldl (λ '(seen, result) '(_, id),
      if bool_decide (id ∈ (seen : gset string)) then (seen, result) else ({[id]} ∪ seen, result ++ [id]))
      (seen, result) l).2 ↔ id ∈ result ∨ id ∈ l.*2).
  { induction l as [|[g x] l IH]; intros seen result Hsr; cbn [foldl].
    - cbn. rewrite elem_of_nil. tauto.
    - case_bool_decide as Hx; rewrite IH; rewrite ?fmap_cons, ?elem_of_cons; cbn [snd].
      + rewrite Hsr in Hx. naive_solver.
      + done.
      + rewrite elem_of_app, list_elem_of_singleton. tauto.
      + intros y. rewrite elem_of_union, elem_of_app, elem_of_singleton, list_elem_of_singleton, Hsr. tauto. }
  rewrite Hl by (intros x; by rewrite elem_of_empty, elem_of_nil). rewrite elem_of_nil, list_elem_of_fmap.
  split.
  - intros [[]|([gvr x] & -> & Hin)]. exists gvr. by apply elem_of_range_map.
  - intros [gvr Hg]. right. exists (gvr, id). by rewrite elem_of_range_map.
Qed.

Lemma elem_of_tracked schemas s : s ∈ tracked schemas (IDs schemas) ↔ indexed schemas s.
Proof.
  unfold tracked, indexed. rewrite list_elem_of_omap. setoid_rewrite elem_of_IDs. naive_solver.
Qed.

(** Schemas of the same type have the same columns. *)
Definition columns_agree (schemas : Collection) : Prop :=
  ∀ s1 s2, indexed schemas s1 → indexed schemas s2 → schema_GVK s1 = schema_GVK s2 →
    GetColumnDefinitions s1 = GetColumnDefinitions s2.

Lemma OnSchemas_known schemas known gvk cols : columns_agree schemas →
  (OnSchemas schemas known).2 !! gvk = Some cols ↔
  ∃ s, indexed schemas s ∧ schema_GVK s = gvk ∧ GetColumnDefinitions s = cols.
Proof.
  intros Hagree. unfold OnSchemas. cbn [snd]. set (deleted := foldl _ ∅ (range_keys known)).
  destruct (track_loop known schemas (IDs schemas) (mkTracking ∅ ∅ deleted) gvk) as (_ & _ & ->).
  cbn [tr_known]. rewrite lookup_empty. set (same := filter _ _).
  assert (Hsame : ∀ s, s ∈ same ↔ schema_GVK s = gvk ∧ indexed schemas s).
  { intros s. subst same. by rewrite list.list_elem_of_filter, elem_of_tracked. }
  destruct (list.last same) as [s|] eqn:Hlast.
  - assert (Hs : s ∈ same) by (by apply list.last_Some_elem_of). apply Hsame in Hs as [Hg Hi]. split.
    + intros [= <-]. by exists s.
    + intros (s' & Hi' & Hg' & <-). f_equal. apply Hagree; [done..|congruence].
  - apply list.last_None in Hlast. split; [done|]. intros (s & Hi & Hg & _).
    assert (Hs : s ∈ same) by (by apply Hsame). rewrite Hlast in Hs. by apply elem_of_nil in Hs.
Qed.

Lemma elem_of_resets schemas known gvk :
  gvk ∈ (OnSchemas schemas known).1.1 ↔
  (∃ s, indexed schemas s ∧ schema_GVK s = gvk ∧ known !! gvk ≠ Some (GetColumnDefinitions s)) ∨
  (is_Some (known !! gvk) ∧ ¬ ∃ s, indexed schemas s ∧ schema_GVK s = gvk).
Proof.
  unfold OnSchemas. cbn [fst]. rewrite elem_of_range_keys, foldl_insert_unit, elem_of_range_keys.
  set (deleted := foldl _ ∅ (range_keys known)).
  destruct (track_loop known schemas (IDs schemas) (mkTracking ∅ ∅ deleted) gvk) as (-> & -> & _).
  cbn [tr_needsReset tr_deleted]. rewrite lookup_empty, is_Some_None_iff.
  subst deleted. rewrite foldl_insert_unit, elem_of_range_keys, lookup_empty, is_Some_None_iff.
  rewrite list_elem_of_fmap. setoid_rewrite elem_of_tracked. naive_solver.
Qed.

(** When schemas change, exactly the types are reset whose columns differ from those
    remembered, new and deleted types included, each once, also when others fail; the
    columns of the new schemas are remembered, and every error is reported. *)
Theorem OnSchemas_resets schemas known :
  columns_agree schemas →
  let '(resets, errs, known') := OnSchemas schemas known in
  NoDup resets ∧
  (∀ gvk, gvk ∈ resets ↔ known !! gvk ≠ known' !! gvk) ∧
  (∀ gvk cols, known' !! gvk = Some cols ↔
     ∃ s, indexed schemas s ∧ schema_GVK s = gvk ∧ GetColumnDefinitions s = cols) ∧
  (∀ err, err ∈ errs ↔ ∃ gvk, gvk ∈ resets ∧ Resetter_Reset gvk = Some err).
Proof.
  intros Hagree. pose proof (elem_of_resets schemas known) as Hresets.
  pose proof (λ gvk cols, OnSchemas_known schemas known gvk cols Hagree) as Hknown.
  assert (Hnd : NoDup (OnSchemas schemas known).1.1) by (apply NoDup_range_keys).
  assert (Herrs : (OnSchemas schemas known).1.2 = omap Resetter_Reset (OnSchemas schemas known).1.1) by done.
  destruct (OnSchemas schemas known) as [[resets errs] known']. cbn [fst snd] in *. subst errs.
  split_and!; [done| |done|].
  - intros gvk. rewrite Hresets. specialize (Hknown gvk). destruct (known' !! gvk) as [cols|] eqn:Hk'.
    + destruct (proj1 (Hknown cols) eq_refl) as (s & Hi & Hg & Hc). split.
      * intros [(s' & Hi' & Hg' & Hne)|[_ Hno]]; [|by destruct Hno; exists s].
        intros Heq. apply Hne. rewrite Heq, <- Hc. f_equal. apply Hagree; [done..|congruence].
      * intros Hne. left. exists s. by rewrite Hc.
    + assert (Hno : ¬ ∃ s, indexed schemas s ∧ schema_GVK s = gvk).
      { intros (s & Hi & Hg). by assert (None = Some (GetColumnDefinitions s)) by (apply Hknown; eauto). }
      rewrite <- not_eq_None_Some. naive_solver.
  - intros err. rewrite list_elem_of_omap. done.
Qed.

(** A type whose reset fails is not reset again when the schemas stay as they are: the
    tracker remembers the new columns whether or not the reset succeeded. *)
Theorem failed_reset_not_retried schemas known :
  columns_agree schemas →
  (OnSchemas schemas (OnSchemas schemas known).2).1 = ([], []).
Proof.
  intros Hagree. set (known' := (OnSchemas schemas known).2).
  assert (Hnone : (OnSchemas schemas known').1.1 = []).
  { apply elem_of_nil_inv. intros gvk Hin. apply elem_of_resets in Hin. subst known'.
    pose proof (λ gvk cols, OnSchemas_known schemas known gvk cols Hagree) as Hknown.
    destruct Hin as [(s & Hi & Hg & Hne)|[[cols Hc] Hno]].
    - apply Hne, Hknown. eauto.
    - apply Hno. apply Hknown in Hc. naive_solver. }
  assert (Herrs : (OnSchemas schemas known').1.2 = omap Resetter_Reset (OnSchemas schemas known').1.1) by done.
  destruct (OnSchemas schemas known') as [[resets errs] k]. cbn [fst snd] in *. by subst resets errs.
Qed.
End tracker.

(** * A collection with pods *)
Module TrackerExample.
Import Concrete SchemasExample.
Definition pods : gmap string APISchema := {["pod" := pods_schema]}.
Definition collection : Collection := Reset pods start.
Definition known : gmap GVR (list string) :=
  {[mkGVR "" "v1" "Pod" := ["Name"]; mkGVR "apps" "v1" "Deployment" := ["Name"]]}.
Definition failing (gvk : GVR) : option string :=
  if bool_decide (gvr_Resource gvk = "Pod") then Some "busy" else None.

Lemma collection_agrees : columns_agree S_Verbs collection.
Proof.
  assert (Hpod : ∀ s, indexed collection s → s = pods_schema).
  { intros s (gvr & id & _ & Hs). change (pods !! id = Some s) in Hs. unfold pods in Hs. by apply lookup_singleton_Some in Hs as [_ <-]. }
  intros s1 s2 ->%Hpod ->%Hpod _. done.
Qed.

Lemma OnSchemas_resets_witness :
  let '(resets, errs, known') := OnSchemas S_Verbs failing collection known in
  resets ≡ₚ [mkGVR "" "v1" "Pod"; mkGVR "apps" "v1" "Deployment"] ∧
  (∀ gvk, gvk ∈ resets ↔ known !! gvk ≠ known' !! gvk) ∧
  errs = ["busy"].
Proof.
  pose proof (OnSchemas_resets S_Verbs failing collection known collection_agrees) as Hr.
  destruct (OnSchemas S_Verbs failing collection known) as [[resets errs] known'] eqn:Heq.
  destruct Hr as (_ & Hresets & _). split_and!; [|exact Hresets|].
  - replace resets with (OnSchemas S_Verbs failing collection known).1.1 by (by rewrite Heq).
    by apply (bool_decide_unpack _); vm_compute.
  - replace errs with (OnSchemas S_Verbs failing collection known).1.2 by (by rewrite Heq).
    by vm_compute.
Defined.
End TrackerExample.
