(* ===== verification/InformerFactory.v ===== *)
(** * Starting and stopping informers: pkg/sqlcache/informer/factory/informer_factory.go

    [CacheFor] gives a request the cache of a type, starting its informer when there is
    none; the request calls [DoneWithCache] when it is done. [Stop] stops the informer of a
    type and drops its tables. The calls run concurrently under three locks: the mutex of
    the factory, and for each type a mutex around the creation of its informer and a
    read-write lock that requests hold while they use the cache. A call is a thread that
    moves from one lock to the next; [exec] is a step of a thread. *)
From S2P Require Import Prelude.

Section factory.
Context {GVK : Type} `{Countable GVK}.

(** [sync.RWMutex]: a writer that waits keeps new readers out. *)
Inductive writer := NoWriter | Pending | Held.

(** [guardedInformer], with the number of informers created for it. *)
Record guardedInformer := mkGuarded {
  g_gvk : GVK;
  g_informer : bool;
  g_created : nat;
  g_synced : bool;
  g_dropped : bool;
  g_cancelled : bool;
  informerMutex : option nat;
  g_readers : nat;
  g_writer : writer
}.

(** Where a call is; [gid] is the guarded informer it has found. *)
Inductive pc :=
  (* CacheFor and cacheForLocked *)
  | CacheFor (gvk : GVK)
  | RLock (gvk : GVK) (gid : nat)
  | LockInformer (gvk : GVK) (gid : nat)
  | Locked (gvk : GVK) (gid : nat)
  | Creating (gvk : GVK) (gid : nat)
  | WaitSync (gvk : GVK) (gid : nat)
  (* the caller has the cache and has not called DoneWithCache yet *)
  | Using (gvk : GVK) (gid : nat)
  | Done
  | Failed
  (* Stop *)
  | Stop (gvk : GVK)
  | StopLock (gvk : GVK) (gid : nat)
  | StopPending (gvk : GVK) (gid : nat)
  | StopDrop (gvk : GVK) (gid : nat)
  | Stopped.

(** [crashed]: the runtime has ended the process. *)
Record factory := mkFactory {
  informers : gmap GVK nat;
  informersMutex : option nat;
  guardeds : list guardedInformer;
  threads : list pc;
  crashed : bool
}.
Definition init : factory := mkFactory ∅ None [] [] false.

Definition goto (t : nat) (p : pc) (s : factory) : factory :=
  mkFactory (informers s) (informersMutex s) (guardeds s) (<[t := p]> (threads s)) (crashed s).
Definition with_guarded (gid : nat) (f : guardedInformer → guardedInformer) (s : factory) : factory :=
  mkFactory (informers s) (informersMutex s) (alter f gid (guardeds s)) (threads s) (crashed s).
Definition with_informers (m : gmap GVK nat) (lock : option nat) (s : factory) : factory :=
  mkFactory m lock (guardeds s) (threads s) (crashed s).

Definition new_guarded (gvk : GVK) : guardedInformer :=
  mkGuarded gvk false 0 false false false None 0 NoWriter.
Definition set_lock (lock : option nat) (g : guardedInformer) : guardedInformer :=
  mkGuarded (g_gvk g) (g_informer g) (g_created g) (g_synced g) (g_dropped g) (g_cancelled g) lock (g_readers g)
    (g_writer g).
Definition set_readers (n : nat) (g : guardedInformer) : guardedInformer :=
  mkGuarded (g_gvk g) (g_informer g) (g_created g) (g_synced g) (g_dropped g) (g_cancelled g) (informerMutex g) n
    (g_writer g).
Definition set_writer (w : writer) (g : guardedInformer) : guardedInformer :=
  mkGuarded (g_gvk g) (g_informer g) (g_created g) (g_synced g) (g_dropped g) (g_cancelled g) (informerMutex g)
    (g_readers g) w.
Definition set_created (g : guardedInformer) : guardedInformer :=
  mkGuarded (g_gvk g) true (S (g_created g)) (g_synced g) (g_dropped g) (g_cancelled g) None (g_readers g)
    (g_writer g).
Definition set_synced (g : guardedInformer) : guardedInformer :=
  mkGuarded (g_gvk g) (g_informer g) (g_created g) true (g_dropped g) (g_cancelled g) (informerMutex g) (g_readers g)
    (g_writer g).
Definition set_cancelled (g : guardedInformer) : guardedInformer :=
  mkGuarded (g_gvk g) (g_informer g) (g_created g) (g_synced g) (g_dropped g) true (informerMutex g) (g_readers g)
    (g_writer g).
(** [DropAll] of the informer, if there is one, and the release of the lock. *)
Definition set_dropped (g : guardedInformer) : guardedInformer :=
  mkGuarded (g_gvk g) (g_informer g) (g_created g) (g_synced g) (g_dropped g || g_informer g) (g_cancelled g)
    (informerMutex g) (g_readers g) NoWriter.

(** [RUnlock] of a lock without readers is a fatal error. *)
Definition RUnlock (gid : nat) (s : factory) : factory :=
  match guardeds s !! gid with
  | Some g => if bool_decide (g_readers g = 0)
              then mkFactory (informers s) (informersMutex s) (guardeds s) (threads s) true
              else with_guarded gid (set_readers (g_readers g - 1)) s
  | None => s
  end.

(** A step of thread [t]; [ok] tells whether what can fail succeeds. [None]: it waits. *)
Definition run_thread (t : nat) (ok : bool) (s : factory) : option factory :=
  match threads s !! t with
  | Some (CacheFor gvk) =>
      if bool_decide (informersMutex s = None) then
        match informers s !! gvk with
        | Some gid => Some (goto t (RLock gvk gid) s)
        | None =>
            let gid := length (guardeds s) in
            Some (goto t (RLock gvk gid) (mkFactory (<[gvk := gid]> (informers s)) None
              (guardeds s ++ [new_guarded gvk]) (threads s) (crashed s)))
        end
      else None
  | Some (RLock gvk gid) =>
      g ← guardeds s !! gid;
      match g_writer g with
      | NoWriter => Some (goto t (LockInformer gvk gid) (with_guarded gid (set_readers (S (g_readers g))) s))
      | _ => None
      end
  | Some (LockInformer gvk gid) =>
      g ← guardeds s !! gid;
      match informerMutex g with
      | None => Some (goto t (Locked gvk gid) (with_guarded gid (set_lock (Some t)) s))
      | Some _ => None
      end
  | Some (Locked gvk gid) =>
      g ← guardeds s !! gid;
      if g_informer g then Some (goto t (WaitSync gvk gid) (with_guarded gid (set_lock None) s))
      else Some (goto t (Creating gvk gid) s)
  | Some (Creating gvk gid) =>
      if ok then Some (goto t (WaitSync gvk gid) (with_guarded gid set_created s))
      else Some (RUnlock gid (goto t Failed (with_guarded gid (set_lock None) s)))
  (* WaitForCacheSync looks at the informer before it looks at the contexts *)
  | Some (WaitSync gvk gid) =>
      g ← guardeds s !! gid;
      if ok then (if g_synced g then Some (goto t (Using gvk gid) s) else None)
      else Some (RUnlock gid (goto t Failed s))
  | Some (Using gvk gid) =>
      if bool_decide (informersMutex s = None) then
        match informers s !! gvk with
        | Some gid' => Some (RUnlock gid' (goto t Done s))
        | None => Some (goto t Done s)
        end
      else None
  | Some (Stop gvk) =>
      if bool_decide (informersMutex s = None) then
        match informers s !! gvk with
        | Some gid => Some (goto t (StopLock gvk gid) (with_guarded gid set_cancelled
            (with_informers (delete gvk (informers s)) (Some t) s)))
        | None => Some (goto t Stopped s)
        end
      else None
  | Some (StopLock gvk gid) =>
      g ← guardeds s !! gid;
      match g_writer g with
      | NoWriter => Some (goto t (StopPending gvk gid) (with_guarded gid (set_writer Pending) s))
      | _ => None
      end
  | Some (StopPending gvk gid) =>
      g ← guardeds s !! gid;
      if bool_decide (g_readers g = 0)
      then Some (goto t (StopDrop gvk gid) (with_guarded gid (set_writer Held) s)) else None
  | Some (StopDrop gvk gid) =>
      Some (goto t Stopped (with_guarded gid set_dropped (with_informers (informers s) None s)))
  | Some Done | Some Failed | Some Stopped | None => None
  end.

(** New calls, steps of threads, and an informer that has synced. *)
Inductive action :=
  | NewCacheFor (gvk : GVK)
  | NewStop (gvk : GVK)
  | Run (t : nat) (ok : bool)
  | Sync (gid : nat).

Definition exec (a : action) (s : factory) : option factory :=
  if crashed s then None else
  match a with
  | NewCacheFor gvk => Some (mkFactory (informers s) (informersMutex s) (guardeds s) (threads s ++ [CacheFor gvk]) false)
  | NewStop gvk => Some (mkFactory (informers s) (informersMutex s) (guardeds s) (threads s ++ [Stop gvk]) false)
  | Run t ok => run_thread t ok s
  | Sync gid =>
      g ← guardeds s !! gid;
      if g_informer g && negb (g_cancelled g) then Some (with_guarded gid set_synced s) else None
  end.

Definition step (s s' : factory) : Prop := ∃ a, exec a s = Some s'.
Fixpoint run (l : list action) (s : factory) : option factory :=
  match l with [] => Some s | a :: l => s' ← exec a s; run l s' end.

Lemma run_steps l s s' : run l s = Some s' → rtc step s s'.
Proof.
  revert s. induction l as [|a l IH]; intros s; cbn [run]; [by intros [= ->]|].
  destruct (exec a s) as [s1|] eqn:Ha; cbn; [|done]. intros Hr.
  eapply rtc_l; [by exists a|by apply IH].
Qed.
End factory.

(** * Invariants *)
Section factory_invariants.
Context {GVK : Type} `{Countable GVK}.
Implicit Types (s : factory (GVK := GVK)) (p : pc (GVK := GVK)) (g : guardedInformer (GVK := GVK)).

(** The calls that hold the read lock of a guarded informer. *)
Definition holds (gid : nat) (p : pc (GVK := GVK)) : bool :=
  match p with
  | LockInformer _ gid' | Locked _ gid' | Creating _ gid' | WaitSync _ gid' | Using _ gid' => bool_decide (gid = gid')
  | _ => false
  end.
Definition holders (gid : nat) (s : factory (GVK := GVK)) : nat := length (List.filter (holds gid) (threads s)).
Definition one (b : bool) : nat := if b then 1 else 0.

(** [DoneWithCache] of a cache whose informer is not the one of its type any more. *)
Definition stale_done (a : action (GVK := GVK)) (s : factory (GVK := GVK)) : Prop :=
  ∃ t ok gvk gid, a = Run t ok ∧ threads s !! t = Some (Using gvk gid) ∧ informers s !! gvk ≠ Some gid.
Definition clean_step (s s' : factory (GVK := GVK)) : Prop := ∃ a, exec a s = Some s' ∧ ¬ stale_done a s.

Definition thread_ok (s : factory (GVK := GVK)) (t : nat) (p : pc (GVK := GVK)) : Prop :=
  match p with
  | RLock _ gid | LockInformer _ gid | WaitSync _ gid | Using _ gid => is_Some (guardeds s !! gid)
  | Locked _ gid => ∃ g, guardeds s !! gid = Some g ∧ informerMutex g = Some t
  | Creating _ gid => ∃ g, guardeds s !! gid = Some g ∧ informerMutex g = Some t ∧ g_informer g = false
  | StopLock _ gid | StopPending _ gid => is_Some (guardeds s !! gid) ∧ informersMutex s = Some t
  | StopDrop _ gid => ∃ g, guardeds s !! gid = Some g ∧ g_writer g = Held ∧ informersMutex s = Some t
  | _ => True
  end.
Definition guarded_ok (n : nat) (g : guardedInformer (GVK := GVK)) : Prop :=
  g_readers g = n ∧ (g_writer g = Held → g_readers g = 0) ∧ g_created g = one (g_informer g).

Record factory_ok s : Prop := {
  ok_threads : ∀ t p, threads s !! t = Some p → thread_ok s t p;
  ok_guardeds : ∀ gid g, guardeds s !! gid = Some g → guarded_ok (holders gid s) g;
  ok_informers : ∀ gvk gid, informers s !! gvk = Some gid → is_Some (guardeds s !! gid);
  ok_running : crashed s = false
}.

Lemma filter_insert (f : pc (GVK := GVK) → bool) (l : list (pc (GVK := GVK))) t p p' : l !! t = Some p →
  length (List.filter f (<[t := p']> l)) + one (f p) = length (List.filter f l) + one (f p').
Proof.
  revert t. induction l as [|x l IH]; intros [|t] Ht; [done..| |].
  - injection Ht as ->. cbn. unfold one. destruct (f p), (f p'); cbn; lia.
  - specialize (IH t Ht). change (<[S t := p']> (x :: l)) with (x :: <[t := p']> l). cbn [List.filter].
    destruct (f x); cbn [length]; lia.
Qed.

Lemma holders_positive s t p gid : threads s !! t = Some p → holds gid p = true → holders gid s ≠ 0.
Proof.
  intros Ht Hp. pose proof (filter_insert (holds gid) (threads s) t p Done Ht) as Hf. rewrite Hp in Hf.
  unfold holders. cbn in Hf. lia.
Qed.

(** A step of one thread that changes one guarded informer, the map and the mutex. *)
Lemma update_ok s t p p' gid f m lock :
  factory_ok s → threads s !! t = Some p →
  let s' := goto t p' (with_guarded gid f (with_informers m lock s)) in
  (∀ gvk gid', m !! gvk = Some gid' → informers s !! gvk = Some gid') →
  (∀ t', t' ≠ t → informersMutex s = Some t' → lock = Some t') →
  (∀ gid', gid' ≠ gid → holds gid' p = holds gid' p') →
  (∀ g, guardeds s !! gid = Some g →
     g_readers (f g) + one (holds gid p) = g_readers g + one (holds gid p') ∧
     (g_writer (f g) = Held → g_readers (f g) = 0) ∧ g_created (f g) = one (g_informer (f g)) ∧
     (∀ t', t' ≠ t → informerMutex g = Some t' → informerMutex (f g) = Some t') ∧
     (g_informer (f g) = g_informer g ∨ informerMutex g = Some t) ∧
     (g_writer g = Held → g_writer (f g) = Held ∨ informersMutex s = Some t)) →
  thread_ok s' t p' → factory_ok s'.
Proof.
  intros [Hth Hg Hi Hc] Ht s' Hm Hlock Hother Hf Hp'.
  assert (Hguard : ∀ gid' g', guardeds s' !! gid' = Some g' →
    ∃ g, guardeds s !! gid' = Some g ∧ g' = if decide (gid' = gid) then f g else g).
  { intros gid' g'. cbn. destruct (decide (gid' = gid)) as [->|Hne].
    - rewrite list_lookup_alter_eq. intros (g & Hgg & ->)%fmap_Some. by exists g.
    - rewrite list_lookup_alter_ne by done. intros Hgg. by exists g'. }
  assert (Hsome : ∀ gid', is_Some (guardeds s !! gid') → is_Some (guardeds s' !! gid')).
  { intros gid' Hs. cbn. apply lookup_lt_is_Some. rewrite length_alter. by apply lookup_lt_is_Some. }
  assert (Hget : ∀ gid' g, guardeds s !! gid' = Some g →
    guardeds s' !! gid' = Some (if decide (gid' = gid) then f g else g)).
  { intros gid' g Hgg. cbn. case_decide as Hd; [subst; by rewrite list_lookup_alter_eq, Hgg|].
    by rewrite list_lookup_alter_ne. }
  split.
  - intros t' q. cbn [threads s' goto with_guarded with_informers].
    destruct (decide (t = t')) as [<-|Hne].
    + rewrite list_lookup_insert_eq by (by eapply lookup_lt_Some). by intros [= <-].
    + rewrite list_lookup_insert_ne by done. intros Hq. specialize (Hth t' q Hq).
      destruct q; cbn [thread_ok] in Hth |- *; try done; try by apply Hsome.
      * destruct Hth as (g & Hgg & Hl). eexists. split; [by apply Hget|]. case_decide; [|done]. subst.
        destruct (Hf g Hgg) as (_ & _ & _ & Hkeep & _). by apply Hkeep.
      * destruct Hth as (g & Hgg & Hl & Hinf). eexists. split; [by apply Hget|]. case_decide; [|done]. subst.
        destruct (Hf g Hgg) as (_ & _ & _ & Hkeep & Hinf' & _). split; [by apply Hkeep|].
        destruct Hinf' as [->|Hl']; [done|congruence].
      * destruct Hth as [Hs Hl]. split; [by apply Hsome|]. by apply Hlock.
      * destruct Hth as [Hs Hl]. split; [by apply Hsome|]. by apply Hlock.
      * destruct Hth as (g & Hgg & Hw & Hl). eexists. split; [by apply Hget|].
        split; [|by apply Hlock]. case_decide; [|done]. subst.
        destruct (Hf g Hgg) as (_ & _ & _ & _ & _ & Hw'). destruct (Hw' Hw) as [?|Hl']; [done|congruence].
  - intros gid' g' (g & Hgg & ->)%Hguard. specialize (Hg gid' g Hgg) as (Hr & Hw & Hcr).
    pose proof (filter_insert (holds gid') (threads s) t p p' Ht) as Hcount.
    assert (Hh : holders gid' s' + one (holds gid' p) = holders gid' s + one (holds gid' p')) by exact Hcount.
    case_decide as Hd.
    + subst. destruct (Hf g Hgg) as (Hr' & Hw' & Hcr' & _). split_and!; [lia|done..].
    + split_and!; [|done..]. rewrite (Hother gid' Hd) in Hh. lia.
  - intros gvk gid' Hgid. apply Hsome. by eapply Hi, Hm.
  - done.
Qed.

Lemma with_informers_id s : with_informers (informers s) (informersMutex s) s = s.
Proof. by destruct s. Qed.
Lemma with_guarded_id gid s : with_guarded gid id s = s.
Proof. unfold with_guarded. rewrite list_alter_id by done. by destruct s. Qed.

(** The step of a thread that leaves the map and the mutex alone. *)
Lemma local_ok s t p p' gid f :
  factory_ok s → threads s !! t = Some p →
  (∀ gid', gid' ≠ gid → holds gid' p = holds gid' p') →
  (∀ g, guardeds s !! gid = Some g →
     g_readers (f g) + one (holds gid p) = g_readers g + one (holds gid p') ∧
     (g_writer (f g) = Held → g_readers (f g) = 0) ∧ g_created (f g) = one (g_informer (f g)) ∧
     (∀ t', t' ≠ t → informerMutex g = Some t' → informerMutex (f g) = Some t') ∧
     (g_informer (f g) = g_informer g ∨ informerMutex g = Some t) ∧
     (g_writer g = Held → g_writer (f g) = Held)) →
  thread_ok (goto t p' (with_guarded gid f s)) t p' → factory_ok (goto t p' (with_guarded gid f s)).
Proof.
  intros Hok Ht Hh Hf Hp'. pose proof (update_ok s t p p' gid f (informers s) (informersMutex s) Hok Ht) as Hu.
  cbn zeta in Hu. rewrite with_informers_id in Hu. apply Hu; [done|done|done| |done].
  intros g Hg. destruct (Hf g Hg) as (?&?&?&?&?&?). split_and!; auto.
Qed.

(** A thread that only moves on. *)
Lemma goto_ok s t p p' : factory_ok s → threads s !! t = Some p → (∀ gid, holds gid p = holds gid p') →
  thread_ok s t p' → factory_ok (goto t p' s).
Proof.
  intros Hok Ht Hh Hp'.
  pose proof (local_ok s t p p' 0 id Hok Ht) as Hl. rewrite with_guarded_id in Hl. apply Hl.
  - intros gid' _. apply Hh.
  - intros g Hg. cbn [id]. destruct (ok_guardeds s Hok 0 g Hg) as (_ & Hw & Hc). rewrite Hh. split_and!; auto.
  - by destruct p'.
Qed.

(** The release of a read lock that the thread holds. *)
Lemma unlock_ok s t p p' gid f :
  factory_ok s → threads s !! t = Some p → holds gid p = true →
  (∀ gid', gid' ≠ gid → holds gid' p = false) → (∀ gid', holds gid' p' = false) →
  (∀ s, thread_ok s t p') →
  (f = id ∨ (f = set_lock None ∧ ∀ g, guardeds s !! gid = Some g → informerMutex g = Some t)) →
  factory_ok (RUnlock gid (goto t p' (with_guarded gid f s))).
Proof.
  intros Hok Ht Hp Hother Hp' Hth Hf. unfold RUnlock. cbn [guardeds goto with_guarded].
  rewrite list_lookup_alter_eq. destruct (guardeds s !! gid) as [g|] eqn:Hg; cbn [fmap option_fmap option_map].
  - destruct (ok_guardeds s Hok gid g Hg) as (Hr & Hw & Hc).
    pose proof (holders_positive s t p gid Ht Hp) as Hpos.
    assert (Hfr : g_readers (f g) = g_readers g) by (destruct Hf as [->|[-> _]]; done).
    rewrite Hfr, bool_decide_eq_false_2 by lia.
    assert (Heq : with_guarded gid (set_readers (g_readers g - 1)) (goto t p' (with_guarded gid f s)) =
      goto t p' (with_guarded gid (λ g', set_readers (g_readers g - 1) (f g')) s)).
    { unfold with_guarded, goto. cbn. f_equal. by rewrite list_alter_alter_eq. }
    unfold with_guarded, goto in Heq |- *. cbn in Heq |- *. rewrite Heq. clear Heq.
    apply (local_ok s t p p' gid (λ g', set_readers (g_readers g - 1) (f g')) Hok Ht).
    + intros gid' Hne. by rewrite Hother, Hp'.
    + intros g' Hg'. rewrite Hg in Hg'. injection Hg' as <-. rewrite Hp, Hp'. unfold one in *.
      destruct Hf as [->|[-> Hl]]; cbn; split_and!; try done; try lia.
      * intros; specialize (Hw ltac:(done)); lia.
      * by left.
      * intros; specialize (Hw ltac:(done)); lia.
      * intros t' Hne Ht'. specialize (Hl g eq_refl). congruence.
      * by left.
    + apply Hth.
  - exfalso. pose proof (ok_threads s Hok t p Ht) as Ht'. destruct p; try done; cbn in Hp;
      apply bool_decide_eq_true in Hp; subst; cbn in Ht'; rewrite Hg in Ht'; naive_solver.
Qed.

(** A new guarded informer changes nothing for the calls there are. *)
Lemma new_guarded_ok s gvk : factory_ok s → informersMutex s = None → informers s !! gvk = None →
  factory_ok (mkFactory (<[gvk := length (guardeds s)]> (informers s)) None (guardeds s ++ [new_guarded gvk])
    (threads s) (crashed s)).
Proof.
  intros [Hth Hg Hi Hc] Hm Hnone.
  assert (Hget : ∀ gid g, guardeds s !! gid = Some g → (guardeds s ++ [new_guarded gvk]) !! gid = Some g)
    by (intros; by apply lookup_app_l_Some).
  assert (Hsome : ∀ gid, is_Some (guardeds s !! gid) → is_Some ((guardeds s ++ [new_guarded gvk]) !! gid))
    by (intros gid [g Hgid]; exists g; by apply Hget).
  split; cbn [threads guardeds informers crashed].
  - intros t p Ht. specialize (Hth t p Ht). destruct p; cbn [thread_ok guardeds informersMutex] in *; naive_solver.
  - intros gid g. change (holders gid _) with (holders gid s).
    intros [Hgid|[Hlen Hgid]]%lookup_app_Some; [by apply Hg|].
    destruct (gid - length (guardeds s)) as [|k] eqn:Hk; [|done]. injection Hgid as <-.
    assert (Hz : holders gid s = 0).
    { unfold holders. replace (List.filter (holds gid) (threads s)) with (@nil (pc (GVK := GVK))); [done|].
      symmetry. apply elem_of_nil_inv. intros p Hp. apply list_elem_of_In, filter_In in Hp as [Hin Hp].
      apply list_elem_of_In, list_elem_of_lookup in Hin as [t Ht]. specialize (Hth t p Ht).
      assert (Hnot : guardeds s !! gid = None) by (apply lookup_ge_None; lia).
      destruct p; try done; cbn in Hp; apply bool_decide_eq_true in Hp; subst; cbn in Hth;
        rewrite Hnot in Hth; naive_solver. }
    rewrite Hz. by split_and!.
  - intros gvk' gid [[<- <-]|[_ Hgid]]%lookup_insert_Some; [|by eapply Hsome, Hi].
    rewrite lookup_app_r, Nat.sub_diag by lia. by eexists.
  - done.
Qed.

Lemma ok_guarded s t p gid : factory_ok s → threads s !! t = Some p → holds gid p = true → is_Some (guardeds s !! gid).
Proof.
  intros Hok Ht Hp. pose proof (ok_threads s Hok t p Ht) as Hth.
  destruct p; try done; cbn in Hp; apply bool_decide_eq_true in Hp; subst; cbn in Hth; naive_solver.
Qed.

Lemma holds_other (gid gid' : nat) : gid' ≠ gid → bool_decide (gid' = gid) = false.
Proof. apply bool_decide_eq_false_2. Qed.

(** Steps of [CacheFor] up to the creation of the informer. *)
Lemma run_cache_for_ok s t ok s' p : factory_ok s → threads s !! t = Some p →
  match p with CacheFor _ | RLock _ _ | LockInformer _ _ | Locked _ _ => True | _ => False end →
  run_thread t ok s = Some s' → factory_ok s'.
Proof.
  intros Hok Ht Hp Hrun. unfold run_thread in Hrun. rewrite Ht in Hrun.
  pose proof (ok_threads s Hok t p Ht) as Hth.
  destruct p as [gvk|gvk gid|gvk gid|gvk gid| | | | | | | | | |]; try done; cbn in Hth.
  - case_bool_decide as Hm; [|done]. destruct (informers s !! gvk) as [gid|] eqn:Hgid; injection Hrun as <-.
    + apply (goto_ok s t (CacheFor gvk)); [done..|]. by eapply ok_informers.
    + apply (goto_ok _ t (CacheFor gvk)); [by apply new_guarded_ok|done..|].
      cbn. rewrite lookup_app_r, Nat.sub_diag by lia. by eexists.
  - destruct (guardeds s !! gid) as [g|] eqn:Hg; [|done]. cbn in Hrun.
    destruct (g_writer g) eqn:Hw; [|done..]. injection Hrun as <-.
    apply (local_ok s t (RLock gvk gid)); [done..| | |].
    + intros gid' Hne. cbn. by rewrite holds_other.
    + intros g' Hg'. rewrite Hg in Hg'. injection Hg' as <-.
      destruct (ok_guardeds s Hok gid g Hg) as (_ & _ & Hc). cbn. rewrite bool_decide_eq_true_2 by done.
      unfold one in *. rewrite Hw. split_and!; auto; try done; lia.
    + cbn. rewrite list_lookup_alter_eq, Hg. by eexists.
  - destruct (guardeds s !! gid) as [g|] eqn:Hg; [|done]. cbn in Hrun.
    destruct (informerMutex g) eqn:Hl; [done|]. injection Hrun as <-.
    apply (local_ok s t (LockInformer gvk gid)); [done..| | |].
    + intros gid' Hne. cbn. done.
    + intros g' Hg'. rewrite Hg in Hg'. injection Hg' as <-.
      destruct (ok_guardeds s Hok gid g Hg) as (_ & Hw & Hc). cbn. split_and!; auto. by rewrite Hl.
    + cbn. rewrite list_lookup_alter_eq, Hg. by eexists.
  - destruct Hth as (g & Hg & Hl). rewrite Hg in Hrun. cbn in Hrun.
    destruct (g_informer g) eqn:Hinf; injection Hrun as <-.
    + apply (local_ok s t (Locked gvk gid)); [done..| | |].
      * done.
      * intros g' Hg'. rewrite Hg in Hg'. injection Hg' as <-.
        destruct (ok_guardeds s Hok gid g Hg) as (_ & Hw & Hc). cbn. split_and!; auto.
        intros t' Hne Ht'. congruence.
      * cbn. rewrite list_lookup_alter_eq, Hg. by eexists.
    + apply (goto_ok s t (Locked gvk gid)); [done..|]. cbn. by exists g.
Qed.

(** The creation of the informer, the wait for it and the end of the use of the cache. *)
Lemma run_use_ok s t ok s' p : factory_ok s → threads s !! t = Some p →
  match p with Creating _ _ | WaitSync _ _ => True | Using gvk gid => informers s !! gvk = Some gid | _ => False end →
  run_thread t ok s = Some s' → factory_ok s'.
Proof.
  intros Hok Ht Hp Hrun. unfold run_thread in Hrun. rewrite Ht in Hrun.
  pose proof (ok_threads s Hok t p Ht) as Hth.
  destruct p as [| | | |gvk gid|gvk gid|gvk gid| | | | | | |]; try done; cbn in Hth.
  - destruct Hth as (g & Hg & Hl & Hinf). destruct ok; injection Hrun as <-.
    + apply (local_ok s t (Creating gvk gid)); [done..| | |].
      * done.
      * intros g' Hg'. rewrite Hg in Hg'. injection Hg' as <-.
        destruct (ok_guardeds s Hok gid g Hg) as (_ & Hw & Hc). rewrite Hinf in Hc. cbn in *.
        split_and!; auto; try congruence.
      * cbn. rewrite list_lookup_alter_eq, Hg. by eexists.
    + apply (unlock_ok s t (Creating gvk gid)); try done.
      * cbn. by apply bool_decide_eq_true.
      * intros gid' Hne. cbn. by apply holds_other.
      * right. split; [done|]. intros g' Hg'. congruence.
  - destruct (guardeds s !! gid) as [g|] eqn:Hg; [|done]. cbn in Hrun. destruct ok.
    + destruct (g_synced g); [|done]. injection Hrun as <-.
      apply (goto_ok s t (WaitSync gvk gid)); [done..|]. cbn. by rewrite Hg.
    + injection Hrun as <-. rewrite <- (with_guarded_id gid s).
      apply (unlock_ok s t (WaitSync gvk gid)); try done.
      * cbn. by apply bool_decide_eq_true.
      * intros gid' Hne. cbn. by apply holds_other.
      * by left.
  - case_bool_decide; [|done]. rewrite Hp in Hrun. injection Hrun as <-. rewrite <- (with_guarded_id gid s).
    apply (unlock_ok s t (Using gvk gid)); try done.
    + cbn. by apply bool_decide_eq_true.
    + intros gid' Hne. cbn. by apply holds_other.
    + by left.
Qed.

(** The steps of [Stop]. *)
Lemma run_stop_ok s t ok s' p : factory_ok s → threads s !! t = Some p →
  match p with Stop _ | StopLock _ _ | StopPending _ _ | StopDrop _ _ => True | _ => False end →
  run_thread t ok s = Some s' → factory_ok s'.
Proof.
  intros Hok Ht Hp Hrun. unfold run_thread in Hrun. rewrite Ht in Hrun.
  pose proof (ok_threads s Hok t p Ht) as Hth.
  destruct p as [| | | | | | | | |gvk|gvk gid|gvk gid|gvk gid|]; try done; cbn in Hth.
  - case_bool_decide as Hm; [|done]. destruct (informers s !! gvk) as [gid|] eqn:Hgid; injection Hrun as <-;
      [|by apply (goto_ok s t (Stop gvk))].
    apply (update_ok s t (Stop gvk)); [done|done| | |done| |].
    + intros gvk' gid' Hd. by apply lookup_delete_Some in Hd as [_ ?].
    + intros t' _ Ht'. congruence.
    + intros g Hg. destruct (ok_guardeds s Hok gid g Hg) as (_ & Hw & Hc). cbn. split_and!; auto.
    + cbn. split; [|done]. destruct (ok_informers s Hok gvk gid Hgid) as [g Hg].
      rewrite list_lookup_alter_eq, Hg. by eexists.
  - destruct Hth as [Hsome Hm]. destruct (guardeds s !! gid) as [g|] eqn:Hg; [|done]. cbn in Hrun.
    destruct (g_writer g) eqn:Hwr; [|done..]. injection Hrun as <-.
    apply (local_ok s t (StopLock gvk gid)); [done..| |].
    + intros g' Hg'. rewrite Hg in Hg'. injection Hg' as <-.
      destruct (ok_guardeds s Hok gid g Hg) as (_ & Hw & Hc). cbn. split_and!; auto; by rewrite ?Hwr.
    + cbn. rewrite list_lookup_alter_eq, Hg. split; [by eexists|done].
  - destruct Hth as [Hsome Hm]. destruct (guardeds s !! gid) as [g|] eqn:Hg; [|done]. cbn in Hrun.
    case_bool_decide as Hr; [|done]. injection Hrun as <-.
    apply (local_ok s t (StopPending gvk gid)); [done..| |].
    + intros g' Hg'. rewrite Hg in Hg'. injection Hg' as <-.
      destruct (ok_guardeds s Hok gid g Hg) as (_ & Hw & Hc). cbn. split_and!; auto.
    + cbn. rewrite list_lookup_alter_eq, Hg. cbn. eexists. by split_and!.
  - injection Hrun as <-. destruct Hth as (g & Hg & Hw & Hm).
    apply (update_ok s t (StopDrop gvk gid)); [done..| |done| |done].
    + intros t' Hne Ht'. congruence.
    + intros g' Hg'. destruct (ok_guardeds s Hok gid g' Hg') as (_ & Hw' & Hc). cbn. split_and!; auto; done.
Qed.

Lemma sync_ok s gid : factory_ok s → factory_ok (with_guarded gid set_synced s).
Proof.
  intros [Hth Hg Hi Hc].
  assert (Hget : ∀ gid' g, guardeds s !! gid' = Some g →
    alter set_synced gid (guardeds s) !! gid' = Some (if decide (gid' = gid) then set_synced g else g)).
  { intros gid' g Hgg. case_decide as Hd; [subst; by rewrite list_lookup_alter_eq, Hgg|].
    by rewrite list_lookup_alter_ne. }
  split; cbn [threads guardeds informers crashed with_guarded].
  - intros t p Ht. specialize (Hth t p Ht). destruct p; cbn [thread_ok guardeds informersMutex with_guarded] in *; try done.
    all: try (destruct Hth as [g Hgg]; eexists; by apply Hget).
    all: try (destruct Hth as [[g Hgg] ?]; split; [eexists; by apply Hget|done]).
    all: destruct Hth as (g & Hgg & ?); eexists; split; [by apply Hget|]; by case_decide.
  - intros gid' g'. change (holders gid' _) with (holders gid' s). destruct (guardeds s !! gid') as [g|] eqn:Hgg.
    + rewrite (Hget gid' g Hgg). intros [= <-]. specialize (Hg gid' g Hgg). by case_decide.
    + intros Hno. apply lookup_lt_Some in Hno. rewrite length_alter in Hno.
      apply lookup_ge_None in Hgg. lia.
  - intros gvk gid' [g Hgid]%Hi. eexists. by apply Hget.
  - done.
Qed.

(** Every step but a late [DoneWithCache] keeps the invariant. *)
Lemma clean_step_ok s s' : clean_step s s' → factory_ok s → factory_ok s'.
Proof.
  intros ([gvk|gvk|t ok|gid] & Hexec & Hclean) Hok; unfold exec in Hexec; rewrite (ok_running s Hok) in Hexec.
  1,2: injection Hexec as <-; destruct Hok as [Hth Hg Hi Hc]; split; cbn [threads guardeds informers crashed]; try done.
  1,3: intros t p [Ht|[_ Ht]]%lookup_app_Some; [by apply (Hth t p) in Ht; destruct p|];
    destruct (t - length (threads s)) as [|k]; [|done]; by injection Ht as <-.
  1,2: intros gid g Hgid; specialize (Hg gid g Hgid); unfold holders in *; cbn [threads];
    rewrite List.filter_app, length_app; cbn; by rewrite Nat.add_0_r.
  - destruct (threads s !! t) as [p|] eqn:Ht; [|unfold run_thread in Hexec; by rewrite Ht in Hexec].
    destruct p as [| | | | | |gvk gid| | | | | | |];
      try (by eapply run_cache_for_ok); try (by eapply run_use_ok); try (by eapply run_stop_ok);
      try (by unfold run_thread in Hexec; rewrite Ht in Hexec).
    apply (run_use_ok s t ok s' (Using gvk gid)); [done..| |done].
    destruct (decide (informers s !! gvk = Some gid)) as [?|Hne]; [done|]. destruct Hclean.
    exists t, ok, gvk, gid. done.
  - destruct (guardeds s !! gid) as [g|] eqn:Hg; [|done]. cbn in Hexec.
    destruct (g_informer g && negb (g_cancelled g)); [|done]. injection Hexec as <-.
    by apply sync_ok.
Qed.
End factory_invariants.

(** * Theorems *)
Section factory_theorems.
Context {GVK : Type} `{Countable GVK}.
Implicit Types (s : factory (GVK := GVK)).

Lemma init_ok : factory_ok (GVK := GVK) init.
Proof. split; [done..| |done]. intros gvk gid. cbn. by rewrite lookup_empty. Qed.

Lemma steps_ok s s' : rtc clean_step s s' → factory_ok s → factory_ok s'.
Proof. induction 1; [done|]. intros Hok. by eapply IHrtc, clean_step_ok. Qed.
Lemma reachable_ok s : rtc clean_step init s → factory_ok s.
Proof. intros Hs. by apply (steps_ok init), init_ok. Qed.

Lemma no_holder s gid t p : holders gid s = 0 → threads s !! t = Some p → holds gid p = false.
Proof. intros Hz Ht. apply not_true_iff_false. intros Hp. by apply (holders_positive s t p gid). Qed.

(** C36: In every interleaving of requests and stops in which no request gives back a cache
    after its type was stopped, the tables of a type are dropped only while no request
    uses its cache or waits for it, an informer is created at most once, by one request at
    a time, and no lock is released that is not held. *)
Theorem drop_excludes_requests s : rtc clean_step init s →
  (∀ u gvk gid, threads s !! u = Some (StopDrop gvk gid) →
     ∀ t p, threads s !! t = Some p → holds gid p = false) ∧
  (∀ gid g, guardeds s !! gid = Some g → g_created g ≤ 1) ∧
  (∀ t1 t2 gvk1 gvk2 gid, threads s !! t1 = Some (Creating gvk1 gid) →
     threads s !! t2 = Some (Creating gvk2 gid) → t1 = t2) ∧
  crashed s = false.
Proof.
  intros Hok%reachable_ok. split_and!.
  - intros u gvk gid Hu. pose proof (ok_threads s Hok u _ Hu) as (g & Hg & Hw & _).
    destruct (ok_guardeds s Hok gid g Hg) as (Hr & Hz & _). intros t p. apply no_holder. rewrite <- Hr. by apply Hz.
  - intros gid g Hg. destruct (ok_guardeds s Hok gid g Hg) as (_ & _ & ->). unfold one. destruct (g_informer g); lia.
  - intros t1 t2 gvk1 gvk2 gid H1 H2. pose proof (ok_threads s Hok t1 _ H1) as (g1 & Hg1 & Hl1 & _).
    pose proof (ok_threads s Hok t2 _ H2) as (g2 & Hg2 & Hl2 & _). congruence.
  - apply Hok.
Qed.

(** ** A stop while a cache is in use *)

Definition stuck (t u : nat) (gvk : GVK) (gid : nat) s : Prop :=
  threads s !! t = Some (Using gvk gid) ∧
  (threads s !! u = Some (StopLock gvk gid) ∨ threads s !! u = Some (StopPending gvk gid)) ∧
  informersMutex s = Some u ∧ factory_ok s.

Lemma RUnlock_threads gid s : threads (RUnlock gid s) = threads s ∧ informersMutex (RUnlock gid s) = informersMutex s.
Proof. unfold RUnlock. destruct (guardeds s !! gid); [|done]. by case_bool_decide. Qed.

(** A step changes the state of its thread; the mutex of the factory changes hands only at
    the start and at the end of [Stop]. *)
Lemma run_thread_frame v ok s s' : run_thread v ok s = Some s' →
  (∀ w, w ≠ v → threads s' !! w = threads s !! w) ∧
  (informersMutex s' = informersMutex s ∨ informersMutex s = None ∨
   ∃ gvk gid, threads s !! v = Some (StopDrop gvk gid)).
Proof.
  intros Hrun. assert (Hgoto : ∀ p w, w ≠ v → (<[v := p]> (threads s)) !! w = threads s !! w)
    by (intros; by apply list_lookup_insert_ne).
  unfold run_thread in Hrun. destruct (threads s !! v) as [p|] eqn:Hv; [|done].
  destruct p; try done; repeat case_bool_decide; try done;
    repeat (match type of Hrun with
            | context [match ?x with _ => _ end] => destruct x eqn:?
            | context [?x ≫= _] => destruct x eqn:?; cbn [mbind option_bind] in Hrun
            end; try done); simplify_eq;
    rewrite ?(proj1 (RUnlock_threads _ _)), ?(proj2 (RUnlock_threads _ _)); cbn; eauto 10.
Qed.

Lemma stuck_step t u gvk gid s s' : stuck t u gvk gid s → step s s' → stuck t u gvk gid s'.
Proof.
  intros (Ht & Hu & Hm & Hok) [a Ha].
  assert (Hclean : clean_step s s').
  { exists a. split; [done|]. intros (v & ok & gvk' & gid' & -> & Hv & Hne). unfold exec in Ha.
    rewrite (ok_running s Hok) in Ha. unfold run_thread in Ha. rewrite Hv, Hm in Ha. by case_bool_decide. }
  split_and!; [| | |by eapply clean_step_ok].
  all: unfold exec in Ha; rewrite (ok_running s Hok) in Ha; destruct a as [gvk'|gvk'|v ok|gid'].
  all: try (injection Ha as <-; cbn [threads informersMutex];
    first [done|by apply lookup_app_l_Some|destruct Hu; [left|right]; by apply lookup_app_l_Some]).
  all: try (destruct (guardeds s !! gid'); [|done]; cbn in Ha; destruct (_ && _); [|done]; by injection Ha as <-).
  all: pose proof (run_thread_frame v ok s s' Ha) as [Hframe Hmutex].
  - rewrite Hframe; [done|]. intros <-. unfold run_thread in Ha. rewrite Ht, Hm in Ha. by case_bool_decide.
  - destruct (decide (v = u)) as [->|Hne]; [|by rewrite Hframe].
    unfold run_thread in Ha. destruct Hu as [Hu|Hu]; rewrite Hu in Ha.
    + right. destruct (guardeds s !! gid) as [g|] eqn:Hg; [|done]. cbn in Ha.
      destruct (g_writer g); [|done..]. injection Ha as <-. cbn. apply list_lookup_insert_eq.
      by eapply lookup_lt_Some.
    + exfalso. destruct (guardeds s !! gid) as [g|] eqn:Hg; [|done]. cbn in Ha. case_bool_decide as Hr; [|done].
      destruct (ok_guardeds s Hok gid g Hg) as (Hr' & _). rewrite Hr' in Hr.
      apply (holders_positive s t _ gid Ht); [|done]. cbn. by apply bool_decide_eq_true.
  - destruct Hmutex as [->|[Hnone|(gvk' & gid' & Hv)]]; [done|congruence|].
    pose proof (ok_threads s Hok v _ Hv) as (_ & _ & _ & Hm'). rewrite Hm in Hm'. injection Hm' as <-.
    destruct Hu as [Hu|Hu]; congruence.
Qed.

Lemma stuck_steps t u gvk gid s s' : rtc step s s' → stuck t u gvk gid s → stuck t u gvk gid s'.
Proof. induction 1; [done|]. intros Hs. by eapply IHrtc, stuck_step. Qed.

(** The calls that begin with the mutex of the factory. *)
Definition needs_mutex (p : pc (GVK := GVK)) : bool :=
  match p with CacheFor _ | Using _ _ | Stop _ => true | _ => false end.

(** When the stop of a type begins while a request uses the cache of the type, neither
    of them ever ends: the stop holds the mutex of the factory and waits for the read lock
    of the request, the request needs the mutex to release it; and no call for any type,
    not even one that gives back a cache, gets past its first lock any more. *)
Theorem stop_deadlocks s s1 t u ok gvk gid :
  rtc clean_step init s → threads s !! t = Some (Using gvk gid) → informers s !! gvk = Some gid →
  threads s !! u = Some (Stop gvk) → exec (Run u ok) s = Some s1 →
  ∀ s', rtc step s1 s' →
    threads s' !! t = Some (Using gvk gid) ∧ threads s' !! u ≠ Some Stopped ∧
    ∀ v p ok', threads s' !! v = Some p → needs_mutex p = true → exec (Run v ok') s' = None.
Proof.
  intros Hs%reachable_ok Ht Hgid Hu Hexec s' Hrtc.
  assert (Hstuck : stuck t u gvk gid s1).
  { assert (Hok1 : factory_ok s1).
    { apply (clean_step_ok s); [|done]. exists (Run u ok). split; [done|].
      intros (v & ok' & gvk' & gid' & Heq & Hv & _). injection Heq as <- _. congruence. }
    unfold exec in Hexec. rewrite (ok_running s Hs) in Hexec.
    pose proof (run_thread_frame u ok s s1 Hexec) as [Hframe _].
    split; [rewrite Hframe; [done|congruence]|]. unfold run_thread in Hexec. rewrite Hu, Hgid in Hexec.
    case_bool_decide; [|done]. injection Hexec as <-. split_and!; [|done|done].
    left. cbn. apply list_lookup_insert_eq. by eapply lookup_lt_Some. }
  assert (Hend : stuck t u gvk gid s') by (by eapply stuck_steps).
  destruct Hend as (Ht' & Hu' & Hm & Hok'). split_and!; [done|by destruct Hu' as [->| ->]|].
  intros v p ok' Hv Hp. unfold exec. rewrite (ok_running s' Hok'). unfold run_thread. rewrite Hv, Hm.
  destruct p; try done; by case_bool_decide.
Qed.
End factory_theorems.

(** * Executions *)
Module FactoryExample.
Definition staleb (a : action (GVK := string)) (s : factory (GVK := string)) : bool :=
  match a with
  | Run t _ => match threads s !! t with
               | Some (Using gvk gid) => negb (bool_decide (informers s !! gvk = Some gid))
               | _ => false
               end
  | _ => false
  end.
Fixpoint run_clean (l : list (action (GVK := string))) (s : factory (GVK := string)) : option (factory (GVK := string)) :=
  match l with
  | [] => Some s
  | a :: l => if staleb a s then None else s' ← exec a s; run_clean l s'
  end.
Lemma run_clean_steps l s s' : run_clean l s = Some s' → rtc clean_step s s'.
Proof.
  revert s. induction l as [|a l IH]; intros s; cbn [run_clean]; [by intros [= ->]|].
  destruct (staleb a s) eqn:Ha; [done|]. destruct (exec a s) as [s1|] eqn:He; cbn; [|done]. intros Hr.
  eapply rtc_l; [|by apply IH]. exists a. split; [done|].
  intros (t & ok & gvk & gid & -> & Ht & Hne). cbn in Ha. rewrite Ht in Ha. by rewrite bool_decide_eq_false_2 in Ha.
Qed.

Definition steps (t n : nat) : list (action (GVK := string)) := replicate n (Run t true).
(** Request 0 creates the informer and uses the cache; request 1 has found the informer. *)
Definition two_requests : list (action (GVK := string)) :=
  NewCacheFor "Pod" :: steps 0 5 ++ [Sync 0] ++ steps 0 1 ++ NewCacheFor "Pod" :: steps 1 1.
(** The state that is reached. *)
Definition state_after (l : list (action (GVK := string))) : factory (GVK := string) :=
  default init (run_clean l init).

(** Request 0 ends, then the type is stopped up to the point where its tables are dropped. *)
Definition dropping : list (action (GVK := string)) := two_requests ++ steps 0 1 ++ NewStop "Pod" :: steps 2 3.
Lemma reach l : (if run_clean l init is Some _ then true else false) = true → rtc clean_step init (state_after l).
Proof. unfold state_after. destruct (run_clean l init) as [s|] eqn:Hs; [|done]. intros _. by eapply run_clean_steps. Qed.

Lemma drop_excludes_requests_witness :
  threads (state_after dropping) !! 2 = Some (StopDrop "Pod" 0) ∧
  ∀ t p, threads (state_after dropping) !! t = Some p → holds 0 p = false.
Proof.
  assert (Hstop : threads (state_after dropping) !! 2 = Some (StopDrop "Pod" 0)) by (vm_compute; reflexivity).
  split; [exact Hstop|].
  apply (proj1 (drop_excludes_requests (state_after dropping) (reach dropping ltac:(vm_compute; reflexivity))) 2 "Pod" 0 Hstop).
Defined.

(** The stop begins while request 0 uses the cache. *)
Definition stopping : list (action (GVK := string)) := two_requests ++ [NewStop "Pod"].
Lemma stop_deadlocks_witness :
  ∃ s1, exec (Run 2 true) (state_after stopping) = Some s1 ∧
  ∀ s', rtc step s1 s' → threads s' !! 0 = Some (Using "Pod" 0) ∧ threads s' !! 2 ≠ Some Stopped.
Proof.
  destruct (exec (Run 2 true) (state_after stopping)) as [s1|] eqn:He; [|vm_compute in He; discriminate].
  exists s1. split; [reflexivity|]. intros s' Hs'.
  destruct (stop_deadlocks (state_after stopping) s1 0 2 true "Pod" 0 (reach stopping ltac:(vm_compute; reflexivity))
    ltac:(vm_compute; reflexivity) ltac:(vm_compute; reflexivity) ltac:(vm_compute; reflexivity) He s' Hs')
    as (Ht & Hu & _). by split.
Defined.

(** Request 1 gets its read lock only after the stop, while request 3 looks up a new informer. *)
Definition late_request : list (action (GVK := string)) :=
  dropping ++ steps 2 1 ++ steps 1 4 ++ NewCacheFor "Pod" :: steps 3 1.
End FactoryExample.
Import FactoryExample.

(** A request that found the informer of a type before the type was stopped, and takes
    its read lock after, is given the cache whose tables were dropped; when it gives the
    cache back while another request has just looked up the new informer, the runtime ends
    the process for releasing a lock that is not held. *)
Theorem late_request_crashes :
  ∃ s g s', rtc step (init (GVK := string)) s ∧
    threads s !! 1 = Some (Using "Pod" 0) ∧ guardeds s !! 0 = Some g ∧ g_dropped g = true ∧
    exec (Run 1 true) s = Some s' ∧ crashed s' = true.
Proof.
  destruct (run late_request init) as [s|] eqn:Hs; [|vm_compute in Hs; discriminate].
  pose proof (run_steps _ _ _ Hs) as Hsteps. vm_compute in Hs. injection Hs as <-.
  do 3 eexists. split; [exact Hsteps|]. split_and!; vm_compute; reflexivity.
Qed.
