(* ===== verification/SchemaWatch.v ===== *)
(** * Watching the schemas of a user: pkg/resources/schemas/template.go

    A watch of the schemas sends its client the differences between the schemas of the user
    whenever it is told that the schemas of the cluster or the access of the user have changed.
    [Store.Watch] runs a loop and a goroutine that looks up the access of the user every two
    seconds ([userChangeNotify]); they meet on an unbuffered channel. *)
From S2P Require Import Prelude GoLib AccessControl Schemas.

#[export] Instance APISchema_eq_dec : EqDecision APISchema.
Proof. solve_decision. Defined.

(** [delete(schema.Attributes, "access")]. *)
Definition delete_access (s : APISchema) : APISchema :=
  mkSchema (S_ID s) (S_Group s) (S_Version s) (S_Resource s) (S_Kind s) (S_Namespaced s) (S_Verbs s)
    (S_Disallow s) None (ResourceMethods s) (CollectionMethods s).

(** An APIObject of type schema: its ID and the schema. *)
Abbreviation schema_object := (string * APISchema)%type.

(** Package store/schema of github.com/rancher/apiserver, for the request of the watch, and the lookup of
    [types.APISchemas]. *)
Class SchemaStore `{APISchemas} := {
  FilterSchemas : apischemas → list schema_object;
  LookupSchema : apischemas → string → option APISchema
}.
(** The schemas a request may see are listed once each, without access. *)
Class SchemaStoreLaws `{SchemaStore} := {
  FilterSchemas_NoDup : ∀ r, NoDup (FilterSchemas r).*1;
  FilterSchemas_lookup : ∀ r id o, (id, o) ∈ FilterSchemas r →
    ∃ s, LookupSchema r id = Some s ∧ o = delete_access s
}.

Inductive event_kind := CreateSchema | ChangeSchema | RemoveSchema.
Record schema_event := mkSchemaEvent { se_Name : event_kind; se_Object : schema_object }.

(** ** The events of a change *)
Section events.
Context `{SchemaStore}.
Implicit Types (old new : apischemas) (o : schema_object).

(** The body of the first loop: nothing is sent for a schema that is the same as before. *)
Definition changed_event old o : option schema_event :=
  match LookupSchema old o.1 with
  | None => Some (mkSchemaEvent CreateSchema o)
  | Some oldSchema =>
      if bool_decide (o.2 = delete_access oldSchema) then None else Some (mkSchemaEvent ChangeSchema o)
  end.
Definition removed_event (inNewSchemas : gset string) o : option schema_event :=
  if bool_decide (o.1 ∈ inNewSchemas) then None else Some (mkSchemaEvent RemoveSchema o).
Definition events_between old new : list schema_event :=
  let apiObjects := FilterSchemas new in
  omap (changed_event old) apiObjects ++
  omap (removed_event (list_to_set apiObjects.*1)) (FilterSchemas old).

(** What a request sees, and a client that keeps what it is sent. *)
Definition view old : gmap string APISchema := list_to_map (FilterSchemas old).
Definition receive (m : gmap string APISchema) (e : schema_event) : gmap string APISchema :=
  match se_Name e with
  | RemoveSchema => delete (se_Object e).1 m
  | _ => <[(se_Object e).1 := (se_Object e).2]> m
  end.
(** A schema that is seen now and has not changed was seen before. *)
Definition visible_by_content old new : Prop := ∀ id s,
  LookupSchema old id = Some s → (id, delete_access s) ∈ FilterSchemas new → id ∈ (FilterSchemas old).*1.
End events.

(** ** The watch *)
(** [SStart]: in [Watch], before and after it has asked for the schemas; [SWaiting]: at the select of the loop, with the
    schemas it compares with; [SSending]: in [sendSchemas], with the events to be sent and the new schemas. *)
Inductive loop_pc `{APISchemas} :=
  | SStart
  | SAsked (schemas : apischemas)
  | SWaiting (schemas : apischemas)
  | SSending (pending : list schema_event) (schemas : apischemas)
  | SEnded
  | SRejected.
(** [userChangeNotify]: the ID of the access set it has seen, while it sleeps or sends. *)
Inductive notifier_pc :=
  | NNotStarted
  | NSleeping (id : string)
  | NSending (id : string)
  | NEnded.

(** [changes_open]: the channel of the broadcaster is open. [notifyCtx_done]: the context of both signals is done.
    [wg] and [result_closed]: the goroutine that waits for the wait group and closes the channel of the result. The last two
    are what the client has been sent, and the server when the schemas were last computed. *)
Record watch_state (Server : Type) `{APISchemas} := mkWatchState {
  server : Server;
  loop : loop_pc;
  notifier : notifier_pc;
  changes_open : bool;
  notifyCtx_done : bool;
  wg : nat;
  result_closed : bool;
  client : gmap string APISchema;
  computed_at : option Server }.
Arguments mkWatchState {_ _}.
Arguments server {_ _}.
Arguments loop {_ _}.
Arguments notifier {_ _}.
Arguments changes_open {_ _}.
Arguments notifyCtx_done {_ _}.
Arguments wg {_ _}.
Arguments result_closed {_ _}.
Arguments client {_ _}.
Arguments computed_at {_ _}.

Section watch.
Context `{SchemaStore} {Server : Type}.
(** The factory and the lookup of access sets, for the user of the request. *)
Context (factory_Schemas : Server → outcome string apischemas) (asl_AccessFor : Server → AccessSet).
Implicit Types (st : watch_state Server).

Definition set_loop (p : loop_pc) st : watch_state Server :=
  mkWatchState (server st) p (notifier st) (changes_open st) (notifyCtx_done st) (wg st) (result_closed st)
    (client st) (computed_at st).
Definition set_notifier (p : notifier_pc) st : watch_state Server :=
  mkWatchState (server st) (loop st) p (changes_open st) (notifyCtx_done st) (wg st) (result_closed st)
    (client st) (computed_at st).
Definition set_server (s : Server) st : watch_state Server :=
  mkWatchState s (loop st) (notifier st) (changes_open st) (notifyCtx_done st) (wg st) (result_closed st)
    (client st) (computed_at st).
Definition set_client (m : gmap string APISchema) st : watch_state Server :=
  mkWatchState (server st) (loop st) (notifier st) (changes_open st) (notifyCtx_done st) (wg st) (result_closed st)
    m (computed_at st).
Definition set_computed st : watch_state Server :=
  mkWatchState (server st) (loop st) (notifier st) (changes_open st) (notifyCtx_done st) (wg st) (result_closed st)
    (client st) (Some (server st)).
Definition close_changes st : watch_state Server :=
  mkWatchState (server st) (loop st) (notifier st) false (notifyCtx_done st) (wg st) (result_closed st)
    (client st) (computed_at st).
Definition notifyCancel st : watch_state Server :=
  mkWatchState (server st) (loop st) (notifier st) (changes_open st) true (wg st) (result_closed st)
    (client st) (computed_at st).
Definition wg_Done st : watch_state Server :=
  mkWatchState (server st) (loop st) (notifier st) (changes_open st) (notifyCtx_done st) (pred (wg st))
    (result_closed st) (client st) (computed_at st).
Definition close_result st : watch_state Server :=
  mkWatchState (server st) (loop st) (notifier st) (changes_open st) (notifyCtx_done st) (wg st) true
    (client st) (computed_at st).

(** [sendSchemas], up to the sends: an error keeps the schemas it had. *)
Definition sendSchemas (oldSchemas : apischemas) st : watch_state Server :=
  match factory_Schemas (server st) with
  | Ok schemas => set_computed (set_loop (SSending (events_between oldSchemas schemas) schemas) st)
  | _ => st
  end.
(** The client starts with the schemas it may see when the watch computes its first ones. *)
Definition first_schemas st : watch_state Server :=
  match factory_Schemas (server st) with
  | Ok schemas => set_computed (set_client (view schemas) (set_loop (SAsked schemas) st))
  | _ => set_loop SRejected st
  end.
(** The loop returns: both deferred calls. *)
Definition end_loop st : watch_state Server := notifyCancel (wg_Done (set_loop SEnded st)).

Inductive watch_step st : watch_state Server → Prop :=
  | watch_server s : watch_step st (set_server s st)
  | watch_cancel : watch_step st (notifyCancel st)
  | watch_close_changes : watch_step st (close_changes st)
  | watch_start : loop st = SStart → watch_step st (first_schemas st)
  | watch_no_notify r : loop st = SAsked r → watch_step st (set_loop SRejected (notifyCancel st))
  | watch_ready r : loop st = SAsked r →
      watch_step st (set_loop (SWaiting r) (set_notifier (NSleeping (ID (asl_AccessFor (server st)))) st))
  | watch_change old : loop st = SWaiting old → watch_step st (sendSchemas old st)
  | watch_changes_closed old : loop st = SWaiting old → changes_open st = false → watch_step st (end_loop st)
  | watch_user_closed old : loop st = SWaiting old → notifier st = NEnded → watch_step st (end_loop st)
  | watch_send e es r : loop st = SSending (e :: es) r →
      watch_step st (set_client (receive (client st) e) (set_loop (SSending es r) st))
  | watch_sent r : loop st = SSending [] r → watch_step st (set_loop (SWaiting r) st)
  | watch_tick id : notifier st = NSleeping id →
      let newID := ID (asl_AccessFor (server st)) in
      watch_step st (if bool_decide (newID ≠ id) then set_notifier (NSending newID) st else st)
  | watch_user_change id old : notifier st = NSending id → loop st = SWaiting old →
      watch_step st (sendSchemas old (set_notifier (NSleeping id) st))
  | watch_notifier_done id : notifier st = NSleeping id → notifyCtx_done st = true →
      watch_step st (set_notifier NEnded st)
  | watch_closer : wg st = 0 → watch_step st (close_result st).
Inductive watch_steps st : watch_state Server → Prop :=
  | watch_refl : watch_steps st st
  | watch_next st' st'' : watch_steps st st' → watch_step st' st'' → watch_steps st st''.
Definition new_watch (s : Server) : watch_state Server := mkWatchState s SStart NNotStarted true false 1 false ∅ None.
End watch.

(** ** The events lead from the old view to the new one *)
Section events_lemmas.
Context `{SchemaStore}.
Implicit Types (old new : apischemas) (es : list schema_event) (m : gmap string APISchema).

Definition event_id (e : schema_event) : string := (se_Object e).1.
Definition received (e : schema_event) : option APISchema :=
  match se_Name e with RemoveSchema => None | _ => Some (se_Object e).2 end.

Lemma receive_lookup m e id :
  receive m e !! id = if decide (id = event_id e) then received e else m !! id.
Proof.
  unfold receive, received, event_id. destruct (se_Name e); case_decide; subst;
    rewrite ?lookup_insert_eq, ?lookup_delete_eq, ?lookup_insert_ne, ?lookup_delete_ne by done; done.
Qed.
Lemma receive_all_other es m id : id ∉ event_id <$> es → foldl receive m es !! id = m !! id.
Proof.
  revert m. induction es as [|e es IH]; intros m Hid; [done|]. cbn in Hid |- *.
  rewrite not_elem_of_cons in Hid. destruct Hid as [Hne Hid].
  rewrite IH, receive_lookup by done. by rewrite decide_False by done.
Qed.
Lemma receive_all_lookup es m e :
  NoDup (event_id <$> es) → e ∈ es → foldl receive m es !! event_id e = received e.
Proof.
  revert m. induction es as [|e' es IH]; intros m Hnd He; [by apply elem_of_nil in He|].
  cbn in Hnd |- *. apply list.NoDup_cons in Hnd as [Hnot Hnd].
  apply elem_of_cons in He as [<-|He]; [|by apply IH].
  rewrite receive_all_other, receive_lookup by done. by rewrite decide_True by done.
Qed.

Lemma omap_ids (f : schema_object → option schema_event) (l : list schema_object) :
  (∀ o e, f o = Some e → event_id e = o.1) → event_id <$> omap f l `sublist_of` l.*1.
Proof.
  intros Hf. induction l as [|o l IH]; [done|]. cbn. destruct (f o) as [e|] eqn:Ho; cbn.
  - rewrite (Hf o e Ho). by constructor.
  - by constructor.
Qed.
Lemma changed_event_id old o e : changed_event old o = Some e → event_id e = o.1.
Proof. unfold changed_event. destruct (LookupSchema old o.1); [case_bool_decide|]; naive_solver. Qed.
Lemma changed_received old o e : changed_event old o = Some e → received e = Some o.2.
Proof. unfold changed_event. destruct (LookupSchema old o.1); [case_bool_decide|]; naive_solver. Qed.
Lemma removed_event_id ids o e : removed_event ids o = Some e → event_id e = o.1 ∧ o.1 ∉ ids.
Proof. unfold removed_event. case_bool_decide; naive_solver. Qed.

Context `{!SchemaStoreLaws}.

Lemma events_NoDup old new : NoDup (event_id <$> events_between old new).
Proof.
  unfold events_between. rewrite fmap_app. apply list.NoDup_app. split_and!.
  - eapply sublist_NoDup; [apply (FilterSchemas_NoDup new)|]. apply omap_ids, changed_event_id.
  - intros id (e & -> & (o & Ho & He)%list_elem_of_omap)%list_elem_of_fmap
      (e' & Hid & (o' & Ho' & He')%list_elem_of_omap)%list_elem_of_fmap.
    apply changed_event_id in He. apply removed_event_id in He' as [He' Hnot].
    apply Hnot, elem_of_list_to_set, list_elem_of_fmap. exists o. split; [congruence|done].
  - eapply sublist_NoDup; [apply (FilterSchemas_NoDup old)|]. apply omap_ids. intros o e He.
    by apply removed_event_id in He as [Hid _].
Qed.

Lemma view_lookup r id o : view r !! id = Some o ↔ (id, o) ∈ FilterSchemas r.
Proof. unfold view. rewrite elem_of_list_to_map; [done|apply FilterSchemas_NoDup]. Qed.
Lemma view_None r id : view r !! id = None ↔ id ∉ (FilterSchemas r).*1.
Proof.
  split.
  - intros Hn. by apply not_elem_of_list_to_map_2 in Hn.
  - intros Hn. by apply not_elem_of_list_to_map_1.
Qed.
Lemma view_at r id o s : (id, o) ∈ FilterSchemas r → LookupSchema r id = Some s → o = delete_access s.
Proof. intros Ho Hs. apply FilterSchemas_lookup in Ho as (s' & Hs' & ->). congruence. Qed.

Lemma in_changed old new e : e ∈ omap (changed_event old) (FilterSchemas new) → e ∈ events_between old new.
Proof. intros He. apply elem_of_app. by left. Qed.
Lemma in_removed old new o : o ∈ FilterSchemas old → o.1 ∉ (FilterSchemas new).*1 →
  mkSchemaEvent RemoveSchema o ∈ events_between old new.
Proof.
  intros Ho Hn. apply elem_of_app. right. apply list_elem_of_omap. exists o. split; [done|].
  unfold removed_event. by rewrite bool_decide_eq_false_2 by (by rewrite elem_of_list_to_set).
Qed.
Lemma event_ids old new id : id ∈ event_id <$> events_between old new →
  id ∈ (FilterSchemas new).*1 ∨ (id ∈ (FilterSchemas old).*1 ∧ id ∉ (FilterSchemas new).*1).
Proof.
  intros (e & -> & [He|He]%elem_of_app)%list_elem_of_fmap; apply list_elem_of_omap in He as (o & Ho & He).
  - left. rewrite (changed_event_id _ _ _ He). apply list_elem_of_fmap. by exists o.
  - right. apply removed_event_id in He as [-> Hn]. rewrite elem_of_list_to_set in Hn. split; [|done].
    apply list_elem_of_fmap. by exists o.
Qed.

(** A client that had the old view and applies the events has the new one. *)
Lemma events_between_view old new :
  visible_by_content old new → foldl receive (view old) (events_between old new) = view new.
Proof.
  intros Hvis. apply map_eq. intros id. pose proof (events_NoDup old new) as Hnd.
  destruct (view new !! id) as [o|] eqn:Hnew.
  - apply view_lookup in Hnew as Ho. destruct (changed_event old (id, o)) as [e|] eqn:He.
    + pose proof (changed_event_id _ _ _ He) as Hid. cbn in Hid. rewrite <-Hid. rewrite receive_all_lookup; [|done|].
      * by apply changed_received in He.
      * apply in_changed, list_elem_of_omap. by exists (id, o).
    + rewrite receive_all_other.
      * revert He. unfold changed_event. cbn. destruct (LookupSchema old id) as [s|] eqn:Hs; [|done].
        case_bool_decide as Hsame; [|done]. intros _. subst o. pose proof (Hvis id s Hs Ho) as Hin.
        apply list_elem_of_fmap in Hin as ([id' o'] & -> & Hin). cbn in *.
        rewrite (view_at _ _ _ _ Hin Hs) in Hin. by apply view_lookup.
      * intros (e & -> & [Hin|Hin]%elem_of_app)%list_elem_of_fmap; apply list_elem_of_omap in Hin as ([id' o'] & Hin & He').
        -- pose proof (changed_event_id _ _ _ He') as Hid'. cbn in Hid'. rewrite <-Hid' in Hin.
           apply view_lookup in Hin. rewrite Hnew in Hin. injection Hin as <-. rewrite <-Hid' in He'. congruence.
        -- apply removed_event_id in He' as [Hid' Hn]. apply Hn, elem_of_list_to_set, list_elem_of_fmap.
           exists (event_id e, o). split; [done|]. by apply view_lookup.
  - apply view_None in Hnew as Hn. destruct (view old !! id) as [o|] eqn:Hold.
    + apply view_lookup in Hold. pose proof (in_removed old new (id, o) Hold Hn) as Hin.
      change id with (event_id (mkSchemaEvent RemoveSchema (id, o))). by rewrite receive_all_lookup.
    + rewrite receive_all_other; [done|]. apply view_None in Hold. intros [?|[? _]]%event_ids; done.
Qed.
(** Whatever a client that had nothing but the old view has after the events is of the new one. *)
Lemma events_between_within m old new : m ⊆ view old → foldl receive m (events_between old new) ⊆ view new.
Proof.
  intros Hm. apply map_subseteq_spec. intros id o Ho. pose proof (events_NoDup old new) as Hnd.
  destruct (decide (id ∈ event_id <$> events_between old new)) as [Hin|Hout].
  - apply list_elem_of_fmap in Hin as (e & -> & He). rewrite receive_all_lookup in Ho by done.
    apply elem_of_app in He as [He|He]; apply list_elem_of_omap in He as ([id' o'] & Hin & He).
    + pose proof (changed_event_id _ _ _ He) as Hid. apply changed_received in He. cbn in Hid, He. rewrite Hid.
      assert (o' = o) as -> by congruence. by apply view_lookup.
    + unfold removed_event in He. case_bool_decide; [done|]. by injection He as <-.
  - rewrite receive_all_other in Ho by done. pose proof (lookup_weaken _ _ _ _ Ho Hm) as Hold%view_lookup.
    destruct (view new !! id) as [o'|] eqn:Hnew.
    + apply view_lookup in Hnew. destruct (changed_event old (id, o')) as [e|] eqn:He.
      * destruct Hout. apply list_elem_of_fmap. exists e. split; [by rewrite (changed_event_id _ _ _ He)|].
        apply in_changed, list_elem_of_omap. by exists (id, o').
      * unfold changed_event in He. cbn in He. destruct (LookupSchema old id) as [s|] eqn:Hs; [|done].
        case_bool_decide as Hsame; [|done]. by rewrite (view_at _ _ _ _ Hold Hs), Hsame.
    + destruct Hout. apply view_None in Hnew. apply list_elem_of_fmap.
      eexists. split; [|by apply (in_removed old new (id, o))]. done.
Qed.
End events_lemmas.

(** ** Invariants of the watch *)
Section watch_lemmas.
Context `{SchemaStoreLaws} {Server : Type}.
Context (factory_Schemas : Server → outcome string apischemas) (asl_AccessFor : Server → AccessSet).
Implicit Types (st : watch_state Server).
Local Abbreviation wstep := (watch_step factory_Schemas asl_AccessFor).
Local Abbreviation wsteps := (watch_steps factory_Schemas asl_AccessFor).

Lemma watch_steps_ind_inv (P : watch_state Server → Prop) st st' :
  (∀ st st', P st → wstep st st' → P st') → P st → wsteps st st' → P st'.
Proof. intros Hstep Hst. induction 1; eauto. Qed.

(** What is pending is sent by steps that need only the client. *)
Lemma events_sent es r st st' : wsteps st st' → loop st' = SSending es r →
  ∃ st2, wsteps st st2 ∧ loop st2 = SWaiting r ∧ computed_at st2 = computed_at st'.
Proof.
  revert st'. induction es as [|e es IH]; intros st' Hst Hl.
  - exists (set_loop (SWaiting r) st'). split_and!; [|done..]. eapply watch_next; [exact Hst|]. by apply watch_sent.
  - destruct (IH (set_client (receive (client st') e) (set_loop (SSending es r) st'))) as (st2 & H2 & ? & ?); [|done|].
    + eapply watch_next; [exact Hst|]. by apply watch_send.
    + by exists st2.
Qed.
Lemma change_sent st st' old new : wsteps st st' → loop st' = SWaiting old → factory_Schemas (server st') = Ok new →
  ∃ st2, wsteps st st2 ∧ loop st2 = SWaiting new ∧ computed_at st2 = Some (server st').
Proof.
  intros Hst Hl Hnew. pose proof (watch_next _ _ _ _ _ Hst (watch_change _ _ _ old Hl)) as Hc.
  unfold sendSchemas in Hc. rewrite Hnew in Hc. by destruct (events_sent _ new st _ Hc eq_refl) as (st2 & ? & ? & ?); eauto.
Qed.

(** The wait group is released exactly by the end of the loop, and the channel is closed after that. *)
Definition ended (p : loop_pc) : bool := match p with SEnded => true | _ => false end.
Definition wg_ok st : Prop :=
  wg st = (if ended (loop st) then 0 else 1) ∧ (result_closed st = true → loop st = SEnded).
Lemma ended_true p : ended p = true → p = SEnded.
Proof. by destruct p. Qed.

Lemma sendSchemas_wg old st : loop st ≠ SEnded → wg_ok st → wg_ok (sendSchemas factory_Schemas old st).
Proof.
  unfold sendSchemas, wg_ok. intros Hl [Hwg Hc]. destruct (factory_Schemas _); [|done..]. cbn.
  destruct (loop st); naive_solver.
Qed.
Lemma watch_step_wg st st' : wg_ok st → wstep st st' → wg_ok st'.
Proof.
  intros Hok Hs. destruct Hs; try (apply sendSchemas_wg; [cbn; congruence|]; exact Hok);
    destruct Hok as [Hwg Hc]; unfold wg_ok, first_schemas, end_loop;
    try (destruct (factory_Schemas _)); try case_bool_decide; cbn in *;
    try match goal with Hl : loop st = _ |- _ => rewrite Hl in *; cbn in * end;
    try (split; [first [done|by rewrite Hwg]|intros Hr; first [done|by specialize (Hc Hr)|by apply Hc]]); try done.
  split; [done|]. intros _. apply ended_true. destruct (ended (loop st)); [done|]. congruence.
Qed.

(** Between two changes the client has the view of the schemas last computed, or gets it with the events
    still to be sent. *)
Definition computed st (r : apischemas) : Prop :=
  ∃ s, computed_at st = Some s ∧ factory_Schemas s = Ok r.
(** [R] relates what the client has to the view. *)
Context (R : gmap string APISchema → gmap string APISchema → Prop).
Definition tracks st : Prop :=
  match loop st with
  | SAsked r | SWaiting r => R (client st) (view r) ∧ computed st r
  | SSending es r => R (foldl receive (client st) es) (view r) ∧ computed st r
  | _ => True
  end.
Context (R_refl : ∀ r, R (view r) (view r)).
Context (R_change : ∀ s s' old new m, factory_Schemas s = Ok old → factory_Schemas s' = Ok new →
  R m (view old) → R (foldl receive m (events_between old new)) (view new)).

Lemma sendSchemas_tracks old st : loop st = SWaiting old → tracks st → tracks (sendSchemas factory_Schemas old st).
Proof.
  unfold sendSchemas. intros Hl Ht. destruct (factory_Schemas (server st)) as [new| |] eqn:Hnew; [|done..].
  unfold tracks in *. rewrite Hl in Ht. cbn. destruct Ht as [HR (s & _ & Hold)]. split; [by eapply R_change|].
  by exists (server st).
Qed.
Lemma watch_step_tracks st st' : tracks st → wstep st st' → tracks st'.
Proof.
  intros Ht Hs. destruct Hs; try (apply sendSchemas_tracks; [done|exact Ht]);
    unfold tracks, first_schemas in *; try case_bool_decide;
    try match goal with Hl : loop st = _ |- _ => rewrite Hl in Ht; cbn in Ht |- * end; try done.
  destruct (factory_Schemas (server st)) as [r| |] eqn:Hr; cbn; [|done..].
  split; [done|]. by exists (server st).
Qed.
Lemma waiting_tracks s0 st r : wsteps (new_watch s0) st → loop st = SWaiting r →
  R (client st) (view r) ∧ computed st r.
Proof.
  intros Hst Hr. assert (tracks st) as Ht by (eapply watch_steps_ind_inv; [by apply watch_step_tracks| |exact Hst]; done).
  unfold tracks in Ht. by rewrite Hr in Ht.
Qed.
End watch_lemmas.

Section watch_theorems.
Context `{SchemaStoreLaws} {Server : Type}.
Context (factory_Schemas : Server → outcome string apischemas) (asl_AccessFor : Server → AccessSet).
Implicit Types (st : watch_state Server).

(** C19: However changes of the server, signals, cancellations and the goroutines of a watch of the schemas
    interleave, a client that starts with the schemas it may see at the start and applies the events it is sent has,
    whenever the watch waits for a change, only schemas it may see among those last computed, as they are there, without
    access; it has all of them when a schema that it sees after a change and that has not changed was always seen before it
    (which fails for one that is seen only as another refers to it, [SchemaWatchExample.referenced_schema_missed]). The
    channel of the events is closed only after the loop that sends them has ended. *)
Theorem schema_watch_tracks s0 st :
  watch_steps factory_Schemas asl_AccessFor (new_watch s0) st →
  (∀ r, loop st = SWaiting r →
    (∃ s, computed_at st = Some s ∧ factory_Schemas s = Ok r) ∧
    client st ⊆ view r ∧
    ((∀ s s' old new, factory_Schemas s = Ok old → factory_Schemas s' = Ok new → visible_by_content old new) →
       client st = view r)) ∧
  (result_closed st = true → loop st = SEnded).
Proof.
  intros Hst. split.
  - intros r Hr. split_and!.
    + by eapply (waiting_tracks _ _ (⊆)); [|intros; by apply events_between_within|done..].
    + by eapply (waiting_tracks _ _ (⊆)); [|intros; by apply events_between_within|done..].
    + intros Hvis. eapply (waiting_tracks _ _ eq); [done| |done..].
      intros s s' old new m Hold Hnew ->. apply events_between_view. by eapply Hvis.
  - assert (wg_ok st) as [_ Hc]; [|exact Hc].
    eapply watch_steps_ind_inv; [by apply watch_step_wg| |exact Hst]. done.
Qed.

(** A watch that is refused after its request was accepted leaves its goroutine and its channel behind for ever. *)
Theorem rejected_watch_leaks st st' : loop st = SRejected → wg st = 1 → result_closed st = false →
  watch_steps factory_Schemas asl_AccessFor st st' → loop st' = SRejected ∧ wg st' = 1 ∧ result_closed st' = false.
Proof.
  intros Hl Hwg Hc. induction 1 as [|st1 st2 _ IH Hs]; [done|]. destruct IH as (Hl1 & Hwg1 & Hc1).
  destruct Hs; try congruence; try case_bool_decide; done.
Qed.

(** A goroutine that sends a change of access when the loop has ended never ends, even though the contexts
    are done. *)
Theorem ended_watch_leaks_notifier st st' id : loop st = SEnded → notifier st = NSending id →
  watch_steps factory_Schemas asl_AccessFor st st' → loop st' = SEnded ∧ notifier st' = NSending id.
Proof.
  intros Hl Hn. induction 1 as [|st1 st2 _ IH Hs]; [done|]. destruct IH as (Hl1 & Hn1).
  destruct Hs; try congruence; done.
Qed.
End watch_theorems.

(** ** Concrete watches *)
Module SchemaWatchExample.
Import SchemasExample.

(** A request sees the schemas with a GET method, and those that the schemas it sees refer to. *)
Definition seen (s : APISchema) : bool := bool_decide ("GET" ∈ ResourceMethods s ++ CollectionMethods s).
Section store.
Context (refers : string → list string).
Definition listed (r : apischemas) (p : schema_object) : bool :=
  seen p.2 || existsb (λ q, seen q.2 && bool_decide (p.1 ∈ refers q.1)) (map_to_list r.1).
Definition store_of : SchemaStore := {|
  FilterSchemas := λ r, prod_map id delete_access <$> List.filter (listed r) (map_to_list r.1);
  LookupSchema := λ r id, r.1 !! id
|}.
Lemma filter_ids (f : schema_object → bool) (m : gmap string APISchema) :
  NoDup (prod_map id delete_access <$> List.filter f (map_to_list m)).*1.
Proof.
  rewrite <-list_fmap_compose. change (fst ∘ prod_map id delete_access) with (@fst string APISchema).
  eapply sublist_NoDup; [apply (NoDup_fst_map_to_list m)|]. induction (map_to_list m) as [|p l IH]; [done|].
  cbn. destruct (f p); cbn; by constructor.
Qed.
Lemma store_laws : @SchemaStoreLaws _ store_of.
Proof.
  split; [intros; apply filter_ids|]. intros r id o ([id' s] & [= -> ->] & Hs)%list_elem_of_fmap.
  apply list_elem_of_In, filter_In in Hs as [Hs _]. apply list_elem_of_In, elem_of_map_to_list in Hs.
  by exists s.
Qed.
End store.
#[export] Instance no_references : SchemaStore := store_of (λ _, []).
#[export] Instance no_references_laws : SchemaStoreLaws := store_laws (λ _, []).

Lemma seen_listed (r : apischemas) p : listed (λ _, []) r p = seen p.2.
Proof.
  unfold listed. induction (map_to_list r.1) as [|q l IH]; cbn; [by rewrite orb_false_r|].
  by rewrite (bool_decide_eq_false_2 _ (not_elem_of_nil _)), andb_false_r.
Qed.
Lemma seen_delete s : seen (delete_access s) = seen s.
Proof. done. Qed.
Lemma visible_no_references (old new : apischemas) : visible_by_content old new.
Proof.
  intros id s Hs ([id' s'] & Heq & Hin)%list_elem_of_fmap.
  pose proof (f_equal snd Heq) as Hss. pose proof (f_equal fst Heq) as Hid. cbn in Hid, Hss. subst.
  apply list_elem_of_In, filter_In in Hin as [_ Hseen]. rewrite seen_listed in Hseen.
  apply list_elem_of_fmap. exists (id', delete_access s). split; [done|]. apply list_elem_of_fmap.
  exists (id', s). split; [done|]. apply list_elem_of_In, filter_In. split.
  - by apply list_elem_of_In, elem_of_map_to_list.
  - rewrite seen_listed. change (seen s' = true) in Hseen. change (seen s = true).
    by rewrite <-seen_delete, Hss.
Qed.

(** A server: the schemas of the user, and the ID of their access. *)
Abbreviation server_of := (gmap string APISchema * string)%type.
Definition user_schemas (s : server_of) : outcome string apischemas := Ok (s.1, None).
Definition user_access (s : server_of) : AccessSet := mkAccessSet s.2 ∅ ∅.
Definition readable (s : APISchema) : APISchema := with_methods s ["GET"] ["GET"].
Definition before : server_of := ({["pod" := readable pods_schema]}, "a").
Definition later : server_of := ({["namespace" := readable namespaces_schema]}, "b").
Local Abbreviation wstep := (watch_step user_schemas user_access).
Local Abbreviation wsteps := (watch_steps user_schemas user_access).

(** The watch of a user whose schemas change while it runs. *)
Definition started : watch_state server_of :=
  set_loop (SWaiting (before.1, None)) (set_notifier (NSleeping "a")
    (first_schemas user_schemas (new_watch before))).
Lemma started_steps : wsteps (new_watch before) started.
Proof.
  eapply watch_next; [eapply watch_next; [apply watch_refl|by apply watch_start]|]. by eapply watch_ready.
Qed.
Lemma change_steps : ∃ st, wsteps (new_watch before) st ∧ loop st = SWaiting (later.1, None) ∧
  computed_at st = Some later.
Proof.
  apply (change_sent _ _ _ (set_server later started) (before.1, None)); [|done..].
  eapply watch_next; [apply started_steps|apply watch_server].
Qed.

Lemma schema_watch_tracks_witness : ∃ st, wsteps (new_watch before) st ∧
  client st = {["namespace" := readable namespaces_schema]} ∧ computed_at st = Some later.
Proof.
  destruct change_steps as (st & Hst & Hl & Hs). exists st. split; [exact Hst|]. split; [|exact Hs].
  destruct (schema_watch_tracks user_schemas user_access before st Hst) as [Ht _].
  destruct (Ht _ Hl) as (_ & _ & Hc). rewrite Hc; [vm_compute; reflexivity|]. intros. apply visible_no_references.
Defined.

(** The access of the user is looked up after the schemas were computed: a change in between is never sent. *)
Example change_before_lookup_lost : ∃ st r, wsteps (new_watch before) st ∧ server st = later ∧
  loop st = SWaiting r ∧ notifier st = NSleeping (ID (user_access later)) ∧
  client st = {["pod" := readable pods_schema]}.
Proof.
  pose proof (watch_refl user_schemas user_access (new_watch before)) as Hst.
  eapply watch_next in Hst; [|by apply watch_start]. eapply watch_next in Hst; [|apply (watch_server _ _ _ later)].
  eapply watch_next in Hst; [|by eapply watch_ready].
  eexists _, _. split; [exact Hst|]. split_and!; [done..|]. vm_compute. reflexivity.
Qed.

(** A change of access while the watch is cancelled leaves its goroutine behind. *)
Example cancelled_watch_leaks : ∃ st, wsteps (new_watch before) st ∧ loop st = SEnded ∧
  notifier st = NSending "b" ∧ notifyCtx_done st = true.
Proof.
  pose proof started_steps as Hst. eapply watch_next in Hst; [|apply (watch_server _ _ _ later)].
  eapply watch_next in Hst; [|by apply (watch_tick _ _ _ "a")]. eapply watch_next in Hst; [|apply watch_cancel].
  eapply watch_next in Hst; [|apply watch_close_changes]. eapply watch_next in Hst; [|by eapply watch_changes_closed].
  eexists. split; [exact Hst|]. done.
Qed.

(** A schema that is seen only because another refers to it: when the other one appears, no event is sent for
    it, as it has not changed. *)
Definition pods_refer (id : string) : list string := if bool_decide (id = "pod") then ["namespace"] else [].
Example referenced_schema_missed :
  let old := ({["namespace" := namespaces_schema]}, None) : apischemas in
  let new := ({["namespace" := namespaces_schema; "pod" := readable pods_schema]}, None) : apischemas in
  (* the store of a request that also lists what the schemas it sees refer to *)
  let events := @events_between _ (store_of pods_refer) old new in
  (@view _ (store_of pods_refer) new) !! "namespace" = Some namespaces_schema ∧
  (foldl receive (@view _ (store_of pods_refer) old) events) !! "namespace" = None.
Proof. vm_compute. done. Qed.
End SchemaWatchExample.
