(* ===== verification/RequestAuth.v ===== *)
(** * Who a request is from, and requests passed on to Kubernetes: pkg/auth/filter.go, pkg/proxy/proxy.go

    A middleware authenticates a request and puts its user into the context ([Auth]); the proxy sends
    requests for the Kubernetes API on as that user, with the credentials of the server, or with the
    bearer token of the request when the server does not know its user ([Proxy]). *)
From S2P Require Import Prelude GoLib.

(** ** net/http *)
Abbreviation Header := (gmap string (list string)).

Definition is_lower (c : ascii) : bool := bool_decide (97 ≤ N_of_ascii c ≤ 122)%N.
Definition is_upper (c : ascii) : bool := bool_decide (65 ≤ N_of_ascii c ≤ 90)%N.
Definition to_upper_char (c : ascii) : ascii := if is_lower c then ascii_of_N (N_of_ascii c - 32) else c.
Definition to_lower_char (c : ascii) : ascii := if is_upper c then ascii_of_N (N_of_ascii c + 32) else c.
Definition is_token_char (c : ascii) : bool :=
  is_lower c || is_upper c || is_digit c || has_char c "!#$%&'*+-.^_`|~".
Fixpoint canonical_from (upper : bool) (s : string) : string :=
  match s with
  | "" => ""
  | String c r => String (if upper then to_upper_char c else to_lower_char c) (canonical_from (Ascii.eqb c "-") r)
  end.
Definition CanonicalHeaderKey (k : string) : string := if all_chars is_token_char k then canonical_from true k else k.

Definition Header_Get (h : Header) (k : string) : string :=
  match h !! CanonicalHeaderKey k with Some (v :: _) => v | _ => "" end.
Definition Header_Del (h : Header) (k : string) : Header := delete (CanonicalHeaderKey k) h.
Definition Header_Set (h : Header) (k v : string) : Header := <[CanonicalHeaderKey k := [v]]> h.

Inductive cookie_error := ErrNoCookie | CookieError (message : string).

(** [user.Info] of k8s.io/apiserver. *)
Record Info := mkInfo {
  i_Name : string; i_UID : string; i_Groups : list string; i_Extra : gmap string (list string) }.

(** A request, with the values of its context: its user ([request.UserFrom]) and whether its authentication
    failed. *)
Record request := mkRequest {
  r_Path : string;
  r_Host : string;
  r_Header : Header;
  r_TLS : bool;
  r_Cookie : string → cookie_error + string;
  r_User : option Info;
  r_AuthFailed : option string }.
Definition with_user (info : option Info) (req : request) : request :=
  mkRequest (r_Path req) (r_Host req) (r_Header req) (r_TLS req) (r_Cookie req) info (r_AuthFailed req).
Definition with_failed (v : string) (req : request) : request :=
  mkRequest (r_Path req) (r_Host req) (r_Header req) (r_TLS req) (r_Cookie req) (r_User req) (Some v).
Definition with_header (h : Header) (req : request) : request :=
  mkRequest (r_Path req) (r_Host req) h (r_TLS req) (r_Cookie req) (r_User req) (r_AuthFailed req).
Definition with_path (p : string) (req : request) : request :=
  mkRequest p (r_Host req) (r_Header req) (r_TLS req) (r_Cookie req) (r_User req) (r_AuthFailed req).

Definition TrimPrefix (s prefix : string) : string :=
  if String.prefix prefix s then str_drop (String.length prefix) s else s.

(** ** Authentication *)
Module Auth.
(** Who the request is from, whether it is authenticated, and an error. *)
Definition Authenticator : Type := request → option Info * bool * option string.
(** A handler of requests that answers with [R]. *)
Definition Middleware : Type := ∀ R : Type, (request → R) → request → R.
Definition Chain (m middleware : Middleware) : Middleware := λ R next, m R (middleware R next).

Definition unauthenticated : string := "system:unauthenticated".
Definition error_user : Info :=
  mkInfo "system:cattle:error" "system:cattle:error" [unauthenticated; "system:cattle:error"] ∅.
Definition unauthenticated_user : Info := mkInfo unauthenticated unauthenticated [unauthenticated] ∅.

Definition ToMiddleware (auth : Authenticator) : Middleware := λ R next req,
  let '(info, ok, err) := auth req in
  let '(info, req') := match err with
    | Some _ => (Some error_user, with_failed "true" req)
    | None => if ok then (info, req) else (Some unauthenticated_user, req)
    end in
  next (with_user info req').

Definition ExistingContext : Middleware := ToMiddleware (λ req, (r_User req, bool_decide (is_Some (r_User req)), None)).
Definition AlwaysAdmin : Authenticator :=
  λ _, (Some (mkInfo "admin" "admin" ["system:masters"; "system:authenticated"] ∅), true, None).

(** The names of the headers of client-go's transport. *)
Class ImpersonationHeaders := {
  ImpersonateUserHeader : string;
  ImpersonateGroupHeader : string;
  ImpersonateUserExtraHeaderPrefix : string
}.
Definition Impersonation `{ImpersonationHeaders, MapRange} : Authenticator := λ req,
  let userName := Header_Get (r_Header req) ImpersonateUserHeader in
  if bool_decide (userName = "") then (None, false, None)
  else
    let extra := foldl (λ (extra : gmap string (list string)) '(k, v),
      if String.prefix ImpersonateUserExtraHeaderPrefix k
      then <[str_drop (String.length ImpersonateUserExtraHeaderPrefix) k := v]> extra else extra)
      ∅ (range_map (r_Header req)) in
    (Some (mkInfo userName "" (default [] (r_Header req !! ImpersonateGroupHeader)) extra), true, None).

(** The authenticators of tokens of k8s.io/apiserver, from a configuration and with a cache. *)
Class TokenAuth := {
  kubeConfig : Type;
  AuthenticateToken : Type;
  run_token : AuthenticateToken → string → option (option Info) * bool * option string;
  webhook_New : kubeConfig → outcome string AuthenticateToken;
  cache_New : AuthenticateToken → Z → AuthenticateToken
}.
Section webhook.
Context `{TokenAuth}.

(** The token of a request, empty if it has none. *)
Definition webhook_token (req : request) : string + string :=
  let token := Header_Get (r_Header req) "Authorization" in
  let token := if String.prefix "Bearer " token then TrimPrefix token "Bearer " else "" in
  if bool_decide (token = "") then
    match r_Cookie req "R_SESS" with
    | inl (CookieError e) => inl e
    | inl ErrNoCookie => inr token
    | inr v => inr (if bool_decide (0 < String.length v) then "cookie://" +:+ v else token)
    end
  else inr token.
Definition webhook_Authenticate (auth : AuthenticateToken) : Authenticator := λ req,
  match webhook_token req with
  | inl e => (None, false, Some e)
  | inr token =>
      if bool_decide (token = "") then (None, false, None)
      else
        let '(resp, ok, err) := run_token auth token in
        match resp with
        | None => (None, ok, err)
        | Some user => (user, ok, err)
        end
  end.

Definition NewWebhookAuthenticator (cacheTTL : Z) (cfg : kubeConfig) : outcome string Authenticator :=
  wh ← webhook_New cfg;
  Ok (webhook_Authenticate (if bool_decide (0 < cacheTTL)%Z then cache_New wh cacheTTL else wh)).
Definition NewWebhookMiddleware (cacheTTL : Z) (cfg : kubeConfig) : outcome string Middleware :=
  auth ← NewWebhookAuthenticator cacheTTL cfg; Ok (ToMiddleware auth).
End webhook.
End Auth.
Import Auth.

(** ** Requests sent on to Kubernetes *)
Module Proxy.
(** What rest.Config of client-go holds: its credentials, and its other fields. *)
Class RestConfig := {
  other_fields : Type;
  plugin : Type
}.
Record ImpersonationConfig := mkImpersonationConfig {
  imp_UserName : string; imp_UID : string; imp_Groups : list string; imp_Extra : gmap string (list string) }.
Definition no_impersonation : ImpersonationConfig := mkImpersonationConfig "" "" [] ∅.
Record Config `{RestConfig} := mkConfig {
  Host : string;
  Username : string;
  Password : string;
  BearerToken : string;
  BearerTokenFile : string;
  CertFile : string;
  CertData : string;
  KeyFile : string;
  KeyData : string;
  AuthProvider : option plugin;
  ExecProvider : option plugin;
  AuthConfigPersister : option plugin;
  Impersonate : ImpersonationConfig;
  cfg_other : other_fields }.
(** Whether transports can be made from a configuration: the error of the call; and url.Parse, for the path of a URL. *)
Class Transports `{RestConfig} := {
  TransportFor : Config → option string;
  TransportConfig : Config → option string;
  HTTPWrappersForConfig : Config → option string;
  url_Parse_Path : string → string + string
}.
Definition no_error (err : option string) : outcome string unit := match err with None => Ok () | Some e => Err e end.
Definition or_error {A : Type} (r : string + A) : outcome string A := match r with inr a => Ok a | inl e => Err e end.

(** A request as it is passed on: to a target, with the transports of a configuration. *)
Record forwarded `{RestConfig} := mkForwarded { f_config : Config; f_target : string; f_request : request }.
Inductive answer `{RestConfig} := Refused (code : Z) (message : string) | Forwarded (f : forwarded).
Definition StatusUnauthorized : Z := 401.
Definition StatusInternalServerError : Z := 500.

Section proxy.
Context `{Transports, MapRange}.
Implicit Types (cfg : Config) (req : request).

(** The handlers around the one that passes a request on: they change the request. *)
Definition proxyHeaders (handler : request → forwarded) : request → forwarded := λ req,
  let h := Header_Del (r_Header req) "Authorization" in
  let h := if bool_decide (Header_Get h "X-Forwarded-Proto" = "") && r_TLS req
           then Header_Set h "X-Forwarded-Proto" "https" else h in
  handler (with_header h req).
Definition SetHost (host : string) (handler : request → forwarded) : request → forwarded := λ req,
  handler (mkRequest (r_Path req) host (r_Header req) (r_TLS req) (r_Cookie req) (r_User req) (r_AuthFailed req)).
Definition prependPath (prefix : string) (handler : request → forwarded) : request → forwarded := λ req,
  handler (with_path (if bool_decide (1 < String.length (r_Path req)) then prefix +:+ r_Path req else prefix) req).
Definition stripLeaveSlash (prefix : string) (handler : request → forwarded) : request → forwarded := λ req,
  let p := TrimPrefix (r_Path req) prefix in
  handler (with_path (if bool_decide (0 < String.length p) && negb (String.prefix "/" p) then "/" +:+ p else p) req).

Definition makeUpgradeTransport cfg : outcome string unit :=
  _ ← no_error (TransportConfig cfg); no_error (HTTPWrappersForConfig cfg).
Definition Handler (prefix : string) cfg : outcome string (request → forwarded) :=
  let host := if ends_with "/" (Host cfg) then Host cfg else Host cfg +:+ "/" in
  path ← or_error (url_Parse_Path host);
  _ ← no_error (TransportFor cfg);
  _ ← makeUpgradeTransport cfg;
  let handler := mkForwarded _ cfg host in
  let handler := if bool_decide (1 < String.length path)
    then prependPath (str_take (String.length path - 1) path) handler else handler in
  let handler := if bool_decide (2 < String.length prefix) then stripLeaveSlash prefix handler else handler in
  Ok (proxyHeaders handler).

(** The configuration for a bearer token: without the credentials of the server, but for its key and a provider. *)
Definition token_config (token : string) cfg : Config :=
  mkConfig _ (Host cfg) "" "" token "" "" "" (KeyFile cfg) (KeyData cfg) (AuthProvider cfg) None None
    no_impersonation (cfg_other cfg).
Definition impersonating (user : Info) cfg : Config :=
  mkConfig _ (Host cfg) (Username cfg) (Password cfg) (BearerToken cfg) (BearerTokenFile cfg) (CertFile cfg)
    (CertData cfg) (KeyFile cfg) (KeyData cfg) (AuthProvider cfg) (ExecProvider cfg) (AuthConfigPersister cfg)
    (mkImpersonationConfig (i_Name user) (imp_UID (Impersonate cfg)) (i_Groups user) (i_Extra user)) (cfg_other cfg).

(** The loop over the groups: [None] when it returns with the bearer token of the request. *)
Fixpoint authed_groups (bearer : bool) (groups : list string) (authed : bool) : option bool :=
  match groups with
  | [] => Some authed
  | group :: groups =>
      if bool_decide (group = unauthenticated) && bearer then None
      else if bool_decide (group = unauthenticated) then authed_groups bearer groups false
      else authed_groups bearer groups authed
  end.
Definition setupUserAuth req (user : Info) cfg : Config * bool :=
  let header := Header_Get (r_Header req) "Authorization" in
  match authed_groups (String.prefix "Bearer " header) (i_Groups user) true with
  | None => (token_config (TrimPrefix header "Bearer ") cfg, true)
  | Some authed => (impersonating user cfg, authed)
  end.

Definition drop_impersonation (h : Header) : Header :=
  foldl (λ h k, if String.prefix "Impersonate-" k then delete k h else h) h (range_keys h).
Definition impersonate (prefix : string) cfg req : answer :=
  match r_User req with
  | None => Refused StatusUnauthorized "not authorized"
  | Some user =>
      let '(cfg, authed) := setupUserAuth req user cfg in
      if negb authed && String.prefix "/api" (r_Path req) then Refused StatusUnauthorized "not authorized"
      else match Handler prefix cfg with
           | Err e => Refused StatusInternalServerError e
           | Ok handler => Forwarded (handler (with_header (drop_impersonation (r_Header req)) req))
           | Panic => Refused StatusInternalServerError "" (* [Handler] does not panic *)
           end
  end.
Definition ImpersonatingHandler (prefix : string) cfg : request → answer := impersonate prefix cfg.
End proxy.
End Proxy.
Import Proxy.

(** ** The user of a request *)

(** The user a middleware finds: that of the authenticator, or one that says it is not authenticated. *)
Definition user_of (auth : Authenticator) (req : request) : option Info :=
  let '(info, ok, err) := auth req in
  match err with
  | Some _ => Some (mkInfo "system:cattle:error" "system:cattle:error" ["system:unauthenticated"; "system:cattle:error"] ∅)
  | None => if ok then info
            else Some (mkInfo "system:unauthenticated" "system:unauthenticated" ["system:unauthenticated"] ∅)
  end.
Lemma ToMiddleware_user auth R (next : request → R) req : ∃ req',
  ToMiddleware auth R next req = next req' ∧ r_User req' = user_of auth req ∧ r_Header req' = r_Header req ∧
  r_Path req' = r_Path req ∧ r_TLS req' = r_TLS req ∧
  r_AuthFailed req' = (if (auth req).2 is Some _ then Some "true" else r_AuthFailed req).
Proof.
  unfold ToMiddleware, user_of. destruct (auth req) as [[info ok] [e|]]; [|destruct ok];
    (eexists; split; [reflexivity|done]).
Qed.

(** Of two middlewares in a chain the inner one decides who the user is. *)
Lemma Chain_user auth1 auth2 R (next : request → R) req :
  (∀ req' : request, r_Header req' = r_Header req → auth2 req' = auth2 req) →
  ∃ req', Chain (ToMiddleware auth1) (ToMiddleware auth2) R next req = next req' ∧ r_User req' = user_of auth2 req.
Proof.
  intros Hauth. unfold Chain.
  destruct (ToMiddleware_user auth1 R (ToMiddleware auth2 R next) req) as (req1 & -> & _ & Hh & _).
  destruct (ToMiddleware_user auth2 R next req1) as (req2 & -> & Hu & _). exists req2. split; [done|].
  rewrite Hu. unfold user_of. by rewrite (Hauth req1 Hh).
Qed.

Section webhook_lemmas.
Context `{TokenAuth}.

(** A token is looked up exactly when the request has a bearer token or a session cookie, the former first; a
    request without either is not authenticated and causes no look-up. *)
Theorem webhook_Authenticate_spec auth req :
  let header := Header_Get (r_Header req) "Authorization" in
  (∀ t, header = "Bearer " +:+ t → t ≠ "" →
     webhook_Authenticate auth req = let '(resp, ok, err) := run_token auth t in (resp ≫= id, ok, err)) ∧
  ((∀ t, header = "Bearer " +:+ t → t = "") →
     webhook_Authenticate auth req = match r_Cookie req "R_SESS" with
       | inl (CookieError e) => (None, false, Some e)
       | inl ErrNoCookie => (None, false, None)
       | inr v => if bool_decide (v = "") then (None, false, None)
                  else let '(resp, ok, err) := run_token auth ("cookie://" +:+ v) in (resp ≫= id, ok, err)
       end).
Proof.
  intros header. unfold webhook_Authenticate, webhook_token. fold header. split.
  - intros t Ht Hne. rewrite Ht. rewrite (proj2 (prefix_spec "Bearer " _)) by by exists t.
    unfold TrimPrefix. rewrite (proj2 (prefix_spec "Bearer " _)) by by exists t.
    rewrite str_drop_app. rewrite !(bool_decide_eq_false_2 _ Hne).
    destruct (run_token auth t) as [[[u|] ok] err]; done.
  - intros Hno.
    assert ((if String.prefix "Bearer " header then TrimPrefix header "Bearer " else "") = "") as ->.
    { destruct (String.prefix "Bearer " header) eqn:Hp; [|done]. unfold TrimPrefix. rewrite Hp.
      apply prefix_spec in Hp as [t Ht]. rewrite Ht, str_drop_app. by apply Hno. }
    rewrite (bool_decide_eq_true_2 (@eq string "" "")) by done. destruct (r_Cookie req "R_SESS") as [[|e]|v]; [done..|].
    destruct v as [|c v]; [done|]. cbn [String.length]. rewrite (bool_decide_eq_true_2 (0 < _)) by lia.
    rewrite (bool_decide_eq_false_2 (String c v = "")) by done. rewrite bool_decide_eq_false_2 by done.
    destruct (run_token _ _) as [[[u|] ok] err]; done.
Qed.
End webhook_lemmas.

Section impersonation_lemmas.
Context `{ImpersonationHeaders, MapRange}.

(** A trusted request names its user in its headers; without a name it has no user. *)
Lemma Impersonation_user req info ok err : Impersonation req = (info, ok, err) →
  err = None ∧ (ok = true ↔ Header_Get (r_Header req) ImpersonateUserHeader ≠ "") ∧
  (ok = true → ∃ i, info = Some i ∧ i_Name i = Header_Get (r_Header req) ImpersonateUserHeader ∧
     i_Groups i = default [] (r_Header req !! ImpersonateGroupHeader)).
Proof.
  unfold Impersonation. case_bool_decide as Hn; intros [= <- <- <-]; [naive_solver|].
  split_and!; [done..|]. intros _. by eexists.
Qed.
End impersonation_lemmas.

(** ** What is passed on *)
Section proxy_lemmas.
Context `{Transports, MapRange}.
Implicit Types (cfg : Config) (req : request).

Lemma drop_impersonation_lookup (h : Header) k :
  drop_impersonation h !! k = if String.prefix "Impersonate-" k then None else h !! k.
Proof.
  unfold drop_impersonation.
  assert (∀ ks (h : Header), foldl (λ h k, if String.prefix "Impersonate-" k then delete k h else h) h ks !! k =
    if String.prefix "Impersonate-" k && bool_decide (k ∈ ks) then None else h !! k) as Hl.
  { induction ks as [|k' ks IH]; intros h'; cbn.
    - by rewrite (bool_decide_eq_false_2 _ (not_elem_of_nil _)), andb_false_r.
    - rewrite IH. destruct (decide (k = k')) as [->|Hne].
      + destruct (String.prefix "Impersonate-" k'); cbn; [|done].
        rewrite (bool_decide_eq_true_2 (k' ∈ k' :: ks)) by left. case_bool_decide; [done|]. apply lookup_delete_eq.
      + rewrite (bool_decide_ext (k ∈ k' :: ks) (k ∈ ks)) by (rewrite elem_of_cons; naive_solver).
        destruct (String.prefix "Impersonate-" k'); [|done]. by rewrite lookup_delete_ne by congruence. }
  rewrite Hl. destruct (String.prefix "Impersonate-" k); cbn; [|done].
  case_bool_decide as Hk; [done|]. destruct (h !! k) eqn:Hhk; [|done]. destruct Hk. apply elem_of_range_keys. eauto.
Qed.

(** Only the path and two headers change on the way to the target. *)
Lemma Handler_ok prefix cfg handler req : Handler prefix cfg = Ok handler →
  f_config (handler req) = cfg ∧
  (∀ k, k ≠ "X-Forwarded-Proto" → r_Header (f_request (handler req)) !! k =
     if decide (k = "Authorization") then None else r_Header req !! k).
Proof.
  unfold Handler. intros (path & _ & (u & _ & (u' & _ & [= <-])%outcome_bind_ok)%outcome_bind_ok)%outcome_bind_ok.
  assert (∀ k, k ≠ "X-Forwarded-Proto" →
    (if bool_decide (Header_Get (Header_Del (r_Header req) "Authorization") "X-Forwarded-Proto" = "") && r_TLS req
     then Header_Set (Header_Del (r_Header req) "Authorization") "X-Forwarded-Proto" "https"
     else Header_Del (r_Header req) "Authorization") !! k =
    if decide (k = "Authorization") then None else r_Header req !! k) as Hh.
  { intros k Hk. assert (Header_Del (r_Header req) "Authorization" !! k =
      if decide (k = "Authorization") then None else r_Header req !! k) as Hd.
    { unfold Header_Del. change (CanonicalHeaderKey "Authorization") with "Authorization".
      case_decide; subst; [apply lookup_delete_eq|by apply lookup_delete_ne]. }
    destruct (bool_decide _ && r_TLS req); [|exact Hd]. rewrite <-Hd. unfold Header_Set.
    change (CanonicalHeaderKey "X-Forwarded-Proto") with "X-Forwarded-Proto". by apply lookup_insert_ne. }
  unfold proxyHeaders, stripLeaveSlash, prependPath. destruct (bool_decide (2 < _)), (bool_decide (1 < String.length path));
    cbn; (split; [done|exact Hh]).
Qed.
(** A handler is made unless one of the calls it needs fails. *)
Definition no_transport cfg : Prop :=
  (∃ e host, url_Parse_Path host = inl e ∧ (host = Host cfg ∨ host = Host cfg +:+ "/")) ∨
  is_Some (TransportFor cfg) ∨ is_Some (TransportConfig cfg) ∨ is_Some (HTTPWrappersForConfig cfg).
Lemma Handler_fails prefix cfg : (∀ handler, Handler prefix cfg ≠ Ok handler) → no_transport cfg.
Proof.
  intros Hno. unfold no_transport. unfold Handler, makeUpgradeTransport in Hno.
  set (host := if ends_with "/" (Host cfg) then Host cfg else Host cfg +:+ "/") in *.
  assert (host = Host cfg ∨ host = Host cfg +:+ "/") as Hhost by (unfold host; destruct (ends_with _ _); auto).
  destruct (url_Parse_Path host) as [e|path] eqn:Hp; [left; eauto|].
  destruct (TransportFor cfg); [eauto|]. destruct (TransportConfig cfg); [eauto|].
  destruct (HTTPWrappersForConfig cfg); [eauto 6|]. by edestruct Hno.
Qed.

Lemma authed_groups_None bearer groups b : authed_groups bearer groups b = None ↔
  bearer = true ∧ unauthenticated ∈ groups.
Proof.
  revert b. induction groups as [|g groups IH]; intros b; cbn.
  - split; [done|]. intros [_ []%elem_of_nil].
  - rewrite elem_of_cons. case_bool_decide as Hg; destruct bearer; cbn; rewrite ?IH; naive_solver.
Qed.
Lemma authed_groups_Some bearer groups b b' : authed_groups bearer groups b = Some b' →
  b' = b && negb (bool_decide (unauthenticated ∈ groups)).
Proof.
  revert b. induction groups as [|g groups IH]; intros b; cbn.
  - intros [= <-]. by rewrite (bool_decide_eq_false_2 _ (not_elem_of_nil _)), andb_true_r.
  - destruct (decide (g = unauthenticated)) as [->|Hg].
    + rewrite (bool_decide_eq_true_2 (unauthenticated = _)) by done. destruct bearer; cbn; [done|].
      intros ->%IH. rewrite (bool_decide_eq_true_2 (_ ∈ _ :: _)) by left. by rewrite andb_false_r.
    + rewrite (bool_decide_eq_false_2 (g = _)) by done. cbn. intros ->%IH.
      by rewrite (bool_decide_ext (unauthenticated ∈ g :: groups) (unauthenticated ∈ groups))
        by (rewrite elem_of_cons; naive_solver).
Qed.

(** *** The configuration of a request *)
Definition same_server (c cfg : Config) : Prop :=
  Host c = Host cfg ∧ KeyFile c = KeyFile cfg ∧ KeyData c = KeyData cfg ∧ AuthProvider c = AuthProvider cfg ∧
  cfg_other c = cfg_other cfg.
(** The credentials of the server, and the user impersonated by name, groups and extra values. *)
Definition as_user (user : Info) (c cfg : Config) : Prop :=
  Username c = Username cfg ∧ Password c = Password cfg ∧ BearerToken c = BearerToken cfg ∧
  BearerTokenFile c = BearerTokenFile cfg ∧ CertFile c = CertFile cfg ∧ CertData c = CertData cfg ∧
  ExecProvider c = ExecProvider cfg ∧ AuthConfigPersister c = AuthConfigPersister cfg ∧
  imp_UserName (Impersonate c) = i_Name user ∧ imp_Groups (Impersonate c) = i_Groups user ∧
  imp_Extra (Impersonate c) = i_Extra user ∧ imp_UID (Impersonate c) = imp_UID (Impersonate cfg).
(** A bearer token in place of user name, password, token file, certificate, plugin and impersonation of the server. *)
Definition as_token (token : string) (c : Config) : Prop :=
  Username c = "" ∧ Password c = "" ∧ BearerToken c = token ∧ BearerTokenFile c = "" ∧ CertFile c = "" ∧
  CertData c = "" ∧ ExecProvider c = None ∧ AuthConfigPersister c = None ∧
  imp_UserName (Impersonate c) = "" ∧ imp_UID (Impersonate c) = "" ∧ imp_Groups (Impersonate c) = [] ∧
  imp_Extra (Impersonate c) = ∅.
Definition bearer_of req (token : string) : Prop :=
  Header_Get (r_Header req) "Authorization" = "Bearer " +:+ token.
(** The configuration with which a request of the user is passed on. *)
Definition config_for (user : Info) cfg req (c : Config) : Prop :=
  same_server c cfg ∧
  ((as_user user c cfg ∧ ("system:unauthenticated" ∈ i_Groups user → ∀ token, ¬ bearer_of req token)) ∨
   ("system:unauthenticated" ∈ i_Groups user ∧ ∃ token, bearer_of req token ∧ as_token token c)).
Lemma setupUserAuth_config req user cfg : config_for user cfg req (setupUserAuth req user cfg).1.
Proof.
  unfold setupUserAuth. destruct (authed_groups _ _ _) as [authed|] eqn:Hg; cbn.
  - split; [done|]. left. split; [done|]. intros Hin token Ht.
    assert (authed_groups (String.prefix "Bearer " (Header_Get (r_Header req) "Authorization")) (i_Groups user) true = None).
    { apply authed_groups_None. split; [|done]. rewrite Ht. apply prefix_spec. by exists token. }
    congruence.
  - split; [done|]. right. apply authed_groups_None in Hg as [Hb Hin]. split; [done|].
    unfold TrimPrefix. rewrite Hb. apply prefix_spec in Hb as [t Ht]. exists t. split; [done|]. by rewrite Ht, str_drop_app.
Qed.
Lemma setupUserAuth_authed req user cfg : (setupUserAuth req user cfg).2 = false ↔
  "system:unauthenticated" ∈ i_Groups user ∧ ∀ token, ¬ bearer_of req token.
Proof.
  unfold setupUserAuth. change "system:unauthenticated" with unauthenticated.
  assert (String.prefix "Bearer " (Header_Get (r_Header req) "Authorization") = false ↔ ∀ token, ¬ bearer_of req token) as Hb.
  { rewrite <-not_true_iff_false, prefix_spec. unfold bearer_of. naive_solver. }
  rewrite <-Hb. destruct (authed_groups _ _ _) as [authed|] eqn:Hg; cbn.
  - destruct (String.prefix "Bearer " _) eqn:Hp.
    + split; [intros ->|naive_solver]. apply authed_groups_Some in Hg as Hg'. exfalso.
      assert (authed_groups true (i_Groups user) true = None); [|congruence]. apply authed_groups_None. split; [done|].
      by case_bool_decide.
    + apply authed_groups_Some in Hg as ->. case_bool_decide; naive_solver.
  - apply authed_groups_None in Hg as [-> _]. naive_solver.
Qed.

(** A request passed on for a user. *)
Definition passed_on (user : Info) cfg req (f : forwarded) : Prop :=
  config_for user cfg req (f_config f) ∧
  (String.prefix "/api" (r_Path req) = true → "system:unauthenticated" ∈ i_Groups user → ∃ token, bearer_of req token) ∧
  (∀ k, k ≠ "X-Forwarded-Proto" → r_Header (f_request f) !! k =
     if decide (k = "Authorization" ∨ String.prefix "Impersonate-" k = true) then None else r_Header req !! k).
Lemma impersonate_forwarded prefix cfg req user f :
  r_User req = Some user → impersonate prefix cfg req = Forwarded f → passed_on user cfg req f.
Proof.
  unfold impersonate. intros ->. pose proof (setupUserAuth_config req user cfg) as Hc.
  pose proof (setupUserAuth_authed req user cfg) as Ha. destruct (setupUserAuth req user cfg) as [c authed]. cbn in *.
  destruct (negb authed && _) eqn:Hrefuse; [done|].
  destruct (Handler prefix c) as [handler| |] eqn:Hhandler; [|done..]. intros [= <-].
  destruct (Handler_ok _ _ _ (with_header (drop_impersonation (r_Header req)) req) Hhandler) as [Hf Hh].
  split_and!; [by rewrite Hf| |].
  - intros Hapi Hin. rewrite Hapi, andb_true_r in Hrefuse. apply negb_false_iff in Hrefuse. subst authed.
    destruct (String.prefix "Bearer " (Header_Get (r_Header req) "Authorization")) eqn:Hp.
    + apply prefix_spec in Hp as [t Ht]. by exists t.
    + assert (true = false); [|done]. apply Ha. split; [done|]. intros token Ht. unfold bearer_of in Ht.
      apply not_true_iff_false in Hp. apply Hp, prefix_spec. by exists token.
  - intros k Hk. rewrite (Hh k Hk). cbn. rewrite drop_impersonation_lookup.
    destruct (String.prefix "Impersonate-" k); repeat case_decide; naive_solver.
Qed.
Lemma impersonate_refused prefix cfg req user code message :
  r_User req = Some user → impersonate prefix cfg req = Refused code message →
  (code = 401%Z ∧ String.prefix "/api" (r_Path req) = true ∧ "system:unauthenticated" ∈ i_Groups user ∧
   ∀ token, ¬ bearer_of req token) ∨
  (code = 500%Z ∧ ∃ c, config_for user cfg req c ∧ no_transport c).
Proof.
  unfold impersonate. intros ->. pose proof (setupUserAuth_config req user cfg) as Hc.
  pose proof (setupUserAuth_authed req user cfg) as Ha. destruct (setupUserAuth req user cfg) as [c authed]. cbn in *.
  destruct (negb authed && _) eqn:Hrefuse.
  - intros [= <- _]. left. apply andb_true_iff in Hrefuse as [->%negb_true_iff Hapi]. by destruct (proj1 Ha eq_refl).
  - destruct (Handler prefix c) eqn:Hh; [done|..]; intros [= <- _]; right; (split; [done|]); exists c; (split; [done|]);
      apply (Handler_fails prefix); intros; congruence.
Qed.

(** C4: A request that the proxy passes on to Kubernetes goes without the Authorization and Impersonate headers of its
    sender, its other headers as they were, and with a configuration in one of two ways: with the credentials of the
    server and impersonating, by name, groups and extra values, the user the middleware found; or, exactly for a user
    who is not authenticated and whose request has a bearer token, with this token and without user name, password,
    tokens, certificate, plugin and impersonation of the server. What is left of the server then is its key and its
    authentication provider. It is refused only without a user, below /api for a user who is not authenticated and
    has no bearer token, or when no transport can be made from the configuration. *)
Theorem proxied_as_user auth prefix cfg req :
  match ToMiddleware auth answer (ImpersonatingHandler prefix cfg) req with
  | Forwarded f => ∃ user, user_of auth req = Some user ∧ passed_on user cfg req f
  | Refused code _ =>
      (code = 401%Z ∧ user_of auth req = None) ∨
      ∃ user, user_of auth req = Some user ∧
        ((code = 401%Z ∧ String.prefix "/api" (r_Path req) = true ∧ "system:unauthenticated" ∈ i_Groups user ∧
          ∀ token, ¬ bearer_of req token) ∨
         (code = 500%Z ∧ ∃ c, config_for user cfg req c ∧ no_transport c))
  end.
Proof.
  destruct (ToMiddleware_user auth _ (ImpersonatingHandler prefix cfg) req) as (req' & -> & Hu & Hh & Hp & _).
  unfold ImpersonatingHandler. destruct (impersonate prefix cfg req') as [code message|f] eqn:Hi.
  - destruct (user_of auth req) as [user|].
    + right. exists user. split; [done|]. pose proof (impersonate_refused _ _ _ _ _ _ Hu Hi) as Hr.
      unfold config_for, bearer_of in *. by rewrite Hh, Hp in Hr.
    + left. unfold impersonate in Hi. rewrite Hu in Hi. by injection Hi as <- _.
  - destruct (user_of auth req) as [user|].
    + exists user. split; [done|]. pose proof (impersonate_forwarded _ _ _ _ _ Hu Hi) as Hf.
      unfold passed_on, config_for, bearer_of in *. by rewrite Hh, Hp in Hf.
    + unfold impersonate in Hi. by rewrite Hu in Hi.
Qed.
End proxy_lemmas.

(** ** Concrete requests *)
Module RequestExample.
Import Concrete.
#[export] Instance config : RestConfig := {| other_fields := unit; plugin := unit |}.
#[export] Instance transports : Transports := {|
  TransportFor := λ _, None; TransportConfig := λ _, None; HTTPWrappersForConfig := λ _, None;
  url_Parse_Path := λ _, inr "/k8s/" |}.
Definition admin : Config :=
  mkConfig _ "https://kubernetes" "" "" "admin-token" "" "" "" "" "" None None None no_impersonation tt.
(** A token look-up that knows one token. *)
#[export] Instance tokens : TokenAuth := {|
  kubeConfig := unit; AuthenticateToken := unit;
  run_token := λ _ t, if bool_decide (t = "good") then (Some (Some (mkInfo "alice" "" ["devs"] ∅)), true, None)
                      else (None, false, None);
  webhook_New := λ _, Ok tt; cache_New := λ a _, a |}.
Definition get (path : string) (h : Header) : request :=
  mkRequest path "steve" h true (λ _, inl ErrNoCookie) None None.
Definition send (req : request) : answer :=
  ToMiddleware (webhook_Authenticate tt) answer (ImpersonatingHandler "/" admin) req.
Definition sent_as (a : answer) : option (string * string * string) :=
  match a with
  | Forwarded f => Some (imp_UserName (Impersonate (f_config f)), BearerToken (f_config f), r_Path (f_request f))
  | Refused _ _ => None
  end.

(** Alice's request is sent with the server's token as alice; an unknown token is sent as it is; without one
    the request is refused. *)
Example known_token : sent_as (send (get "/api/v1/pods" {["Authorization" := ["Bearer good"]; "Impersonate-User" := ["admin"]]}))
  = Some ("alice", "admin-token", "/k8s/api/v1/pods").
Proof. vm_compute. reflexivity. Qed.
Example unknown_token : sent_as (send (get "/api/v1/pods" {["Authorization" := ["Bearer other"]]}))
  = Some ("", "other", "/k8s/api/v1/pods").
Proof. vm_compute. reflexivity. Qed.
Example no_token : send (get "/api/v1/pods" ∅) = Refused 401 "not authorized".
Proof. vm_compute. reflexivity. Qed.
Example canonical_keys : CanonicalHeaderKey "x-forwarded-PROTO" = "X-Forwarded-Proto".
Proof. vm_compute. reflexivity. Qed.
End RequestExample.
