(* ===== verification/ApiHandler.v ===== *)
(** * The HTTP handlers of the API: pkg/server/handler

    A request with a user becomes an APIRequest with the schemas of that user (apiserver.go), named by the
    variables of its path (handlers.go), and is handled by the API server of github.com/rancher/apiserver. *)
From S2P Require Import Prelude GoLib AccessControl Schemas RequestAuth.
Import Auth Proxy.

(** What a handler writes, and the status of net/http: the first write decides it. *)
Inductive write := Write (body : string) | WriteHeader (code : Z).
Definition response_status (l : list write) : Z :=
  match l with WriteHeader code :: _ => code | _ => 200 end.

Section handlers.
Context {schemas urlBuilder : Type}.
(** A nil pointer to schemas is [None]. *)
Record APIRequest := mkAPIRequest {
  a_Schemas : option schemas;
  a_Request : request;
  a_URLBuilder : urlBuilder;
  a_Name : string; a_Type : string; a_Namespace : string }.
Context (sf_Schemas : Info → outcome string schemas)
        (urlbuilder_NewPrefixed : request → option schemas → string → outcome string urlBuilder).

Definition common (req : request) : list write * option APIRequest :=
  match r_User req with
  | None => ([], None)
  | Some user =>
      let '(schemas, written) := match sf_Schemas user with
        | Ok schemas => (Some schemas, [])
        | Err e => (None, [Write e; WriteHeader StatusInternalServerError])
        | Panic => (None, [])
        end in
      match urlbuilder_NewPrefixed req schemas "v1" with
      | Ok u => (written, Some (mkAPIRequest schemas req u "" "" ""))
      | Err e => (written ++ [Write e; WriteHeader StatusInternalServerError], None)
      | Panic => (written, None)
      end
  end.

(** The variables of the path, which the handler also changes. *)
Abbreviation Vars := (gmap string string).
Definition var (vars : Vars) (k : string) : string := default "" (vars !! k).
Definition Namespaced (s : option APISchema) : bool := match s with Some s => S_Namespaced s | None => false end.
Definition APIFunc : Type := APIRequest → Vars → APIRequest * Vars.
Definition k8sAPI (LookupSchema : option schemas → string → option APISchema) : APIFunc := λ apiOp vars,
  let apiOp := mkAPIRequest (a_Schemas apiOp) (a_Request apiOp) (a_URLBuilder apiOp) (var vars "name") (var vars "type")
                 (a_Namespace apiOp) in
  let nOrN := var vars "nameorns" in
  let vars :=
    if bool_decide (nOrN ≠ "") then
      let schema := LookupSchema (a_Schemas apiOp) (a_Type apiOp) in
      if Namespaced schema then <["namespace" := nOrN]> vars else <["name" := nOrN]> vars
    else vars in
  let namespace := var vars "namespace" in
  (if bool_decide (namespace ≠ "")
   then mkAPIRequest (a_Schemas apiOp) (a_Request apiOp) (a_URLBuilder apiOp) (a_Name apiOp) (a_Type apiOp) namespace
   else apiOp, vars).
Definition apiRoot : APIFunc := λ apiOp vars,
  (mkAPIRequest (a_Schemas apiOp) (a_Request apiOp) (a_URLBuilder apiOp) (a_Name apiOp) "apiRoot" (a_Namespace apiOp), vars).

(** [Handle] of the API server writes the rest of the response. *)
Definition apiHandler (Handle : APIRequest → Vars → list write) (apiFunc : option APIFunc) (vars : Vars)
    (req : request) : list write :=
  let '(written, apiOp) := common req in
  match apiOp with
  | None => written
  | Some apiOp =>
      let '(apiOp, vars) := match apiFunc with Some f => f apiOp vars | None => (apiOp, vars) end in
      written ++ Handle apiOp vars
  end.

(** A path that names a namespace and a name, a name, or something that is one or the other: the schema decides. *)
Theorem k8sAPI_names LookupSchema apiOp vars :
  let '(apiOp', vars') := k8sAPI LookupSchema apiOp vars in
  let nOrN := var vars "nameorns" in
  let namespaced := Namespaced (LookupSchema (a_Schemas apiOp) (var vars "type")) in
  a_Schemas apiOp' = a_Schemas apiOp ∧ a_Type apiOp' = var vars "type" ∧ a_Name apiOp' = var vars "name" ∧
  (nOrN = "" → vars' = vars) ∧
  (nOrN ≠ "" → namespaced = true → a_Namespace apiOp' = nOrN ∧ var vars' "namespace" = nOrN ∧ var vars' "name" = var vars "name") ∧
  (nOrN ≠ "" → namespaced = false → var vars' "name" = nOrN ∧ var vars' "namespace" = var vars "namespace").
Proof.
  unfold k8sAPI. cbn. set (nOrN := var vars "nameorns"). set (ns := Namespaced _).
  destruct (decide (nOrN = "")) as [Hn|Hn].
  - rewrite (bool_decide_eq_false_2 (nOrN ≠ "")) by tauto. case_bool_decide; cbn; split_and!; done.
  - rewrite (bool_decide_eq_true_2 (nOrN ≠ "")) by done. destruct ns; unfold var.
    + rewrite lookup_insert_eq. cbn. rewrite bool_decide_eq_true_2 by done. cbn.
      split_and!; try done. intros _ _. rewrite lookup_insert_ne by done. done.
    + rewrite lookup_insert_eq, (lookup_insert_ne vars "name" "namespace") by done.
      case_bool_decide; cbn; split_and!; done.
Qed.

(** When the schemas of the user cannot be made, the request is answered with status 200 and handled all the same, without
    schemas. *)
Theorem failed_schemas_handled Handle apiFunc vars req user e u :
  r_User req = Some user → sf_Schemas user = Err e → urlbuilder_NewPrefixed req None "v1" = Ok u →
  response_status (apiHandler Handle (Some apiFunc) vars req) = 200%Z ∧
  apiHandler Handle (Some apiFunc) vars req =
    [Write e; WriteHeader StatusInternalServerError] ++
    let '(apiOp, vars) := apiFunc (mkAPIRequest None req u "" "" "") vars in Handle apiOp vars.
Proof.
  intros Hu Hs Hp. unfold apiHandler, common. rewrite Hu, Hs, Hp. split.
  - by destruct (apiFunc _ _).
  - by destruct (apiFunc _ _).
Qed.
End handlers.

(** ** The handlers of a server *)
Section server.
Context `{Transports, MapRange}.
(** The handler for requests to Kubernetes: without a middleware everyone is the administrator. *)
Definition k8s_proxy (cfg : Config) (authMiddleware : option Middleware) : outcome string (request → answer) :=
  match authMiddleware with
  | None => proxy ← Handler "/" cfg; Ok (ToMiddleware AlwaysAdmin answer (λ req, Forwarded (proxy req)))
  | Some w => Ok (w answer (ImpersonatingHandler "/" cfg))
  end.

(** Without a middleware a request is passed on with the configuration of the server, whatever user it names. *)
Lemma k8s_proxy_admin cfg proxy req : Handler "/" cfg = Ok proxy →
  ∃ h, k8s_proxy cfg None = Ok h ∧ ∃ f, h req = Forwarded f ∧ f_config f = cfg.
Proof.
  intros Hh. unfold k8s_proxy. rewrite Hh. cbn. eexists. split; [done|]. eexists. split; [done|].
  by apply (Handler_ok _ _ _ _ Hh).
Qed.
End server.
