(* ===== verification/ExtServer.v ===== *)
(** * The extension API server: pkg/ext

    The authorisation of its requests with the access sets of users (apiserver_authorization.go), its
    registration and its stores (apiserver.go), the helpers that its stores are written with (utils.go), and the
    gate of pkg/server/server.go that waits for its registration. *)
From S2P Require Import Prelude GoLib AccessControl.

(** ** Authorisation *)

(** [authorizer.Attributes] and [authorizer.Decision] of k8s.io/apiserver. *)
Record Attributes := mkAttributes {
  at_User : UserInfo;
  at_Verb : string;
  at_IsResourceRequest : bool;
  at_Path : string;
  at_APIGroup : string; at_Resource : string; at_Subresource : string; at_Namespace : string; at_Name : string }.
Inductive Decision := DecisionDeny | DecisionAllow.

Section authorize.
Context `{MapRange, K8sRBAC}.

(** [AccessFor] is that of the interface [AccessSetLookup]. The subresource is not looked at. *)
Definition Authorize (AccessFor : UserInfo → AccessSet) (attrs : Attributes) : Decision :=
  let verb := at_Verb attrs in
  let path := at_Path attrs in
  let accessSet := AccessFor (at_User attrs) in
  if negb (at_IsResourceRequest attrs) then
    if GrantsNonResource accessSet verb path then DecisionAllow else DecisionDeny
  else
    let namespace := at_Namespace attrs in
    let name := at_Name attrs in
    let gr := mkGR (at_APIGroup attrs) (at_Resource attrs) in
    if AccessSet_Grants accessSet verb gr namespace name then DecisionAllow else DecisionDeny.

(** The authoriser of the server notes the first request of the aggregator of Kubernetes, whatever the answer is. *)
Definition aggregators : list string := ["system:aggregator"; "system:kube-aggregator"].
Definition registering_authorizer (authorize : Attributes → Decision) (attrs : Attributes) (registered : bool)
    : Decision * bool :=
  (authorize attrs, registered || bool_decide (GetName (at_User attrs) ∈ aggregators)).
End authorize.

(** What [setup] serves when no route of Steve fits: nothing before an extension server is registered. *)
Section gate.
Context {R request : Type} (http_Error : string → Z → request → R).
Definition serve_next (extensionAPIServer : option bool) (SkipWaitForExtensionAPIServer : bool) (next : request → R)
    (req : request) : R :=
  match extensionAPIServer with
  | None => next req
  | Some registered =>
      if SkipWaitForExtensionAPIServer then next req
      else if registered then next req
      else http_Error "API Aggregation not ready" 503 req
  end.
End gate.

(** ** URLs that are no resources *)

(** A rule for URLs gives the pairs of its verbs and its URLs, when it names no resource. *)
Definition rule_gives (k : nonResourceKey) (rule : PolicyRule) : Prop :=
  Resources rule = [] ∧ nr_verb k ∈ Verbs rule ∧ nr_url k ∈ NonResourceURLs rule.
(** RBAC gives a user a pair of verb and URL: by the role of a cluster role binding that names them. *)
Definition rbac_gives_url `{K8sRBAC} (c : RBACCaches) (crbs : list ClusterRoleBinding) (user : UserInfo)
    (k : nonResourceKey) : Prop :=
  ∃ crb, crb ∈ crbs ∧ Ref_Kind (crb_RoleRef crb) = "ClusterRole" ∧ binds_user user (crb_Subjects crb) ∧
    ∃ rule, rule ∈ referenced_rules c All (crb_RoleRef crb) ∧ rule_gives k rule.

(** What RBAC is asked for: a subresource goes with its resource. *)
Definition rbac_resource (attrs : Attributes) : string :=
  if bool_decide (at_Subresource attrs = "") then at_Resource attrs
  else at_Resource attrs +:+ "/" +:+ at_Subresource attrs.
Definition without_subresource (attrs : Attributes) : Attributes :=
  mkAttributes (at_User attrs) (at_Verb attrs) (at_IsResourceRequest attrs) (at_Path attrs) (at_APIGroup attrs)
    (at_Resource attrs) "" (at_Namespace attrs) (at_Name attrs).
(** RBAC allows the request. *)
Definition rbac_answers `{K8sRBAC} (c : RBACCaches) (crbs : list ClusterRoleBinding) (rbs : list RoleBinding)
    (attrs : Attributes) : Prop :=
  if at_IsResourceRequest attrs
  then rbac_allows c crbs rbs (at_User attrs) (at_Verb attrs) (mkGR (at_APIGroup attrs) (rbac_resource attrs))
         (at_Namespace attrs) (at_Name attrs)
  else ∃ k, rbac_gives_url c crbs (at_User attrs) k ∧
         NonResourceURLMatches (mkRule [nr_verb k] [] [] [] [nr_url k]) (at_Path attrs) = true ∧
         VerbMatches (mkRule [nr_verb k] [] [] [] [nr_url k]) (at_Verb attrs) = true.

Section url_lemmas.
Context `{MapRange}.
Context (k : nonResourceKey).
Implicit Types (a : AccessSet).
Definition has_url a : Prop := is_Some (nonResourceSet a !! k).

Lemma addResourceAccess_urls a ns rule : nonResourceSet (addResourceAccess a ns rule) = nonResourceSet a.
Proof.
  unfold addResourceAccess.
  assert (∀ {B} (f : AccessSet → B → AccessSet) l a,
    (∀ a x, nonResourceSet (f a x) = nonResourceSet a) → nonResourceSet (foldl f a l) = nonResourceSet a) as Hfold.
  { intros B f l. induction l as [|x l IH]; intros a' Hf; cbn; [done|]. by rewrite IH, Hf. }
  do 4 (apply Hfold; intros). unfold AccessSet_Add. by case_match.
Qed.
Lemma has_url_Add a vs us : has_url (AddNonResourceURLs a vs us) ↔
  has_url a ∨ (nr_verb k ∈ vs ∧ nr_url k ∈ us).
Proof.
  unfold AddNonResourceURLs. destruct (bool_decide (length vs = 0) || bool_decide (length us = 0)) eqn:Hempty.
  - apply orb_true_iff in Hempty as [Hn%bool_decide_eq_true|Hn%bool_decide_eq_true];
      apply nil_length_inv in Hn; subst; rewrite elem_of_nil; naive_solver.
  - unfold has_url. cbn. rewrite (foldl_or (λ s : gmap nonResourceKey (), is_Some (s !! k))
      (λ v, nr_verb k = v ∧ nr_url k ∈ us)); [naive_solver|].
    intros s v _. rewrite (foldl_or (λ s : gmap nonResourceKey (), is_Some (s !! k))
      (λ u, nr_verb k = v ∧ nr_url k = u)); [naive_solver|].
    intros s' u _. rewrite lookup_insert_is_Some'. destruct k as [v' u']. cbn. naive_solver.
Qed.
Lemma has_url_addAccess a ns r : has_url (addAccess a ns r) ↔
  has_url a ∨ ∃ rule, rule ∈ ref_rules r ∧ ref_kind r = clusterRoleKind ∧ rule_gives k rule.
Proof.
  unfold addAccess. apply (foldl_or has_url). intros a' rule _. unfold rule_gives. case_bool_decide as Hlen.
  - unfold has_url. rewrite addResourceAccess_urls. destruct (Resources rule); [cbn in Hlen; lia|naive_solver].
  - assert (Resources rule = []) by (destruct (Resources rule); [done|cbn in Hlen; lia]).
    case_bool_decide; rewrite ?has_url_Add; naive_solver.
Qed.

(** The pairs the grants of a subject give. *)
Definition subject_gives (b : subjectGrants) : Prop :=
  ∃ r, r ∈ roleBindings b ++ clusterRoleBindings b ∧
    ∃ rule, rule ∈ ref_rules r ∧ ref_kind r = clusterRoleKind ∧ rule_gives k rule.
Lemma has_url_toAccessSet b : has_url (toAccessSet b) ↔ subject_gives b.
Proof.
  unfold toAccessSet, subject_gives. rewrite (foldl_or has_url _ _ _ _ (λ a r _, has_url_addAccess a All r)).
  rewrite (foldl_or has_url _ _ _ _ (λ a r _, has_url_addAccess a (ref_namespace r) r)).
  setoid_rewrite elem_of_app. unfold has_url. cbn. rewrite lookup_empty, is_Some_None_iff. naive_solver.
Qed.
Lemma has_url_Merge a right : has_url (AccessSet_Merge a right) ↔ has_url a ∨ has_url right.
Proof.
  unfold has_url, AccessSet_Merge. cbn. rewrite (foldl_or (λ s : gmap nonResourceKey (), is_Some (s !! k)) (λ x, x.1 = k)).
  - f_equiv. split.
    + intros ([k' v] & Hin & <-). apply elem_of_range_map in Hin. by eexists.
    + intros [v Hv]. exists (k, v). by rewrite elem_of_range_map.
  - intros s [k' v] _. cbn. destruct (s !! k') eqn:Hk'; [naive_solver|]. rewrite lookup_insert_is_Some'. naive_solver.
Qed.
Lemma has_url_newAccessSet info : has_url (newAccessSet info) ↔
  ∃ b, b ∈ g_user info :: g_groups info ∧ subject_gives b.
Proof.
  unfold newAccessSet. rewrite (foldl_or has_url subject_gives).
  - by rewrite has_url_toAccessSet, exists_elem_of_cons.
  - intros a b _. by rewrite has_url_Merge, has_url_toAccessSet.
Qed.

Context `{K8sRBAC, SliceSort} (c : RBACCaches) (crbs : list ClusterRoleBinding) (rbs : list RoleBinding).
Context `{!RBACCachesOK c crbs rbs}.

Lemma subject_gives_getRoleRefs user s :
  let kind := if user : bool then userKind else groupKind in
  subject_gives (getRoleRefs (newPolicyRuleIndex user c) s) ↔
  ∃ crb, crb ∈ crbs ∧ Ref_Kind (crb_RoleRef crb) = "ClusterRole" ∧
    (∃ sub, sub ∈ crb_Subjects crb ∧ subject_names kind s sub) ∧
    ∃ rule, rule ∈ referenced_rules c All (crb_RoleRef crb) ∧ rule_gives k rule.
Proof.
  intros kind. unfold subject_gives, getRoleRefs. cbn [roleBindings clusterRoleBindings]. split.
  - intros (r & [Hr|Hr]%elem_of_app & rule & Hrule & Hkind & Hgives);
      apply list_elem_of_fmap in Hr as (b & -> & Hb); destruct (getRules _ _ _) eqn:Hg; [done|].
    apply (elem_of_getClusterRoleBindings _ _ rbs) in Hb as (Hb & Hk & Hsub). exists b. split_and!; [done..|].
    exists rule. rewrite <-(getRules_referenced (newPolicyRuleIndex user c)), Hg. done.
  - intros (crb & Hcrb & Hk & Hsub & rule & Hrule & Hgives). eexists. split.
    { apply elem_of_app. right. apply list_elem_of_fmap_2, (elem_of_getClusterRoleBindings _ _ rbs). by split_and!. }
    rewrite <-(getRules_referenced (newPolicyRuleIndex user c)) in Hrule.
    exists rule. destruct (getRules _ _ _). done.
Qed.
Lemma grants_give_url user :
  has_url (newAccessSet (userGrantsFor (newPolicyRuleIndex true c) (newPolicyRuleIndex false c) user)) ↔
  rbac_gives_url c crbs user k.
Proof.
  rewrite has_url_newAccessSet. unfold userGrantsFor, rbac_gives_url, binds_user. cbn [g_user g_groups].
  rewrite exists_elem_of_cons, exists_elem_of_fmap. setoid_rewrite elem_of_sort_strings.
  setoid_rewrite subject_gives_getRoleRefs. cbn. naive_solver.
Qed.
End url_lemmas.

Section authorize_theorems.
Context `{MapRange, K8sRBAC, !K8sMatchLaws, SliceSort} (sha256_hex : string → string) (C : accessStoreCache)
  (empty : cache_state C) (c : RBACCaches) (crbs : list ClusterRoleBinding) (rbs : list RoleBinding).
Context `{!RBACCachesOK c crbs rbs}.

(** C20: The extension API server answers a request as RBAC answers the same request without its subresource; so a request
    that has none is allowed exactly when RBAC allows it: for a resource, when a binding that names the user, one of their
    groups or their service account gives them the verb on the object; for another URL, when the role of a cluster role
    binding that names them has a rule without resources with a verb and a URL that match. RBAC asks for a rule of
    its own for a subresource ([ExtExample.subresource_not_asked]). *)
Theorem Authorize_rbac attrs :
  Authorize (λ user, (AccessFor sha256_hex (NewAccessStore C empty false c) user).1) attrs = DecisionAllow ↔
  rbac_answers c crbs rbs (without_subresource attrs).
Proof.
  unfold rbac_answers, without_subresource, Authorize, AccessFor, NewAccessStore.
  cbn [at_IsResourceRequest at_User at_Verb at_APIGroup at_Namespace at_Name at_Path rbac_resource at_Subresource at_Resource].
  cbn [cache usersPolicyRules groupsPolicyRules fst].
  destruct (at_IsResourceRequest attrs); cbn [negb].
  - rewrite <-(grants_allow_rbac c crbs rbs), <-Grants_newAccessSet. by destruct (AccessSet_Grants _ _ _ _ _).
  - setoid_rewrite <-(grants_give_url _ c crbs rbs). unfold has_url. rewrite <-GrantsNonResource_spec.
    by destruct (GrantsNonResource _ _ _).
Qed.
End authorize_theorems.

(** A cluster role that lets alice read the metrics. *)
Module ExtExample.
Import Concrete AccessControl.Example.
Definition metrics_role : Role := mkRole [mkRule ["get"] [] [] [] ["/metrics/*"]] "1".
Definition metrics_binding : ClusterRoleBinding := mkCRB "u1" (mkRoleRef "ClusterRole" "metrics") [user_subject "alice"].
Definition rbac : RBACCaches := caches_of {["metrics" := metrics_role]} ∅ [metrics_binding] [].
Definition read_metrics (user : UserInfo) : Attributes := mkAttributes user "get" false "/metrics/pods" "" "" "" "" "".

Lemma Authorize_rbac_witness :
  ∃ k, rbac_gives_url rbac [metrics_binding] alice k ∧
    NonResourceURLMatches (mkRule [nr_verb k] [] [] [] [nr_url k]) "/metrics/pods" = true ∧
    VerbMatches (mkRule [nr_verb k] [] [] [] [nr_url k]) "get" = true.
Proof.
  apply (Authorize_rbac (λ s, s) gmap_cache ∅ rbac [metrics_binding] [] (read_metrics alice)).
  vm_compute. reflexivity.
Defined.
Example bob_denied :
  Authorize (λ user, (AccessFor (λ s, s) (NewAccessStore gmap_cache ∅ false rbac) user).1) (read_metrics bob) = DecisionDeny.
Proof. vm_compute. reflexivity. Qed.

(** A user who may get tokens is allowed to get their status, which RBAC does not allow. *)
Definition token_role : Role := mkRole [mkRule ["get"] ["ext.cattle.io"] ["tokens"] [] []] "1".
Definition token_binding : ClusterRoleBinding := mkCRB "u2" (mkRoleRef "ClusterRole" "tokens") [user_subject "alice"].
Definition token_rbac : RBACCaches := caches_of {["tokens" := token_role]} ∅ [token_binding] [].
Definition get_status : Attributes := mkAttributes alice "get" true "" "ext.cattle.io" "tokens" "status" "" "t1".
Example subresource_not_asked :
  Authorize (λ user, (AccessFor (λ s, s) (NewAccessStore gmap_cache ∅ false token_rbac) user).1) get_status = DecisionAllow ∧
  ¬ rbac_answers token_rbac [token_binding] [] get_status.
Proof.
  split; [vm_compute; reflexivity|]. unfold rbac_answers, get_status. cbn [at_IsResourceRequest].
  rewrite <-(grants_allow_rbac token_rbac [token_binding] []), <-Grants_newAccessSet. vm_compute. congruence.
Qed.
End ExtExample.

(** ** Options of a server *)
(** What [NewExtensionAPIServer] requires, in the order in which it asks. *)
Definition check_options (Authenticator Authorizer Listener GetOpenAPIDefinitions : bool) : outcome string unit :=
  if negb Authenticator then Err "authenticator must be provided"
  else if negb Authorizer then Err "authorizer must be provided"
  else if negb Listener then Err "listener must be provided"
  else if negb GetOpenAPIDefinitions then Err "GetOpenAPIDefinitions must be provided"
  else if negb Authorizer then Err "authorizer must be provided"
  else Ok ().

(** ** Stores: [Install] and what a request finds *)
Section install.
Context {storage : Type}.
(** The API groups of the server: group, version and resource. *)
Local Abbreviation api_groups := (gmap string (gmap string (gmap string storage))).
Definition Install (resourceName group version : string) (s : storage) (groups : api_groups) : api_groups :=
  let versions := default ∅ (groups !! group) in
  let resources := default ∅ (versions !! version) in
  <[group := <[version := <[resourceName := s]> resources]> versions]> groups.
Definition installed (groups : api_groups) (resourceName group version : string) : option storage :=
  versions ← groups !! group; resources ← versions !! version; resources !! resourceName.

Lemma installed_Install groups r g v s r' g' v' :
  installed (Install r g v s groups) r' g' v' =
  if decide ((r', g', v') = (r, g, v)) then Some s else installed groups r' g' v'.
Proof.
  unfold installed, Install. destruct (decide (g' = g)) as [->|Hg].
  - rewrite lookup_insert_eq. cbn. destruct (decide (v' = v)) as [->|Hv].
    + rewrite lookup_insert_eq. cbn. destruct (decide (r' = r)) as [->|Hr].
      * by rewrite lookup_insert_eq, decide_True.
      * rewrite lookup_insert_ne, decide_False by congruence. destruct (groups !! g) as [m|]; cbn; [|by rewrite !lookup_empty].
        destruct (m !! v); cbn; [done|by rewrite lookup_empty].
    + rewrite lookup_insert_ne, decide_False by congruence. destruct (groups !! g); cbn; [done|by rewrite lookup_empty].
  - by rewrite lookup_insert_ne, decide_False by congruence.
Qed.
End install.

(** [getDefinitionName]: the first replacement, in the order of the range, whose key begins the name is made; the
    name of the library and [strings.ReplaceAll] are parameters. *)
Section names.
Context `{MapRange} {Extensions : Type}.
Context (namer : string → string * Extensions) (ReplaceAll : string → string → string → string).
Definition getDefinitionName (replacements : gmap string string) (name : string) : string * Extensions :=
  let '(definitionName, defGVK) := namer name in
  match List.find (λ '(key, _), String.prefix key definitionName) (range_map replacements) with
  | Some (key, val) => (ReplaceAll definitionName key val, defGVK)
  | None => (definitionName, defGVK)
  end.
End names.

(** The serialisers an encoder may choose from. *)
Definition SupportedMediaTypes {S} (MediaType : S → string) (types : list S) : list S :=
  List.filter (λ s, bool_decide (MediaType s = "application/yaml") || bool_decide (MediaType s = "application/json")) types.

(** ** Helpers for stores: utils.go *)

(** Errors: with a status of the API, or others. *)
Class StatusErrors := {
  status : Type;
  NewInternalError : string → status;
  status_IsNotFound : status → bool
}.
Inductive ext_error `{StatusErrors} := APIStatus (s : status) | Other (message : string).
Definition convertError `{StatusErrors} (err : ext_error) : ext_error :=
  match err with APIStatus s => APIStatus s | Other m => APIStatus (NewInternalError m) end.
Definition IsNotFound `{StatusErrors} (err : ext_error) : bool :=
  match err with APIStatus s => status_IsNotFound s | Other _ => false end.

Record UpdateOptions := mkUpdateOptions { DryRun : list string; FieldManager : string; FieldValidation : string }.

(** Calls that read and change the state of a store. *)
Section store_calls.
Context `{StatusErrors}.
Definition store_call (St A : Type) : Type := St → outcome ext_error A * St.
#[global] Instance store_ret {St} : MRet (store_call St) := λ A a st, (Ok a, st).
#[global] Instance store_bind {St} : MBind (store_call St) := λ A B k m st,
  match m st with
  | (Ok a, st) => k a st
  | (Err e, st) => (Err e, st)
  | (Panic, st) => (Panic, st)
  end.
Definition fails {St A} (e : ext_error) : store_call St A := λ st, (Err e, st).
Definition panics {St A} : store_call St A := λ st, (Panic, st).
(** An error of a call is converted. *)
Definition converting {St A} (m : store_call St A) : store_call St A := λ st,
  match m st with (Err e, st) => (Err (convertError e), st) | r => r end.
End store_calls.

Section create_or_update.
(** Objects, those of the type of the store, and the state of the store. *)
Context `{StatusErrors} {Object T St : Type} (as_T : Object → option T) (of_T : T → Object).

Record update_request := mkUpdateRequest {
  name : string;
  UpdatedObject : option T → store_call St Object;      (* objInfo, with the object there is *)
  createValidation : option (Object → store_call St unit);
  updateValidation : option (T → T → store_call St unit);
  forceAllowCreate : bool;
  options : UpdateOptions }.
Record store_functions := mkStoreFunctions {
  getFn : string → store_call St T;
  createFn : T → UpdateOptions → store_call St T;
  updateFn : T → UpdateOptions → store_call St T }.

Definition check_type (obj : Object) : store_call St T :=
  match as_T obj with Some t => mret t | None => fails (convertError (Other "object was not of the expected type")) end.
Definition create_missing (req : update_request) (fns : store_functions) : store_call St (Object * bool) :=
  obj ← converting (UpdatedObject req None);
  _ ← match createValidation req with Some validate => converting (validate obj) | None => panics end;
  tObj ← check_type obj;
  newObj ← converting (createFn fns tObj (options req));
  mret (of_T newObj, true).
Definition update_existing (req : update_request) (fns : store_functions) (oldObj : T) : store_call St (Object * bool) :=
  newObj ← converting (UpdatedObject req (Some oldObj));
  newT ← check_type newObj;
  _ ← match updateValidation req with Some validate => converting (validate newT oldObj) | None => mret () end;
  newT ← updateFn fns newT (options req);
  mret (of_T newT, false).
Definition CreateOrUpdate (req : update_request) (fns : store_functions) : store_call St (Object * bool) := λ st,
  match getFn fns (name req) st with
  | (Ok oldObj, st) => update_existing req fns oldObj st
  | (Err err, st) => if IsNotFound err then create_missing req fns st else (Err err, st)
  | (Panic, st) => (Panic, st)
  end.
End create_or_update.

Section create_or_update_theorems.
Context `{StatusErrors} {Object T St : Type} (as_T : Object → option T) (of_T : T → Object).

Lemma store_bind_ok {A B} (m : store_call St A) (k : A → store_call St B) st b st' :
  (m ≫= k) st = (Ok b, st') → ∃ a st1, m st = (Ok a, st1) ∧ k a st1 = (Ok b, st').
Proof. unfold mbind, store_bind. destruct (m st) as [[a|e|] st1]; [eauto|done..]. Qed.
Lemma converting_ok {A} (m : store_call St A) st a st' : converting m st = (Ok a, st') → m st = (Ok a, st').
Proof. unfold converting. by destruct (m st) as [[|e|] st1]. Qed.
Lemma check_type_ok obj t (st st' : St) : check_type as_T obj st = (Ok t, st') → as_T obj = Some t ∧ st' = st.
Proof. unfold check_type. destruct (as_T obj); [|done]. unfold mret, store_ret. naive_solver. Qed.

(** Either no object of the name was found, and the object that the request made from nothing and that passed the
    validation of a creation was created; or the object that the request made from the one there is and that passed the
    validation of an update was written; the result says which. *)
Theorem CreateOrUpdate_ok (req : @update_request _ Object T St) (fns : @store_functions _ T St) st o created st' :
  CreateOrUpdate as_T of_T req fns st = (Ok (o, created), st') →
  (created = true ∧ ∃ e st1 obj st2 validate st3 t t',
     getFn fns (name req) st = (Err e, st1) ∧ IsNotFound e = true ∧
     UpdatedObject req None st1 = (Ok obj, st2) ∧ createValidation req = Some validate ∧
     validate obj st2 = (Ok (), st3) ∧ as_T obj = Some t ∧
     createFn fns t (options req) st3 = (Ok t', st') ∧ o = of_T t') ∨
  (created = false ∧ ∃ old st1 obj st2 t st3 t',
     getFn fns (name req) st = (Ok old, st1) ∧ UpdatedObject req (Some old) st1 = (Ok obj, st2) ∧ as_T obj = Some t ∧
     (∀ validate, updateValidation req = Some validate → validate t old st2 = (Ok (), st3)) ∧
     updateFn fns t (options req) st3 = (Ok t', st') ∧ o = of_T t').
Proof.
  unfold CreateOrUpdate. destruct (getFn fns (name req) st) as [[old|e|] st1] eqn:Hget; [| |done].
  - intros (obj & st2 & Hobj%converting_ok & Hk)%store_bind_ok.
    apply store_bind_ok in Hk as (t & st2' & [Ht ->]%check_type_ok & Hk).
    apply store_bind_ok in Hk as (u & st3 & Hv & (t' & st4 & Hu & [= <- <- <-])%store_bind_ok).
    right. split; [done|]. exists old, st1, obj, st2, t, st3, t'. split_and!; try done.
    intros validate Heq. rewrite Heq in Hv. apply converting_ok in Hv. by destruct u.
  - destruct (IsNotFound e) eqn:He; [|done]. intros (obj & st2 & Hobj%converting_ok & Hk)%store_bind_ok.
    apply store_bind_ok in Hk as (u & st3 & Hv & Hk). apply store_bind_ok in Hk as (t & st3' & [Ht ->]%check_type_ok & Hk).
    apply store_bind_ok in Hk as (t' & st4 & Hc%converting_ok & [= <- <- <-]).
    destruct (createValidation req) as [validate|] eqn:Hval; [|done]. apply converting_ok in Hv. destruct u.
    left. split; [done|]. by exists e, st1, obj, st2, validate, st3, t, t'.
Qed.
End create_or_update_theorems.

(** ** Tables *)
Section tables.
Context `{StatusErrors} {Object T column : Type} (as_T : Object → option T).
Record table_row := mkTableRow { Cells : list string; RowObject : Object }.
Record table := mkTable { ColumnDefinitions : list column; Rows : list table_row }.
(** The default converter, and lists of objects, of k8s.io/apiserver and k8s.io/apimachinery. *)
Context (DefaultConvertToTable : Object → outcome ext_error table)
        (IsListType : Object → bool) (list_items : Object → outcome ext_error (list Object)).

Definition row_of (columnDefs : list column) (convertFn : T → list string) (obj : Object) : outcome ext_error table_row :=
  match as_T obj with
  | None => Err (Other "expected another type")
  | Some objT =>
      let cells := convertFn objT in
      if bool_decide (length cells ≠ length columnDefs) then Err (Other "defined other columns than cells")
      else Ok (mkTableRow cells obj)
  end.
Definition convertToTable (object : Object) (columnDefs : option (list column)) (convertFn : T → list string)
    : outcome ext_error table :=
  t ← DefaultConvertToTable object;
  match columnDefs with
  | None => Ok t
  | Some columnDefs =>
      let columns := if bool_decide (0 < length (ColumnDefinitions t)) then columnDefs else ColumnDefinitions t in
      objects ← if IsListType object then list_items object else Ok [object];
      rows ← map_outcome (row_of columnDefs convertFn) objects;
      Ok (mkTable columns rows)
  end.
Definition ConvertToTable (object : Object) (columnDefs : option (list column)) (convertFn : T → list string)
    : outcome ext_error table :=
  match convertToTable object columnDefs convertFn with Err e => Err (convertError e) | r => r end.

(** A table with columns of its own has a row for each object, in order, with as many cells as there are columns; its errors are
    those of the API. *)
Theorem ConvertToTable_rows object columnDefs convertFn :
  match ConvertToTable object (Some columnDefs) convertFn with
  | Ok t => ∃ objects, (if IsListType object then list_items object = Ok objects else objects = [object]) ∧
      Forall2 (λ o row, RowObject row = o ∧ length (Cells row) = length columnDefs ∧
        ∃ t, as_T o = Some t ∧ Cells row = convertFn t) objects (Rows t)
  | Err e => ∃ s, e = APIStatus s
  | Panic => True
  end.
Proof.
  unfold ConvertToTable. destruct (convertToTable object (Some columnDefs) convertFn) as [t|e|] eqn:Ht; [|destruct e; eauto|done].
  unfold convertToTable in Ht. apply outcome_bind_ok in Ht as (t0 & _ & Ht).
  apply outcome_bind_ok in Ht as (objects & Hobj & (rows & Hrows & [= <-])%outcome_bind_ok).
  exists objects. split; [destruct (IsListType object); [done|congruence]|]. cbn. clear Hobj.
  revert rows Hrows. induction objects as [|o objects IH]; intros rows Hrows; [by injection Hrows as <-|].
  cbn in Hrows. apply outcome_bind_ok in Hrows as (row & Hrow & (rows' & Hrows' & [= <-])%outcome_bind_ok).
  constructor; [|by apply IH]. unfold row_of in Hrow. destruct (as_T o) as [t|] eqn:Ho; [|done].
  case_bool_decide as Hlen; [done|]. injection Hrow as <-. cbn. split_and!; [done| |by exists t].
  destruct (decide (length (convertFn t) = length columnDefs)); [done|]. by destruct Hlen.
Qed.
End tables.
