(* ===== verification/Aggregation.v ===== *)
(** * The aggregation client: pkg/aggregation

    A secret says which server to connect to: watch.go starts a client for it, and starts another one when the
    secret changes. The connections that arrive through its tunnel are handed to an HTTP server by an in-memory
    listener (listener.go), whose methods are called by different goroutines. *)
From S2P Require Import Prelude GoLib.

(** ** The client: watch.go *)

(** A secret: its namespace and name, and the entries of its data that are read. *)
Record Secret := mkSecret {
  s_Namespace : string; s_Name : string; s_url : string; s_token : string; s_caCert : string }.
(** A call of [ListenAndServe], with what it connects to; [true] when its context is cancelled. *)
Record client := mkClient { cl_url : string; cl_caCert : string; cl_token : string; cl_cancelled : bool }.

Record handler := mkHandler {
  h_namespace : string; h_name : string;
  h_url : string; h_caCert : string; h_token : string;
  h_cancel : option nat;        (* the client the cancel function belongs to *)
  h_clients : list client }.    (* the clients started *)

Definition shouldRestart (h : handler) (secret : Secret) : option (string * string * string) :=
  let url := s_url secret in
  if bool_decide (url = "") then None
  else
    let token := s_token secret in
    if bool_decide (token = "") then None
    else
      let caCert := s_caCert secret in
      if bool_decide (h_url h ≠ url) || bool_decide (h_token h ≠ token) || bool_decide (h_caCert h ≠ caCert)
      then Some (url, caCert, token) else None.
Definition cancel_client (c : client) : client := mkClient (cl_url c) (cl_caCert c) (cl_token c) true.
Definition OnSecret (secret : option Secret) (h : handler) : handler :=
  match secret with
  | None => h
  | Some secret =>
      if bool_decide (s_Namespace secret ≠ h_namespace h) || bool_decide (s_Name secret ≠ h_name h) then h
      else match shouldRestart h secret with
        | None => h
        | Some (url, caCert, token) =>
            let clients := match h_cancel h with Some i => alter cancel_client i (h_clients h) | None => h_clients h end in
            mkHandler (h_namespace h) (h_name h) url caCert token (Some (length clients))
              (clients ++ [mkClient url caCert token false])
        end
  end.
(** [Watch]: nothing is watched without the name of a secret. *)
Definition Watch (secretNamespace secretName : string) : option handler :=
  if bool_decide (secretNamespace = "") || bool_decide (secretName = "") then None
  else Some (mkHandler secretNamespace secretName "" "" "" None []).

(** The last secret of the name with a URL and a token. *)
Definition usable (ns n : string) (s : Secret) : bool :=
  bool_decide (s_Namespace s = ns) && bool_decide (s_Name s = n) && bool_decide (s_url s ≠ "") && bool_decide (s_token s ≠ "").
Definition last_usable (ns n : string) (l : list (option Secret)) : option Secret :=
  foldl (λ last s, match s with Some s => if usable ns n s then Some s else last | None => last end) None l.
Definition running (h : handler) : list client := List.filter (λ c, negb (cl_cancelled c)) (h_clients h).

(** What the handler remembers and what runs agree. *)
Definition handler_ok (h : handler) (last : option Secret) : Prop :=
  match last with
  | None => h_url h = "" ∧ h_cancel h = None ∧ h_clients h = []
  | Some s => h_url h = s_url s ∧ h_caCert h = s_caCert s ∧ h_token h = s_token s ∧
      ∃ old, h_cancel h = Some (length old) ∧ Forall (λ c, cl_cancelled c = true) old ∧
        h_clients h = old ++ [mkClient (s_url s) (s_caCert s) (s_token s) false]
  end.
Lemma OnSecret_names s h : h_namespace (OnSecret s h) = h_namespace h ∧ h_name (OnSecret s h) = h_name h.
Proof.
  destruct s as [s|]; [|done]. cbn. destruct (_ || _); [done|]. by destruct (shouldRestart h s) as [[[??]?]|].
Qed.
Lemma OnSecret_ok s h last : handler_ok h last →
  handler_ok (OnSecret s h)
    (match s with Some s => if usable (h_namespace h) (h_name h) s then Some s else last | None => last end).
Proof.
  intros Hok. destruct s as [s|]; [|done]. cbn. unfold usable, shouldRestart.
  destruct (decide (s_Namespace s = h_namespace h)) as [Hns|Hns];
    [rewrite (bool_decide_eq_false_2 (s_Namespace s ≠ _)), (bool_decide_eq_true_2 (s_Namespace s = _)) by tauto
    |rewrite (bool_decide_eq_true_2 (s_Namespace s ≠ _)), (bool_decide_eq_false_2 (s_Namespace s = _)) by tauto; exact Hok].
  destruct (decide (s_Name s = h_name h)) as [Hn|Hn];
    [rewrite (bool_decide_eq_false_2 (s_Name s ≠ _)), (bool_decide_eq_true_2 (s_Name s = _)) by tauto
    |rewrite (bool_decide_eq_true_2 (s_Name s ≠ _)), (bool_decide_eq_false_2 (s_Name s = _)) by tauto; exact Hok].
  cbn [orb andb]. destruct (decide (s_url s = "")) as [Hu|Hu];
    [rewrite (bool_decide_eq_true_2 (s_url s = "")), (bool_decide_eq_false_2 (s_url s ≠ "")) by tauto; exact Hok|].
  rewrite (bool_decide_eq_false_2 (s_url s = "")), (bool_decide_eq_true_2 (s_url s ≠ "")) by tauto.
  destruct (decide (s_token s = "")) as [Ht|Ht];
    [rewrite (bool_decide_eq_true_2 (s_token s = "")), (bool_decide_eq_false_2 (s_token s ≠ "")) by tauto; exact Hok|].
  rewrite (bool_decide_eq_false_2 (s_token s = "")), (bool_decide_eq_true_2 (s_token s ≠ "")) by tauto. cbn [andb].
  destruct (bool_decide (h_url h ≠ s_url s) || _ || _) eqn:Hchanged.
  - cbn. split_and!; [done..|]. destruct last as [s0|]; cbn in Hok.
    + destruct Hok as (_ & _ & _ & old & Hc & Hold & Hcl). rewrite Hc, Hcl.
      rewrite alter_app_r_alt, Nat.sub_diag by done. cbn. eexists (old ++ [_]). split_and!; [done| |done].
      apply list.Forall_app. split; [done|]. by constructor.
    + destruct Hok as (_ & -> & ->). by exists [].
  - rewrite !orb_false_iff, !bool_decide_eq_false in Hchanged. destruct Hchanged as [[H1 H2] H3].
    apply dec_stable in H1, H2, H3. destruct last as [s0|]; cbn in Hok |- *.
    + destruct Hok as (Ha & Hb & Hd & Hrest). rewrite H1 in Ha. rewrite H2 in Hd. rewrite H3 in Hb.
      rewrite <-Ha, <-Hb, <-Hd in Hrest. done.
    + destruct Hok as (Ha & _). congruence.
Qed.

(** Whatever secrets are seen, one client runs, with the URL, token and certificate of the last usable secret of the name;
    none before there was one. A secret that is deleted or loses its URL does not stop the client. *)
Theorem one_client_runs ns n l h : Watch ns n = Some h →
  running (foldl (flip OnSecret) h l) =
  match last_usable ns n l with
  | Some s => [mkClient (s_url s) (s_caCert s) (s_token s) false]
  | None => []
  end.
Proof.
  unfold Watch. destruct (_ || _); [done|]. intros [= <-]. set (h0 := mkHandler _ _ _ _ _ _ _).
  assert (∀ l h last, h_namespace h = ns → h_name h = n → handler_ok h last →
    handler_ok (foldl (flip OnSecret) h l)
      (foldl (λ last s, match s with Some s => if usable ns n s then Some s else last | None => last end) last l)) as Hl.
  { clear. induction l as [|s l IH]; intros h last Hns Hn Hok; [done|]. cbn. apply IH.
    - by rewrite (proj1 (OnSecret_names s h)).
    - by rewrite (proj2 (OnSecret_names s h)).
    - pose proof (OnSecret_ok s h last Hok) as Hs. by rewrite Hns, Hn in Hs. }
  specialize (Hl l h0 None eq_refl eq_refl). unfold last_usable. destruct (foldl _ None l) as [s|]; cbn in Hl.
  - destruct Hl as (_ & _ & _ & old & _ & Hold & Hcl); [done|]. unfold running. rewrite Hcl, List.filter_app. cbn.
    assert (List.filter (λ c, negb (cl_cancelled c)) old = []) as ->; [|done].
    clear Hcl. induction Hold as [|c old Hc _ IH]; cbn; [done|]. by rewrite Hc.
  - destruct Hl as (_ & _ & Hcl); [done|]. unfold running. by rewrite Hcl.
Qed.

(** ** The listener: listener.go *)

(** A call of [Dial]: before and after it has the read lock, at its select, and at its end, with a connection or not;
    a call of [Close]: before and after it has the lock, and at its end. *)
Inductive dial_pc := DStart | DLocked | DSelect | DEnd (connected : bool).
Inductive close_pc := CStart | CLocked | CEnd.

(** The lock: how many readers hold it, and whether a writer does. The connections are named by the calls of [Dial] that
    made them: [buffer] is the channel, [accepted] what [Accept] has returned, [None] for its error. *)
Record Listener := mkListener {
  l_dials : list dial_pc;
  l_closers : list close_pc;
  l_readers : nat;
  l_writer : bool;
  l_closed : bool;
  l_open : bool;                (* the channel *)
  l_buffer : list nat;
  l_accepted : list (option nat);
  l_panicked : bool }.
Definition NewListener : Listener := mkListener [] [] 0 false false true [] [] false.
Definition capacity : nat := 5.

Definition set_dial (i : nat) (p : dial_pc) (readers : nat) (l : Listener) : Listener :=
  mkListener (<[i := p]> (l_dials l)) (l_closers l) readers (l_writer l) (l_closed l) (l_open l) (l_buffer l)
    (l_accepted l) (l_panicked l).
Definition set_closer (j : nat) (p : close_pc) (writer : bool) (l : Listener) : Listener :=
  mkListener (l_dials l) (<[j := p]> (l_closers l)) (l_readers l) writer (l_closed l) (l_open l) (l_buffer l)
    (l_accepted l) (l_panicked l).
Definition set_channel (open : bool) (buffer : list nat) (accepted : list (option nat)) (l : Listener) : Listener :=
  mkListener (l_dials l) (l_closers l) (l_readers l) (l_writer l) (l_closed l) open buffer accepted (l_panicked l).
Definition set_closed (l : Listener) : Listener :=
  mkListener (l_dials l) (l_closers l) (l_readers l) (l_writer l) true (l_open l) (l_buffer l) (l_accepted l)
    (l_panicked l).
Definition panic (l : Listener) : Listener :=
  mkListener (l_dials l) (l_closers l) (l_readers l) (l_writer l) (l_closed l) (l_open l) (l_buffer l)
    (l_accepted l) true.

(** Sending to, and closing, a closed channel panics. *)
Definition send_conn (i : nat) (l : Listener) : Listener :=
  if l_open l then set_channel true (l_buffer l ++ [i]) (l_accepted l) l else panic l.
Definition close_channel (l : Listener) : Listener :=
  if l_open l then set_channel false (l_buffer l) (l_accepted l) l else panic l.

Inductive listener_step l : Listener → Prop :=
  | call_dial : listener_step l (mkListener (l_dials l ++ [DStart]) (l_closers l) (l_readers l) (l_writer l)
      (l_closed l) (l_open l) (l_buffer l) (l_accepted l) (l_panicked l))
  | call_close : listener_step l (mkListener (l_dials l) (l_closers l ++ [CStart]) (l_readers l) (l_writer l)
      (l_closed l) (l_open l) (l_buffer l) (l_accepted l) (l_panicked l))
  | dial_lock i : l_dials l !! i = Some DStart → l_writer l = false →
      listener_step l (set_dial i DLocked (S (l_readers l)) l)
  | dial_check i : l_dials l !! i = Some DLocked →
      listener_step l (if l_closed l then set_dial i (DEnd false) (pred (l_readers l)) l
                       else set_dial i DSelect (l_readers l) l)
  | dial_send i : l_dials l !! i = Some DSelect → length (l_buffer l) < capacity →
      listener_step l (send_conn i (set_dial i (DEnd true) (pred (l_readers l)) l))
  | dial_done i : l_dials l !! i = Some DSelect →
      listener_step l (set_dial i (DEnd false) (pred (l_readers l)) l)
  | accept_conn i buffer : l_buffer l = i :: buffer →
      listener_step l (set_channel (l_open l) buffer (l_accepted l ++ [Some i]) l)
  | accept_closed : l_buffer l = [] → l_open l = false →
      listener_step l (set_channel (l_open l) [] (l_accepted l ++ [None]) l)
  | close_lock j : l_closers l !! j = Some CStart → l_readers l = 0 → l_writer l = false →
      listener_step l (set_closer j CLocked true l)
  | close_run j : l_closers l !! j = Some CLocked →
      listener_step l (let l' := if l_closed l then l else set_closed (close_channel l) in set_closer j CEnd false l').
Inductive listener_reaches l : Listener → Prop :=
  | listener_refl : listener_reaches l l
  | listener_next l' l'' : listener_reaches l l' → listener_step l' l'' → listener_reaches l l''.

Definition reading (p : dial_pc) : nat := match p with DLocked | DSelect => 1 | _ => 0 end.
Definition writing (p : close_pc) : nat := match p with CLocked => 1 | _ => 0 end.
Lemma sum_insert {A} (f : A → nat) (l : list A) i x y :
  l !! i = Some x → sum_list_with f (<[i := y]> l) + f x = sum_list_with f l + f y.
Proof.
  intros Hi. rewrite insert_take_drop by (by eapply lookup_lt_Some).
  rewrite <-(take_drop_middle l i x Hi) at 3. rewrite !sum_list_with_app. cbn. lia.
Qed.
Lemma sum_lookup {A} (f : A → nat) (l : list A) i x : l !! i = Some x → f x ≤ sum_list_with f l.
Proof.
  revert i. induction l as [|z l IH]; intros [|i] Hi; try done; cbn in *.
  - injection Hi as ->. lia.
  - specialize (IH i Hi). lia.
Qed.

(** The connections that [Dial] has returned are those in the channel and those accepted. *)
Definition sent (l : Listener) : list nat := omap id (l_accepted l) ++ l_buffer l.
Record listener_ok l : Prop := {
  ok_readers : l_readers l = sum_list_with reading (l_dials l);
  ok_writer : (if l_writer l then 1 else 0) = sum_list_with writing (l_closers l);
  ok_exclusive : l_writer l = true → l_readers l = 0;
  ok_open : l_open l = negb (l_closed l);
  ok_select : ∀ i, l_dials l !! i = Some DSelect → l_closed l = false;
  ok_panic : l_panicked l = false;
  ok_sent : ∀ i, i ∈ sent l ↔ l_dials l !! i = Some (DEnd true);
  ok_once : NoDup (sent l);
  ok_buffer : length (l_buffer l) ≤ capacity
}.

(** A call of [Dial] goes from one place to the next. *)
Lemma ok_set_dial l i p p' r : listener_ok l → l_dials l !! i = Some p → p ≠ DEnd true → p' ≠ DEnd true →
  r + reading p = l_readers l + reading p' → (reading p' = 1 → reading p = 0 → l_writer l = false) →
  (p' = DSelect → l_closed l = false) → listener_ok (set_dial i p' r l).
Proof.
  intros [Hr Hw Hx Ho Hs Hp Hsent Hnd Hb] Hi Hne Hne' Hsum Hlock Hsel.
  pose proof (sum_insert reading (l_dials l) i p p' Hi) as Hsum'. constructor; cbn; try done.
  - lia.
  - intros Hwr. specialize (Hx Hwr). pose proof (sum_lookup reading _ _ _ Hi). destruct (reading p') as [|[|]] eqn:Hp'.
    + lia.
    + destruct (reading p) as [|[|]] eqn:Hpr; [|lia..]. rewrite Hlock in Hwr by done. done.
    + by destruct p'.
  - intros i' Hi'. destruct (decide (i' = i)) as [->|Hni].
    + rewrite list_lookup_insert_eq in Hi' by (by eapply lookup_lt_Some). apply Hsel. congruence.
    + rewrite list_lookup_insert_ne in Hi' by congruence. by eapply Hs.
  - intros i'. change (sent (set_dial i p' r l)) with (sent l). rewrite Hsent. destruct (decide (i' = i)) as [->|Hni].
    + rewrite list_lookup_insert_eq by (by eapply lookup_lt_Some). rewrite Hi. split; congruence.
    + by rewrite list_lookup_insert_ne by congruence.
Qed.
Lemma ok_set_closer (l : Listener) (j : nat) (p p' : close_pc) (w : bool) : listener_ok l → l_closers l !! j = Some p →
  (if w then 1 else 0) + writing p = (if l_writer l then 1 else 0) + writing p' → (w = true → l_readers l = 0) →
  listener_ok (set_closer j p' w l).
Proof.
  intros [Hr Hw Hx Ho Hs Hp Hsent Hnd Hb] Hj Hsum Hread.
  pose proof (sum_insert writing (l_closers l) j p p' Hj) as Hsum'. constructor; cbn; try done. lia.
Qed.
Lemma reader_excludes_writer l i p : listener_ok l → l_dials l !! i = Some p → reading p = 1 → l_writer l = false.
Proof.
  intros [Hr Hw Hx Ho Hs Hp Hsent Hnd Hb] Hi Hp1. pose proof (sum_lookup reading _ _ _ Hi).
  destruct (l_writer l); [|done]. specialize (Hx eq_refl). lia.
Qed.
Lemma omap_id_snoc (l : list (option nat)) o : omap id (l ++ [o]) = omap id l ++ (if o is Some i then [i] else []).
Proof. rewrite omap_app. by destruct o. Qed.

Lemma sends_ok l i : listener_ok l → l_dials l !! i = Some DSelect → length (l_buffer l) < capacity →
  listener_ok (send_conn i (set_dial i (DEnd true) (pred (l_readers l)) l)).
Proof.
  intros [Hr Hw Hx Ho Hs Hp Hsent Hnd Hb] Hi Hroom. pose proof (Hs i Hi) as Hc. rewrite Hc in Ho. cbn in Ho.
  pose proof (sum_insert reading (l_dials l) i DSelect (DEnd true) Hi) as Hsum.
  pose proof (sum_lookup reading _ _ _ Hi) as Hle. unfold send_conn. cbn [set_dial l_open]. rewrite Ho. cbn in Hsum, Hle.
  assert (i ∉ sent l) as Hnew by (rewrite Hsent; congruence).
  constructor; cbn; try done.
  - lia.
  - intros Hwr. specialize (Hx Hwr). lia.
  - by rewrite Hc.
  - intros i'. unfold sent. cbn. rewrite app_assoc, elem_of_app, list_elem_of_singleton. fold (sent l). rewrite Hsent.
    destruct (decide (i' = i)) as [->|Hni].
    + rewrite list_lookup_insert_eq by (by eapply lookup_lt_Some). naive_solver.
    + rewrite list_lookup_insert_ne by congruence. naive_solver.
  - unfold sent. cbn. rewrite app_assoc. fold (sent l). apply list.NoDup_app. split_and!; [done| |apply NoDup_singleton].
    intros i' Hi' ->%list_elem_of_singleton. done.
  - rewrite length_app. cbn. unfold capacity in *. lia.
Qed.
Lemma closes_ok l j : listener_ok l → l_closers l !! j = Some CLocked →
  listener_ok (let l' := if l_closed l then l else set_closed (close_channel l) in set_closer j CEnd false l').
Proof.
  intros Hok Hj. pose proof (ok_writer _ Hok) as Hw. pose proof (sum_lookup writing _ _ _ Hj) as Hle. cbn in Hle.
  assert (l_writer l = true) as Hwr by (destruct (l_writer l); [done|lia]). rewrite Hwr in Hw.
  destruct (l_closed l) eqn:Hc; cbn zeta.
  - eapply ok_set_closer; [done..| |done]. rewrite Hwr. done.
  - pose proof (ok_open _ Hok) as Ho. rewrite Hc in Ho. unfold close_channel. rewrite Ho.
    eapply (ok_set_closer (set_closed (set_channel false (l_buffer l) (l_accepted l) l))); [|done| |done].
    + destruct Hok as [Hr _ Hx _ Hs Hp Hsent Hnd Hb]. constructor; cbn; try done.
      * rewrite Hwr. done.
      * intros i Hi. specialize (Hx Hwr). pose proof (sum_lookup reading _ _ _ Hi). cbn in *. lia.
    + cbn. rewrite Hwr. done.
Qed.
Lemma listener_step_ok l l' : listener_ok l → listener_step l l' → listener_ok l'.
Proof.
  intros Hok Hstep.
  destruct Hstep as [| |i Hi Hw|i Hi|i Hi Hroom|i Hi|i buffer Hbuf|Hbuf Hopen|j Hj Hr Hw|j Hj].
  - destruct Hok as [Hr Hw Hx Ho Hs Hp Hsent Hnd Hb]. constructor; cbn; try done.
    + rewrite sum_list_with_app. cbn. lia.
    + intros i [Hi|(_ & Hi)]%lookup_app_Some; [by eapply Hs|]. by destruct (i - _) as [|[]].
    + intros i. change (sent _) with (sent l). rewrite Hsent, lookup_app. destruct (l_dials l !! i) eqn:Hi; [done|].
      destruct (i - length (l_dials l)) as [|[]]; done.
  - destruct Hok as [Hr Hw Hx Ho Hs Hp Hsent Hnd Hb]. constructor; cbn; try done. rewrite sum_list_with_app. cbn. lia.
  - eapply ok_set_dial; [done..| | |done]; cbn; [lia|done].
  - pose proof (reader_excludes_writer l i _ Hok Hi eq_refl) as Hw.
    pose proof (sum_lookup reading _ _ _ Hi) as Hle. pose proof (ok_readers _ Hok). cbn in Hle.
    destruct (l_closed l) eqn:Hc; (eapply ok_set_dial; [done..| | |]); cbn; try done; lia.
  - apply (sends_ok l i Hok Hi Hroom).
  - pose proof (sum_lookup reading _ _ _ Hi) as Hle. pose proof (ok_readers _ Hok). cbn in Hle.
    eapply ok_set_dial; [done..| | |]; cbn; try done; lia.
  - destruct Hok as [Hr Hw Hx Ho Hs Hp Hsent Hnd Hb].
    assert (sent (set_channel (l_open l) buffer (l_accepted l ++ [Some i]) l) = sent l) as Hsame.
    { unfold sent. cbn. rewrite omap_id_snoc, Hbuf, <-app_assoc. done. }
    constructor; rewrite ?Hsame; cbn; try done. rewrite Hbuf in Hb. cbn in Hb. unfold capacity in *. lia.
  - destruct Hok as [Hr Hw Hx Ho Hs Hp Hsent Hnd Hb].
    assert (sent (set_channel (l_open l) [] (l_accepted l ++ [None]) l) = sent l) as Hsame.
    { unfold sent. cbn. by rewrite omap_id_snoc, Hbuf, app_nil_r. }
    constructor; rewrite ?Hsame; cbn; try done. unfold capacity. lia.
  - eapply ok_set_closer; [done..| |]; [rewrite Hw; done|done].
  - apply (closes_ok l j Hok Hj).
Qed.
Lemma listener_reaches_ok l : listener_reaches NewListener l → listener_ok l.
Proof.
  induction 1 as [|l l' _ IH Hstep]; [|by eapply listener_step_ok].
  constructor; cbn; try done; try (unfold capacity; lia); try constructor.
  - by intros []%elem_of_nil.
  - done.
Qed.

(** However the calls of Dial, Accept and Close interleave, none panics; the connections that calls of Dial have returned are, each once,
    those that Accept has returned and those that wait in the channel. *)
Theorem listener_keeps_connections l : listener_reaches NewListener l →
  l_panicked l = false ∧ NoDup (sent l) ∧ length (l_buffer l) ≤ capacity ∧
  (∀ i, i ∈ sent l ↔ l_dials l !! i = Some (DEnd true)).
Proof. intros []%listener_reaches_ok. done. Qed.

(** While a call of Dial waits for room in the channel, Close waits for it. *)
Theorem dial_blocks_close l i l' : listener_reaches NewListener l → l_dials l !! i = Some DSelect →
  listener_step l l' → l_writer l' = false ∧ l_closed l' = false.
Proof.
  intros Hok%listener_reaches_ok Hi Hstep.
  pose proof (reader_excludes_writer l i _ Hok Hi eq_refl) as Hw. pose proof (ok_select _ Hok i Hi) as Hc.
  pose proof (sum_lookup reading _ _ _ Hi) as Hle. pose proof (ok_readers _ Hok) as Hr. cbn in Hle.
  destruct Hstep as [| | |i' Hi'|i' Hi'| | | |j Hj Hr0|j Hj]; cbn; try done.
  - by rewrite Hc.
  - unfold send_conn. cbn. rewrite (ok_open _ Hok), Hc. done.
  - lia.
  - pose proof (sum_lookup writing _ _ _ Hj) as Hlw. pose proof (ok_writer _ Hok). rewrite Hw in *. cbn in *. lia.
Qed.
