(* ===== verification/SqlIndexer.v ===== *)
(** * Look-ups by index in the SQL cache: pkg/sqlcache/informer/indexer.go

    An indexer of client-go on the tables of [SqlStore]: each object has rows of index name and value for
    what the index functions give for it, which the hook [AfterUpsert] writes; look-ups are queries on these
    rows. The order of rows without ORDER BY is that of [MapRange]. *)
From S2P Require Import Prelude GoLib GoValue SqlQuery IndexFields WatchEvents ExternalInfo SqlStore.

Section queries.
Context `{MapRange} {Ser : Type} (Deserialize : Ser → outcome string object).
Context (indexers : gmap string (object → outcome string (list string))).
Implicit Types (s : store_state Ser) (t : tables Ser).

(** SELECT ... WHERE key IN (SELECT key ... WHERE name = ? AND value IN (...)). *)
Definition select_objects (indexName : string) (values : list string) t : list Ser :=
  omap (λ '(key, ser),
    if existsb (λ v, bool_decide (is_Some (t_indices t !! (indexName, v, key)))) values then Some ser else None)
    (range_map (t_objects t)).
(** [ReadObjects]. *)
Definition ReadObjects (rows : list Ser) : outcome string (list object) := map_outcome Deserialize rows.

Definition ByIndex (indexName indexedValue : string) s : outcome string (list object) :=
  ReadObjects (select_objects indexName [indexedValue] (st_tables s)).
Definition Index (indexName : string) (obj : object) s : outcome string (list object) :=
  match indexers !! indexName with
  | None => Err ("index with name " +:+ indexName +:+ " does not exist")
  | Some indexFunc =>
      values ← indexFunc obj;
      match values with
      | [] => Ok []
      | [value] => ByIndex indexName value s
      | _ => ReadObjects (select_objects indexName values (st_tables s))
      end
  end.
Definition IndexKeys (indexName indexedValue : string) s : outcome string (list string) :=
  match indexers !! indexName with
  | None => Err ("Index with name " +:+ indexName +:+ " does not exist")
  | Some _ => Ok (remove_dups (omap (λ '((name, value, key), _),
      if bool_decide (name = indexName) && bool_decide (value = indexedValue) then Some key else None)
      (range_map (t_indices (st_tables s)))))
  end.
Definition ListIndexFuncValues (indexName : string) s : list string :=
  remove_dups (omap (λ '((name, value, key), _), if bool_decide (name = indexName) then Some value else None)
    (range_map (t_indices (st_tables s)))).
Definition AddIndexers (newIndexers : gmap string (object → outcome string (list string)))
    : gmap string (object → outcome string (list string)) :=
  foldl (λ m '(k, v), <[k := v]> m) indexers (range_map newIndexers).
End queries.

(** ** What the rows say *)
Section index_lemmas.
Context `{MapRange} `{GoFmt, Nested}.
Context {Ser : Type} (indexers : gmap string (object → outcome string (list string))).
Implicit Types (s : store_state Ser) (t : tables Ser) (abs : gmap string object).

(** The index function of a name gives a value for an object. *)
Definition indexed (n v : string) (obj : object) : bool :=
  match indexers !! n with
  | Some index => match index obj with Ok values => bool_decide (v ∈ values) | _ => false end
  | None => false
  end.
Definition indices_ok abs t : Prop := ∀ n v k,
  is_Some (t_indices t !! (n, v, k)) ↔ ∃ obj, abs !! k = Some obj ∧ indexed n v obj = true.

Lemma index_rows_indexed obj rows n v : index_rows indexers obj = Ok rows → (n, v) ∈ rows ↔ indexed n v obj = true.
Proof.
  unfold index_rows. intros (rs & Hrs & [= <-])%outcome_bind_ok. apply map_outcome_ok in Hrs.
  assert ((n, v) ∈ List.concat rs ↔ ∃ name r, name ∈ sort_strings (map_to_list indexers).*1 ∧
    index_rows_of indexers obj name = Ok r ∧ (n, v) ∈ r) as ->.
  { induction Hrs as [|name r names rs Hr _ IH]; cbn.
    - rewrite elem_of_nil. split; [done|]. by intros (? & ? & []%elem_of_nil & _).
    - rewrite elem_of_app, IH. setoid_rewrite elem_of_cons. split.
      + intros [Hin|(name' & r' & ? & ? & ?)]; [exists name, r|exists name', r']; auto.
      + intros (name' & r' & [->|?] & Hr' & Hin); [left; congruence|right; eauto]. }
  unfold index_rows_of, indexed. split.
  - intros (name & r & _ & Hr & Hin). destruct (indexers !! name) as [index|] eqn:Hi; [|done].
    apply outcome_bind_ok in Hr as (values & Hv & [= <-]). apply list_elem_of_fmap in Hin as (v' & [= -> ->] & Hin).
    rewrite Hi, Hv. by apply bool_decide_eq_true.
  - destruct (indexers !! n) as [index|] eqn:Hi; [|done]. destruct (index obj) as [values| |] eqn:Hv; [|done..].
    intros Hin%bool_decide_eq_true. exists n, ((λ v : string, (n, v)) <$> values). rewrite Hi. cbn. rewrite Hv. split_and!.
    + apply elem_of_sort_strings, list_elem_of_fmap. exists (n, index). by rewrite elem_of_map_to_list.
    + done.
    + apply list_elem_of_fmap. by exists v.
Qed.
Lemma insert_rows_iff (rows : list (string * string)) (m : gmap (string * string * string) unit) key n v k :
  is_Some (foldl (λ m '(n, v), <[(n, v, key) := tt]> m) m rows !! (n, v, k)) ↔
  is_Some (m !! (n, v, k)) ∨ (k = key ∧ (n, v) ∈ rows).
Proof.
  rewrite (foldl_or (λ m : gmap (string * string * string) unit, is_Some (m !! (n, v, k)))
    (λ nv, k = key ∧ nv = (n, v))); [naive_solver|].
  intros m' [n' v'] _. rewrite lookup_insert_is_Some'. naive_solver.
Qed.

Lemma delete_indices abs key t : indices_ok abs t → indices_ok (delete key abs) (delete_key key t).
Proof.
  intros Hok n v k. cbn. unfold is_Some. setoid_rewrite map_lookup_filter_Some. cbn. specialize (Hok n v k). unfold is_Some in Hok.
  destruct (decide (k = key)) as [->|Hk].
  - rewrite lookup_delete_eq. naive_solver.
  - rewrite lookup_delete_ne by done. naive_solver.
Qed.
Lemma delete_all_indices t : indices_ok ∅ (delete_all t).
Proof. intros n v k. cbn. setoid_rewrite lookup_empty. rewrite is_Some_None_iff. naive_solver. Qed.

(** The rows after the hooks of an upsert. *)
Context (GetLabels : object → gmap string string) (indexedFields : list string).
Lemma upsert_indices abs key ser obj f s s' : indices_ok abs (st_tables s) →
  run_all [Upsert key ser; run_all [AfterUpsert indexers key obj; addIndexFields indexedFields key obj;
    addLabels GetLabels key obj; notify f]] s = (s', None) →
  indices_ok (<[key := obj]> abs) (st_tables s').
Proof.
  intros Hok (s0 & [= <-] & (s5 & Hhooks & [= <-])%run_all_cons)%run_all_cons.
  apply run_all_cons in Hhooks as (s1 & Hindex & (s2 & Hfields & (s3 & Hlabels & (s4 & Hnotify & [= <-])%run_all_cons)%run_all_cons)%run_all_cons).
  assert (t_indices (st_tables s4) = t_indices (st_tables s1)) as Hsame.
  { unfold notify in Hnotify. destruct (f _); [|done..]. injection Hnotify as <-. injection Hlabels as <-.
    unfold addIndexFields in Hfields. destruct (index_values _ _); [|done..]. by injection Hfields as <-. }
  unfold indices_ok. rewrite Hsame. clear Hsame Hfields Hlabels Hnotify.
  unfold AfterUpsert in Hindex. destruct (index_rows indexers obj) as [rows| |] eqn:Hrows; [|done..].
  case_bool_decide; [|done]. injection Hindex as <-. cbn. intros n v k. rewrite insert_rows_iff.
  rewrite (index_rows_indexed _ _ _ _ Hrows).
  assert (is_Some (filter (λ p : string * string * string * unit, p.1.2 ≠ key) (t_indices (st_tables s)) !! (n, v, k)) ↔
    k ≠ key ∧ is_Some (t_indices (st_tables s) !! (n, v, k))) as ->.
  { unfold is_Some. setoid_rewrite map_lookup_filter_Some. cbn. naive_solver. }
  unfold indices_ok in Hok. rewrite Hok. destruct (decide (k = key)) as [->|Hk].
  - rewrite lookup_insert_eq. naive_solver.
  - rewrite lookup_insert_ne by done. naive_solver.
Qed.
End index_lemmas.

(** ** Runs of the store *)
Section runs.
Context `{MapRange} `{GoFmt, Nested}.
Context (keyFunc : object → outcome string string).
Context {Ser : Type} (Serialize : object → outcome string Ser) (Deserialize : Ser → outcome string object).
Context (Accessor : object → option Metadata) (GetLabels : object → gmap string string).
Context (indexers : gmap string (object → outcome string (list string))) (indexedFields : list string).
Context (name : string) (externalUpdateInfo selfUpdateInfo : option ExternalGVKUpdates).
Implicit Types (s : store_state Ser) (abs : gmap string object).
Local Abbreviation run_op := (run_op keyFunc Serialize Deserialize Accessor GetLabels indexers indexedFields
  name externalUpdateInfo selfUpdateInfo).
Local Abbreviation run_abs := (run_abs keyFunc Serialize Deserialize Accessor GetLabels indexers indexedFields
  name externalUpdateInfo selfUpdateInfo).
Local Abbreviation indices_ok := (indices_ok indexers).

Lemma Replace_indices objs s s' : run_op (OpReplace objs) s = (s', None) →
  indices_ok (abs_op keyFunc (OpReplace objs) ∅) (st_tables s').
Proof.
  intros (keyed & l & Hkeyed & Hl & (s1 & [= <-] & Hr)%run_all_cons)%Replace_ok.
  cbn [abs_op]. rewrite <- (keyed_objects _ _ _ Hkeyed). set (objects := foldl _ ∅ keyed) in *.
  assert (l.*1 = range_map objects) as Hfst.
  { apply map_outcome_ok in Hl. clear Hr. induction Hl as [|[k obj] [[k' obj'] ser] kvs l Hx _ IH]; [done|].
    cbn in Hx. destruct (Serialize obj) as [ser'| |]; [|done..]. cbn in Hx. by simplify_eq. }
  pose proof (replace_loop Accessor GetLabels indexers indexedFields
    (λ done t, indices_ok (foldl (λ m kv, <[kv.1 := kv.2]> m) ∅ done.*1) t)
    [] l (with_tables delete_all s) s') as Hloop.
  cbn [app] in Hloop. rewrite Hfst, foldl_insert_map in Hloop. apply Hloop; [| |exact Hr].
  - intros don key obj ser f s1 s2 HP Hup. rewrite fmap_app, foldl_app. by eapply upsert_indices.
  - apply delete_all_indices.
Qed.
Lemma upserted_indices obj s s' abs : indices_ok abs (st_tables s) →
  upserted keyFunc Serialize GetLabels indexers indexedFields name externalUpdateInfo selfUpdateInfo obj s s' →
  indices_ok (<[key_of keyFunc obj := obj]> abs) (st_tables s').
Proof.
  intros Hok (key & ser & f & s1 & Hkey & Hser & Hr & ->). unfold key_of. rewrite Hkey. unfold SqlIndexer.indices_ok.
  destruct (update_columns_tables indexedFields name _ (externalUpdateInfo, selfUpdateInfo) s1 (reflexivity _)) as (_ & -> & _).
  by eapply upsert_indices.
Qed.
Lemma run_op_indices o s s' abs : run_op o s = (s', None) → indices_ok abs (st_tables s) →
  indices_ok (abs_op keyFunc o abs) (st_tables s').
Proof.
  intros Hrun Hok. destruct o as [obj|obj|obj|objs|others infos]; cbn [run_op abs_op] in *.
  - apply Add_ok in Hrun. by eapply upserted_indices.
  - apply Update_ok in Hrun. by eapply upserted_indices.
  - apply Delete_ok in Hrun as (key & Hkey & evs & ->). unfold key_of. rewrite Hkey. by apply (delete_indices indexers abs key).
  - by apply (Replace_indices objs s).
  - injection Hrun as <-. unfold SqlIndexer.indices_ok. set (s1 := mkStore _ _ _ _ others).
    by destruct (update_columns_tables indexedFields name _ infos s1 (reflexivity _)) as (_ & -> & _).
Qed.
Lemma run_abs_indices ops s abs : indices_ok abs (st_tables s) →
  let '(s', abs') := foldl run_abs (s, abs) ops in indices_ok abs' (st_tables s').
Proof.
  revert s abs. induction ops as [|o ops IH]; intros s abs Hok; [done|].
  cbn [foldl]. unfold SqlStore.run_abs at 2. destruct (run_op o s) as [s' [e|]] eqn:Hrun.
  - apply run_op_error in Hrun. apply IH. by rewrite Hrun.
  - apply IH. by eapply run_op_indices.
Qed.

(** The rows a query selects are those of the objects. *)
Lemma select_map abs t n vs : (∀ obj ser, Serialize obj = Ok ser → Deserialize ser = Ok obj) → indices_ok abs t → objects_match Serialize abs (t_objects t) →
  ∃ l, ReadObjects Deserialize (select_objects n vs t) = Ok l ∧
    l ≡ₚ (List.filter (λ p, existsb (λ v, indexed indexers n v p.2) vs) (map_to_list abs)).*2.
Proof.
  intros codec Hok Hm. set (decode := λ ser, match Deserialize ser with Ok o => o | _ => ∅ end).
  assert (∀ k ser, t_objects t !! k = Some ser → Deserialize ser = Ok (decode ser) ∧ abs !! k = Some (decode ser)) as Hser.
  { intros k ser Hk. specialize (Hm k). destruct (abs !! k) as [obj|]; [|congruence].
    destruct Hm as (ser' & Hk' & Hs). assert (ser' = ser) as -> by congruence. unfold decode. by rewrite (codec _ _ Hs). }
  assert (abs = decode <$> t_objects t) as Habs.
  { apply map_eq. intros k. rewrite lookup_fmap. destruct (t_objects t !! k) as [ser|] eqn:Hk; cbn.
    - by apply Hser.
    - specialize (Hm k). destruct (abs !! k); [|done]. destruct Hm as (? & ? & _). congruence. }
  exists (decode <$> select_objects n vs t). split.
  - apply map_outcome_fmap. intros ser ([k ser'] & Hin & Hsel)%list_elem_of_omap.
    apply elem_of_range_map in Hin. destruct (existsb _ vs); [|done]. injection Hsel as ->. by apply (Hser k).
  - assert (∀ l : list (string * Ser), (∀ k ser, (k, ser) ∈ l → t_objects t !! k = Some ser) →
      decode <$> omap (λ '(key, ser),
        if existsb (λ v, bool_decide (is_Some (t_indices t !! (n, v, key)))) vs then Some ser else None) l =
      (List.filter (λ p, existsb (λ v, indexed indexers n v p.2) vs) (prod_map id decode <$> l)).*2) as Hl.
    { induction l as [|[k ser] l IH]; intros Hin; [done|]. cbn.
      assert (existsb (λ v, bool_decide (is_Some (t_indices t !! (n, v, k)))) vs =
        existsb (λ v, indexed indexers n v (decode ser)) vs) as Hex.
      { clear -Hok Hser Hin. specialize (Hin k ser ltac:(by left)). apply Hser in Hin as [_ Ha].
        induction vs as [|v vs IH]; [done|]. cbn. rewrite IH. f_equal. apply eq_true_iff_eq.
        rewrite bool_decide_eq_true, (Hok n v k), Ha. naive_solver. }
      rewrite Hex. specialize (IH ltac:(intros; apply Hin; by right)). clear Hex.
      destruct (existsb (λ v, indexed indexers n v (decode ser)) vs); cbn; [|exact IH]. by f_equal. }
    unfold select_objects. rewrite Hl by (intros k ser Hin; by apply elem_of_range_map). apply Permutation_map.
    assert (prod_map id decode <$> range_map (t_objects t) ≡ₚ map_to_list abs) as Hp.
    { rewrite Habs, map_to_list_fmap. apply Permutation_map, range_map_perm. }
    induction Hp as [|x l l' _ IH|x y l|l1 l2 l3 _ IH1 _ IH2]; cbn; [done|..].
    + destruct (existsb _ vs); [by constructor|done].
    + destruct (existsb _ vs), (existsb _ vs); try done. constructor.
    + by etrans.
Qed.

Lemma IndexKeys_spec abs s n v index : indices_ok abs (st_tables s) → indexers !! n = Some index →
  ∃ ks, IndexKeys indexers n v s = Ok ks ∧ NoDup ks ∧ ∀ k, k ∈ ks ↔ ∃ obj, abs !! k = Some obj ∧ indexed indexers n v obj = true.
Proof.
  intros Hok Hn. unfold IndexKeys. rewrite Hn. eexists. split; [done|]. split; [apply NoDup_remove_dups|].
  intros k. rewrite elem_of_remove_dups, <-(Hok n v k). split.
  - intros ([[[n' v'] k'] u] & Hin & Hsel)%list_elem_of_omap. apply elem_of_range_map in Hin.
    destruct (bool_decide (n' = n)) eqn:Hn', (bool_decide (v' = v)) eqn:Hv'; try done.
    apply bool_decide_eq_true in Hn', Hv'. injection Hsel as ->. subst. by exists u.
  - intros [u Hu]. apply list_elem_of_omap. exists (n, v, k, u). split; [by apply elem_of_range_map|].
    by rewrite !bool_decide_eq_true_2.
Qed.
Lemma ListIndexFuncValues_spec abs s n v : indices_ok abs (st_tables s) →
  v ∈ ListIndexFuncValues n s ↔ ∃ k obj, abs !! k = Some obj ∧ indexed indexers n v obj = true.
Proof.
  intros Hok. unfold ListIndexFuncValues. setoid_rewrite <-(Hok n v). rewrite elem_of_remove_dups. split.
  - intros ([[[n' v'] k'] u] & Hin & Hsel)%list_elem_of_omap. apply elem_of_range_map in Hin.
    destruct (bool_decide (n' = n)) eqn:Hn'; [|done]. apply bool_decide_eq_true in Hn'. injection Hsel as ->. subst.
    by exists k', u.
  - intros [k [u Hu]]. apply list_elem_of_omap. exists (n, v, k, u). split; [by apply elem_of_range_map|].
    by rewrite bool_decide_eq_true_2.
Qed.

(** C34: Whatever operations are run on a new store, its look-ups by index answer as an indexer over the map of the
    objects does: [ByIndex] gives exactly the objects for which the index function gives the value, [Index] those that
    share a value with an object, [IndexKeys] their keys and [ListIndexFuncValues] the values there are, the last two
    without repetition. *)
Theorem indexer_refines_map ops others :
  (∀ obj ser, Serialize obj = Ok ser → Deserialize ser = Ok obj) →
  let '(s, abs) := foldl run_abs (new_store others, ∅) ops in
  let matching n vs := (List.filter (λ p, existsb (λ v, indexed indexers n v p.2) vs) (map_to_list abs)).*2 in
  (∀ n v, ∃ l, ByIndex Deserialize n v s = Ok l ∧ l ≡ₚ matching n [v]) ∧
  (∀ n index obj values, indexers !! n = Some index → index obj = Ok values →
     ∃ l, Index Deserialize indexers n obj s = Ok l ∧ l ≡ₚ matching n values) ∧
  (∀ n v index, indexers !! n = Some index → ∃ ks, IndexKeys indexers n v s = Ok ks ∧ NoDup ks ∧
     ∀ k, k ∈ ks ↔ ∃ obj, abs !! k = Some obj ∧ indexed indexers n v obj = true) ∧
  (∀ n, NoDup (ListIndexFuncValues n s) ∧
     ∀ v, v ∈ ListIndexFuncValues n s ↔ ∃ k obj, abs !! k = Some obj ∧ indexed indexers n v obj = true).
Proof.
  intros codec. destruct (new_store_ok Serialize others) as (Hwf & Hm).
  pose proof (run_abs_ok keyFunc Serialize Deserialize Accessor GetLabels indexers indexedFields
    name externalUpdateInfo selfUpdateInfo ops (new_store others) ∅ Hwf Hm) as Hrun.
  pose proof (run_abs_indices ops (new_store others) ∅ (delete_all_indices indexers (mkTables ∅ ∅ ∅ ∅ []))) as Hindices.
  destruct (foldl run_abs (new_store others, ∅) ops) as [s abs]. destruct Hrun as (_ & Hobjects). cbv zeta. split_and!.
  - intros n v. by apply select_map.
  - intros n index obj values Hn Hv. unfold Index. rewrite Hn. cbn. rewrite Hv. cbn.
    destruct values as [|v [|v' vs]]; [|by apply select_map..].
    exists []. split; [done|]. replace (List.filter _ _) with (@nil (string * object)); [done|].
    induction (map_to_list abs) as [|p l IH]; [done|exact IH].
  - intros n v index Hn. by eapply IndexKeys_spec.
  - intros n. split; [apply NoDup_remove_dups|]. intros v. by apply ListIndexFuncValues_spec.
Qed.
End runs.

(** ** The pods of a store, by version *)
Module IndexerExample.
Import Concrete IndexFields.FieldExample StoreExample.
Lemma indexer_refines_map_witness :
  let '(s, abs) := foldl run_both (new_store ∅, ∅) ops in
  ∃ l, ByIndex Ok "byState" "2" s = Ok l ∧
    l ≡ₚ (List.filter (λ p, existsb (λ v, indexed indexers "byState" v p.2) ["2"]) (map_to_list abs)).*2.
Proof.
  pose proof (indexer_refines_map key Ok Ok accessor labels_of indexers fields "_v1_Pod" None (Some node_state) ops ∅) as Hr.
  destruct (foldl _ _ _) as [s abs]. apply Hr. intros obj ser Hs. by injection Hs as ->.
Defined.
Example version_2 : ByIndex Ok "byState" "2" (foldl run_both (new_store ∅, ∅) ops).1
  = Ok [a2].
Proof. vm_compute. reflexivity. Qed.
End IndexerExample.
