(* ===== verification/Templates.v ===== *)
(** * Schema templates: pkg/schema/collection.go, pkg/schema/factory.go

    Templates give the schemas of a collection their formatters and stores and customise them
    ([applyTemplates]); a template may also start something that runs as long as its schema exists
    ([startStopTemplate]). Both happen when the schemas are reset. *)
From S2P Require Import Prelude GoLib AccessControl Schemas.

(** What templates hold: formatters and stores of rancher/apiserver, and what a start does to the world. *)
Class TemplateTypes := {
  Formatter : Type;
  FormatterChain : Formatter → Formatter → Formatter;
  Store : Type;
  world : Type
}.
(** A schema with what templates set. *)
Record templated `{TemplateTypes} := mkTemplated {
  t_schema : APISchema; t_Formatter : option Formatter; t_Store : option Store }.
(** A start is given its context, by number; an error leaves what was done until then. *)
Record Template `{TemplateTypes} := mkTemplate {
  T_Group : string; T_Kind : string; T_ID : string;
  T_Customize : option (templated → templated);
  T_Formatter : option Formatter;
  T_Store : option Store;
  T_Start : option (nat → world → world * option string);
  T_StoreFactory : option (option Store → Store) }.

Section templates.
Context `{TemplateTypes, MapRange}.
Abbreviation templates := (gmap string (list Template)).
Implicit Types (c : templates) (t : Template) (s : templated).

(** ** Adding *)
Definition add_template (key : string) t c : templates := <[key := default [] (c !! key) ++ [t]]> c.
Definition AddTemplate (l : list Template) c : templates :=
  foldl (λ c t,
    let c := if bool_decide (T_Kind t ≠ "") then add_template (T_Group t +:+ "/" +:+ T_Kind t) t c
             else if bool_decide (T_ID t ≠ "") then add_template (T_ID t) t c else c in
    if bool_decide (T_Kind t = "") && bool_decide (T_Group t = "") && bool_decide (T_ID t = "")
    then add_template "" t c else c) c l.

(** ** Applying *)
Definition templates_at c (key : string) : list Template := default [] (c !! key).
Definition defaultStore c : option Store :=
  match templates_at c "" with t :: _ => T_Store t | [] => None end.
Definition apply_template c s t : templated :=
  let formatter := match t_Formatter s, T_Formatter t with
    | None, f => f
    | Some g, Some f => Some (FormatterChain f g)
    | Some g, None => Some g
    end in
  let store := match t_Store s with
    | Some st => Some st
    | None => match T_StoreFactory t with None => T_Store t | Some factory => Some (factory (defaultStore c)) end
    end in
  let s := mkTemplated _ (t_schema s) formatter store in
  match T_Customize t with Some f => f s | None => s end.
Definition templates_of c (s : APISchema) : list Template :=
  templates_at c (S_ID s) ++ templates_at c (S_Group s +:+ "/" +:+ S_Kind s) ++ templates_at c "".
Definition applyTemplates c s : templated := foldl (apply_template c) s (templates_of c (t_schema s)).

(** ** Starting and stopping *)
(** [run_contexts]: the contexts made, with their schema and whether they are cancelled. *)
Record running_state := mkRunning {
  running : gmap string nat;
  run_contexts : list (string * bool);
  run_world : world }.
Implicit Types (r : running_state).
Fixpoint start (ctx : nat) (l : list Template) (w : world) : world * option string :=
  match l with
  | [] => (w, None)
  | t :: l =>
      match T_Start t with
      | None => start ctx l w
      | Some f => match f ctx w with (w, Some err) => (w, Some err) | (w, None) => start ctx l w end
      end
  end.
Definition cancel (i : nat) r : running_state :=
  mkRunning (running r) (alter (λ x, (x.1, true)) i (run_contexts r)) (run_world r).
Definition start_template c r (id : string) : running_state :=
  match running r !! id with
  | Some _ => r
  | None =>
      match templates_at c id with
      | [] => r
      | ts =>
          let i := length (run_contexts r) in
          match start i ts (run_world r) with
          | (w, None) => mkRunning (<[id := i]> (running r)) (run_contexts r ++ [(id, false)]) w
          | (w, Some _) => mkRunning (running r) (run_contexts r ++ [(id, true)]) w
          end
      end
  end.
Definition stop_template (schemas : gmap string APISchema) r (p : string * nat) : running_state :=
  if bool_decide (is_Some (schemas !! p.1)) then r
  else let r := cancel p.2 r in mkRunning (delete p.1 (running r)) (run_contexts r) (run_world r).
Definition startStopTemplate c (schemas : gmap string APISchema) r : running_state :=
  let r := foldl (start_template c) r (range_keys schemas) in
  foldl (stop_template schemas) r (range_map (running r)).

(** ** Notifiers *)
Record notifier_state (callback : Type) := mkNotifiers { notifiers : gmap nat callback; notifierID : nat }.
Definition OnChange {callback : Type} (cb : callback) (n : notifier_state callback) : notifier_state callback * nat :=
  (mkNotifiers _ (<[notifierID _ n := cb]> (notifiers _ n)) (S (notifierID _ n)), notifierID _ n).
Definition OnChange_done {callback : Type} (id : nat) (n : notifier_state callback) : notifier_state callback :=
  mkNotifiers _ (delete id (notifiers _ n)) (notifierID _ n).
(** The callbacks a reset calls. *)
Definition notified {callback : Type} (n : notifier_state callback) : list callback := (range_map (notifiers _ n)).*2.
End templates.

(** ** What a schema gets *)
Section templates_lemmas.
Context `{TemplateTypes, MapRange}.
Implicit Types (c : gmap string (list Template)) (t : Template) (s : templated).
(** What a formatter does, as the formatters it runs in order. *)
Context (runs : Formatter → list Formatter) (runs_chain : ∀ f g, runs (FormatterChain f g) = runs f ++ runs g).
Definition runs_of (f : option Formatter) : list Formatter := match f with Some f => runs f | None => [] end.
(** Customisations that touch neither formatter nor store. *)
Definition plain t : Prop := ∀ f, T_Customize t = Some f → ∀ s, t_Formatter (f s) = t_Formatter s ∧ t_Store (f s) = t_Store s.

(** The store of the first template that gives one. *)
Fixpoint first_store c (ts : list Template) : option Store :=
  match ts with
  | [] => None
  | t :: ts =>
      match T_StoreFactory t, T_Store t with
      | Some factory, _ => Some (factory (defaultStore c))
      | None, Some st => Some st
      | None, None => first_store c ts
      end
  end.
Lemma apply_all c ts s : Forall plain ts →
  runs_of (t_Formatter (foldl (apply_template c) s ts)) =
    (reverse ts ≫= λ t, runs_of (T_Formatter t)) ++ runs_of (t_Formatter s) ∧
  t_Store (foldl (apply_template c) s ts) = match t_Store s with Some st => Some st | None => first_store c ts end.
Proof.
  intros Hp. revert s. induction Hp as [|t ts Ht Hts IH]; intros s; cbn [foldl].
  - split; [done|]. by destruct (t_Store s).
  - destruct (IH (apply_template c s t)) as [-> ->].
    assert (∀ s, let s' := match T_Customize t with Some f => f s | None => s end in
      t_Formatter s' = t_Formatter s ∧ t_Store s' = t_Store s) as Hc.
    { intros s0. destruct (T_Customize t) eqn:Hf; [by apply Ht|done]. }
    unfold apply_template. cbn zeta. rewrite (proj1 (Hc _)), (proj2 (Hc _)). split.
    + rewrite reverse_cons, bind_app, <-app_assoc. f_equal. cbn. rewrite app_nil_r.
      destruct (t_Formatter s) as [g|], (T_Formatter t) as [f|]; cbn; rewrite ?runs_chain, ?app_nil_r; done.
    + cbn. destruct (t_Store s); [done|]. by destruct (T_StoreFactory t), (T_Store t).
Qed.

(** When no customisation touches them, the formatters of the default templates run first, those of the ID last, and the formatter the schema had after
    all of them; its store is the one it had, or that of the first template that gives one. *)
Theorem applyTemplates_spec c s : Forall plain (templates_of c (t_schema s)) →
  runs_of (t_Formatter (applyTemplates c s)) =
    (reverse (templates_at c "") ≫= λ t, runs_of (T_Formatter t)) ++
    (reverse (templates_at c (S_Group (t_schema s) +:+ "/" +:+ S_Kind (t_schema s))) ≫= λ t, runs_of (T_Formatter t)) ++
    (reverse (templates_at c (S_ID (t_schema s))) ≫= λ t, runs_of (T_Formatter t)) ++ runs_of (t_Formatter s) ∧
  t_Store (applyTemplates c s) =
    match t_Store s with Some st => Some st | None => first_store c (templates_of c (t_schema s)) end.
Proof.
  intros Hp. unfold applyTemplates. destruct (apply_all c (templates_of c (t_schema s)) s Hp) as [Hf Hs]. split; [|exact Hs].
  rewrite Hf. unfold templates_of. rewrite !reverse_app, !bind_app, <-!app_assoc. done.
Qed.

(** ** What runs *)
Definition running_ok (r : running_state) : Prop :=
  (∀ id i, running r !! id = Some i → run_contexts r !! i = Some (id, false)) ∧
  (∀ id i, run_contexts r !! i = Some (id, false) → running r !! id = Some i).
Lemma start_template_ok c r id : running_ok r → running_ok (start_template c r id).
Proof.
  intros [H1 H2]. unfold start_template. destruct (running r !! id) as [i|] eqn:Hid; [done|].
  destruct (templates_at c id) as [|t ts]; [done|]. destruct (start _ _ _) as [w [e|]].
  - split; cbn.
    + intros id' i Hi. apply lookup_app_l_Some. by apply H1.
    + intros id' i [Hi|[_ Hi]]%lookup_app_Some; [by apply H2|]. by apply list_lookup_singleton_Some in Hi as [_ Hi].
  - split; cbn.
    + intros id' i [[<- <-]|[Hne Hi]]%lookup_insert_Some.
      * by rewrite lookup_app_r, Nat.sub_diag.
      * apply lookup_app_l_Some. by apply H1.
    + intros id' i [Hi|[Hge Hi]]%lookup_app_Some.
      * destruct (decide (id' = id)) as [->|Hne]; [apply H2 in Hi; congruence|]. rewrite lookup_insert_ne by done. by apply H2.
      * apply list_lookup_singleton_Some in Hi as [Hi [= <-]]. rewrite lookup_insert_eq. f_equal. lia.
Qed.
Lemma stop_template_ok schemas r id i : running_ok r → running r !! id = Some i →
  running_ok (stop_template schemas r (id, i)) ∧
  (∀ id', running (stop_template schemas r (id, i)) !! id' =
     if decide (id' = id ∧ schemas !! id = None) then None else running r !! id').
Proof.
  intros [H1 H2] Hid. unfold stop_template. cbn [fst snd]. case_bool_decide as Hs.
  - split; [done|]. intros id'. rewrite decide_False; [done|]. intros [_ Hn]. rewrite Hn in Hs. by destruct Hs.
  - rewrite <-eq_None_not_Some in Hs. split.
    + split; cbn.
      * intros id' j [Hne Hj]%lookup_delete_Some. rewrite list_lookup_alter_ne; [by apply H1|].
        intros ->. pose proof (H1 _ _ Hj). pose proof (H1 _ _ Hid). congruence.
      * intros id' j Hj. destruct (decide (j = i)) as [->|Hne].
        { rewrite list_lookup_alter_eq in Hj. destruct (run_contexts r !! i); [by injection Hj|done]. }
        rewrite list_lookup_alter_ne in Hj by done. rewrite lookup_delete_ne; [by apply H2|].
        intros ->. apply H2 in Hj. congruence.
    + intros id'. cbn. destruct (decide (id' = id)) as [->|Hne].
      * rewrite lookup_delete_eq, decide_True by done. done.
      * rewrite lookup_delete_ne, decide_False by naive_solver. done.
Qed.
Lemma stop_all_ok schemas l r : running_ok r → NoDup l.*1 → (∀ id i, (id, i) ∈ l → running r !! id = Some i) →
  running_ok (foldl (stop_template schemas) r l) ∧
  ∀ id, running (foldl (stop_template schemas) r l) !! id =
    if decide (id ∈ l.*1 ∧ schemas !! id = None) then None else running r !! id.
Proof.
  revert r. induction l as [|[id i] l IH]; intros r Hok Hnd Hl; cbn [foldl].
  - split; [done|]. intros id. rewrite decide_False; [done|]. intros [[]%elem_of_nil _].
  - apply list.NoDup_cons in Hnd as [Hnot Hnd].
    destruct (stop_template_ok schemas r id i Hok (Hl _ _ ltac:(by left))) as [Hok' Hrun].
    destruct (IH (stop_template schemas r (id, i)) Hok' Hnd) as [Hok2 Hrun2].
    { intros id' i' Hin. rewrite Hrun, decide_False; [apply Hl; by right|]. intros [-> _]. apply Hnot.
      apply list_elem_of_fmap. by exists (id, i'). }
    split; [done|]. intros id'. rewrite Hrun2, Hrun. cbn.
    destruct (decide (id' ∈ l.*1 ∧ schemas !! id' = None)) as [[? ?]|Hn];
      [rewrite decide_True; [done|]; split; [by right|done]|].
    destruct (decide (id' = id ∧ schemas !! id = None)) as [[-> ?]|Hn2];
      [rewrite decide_True; [done|]; split; [by left|done]|].
    rewrite decide_False; [done|]. intros [[->|?]%elem_of_cons ?]; naive_solver.
Qed.

(** After a reset exactly the contexts of templates that run are not cancelled, each with its own schema, and
    all of them belong to schemas that exist; what ran and still has its schema goes on. *)
Theorem startStopTemplate_spec c schemas r : running_ok r →
  let r' := startStopTemplate c schemas r in
  running_ok r' ∧ (∀ id, is_Some (running r' !! id) → is_Some (schemas !! id)) ∧
  (∀ id i, running r !! id = Some i → is_Some (schemas !! id) → running r' !! id = Some i).
Proof.
  intros Hok. cbn zeta. unfold startStopTemplate. set (r1 := foldl (start_template c) r (range_keys schemas)).
  assert (running_ok r1 ∧ ∀ id i, running r !! id = Some i → running r1 !! id = Some i) as [Hok1 Hkeep].
  { unfold r1. clear r1. generalize (range_keys schemas). intros l. revert r Hok.
    induction l as [|id l IH]; intros r Hok; [done|]. cbn [foldl].
    destruct (IH _ (start_template_ok c r id Hok)) as [Hok' Hkeep]. split; [done|]. intros id' i Hi. apply Hkeep.
    unfold start_template. destruct (running r !! id) eqn:Hid; [done|]. destruct (templates_at c id); [done|].
    destruct (start _ _ _) as [w [e|]]; cbn; [done|]. rewrite lookup_insert_ne by congruence. done. }
  destruct (stop_all_ok schemas (range_map (running r1)) r1 Hok1) as [Hok2 Hrun].
  { apply NoDup_fst_range_map. }
  { intros id i. apply elem_of_range_map. }
  split_and!; [done| |].
  - intros id [i Hi]. rewrite Hrun in Hi. destruct (decide _) as [|Hn]; [done|].
    destruct (schemas !! id) eqn:Hs; [by eexists|]. destruct Hn. split; [|done].
    change ((range_map (running r1)).*1) with (range_keys (running r1)). apply elem_of_range_keys. by eexists.
  - intros id i Hi [sch Hs]. rewrite Hrun, decide_False by naive_solver. by apply Hkeep.
Qed.
End templates_lemmas.

(** A template with a group only is kept nowhere; one with a kind and an ID is not kept by its ID. *)
Example group_only_lost `{TemplateTypes, MapRange} :
  AddTemplate [mkTemplate _ "apps" "" "" None None None None None] ∅ = ∅.
Proof. reflexivity. Qed.
