(* ===== verification/HelmFormatter.v ===== *)
(** * Formatters of pods and helm releases: pkg/resources/formatters/formatter.go

    A release is stored compressed and encoded in a secret or a config map. The formatter decodes it when the request
    asks for it, and drops it otherwise. *)
From S2P Require Import Prelude GoLib GoValue KubeTypes.

(** encoding/base64, compress/gzip, encoding/json and the protocol buffers of helm. Decoding gives a slice of a
    buffer: its bytes, and those that are left in the buffer behind them. *)
Class Codecs := {
  base64_DecodeString : string → outcome string (string * string);
  Reader : Type;
  bytes_NewReader : string → Reader;
  gzip_NewReader : Reader → outcome string Reader;
  io_ReadAll : Reader → outcome string string;
  json_Decode : Reader → outcome string goval;
  proto_Unmarshal : string → outcome string goval
}.
Definition ErrNotHelmRelease : string := "not helm release".
Definition magicGzip : string :=
  String (ascii_of_nat 31) (String (ascii_of_nat 139) (String (ascii_of_nat 8) "")).

Section helm.
Context `{ObjectEdit, Codecs}.
(* convert.LowerTitle and data.Object.StringSlice of wrangler *)
Context (LowerTitle : string → string) (StringSlice : object → list string → list string).

(** [b[0:3]]: a slice may reach into the buffer behind it, but not further. *)
Definition first_three (b : string * string) : outcome string string :=
  if bool_decide (String.length (b.1 +:+ b.2) < 3) then Panic else Ok (str_take 3 (b.1 +:+ b.2)).
Definition decodeHelm3 (data : string) : outcome string goval :=
  b ← base64_DecodeString data;
  if bool_decide (String.length b.1 <= 3) then Err ErrNotHelmRelease
  else
    header ← first_three b;
    let r := bytes_NewReader b.1 in
    r ← (if bool_decide (header = magicGzip) then gzip_NewReader r else Ok r);
    json_Decode r.
Definition decodeHelm2 (data : string) : outcome string goval :=
  b ← base64_DecodeString data;
  header ← first_three b;
  b ← (if bool_decide (header = magicGzip) then r ← gzip_NewReader (bytes_NewReader b.1); io_ReadAll r else Ok b.1);
  proto_Unmarshal b.

Definition DropHelmData (o : object) : object :=
  if bool_decide (Object_String o ["metadata"; "labels"; "owner"] = "helm") ||
     bool_decide (Object_String o ["metadata"; "labels"; "OWNER"] = "TILLER")
  then
    if bool_decide (Object_String o ["data"; "release"] ≠ "") then
      match o !! "data" with Some (GMap m) => <["data" := GMap (delete "release" m)]> o | _ => o end
    else o
  else o.
(** An error leaves the object as it is at that point. *)
Definition put_release (decoded : outcome string goval) (o : object) (rest : object → outcome string object)
    : outcome string object :=
  match decoded with
  | Ok rl => rest (SetNested o rl ["data"; "release"])
  | Err _ => Ok o
  | Panic => Panic
  end.
Definition HandleHelmData (includeHelmData type : string) (o : object) : outcome string object :=
  if bool_decide (includeHelmData = "true") then
    let release := Object_String o ["data"; "release"] in
    let decode (helmReleaseData : string) :=
      let tiller o :=
        if bool_decide (Object_String o ["metadata"; "labels"; "OWNER"] = "TILLER")
        then put_release (decodeHelm2 helmReleaseData) o Ok else Ok o in
      if bool_decide (Object_String o ["metadata"; "labels"; "owner"] = "helm")
      then put_release (decodeHelm3 helmReleaseData) o tiller else tiller o in
    if bool_decide (type = "secret") then
      match base64_DecodeString release with Ok b => decode b.1 | Err _ => Ok o | Panic => Panic end
    else decode release
  else Ok (DropHelmData o).

Definition Pod (o : object) : object :=
  match StringSlice o ["metadata"; "fields"] with
  | _ :: _ :: state :: _ => SetNested o (GString (LowerTitle state)) ["metadata"; "state"; "name"]
  | _ => o
  end.

(** Without the parameter of the request the release of helm is never shown, and nothing else changes. *)
Theorem DropHelmData_release `{ObjectData, !ObjectEditLaws, !ObjectDataLaws} type includeHelmData o m :
  includeHelmData ≠ "true" → o !! "data" = Some (GMap m) →
  (Object_String o ["metadata"; "labels"; "owner"] = "helm" ∨ Object_String o ["metadata"; "labels"; "OWNER"] = "TILLER") →
  Object_String o ["data"; "release"] ≠ "" →
  HandleHelmData includeHelmData type o = Ok (<["data" := GMap (delete "release" m)]> o).
Proof.
  intros Hi Hm Hlabel Hrel. unfold HandleHelmData, DropHelmData. rewrite (bool_decide_eq_false_2 (includeHelmData = _)) by done.
  assert (bool_decide (Object_String o ["metadata"; "labels"; "owner"] = "helm") ||
    bool_decide (Object_String o ["metadata"; "labels"; "OWNER"] = "TILLER") = true) as ->.
  { apply orb_true_iff. rewrite !bool_decide_eq_true. exact Hlabel. }
  by rewrite bool_decide_eq_true_2, Hm by done.
Qed.

(** A release of tiller that is empty makes the formatter panic: of its bytes three are taken without asking for
    their number, as decodeHelm3 does. *)
Theorem empty_tiller_release_panics o type :
  base64_DecodeString "" = Ok ("", "") → type ≠ "secret" →
  Object_String o ["data"; "release"] = "" →
  Object_String o ["metadata"; "labels"; "owner"] ≠ "helm" →
  Object_String o ["metadata"; "labels"; "OWNER"] = "TILLER" →
  HandleHelmData "true" type o = Panic.
Proof.
  intros Hb Ht Hr Ho HO. unfold HandleHelmData. rewrite bool_decide_eq_true_2 by done.
  rewrite (bool_decide_eq_false_2 (type = _)), (bool_decide_eq_false_2 (_ = "helm")) by done.
  rewrite bool_decide_eq_true_2 by done. unfold decodeHelm2. rewrite Hr, Hb. done.
Qed.
Theorem decodeHelm3_no_panic data :
  base64_DecodeString data ≠ Panic → (∀ r, gzip_NewReader r ≠ Panic) → (∀ r, json_Decode r ≠ Panic) →
  decodeHelm3 data ≠ Panic.
Proof.
  intros Hb Hg Hj. unfold decodeHelm3. destruct (base64_DecodeString data) as [b|e|]; cbn; [|done..].
  case_bool_decide as Hlen; [done|]. unfold first_three. rewrite bool_decide_eq_false_2.
  - cbn. case_bool_decide; cbn; [|apply Hj]. specialize (Hg (bytes_NewReader b.1)).
    destruct (gzip_NewReader _); cbn; [apply Hj|done|done].
  - rewrite str_length_app. lia.
Qed.
End helm.
